(* ===== verification/_CoqProject ===== *)
-Q . S2P
Prelude.v
GoString.v
FileTree.v
GoFloat.v
GoTime.v
Json.v
JsonWrite.v
Wire.v
Units.v
Protocol.v
Profile.v
Snapshot.v
Desired.v
ConfFile.v
Messages.v
Config.v
AuditLog.v
Sink.v
Findings.v
Decide.v
Body.v
Redis.v
Schema.v
Validate.v
Queue.v
FloatText.v
Handler.v
Events.v
Text.v
Service.v
Main.v
Heartbeat.v
Shutdown.v
Flags.v
Probe.v
