(* ===== verification/Prelude.v ===== *)
(** * A formal model of the Placitum json inspector

    The inspector checks HTTP calls and WebSocket frames against their contract,
    an OpenAPI document or a JSON Schema. A module in a proxy sends it requests
    over a message bus; it answers allow, score, deny or error. The files of this
    development follow the packages under src/, and every definition keeps the
    name of the function or type it translates where it can.

    ** The parts

    What the sources take from Go's standard library:
    - [GoString]: strings, unicode/utf8, strconv, encoding/hex, sort;
    - [GoFloat]: float64 arithmetic as rationals rounded to 53 bits; [FloatText]:
      the shortest decimal text of such a number, as JSON has it;
    - [GoTime], [Flags]: time.ParseDuration, and package flag with the integers and
      booleans it reads;
    - [FileTree]: os and path/filepath, the file system as a map from paths;
    - [Json]: the tokens and values of encoding/json, under the functions of
      internal/schema/scan.go that use them;
    - [JsonWrite]: its writer, with the escapes of strings and what it makes of
      documents inside documents, and the reading back of what it writes;
    - [Wire]: the Go types of tagged structs and their values, and Marshal and
      Unmarshal over them.

    The data the parts exchange:
    - [Protocol]: internal/protocol, requests, replies and their checks;
    - [Messages]: the tags of its structs, and so the bytes of the messages;
    - [Units], [Profile]: internal/config/profile.go and internal/overload, the
      profiles, their defaults and validation.

    The configuration:
    - [ConfFile], [Config]: internal/config/file.go, config.go and logship.go, the
      file inspector.conf and the settings of the process;
    - [Snapshot]: internal/config/profiles.go, the store of profiles and its
      reloads, overlapping as a step relation;
    - [Desired]: internal/desired, the manifest from the bus, its unpacking on a
      disk that may fail at every operation, and the loop that watches for it.

    The check of one call:
    - [Body]: internal/body, loading by locator; [Redis]: its store with the writing
      side, over a server with a state;
    - [Findings], [Schema]: internal/schema, contracts and what they report;
    - [Validate]: internal/validate, the order of the checks;
    - [Decide]: internal/decide, from an outcome to a verdict, asks and bans.

    The process around it:
    - [Queue]: internal/queue, the pool; submitters, workers, sweeper and Close as
      a step relation with time;
    - [AuditLog]: internal/audit, events and the sink that batches them, down to
      the bytes of a batch;
    - [Sink]: the goroutine of the sink and Close, as a step relation that refines
      the critical sections of [AuditLog];
    - [Handler]: cmd/inspector/handler.go and lists.go, from a message to what
      leaves the process; [Events]: the documents of its audit events;
    - [Text]: that all the text a reply may carry is valid UTF-8;
    - [Service]: the abstract server the inspector is to its clients;
    - [Main]: cmd/inspector/main.go, start-up and the running process: store, pool,
      handler and messages interleaved;
    - [Heartbeat]: its heartbeat, a goroutine whose readings anything may come
      between;
    - [Shutdown]: from the signal to the return of run, with the goroutines of the
      pool and of the sink running on;
    - [Probe]: cmd/probe, the health check, from its arguments to its exit status,
      and the profile of the image it is for.

    [Prelude] has errors, the result monad, machine integers, the lemmas and the
    automation the files share.

    ** How they interact

    [Main.process_step] puts the parts together as the sources do. A message goes
    to [Handler.receive], which answers it or hands a task to the pool
    ([Queue.pool_step]); the pool calls [Handler.evaluate] for every task once; that
    looks up the snapshot in force ([Snapshot.Store]), loads the objects
    ([Body.LoadMany]), runs the checks ([Validate.Run], which calls the contract of
    [Schema]), decides ([Decide.From], [Decide.Fire]) and sends. Meanwhile the
    watchers of the directory and of the desired state move the store by
    [Snapshot.store_step]; [Snapshot.Reload_steps], [Snapshot.ReloadFrom_steps] and
    [Desired.watch_step_steps] show that the operations are runs of these steps.
    [Heartbeat.live_step] puts the watcher of the desired state and the heartbeat
    beside this process, and [Shutdown.life_step] the goroutine of the sink
    ([Sink.step]) and that of main, which closes pool and sink on its way out.

    The components count on each other through interfaces: [Handler.Served] is
    what the store promises the handler, and [Handler.sound_served] discharges it
    from [Snapshot.snapshot_ok]; [Body.ConsistentStore] is what a store with a
    batch operation promises the loader, and [Body.redis_consistent] discharges it
    for Redis; [Service.server] is what the process promises its clients, and
    [Main.process_refines] discharges it.

    ** What is shown

    - Of the process: it refines the abstract server ([Main.process_refines]);
      every message gets the one answer it is due, and no answer is malformed
      ([Main.messages_answered]); it can always finish what it has
      ([Main.process_drains]) and exit ([Shutdown.exit_reached]); when it has exited
      nothing it took on is unanswered, and the events of its replies have been
      published as documents that read back ([Shutdown.exit_complete]); the bytes of
      its replies read back as the replies it made ([Main.replies_read_back]); its
      heartbeats tell the truth ([Heartbeat.heartbeats_true]) and stop
      ([Heartbeat.heartbeat_stops]); a healthy one denies the probe, from the bytes
      of the request to those of the reply ([Probe.probe_healthy]).
    - Of the messages: a request sent on parses as itself ([Messages.parsed_again]),
      and so does a reply ([Messages.replies_round_trip]). Both rest on
      [JsonWrite.parse_print] and [Wire.unmarshal_marshal].
    - Of one call: an allowed body has been validated whole
      ([Handler.allowed_body_validated], [Validate.Run_sound], [Validate.Run_gate]),
      a denial has a reason ([Handler.denial_justified]), replies are well formed
      ([Handler.inspect_reply]), the observe mode never denies
      ([Decide.From_observe]).
    - Of the pool: the invariants of every interleaving ([Queue.pool_sound]) and
      that it drains and Close returns ([Queue.pool_drains]).
    - Of the configuration: what validation accepts ([Profile.Validate_spec]), that
      the store always serves a sound snapshot ([Snapshot.store_sound]), that its
      watcher settles while the files stay ([Snapshot.Watch_settles]), that
      applying a manifest is all or nothing whatever the disk does
      ([Desired.Apply_whole]), that what is reported as applied is
      ([Desired.watch_reports]), that a manifest cannot write outside its directory
      ([Desired.Parse_confined]), that the file of settings reads back
      ([ConfFile.parse_render]).
    - Of the parts: batched loading is loading one by one ([Body.LoadMany_spec]),
      objects that were put are loaded ([Redis.put_loads]), what the scan accepts
      decodes ([Json.Scan_accepts_decodable]), scaling and summing of scores with the
      rounding and wrap-around of the machine ([Decide.ScaleScore_spec],
      [Decide.EvaluatePrior_spec]), durations and flags read back
      ([GoTime.ParseDuration_whole], [Probe.main_spec]), the sink loses nothing but what it counts
      ([AuditLog.sink_reachable_inv]), what it publishes reads back as what was
      added ([AuditLog.flush_read]), and Close returns when it is all out
      ([Sink.close_spec]).

    Lemmas that show the code do something its comments, documents or name do not
    suggest are named for it: [Units.ParseSize_number], [Decide.EvaluatePrior_wraps],
    [Decide.ScaleScore_tie], [Findings.clamp_spec], [Schema.finish_recounts],
    [Validate.Run_blank_body], [Body.Load_nonce_panics], [Snapshot.Reload_misses_edit],
    [Snapshot.store_goes_back], [Desired.HashWith_collides],
    [Handler.disabled_phase_fires], [Heartbeat.beat_forgets], [Queue.far_deadline_expires],
    [Sink.done_stays].

    ** Conventions

    A Go int or int64 is a [Z] with [wrap64] written where the code computes; a
    string is its bytes; a pointer that may be nil is an option; a map is a [gmap],
    and where the code ranges over one the theorems hold for every order the code's
    result does not depend on. A function that returns an error returns [result].
    A panic is the error [Panic]; [Handler.evaluate] is where it is recovered.
    Shared state under a mutex moves by step relations whose rules are the critical
    sections.

    Recursion that is not structural has fuel: [Json.Scan_fuel] is given the
    length of the body and one, since every token consumes a byte, and
    [Json.Scan_terminates] shows it is enough. The decoder's fuel is twice the
    length of the document, and [JsonWrite.document_fuel] shows that more changes
    nothing. [AuditLog.flush] counts the items pending; [GoTime.quantities] the bytes
    of the text, each of whose numbers takes at least one ([GoTime.quantities_fuel]).

    ** What is not modelled

    Libraries outside src/ are parameters, with what the code relies on as named
    hypotheses: the JSON Schema and OpenAPI validators, YAML, Redis, NATS and
    JetStream, SHA-256, AES-GCM, [url.Parse], [filepath.Abs], and the shared packages
    for lists, geography, log levels and heartbeat messages. Left out: logging, the
    times at which tickers tick and signals come, which are any, the connection
    handlers of the bus, the flow counters, and version.go, two variables the
    linker sets. *)
From Stdlib Require Export Ascii String Lia ZArith.
From stdpp Require Export base list strings gmap.
From stdpp Require Import tactics.

Declare Scope go_scope.
Delimit Scope go_scope with go.
Open Scope go_scope.
Open Scope Z_scope.

(** ** Errors and results

    A Go [error] value is what the callers can observe of it: the sentinel it
    is or wraps ([errors.Is]), and the format string of the site that made it.
    The arguments interpolated into the message are not kept. A panic is not an
    error value in Go, but like one it ends the computation and is caught by one
    caller, the [recover] of the handler: here it is the constructor [Panic]. *)
Inductive error : Type :=
| Errorf (format : string)
| Wrapf (format : string) (cause : error)
| ErrTooDeep
| ErrUnknownDriver
| ErrScoreRange
| ErrNotExist
| EOF
| Panic.

#[export] Instance error_eq_dec : EqDecision error.
Proof. solve_decision. Defined.

(** [errors.Is]: the chain of wrapped causes reaches the target. *)
Fixpoint errors_is (e target : error) : bool :=
  bool_decide (e = target) ||
  match e with
  | Wrapf _ cause => errors_is cause target
  | _ => false
  end.

Inductive result (A : Type) : Type :=
| Ok (a : A)
| Err (e : error).
Arguments Ok {A} a.
Arguments Err {A} e.

#[export] Instance result_eq_dec {A} `{EqDecision A} : EqDecision (result A).
Proof. solve_decision. Defined.

Definition is_ok {A} (r : result A) : bool :=
  match r with Ok _ => true | Err _ => false end.

#[export] Instance result_ret : MRet result := @Ok.
#[export] Instance result_bind : MBind result := λ _ _ f r,
  match r with Ok a => f a | Err e => Err e end.

(** [if err := f(); err != nil { return err }] is a bind in this monad; the
    [errorf] of a guard is [fail_if]. *)
Definition errorf {A} (format : string) : result A := Err (Errorf format).

Definition wrapf {A} (format : string) (r : result A) : result A :=
  match r with Ok a => Ok a | Err e => Err (Wrapf format e) end.

Definition fail_if (b : bool) (format : string) : result unit :=
  if b then errorf format else Ok tt.

(** Sequencing is stdpp's [x ← r; k] and [r;; k]. *)

Definition is_some {A} (o : option A) : bool := match o with Some _ => true | None => false end.
Definition is_nil {A} (l : list A) : bool := match l with [] => true | _ => false end.

(** [for i, x := range l { if err := f(i, x); err != nil { return err } }] *)
Fixpoint for_each {A} (f : nat → A → result unit) (i : nat) (l : list A) : result unit :=
  match l with
  | [] => Ok tt
  | x :: l => f i x;; for_each f (S i) l
  end.

(** ** Strings

    A Go string is a byte sequence, and so is [String.string]. *)
#[global] Arguments String.eqb : simpl never.
Notation "s =s? t" := (String.eqb s t) (at level 70) : go_scope.

Definition is_empty (s : string) : bool := s =s? "".

Fixpoint has_string (list : list string) (want : string) : bool :=
  match list with
  | [] => false
  | v :: list => if v =s? want then true else has_string list want
  end.

(** ** Machine integers *)

Definition int64_min : Z := - 2 ^ 63.
Definition int64_max : Z := 2 ^ 63 - 1.
Definition int64 (z : Z) : Prop := int64_min ≤ z ≤ int64_max.

(** The value an [int] or [int64] operation leaves in its 64 bits. *)
Definition wrap64 (z : Z) : Z := (z + 2 ^ 63) mod 2 ^ 64 - 2 ^ 63.

(** [time.Time.Sub] saturates instead of wrapping. *)
Definition saturate64 (z : Z) : Z := Z.max int64_min (Z.min int64_max z).

Definition len {A} (l : list A) : Z := Z.of_nat (length l).

(** ** Lemmas shared by the components *)

Lemma seqb_eq s t : (s =s? t) = true ↔ s = t.
Proof. apply String.eqb_eq. Qed.

Lemma seqb_neq s t : (s =s? t) = false ↔ s ≠ t.
Proof. apply String.eqb_neq. Qed.

Lemma seqb_refl s : (s =s? s) = true.
Proof. apply String.eqb_refl. Qed.

Lemma is_empty_true s : is_empty s = true ↔ s = "".
Proof. apply seqb_eq. Qed.

Lemma is_empty_false s : is_empty s = false ↔ s ≠ "".
Proof. apply seqb_neq. Qed.

Lemma has_string_spec l s : has_string l s = true ↔ s ∈ l.
Proof.
  induction l as [|v l IH]; simpl.
  - split; [done|]. by intros ?%not_elem_of_nil.
  - rewrite elem_of_cons. destruct (String.eqb_spec v s) as [->|Hne]; [naive_solver|].
    rewrite IH. naive_solver.
Qed.

Lemma has_string_false l s : has_string l s = false ↔ s ∉ l.
Proof. rewrite <- has_string_spec. by destruct (has_string l s). Qed.

(** Membership and inclusion of literal lists, by evaluation. *)
Lemma elem_of_eval l s : has_string l s = true → s ∈ l.
Proof. apply has_string_spec. Qed.

Lemma sub_of_eval l k : forallb (has_string k) l = true → ∀ s, s ∈ l → s ∈ k.
Proof.
  intros H s Hs. apply has_string_spec. rewrite forallb_forall in H. apply H.
  by apply list_elem_of_In.
Qed.

Lemma wrap64_id z : int64 z → wrap64 z = z.
Proof.
  unfold int64, int64_min, int64_max, wrap64. intros.
  rewrite Z.mod_small; lia.
Qed.

Lemma wrap64_range z : int64 (wrap64 z).
Proof.
  unfold int64, int64_min, int64_max, wrap64.
  pose proof (Z.mod_pos_bound (z + 2 ^ 63) (2 ^ 64)). lia.
Qed.

Lemma wrap64_mod z : wrap64 z mod 2 ^ 64 = z mod 2 ^ 64.
Proof.
  unfold wrap64. rewrite Zminus_mod_idemp_l. f_equal. lia.
Qed.

Lemma bind_ok {A B} (f : A → result B) r b :
  mbind f r = Ok b → ∃ a, r = Ok a ∧ f a = Ok b.
Proof. destruct r; simpl; [eauto|done]. Qed.

Lemma seq_ok {A} (r : result unit) (k : result A) a :
  (r;; k) = Ok a ↔ r = Ok tt ∧ k = Ok a.
Proof. destruct r as [[]|]; simpl; naive_solver. Qed.

Lemma fail_if_ok b fmt : fail_if b fmt = Ok tt ↔ b = false.
Proof. by destruct b. Qed.

Lemma wrapf_ok {A} fmt (r : result A) a : wrapf fmt r = Ok a ↔ r = Ok a.
Proof. by destruct r. Qed.

Lemma is_some_true {A} (o : option A) : is_some o = true ↔ is_Some o.
Proof. destruct o; split; [eauto|done|done|by intros []]. Qed.

Lemma is_ok_true {A} (r : result A) : is_ok r = true ↔ ∃ a, r = Ok a.
Proof. destruct r; simpl; naive_solver. Qed.

Lemma for_each_ok {A} (f : nat → A → result unit) (P : A → Prop) i l :
  (∀ i x, f i x = Ok tt ↔ P x) → for_each f i l = Ok tt ↔ Forall P l.
Proof.
  intros Hf. revert i. induction l as [|x l IH]; intros i; simpl.
  - by rewrite Forall_nil_iff.
  - by rewrite seq_ok, Forall_cons_iff, Hf, IH.
Qed.

Lemma omap_cons_list {A B} (f : A → option B) x l :
  omap f (x :: l) = (option_list (f x) ++ omap f l)%list.
Proof. cbn. by destruct (f x). Qed.

Lemma sublist_Some {A} (l k : list A) : sublist (Some <$> l) (Some <$> k) → sublist l k.
Proof.
  revert l. induction k as [|a k IH]; intros [|b l] H; try by apply sublist_nil_l.
  - by apply sublist_nil_r in H.
  - cbn in H. apply sublist_cons_r in H as [H|(l' & E & H)].
    + apply sublist_cons. by apply IH.
    + simplify_eq. apply sublist_skip. by apply IH.
Qed.

(** ** Automation *)

Create HintDb go discriminated.
Create Rewrite HintDb go.
#[export] Hint Resolve wrap64_range wrap64_id : go.
#[export] Hint Rewrite @seq_ok @wrapf_ok fail_if_ok andb_true_iff andb_false_iff
  orb_true_iff orb_false_iff negb_true_iff negb_false_iff seqb_eq seqb_neq
  is_empty_true is_empty_false has_string_spec has_string_false
  Z.ltb_lt Z.ltb_ge Z.leb_le Z.leb_gt Z.eqb_eq Z.eqb_neq : go.

(** Case analysis on the string comparison a [switch] makes next. *)
Ltac case_str :=
  match goal with
  | |- context [String.eqb ?a ?b] => destruct (String.eqb_spec a b)
  | H : context [String.eqb ?a ?b] |- _ => destruct (String.eqb_spec a b)
  end; simplify_eq/=.

(** Reads boolean guards as propositions, in the goal and the hypotheses. *)
Ltac guards := autorewrite with go in *.
