(* ===== verification/GoString.v ===== *)
(** * Packages strings, unicode/utf8, strconv, hex and sort, as the inspector uses them

    Go strings are byte sequences. The functions that look at characters decode
    UTF-8 first; the Unicode tables behind them (case mapping, folding, letters
    and digits outside ASCII) are the class [Unicode]. *)
From stdpp Require Import sorting.
From S2P Require Import Prelude.

(** ** Bytes *)

Definition bytes (s : string) : list ascii := list_ascii_of_string s.
Definition of_bytes (l : list ascii) : string := string_of_list_ascii l.

Definition code (c : ascii) : Z := Z.of_N (N_of_ascii c).
Definition byte (z : Z) : ascii := ascii_of_N (Z.to_N z).

Definition slen (s : string) : Z := Z.of_nat (String.length s).

(** [s[:n]] and [s[n:]]; the callers stay within the bounds. *)
Definition str_take (n : nat) (s : string) : string := of_bytes (take n (bytes s)).
Definition str_drop (n : nat) (s : string) : string := of_bytes (drop n (bytes s)).

Fixpoint lprefix (p l : list ascii) : bool :=
  match p, l with
  | [], _ => true
  | a :: p, b :: l => Ascii.eqb a b && lprefix p l
  | _ :: _, [] => false
  end.

Definition HasPrefix (s p : string) : bool := lprefix (bytes p) (bytes s).
Definition HasSuffix (s p : string) : bool := lprefix (rev (bytes p)) (rev (bytes s)).

Definition TrimPrefix (s p : string) : string :=
  if HasPrefix s p then str_drop (String.length p) s else s.
Definition TrimSuffix (s p : string) : string :=
  if HasSuffix s p then str_take (String.length s - String.length p) s else s.
Definition CutSuffix (s p : string) : string * bool :=
  if HasSuffix s p then (str_take (String.length s - String.length p) s, true) else (s, false).

(** [strings.IndexByte]; [None] is the [-1] of the code. *)
Fixpoint index_byte (c : ascii) (l : list ascii) : option nat :=
  match l with
  | [] => None
  | a :: l => if Ascii.eqb a c then Some O else S <$> index_byte c l
  end.
Definition IndexByte (s : string) (c : ascii) : option nat := index_byte c (bytes s).

(** [strings.Cut(s, sep)] for a one-byte separator. *)
Definition Cut (s : string) (c : ascii) : string * string * bool :=
  match IndexByte s c with
  | Some i => (str_take i s, str_drop (S i) s, true)
  | None => (s, "", false)
  end.

Definition ContainsAny (s chars : string) : bool :=
  existsb (λ a, existsb (Ascii.eqb a) (bytes chars)) (bytes s).

(** [strings.Split(s, sep)] for a one-byte separator: never empty. *)
Fixpoint split_bytes (c : ascii) (l : list ascii) : list (list ascii) :=
  match l with
  | [] => [[]]
  | a :: l =>
      if Ascii.eqb a c then [] :: split_bytes c l
      else match split_bytes c l with
           | [] => [[a]]
           | part :: parts => (a :: part) :: parts
           end
  end.
Definition Split (s : string) (c : ascii) : list string :=
  of_bytes <$> split_bytes c (bytes s).

Fixpoint Join (l : list string) (sep : string) : string :=
  match l with
  | [] => ""
  | [s] => s
  | s :: l => s +:+ sep +:+ Join l sep
  end.

(** [strings.ReplaceAll(s, old, new)], old not empty: leftmost matches that do
    not overlap. [skip] counts the bytes of the current match still to drop. *)
Fixpoint replace_bytes (old new l : list ascii) (skip : nat) : list ascii :=
  match l with
  | [] => []
  | a :: l' =>
      match skip with
      | S skip => replace_bytes old new l' skip
      | O => if lprefix old l then new ++ replace_bytes old new l' (length old - 1)
             else a :: replace_bytes old new l' O
      end
  end.
Definition ReplaceAll (s old new : string) : string :=
  of_bytes (replace_bytes (bytes old) (bytes new) (bytes s) O).

Fixpoint drop_while {A} (f : A → bool) (l : list A) : list A :=
  match l with
  | [] => []
  | a :: l' => if f a then drop_while f l' else l
  end.

(** [strings.Trim(s, c)] for a one-byte cutset. *)
Definition Trim (s : string) (c : ascii) : string :=
  of_bytes (rev (drop_while (Ascii.eqb c) (rev (drop_while (Ascii.eqb c) (bytes s))))).

(** ** UTF-8 *)

Definition rune_self : Z := 128.
Definition rune_error : Z := 65533.

Definition between (lo hi : Z) (c : ascii) : bool := (lo <=? code c) && (code c <=? hi).
Definition low6 (c : ascii) : Z := Z.land (code c) 63.

(** [utf8.DecodeRune] on a non-empty input: the rune and its width. *)
Definition decode_rune (a : ascii) (l : list ascii) : Z * nat :=
  let bad := (rune_error, 1%nat) in
  let three lo hi :=
    match l with
    | b :: c :: _ =>
        if between lo hi b && between 128 191 c
        then (Z.shiftl (Z.land (code a) 15) 12 + Z.shiftl (low6 b) 6 + low6 c, 3%nat) else bad
    | _ => bad
    end in
  let four lo hi :=
    match l with
    | b :: c :: d :: _ =>
        if between lo hi b && between 128 191 c && between 128 191 d
        then (Z.shiftl (Z.land (code a) 7) 18 + Z.shiftl (low6 b) 12 +
              Z.shiftl (low6 c) 6 + low6 d, 4%nat) else bad
    | _ => bad
    end in
  if code a <? 128 then (code a, 1%nat)
  else if between 194 223 a then
    match l with
    | b :: _ =>
        if between 128 191 b
        then (Z.shiftl (Z.land (code a) 31) 6 + low6 b, 2%nat) else bad
    | _ => bad
    end
  else if between 224 224 a then three 160 191
  else if between 225 236 a then three 128 191
  else if between 237 237 a then three 128 159
  else if between 238 239 a then three 128 191
  else if between 240 240 a then four 144 191
  else if between 241 243 a then four 128 191
  else if between 244 244 a then four 128 143
  else bad.

(** [for _, r := range s]: the runes of a string, invalid bytes as U+FFFD.
    [skip] counts the bytes of the current rune still to pass. *)
Fixpoint runes_of (l : list ascii) (skip : nat) : list Z :=
  match l with
  | [] => []
  | a :: l =>
      match skip with
      | S skip => runes_of l skip
      | O => let '(r, n) := decode_rune a l in r :: runes_of l (n - 1)
      end
  end.
Definition runes (s : string) : list Z := runes_of (bytes s) O.

(** [utf8.AppendRune] *)
Definition encode_rune (r : Z) : list ascii :=
  let cont k := byte (128 + Z.land (Z.shiftr r k) 63) in
  let surrogate := (55296 <=? r) && (r <=? 57343) in
  if (0 <=? r) && (r <? 128) then [byte r]
  else if (0 <=? r) && (r <? 2048) then [byte (192 + Z.shiftr r 6); cont 0]
  else if (r <? 0) || (1114111 <? r) || surrogate then [byte 239; byte 191; byte 189]
  else if r <? 65536 then [byte (224 + Z.shiftr r 12); cont 6; cont 0]
  else [byte (240 + Z.shiftr r 18); cont 12; cont 6; cont 0].

Definition encode_runes (l : list Z) : string := of_bytes (mjoin (encode_rune <$> l)).

(** ** Character classes and case

    What the standard tables say of the code points from U+0080 up. *)
Class Unicode := {
  uc_lower : Z → Z;
  uc_upper : Z → Z;
  uc_fold : Z → Z → bool;
  uc_letter : Z → bool;
  uc_digit : Z → bool
}.

(** Tables that know no character outside ASCII. *)
Definition ascii_tables : Unicode := {|
  uc_lower := id; uc_upper := id; uc_fold := λ _ _, false;
  uc_letter := λ _, false; uc_digit := λ _, false
|}.

Definition in_range (lo hi r : Z) : bool := (lo <=? r) && (r <=? hi).
Definition is_upper_ascii (r : Z) : bool := in_range 65 90 r.
Definition is_lower_ascii (r : Z) : bool := in_range 97 122 r.
Definition is_digit_ascii (r : Z) : bool := in_range 48 57 r.

(** The code points [unicode.IsSpace] accepts. *)
Definition space_runes : list Z :=
  [9; 10; 11; 12; 13; 32; 133; 160; 5760; 8192; 8193; 8194; 8195; 8196; 8197; 8198;
   8199; 8200; 8201; 8202; 8232; 8233; 8239; 8287; 12288].

Definition spaces : list (list ascii) := encode_rune <$> space_runes.

(** Drops leading space characters: one of [pats] at a time. A well-formed
    encoding is a prefix of the input exactly when the decoder reads that
    character there, so comparing bytes is what the code's decoding loop does. *)
Fixpoint trim_bytes (pats : list (list ascii)) (l : list ascii) (skip : nat) : list ascii :=
  match l with
  | [] => []
  | _ :: l' =>
      match skip with
      | S skip => trim_bytes pats l' skip
      | O => match find (λ p, lprefix p l) pats with
             | Some p => trim_bytes pats l' (length p - 1)
             | None => l
             end
      end
  end.

(** [strings.TrimSpace]: the end is trimmed from the last byte backwards. *)
Definition TrimSpace (s : string) : string :=
  let front := trim_bytes spaces (bytes s) O in
  of_bytes (rev (trim_bytes (@rev ascii <$> spaces) (rev front) O)).

Section unicode.
Context {U : Unicode}.

Definition to_lower (r : Z) : Z :=
  if r <? rune_self then (if is_upper_ascii r then r + 32 else r) else uc_lower r.
Definition to_upper (r : Z) : Z :=
  if r <? rune_self then (if is_lower_ascii r then r - 32 else r) else uc_upper r.
Definition is_letter (r : Z) : bool :=
  if r <? rune_self then is_upper_ascii r || is_lower_ascii r else uc_letter r.
Definition is_digit (r : Z) : bool :=
  if r <? rune_self then is_digit_ascii r else uc_digit r.

Definition ToLower (s : string) : string := encode_runes (to_lower <$> runes s).
Definition ToUpper (s : string) : string := encode_runes (to_upper <$> runes s).

(** Two characters that [strings.EqualFold] takes for the same. *)
Definition fold_eq (a b : Z) : bool :=
  (a =? b) ||
  (if (a <? rune_self) && (b <? rune_self)
   then (is_upper_ascii a && (b =? a + 32)) || (is_upper_ascii b && (a =? b + 32))
   else uc_fold a b).

Fixpoint fold_eq_runes (l k : list Z) : bool :=
  match l, k with
  | [], [] => true
  | a :: l, b :: k => fold_eq a b && fold_eq_runes l k
  | _, _ => false
  end.

Definition EqualFold (s t : string) : bool := fold_eq_runes (runes s) (runes t).
End unicode.

(** ** strconv *)

Definition digit_value (c : ascii) : option Z :=
  if is_digit_ascii (code c) then Some (code c - 48) else None.

Fixpoint digits_value (l : list ascii) (acc : Z) : option Z :=
  match l with
  | [] => Some acc
  | c :: l => d ← digit_value c; digits_value l (10 * acc + d)
  end.

(** [strconv.ParseInt(s, 10, 64)], and [strconv.Atoi] on a 64-bit machine:
    [None] for the syntax and the range error. *)
Definition ParseInt (s : string) : option Z :=
  let '(neg, l) :=
    match bytes s with
    | c :: l => if Ascii.eqb c "-" then (true, l)
                else if Ascii.eqb c "+" then (false, l) else (false, c :: l)
    | [] => (false, [])
    end in
  match l with
  | [] => None
  | _ :: _ =>
      v ← digits_value l 0;
      let z := if neg : bool then - v else v in
      if (int64_min <=? z) && (z <=? int64_max) then Some z else None
  end.

Definition Atoi : string → option Z := ParseInt.

(** [strconv.Itoa]; a 64-bit number has fewer digits than [Z.log2_up] bits. *)
Fixpoint itoa_digits (fuel : nat) (z : Z) (acc : list ascii) : list ascii :=
  match fuel with
  | O => acc
  | S fuel =>
      let acc := byte (48 + z mod 10) :: acc in
      if z <? 10 then acc else itoa_digits fuel (z / 10) acc
  end.
Definition digits_of (z : Z) : list ascii := itoa_digits (S (Z.to_nat (Z.log2 z))) z [].
Definition Itoa (z : Z) : string :=
  of_bytes (if z <? 0 then "-"%char :: digits_of (- z) else digits_of z).

(** ** encoding/hex and sort *)

Definition lower_hex (z : Z) : ascii := byte (if z <? 10 then 48 + z else 87 + z).

(** [hex.EncodeToString] *)
Definition EncodeToString (s : string) : string :=
  of_bytes (bytes s ≫= λ c, [lower_hex (code c / 16); lower_hex (code c mod 16)]).

(** [sort.Strings] *)
Definition sort_strings (l : list string) : list string := merge_sort String.leb l.

Definition FormatBool (b : bool) : string := if b then "true" else "false".

(** ** Lemmas *)

Lemma sort_strings_perm l : sort_strings l ≡ₚ l.
Proof. apply merge_sort_Permutation. Qed.

Lemma sort_strings_sorted l : Sorted String.leb (sort_strings l).
Proof.
  apply Sorted_merge_sort. intros a b.
  destruct (String.leb_total a b); [left|right]; by apply Is_true_eq_left.
Qed.

(** The order of the input makes no difference. *)
Lemma sort_strings_same l k : l ≡ₚ k → sort_strings l = sort_strings k.
Proof.
  intros Hlk. apply (Sorted_unique String.le).
  - apply sort_strings_sorted.
  - apply sort_strings_sorted.
  - by rewrite !sort_strings_perm.
Qed.

Lemma bytes_of_bytes l : bytes (of_bytes l) = l.
Proof. apply list_ascii_of_string_of_list_ascii. Qed.

Lemma of_bytes_bytes s : of_bytes (bytes s) = s.
Proof. apply string_of_list_ascii_of_string. Qed.

Lemma bytes_app s t : bytes (s +:+ t) = (bytes s ++ bytes t)%list.
Proof.
  induction s as [|a s IH]; [done|].
  change (a :: bytes (s +:+ t) = a :: (bytes s ++ bytes t)%list). by rewrite IH.
Qed.

Lemma of_bytes_app l k : of_bytes (l ++ k) = of_bytes l +:+ of_bytes k.
Proof.
  induction l as [|a l IH]; [done|].
  change (String a (of_bytes (l ++ k)) = String a (of_bytes l +:+ of_bytes k)). by rewrite IH.
Qed.

Lemma append_empty_r s : s +:+ "" = s.
Proof. induction s as [|c s IH]; [done|]. by rewrite <- IH at 2. Qed.

Lemma length_bytes s : length (bytes s) = String.length s.
Proof. induction s as [|a s IH]; [done|]. cbn. by f_equal. Qed.

Lemma bytes_inj s t : bytes s = bytes t → s = t.
Proof. intros H. rewrite <- (of_bytes_bytes s), <- (of_bytes_bytes t). by f_equal. Qed.

Lemma of_bytes_inj l k : of_bytes l = of_bytes k → l = k.
Proof. intros H. rewrite <- (bytes_of_bytes l), <- (bytes_of_bytes k). by f_equal. Qed.

Lemma lprefix_spec p l : lprefix p l = true ↔ ∃ r, l = (p ++ r)%list.
Proof.
  revert l. induction p as [|a p IH]; intros [|b l]; simpl.
  - naive_solver.
  - naive_solver.
  - naive_solver.
  - rewrite andb_true_iff, Ascii.eqb_eq, IH. naive_solver.
Qed.

Lemma HasPrefix_spec s p : HasPrefix s p = true ↔ ∃ r, s = p +:+ r.
Proof.
  unfold HasPrefix. rewrite lprefix_spec. split.
  - intros [r Hr]. exists (of_bytes r). apply bytes_inj.
    by rewrite bytes_app, bytes_of_bytes.
  - intros [r ->]. exists (bytes r). apply bytes_app.
Qed.

Lemma HasSuffix_spec s p : HasSuffix s p = true ↔ ∃ r, s = r +:+ p.
Proof.
  unfold HasSuffix. rewrite lprefix_spec. split.
  - intros [r Hr]. exists (of_bytes (rev r)). apply bytes_inj.
    rewrite bytes_app, bytes_of_bytes, <- (rev_involutive (bytes s)), Hr.
    by rewrite rev_app_distr, rev_involutive.
  - intros [r ->]. exists (rev (bytes r)). by rewrite bytes_app, rev_app_distr.
Qed.

Lemma HasPrefix_take n s p : HasPrefix (str_take n s) p = true → HasPrefix s p = true.
Proof.
  rewrite !HasPrefix_spec. intros [r E]. exists (r +:+ of_bytes (drop n (bytes s))).
  apply bytes_inj. apply (f_equal bytes) in E. unfold str_take in E.
  rewrite bytes_of_bytes, bytes_app in E. rewrite !bytes_app, bytes_of_bytes, app_assoc, <- E.
  by rewrite take_drop.
Qed.

Lemma HasPrefix_app p r : HasPrefix (p +:+ r) p = true.
Proof. apply HasPrefix_spec. eauto. Qed.

Lemma HasSuffix_app r p : HasSuffix (r +:+ p) p = true.
Proof. apply HasSuffix_spec. eauto. Qed.

Lemma TrimSuffix_app r p : TrimSuffix (r +:+ p) p = r.
Proof.
  unfold TrimSuffix. rewrite HasSuffix_app. apply bytes_inj. unfold str_take.
  rewrite bytes_of_bytes, <- !length_bytes, bytes_app, length_app.
  replace (_ + _ - _)%nat with (length (bytes r)) by lia. apply take_app_length.
Qed.

(** *** Numbers *)

Lemma digit_value_byte d : 0 ≤ d < 10 → digit_value (byte (48 + d)) = Some d.
Proof.
  intros. assert (d ∈ seqZ 0 10) as Hd by (apply elem_of_seqZ; lia).
  revert Hd. clear. intros Hd. cbn in Hd.
  repeat (apply elem_of_cons in Hd as [->|Hd]; [reflexivity|]).
  by apply not_elem_of_nil in Hd.
Qed.

Definition digit_char (c : ascii) : Prop := is_digit_ascii (code c) = true.

Lemma digit_char_value c d : digit_value c = Some d → digit_char c.
Proof. unfold digit_value, digit_char. by destruct (is_digit_ascii _). Qed.

Lemma itoa_digits_value fuel z acc :
  0 ≤ z < 2 ^ Z.of_nat (S fuel) →
  digits_value (itoa_digits (S fuel) z acc) 0 = digits_value acc z.
Proof.
  revert z acc. induction fuel as [|fuel IH]; intros z acc Hz;
    pose proof (Z.mod_pos_bound z 10 ltac:(lia)).
  - assert (z = 0 ∨ z = 1) as [-> | ->] by (change (2 ^ _) with 2 in Hz; lia); done.
  - change (itoa_digits (S (S fuel)) z acc) with
      (let acc := byte (48 + z mod 10) :: acc in
       if z <? 10 then acc else itoa_digits (S fuel) (z / 10) acc). cbv zeta.
    destruct (Z.ltb_spec z 10).
    + simpl. rewrite digit_value_byte by lia. cbn. f_equal.
      rewrite Z.mod_small; lia.
    + rewrite IH.
      * simpl. rewrite digit_value_byte by lia. cbn. f_equal.
        pose proof (Z.div_mod z 10). lia.
      * split; [apply Z.div_pos; lia|]. apply Z.div_lt_upper_bound; [lia|].
        rewrite Nat2Z.inj_succ, Z.pow_succ_r in Hz by lia. lia.
Qed.

Lemma itoa_digits_chars fuel z acc :
  0 ≤ z → Forall digit_char acc → Forall digit_char (itoa_digits fuel z acc).
Proof.
  revert z acc. induction fuel as [|fuel IH]; intros z acc Hz Hacc; [done|]. simpl.
  pose proof (Z.mod_pos_bound z 10 ltac:(lia)).
  assert (digit_char (byte (48 + z mod 10))).
  { eapply digit_char_value, digit_value_byte. lia. }
  destruct (Z.ltb_spec z 10); [by constructor|]. apply IH; [|by constructor].
  apply Z.div_pos; lia.
Qed.

Lemma itoa_digits_ne fuel z acc : acc ≠ [] → itoa_digits fuel z acc ≠ [].
Proof.
  revert z acc. induction fuel as [|fuel IH]; intros z acc Hacc; [done|]. simpl.
  destruct (z <? 10); [done|]. by apply IH.
Qed.

Lemma digits_of_spec z : 0 ≤ z →
  ∃ c l, digits_of z = c :: l ∧ Forall digit_char (c :: l) ∧ digits_value (c :: l) 0 = Some z.
Proof.
  intros Hz. destruct (digits_of z) as [|c l] eqn:E.
  - exfalso. unfold digits_of in E. simpl in E.
    destruct (z <? 10); [done|]. by apply itoa_digits_ne in E.
  - exists c, l. split; [done|]. rewrite <- E. split.
    + apply itoa_digits_chars; [done|constructor].
    + unfold digits_of. rewrite itoa_digits_value; [done|]. split; [done|].
      rewrite Nat2Z.inj_succ, Z2Nat.id by apply Z.log2_nonneg.
      destruct (decide (z = 0)) as [->|]; [done|]. apply Z.log2_spec. lia.
Qed.

Lemma digit_char_not_sign c :
  digit_char c → Ascii.eqb c "-" = false ∧ Ascii.eqb c "+" = false.
Proof. unfold digit_char. by destruct c as [[] [] [] [] [] [] [] []]. Qed.

(** Printing a number and parsing it back. *)
Lemma ParseInt_Itoa z : int64 z → ParseInt (Itoa z) = Some z.
Proof.
  unfold int64. intros Hz. unfold ParseInt, Itoa. rewrite bytes_of_bytes.
  destruct (Z.ltb_spec z 0).
  - destruct (digits_of_spec (- z)) as (c & l & E & _ & Hv); [lia|].
    rewrite E. cbn -[digits_value Z.leb Z.opp]. rewrite Hv. cbn -[Z.leb Z.opp].
    rewrite Z.opp_involutive, (proj2 (Z.leb_le _ _)), (proj2 (Z.leb_le _ _)); [done|lia|lia].
  - destruct (digits_of_spec z) as (c & l & E & Hd & Hv); [lia|].
    rewrite E. apply Forall_cons in Hd as [Hc _].
    destruct (digit_char_not_sign c Hc) as [-> ->]. rewrite Hv. cbn -[Z.leb].
    rewrite (proj2 (Z.leb_le _ _)), (proj2 (Z.leb_le _ _)); [done|lia|lia].
Qed.

Lemma ParseInt_range s z : ParseInt s = Some z → int64 z.
Proof.
  unfold ParseInt, int64.
  destruct (match bytes s with [] => _ | _ :: _ => _ end) as [neg [|c l]]; [done|].
  destruct (digits_value (c :: l) 0) as [v|]; [|done]. cbn -[Z.leb Z.opp].
  destruct (_ && _) eqn:E; [|done]. intros [= <-]. guards. lia.
Qed.

(** *** Trimming *)

(** Bytes that no space character starts or ends with. *)
Definition graphic (c : ascii) : Prop := in_range 33 126 (code c) = true.

(** Some pattern starts with the byte. *)
Definition heads (pats : list (list ascii)) (c : ascii) : bool :=
  existsb (λ p, match p with a :: _ => Ascii.eqb a c | [] => true end) pats.

Lemma heads_find pats c l :
  heads pats c = false → find (λ p, lprefix p (c :: l)) pats = None.
Proof.
  induction pats as [|[|a p] pats IH]; [done|done|]. simpl.
  destruct (Ascii.eqb a c); [done|]. apply IH.
Qed.

Lemma graphic_heads c :
  graphic c → heads spaces c = false ∧ heads (@rev ascii <$> spaces) c = false.
Proof.
  unfold graphic. intros H. apply orb_false_elim. revert H.
  destruct c as [[] [] [] [] [] [] [] []]; vm_compute; congruence.
Qed.

Lemma graphic_no_space c l :
  graphic c →
  find (λ p, lprefix p (c :: l)) spaces = None ∧
  find (λ p, lprefix p (c :: l)) (@rev ascii <$> spaces) = None.
Proof. intros [? ?]%graphic_heads. split; by apply heads_find. Qed.

Lemma trim_bytes_graphic c l :
  graphic c →
  trim_bytes spaces (c :: l) 0 = c :: l ∧
  trim_bytes (@rev ascii <$> spaces) (c :: l) 0 = c :: l.
Proof.
  intros [H1 H2]%(graphic_no_space c l).
  change (trim_bytes spaces (c :: l) 0) with
    (match find (λ p, lprefix p (c :: l)) spaces with
     | Some p => trim_bytes spaces l (length p - 1) | None => c :: l end).
  change (trim_bytes (@rev ascii <$> spaces) (c :: l) 0) with
    (match find (λ p, lprefix p (c :: l)) (@rev ascii <$> spaces) with
     | Some p => trim_bytes (@rev ascii <$> spaces) l (length p - 1) | None => c :: l end).
  by rewrite H1, H2.
Qed.

(** Text whose first and last bytes are graphic: nothing to trim. *)
Definition tidy (s : string) : Prop :=
  (∃ c l, bytes s = c :: l ∧ graphic c) ∧ (∃ l c, bytes s = (l ++ [c])%list ∧ graphic c).

Lemma TrimSpace_tidy s : tidy s → TrimSpace s = s.
Proof.
  intros [(c & l & E & Hc) (k & d & E' & Hd)]. unfold TrimSpace.
  assert (trim_bytes spaces (bytes s) 0 = bytes s) as ->.
  { rewrite E. exact (proj1 (trim_bytes_graphic c l Hc)). }
  rewrite E', rev_app_distr. cbn [rev app].
  rewrite (proj2 (trim_bytes_graphic d (rev k) Hd)). cbn [rev].
  rewrite rev_involutive, <- E'. apply of_bytes_bytes.
Qed.

Lemma trim_space_byte l :
  trim_bytes spaces (" "%char :: l) 0 = trim_bytes spaces l 0 ∧
  trim_bytes (@rev ascii <$> spaces) (" "%char :: l) 0 = trim_bytes (@rev ascii <$> spaces) l 0.
Proof. done. Qed.

(** Blanks around tidy text go. *)
Lemma TrimSpace_blank_left s : TrimSpace (" " +:+ s) = TrimSpace s.
Proof.
  unfold TrimSpace. rewrite bytes_app.
  change (bytes " " ++ bytes s)%list with (" "%char :: bytes s).
  by rewrite (proj1 (trim_space_byte (bytes s))).
Qed.

Lemma ToLower_nil `{Unicode} : ToLower "" = "".
Proof. done. Qed.

(** *** ASCII text *)

Definition ascii_char (c : ascii) : Prop := code c < 128.

Definition lower_byte (c : ascii) : ascii :=
  if is_upper_ascii (code c) then byte (code c + 32) else c.

Lemma code_nonneg c : 0 ≤ code c.
Proof. unfold code. lia. Qed.

Lemma byte_code c : byte (code c) = c.
Proof. unfold byte, code. rewrite N2Z.id. apply ascii_N_embedding. Qed.

Lemma runes_of_ascii l : Forall ascii_char l → runes_of l 0 = code <$> l.
Proof.
  induction 1 as [|c l Hc Hl IH]; [done|]. simpl. unfold decode_rune.
  rewrite (proj2 (Z.ltb_lt _ _) Hc). simpl. by rewrite IH.
Qed.

Lemma encode_rune_ascii r : 0 ≤ r < 128 → encode_rune r = [byte r].
Proof.
  intros H. unfold encode_rune.
  by rewrite (proj2 (Z.leb_le 0 r)), (proj2 (Z.ltb_lt r 128)) by lia.
Qed.

Lemma ToLower_ascii `{Unicode} s :
  Forall ascii_char (bytes s) → ToLower s = of_bytes (lower_byte <$> bytes s).
Proof.
  intros Hs. unfold ToLower, encode_runes, runes. rewrite runes_of_ascii by done.
  f_equal. induction Hs as [|c l Hc Hl IH]; [done|].
  change (encode_rune (to_lower (code c)) ++ mjoin (encode_rune <$> (to_lower <$> (code <$> l))) =
    lower_byte c :: (lower_byte <$> l))%list.
  rewrite IH. clear IH Hl. unfold to_lower, lower_byte, ascii_char in *.
  pose proof (code_nonneg c).
  rewrite (proj2 (Z.ltb_lt (code c) rune_self)) by (unfold rune_self; lia).
  destruct (is_upper_ascii (code c)) eqn:E.
  - unfold is_upper_ascii, in_range in E. guards.
    by rewrite encode_rune_ascii by lia.
  - rewrite encode_rune_ascii by lia. by rewrite byte_code.
Qed.

Lemma digit_char_ascii c : digit_char c → ascii_char c ∧ lower_byte c = c ∧ graphic c.
Proof.
  unfold digit_char, ascii_char, lower_byte, graphic, is_digit_ascii, is_upper_ascii, in_range.
  intros Hc. destruct (_ && (code c <=? 90)) eqn:E; guards; [lia|].
  split_and!; [lia|done|lia|lia].
Qed.

Lemma Itoa_nonneg z : 0 ≤ z → Itoa z = of_bytes (digits_of z).
Proof. intros. unfold Itoa. by rewrite (proj2 (Z.ltb_ge z 0)). Qed.

Lemma HasSuffix_one l c d : HasSuffix (of_bytes (l ++ [c])) (String d "") = Ascii.eqb d c.
Proof.
  unfold HasSuffix. rewrite bytes_of_bytes, rev_app_distr.
  change (bytes (String d "")) with [d]. simpl. by destruct (Ascii.eqb d c).
Qed.

Lemma TrimSuffix_one l c : TrimSuffix (of_bytes (l ++ [c])) (String c "") = of_bytes l.
Proof. rewrite of_bytes_app. apply TrimSuffix_app. Qed.

Lemma tidy_of_bytes c l d k :
  graphic c → graphic d → (c :: l = k ++ [d])%list → tidy (of_bytes (c :: l)).
Proof.
  intros Hc Hd E. unfold tidy. rewrite bytes_of_bytes. split; [by exists c, l|].
  exists k, d. by split.
Qed.

Lemma Forall_last {A} (P : A → Prop) c l :
  Forall P (c :: l) → ∃ k d, (c :: l = k ++ [d])%list ∧ P d.
Proof.
  intros H. destruct (exists_last (l := c :: l)) as (k & d & E); [done|].
  exists k, d. split; [done|]. rewrite E in H. by apply Forall_app, proj2, Forall_cons in H as [? _].
Qed.

Lemma tidy_graphic s : s ≠ "" → Forall graphic (bytes s) → tidy s.
Proof.
  intros Hne Hs. destruct (bytes s) as [|c l] eqn:E.
  { exfalso. apply Hne, bytes_inj. by rewrite E. }
  destruct (Forall_last _ _ _ Hs) as (k & d & E' & Hd).
  rewrite <- (of_bytes_bytes s), E. apply Forall_cons in Hs as [Hc _].
  by eapply tidy_of_bytes.
Qed.

Lemma Itoa_graphic z : 0 ≤ z → Itoa z ≠ "" ∧ Forall graphic (bytes (Itoa z)).
Proof.
  intros Hz. rewrite Itoa_nonneg by done. destruct (digits_of_spec z Hz) as (c & l & E & Hd & _).
  rewrite E, bytes_of_bytes. split; [done|].
  eapply Forall_impl; [exact Hd|]. intros ? ?. by apply digit_char_ascii.
Qed.

(** *** Splitting and searching *)

Lemma split_part c p : c ∉ p → split_bytes c p = [p].
Proof.
  induction p as [|a p IH]; [done|]. rewrite not_elem_of_cons. intros [Hne Hp]. cbn.
  rewrite (proj2 (Ascii.eqb_neq a c)) by done. by rewrite IH.
Qed.

Lemma split_parts c p rest : c ∉ p → split_bytes c (p ++ c :: rest) = p :: split_bytes c rest.
Proof.
  induction p as [|a p IH]; cbn; [by rewrite Ascii.eqb_refl|].
  rewrite not_elem_of_cons. intros [Hne Hp].
  rewrite (proj2 (Ascii.eqb_neq a c)) by done. by rewrite IH.
Qed.

Lemma Split_Join c parts :
  parts ≠ [] → Forall (λ p, c ∉ bytes p) parts →
  Split (Join parts (String c "")) c = parts.
Proof.
  intros Hne Hall. unfold Split. induction Hall as [|p parts Hp Hall IH]; [done|].
  destruct parts as [|q parts].
  - cbn [Join]. rewrite split_part by done. cbn. by rewrite of_bytes_bytes.
  - change (Join (p :: q :: parts) (String c "")) with
      (p +:+ String c "" +:+ Join (q :: parts) (String c "")).
    rewrite !bytes_app. change (bytes (String c "")) with [c]. cbn [app].
    rewrite split_parts by done. rewrite fmap_cons, of_bytes_bytes. by rewrite IH.
Qed.

Lemma index_byte_here c p r : c ∉ p → index_byte c (p ++ c :: r) = Some (length p).
Proof.
  induction p as [|a p IH]; cbn; [by rewrite Ascii.eqb_refl|].
  rewrite not_elem_of_cons. intros [Hne Hp].
  rewrite (proj2 (Ascii.eqb_neq a c)) by done. by rewrite IH.
Qed.

Lemma index_byte_none c p : c ∉ p → index_byte c p = None.
Proof.
  induction p as [|a p IH]; cbn; [done|]. rewrite not_elem_of_cons. intros [Hne Hp].
  rewrite (proj2 (Ascii.eqb_neq a c)) by done. by rewrite IH.
Qed.

Lemma Cut_here s t c : c ∉ bytes s → Cut (s +:+ String c t) c = (s, t, true).
Proof.
  intros Hc. unfold Cut, IndexByte, str_take, str_drop. rewrite bytes_app.
  change (bytes (String c t)) with (c :: bytes t). rewrite index_byte_here by done.
  rewrite take_app_length, of_bytes_bytes.
  change (S (length (bytes s))) with (1 + length (bytes s))%nat.
  rewrite Nat.add_comm, <- drop_drop, drop_app_length.
  change (drop 1 (c :: bytes t)) with (bytes t). by rewrite of_bytes_bytes.
Qed.

Lemma not_in_eval c l : existsb (Ascii.eqb c) l = false → c ∉ l.
Proof.
  intros H Hin%list_elem_of_In. apply not_true_iff_false in H. apply H, existsb_exists.
  exists c. split; [done|apply Ascii.eqb_refl].
Qed.

Lemma not_in_one c d : c ≠ d → c ∉ bytes (String d "").
Proof. intros Hn Hin%list_elem_of_singleton. done. Qed.

Lemma HasSuffix_other s c d : c ≠ d → HasSuffix (s +:+ String c "") (String d "") = false.
Proof.
  intros Hn. rewrite <- (of_bytes_bytes (s +:+ _)), bytes_app. change (bytes (String c "")) with [c].
  rewrite HasSuffix_one. apply Ascii.eqb_neq. congruence.
Qed.
