(* ===== verification/FileTree.v ===== *)
(** * Packages os and path/filepath, as the inspector uses them

    The file system is a map from paths to files and directories; a path is the
    list of its components below the root, so [filepath.Join] appends. Reading may
    fail for a file or a directory that is not [readable]. The operations that
    write are the sequential ones of a local file system: renaming a directory
    moves all of it at once, or does nothing. *)
From stdpp Require Import sorting.
From S2P Require Import Prelude GoString.

Abbreviation path := (list string).

Inductive node :=
| File (data : string) (mtime : Z) (readable : bool)
| Dir (readable : bool).

Abbreviation FS := (gmap path node).

(** [p] below [dir]. *)
Fixpoint strip (dir p : path) : option path :=
  match dir, p with
  | [], _ => Some p
  | a :: dir, b :: p => if a =s? b then strip dir p else None
  | _ :: _, [] => None
  end.

Definition is_dir (fs : FS) (p : path) : bool :=
  match p with
  | [] => true
  | _ => match fs !! p with Some (Dir _) => true | _ => false end
  end.

(** [filepath.Join] of a rooted directory and an element, cleaned: the element may
    hold separators and dots. *)
Definition push (dir : path) (c : string) : path :=
  if is_empty c || (c =s? ".") then dir
  else if c =s? ".." then removelast dir
  else (dir ++ [c])%list.
Definition join (dir : path) (elem : string) : path := foldl push dir (Split elem "/").

(** What is below [dir], by relative path; [dir] itself is at []. *)
Definition subtree (fs : FS) (dir : path) : FS :=
  list_to_map (omap (λ e, (λ r, (r, e.2)) <$> strip dir e.1) (map_to_list fs)).

(** ** Reading *)

Definition child (dir p : path) : option string :=
  match strip dir p with Some [name] => Some name | _ => None end.

Definition children (fs : FS) (dir : path) : list string :=
  sort_strings (omap (child dir) (map_to_list fs).*1).

(** [os.ReadDir]: the names in order, each with [IsDir]. *)
Definition ReadDir (fs : FS) (dir : path) : result (list (string * bool)) :=
  match fs !! dir with
  | None => Err ErrNotExist
  | Some (File _ _ _) => errorf "not a directory"
  | Some (Dir false) => errorf "permission denied"
  | Some (Dir true) => Ok ((λ n, (n, is_dir fs (dir ++ [n]))) <$> children fs dir)
  end.

Definition ReadFile (fs : FS) (p : path) : result string :=
  match fs !! p with
  | None => Err ErrNotExist
  | Some (File data _ true) => Ok data
  | Some (File _ _ false) => errorf "permission denied"
  | Some (Dir _) => errorf "is a directory"
  end.

Definition Stat (fs : FS) (p : path) : result unit :=
  match fs !! p with None => Err ErrNotExist | Some _ => Ok tt end.

(** The order in which [filepath.WalkDir] visits. *)
Fixpoint path_leb (p q : path) : bool :=
  match p, q with
  | [], _ => true
  | _ :: _, [] => false
  | a :: p, b :: q => if a =s? b then path_leb p q else String.leb a b
  end.

(** The files below [dir] in the order of the walk: path from [dir], size and
    time. A directory that cannot be read ends the walk with its error. *)
Definition WalkFiles (fs : FS) (dir : path) : result (list (path * Z * Z)) :=
  match fs !! dir with
  | None => Err ErrNotExist
  | Some _ =>
      let tree := merge_sort (λ a b, path_leb a.1 b.1) (map_to_list (subtree fs dir)) in
      if existsb (λ e, match e.2 with Dir false => true | _ => false end) tree
      then errorf "permission denied"
      else Ok (omap (λ e, match e.2 with
                          | File data mtime _ => Some (e.1, slen data, mtime)
                          | Dir _ => None
                          end) tree)
  end.

(** ** Writing *)

(** [os.MkdirAll], from the components already there to those still to make. *)
Fixpoint mkdir_from (fs : FS) (done todo : path) : result FS :=
  match todo with
  | [] => Ok fs
  | c :: todo =>
      let p := (done ++ [c])%list in
      match fs !! p with
      | Some (Dir _) => mkdir_from fs p todo
      | Some (File _ _ _) => errorf "not a directory"
      | None => mkdir_from (<[p := Dir true]> fs) p todo
      end
  end.
Definition MkdirAll (fs : FS) (p : path) : result FS := mkdir_from fs [] p.

Definition WriteFile (fs : FS) (now : Z) (p : path) (data : string) : result FS :=
  if negb (is_dir fs (removelast p)) then Err ErrNotExist
  else
    match fs !! p with
    | Some (Dir _) => errorf "is a directory"
    | Some (File _ _ r) => Ok (<[p := File data now r]> fs)
    | None => Ok (<[p := File data now true]> fs)
    end.

(** [os.RemoveAll]: nothing to remove is no error. *)
Definition RemoveAll (fs : FS) (p : path) : FS := filter (λ e, strip p e.1 = None) fs.

(** [os.Rename]: a directory replaces an empty one only. *)
Definition move (fs : FS) (old new : path) : FS :=
  kmap (app new) (subtree fs old) ∪ RemoveAll (RemoveAll fs old) new.

Definition Rename (fs : FS) (old new : path) : result FS :=
  match fs !! old with
  | None => Err ErrNotExist
  | Some n =>
      if bool_decide (old = new) then Ok fs
      else if is_some (strip old new) then errorf "invalid argument"
      else
        match n, fs !! new with
        | _, None => if is_dir fs (removelast new) then Ok (move fs old new) else Err ErrNotExist
        | Dir _, Some (File _ _ _) => errorf "not a directory"
        | File _ _ _, Some (Dir _) => errorf "file exists"
        | File _ _ _, Some (File _ _ _) => Ok (move fs old new)
        | Dir _, Some (Dir _) =>
            match children fs new with
            | [] => Ok (move fs old new)
            | _ :: _ => errorf "directory not empty"
            end
        end
  end.

(** ** Lemmas *)

(** An element that is one name stays below the directory. *)
Definition plain_name (name : string) : Prop :=
  name ≠ "" ∧ name ≠ "." ∧ name ≠ ".." ∧ ("/"%char ∉ bytes name).

Lemma join_plain dir name : plain_name name → join dir name = (dir ++ [name])%list.
Proof.
  intros (H1 & H2 & H3 & H4). unfold join, Split. rewrite split_part by done. cbn.
  rewrite of_bytes_bytes. unfold push. rewrite (proj2 (is_empty_false _) H1).
  by rewrite (proj2 (seqb_neq _ _) H2), (proj2 (seqb_neq _ _) H3).
Qed.

Lemma strip_app dir r : strip dir (dir ++ r) = Some r.
Proof. induction dir as [|a dir IH]; cbn; [done|]. by rewrite seqb_refl. Qed.

Lemma strip_some dir p r : strip dir p = Some r ↔ p = (dir ++ r)%list.
Proof.
  split; [|intros ->; apply strip_app]. revert p.
  induction dir as [|a dir IH]; intros p; cbn; [congruence|].
  destruct p as [|b p]; [done|]. case_str; [|done]. intros H. f_equal. by apply IH.
Qed.

Lemma strip_none dir p : strip dir p = None ↔ ∀ r, p ≠ (dir ++ r)%list.
Proof.
  destruct (strip dir p) as [r|] eqn:E; split; try done.
  - apply strip_some in E. intros H. by destruct (H r).
  - intros _ r ->. by rewrite strip_app in E.
Qed.

Lemma subtree_nodup fs dir :
  NoDup (omap (λ e : path * node, (λ r, (r, e.2)) <$> strip dir e.1) (map_to_list fs)).*1.
Proof.
  pose proof (NoDup_fst_map_to_list fs) as Hn. revert Hn.
  generalize (map_to_list fs) as l. intros l.
  induction l as [|[p n] l IH]; cbn; [constructor|].
  intros [Hp Hl]%NoDup_cons. destruct (strip dir p) as [r|] eqn:E; cbn; [|auto].
  apply NoDup_cons. split; [|auto].
  intros ([r' n'] & -> & ([q m] & Hin & Hq)%list_elem_of_omap)%list_elem_of_fmap.
  cbn in *. destruct (strip dir q) as [r''|] eqn:Eq; [|done]. injection Hq as -> ->.
  apply strip_some in E, Eq. subst. apply Hp. by apply (list_elem_of_fmap_2 fst) in Hin.
Qed.

Lemma lookup_subtree fs dir r : subtree fs dir !! r = fs !! (dir ++ r)%list.
Proof.
  unfold subtree. destruct (fs !! (dir ++ r)%list) as [n|] eqn:E.
  - apply elem_of_list_to_map; [apply subtree_nodup|]. apply list_elem_of_omap.
    exists ((dir ++ r)%list, n). cbn. rewrite strip_app. split; [|done].
    by apply elem_of_map_to_list.
  - apply not_elem_of_list_to_map.
    intros ([r' n'] & -> & ([q m] & Hin & Hq)%list_elem_of_omap)%list_elem_of_fmap.
    cbn in *. destruct (strip dir q) as [r''|] eqn:Eq; simplify_eq/=.
    apply strip_some in Eq as ->. apply elem_of_map_to_list in Hin. congruence.
Qed.

Lemma subtree_eq fs fs' dir dir' :
  subtree fs dir = subtree fs' dir' ↔ ∀ r, fs !! (dir ++ r)%list = fs' !! (dir' ++ r)%list.
Proof.
  split.
  - intros H r. by rewrite <- !lookup_subtree, H.
  - intros H. apply map_eq. intros r. by rewrite !lookup_subtree.
Qed.

Lemma lookup_RemoveAll fs p q :
  RemoveAll fs p !! q = match strip p q with None => fs !! q | Some _ => None end.
Proof.
  unfold RemoveAll. destruct (strip p q) as [r|] eqn:E.
  - apply map_lookup_filter_None. right. intros n _. cbn. congruence.
  - destruct (fs !! q) as [n|] eqn:En.
    + by apply map_lookup_filter_Some.
    + apply map_lookup_filter_None. by left.
Qed.

#[export] Instance app_inj (p : path) : Inj (=) (=) (app p).
Proof. intros q r. apply app_inv_head. Qed.

(** Where two paths part, nothing below the one is below the other. *)
Definition apart (p q : path) : Prop := strip p q = None ∧ strip q p = None.

Lemma apart_sym p q : apart p q → apart q p.
Proof. intros []. by split. Qed.

Lemma apart_siblings dir a b : a ≠ b → apart (dir ++ [a]) (dir ++ [b]).
Proof.
  intros Hn. split; apply strip_none; intros r H; rewrite <- app_assoc in H;
    apply app_inj in H; cbn in H; congruence.
Qed.

Lemma apart_strip p q r : apart p q → strip p (q ++ r) = None.
Proof.
  intros [H1 H2]. apply strip_none. intros s E.
  rewrite strip_none in H1, H2.
  destruct (app_eq_inv _ _ _ _ E) as [(k & -> & ->)|(k & -> & ->)].
  - by destruct (H1 k).
  - by destruct (H2 k).
Qed.

Lemma lookup_move_new fs old new r :
  move fs old new !! (new ++ r)%list = fs !! (old ++ r)%list.
Proof.
  unfold move. rewrite lookup_union, (lookup_kmap (app new)), lookup_subtree.
  rewrite lookup_RemoveAll, strip_app. by destruct (fs !! _).
Qed.

Lemma lookup_move_other fs old new q :
  strip new q = None → move fs old new !! q = RemoveAll fs old !! q.
Proof.
  intros Hq. unfold move. rewrite lookup_union, (lookup_RemoveAll _ new), Hq.
  assert (kmap (app new) (subtree fs old) !! q = None) as ->; [|by destruct (RemoveAll fs old !! q)].
  apply (lookup_kmap_None (app new)). intros r ->. by rewrite strip_app in Hq.
Qed.

(** *** What the operations change *)

(** A path on the way to another, the root apart. *)
Definition on_way (q p : path) : bool := negb (is_nil q) && is_some (strip q p).

Lemma mkdir_from_spec todo : ∀ done fs fs',
  mkdir_from fs done todo = Ok fs' →
  ∀ q, fs' !! q =
    match fs !! q with
    | Some n => Some n
    | None => match strip done q with
              | Some r => if on_way r todo then Some (Dir true) else None
              | None => None
              end
    end.
Proof.
  induction todo as [|c todo IH]; intros done fs fs'; cbn.
  { intros [= ->] q. destruct (fs' !! q); [done|]. destruct (strip done q) as [[|a r]|]; done. }
  assert (∀ r, strip done ((done ++ [c]) ++ r)%list = Some (c :: r)) as Hs
    by (intros r; rewrite <- app_assoc; apply strip_app).
  intros Hm q.
  assert (∃ fs1, mkdir_from fs1 (done ++ [c])%list todo = Ok fs' ∧
    ∀ q, fs1 !! q = if decide (q = (done ++ [c])%list) then Some (default (Dir true) (fs !! q))
                    else fs !! q) as (fs1 & H1 & Hfs1).
  { destruct (fs !! (done ++ [c])%list) as [[]|] eqn:E; [done| |].
    - exists fs. split; [done|]. intros q'. case_decide; [subst|done]. by rewrite E.
    - eexists. split; [exact Hm|]. intros q'. case_decide as Hq; [subst|].
      + by rewrite lookup_insert_eq, E.
      + by rewrite lookup_insert_ne. }
  rewrite (IH _ _ _ H1 q), Hfs1.
  destruct (decide (q = (done ++ [c])%list)) as [->|Hq].
  - specialize (Hs []). rewrite app_nil_r in Hs. rewrite Hs.
    destruct (fs !! (done ++ [c])%list); [done|]. cbn. by rewrite seqb_refl.
  - destruct (fs !! q); [done|].
    destruct (strip (done ++ [c])%list q) as [r|] eqn:Er.
    + apply strip_some in Er as ->. rewrite Hs. unfold on_way. cbn. rewrite seqb_refl.
      destruct r; [by rewrite app_nil_r in Hq|done].
    + destruct (strip done q) as [[|a r]|] eqn:Ed; [done| |done].
      apply strip_some in Ed as ->. unfold on_way. cbn.
      destruct (String.eqb_spec a c) as [->|]; [|done].
      pose proof (strip_app (done ++ [c]) r) as E. rewrite <- app_assoc in E. cbn in E. congruence.
Qed.

Lemma MkdirAll_spec fs p fs' :
  MkdirAll fs p = Ok fs' →
  ∀ q, fs' !! q = match fs !! q with
                  | Some n => Some n
                  | None => if on_way q p then Some (Dir true) else None
                  end.
Proof. intros Hm q. rewrite (mkdir_from_spec _ _ _ _ Hm). done. Qed.

Lemma WriteFile_spec fs now p data fs' :
  WriteFile fs now p data = Ok fs' →
  fs' = <[p := File data now (match fs !! p with Some (File _ _ r) => r | _ => true end)]> fs.
Proof.
  unfold WriteFile. destruct (negb _); [done|].
  by destruct (fs !! p) as [[d t r|]|]; [|done|]; intros [= <-].
Qed.

(** A rename that succeeds moves the tree, and leaves alone what is apart. *)
Lemma Rename_spec fs old new fs' :
  apart old new → Rename fs old new = Ok fs' →
  fs' = move fs old new ∧ is_Some (fs !! old).
Proof.
  intros [Hs _]. unfold Rename. destruct (fs !! old) as [n|]; [|done].
  case_bool_decide as E.
  { subst. assert (strip new new = Some []) as E by (rewrite <- (app_nil_r new) at 2; apply strip_app).
    congruence. }
  rewrite Hs. cbn [is_some]. intros Hr. split; [|eauto]. revert Hr.
  destruct n, (fs !! new) as [[]|]; try destruct (children fs new); try destruct (is_dir _ _);
    by intros [= <-].
Qed.

Lemma moved_tree fs old new : subtree (move fs old new) new = subtree fs old.
Proof. apply subtree_eq. intros r. apply lookup_move_new. Qed.

Lemma moved_away fs old new : apart old new → subtree (move fs old new) old = ∅.
Proof.
  intros Ha. apply map_eq. intros r. rewrite lookup_subtree, lookup_empty.
  rewrite lookup_move_other by by apply apart_strip, apart_sym.
  by rewrite lookup_RemoveAll, strip_app.
Qed.

Lemma moved_apart fs old new q :
  apart old q → apart new q → subtree (move fs old new) q = subtree fs q.
Proof.
  intros Ho Hn. apply subtree_eq. intros r.
  rewrite lookup_move_other by by apply apart_strip.
  by rewrite lookup_RemoveAll, apart_strip.
Qed.

Lemma removed_tree fs p : subtree (RemoveAll fs p) p = ∅.
Proof.
  apply map_eq. intros r. by rewrite lookup_subtree, lookup_empty, lookup_RemoveAll, strip_app.
Qed.

Lemma removed_apart fs p q : apart p q → subtree (RemoveAll fs p) q = subtree fs q.
Proof.
  intros Ha. apply subtree_eq. intros r. by rewrite lookup_RemoveAll, apart_strip.
Qed.

(** Renaming to a free place, in a directory. *)
Lemma Rename_free fs old new :
  apart old new → fs !! new = None →
  is_ok (Rename fs old new) = true ↔ is_Some (fs !! old) ∧ is_dir fs (removelast new) = true.
Proof.
  intros [Hs Hs'] Hn. unfold Rename. rewrite Hn.
  destruct (fs !! old) as [n|]; [|split; [done|by intros [[] _]]].
  rewrite bool_decide_eq_false_2.
  2:{ intros ->. rewrite <- (app_nil_r new) in Hs at 2. by rewrite strip_app in Hs. }
  rewrite Hs. cbn [is_some]. destruct n, (is_dir fs (removelast new)); cbn; naive_solver.
Qed.

(** A directory above both ends of a move stays one. *)
Lemma move_above fs old new dir :
  strip old dir = None → strip new dir = None → is_dir (move fs old new) dir = is_dir fs dir.
Proof.
  intros Ho Hn. destruct dir as [|c dir]; [done|]. unfold is_dir.
  by rewrite lookup_move_other, lookup_RemoveAll, Ho by done.
Qed.

Lemma RemoveAll_above fs p dir : strip p dir = None → is_dir (RemoveAll fs p) dir = is_dir fs dir.
Proof.
  intros Ho. destruct dir as [|c dir]; [done|]. unfold is_dir. by rewrite lookup_RemoveAll, Ho.
Qed.

Lemma strip_parent dir c : strip (dir ++ [c])%list dir = None.
Proof.
  apply strip_none. intros r E. apply (f_equal length) in E. rewrite !length_app in E. cbn in E. lia.
Qed.

Lemma tree_root fs p : subtree fs p = ∅ → fs !! p = None.
Proof. intros H. rewrite <- (app_nil_r p), <- lookup_subtree, H. apply lookup_empty. Qed.

Lemma mkdir_from_dir todo : ∀ done fs fs',
  mkdir_from fs done todo = Ok fs' → is_dir fs done = true → is_dir fs' (done ++ todo) = true.
Proof.
  induction todo as [|c todo IH]; intros done fs fs'; cbn.
  { intros [= ->]. by rewrite app_nil_r. }
  intros Hm _. rewrite cons_middle, app_assoc.
  assert (∀ fs : FS, (∃ b, fs !! (done ++ [c])%list = Some (Dir b)) → is_dir fs (done ++ [c])%list = true) as Hd.
  { intros f [b E]. unfold is_dir. rewrite E. by destruct (done ++ [c])%list. }
  destruct (fs !! (done ++ [c])%list) as [[|b]|] eqn:E; [done| |].
  - apply (IH _ _ _ Hm), Hd. eauto.
  - apply (IH _ _ _ Hm), Hd. exists true. apply lookup_insert_eq.
Qed.

Lemma MkdirAll_dir fs p fs' : MkdirAll fs p = Ok fs' → is_dir fs' p = true.
Proof. intros Hm. by apply (mkdir_from_dir p [] fs fs'). Qed.

Lemma MkdirAll_keeps_dir fs p fs' q :
  MkdirAll fs p = Ok fs' → is_dir fs q = true → is_dir fs' q = true.
Proof.
  intros Hm. destruct q as [|c q]; [done|]. unfold is_dir. rewrite (MkdirAll_spec _ _ _ Hm).
  by destruct (fs !! (c :: q)).
Qed.

Lemma WriteFile_keeps_dir fs now p data fs' q :
  WriteFile fs now p data = Ok fs' → is_dir fs q = true → is_dir fs' q = true.
Proof.
  destruct q as [|c q]; [done|]. unfold is_dir, WriteFile.
  destruct (negb _); [done|]. destruct (decide (p = c :: q)) as [->|Hne].
  - by destruct (fs !! (c :: q)) as [[]|].
  - destruct (fs !! p) as [[]|]; try done; intros [= <-]; by rewrite lookup_insert_ne.
Qed.
