(* ===== verification/GoFloat.v ===== *)
(** * float64 arithmetic

    A float64 is the rational it stands for, and an operation is the exact one
    followed by a rounding to 53 significant bits, ties to even. The inspector
    computes with integers of at most 64 bits and with quotients by 100, so no
    result leaves the range of normal numbers and the exponent is not bounded
    here. *)
From Stdlib Require Import QArith Qround Qabs Lqa.
From S2P Require Import Prelude.
Open Scope Z_scope.

Definition float64 := Q.

(** [num / den], both positive, to the nearest integer, ties to even. *)
Definition div_nearest_even (num den : Z) : Z :=
  let q := num / den in
  let r := num mod den in
  if 2 * r <? den then q
  else if den <? 2 * r then q + 1
  else if Z.even q then q else q + 1.

(** The exponent of the last of 53 significant bits of [n / d]. *)
Definition exponent53 (n d : Z) : Z :=
  let e := Z.log2 n - Z.log2 d - 53 in
  let num := n * 2 ^ Z.max 0 (- e) in
  let den := d * 2 ^ Z.max 0 e in
  if 2 ^ 53 * den <=? num then e + 1 else e.

Definition round53_pos (n d : Z) : Q :=
  let e := exponent53 n d in
  let m := div_nearest_even (n * 2 ^ Z.max 0 (- e)) (d * 2 ^ Z.max 0 e) in
  m * 2 ^ Z.max 0 e # Z.to_pos (2 ^ Z.max 0 (- e)).

Definition round53 (x : Q) : float64 :=
  match Qnum x with
  | Z0 => 0#1
  | Zpos n => round53_pos (Zpos n) (Zpos (Qden x))
  | Zneg n => Qopp (round53_pos (Zpos n) (Zpos (Qden x)))
  end.

Definition of_int (z : Z) : float64 := round53 (inject_Z z).
Definition fadd (x y : float64) : float64 := round53 (Qplus x y).
Definition fmul (x y : float64) : float64 := round53 (Qmult x y).
Definition fdiv (x y : float64) : float64 := round53 (Qdiv x y).

(** [math.Round]: halves away from zero; the result is an integer. *)
Definition Round (x : float64) : Z :=
  if Qle_bool 0 x then Qfloor (x + (1#2)) else - Qfloor (- x + (1#2)).

(** ** The rounding error *)

Lemma div_nearest_even_error num den :
  0 < den → 2 * Z.abs (div_nearest_even num den * den - num) ≤ den.
Proof.
  intros Hd. unfold div_nearest_even.
  pose proof (Z.div_mod num den ltac:(lia)). pose proof (Z.mod_pos_bound num den Hd).
  destruct (Z.ltb_spec (2 * (num mod den)) den); [nia|].
  destruct (Z.ltb_spec den (2 * (num mod den))); [nia|].
  destruct (Z.even _); nia.
Qed.

Lemma exponent53_le n d k :
  0 < n → 0 < d → 0 ≤ k → n ≤ 2 ^ k * d → exponent53 n d ≤ k - 52.
Proof.
  intros Hn Hd Hk Hle. unfold exponent53.
  assert (Z.log2 n ≤ Z.log2 d + k).
  { rewrite <- (Z.log2_shiftl d k) by lia. rewrite Z.shiftl_mul_pow2 by lia.
    apply Z.log2_le_mono. lia. }
  destruct (_ <=? _); lia.
Qed.

Lemma round53_pos_error n d k :
  0 < n → 0 ≤ k ≤ 51 → n ≤ 2 ^ k * Zpos d →
  (Qabs (round53_pos n (Zpos d) - (n # d)) <= 1 # Z.to_pos (2 ^ (53 - k)))%Q.
Proof.
  intros Hn Hk Hle.
  pose proof (exponent53_le n (Zpos d) k Hn ltac:(lia) ltac:(lia) Hle) as He.
  unfold round53_pos. set (e := exponent53 n (Z.pos d)) in *.
  rewrite (Z.max_l 0 e), (Z.max_r 0 (- e)) by lia. change (2 ^ 0) with 1.
  rewrite !Z.mul_1_r.
  pose proof (div_nearest_even_error (n * 2 ^ (- e)) (Zpos d) ltac:(lia)) as Herr.
  set (m := div_nearest_even _ _) in *.
  unfold Qle, Qabs, Qminus, Qplus, Qopp. cbn [Qnum Qden].
  assert (0 < 2 ^ (- e)) by lia. assert (0 < 2 ^ (53 - k)) by lia.
  rewrite Pos2Z.inj_mul, !Z2Pos.id by lia.
  assert (2 * 2 ^ (52 - k) = 2 ^ (53 - k)) as Hk2.
  { rewrite <- Z.pow_succ_r by lia. f_equal. lia. }
  assert (2 ^ (52 - k) ≤ 2 ^ (- e)) by (apply Z.pow_le_mono_r; lia).
  replace (m * Z.pos d + - n * 2 ^ (- e)) with (m * Z.pos d - n * 2 ^ (- e)) by lia.
  nia.
Qed.

Lemma round53_error x k :
  0 ≤ k ≤ 51 → (Qabs x <= inject_Z (2 ^ k))%Q →
  (Qabs (round53 x - x) <= 1 # Z.to_pos (2 ^ (53 - k)))%Q.
Proof.
  intros Hk Hx. destruct x as [[|n|n] d]; unfold round53; cbn [Qnum Qden].
  - unfold Qle, Qabs. cbn. lia.
  - apply round53_pos_error; [lia|done|].
    revert Hx. unfold Qle, Qabs, inject_Z. cbn [Qnum Qden Z.abs]. lia.
  - assert (Qabs (- round53_pos (Z.pos n) (Z.pos d) - (Z.neg n # d)) ==
      Qabs (round53_pos (Z.pos n) (Z.pos d) - (Z.pos n # d)))%Q as ->.
    { rewrite <- Qabs_opp. apply Qabs_wd.
      change (Z.neg n # d) with (- (Z.pos n # d))%Q. ring. }
    apply round53_pos_error; [lia|done|].
    revert Hx. unfold Qle, Qabs, inject_Z. cbn [Qnum Qden Z.abs]. lia.
Qed.

(** The same bound as two inequalities, for linear arithmetic. *)
Lemma round53_bounds x k :
  0 ≤ k ≤ 51 → (- inject_Z (2 ^ k) <= x <= inject_Z (2 ^ k))%Q →
  (x - (1 # Z.to_pos (2 ^ (53 - k))) <= round53 x <= x + (1 # Z.to_pos (2 ^ (53 - k))))%Q.
Proof.
  intros Hk Hx. assert (Qabs x <= inject_Z (2 ^ k))%Q as Ha by (apply Qabs_Qle_condition; lra).
  pose proof (round53_error x k Hk Ha) as H. apply Qabs_Qle_condition in H. lra.
Qed.

(** Integers of 53 bits are float64 values. *)
Lemma round53_pos_int n : 0 < n < 2 ^ 53 → (round53_pos n 1 == inject_Z n)%Q.
Proof.
  intros Hn. unfold round53_pos, exponent53. change (Z.log2 1) with 0.
  pose proof (Z.log2_spec n ltac:(lia)) as [Hlo Hhi].
  assert (Z.log2 n < 53) by (apply Z.log2_lt_pow2; lia).
  pose proof (Z.log2_nonneg n).
  rewrite (Z.max_l 0 (Z.log2 n - 0 - 53)), (Z.max_r 0 (- (Z.log2 n - 0 - 53))) by lia.
  change (2 ^ 53 * (1 * 2 ^ 0)) with (2 ^ 53).
  assert (2 ^ 53 ≤ n * 2 ^ (- (Z.log2 n - 0 - 53))) as H53.
  { transitivity (2 ^ Z.log2 n * 2 ^ (- (Z.log2 n - 0 - 53))).
    - rewrite <- Z.pow_add_r by lia. apply Z.pow_le_mono_r; lia.
    - apply Z.mul_le_mono_nonneg_r; lia. }
  rewrite (proj2 (Z.leb_le _ _) H53).
  rewrite (Z.max_l 0 (Z.log2 n - 0 - 53 + 1)) by lia.
  rewrite (Z.max_r 0 (- (Z.log2 n - 0 - 53 + 1))) by lia.
  change (2 ^ 0) with 1. rewrite !Z.mul_1_r.
  unfold div_nearest_even. rewrite Z.mod_1_r, Z.div_1_r. change (2 * 0 <? 1) with true. cbv iota zeta.
  assert (0 < 2 ^ (- (Z.log2 n - 0 - 53 + 1))) by lia.
  unfold Qeq, inject_Z. cbn [Qnum Qden]. rewrite Z2Pos.id by lia. apply Z.mul_1_r.
Qed.

Lemma of_int_exact z : - 2 ^ 53 < z < 2 ^ 53 → (of_int z == inject_Z z)%Q.
Proof.
  intros Hz. unfold of_int, round53. cbn [Qnum Qden inject_Z].
  destruct z as [|p|p]; [done|apply round53_pos_int; lia|].
  rewrite round53_pos_int by lia. done.
Qed.

(** ** Rounding to an integer *)

Lemma Round_nonneg x : (0 <= x)%Q → Round x = Qfloor (x + (1#2)).
Proof. intros H. unfold Round. by rewrite (proj2 (Qle_bool_iff 0 x) H). Qed.

Lemma Qfloor_eq x z : (inject_Z z <= x)%Q → (x < inject_Z (z + 1))%Q → Qfloor x = z.
Proof.
  intros Hlo Hhi.
  pose proof (Qfloor_le x). pose proof (Qlt_floor x).
  assert (Qfloor x < z + 1) by (rewrite Zlt_Qlt; lra).
  assert (z < Qfloor x + 1) by (rewrite Zlt_Qlt; lra).
  lia.
Qed.
