(* ===== verification/GoTime.v ===== *)
(** * Package time: reading a duration

    [time.ParseDuration]: an optional sign and a sequence of decimal numbers with
    units, like [1h30m] or [-1.5s], as nanoseconds in 64 bits. The settings of the
    process and the flags of the probe are read by it. *)
From Stdlib Require Import QArith Qround.
From S2P Require Import Prelude GoString GoFloat.
Open Scope Z_scope.

Definition Nanosecond : Z := 1.
Definition Microsecond : Z := 1000 * Nanosecond.
Definition Millisecond : Z := 1000 * Microsecond.
Definition Second : Z := 1000 * Millisecond.
Definition Minute : Z := 60 * Second.
Definition Hour : Z := 60 * Minute.

(** [unitMap]; the micro sign and the letter mu both stand for micro. *)
Definition unit_map : list (string * Z) :=
  [("ns", Nanosecond); ("us", Microsecond); ("µs", Microsecond); ("μs", Microsecond);
   ("ms", Millisecond); ("s", Second); ("m", Minute); ("h", Hour)].

Fixpoint unit_in (m : list (string * Z)) (u : string) : option Z :=
  match m with
  | [] => None
  | (k, v) :: m => if k =s? u then Some v else unit_in m u
  end.

Definition bad_duration : error := Errorf "time: invalid duration".

(** [leadingInt]: the digits at the front, unless they exceed [2 ^ 63]. *)
Fixpoint leading_int (l : list ascii) (x : Z) : option (Z * list ascii) :=
  match l with
  | c :: rest =>
      match digit_value c with
      | Some d =>
          if 2 ^ 63 / 10 <? x then None
          else
            let x := x * 10 + d in
            if 2 ^ 63 <? x then None else leading_int rest x
      | None => Some (x, l)
      end
  | [] => Some (x, [])
  end.

(** [leadingFraction]: as many of the digits as fit, and their power of ten. *)
Fixpoint leading_fraction (l : list ascii) (x : Z) (scale : float64) (overflow : bool)
    : Z * float64 * list ascii :=
  match l with
  | c :: rest =>
      match digit_value c with
      | Some d =>
          if overflow then leading_fraction rest x scale true
          else if (2 ^ 63 - 1) / 10 <? x then leading_fraction rest x scale true
          else
            let y := x * 10 + d in
            if 2 ^ 63 <? y then leading_fraction rest x scale true
            else leading_fraction rest y (fmul scale (of_int 10)) false
      | None => (x, scale, l)
      end
  | [] => (x, scale, [])
  end.

(** The bytes up to the next dot or digit. *)
Fixpoint until_number (l : list ascii) : list ascii * list ascii :=
  match l with
  | c :: rest =>
      if Ascii.eqb c "." || is_some (digit_value c) then ([], l)
      else let '(u, rest) := until_number rest in (c :: u, rest)
  | [] => ([], [])
  end.

(** [uint64] of a float that is not negative and in range. *)
Definition truncate (x : float64) : Z := Qfloor x.

(** The value of a number with its unit. *)
Definition scaled_unit (v f : Z) (scale : float64) (unit : Z) : result Z :=
  if 2 ^ 63 / unit <? v then Err bad_duration
  else
    let v := v * unit in
    if 0 <? f then
      let v := (v + truncate (fmul (of_int f) (fdiv (of_int unit) scale))) mod 2 ^ 64 in
      if 2 ^ 63 <? v then Err bad_duration else Ok v
    else Ok v.

(** What may follow the digits: a dot and a fraction, and whether it has digits. *)
Definition fraction (l : list ascii) : Z * float64 * list ascii * bool :=
  match l with
  | c :: rest =>
      if Ascii.eqb c "." then
        let '(f, scale, rest') := leading_fraction rest 0 (of_int 1) false in
        (f, scale, rest', negb (length rest' =? length rest)%nat)
      else (0, of_int 1, l, false)
  | [] => (0, of_int 1, [], false)
  end.

(** One number with its unit, and what follows. *)
Definition quantity (l : list ascii) : result (Z * list ascii) :=
  match l with
  | [] => Err bad_duration
  | c :: _ =>
      if negb (Ascii.eqb c "." || is_some (digit_value c)) then Err bad_duration
      else
        match leading_int l 0 with
        | None => Err bad_duration
        | Some (v, l1) =>
            let pre := negb (length l1 =? length l)%nat in
            let '(f, scale, l2, post) := fraction l1 in
            if negb pre && negb post then Err bad_duration
            else
              let '(u, rest) := until_number l2 in
              if is_nil u then errorf "time: missing unit in duration"
              else
                match unit_in unit_map (of_bytes u) with
                | None => errorf "time: unknown unit"
                | Some unit => v ← scaled_unit v f scale unit; Ok (v, rest)
                end
        end
  end.

Fixpoint quantities (fuel : nat) (l : list ascii) (d : Z) : result Z :=
  match fuel, l with
  | _, [] => Ok d
  | O, _ => Err bad_duration
  | S fuel, _ =>
      q ← quantity l;
      let '(v, rest) := q in
      let d := (d + v) mod 2 ^ 64 in
      if 2 ^ 63 <? d then Err bad_duration else quantities fuel rest d
  end.

(** A sign in front, and whether it is a minus. *)
Definition sign (l : list ascii) : bool * list ascii :=
  match l with
  | c :: rest =>
      if Ascii.eqb c "-" then (true, rest) else if Ascii.eqb c "+" then (false, rest) else (false, l)
  | [] => (false, [])
  end.

Definition ParseDuration (s : string) : result Z :=
  let '(neg, l) := sign (bytes s) in
  if of_bytes l =s? "0" then Ok 0
  else if is_nil l then Err bad_duration
  else
    d ← quantities (length l) l 0;
    if neg then Ok (wrap64 (- wrap64 d))
    else if 2 ^ 63 - 1 <? d then Err bad_duration else Ok d.

Example parse_hours : ParseDuration "1h30m" = Ok (90 * Minute).
Proof. vm_compute. reflexivity. Qed.
Example parse_fraction : ParseDuration "-1.5s" = Ok (-1500 * Millisecond).
Proof. vm_compute. reflexivity. Qed.
Example parse_micro : ParseDuration "+2µs" = Ok 2000.
Proof. vm_compute. reflexivity. Qed.
Example parse_least : ParseDuration "-9223372036854775808ns" = Ok int64_min.
Proof. vm_compute. reflexivity. Qed.
Example parse_beyond : ParseDuration "9223372036854775808ns" = Err bad_duration.
Proof. vm_compute. reflexivity. Qed.
Example parse_bare : ParseDuration "5" = errorf "time: missing unit in duration".
Proof. vm_compute. reflexivity. Qed.
Example parse_dot : ParseDuration ".s" = Err bad_duration.
Proof. vm_compute. reflexivity. Qed.
Example parse_tenth_hour : ParseDuration "0.1h" = Ok (6 * Minute).
Proof. vm_compute. reflexivity. Qed.

(** ** The fuel *)

Lemma leading_int_rest l : ∀ x v rest, leading_int l x = Some (v, rest) → ∃ k, l = (k ++ rest)%list.
Proof.
  induction l as [|c l IH]; intros x v rest; cbn [leading_int]; [intros [= _ <-]; by exists []|].
  destruct (digit_value c); [|intros [= _ <-]; by exists []].
  destruct (_ <? x); [done|]. destruct (2 ^ 63 <? _); [done|].
  intros (k & ->)%IH. by exists (c :: k).
Qed.

Lemma leading_fraction_rest l : ∀ x scale o y sc rest,
  leading_fraction l x scale o = (y, sc, rest) → ∃ k, l = (k ++ rest)%list.
Proof.
  induction l as [|c l IH]; intros x scale o y sc rest; cbn [leading_fraction];
    [intros [= _ _ <-]; by exists []|].
  destruct (digit_value c); [|intros [= _ _ <-]; by exists []].
  intros Hl. assert (∃ k, l = (k ++ rest)%list) as [k ->]; [|by exists (c :: k)].
  destruct o; [by eapply IH|]. destruct (_ <? x); [by eapply IH|].
  destruct (2 ^ 63 <? _); by eapply IH.
Qed.

Lemma until_number_app l : (until_number l).1 ++ (until_number l).2 = l.
Proof.
  induction l as [|c l IH]; [done|]. cbn [until_number].
  destruct (Ascii.eqb c "." || is_some (digit_value c)); [done|].
  destruct (until_number l). cbn in *. by rewrite IH.
Qed.

Lemma fraction_shorter l f sc l2 post :
  fraction l = (f, sc, l2, post) → (length l2 ≤ length l)%nat.
Proof.
  unfold fraction. destruct l as [|c l]; [by intros [= _ _ <- _]|].
  destruct (Ascii.eqb c "."); [|by intros [= _ _ <- _]].
  destruct (leading_fraction _ _ _ _) as [[f' sc'] l3] eqn:E. intros [= _ _ <- _].
  apply leading_fraction_rest in E as (k & ->). cbn. rewrite length_app. lia.
Qed.

(** A number with its unit is not empty. *)
Lemma quantity_shorter l v rest : quantity l = Ok (v, rest) → (length rest < length l)%nat.
Proof.
  destruct l as [|c l]; [done|]. unfold quantity. destruct (negb _); [done|].
  destruct (leading_int (c :: l) 0) as [[w l1]|] eqn:E1; [|done].
  apply leading_int_rest in E1 as (k1 & E1). apply (f_equal length) in E1. rewrite length_app in E1.
  destruct (fraction l1) as [[[f sc] l2] post] eqn:E2. apply fraction_shorter in E2.
  destruct (_ && _); [done|].
  pose proof (f_equal length (until_number_app l2)) as H3.
  destruct (until_number l2) as [u rest']. cbn in H3. rewrite length_app in H3.
  destruct (is_nil u) eqn:Eu; [done|]. destruct (unit_in _ _); [|done].
  intros (x & _ & [= _ <-])%bind_ok. destruct u; [done|]. cbn in *. lia.
Qed.

(** There is always enough of it. *)
Lemma quantities_fuel n : ∀ m l d,
  (length l ≤ n)%nat → (length l ≤ m)%nat → quantities n l d = quantities m l d.
Proof.
  induction n as [|n IH]; intros m l d Hn Hm; [destruct l, m; by cbn in *; try lia|].
  destruct l as [|c l]; [by destruct m|]. destruct m as [|m]; [cbn in Hm; lia|].
  cbn [quantities]. destruct (quantity (c :: l)) as [[v rest]|e] eqn:E; [|done].
  apply quantity_shorter in E. cbn [length] in *. cbn [mbind result_bind].
  destruct (2 ^ 63 <? _); [done|]. apply IH; lia.
Qed.

(** ** Bounds *)

Lemma quantities_range n : ∀ l d r, 0 ≤ d ≤ 2 ^ 63 → quantities n l d = Ok r → 0 ≤ r ≤ 2 ^ 63.
Proof.
  induction n as [|n IH]; intros l d r Hd; (destruct l as [|c l]; [by intros [= <-]|]); [done|].
  cbn [quantities]. intros ([v rest] & _ & H)%bind_ok. revert H.
  destruct (Z.ltb_spec (2 ^ 63) ((d + v) mod 2 ^ 64)); [done|]. apply IH.
  pose proof (Z.mod_pos_bound (d + v) (2 ^ 64)). lia.
Qed.

Lemma ParseDuration_int64 s d : ParseDuration s = Ok d → int64 d.
Proof.
  unfold ParseDuration. destruct (sign (bytes s)) as [neg l].
  destruct (_ =s? "0"). { intros [= <-]. by vm_compute. }
  destruct (is_nil l); [done|]. intros (r & Hr & H)%bind_ok.
  apply quantities_range in Hr; [|lia]. revert H. destruct neg.
  - intros [= <-]. apply wrap64_range.
  - destruct (Z.ltb_spec (2 ^ 63 - 1) r); [done|]. intros [= <-].
    unfold int64, int64_min, int64_max. lia.
Qed.

(** ** A whole number of a unit *)

Lemma leading_int_digits l : ∀ x v rest,
  digits_value l x = Some v → 0 ≤ x → v ≤ 2 ^ 63 →
  match rest with c :: _ => digit_value c = None | [] => True end →
  leading_int (l ++ rest) x = Some (v, rest) ∧ x ≤ v.
Proof.
  induction l as [|c l IH]; intros x v rest Hd Hx Hv Hr; cbn in Hd.
  - injection Hd as ->. split; [|lia]. destruct rest as [|c rest]; [done|]. cbn. by rewrite Hr.
  - destruct (digit_value c) as [d|] eqn:Ec; [|done]. cbn in Hd.
    assert (0 ≤ d) as H0.
    { unfold digit_value in Ec. destruct (is_digit_ascii (code c)) eqn:E; [|done]. injection Ec as <-.
      unfold is_digit_ascii, in_range in E. apply andb_true_iff in E as [E _]. lia. }
    destruct (IH (10 * x + d) v rest Hd ltac:(lia) Hv Hr) as [E Hle].
    split; [|lia]. cbn [app leading_int]. rewrite Ec.
    assert (x ≤ 2 ^ 63 / 10) as Hb by (apply Z.div_le_lower_bound; lia).
    rewrite (proj2 (Z.ltb_ge _ _) Hb).
    replace (x * 10 + d) with (10 * x + d) by lia.
    rewrite (proj2 (Z.ltb_ge (2 ^ 63) (10 * x + d))) by lia. exact E.
Qed.

(** A unit is letters: it is no number, and ends what comes before. *)
Lemma until_number_letters l :
  Forall (λ c, Ascii.eqb c "." || is_some (digit_value c) = false) l → until_number l = (l, []).
Proof. induction 1 as [|c l Hc _ IH]; [done|]. cbn [until_number]. by rewrite Hc, IH. Qed.

Lemma unit_letters u k : unit_in unit_map u = Some k →
  0 < k ≤ Hour ∧ bytes u ≠ [] ∧
  Forall (λ c, Ascii.eqb c "." || is_some (digit_value c) = false) (bytes u).
Proof.
  unfold unit_map. cbn [unit_in].
  repeat match goal with
  | |- context [if (?a =s? u) then _ else _] => destruct (String.eqb_spec a u) as [<-|_]
  end; intros [= <-]; (split; [by vm_compute|]); (split; [done|]); by repeat constructor.
Qed.

(** A whole number, not negative, of a unit is that many. *)
Lemma quantity_whole c l n u k :
  bytes (Itoa n) = c :: l → 0 ≤ n → n * k ≤ 2 ^ 63 → unit_in unit_map u = Some k →
  quantity (bytes (Itoa n) ++ bytes u) = Ok (n * k, []).
Proof.
  intros El Hn Hk Hu. destruct (unit_letters _ _ Hu) as (Hk0 & Hne & Hl).
  rewrite Itoa_nonneg, bytes_of_bytes in El |- * by done.
  destruct (digits_of_spec n Hn) as (c' & l' & E & Hd & Hv). rewrite El in E. injection E as <- <-.
  rewrite <- El in Hv. rewrite El in Hv |- *.
  assert (match bytes u with c :: _ => digit_value c = None | [] => True end) as Hr.
  { destruct (bytes u) as [|x ux]; [done|]. apply Forall_cons in Hl as [Hx _].
    apply orb_false_iff in Hx as [_ Hx]. by destruct (digit_value x). }
  destruct (leading_int_digits (c :: l) 0 n (bytes u) Hv (Z.le_refl 0) ltac:(nia) Hr) as [Hi _].
  unfold quantity. cbn [app]. change (c :: l ++ bytes u)%list with ((c :: l) ++ bytes u)%list.
  rewrite Hi. assert (is_some (digit_value c) = true) as ->.
  { apply Forall_cons in Hd as [Hc _]. unfold digit_value, digit_char in *. by rewrite Hc. }
  rewrite orb_true_r. cbn [negb].
  assert (fraction (bytes u) = (0, of_int 1, bytes u, false)) as ->.
  { unfold fraction. destruct (bytes u) as [|x ux]; [done|]. apply Forall_cons in Hl as [Hx _].
    apply orb_false_iff in Hx as [Hx _]. by rewrite Hx. }
  assert ((length (bytes u) =? length ((c :: l) ++ bytes u))%nat = false) as ->.
  { apply Nat.eqb_neq. rewrite length_app. cbn. lia. }
  cbn [negb andb]. rewrite (until_number_letters _ Hl).
  destruct (is_nil (bytes u)) eqn:En; [by destruct (bytes u)|]. rewrite of_bytes_bytes, Hu.
  unfold scaled_unit. rewrite (proj2 (Z.ltb_ge _ _)) by (apply Z.div_le_lower_bound; lia). done.
Qed.

(** An integer of a unit reads back, in the range of a duration. *)
Lemma ParseDuration_whole z u k :
  unit_in unit_map u = Some k → int64 (z * k) → ParseDuration (Itoa z +:+ u) = Ok (z * k).
Proof.
  intros Hu Hz. unfold int64, int64_min, int64_max in Hz. destruct (unit_letters _ _ Hu) as (Hk & Hne & _).
  assert (∀ n, 0 ≤ n → n * k ≤ 2 ^ 63 →
    let l := (bytes (Itoa n) ++ bytes u)%list in
    (of_bytes l =s? "0") = false ∧ is_nil l = false ∧ sign l = (false, l) ∧
    quantities (length l) l 0 = Ok (n * k)) as Hq.
  { intros n Hn Hnk. cbv zeta. rewrite Itoa_nonneg, bytes_of_bytes by done.
    destruct (digits_of_spec n Hn) as (c & l & E & Hd & _).
    assert (bytes (Itoa n) = c :: l) as El by by rewrite Itoa_nonneg, bytes_of_bytes.
    pose proof (quantity_whole c l n u k El Hn Hnk Hu) as Hw. rewrite El in Hw. rewrite E.
    cbn [app] in *. destruct (digit_char_not_sign c) as [E1 E2]; [by apply Forall_cons in Hd as [? _]|].
    split_and!; [|done|by cbn; rewrite E1, E2|].
    - apply seqb_neq. intros E0. apply (f_equal bytes) in E0. rewrite bytes_of_bytes in E0.
      injection E0 as _ E0. apply app_nil in E0 as [_ E0]. done.
    - cbn [length quantities]. rewrite Hw. cbn [mbind result_bind].
      rewrite Z.mod_small, (proj2 (Z.ltb_ge _ _)) by lia.
      by destruct (length (l ++ bytes u)). }
  unfold ParseDuration. rewrite bytes_app. destruct (Z.ltb_spec z 0) as [Hneg|Hpos].
  - destruct (Hq (- z) ltac:(lia) ltac:(lia)) as (H1 & H2 & _ & H4).
    assert (bytes (Itoa z) ++ bytes u = "-"%char :: (bytes (Itoa (- z)) ++ bytes u))%list as ->.
    { unfold Itoa. rewrite (proj2 (Z.ltb_lt z 0)), (proj2 (Z.ltb_ge (- z) 0)) by lia.
      by rewrite !bytes_of_bytes. }
    assert (∀ l, sign ("-"%char :: l) = (true, l)) as -> by done. rewrite H1, H2, H4. cbn [mbind result_bind]. f_equal.
    unfold wrap64. Z.div_mod_to_equations. lia.
  - destruct (Hq z Hpos ltac:(lia)) as (H1 & H2 & H3 & H4). rewrite H3, H1, H2, H4.
    cbn [mbind result_bind]. by rewrite (proj2 (Z.ltb_ge _ _)) by lia.
Qed.
