(* ===== verification/Json.v ===== *)
(** * internal/schema/scan.go: the JSON reader

    Package encoding/json as the inspector drives it: the tokens a [Decoder]
    hands out one by one ([Scan]) and the value it builds ([Decode]), with
    [UseNumber] set. Both stand on the same lexical level. *)
From S2P Require Import Prelude GoString.

(** ** Values: what [Decode] stores in an [any] *)

Inductive value : Type :=
| VNull
| VBool (b : bool)
| VNumber (literal : string)
| VString (s : string)
| VArray (items : list value)
| VObject (members : list (string * value)).

(** A [map[string]any] was filled in document order: the last member of a name
    is the one the map holds. *)
Fixpoint obj_get (members : list (string * value)) (key : string) : option value :=
  match members with
  | [] => None
  | (k, v) :: members =>
      match obj_get members key with
      | Some w => Some w
      | None => if k =s? key then Some v else None
      end
  end.

(** How deep containers nest; a scalar is at depth 0. *)
Fixpoint depth (v : value) : Z :=
  match v with
  | VArray items => 1 + foldr (λ v n, Z.max (depth v) n) 0 items
  | VObject members => 1 + foldr (λ '(_, v) n, Z.max (depth v) n) 0 members
  | _ => 0
  end.

(** ** Lexical level *)

Definition is_space (c : ascii) : bool :=
  Ascii.eqb c " " || (code c =? 9) || (code c =? 13) || (code c =? 10).

Definition skip_space : list ascii → list ascii := drop_while is_space.

Definition is_dec (c : ascii) : bool := is_digit_ascii (code c).

Definition hex_value (c : ascii) : option Z :=
  if between 48 57 c then Some (code c - 48)
  else if between 97 102 c then Some (code c - 87)
  else if between 65 70 c then Some (code c - 55)
  else None.

Definition hex4 (a b c d : ascii) : option Z :=
  a ← hex_value a; b ← hex_value b; c ← hex_value c; d ← hex_value d;
  Some (((a * 16 + b) * 16 + c) * 16 + d).

Definition quote : ascii := byte 34.
Definition backslash : ascii := byte 92.

(** What the one-letter escapes stand for. *)
Definition escape (c : ascii) : option ascii :=
  if Ascii.eqb c quote then Some quote
  else if Ascii.eqb c backslash then Some backslash
  else if Ascii.eqb c "/" then Some "/"%char
  else if Ascii.eqb c "b" then Some (byte 8)
  else if Ascii.eqb c "f" then Some (byte 12)
  else if Ascii.eqb c "n" then Some (byte 10)
  else if Ascii.eqb c "r" then Some (byte 13)
  else if Ascii.eqb c "t" then Some (byte 9)
  else None.

(** The text of a string literal after its opening quote: the raw bytes up to
    the closing one, escapes unresolved, and what follows it. *)
Fixpoint raw_string (l : list ascii) (skip : nat) : option (list ascii * list ascii) :=
  match l with
  | [] => None
  | c :: l' =>
      let keep r := match r with Some (raw, rest) => Some (c :: raw, rest) | None => None end in
      match skip with
      | S skip => keep (raw_string l' skip)
      | O =>
          if Ascii.eqb c quote then Some ([], l')
          else if Ascii.eqb c backslash then
            match l' with
            | u :: a :: b :: x :: y :: _ =>
                if Ascii.eqb u "u" then
                  match hex4 a b x y with
                  | Some _ => keep (raw_string l' 5)
                  | None => None
                  end
                else match escape u with Some _ => keep (raw_string l' 1) | None => None end
            | u :: _ => match escape u with Some _ => keep (raw_string l' 1) | None => None end
            | [] => None
            end
          else if code c <? 32 then None
          else keep (raw_string l' O)
      end
  end.

Definition is_surrogate (r : Z) : bool := in_range 55296 57343 r.

(** [utf16.DecodeRune] *)
Definition decode_surrogates (a b : Z) : option Z :=
  if in_range 55296 56319 a && in_range 56320 57343 b
  then Some ((a - 55296) * 1024 + (b - 56320) + 65536) else None.

(** [unquote]: escapes resolved, invalid UTF-8 replaced by U+FFFD. *)
Fixpoint unquote (l : list ascii) (skip : nat) : list ascii :=
  match l with
  | [] => []
  | c :: l' =>
      match skip with
      | S skip => unquote l' skip
      | O =>
          if Ascii.eqb c backslash then
            match l' with
            | u :: t =>
                if Ascii.eqb u "u" then
                  match t with
                  | a :: b :: x :: y :: t' =>
                      match hex4 a b x y with
                      | Some r =>
                          if is_surrogate r then
                            match t' with
                            | s :: v :: a' :: b' :: x' :: y' :: _ =>
                                match (if Ascii.eqb s backslash && Ascii.eqb v "u"
                                       then r' ← hex4 a' b' x' y'; decode_surrogates r r'
                                       else None) with
                                | Some w => encode_rune w ++ unquote l' 11
                                | None => encode_rune rune_error ++ unquote l' 5
                                end
                            | _ => encode_rune rune_error ++ unquote l' 5
                            end
                          else encode_rune r ++ unquote l' 5
                      | None => []
                      end
                  | _ => []
                  end
                else match escape u with
                     | Some e => e :: unquote l' 1
                     | None => []
                     end
            | [] => []
            end
          else if code c <? 128 then c :: unquote l' O
          else let '(r, n) := decode_rune c l' in encode_rune r ++ unquote l' (n - 1)
      end
  end.

Definition lex_string (l : list ascii) : option (string * list ascii) :=
  match raw_string l O with
  | Some (raw, rest) => Some (of_bytes (unquote raw O), rest)
  | None => None
  end.

(** The longest run of digits and the rest. *)
Fixpoint span_digits (l : list ascii) : list ascii * list ascii :=
  match l with
  | c :: l' => if is_dec c then let '(d, r) := span_digits l' in (c :: d, r) else ([], l)
  | [] => ([], [])
  end.

Definition digits1 (l : list ascii) : option (list ascii * list ascii) :=
  match span_digits l with
  | ([], _) => None
  | r => Some r
  end.

(** [0] alone, or digits that do not start with it. *)
Definition lex_integer (l : list ascii) : option (list ascii * list ascii) :=
  match l with
  | c :: l' => if Ascii.eqb c "0" then Some ([c], l') else digits1 l
  | [] => None
  end.

Definition lex_fraction (l : list ascii) : option (list ascii * list ascii) :=
  match l with
  | c :: l' =>
      if Ascii.eqb c "."
      then '(d, r) ← digits1 l'; Some (c :: d, r) else Some ([], l)
  | [] => Some ([], [])
  end.

Definition lex_exponent (l : list ascii) : option (list ascii * list ascii) :=
  match l with
  | c :: l' =>
      if Ascii.eqb c "e" || Ascii.eqb c "E" then
        match l' with
        | s :: l'' =>
            if Ascii.eqb s "+" || Ascii.eqb s "-"
            then '(d, r) ← digits1 l''; Some (c :: s :: d, r)
            else '(d, r) ← digits1 l'; Some (c :: d, r)
        | [] => None
        end
      else Some ([], l)
  | [] => Some ([], [])
  end.

Definition lex_number (l : list ascii) : option (list ascii * list ascii) :=
  let '(sign, l) :=
    match l with
    | c :: l' => if Ascii.eqb c "-" then ([c], l') else ([], l)
    | [] => ([], [])
    end in
  '(i, l) ← lex_integer l;
  '(f, l) ← lex_fraction l;
  '(e, l) ← lex_exponent l;
  Some (sign ++ i ++ f ++ e, l)%list.

Definition lex_word (word : string) (v : value) (l : list ascii) : option (value * list ascii) :=
  if lprefix (bytes word) l then Some (v, drop (String.length word) l) else None.

(** A string, number or literal at the head of the input. *)
Definition lex_scalar (l : list ascii) : option (value * list ascii) :=
  match l with
  | [] => None
  | c :: l' =>
      if Ascii.eqb c quote then '(s, r) ← lex_string l'; Some (VString s, r)
      else if Ascii.eqb c "t" then lex_word "true" (VBool true) l
      else if Ascii.eqb c "f" then lex_word "false" (VBool false) l
      else if Ascii.eqb c "n" then lex_word "null" VNull l
      else if Ascii.eqb c "-" || is_dec c
           then '(d, r) ← lex_number l; Some (VNumber (of_bytes d), r)
      else None
  end.

(** ** The streaming decoder: [Decoder.Token] *)

Inductive token_state :=
| TopValue | ArrayStart | ArrayValue | ArrayComma
| ObjectStart | ObjectKey | ObjectColon | ObjectValue | ObjectComma.

Inductive delim := LBrace | RBrace | LBracket | RBracket.

Inductive token := Delim (d : delim) | Scalar (v : value).

(** The unread input, [tokenState] and [tokenStack]. *)
Record decoder := Decoder {
  input : list ascii;
  state : token_state;
  stack : list token_state
}.

Inductive token_result :=
| TokEOF
| TokError
| Tok (t : token) (d : decoder).

Definition token_value_allowed (s : token_state) : bool :=
  match s with TopValue | ArrayStart | ArrayValue | ObjectValue => true | _ => false end.

Definition token_value_end (s : token_state) : token_state :=
  match s with
  | ArrayStart | ArrayValue => ArrayComma
  | ObjectValue => ObjectComma
  | s => s
  end.

(** The closing delimiter pops the state the container was opened in. *)
Definition close_container (rest : list ascii) (stk : list token_state) (t : delim)
  : token_result :=
  match stk with
  | s :: stk => Tok (Delim t) (Decoder rest (token_value_end s) stk)
  | [] => TokError
  end.

Definition scalar_token (l : list ascii) (s : token_state) (stk : list token_state)
  : token_result :=
  if token_value_allowed s then
    match lex_scalar l with
    | Some (v, rest) => Tok (Scalar v) (Decoder rest (token_value_end s) stk)
    | None => TokError
    end
  else TokError.

(** [:] and [,] change the state and the loop goes on: one step of it reads a
    token, or moves past one separator. A separator is never followed by another
    one in a state that takes it, so the loop runs at most twice. *)
Fixpoint token_loop (fuel : nat) (d : decoder) : token_result :=
  match fuel with
  | O => TokError
  | S fuel =>
      match skip_space (input d) with
      | [] => TokEOF
      | c :: rest =>
          let go s := token_loop fuel (Decoder rest s (stack d)) in
          if Ascii.eqb c "[" then
            if token_value_allowed (state d)
            then Tok (Delim LBracket) (Decoder rest ArrayStart (state d :: stack d))
            else TokError
          else if Ascii.eqb c "]" then
            match state d with
            | ArrayStart | ArrayComma => close_container rest (stack d) RBracket
            | _ => TokError
            end
          else if Ascii.eqb c "{" then
            if token_value_allowed (state d)
            then Tok (Delim LBrace) (Decoder rest ObjectStart (state d :: stack d))
            else TokError
          else if Ascii.eqb c "}" then
            match state d with
            | ObjectStart | ObjectComma => close_container rest (stack d) RBrace
            | _ => TokError
            end
          else if Ascii.eqb c ":" then
            match state d with
            | ObjectColon => go ObjectValue
            | _ => TokError
            end
          else if Ascii.eqb c "," then
            match state d with
            | ArrayComma => go ArrayValue
            | ObjectComma => go ObjectKey
            | _ => TokError
            end
          else if Ascii.eqb c quote then
            match state d with
            | ObjectStart | ObjectKey =>
                match lex_string rest with
                | Some (key, rest) => Tok (Scalar (VString key)) (Decoder rest ObjectColon (stack d))
                | None => TokError
                end
            | s => scalar_token (c :: rest) s (stack d)
            end
          else scalar_token (c :: rest) (state d) (stack d)
      end
  end.
Definition Token (d : decoder) : token_result := token_loop 3 d.

(** ** Scan *)

Definition err_syntax : error := Wrapf "json: %w" (Errorf "syntax error").

(** The loop of [Scan]: [None] is running out of fuel. *)
Fixpoint scan_loop (fuel : nat) (maxDepth : Z) (d : decoder) (dep : Z) (done : bool)
  : option (result (Z * bool)) :=
  match fuel with
  | O => None
  | S fuel =>
      match Token d with
      | TokEOF => Some (Ok (dep, done))
      | TokError => Some (Err err_syntax)
      | Tok t d =>
          if done then Some (errorf "json: trailing data after the document")
          else
            match t with
            | Delim (LBrace | LBracket) =>
                let dep := dep + 1 in
                if (0 <? maxDepth) && (maxDepth <? dep) then Some (Err ErrTooDeep)
                else scan_loop fuel maxDepth d dep done
            | Delim (RBrace | RBracket) =>
                let dep := dep - 1 in
                scan_loop fuel maxDepth d dep (done || (dep =? 0))
            | Scalar _ => scan_loop fuel maxDepth d dep (done || (dep =? 0))
            end
      end
  end.

Definition scan_finish (body : string) (r : Z * bool) : result unit :=
  let '(dep, done) := r in
  if negb (dep =? 0) then errorf "json: unexpected end of the document"
  else if negb done && negb (is_empty (TrimSpace body)) then errorf "json: no document found"
  else Ok tt.

(** Every token consumes a byte, so one round per byte and one for the end of
    the input are enough. *)
Definition Scan_fuel (fuel : nat) (body : string) (maxDepth : Z) : option (result unit) :=
  match scan_loop fuel maxDepth (Decoder (bytes body) TopValue []) 0 false with
  | None => None
  | Some (Err e) => Some (Err e)
  | Some (Ok r) => Some (scan_finish body r)
  end.
Definition Scan (body : string) (maxDepth : Z) : result unit :=
  match Scan_fuel (S (String.length body)) body maxDepth with
  | Some r => r
  | None => errorf "out of fuel"
  end.

(** ** Decode *)

(** The scanner refuses containers nested deeper than this. *)
Definition max_nesting_depth : Z := 10000.

Fixpoint parse_value (fuel : nat) (levels : Z) (l : list ascii) : option (value * list ascii) :=
  match fuel with
  | O => None
  | S fuel =>
      match skip_space l with
      | [] => None
      | c :: rest =>
          if Ascii.eqb c "[" then
            if levels <=? 0 then None
            else match skip_space rest with
                 | e :: rest' =>
                     if Ascii.eqb e "]" then Some (VArray [], rest')
                     else '(items, r) ← parse_items fuel (levels - 1) rest; Some (VArray items, r)
                 | [] => None
                 end
          else if Ascii.eqb c "{" then
            if levels <=? 0 then None
            else match skip_space rest with
                 | e :: rest' =>
                     if Ascii.eqb e "}" then Some (VObject [], rest')
                     else '(members, r) ← parse_members fuel (levels - 1) rest; Some (VObject members, r)
                 | [] => None
                 end
          else lex_scalar (c :: rest)
      end
  end
with parse_items (fuel : nat) (levels : Z) (l : list ascii) : option (list value * list ascii) :=
  match fuel with
  | O => None
  | S fuel =>
      '(v, r) ← parse_value fuel levels l;
      match skip_space r with
      | c :: r' =>
          if Ascii.eqb c "]" then Some ([v], r')
          else if Ascii.eqb c "," then '(items, r) ← parse_items fuel levels r'; Some (v :: items, r)
          else None
      | [] => None
      end
  end
with parse_members (fuel : nat) (levels : Z) (l : list ascii)
  : option (list (string * value) * list ascii) :=
  match fuel with
  | O => None
  | S fuel =>
      match skip_space l with
      | q :: l =>
          if Ascii.eqb q quote then
            '(key, r) ← lex_string l;
            match skip_space r with
            | c :: r =>
                if Ascii.eqb c ":" then
                  '(v, r) ← parse_value fuel levels r;
                  match skip_space r with
                  | c :: r' =>
                      if Ascii.eqb c "}" then Some ([(key, v)], r')
                      else if Ascii.eqb c ","
                      then '(members, r) ← parse_members fuel levels r'; Some ((key, v) :: members, r)
                      else None
                  | [] => None
                  end
                else None
            | [] => None
            end
          else None
      | [] => None
      end
  end.

(** The first value of the body; what follows it is not looked at. *)
Definition Decode (body : string) : result value :=
  match skip_space (bytes body) with
  | [] => Err (Wrapf "json: %w" EOF)
  | _ =>
      match parse_value (2 * S (String.length body)) max_nesting_depth (bytes body) with
      | Some (v, _) => Ok v
      | None => Err err_syntax
      end
  end.

(** ** The lexical level moves forward *)

Lemma drop_while_le {A} (f : A → bool) l : (length (drop_while f l) ≤ length l)%nat.
Proof. induction l as [|a l IH]; simpl; [done|]. destruct (f a); simpl; lia. Qed.

Lemma skip_space_le l : (length (skip_space l) ≤ length l)%nat.
Proof. apply drop_while_le. Qed.

Lemma raw_string_lt l k raw rest :
  raw_string l k = Some (raw, rest) → (length rest < length l)%nat.
Proof.
  revert k raw rest. induction l as [|c l IH]; [done|]. intros k raw rest H.
  simpl in H. repeat case_match; simplify_eq;
    try (match goal with H : raw_string _ _ = Some _ |- _ => apply IH in H end);
    simpl in *; lia.
Qed.

Lemma lex_string_lt l s rest : lex_string l = Some (s, rest) → (length rest < length l)%nat.
Proof.
  unfold lex_string. destruct (raw_string l 0) as [[raw r]|] eqn:E; [|done].
  intros [= _ <-]. by eapply raw_string_lt.
Qed.

Lemma span_digits_le l d r : span_digits l = (d, r) → (length d + length r = length l)%nat.
Proof.
  revert d r. induction l as [|c l IH]; intros d r; simpl; [by intros [= <- <-]|].
  destruct (is_dec c); [|by intros [= <- <-]].
  destruct (span_digits l) as [d' r'] eqn:E. intros [= <- <-]. simpl.
  specialize (IH d' r' eq_refl). lia.
Qed.

Lemma digits1_lt l d r : digits1 l = Some (d, r) → (length r < length l)%nat.
Proof.
  unfold digits1. destruct (span_digits l) as [[|c d'] r'] eqn:E; [done|].
  intros [= <- <-]. apply span_digits_le in E. simpl in E. lia.
Qed.

Lemma lex_integer_lt l d r : lex_integer l = Some (d, r) → (length r < length l)%nat.
Proof.
  destruct l as [|c l]; [done|]. simpl. case_match; [intros [= _ <-]; simpl; lia|].
  apply digits1_lt.
Qed.

Lemma lex_fraction_le l d r : lex_fraction l = Some (d, r) → (length r ≤ length l)%nat.
Proof.
  destruct l as [|c l]; simpl; [by intros [= <- <-]|]. case_match; [|by intros [= <- <-]].
  destruct (digits1 l) as [[d' r']|] eqn:E; [|done]. intros [= _ <-].
  apply digits1_lt in E. lia.
Qed.

Lemma lex_exponent_le l d r : lex_exponent l = Some (d, r) → (length r ≤ length l)%nat.
Proof.
  destruct l as [|c l]; simpl; [by intros [= <- <-]|]. case_match; [|by intros [= <- <-]].
  destruct l as [|s l]; [done|]. case_match.
  - destruct (digits1 l) as [[d' r']|] eqn:E; [|done]. intros [= _ <-].
    apply digits1_lt in E. simpl. lia.
  - destruct (digits1 (s :: l)) as [[d' r']|] eqn:E; [|done]. intros [= _ <-].
    apply digits1_lt in E. simpl in *. lia.
Qed.

Lemma lex_number_lt l d r : lex_number l = Some (d, r) → (length r < length l)%nat.
Proof.
  unfold lex_number. destruct (match l with [] => _ | c :: l' => _ end) as [sign l'] eqn:E.
  assert (length l' ≤ length l)%nat as Hl.
  { destruct l as [|c l]; [by simplify_eq|]. case_match; simplify_eq; simpl; lia. }
  destruct (lex_integer l') as [[i l1]|] eqn:E1; [|done].
  simpl. destruct (lex_fraction l1) as [[f l2]|] eqn:E2; [|done].
  simpl. destruct (lex_exponent l2) as [[e l3]|] eqn:E3; [|done].
  intros [= _ <-]. apply lex_integer_lt in E1. apply lex_fraction_le in E2.
  apply lex_exponent_le in E3. lia.
Qed.

Lemma lex_word_lt word v l w r :
  word ≠ "" → lex_word word v l = Some (w, r) → (length r < length l)%nat.
Proof.
  unfold lex_word. intros Hne. destruct (lprefix _ _) eqn:E; [|done].
  intros [= _ <-]. apply lprefix_spec in E as [t ->].
  rewrite length_drop, !length_app, length_bytes. destruct word; [done|]. simpl. lia.
Qed.

Lemma lex_scalar_lt l v r : lex_scalar l = Some (v, r) → (length r < length l)%nat.
Proof.
  destruct l as [|c l]; [done|]. unfold lex_scalar.
  destruct (Ascii.eqb c quote).
  { destruct (lex_string l) as [[s r']|] eqn:E; [|done]. intros [= _ <-].
    apply lex_string_lt in E. simpl. lia. }
  repeat (case_match; [by apply lex_word_lt|]).
  case_match; [|done].
  destruct (lex_number (c :: l)) as [[d r']|] eqn:E; [|done]. intros [= _ <-].
  by apply lex_number_lt in E.
Qed.

(** ** Tokens *)

(** States in which [:] and [,] are errors. *)
Definition no_separator (s : token_state) : bool :=
  match s with ArrayComma | ObjectColon | ObjectComma => false | _ => true end.

Ltac case_byte :=
  match goal with
  | |- context [Ascii.eqb ?a ?b] => destruct (Ascii.eqb_spec a b)
  | H : context [Ascii.eqb ?a ?b] |- _ => destruct (Ascii.eqb_spec a b)
  end; simplify_eq.

Lemma token_loop_stable n m d :
  no_separator (state d) = true → token_loop (S n) d = token_loop (S m) d.
Proof.
  destruct d as [l s stk]. simpl. intros Hs.
  destruct (skip_space l) as [|c r]; [done|].
  repeat (case_byte; [by destruct s|]). done.
Qed.

(** [,] and [:] move on to the position of the next element. *)
Lemma Token_comma l s stk r :
  skip_space l = ","%char :: r → s = ArrayComma ∨ s = ObjectComma →
  Token (Decoder l s stk) =
  Token (Decoder r (match s with ArrayComma => ArrayValue | _ => ObjectKey end) stk).
Proof.
  intros Hl Hs. unfold Token. cbn [token_loop input state]. rewrite Hl.
  destruct Hs as [-> | ->].
  - exact (token_loop_stable 1 2 (Decoder r ArrayValue stk) eq_refl).
  - exact (token_loop_stable 1 2 (Decoder r ObjectKey stk) eq_refl).
Qed.

Lemma Token_colon l stk r :
  skip_space l = ":"%char :: r →
  Token (Decoder l ObjectColon stk) = Token (Decoder r ObjectValue stk).
Proof.
  intros Hl. unfold Token. cbn [token_loop input state]. rewrite Hl.
  exact (token_loop_stable 1 2 (Decoder r ObjectValue stk) eq_refl).
Qed.

Lemma skip_space_lt l c r : skip_space l = c :: r → (length r < length l)%nat.
Proof. intros H. pose proof (skip_space_le l). rewrite H in *. simpl in *. lia. Qed.

Lemma token_loop_progress n d t d' :
  token_loop n d = Tok t d' → (length (input d') < length (input d))%nat.
Proof.
  revert d. induction n as [|n IH]; [done|]. intros [l s stk]. simpl.
  destruct (skip_space l) as [|c r] eqn:El; [done|]. apply skip_space_lt in El as Hr.
  assert (∀ s', scalar_token (c :: r) s' stk = Tok t d' →
    (length (input d') < length l)%nat) as Hscalar.
  { intros s'. unfold scalar_token. destruct (token_value_allowed s'); [|done].
    destruct (lex_scalar (c :: r)) as [[v rest]|] eqn:E; [|done]. intros [= _ <-].
    apply lex_scalar_lt in E. simpl in *. pose proof (skip_space_le l).
    rewrite El in *. simpl in *. lia. }
  assert (∀ s', token_loop n (Decoder r s' stk) = Tok t d' →
    (length (input d') < length l)%nat) as Hgo.
  { intros s' H%IH. simpl in H. lia. }
  destruct (Ascii.eqb_spec c "["); [by case_match; intros; simplify_eq/=|].
  destruct (Ascii.eqb_spec c "]");
    [unfold close_container; by repeat case_match; intros; simplify_eq/=|].
  destruct (Ascii.eqb_spec c "{"); [by case_match; intros; simplify_eq/=|].
  destruct (Ascii.eqb_spec c "}");
    [unfold close_container; by repeat case_match; intros; simplify_eq/=|].
  destruct (Ascii.eqb_spec c ":"); [destruct s; try done; apply Hgo|].
  destruct (Ascii.eqb_spec c ","); [destruct s; try done; apply Hgo|].
  destruct (Ascii.eqb_spec c quote); [|apply Hscalar].
  destruct s; try apply Hscalar;
    (destruct (lex_string r) as [[key rest]|] eqn:E; [|done]; intros; simplify_eq/=;
     apply lex_string_lt in E; lia).
Qed.

Lemma Token_progress d t d' : Token d = Tok t d' → (length (input d') < length (input d))%nat.
Proof. apply token_loop_progress. Qed.

(** One round per byte is enough fuel. *)
Lemma scan_loop_total n m d dep done :
  (length (input d) < n)%nat → scan_loop n m d dep done ≠ None.
Proof.
  revert d dep done. induction n as [|n IH]; intros d dep done Hn; [lia|]. simpl.
  destruct (Token d) as [| |t d'] eqn:E; [done|done|].
  apply Token_progress in E. assert (length (input d') < n)%nat by lia.
  destruct done; [done|].
  destruct t as [[]|v]; [|by apply IH| |by apply IH|by apply IH];
    (destruct (_ && _); [done|by apply IH]).
Qed.

(** What the tokens can be, by position. *)

Lemma Token_open_array l s stk r :
  skip_space l = "["%char :: r → token_value_allowed s = true →
  Token (Decoder l s stk) = Tok (Delim LBracket) (Decoder r ArrayStart (s :: stk)).
Proof.
  intros Hl Hs. unfold Token. cbn [token_loop input state stack]. rewrite Hl.
  change (Ascii.eqb "[" "[") with true. cbv iota. by rewrite Hs.
Qed.

Lemma Token_open_object l s stk r :
  skip_space l = "{"%char :: r → token_value_allowed s = true →
  Token (Decoder l s stk) = Tok (Delim LBrace) (Decoder r ObjectStart (s :: stk)).
Proof.
  intros Hl Hs. unfold Token. cbn [token_loop input state stack]. rewrite Hl.
  change (Ascii.eqb "{" "[") with false. change (Ascii.eqb "{" "]") with false.
  change (Ascii.eqb "{" "{") with true. cbv iota. by rewrite Hs.
Qed.

Lemma Token_value l s stk c r :
  skip_space l = c :: r → token_value_allowed s = true →
  (s = ArrayStart → c ≠ "]"%char) → c ≠ "["%char → c ≠ "{"%char →
  Token (Decoder l s stk) ≠ TokError →
  ∃ v rest, lex_scalar (c :: r) = Some (v, rest) ∧
    Token (Decoder l s stk) = Tok (Scalar v) (Decoder rest (token_value_end s) stk).
Proof.
  intros Hl Hs Hclose H1 H2. unfold Token. cbn [token_loop input state stack]. rewrite Hl.
  assert (scalar_token (c :: r) s stk ≠ TokError →
    ∃ v rest, lex_scalar (c :: r) = Some (v, rest) ∧
      scalar_token (c :: r) s stk = Tok (Scalar v) (Decoder rest (token_value_end s) stk)) as H.
  { unfold scalar_token. rewrite Hs. destruct (lex_scalar (c :: r)) as [[v rest]|]; naive_solver. }
  rewrite (proj2 (Ascii.eqb_neq c "[") H1), (proj2 (Ascii.eqb_neq c "{") H2).
  destruct (Ascii.eqb_spec c "]"); [destruct s; naive_solver|].
  destruct (Ascii.eqb_spec c "}"); [destruct s; naive_solver|].
  destruct (Ascii.eqb_spec c ":"); [destruct s; naive_solver|].
  destruct (Ascii.eqb_spec c ","); [destruct s; naive_solver|].
  destruct (Ascii.eqb c quote); [destruct s; done || apply H|apply H].
Qed.

Lemma Token_separator l s stk c r :
  skip_space l = c :: r → no_separator s = false →
  Token (Decoder l s stk) ≠ TokError →
  c = match s with ObjectColon => ":"%char | _ => ","%char end ∨
  (c = "]"%char ∧ s = ArrayComma) ∨ (c = "}"%char ∧ s = ObjectComma).
Proof.
  intros Hl Hs. unfold Token. cbn [token_loop input state stack]. rewrite Hl.
  destruct (Ascii.eqb_spec c "["); [by destruct s|].
  destruct (Ascii.eqb_spec c "]"); [destruct s; naive_solver|].
  destruct (Ascii.eqb_spec c "{"); [by destruct s|].
  destruct (Ascii.eqb_spec c "}"); [destruct s; naive_solver|].
  destruct (Ascii.eqb_spec c ":"); [destruct s; naive_solver|].
  destruct (Ascii.eqb_spec c ","); [destruct s; naive_solver|].
  destruct (Ascii.eqb c quote); by destruct s.
Qed.

(** A closing bracket, of either kind. *)
Definition closing (t : delim) : bool :=
  match t with RBracket | RBrace => true | _ => false end.

Lemma Token_close l s s0 stk c r :
  skip_space l = c :: r →
  (c = "]"%char ∧ (s = ArrayStart ∨ s = ArrayComma)) ∨
  (c = "}"%char ∧ (s = ObjectStart ∨ s = ObjectComma)) →
  ∃ t, closing t = true ∧
    Token (Decoder l s (s0 :: stk)) = Tok (Delim t) (Decoder r (token_value_end s0) stk).
Proof.
  intros Hl Hc. unfold Token. cbn [token_loop input state stack]. rewrite Hl.
  destruct Hc as [(-> & [-> | ->])|(-> & [-> | ->])]; [exists RBracket|exists RBracket|
    exists RBrace|exists RBrace]; done.
Qed.

Lemma Token_key l s stk c r :
  skip_space l = c :: r → s = ObjectStart ∨ s = ObjectKey →
  (s = ObjectStart → c ≠ "}"%char) → Token (Decoder l s stk) ≠ TokError →
  c = quote ∧ ∃ key rest, lex_string r = Some (key, rest) ∧
    Token (Decoder l s stk) = Tok (Scalar (VString key)) (Decoder rest ObjectColon stk).
Proof.
  intros Hl Hs Hclose. unfold Token. cbn [token_loop input state stack]. rewrite Hl.
  assert (token_value_allowed s = false) as Ha by (destruct Hs as [-> | ->]; done).
  unfold scalar_token. rewrite Ha.
  destruct (Ascii.eqb_spec c "["); [done|].
  destruct (Ascii.eqb_spec c "]"); [destruct s; naive_solver|].
  destruct (Ascii.eqb_spec c "{"); [done|].
  destruct (Ascii.eqb_spec c "}"); [destruct s; naive_solver|].
  destruct (Ascii.eqb_spec c ":"); [destruct s; naive_solver|].
  destruct (Ascii.eqb_spec c ","); [destruct s; naive_solver|].
  destruct (Ascii.eqb_spec c quote) as [->|]; [|done].
  destruct (lex_string r) as [[key rest]|]; destruct Hs as [-> | ->]; naive_solver.
Qed.

(** ** What the streaming pass accepts, the decoder reads

    [Scan] walks the tokens with an explicit stack; [Decode] recurses over the
    grammar. A run of the loop that ends well from the position of a value reads
    one value there, the same the parser reads, and goes on behind it. *)
Section scan_parse.
Variable m : Z.

Definition ends_well (n : nat) (d : decoder) (dep : Z) (done : bool) : Prop :=
  ∃ b, scan_loop n m d dep done = Some (Ok (0, b)).

Definition fits (dep : Z) : Prop := 0 < m → dep ≤ m.

Definition depths (vs : list value) : Z := foldr (λ v n, Z.max (depth v) n) 0 vs.
Definition member_depths (ms : list (string * value)) : Z :=
  foldr (λ '(_, v) n, Z.max (depth v) n) 0 ms.

Lemma depths_nonneg vs : 0 ≤ depths vs.
Proof. induction vs; simpl; lia. Qed.
Lemma member_depths_nonneg ms : 0 ≤ member_depths ms.
Proof. induction ms as [|[k v] ms IH]; simpl; lia. Qed.

Definition head_not (c : ascii) (l : list ascii) : Prop :=
  ∀ r, skip_space l = c :: r → False.

Definition parses_value n (d : decoder) dep : Prop :=
  ∃ v rest n', (n' < n)%nat ∧ (length rest < length (input d))%nat ∧ fits (dep + depth v) ∧
    (∀ f lv, (2 * length (input d) < f)%nat → depth v ≤ lv →
      parse_value f lv (input d) = Some (v, rest)) ∧
    ends_well n' (Decoder rest (token_value_end (state d)) (stack d)) dep (dep =? 0).

Definition parses_items n (d : decoder) (s0 : token_state) stk dep : Prop :=
  ∃ vs rest n', (n' < n)%nat ∧ (length rest < length (input d))%nat ∧
    fits (dep + depths vs) ∧
    (∀ f lv, (2 * length (input d) + 1 < f)%nat → depths vs ≤ lv →
      parse_items f lv (input d) = Some (vs, rest)) ∧
    ends_well n' (Decoder rest (token_value_end s0) stk) (dep - 1) (dep - 1 =? 0).

Definition parses_members n (d : decoder) (s0 : token_state) stk dep : Prop :=
  ∃ ms rest n', (n' < n)%nat ∧ (length rest < length (input d))%nat ∧
    fits (dep + member_depths ms) ∧
    (∀ f lv, (2 * length (input d) + 1 < f)%nat → member_depths ms ≤ lv →
      parse_members f lv (input d) = Some (ms, rest)) ∧
    ends_well n' (Decoder rest (token_value_end s0) stk) (dep - 1) (dep - 1 =? 0).

Definition value_claim n : Prop := ∀ d dep,
  token_value_allowed (state d) = true → (state d = ArrayStart → head_not "]" (input d)) →
  skip_space (input d) ≠ [] → 0 ≤ dep → fits dep →
  ends_well n d dep false → parses_value n d dep.

Definition items_claim n : Prop := ∀ d s0 stk dep,
  stack d = s0 :: stk → state d = ArrayValue ∨ state d = ArrayStart ∧ head_not "]" (input d) →
  0 < dep → fits dep → ends_well n d dep false → parses_items n d s0 stk dep.

Definition members_claim n : Prop := ∀ d s0 stk dep,
  stack d = s0 :: stk → state d = ObjectKey ∨ state d = ObjectStart ∧ head_not "}" (input d) →
  0 < dep → fits dep → ends_well n d dep false → parses_members n d s0 stk dep.

(** *** One round of the loop *)

Lemma ends_well_token n d dep done :
  ends_well n d dep done → ∃ n', n = S n' ∧ Token d ≠ TokError.
Proof.
  intros [b H]. destruct n as [|n']; [done|]. exists n'. split; [done|].
  intros E. simpl in H. by rewrite E in H.
Qed.

Lemma ends_well_open n d dep d' t :
  ends_well (S n) d dep false → Token d = Tok (Delim t) d' → closing t = false →
  fits (dep + 1) ∧ ends_well n d' (dep + 1) false.
Proof.
  intros [b H] E Ht. simpl in H. rewrite E in H. unfold fits, ends_well.
  destruct t; try done;
    (destruct ((0 <? m) && (m <? dep + 1)) eqn:Eg; [done|];
     split; [intros; guards; lia|eauto]).
Qed.

Lemma ends_well_close n d dep d' t :
  ends_well (S n) d dep false → Token d = Tok (Delim t) d' → closing t = true →
  ends_well n d' (dep - 1) (dep - 1 =? 0).
Proof.
  intros [b H] E Ht. simpl in H. rewrite E in H. unfold ends_well.
  destruct t; try done; eauto.
Qed.

Lemma ends_well_scalar n d dep v d' :
  ends_well (S n) d dep false → Token d = Tok (Scalar v) d' →
  ends_well n d' dep (dep =? 0).
Proof. intros [b H] E. simpl in H. rewrite E in H. unfold ends_well. eauto. Qed.

(** Two decoders with the same next token run alike. *)
Lemma ends_well_same n d d' dep done :
  Token d = Token d' → ends_well n d dep done → ends_well n d' dep done.
Proof. unfold ends_well. destruct n; simpl; [done|]. by intros ->. Qed.

Lemma ends_well_nonempty n d dep :
  0 < dep → ends_well n d dep false → ∃ c r, skip_space (input d) = c :: r.
Proof.
  intros Hdep [b H]. destruct (skip_space (input d)) as [|c r] eqn:E; [|eauto].
  destruct n; [done|]. simpl in H. unfold Token in H. cbn [token_loop] in H.
  rewrite E in H. simplify_eq. lia.
Qed.

Lemma nonzero_eqb dep : 0 < dep → (dep =? 0) = false.
Proof. intros. apply Z.eqb_neq. lia. Qed.

(** *** The three positions *)

Lemma parse_array_empty f lv l r r' :
  skip_space l = "["%char :: r → skip_space r = "]"%char :: r' → 0 < lv →
  parse_value (S f) lv l = Some (VArray [], r').
Proof.
  intros El Er Hlv. cbn [parse_value]. rewrite El.
  change (Ascii.eqb "[" "[") with true. cbv iota.
  rewrite (proj2 (Z.leb_gt lv 0) Hlv), Er. done.
Qed.

Lemma parse_array_items f lv l r e r' vs rest :
  skip_space l = "["%char :: r → skip_space r = e :: r' → e ≠ "]"%char → 0 < lv →
  parse_items f (lv - 1) r = Some (vs, rest) →
  parse_value (S f) lv l = Some (VArray vs, rest).
Proof.
  intros El Er He Hlv Hp. cbn [parse_value]. rewrite El.
  change (Ascii.eqb "[" "[") with true. cbv iota.
  rewrite (proj2 (Z.leb_gt lv 0) Hlv), Er, (proj2 (Ascii.eqb_neq e "]") He), Hp. done.
Qed.

Lemma parse_object_empty f lv l r r' :
  skip_space l = "{"%char :: r → skip_space r = "}"%char :: r' → 0 < lv →
  parse_value (S f) lv l = Some (VObject [], r').
Proof.
  intros El Er Hlv. cbn [parse_value]. rewrite El.
  change (Ascii.eqb "{" "[") with false. change (Ascii.eqb "{" "{") with true. cbv iota.
  rewrite (proj2 (Z.leb_gt lv 0) Hlv), Er. done.
Qed.

Lemma parse_object_members f lv l r e r' ms rest :
  skip_space l = "{"%char :: r → skip_space r = e :: r' → e ≠ "}"%char → 0 < lv →
  parse_members f (lv - 1) r = Some (ms, rest) →
  parse_value (S f) lv l = Some (VObject ms, rest).
Proof.
  intros El Er He Hlv Hp. cbn [parse_value]. rewrite El.
  change (Ascii.eqb "{" "[") with false. change (Ascii.eqb "{" "{") with true. cbv iota.
  rewrite (proj2 (Z.leb_gt lv 0) Hlv), Er, (proj2 (Ascii.eqb_neq e "}") He), Hp. done.
Qed.

Lemma parse_scalar f lv l c r v rest :
  skip_space l = c :: r → c ≠ "["%char → c ≠ "{"%char →
  lex_scalar (c :: r) = Some (v, rest) → parse_value (S f) lv l = Some (v, rest).
Proof.
  intros El H1 H2 Hv. cbn [parse_value].
  by rewrite El, (proj2 (Ascii.eqb_neq c "[") H1), (proj2 (Ascii.eqb_neq c "{") H2).
Qed.

Lemma scalar_depth l v r : lex_scalar l = Some (v, r) → depth v = 0.
Proof.
  destruct l as [|c l]; [done|]. unfold lex_scalar, lex_word.
  repeat case_match; try done; intros; simplify_option_eq;
    repeat (case_match; simplify_eq/=); done.
Qed.

Lemma array_step n l s stk dep r :
  (∀ n', (n' < S n)%nat → items_claim n') →
  skip_space l = "["%char :: r → token_value_allowed s = true → 0 ≤ dep →
  ends_well (S n) (Decoder l s stk) dep false → parses_value (S n) (Decoder l s stk) dep.
Proof.
  intros HI El Hs Hdep Hw. pose proof (skip_space_lt _ _ _ El).
  destruct (ends_well_open _ _ _ _ _ Hw (Token_open_array _ _ _ _ El Hs) eq_refl) as [Hf Hw'].
  destruct (ends_well_nonempty _ _ (dep + 1) ltac:(lia) Hw') as (e & r' & Er). cbn [input] in Er.
  pose proof (skip_space_lt _ _ _ Er).
  destruct (decide (e = "]"%char)) as [->|He].
  - destruct (Token_close r ArrayStart s stk "]" r' Er ltac:(auto)) as (t & Ht & ET).
    destruct (ends_well_token _ _ _ _ Hw') as (n2 & -> & _).
    pose proof (ends_well_close _ _ _ _ _ Hw' ET Ht) as Hw''.
    replace (dep + 1 - 1) with dep in Hw'' by lia.
    exists (VArray []), r', n2. split_and!; [lia|simpl; lia|exact Hf| |exact Hw''].
    intros [|f] lv Hfuel Hlv; [simpl in *; lia|]. cbn [depth foldr] in Hlv.
    apply (parse_array_empty _ _ _ r); [done|done|lia].
  - destruct (HI n ltac:(lia) (Decoder r ArrayStart (s :: stk)) s stk (dep + 1))
      as (vs & rest & n' & ? & ? & Hfit & Hp & Hw''); [done| |lia|done|done|].
    { right. split; [done|]. intros r'' Er''. cbn [input] in Er''. congruence. }
    replace (dep + 1 - 1) with dep in Hw'' by lia. cbn [input] in *.
    exists (VArray vs), rest, n'. split_and!; [lia|simpl; lia| | |exact Hw''].
    + unfold fits in *. cbn [depth]. change (foldr _ 0 vs) with (depths vs). lia.
    + intros [|f] lv Hfuel Hlv; [simpl in *; lia|]. cbn [depth] in Hlv.
      change (foldr _ 0 vs) with (depths vs) in Hlv. pose proof (depths_nonneg vs).
      apply (parse_array_items _ _ _ r e r'); [done|done|done|lia|].
      apply Hp; [cbn [input] in *; lia|lia].
Qed.

Lemma object_step n l s stk dep r :
  (∀ n', (n' < S n)%nat → members_claim n') →
  skip_space l = "{"%char :: r → token_value_allowed s = true → 0 ≤ dep →
  ends_well (S n) (Decoder l s stk) dep false → parses_value (S n) (Decoder l s stk) dep.
Proof.
  intros HM El Hs Hdep Hw. pose proof (skip_space_lt _ _ _ El).
  destruct (ends_well_open _ _ _ _ _ Hw (Token_open_object _ _ _ _ El Hs) eq_refl) as [Hf Hw'].
  destruct (ends_well_nonempty _ _ (dep + 1) ltac:(lia) Hw') as (e & r' & Er). cbn [input] in Er.
  pose proof (skip_space_lt _ _ _ Er).
  destruct (decide (e = "}"%char)) as [->|He].
  - destruct (Token_close r ObjectStart s stk "}" r' Er ltac:(auto)) as (t & Ht & ET).
    destruct (ends_well_token _ _ _ _ Hw') as (n2 & -> & _).
    pose proof (ends_well_close _ _ _ _ _ Hw' ET Ht) as Hw''.
    replace (dep + 1 - 1) with dep in Hw'' by lia.
    exists (VObject []), r', n2. split_and!; [lia|simpl; lia|exact Hf| |exact Hw''].
    intros [|f] lv Hfuel Hlv; [simpl in *; lia|]. cbn [depth foldr] in Hlv.
    apply (parse_object_empty _ _ _ r); [done|done|lia].
  - destruct (HM n ltac:(lia) (Decoder r ObjectStart (s :: stk)) s stk (dep + 1))
      as (ms & rest & n' & ? & ? & Hfit & Hp & Hw''); [done| |lia|done|done|].
    { right. split; [done|]. intros r'' Er''. cbn [input] in Er''. congruence. }
    replace (dep + 1 - 1) with dep in Hw'' by lia. cbn [input] in *.
    exists (VObject ms), rest, n'. split_and!; [lia|simpl; lia| | |exact Hw''].
    + unfold fits in *. cbn [depth]. change (foldr _ 0 ms) with (member_depths ms). lia.
    + intros [|f] lv Hfuel Hlv; [simpl in *; lia|]. cbn [depth] in Hlv.
      change (foldr _ 0 ms) with (member_depths ms) in Hlv.
      pose proof (member_depths_nonneg ms).
      apply (parse_object_members _ _ _ r e r'); [done|done|done|lia|].
      apply Hp; [cbn [input] in *; lia|lia].
Qed.

Lemma value_step n :
  (∀ n', (n' < n)%nat → items_claim n') → (∀ n', (n' < n)%nat → members_claim n') →
  value_claim n.
Proof.
  intros HI HM [l s stk] dep Hs Hclose Hne Hdep Hfit Hw. cbn [input state stack] in *.
  destruct (skip_space l) as [|c r] eqn:El; [done|].
  destruct (ends_well_token _ _ _ _ Hw) as (n1 & -> & Htok).
  destruct (decide (c = "["%char)) as [->|H1]; [by eapply array_step|].
  destruct (decide (c = "{"%char)) as [->|H2]; [by eapply object_step|].
  destruct (Token_value l s stk c r El Hs) as (v & rest & Hv & ET); [|done|done|done|].
  { intros HAS ->. by apply (Hclose HAS r). }
  pose proof (lex_scalar_lt _ _ _ Hv). pose proof (scalar_depth _ _ _ Hv) as Hd.
  pose proof (skip_space_lt _ _ _ El). pose proof (skip_space_le l). rewrite El in *.
  exists v, rest, n1. split_and!; [lia|simpl in *; lia| | |by eapply ends_well_scalar].
  - unfold fits in *. lia.
  - intros [|f] lv Hfuel Hlv; [simpl in *; lia|]. by eapply parse_scalar.
Qed.

Lemma parse_items_last f lv l v r r' :
  parse_value f lv l = Some (v, r) → skip_space r = "]"%char :: r' →
  parse_items (S f) lv l = Some ([v], r').
Proof. intros Hv Er. cbn [parse_items]. rewrite Hv. cbn. by rewrite Er. Qed.

Lemma parse_items_more f lv l v r r' vs rest :
  parse_value f lv l = Some (v, r) → skip_space r = ","%char :: r' →
  parse_items f lv r' = Some (vs, rest) →
  parse_items (S f) lv l = Some (v :: vs, rest).
Proof. intros Hv Er Hp. cbn [parse_items]. rewrite Hv. cbn. rewrite Er. cbn. by rewrite Hp. Qed.

Lemma items_step n :
  value_claim n → (∀ n', (n' < n)%nat → items_claim n') → items_claim n.
Proof.
  intros HV HI d s0 stk dep Hstk Hst Hdep Hfit Hw.
  destruct (ends_well_nonempty _ _ dep Hdep Hw) as (c0 & r0 & E0).
  assert (token_value_end (state d) = ArrayComma ∧ token_value_allowed (state d) = true)
    as [Hend Hal] by (destruct Hst as [Hs|[Hs _]]; by rewrite Hs).
  destruct (HV d dep) as (v & r & n1 & ? & ? & Hf & Hp & Hw1);
    [done| |congruence|lia|done|done|].
  { intros HAS. destruct Hst as [?|[_ ?]]; [congruence|done]. }
  rewrite nonzero_eqb, Hend, Hstk in Hw1 by done.
  destruct (ends_well_nonempty _ _ dep Hdep Hw1) as (c & r' & Er). cbn [input] in Er.
  pose proof (skip_space_lt _ _ _ Er).
  destruct (ends_well_token _ _ _ _ Hw1) as (n2 & -> & Htok).
  destruct (Token_separator r ArrayComma (s0 :: stk) c r' Er eq_refl Htok) as [-> | [(-> & _)|(_ & ?)]]; [| |done].
  - eapply ends_well_same in Hw1; [|apply (Token_comma _ _ _ _ Er); auto].
    destruct (HI (S n2) ltac:(lia) (Decoder r' ArrayValue (s0 :: stk)) s0 stk dep)
      as (vs & rest & n' & ? & ? & Hfit' & Hp' & Hw'); [done|by left|done|done|done|].
    cbn [input] in *.
    exists (v :: vs), rest, n'. split_and!; [lia|lia| | |done].
    + unfold fits in *. simpl. lia.
    + intros [|f] lv Hfuel Hlv; [lia|]. simpl in Hlv.
      apply (parse_items_more _ _ _ v r r'); [apply Hp; lia|done|apply Hp'; lia].
  - destruct (Token_close r ArrayComma s0 stk "]" r' Er ltac:(auto)) as (t & Ht & ET).
    pose proof (ends_well_close _ _ _ _ _ Hw1 ET Ht) as Hw2.
    exists [v], r', n2. split_and!; [lia|lia| | |done].
    + unfold fits in *. simpl. lia.
    + intros [|f] lv Hfuel Hlv; [lia|]. simpl in Hlv.
      apply (parse_items_last _ _ _ v r); [apply Hp; lia|done].
Qed.

Lemma parse_members_last f lv l key r0 r1 r2 v r r' :
  skip_space l = quote :: r0 → lex_string r0 = Some (key, r1) →
  skip_space r1 = ":"%char :: r2 →
  parse_value f lv r2 = Some (v, r) → skip_space r = "}"%char :: r' →
  parse_members (S f) lv l = Some ([(key, v)], r').
Proof.
  intros El Hk E1 Hv Er. cbn [parse_members]. rewrite El. rewrite Ascii.eqb_refl, Hk.
  cbn. rewrite E1. cbn. rewrite Hv. cbn. by rewrite Er.
Qed.

Lemma parse_members_more f lv l key r0 r1 r2 v r r' ms rest :
  skip_space l = quote :: r0 → lex_string r0 = Some (key, r1) →
  skip_space r1 = ":"%char :: r2 →
  parse_value f lv r2 = Some (v, r) → skip_space r = ","%char :: r' →
  parse_members f lv r' = Some (ms, rest) →
  parse_members (S f) lv l = Some ((key, v) :: ms, rest).
Proof.
  intros El Hk E1 Hv Er Hp. cbn [parse_members]. rewrite El. rewrite Ascii.eqb_refl, Hk.
  cbn. rewrite E1. cbn. rewrite Hv. cbn. rewrite Er. cbn. by rewrite Hp.
Qed.

(** The key and the colon of a member, and its value. *)
Lemma member_step n d s0 stk dep :
  (∀ n', (n' < n)%nat → value_claim n') →
  stack d = s0 :: stk → state d = ObjectKey ∨ state d = ObjectStart ∧ head_not "}" (input d) →
  0 < dep → fits dep → ends_well n d dep false →
  ∃ key r0 r1 r2 v r n', (n' < n)%nat ∧
    skip_space (input d) = quote :: r0 ∧ lex_string r0 = Some (key, r1) ∧
    skip_space r1 = ":"%char :: r2 ∧ (length r2 < length (input d))%nat ∧
    (length r < length r2)%nat ∧ fits (dep + depth v) ∧
    (∀ f lv, (2 * length r2 < f)%nat → depth v ≤ lv → parse_value f lv r2 = Some (v, r)) ∧
    ends_well n' (Decoder r ObjectComma (s0 :: stk)) dep false.
Proof.
  intros HV Hstk Hst Hdep Hfit Hw. destruct d as [l s stk']. cbn [input state stack] in *. subst stk'.
  destruct (ends_well_nonempty _ _ dep Hdep Hw) as (c & r0 & E0). cbn [input] in E0.
  destruct (ends_well_token _ _ _ _ Hw) as (n1 & -> & Htok).
  destruct (Token_key l s (s0 :: stk) c r0 E0) as (-> & key & r1 & Hk & ET);
    [by destruct Hst as [->|[-> _]]; auto| |done|].
  { intros HOS ->. destruct Hst as [->|[_ Hst]]; [done|]. by apply (Hst r0). }
  pose proof (ends_well_scalar _ _ _ _ _ Hw ET) as Hw1. rewrite nonzero_eqb in Hw1 by done.
  destruct (ends_well_nonempty _ _ dep Hdep Hw1) as (c & r2 & E1). cbn [input] in E1.
  destruct (ends_well_token _ _ _ _ Hw1) as (n2 & -> & Htok1).
  destruct (Token_separator r1 ObjectColon (s0 :: stk) c r2 E1 eq_refl Htok1) as [-> | [(_ & ?)|(_ & ?)]]; [|done|done].
  eapply ends_well_same in Hw1; [|apply (Token_colon _ _ _ E1)].
  destruct (ends_well_nonempty _ _ dep Hdep Hw1) as (c & r3 & E3). cbn [input] in E3.
  destruct (HV (S n2) ltac:(lia) (Decoder r2 ObjectValue (s0 :: stk)) dep)
    as (v & r & n' & ? & ? & Hf & Hp & Hw2); [done|done|cbn [input]; congruence|lia|done|done|].
  cbn [input state stack] in *. rewrite nonzero_eqb in Hw2 by done.
  pose proof (skip_space_lt _ _ _ E0). pose proof (skip_space_lt _ _ _ E1).
  pose proof (lex_string_lt _ _ _ Hk).
  exists key, r0, r1, r2, v, r, n'. split_and!; try done; lia.
Qed.

Lemma members_step n :
  (∀ n', (n' < n)%nat → value_claim n') → (∀ n', (n' < n)%nat → members_claim n') →
  members_claim n.
Proof.
  intros HV HM d s0 stk dep Hstk Hst Hdep Hfit Hw.
  destruct (member_step n d s0 stk dep HV Hstk Hst Hdep Hfit Hw)
    as (key & r0 & r1 & r2 & v & r & n1 & Hn & E0 & Hk & E1 & Hl2 & Hl & Hf & Hp & Hw1).
  destruct (ends_well_nonempty _ _ dep Hdep Hw1) as (c & r' & Er). cbn [input] in Er.
  pose proof (skip_space_lt _ _ _ Er).
  destruct (ends_well_token _ _ _ _ Hw1) as (n2 & -> & Htok).
  destruct (Token_separator r ObjectComma (s0 :: stk) c r' Er eq_refl Htok) as [-> | [(_ & ?)|(-> & _)]]; [|done|].
  - eapply ends_well_same in Hw1; [|apply (Token_comma _ _ _ _ Er); auto].
    destruct (HM (S n2) ltac:(lia) (Decoder r' ObjectKey (s0 :: stk)) s0 stk dep)
      as (ms & rest & n' & ? & ? & Hfit' & Hp' & Hw'); [done|by left|done|done|done|].
    cbn [input] in *.
    exists ((key, v) :: ms), rest, n'. split_and!; [lia|lia| | |done].
    + unfold fits in *. simpl. lia.
    + intros [|f] lv Hfuel Hlv; [lia|]. simpl in Hlv.
      apply (parse_members_more _ _ _ key r0 r1 r2 v r r'); try done;
        [apply Hp; lia|apply Hp'; lia].
  - destruct (Token_close r ObjectComma s0 stk "}" r' Er ltac:(auto)) as (t & Ht & ET).
    pose proof (ends_well_close _ _ _ _ _ Hw1 ET Ht) as Hw2.
    exists [(key, v)], r', n2. split_and!; [lia|lia| | |done].
    + unfold fits in *. simpl. lia.
    + intros [|f] lv Hfuel Hlv; [lia|]. simpl in Hlv.
      apply (parse_members_last _ _ _ key r0 r1 r2 v r); try done. apply Hp; lia.
Qed.

Lemma all_claims n : value_claim n ∧ items_claim n ∧ members_claim n.
Proof.
  induction n as [n IH] using lt_wf_ind.
  assert (value_claim n) as HV by (apply value_step; intros; by apply IH).
  split_and!; [done|apply items_step; [done|]; intros; by apply IH|].
  apply members_step; intros; by apply IH.
Qed.
End scan_parse.

Lemma bytes_nonempty_decode body :
  skip_space (bytes body) ≠ [] →
  Decode body =
  match parse_value (2 * S (String.length body)) max_nesting_depth (bytes body) with
  | Some (v, _) => Ok v
  | None => Err err_syntax
  end.
Proof. unfold Decode. by destruct (skip_space (bytes body)). Qed.

Lemma Scan_runs body m :
  Scan body m = Ok tt →
  ∃ b, scan_loop (S (String.length body)) m (Decoder (bytes body) TopValue []) 0 false =
    Some (Ok (0, b)).
Proof.
  unfold Scan, Scan_fuel, scan_finish.
  destruct (scan_loop _ _ _ _ _) as [[[dep b]|e]|]; [|done|done].
  destruct (Z.eqb_spec dep 0) as [->|]; [|done]. eauto.
Qed.

(** [Scan] always comes back: the fuel it is given is enough for any body. *)
Theorem Scan_terminates body maxDepth :
  Scan_fuel (S (String.length body)) body maxDepth ≠ None.
Proof.
  unfold Scan_fuel.
  pose proof (scan_loop_total (S (String.length body)) maxDepth
    (Decoder (bytes body) TopValue []) 0 false) as H.
  cbn [input] in H. rewrite length_bytes in H. specialize (H ltac:(lia)).
  by destruct (scan_loop _ _ _ _ _) as [[]|].
Qed.

Lemma scanned_decodes body maxDepth :
  0 < maxDepth ≤ max_nesting_depth → Scan body maxDepth = Ok tt →
  skip_space (bytes body) = [] ∨ ∃ v, Decode body = Ok v ∧ depth v ≤ maxDepth.
Proof.
  intros Hm [b Hrun]%Scan_runs.
  destruct (decide (skip_space (bytes body) = [])) as [|Hne]; [by left|right].
  destruct (all_claims maxDepth (S (String.length body))) as (HV & _ & _).
  destruct (HV (Decoder (bytes body) TopValue []) 0)
    as (v & rest & n' & _ & _ & Hfit & Hp & _); [done|done|done|lia| |by exists b|].
  { unfold fits. lia. }
  unfold fits in Hfit. cbn [input] in Hp. rewrite length_bytes in Hp.
  exists v. split; [|lia].
  rewrite bytes_nonempty_decode, Hp by (try done; lia). done.
Qed.

(** C33. Under a limit of at most 10000 levels, which is what [Decode] reads, a body
    that [Scan] accepts is blank, or it is a document that [Decode] reads as a value
    no deeper than the limit. *)
Theorem Scan_accepts_decodable body maxDepth :
  0 < maxDepth ≤ max_nesting_depth → Scan body maxDepth = Ok tt →
  skip_space (bytes body) = [] ∨ ∃ v, Decode body = Ok v ∧ depth v ≤ maxDepth.
Proof. exact (scanned_decodes body maxDepth). Qed.

Lemma Scan_accepts_decodable_witness :
  (0 < 2 ≤ max_nesting_depth ∧ Scan " [1, {}] " 2 = Ok tt) ∧
  (skip_space (bytes " [1, {}] ") = [] ∨ ∃ v, Decode " [1, {}] " = Ok v ∧ depth v ≤ 2).
Proof.
  split; [vm_compute; intuition congruence|].
  apply (Scan_accepts_decodable " [1, {}] " 2); vm_compute; intuition congruence.
Defined.

(** Above that limit the two part: the body is scanned in order and cannot be decoded. *)
Lemma Scan_past_Decode :
  let body := of_bytes (replicate (Z.to_nat 10001) (byte 91) ++ replicate (Z.to_nat 10001) (byte 93)) in
  Scan body 20000 = Ok tt ∧ Decode body = Err err_syntax.
Proof. split; vm_compute; reflexivity. Qed.
