(* ===== verification/JsonWrite.v ===== *)
(** * encoding/json: the writer

    What [json.Marshal] writes, with the HTML-safe escapes it has by default, and
    the round trip with the reader of [Json]. A value is written without white
    space. Text that is not valid UTF-8 comes back with U+FFFD for the bytes that
    are not, which [clean] states; [parse_print] is the round trip. *)
From S2P Require Import Prelude GoString Json.

(** ** Strings: [appendString] *)

(** The bytes that need no escape. *)
Definition html_safe (c : ascii) : bool :=
  between 32 127 c && negb (Ascii.eqb c quote) && negb (Ascii.eqb c backslash) &&
  negb (Ascii.eqb c "<") && negb (Ascii.eqb c ">") && negb (Ascii.eqb c "&").

Definition unicode_escape (r : Z) : list ascii :=
  [backslash; "u"%char; lower_hex (r / 4096 mod 16); lower_hex (r / 256 mod 16);
   lower_hex (r / 16 mod 16); lower_hex (r mod 16)].

(** An ASCII byte. *)
Definition write_byte (c : ascii) : list ascii :=
  if html_safe c then [c]
  else if Ascii.eqb c backslash || Ascii.eqb c quote then [backslash; c]
  else if code c =? 8 then [backslash; "b"%char]
  else if code c =? 12 then [backslash; "f"%char]
  else if code c =? 10 then [backslash; "n"%char]
  else if code c =? 13 then [backslash; "r"%char]
  else if code c =? 9 then [backslash; "t"%char]
  else unicode_escape (code c).

(** [skip] counts the bytes of the current character still to pass. *)
Fixpoint write_bytes (l : list ascii) (skip : nat) : list ascii :=
  match l with
  | [] => []
  | c :: l' =>
      match skip with
      | S skip => write_bytes l' skip
      | O =>
          if code c <? rune_self then write_byte c ++ write_bytes l' O
          else
            let '(r, n) := decode_rune c l' in
            (if (n =? 1)%nat then unicode_escape rune_error
             else if (r =? 8232) || (r =? 8233) then unicode_escape r
             else c :: take (n - 1) l') ++ write_bytes l' (n - 1)
      end
  end%list.

Definition write_string (s : string) : list ascii :=
  (quote :: write_bytes (bytes s) O ++ [quote])%list.

(** ** Values *)

(** Comma between elements. *)
Fixpoint commas (parts : list (list ascii)) : list ascii :=
  match parts with
  | [] => []
  | [p] => p
  | p :: parts => p ++ ","%char :: commas parts
  end%list.

Fixpoint print (v : value) : list ascii :=
  match v with
  | VNull => bytes "null"
  | VBool b => bytes (FormatBool b)
  | VNumber n => bytes n
  | VString s => write_string s
  | VArray items => "["%char :: commas (map print items) ++ ["]"%char]
  | VObject members =>
      "{"%char ::
      commas (map (λ '(k, v), write_string k ++ ":"%char :: print v) members) ++ ["}"%char]
  end%list.

(** The members of a map in the order of their keys, each key once. *)
Definition by_key (members : list (string * value)) : list (string * value) :=
  omap (λ k, (λ v, (k, v)) <$> obj_get members k) (sort_strings (remove_dups (map fst members))).

(** A [map[string]any] is written with its keys in order, each once. *)
Fixpoint canonical (v : value) : value :=
  match v with
  | VArray items => VArray (map canonical items)
  | VObject members =>
      VObject (by_key (map (λ '(k, v), (k, canonical v)) members))
  | v => v
  end.

(** [json.Marshal] of a value the reader built. *)
Definition Marshal_any (v : value) : string := of_bytes (print (canonical v)).

(** ** The whole input is one value: [checkValid] *)

Definition parse_document (body : string) : option value :=
  '(v, rest) ← parse_value (2 * S (String.length body)) max_nesting_depth (bytes body);
  match skip_space rest with [] => Some v | _ => None end.

(** What reading a text back gives: a string with U+FFFD for its invalid bytes. *)
Definition clean_string (s : string) : string := encode_runes (runes s).
Definition utf8 (s : string) : bool := clean_string s =s? s.

Fixpoint clean (v : value) : value :=
  match v with
  | VString s => VString (clean_string s)
  | VArray items => VArray (map clean items)
  | VObject members => VObject (map (λ '(k, v), (clean_string k, clean v)) members)
  | v => v
  end.

(** The number literals of the grammar. *)
Definition number_literal (s : string) : bool :=
  match lex_number (bytes s) with Some (d, []) => true | _ => false end.

Fixpoint writable (v : value) : bool :=
  match v with
  | VNumber n => number_literal n
  | VArray items => forallb writable items
  | VObject members => forallb (λ '(_, v), writable v) members
  | _ => true
  end.

(** ** Characters *)

Lemma low6_cont c : between 128 191 c = true → low6 c = code c - 128 ∧ 128 ≤ code c ≤ 191.
Proof.
  unfold between, low6. intros [H1%Z.leb_le H2%Z.leb_le]%andb_true_iff. split; [|lia].
  change 63 with (Z.ones 6). rewrite Z.land_ones by lia.
  rewrite <- (Z.mod_unique (code c) (2 ^ 6) 2 (code c - 128)); lia.
Qed.

Lemma between_le lo hi c : between lo hi c = true → lo ≤ code c ≤ hi.
Proof. unfold between. intros [?%Z.leb_le ?%Z.leb_le]%andb_true_iff. lia. Qed.

Lemma between_cont lo hi c :
  between lo hi c = true → 128 ≤ lo → hi ≤ 191 → between 128 191 c = true.
Proof. intros ?%between_le ??. unfold between. apply andb_true_iff. split; apply Z.leb_le; lia. Qed.

(** [AppendRune] with its bit operations as arithmetic. *)
Lemma encode_two r : 128 ≤ r < 2048 →
  encode_rune r = [byte (192 + r / 64); byte (128 + r mod 64)].
Proof.
  intros Hr. unfold encode_rune. change 63 with (Z.ones 6). rewrite Z.land_ones, !Z.shiftr_div_pow2 by lia.
  rewrite (proj2 (Z.ltb_ge r 128)), (proj2 (Z.ltb_lt r 2048)), (proj2 (Z.leb_le 0 r)) by lia.
  cbn. by rewrite Z.div_1_r.
Qed.

Lemma encode_three r : 2048 ≤ r < 65536 → ¬ 55296 ≤ r ≤ 57343 →
  encode_rune r = [byte (224 + r / 4096); byte (128 + r / 64 mod 64); byte (128 + r mod 64)].
Proof.
  intros Hr Hs. unfold encode_rune. change 63 with (Z.ones 6). rewrite !Z.land_ones, !Z.shiftr_div_pow2 by lia.
  rewrite (proj2 (Z.ltb_ge r 128)), (proj2 (Z.ltb_ge r 2048)), (proj2 (Z.ltb_lt r 65536)) by lia.
  rewrite (proj2 (Z.ltb_ge r 0)), (proj2 (Z.ltb_ge 1114111 r)) by lia.
  replace ((55296 <=? r) && (r <=? 57343)) with false by (symmetry; apply andb_false_iff; lia).
  rewrite !andb_false_r. cbn. by rewrite Z.div_1_r.
Qed.

Lemma encode_four r : 65536 ≤ r ≤ 1114111 →
  encode_rune r = [byte (240 + r / 262144); byte (128 + r / 4096 mod 64);
                   byte (128 + r / 64 mod 64); byte (128 + r mod 64)].
Proof.
  intros Hr. unfold encode_rune. change 63 with (Z.ones 6). rewrite !Z.land_ones, !Z.shiftr_div_pow2 by lia.
  rewrite (proj2 (Z.ltb_ge r 128)), (proj2 (Z.ltb_ge r 2048)), (proj2 (Z.ltb_ge r 65536)) by lia.
  rewrite (proj2 (Z.ltb_ge r 0)), (proj2 (Z.ltb_ge 1114111 r)) by lia.
  replace ((55296 <=? r) && (r <=? 57343)) with false by (symmetry; apply andb_false_iff; lia).
  rewrite !andb_false_r. cbn. by rewrite Z.div_1_r.
Qed.

Lemma byte_of z c : z = code c → byte z = c.
Proof. intros ->. apply byte_code. Qed.

(** The three widths of the decoder, each with the values of its bytes. *)
Definition two_ok (a b : ascii) : Prop := 194 ≤ code a ≤ 223 ∧ 128 ≤ code b ≤ 191.
Definition three_ok (a b c : ascii) : Prop :=
  224 ≤ code a ≤ 239 ∧ 128 ≤ code b ≤ 191 ∧ 128 ≤ code c ≤ 191 ∧
  (code a = 224 → 160 ≤ code b) ∧ (code a = 237 → code b ≤ 159).
Definition four_ok (a b c d : ascii) : Prop :=
  240 ≤ code a ≤ 244 ∧ 128 ≤ code b ≤ 191 ∧ 128 ≤ code c ≤ 191 ∧ 128 ≤ code d ≤ 191 ∧
  (code a = 240 → 144 ≤ code b) ∧ (code a = 244 → code b ≤ 143).

Lemma land_low k z : 0 ≤ k → Z.land z (2 ^ k - 1) = z mod 2 ^ k.
Proof. intros. rewrite <- Z.land_ones by done. f_equal. rewrite Z.ones_equiv. lia. Qed.
Definition rune2 (a b : ascii) : Z := (code a - 192) * 64 + (code b - 128).
Definition rune3 (a b c : ascii) : Z :=
  (code a - 224) * 4096 + (code b - 128) * 64 + (code c - 128).
Definition rune4 (a b c d : ascii) : Z :=
  (code a - 240) * 262144 + (code b - 128) * 4096 + (code c - 128) * 64 + (code d - 128).

Lemma land_code k m c q :
  0 ≤ k → m = 2 ^ k - 1 → q * 2 ^ k ≤ code c < (q + 1) * 2 ^ k →
  Z.land (code c) m = code c - q * 2 ^ k.
Proof. intros Hk -> Hc. rewrite land_low by done. symmetry. apply (Z.mod_unique _ _ q); lia. Qed.

Lemma low6_of c : 128 ≤ code c ≤ 191 → low6 c = code c - 128.
Proof. intros. unfold low6. rewrite (land_code 6 63 c 2); lia. Qed.

Lemma sum2 a b : two_ok a b → Z.shiftl (Z.land (code a) 31) 6 + low6 b = rune2 a b.
Proof.
  intros [Ha Hb]. rewrite (land_code 5 31 a 6), low6_of, Z.shiftl_mul_pow2 by lia. unfold rune2. lia.
Qed.
Lemma sum3 a b c : three_ok a b c →
  Z.shiftl (Z.land (code a) 15) 12 + Z.shiftl (low6 b) 6 + low6 c = rune3 a b c.
Proof.
  intros (Ha & Hb & Hc & _). rewrite (land_code 4 15 a 14), !low6_of, !Z.shiftl_mul_pow2 by lia.
  unfold rune3. lia.
Qed.
Lemma sum4 a b c d : four_ok a b c d →
  Z.shiftl (Z.land (code a) 7) 18 + Z.shiftl (low6 b) 12 + Z.shiftl (low6 c) 6 + low6 d = rune4 a b c d.
Proof.
  intros (Ha & Hb & Hc & Hd & _).
  rewrite (land_code 3 7 a 30), !low6_of, !Z.shiftl_mul_pow2 by lia. unfold rune4. lia.
Qed.

Lemma between_true lo hi c : lo ≤ code c ≤ hi → between lo hi c = true.
Proof. intros. unfold between. apply andb_true_iff. split; apply Z.leb_le; lia. Qed.
Lemma between_false lo hi c : code c < lo ∨ hi < code c → between lo hi c = false.
Proof. intros. unfold between. apply andb_false_iff. rewrite !Z.leb_gt. lia. Qed.

(** Evaluates the tests of the decoder on bytes whose ranges are known. *)
Ltac ranges :=
  repeat first
    [ rewrite between_true by lia | rewrite between_false by lia ].

Lemma decode_two a b l : two_ok a b → decode_rune a (b :: l) = (rune2 a b, 2%nat).
Proof.
  intros H. rewrite <- (sum2 a b H). destruct H as [Ha Hb]. unfold decode_rune.
  rewrite (proj2 (Z.ltb_ge _ _)) by lia. by ranges.
Qed.

Lemma decode_three a b c l : three_ok a b c → decode_rune a (b :: c :: l) = (rune3 a b c, 3%nat).
Proof.
  intros H. rewrite <- (sum3 a b c H). destruct H as (Ha & Hb & Hc & H1 & H2). unfold decode_rune.
  rewrite (proj2 (Z.ltb_ge _ _)), (between_false 194 223) by lia.
  destruct (decide (code a = 224)); [by ranges|].
  destruct (decide (code a = 237)); [by ranges|].
  destruct (decide (code a < 237)); by ranges.
Qed.

Lemma decode_four a b c d l :
  four_ok a b c d → decode_rune a (b :: c :: d :: l) = (rune4 a b c d, 4%nat).
Proof.
  intros H. rewrite <- (sum4 a b c d H). destruct H as (Ha & Hb & Hc & Hd & H1 & H2).
  unfold decode_rune.
  rewrite (proj2 (Z.ltb_ge _ _)), (between_false 194 223), (between_false 224 224),
    (between_false 225 236), (between_false 237 237), (between_false 238 239) by lia.
  destruct (decide (code a = 240)); [by ranges|].
  destruct (decide (code a = 244)); by ranges.
Qed.

Inductive decoded (a : ascii) : list ascii → Z → nat → Prop :=
| decoded_bad l : decoded a l rune_error 1
| decoded_2 b l : two_ok a b → decoded a (b :: l) (rune2 a b) 2
| decoded_3 b c l : three_ok a b c → decoded a (b :: c :: l) (rune3 a b c) 3
| decoded_4 b c d l : four_ok a b c d → decoded a (b :: c :: d :: l) (rune4 a b c d) 4.

Lemma decode_rune_decoded a l r n :
  128 ≤ code a → decode_rune a l = (r, n) → decoded a l r n.
Proof.
  intros Ha. unfold decode_rune. rewrite (proj2 (Z.ltb_ge _ _)) by lia.
  repeat case_match; intros [= <- <-]; try constructor;
    repeat match goal with
           | H : _ && _ = true |- _ => apply andb_true_iff in H as [? ?]
           end;
    repeat match goal with
           | H : between _ _ _ = true |- _ => apply between_le in H
           end.
  all: first
    [ rewrite sum2 by (split; lia); constructor; split; lia
    | rewrite sum3 by (repeat split; lia); constructor; repeat split; lia
    | rewrite sum4 by (repeat split; lia); constructor; repeat split; lia ].
Qed.

Lemma decoded_encode a l r n : decoded a l r n → n ≠ 1%nat →
  encode_rune r = a :: take (n - 1) l.
Proof.
  destruct 1 as [l|b l H|b c l H|b c d l H]; intros Hn; [done|..]; cbn [take Nat.sub].
  - destruct H as [Ha Hb]. unfold rune2. rewrite encode_two by lia.
    repeat f_equal; apply byte_of; clear -Ha Hb; Z.div_mod_to_equations; lia.
  - destruct H as (Ha & Hb & Hc & H1 & H2). unfold rune3. rewrite encode_three by lia.
    repeat f_equal; apply byte_of; clear -Ha Hb Hc; Z.div_mod_to_equations; lia.
  - destruct H as (Ha & Hb & Hc & Hd & H1 & H2). unfold rune4. rewrite encode_four by lia.
    repeat f_equal; apply byte_of; clear -Ha Hb Hc Hd; Z.div_mod_to_equations; lia.
Qed.

Lemma decode_rune_wide a l r n :
  128 ≤ code a → decode_rune a l = (r, n) → n ≠ 1%nat →
  (1 < n)%nat ∧ encode_rune r = a :: take (n - 1) l ∧ length (take (n - 1) l) = (n - 1)%nat ∧
  Forall (λ c, 128 ≤ code c) (take (n - 1) l) ∧
  ∀ rest, decode_rune a (take (n - 1) l ++ rest) = (r, n).
Proof.
  intros Ha Hd%decode_rune_decoded Hn; [|done]. pose proof (decoded_encode _ _ _ _ Hd Hn) as He.
  destruct Hd as [l|b l H|b c l H|b c d l H]; [done|..]; cbn [take Nat.sub app] in *;
    (split; [lia|]; split; [done|]; split; [done|]; split).
  1,3,5: repeat constructor; unfold two_ok, three_ok, four_ok in H; lia.
  - intros. by apply decode_two.
  - intros. by apply decode_three.
  - intros. by apply decode_four.
Qed.

(** ** Strings come back *)

Lemma raw_plain c l raw rest :
  32 ≤ code c → c ≠ quote → c ≠ backslash → raw_string l 0 = Some (raw, rest) →
  raw_string (c :: l) 0 = Some (c :: raw, rest).
Proof.
  intros Hc H1%Ascii.eqb_neq H2%Ascii.eqb_neq Hl. cbn [raw_string].
  by rewrite H1, H2, (proj2 (Z.ltb_ge _ _) Hc), Hl.
Qed.

Lemma wide_plain c : 128 ≤ code c → c ≠ quote ∧ c ≠ backslash.
Proof. intros Hc. split; intros ->; by vm_compute in Hc. Qed.

Lemma raw_wide p l raw rest :
  Forall (λ c, 128 ≤ code c) p → raw_string l 0 = Some (raw, rest) →
  raw_string (p ++ l) 0 = Some ((p ++ raw)%list, rest).
Proof.
  induction 1 as [|c p Hc Hp IH]; intros Hl; [done|]. destruct (wide_plain c Hc).
  cbn [app]. apply raw_plain; auto. lia.
Qed.

Lemma raw_escape u e l raw rest :
  u ≠ "u"%char → escape u = Some e → raw_string l 0 = Some (raw, rest) →
  raw_string (backslash :: u :: l) 0 = Some (backslash :: u :: raw, rest).
Proof.
  intros Hu%Ascii.eqb_neq He Hl. cbn [raw_string].
  change (Ascii.eqb backslash quote) with false. change (Ascii.eqb backslash backslash) with true.
  cbv iota. rewrite Hu, He, Hl. by destruct l as [|? [|? [|? [|? ?]]]].
Qed.

Lemma raw_unicode a b x y r l raw rest :
  hex4 a b x y = Some r → raw_string l 0 = Some (raw, rest) →
  raw_string (backslash :: "u"%char :: a :: b :: x :: y :: l) 0 =
    Some (backslash :: "u"%char :: a :: b :: x :: y :: raw, rest).
Proof. intros Hr Hl. cbn. rewrite Hr. by rewrite Hl. Qed.

Lemma hex_value_lower d : 0 ≤ d < 16 → hex_value (lower_hex d) = Some d.
Proof.
  intros. assert (d ∈ seqZ 0 16) as Hd by (apply elem_of_seqZ; lia).
  revert Hd. clear. intros Hd. cbn in Hd.
  repeat (apply elem_of_cons in Hd as [->|Hd]; [reflexivity|]).
  by apply not_elem_of_nil in Hd.
Qed.

Lemma hex4_escape r : 0 ≤ r < 65536 →
  hex4 (lower_hex (r / 4096 mod 16)) (lower_hex (r / 256 mod 16)) (lower_hex (r / 16 mod 16))
    (lower_hex (r mod 16)) = Some r.
Proof.
  intros Hr. unfold hex4. rewrite !hex_value_lower by (apply Z.mod_pos_bound; lia).
  cbn. f_equal. Z.div_mod_to_equations. lia.
Qed.

Lemma unquote_plain c l :
  code c < 128 → c ≠ backslash → unquote (c :: l) 0 = c :: unquote l 0.
Proof.
  intros Hc H1%Ascii.eqb_neq. cbn [unquote]. by rewrite H1, (proj2 (Z.ltb_lt _ _) Hc).
Qed.

Lemma unquote_escape u e l :
  u ≠ "u"%char → escape u = Some e → unquote (backslash :: u :: l) 0 = e :: unquote l 0.
Proof.
  intros Hu%Ascii.eqb_neq He. cbn [unquote]. change (Ascii.eqb backslash backslash) with true.
  cbv iota. by rewrite Hu, He.
Qed.

Lemma unquote_unicode r l :
  0 ≤ r < 65536 → is_surrogate r = false →
  unquote (unicode_escape r ++ l) 0 = (encode_rune r ++ unquote l 0)%list.
Proof.
  intros Hr Hs. unfold unicode_escape. cbn [app unquote].
  change (Ascii.eqb backslash backslash) with true. change (Ascii.eqb "u" "u") with true. cbv iota.
  by rewrite hex4_escape, Hs.
Qed.

Lemma unquote_skip p l : unquote (p ++ l) (length p) = unquote l 0.
Proof. induction p as [|c p IH]; [done|]. apply IH. Qed.

Lemma unquote_wide c p l r n :
  128 ≤ code c → decode_rune c (p ++ l) = (r, n) → length p = (n - 1)%nat →
  unquote (c :: p ++ l) 0 = (encode_rune r ++ unquote l 0)%list.
Proof.
  intros Hc Hd Hp. destruct (wide_plain c Hc) as [_ Hb%Ascii.eqb_neq]. cbn [unquote].
  by rewrite Hb, (proj2 (Z.ltb_ge _ _) Hc), Hd, <- Hp, unquote_skip.
Qed.

Lemma raw_unicode_escape r l raw rest :
  0 ≤ r < 65536 → raw_string l 0 = Some (raw, rest) →
  raw_string (unicode_escape r ++ l) 0 = Some ((unicode_escape r ++ raw)%list, rest).
Proof. intros. eapply raw_unicode; [by apply hex4_escape|done]. Qed.

(** What [write_byte] makes of an ASCII byte. *)
Lemma write_byte_cases c :
  code c < 128 →
  (write_byte c = [c] ∧ html_safe c = true ∧ 32 ≤ code c ∧ c ≠ quote ∧ c ≠ backslash) ∨
  (∃ u, write_byte c = [backslash; u] ∧ u ≠ "u"%char ∧ escape u = Some c) ∨
  (write_byte c = unicode_escape (code c)).
Proof.
  intros Hc. unfold write_byte. destruct (html_safe c) eqn:Es.
  { left. pose proof Es as Es'. unfold html_safe in Es. rewrite !andb_true_iff, !negb_true_iff, !Ascii.eqb_neq in Es.
    destruct Es as (((((?%between_le & ?) & ?) & _) & _) & _). split_and!; auto; lia. }
  right. repeat case_match; [left..|by right];
    repeat match goal with
           | H : (_ || _) = true |- _ =>
               apply orb_true_iff in H as [E%Ascii.eqb_eq|E%Ascii.eqb_eq]; subst
           | H : (code _ =? _) = true |- _ =>
               apply Z.eqb_eq in H; pose proof (byte_code c); rewrite H in *; subst
           end; by eexists.
Qed.

Lemma write_byte_raw c l raw rest :
  code c < 128 → raw_string l 0 = Some (raw, rest) →
  raw_string (write_byte c ++ l) 0 = Some ((write_byte c ++ raw)%list, rest).
Proof.
  intros Hc Hl. pose proof (code_nonneg c).
  destruct (write_byte_cases c Hc) as [(-> & _ & ? & ? & ?)|[(u & -> & ? & ?)| ->]].
  - by apply raw_plain.
  - by eapply raw_escape.
  - apply raw_unicode_escape; [lia|done].
Qed.

Lemma write_byte_unquote c l :
  code c < 128 → unquote (write_byte c ++ l) 0 = c :: unquote l 0.
Proof.
  intros Hc. pose proof (code_nonneg c).
  destruct (write_byte_cases c Hc) as [(-> & _ & ? & ? & ?)|[(u & -> & ? & ?)| ->]].
  - by apply unquote_plain.
  - by eapply unquote_escape.
  - rewrite unquote_unicode; [|lia|apply andb_false_iff; left; apply Z.leb_gt; lia].
    rewrite encode_rune_ascii by lia. by rewrite byte_code.
Qed.

Lemma write_bytes_raw l : ∀ k rest,
  raw_string (write_bytes l k ++ quote :: rest) 0 = Some (write_bytes l k, rest).
Proof.
  induction l as [|c l IH]; intros k rest; [done|].
  destruct k as [|k]; [|apply IH]. cbn [write_bytes].
  destruct (Z.ltb_spec (code c) rune_self) as [Hc|Hc].
  { rewrite <- (assoc_L (++)). by apply write_byte_raw. }
  destruct (decode_rune c l) as [r n] eqn:Ed. rewrite <- (assoc_L (++)).
  destruct (Nat.eqb_spec n 1) as [->|Hn]; [apply raw_unicode_escape; [done|apply IH]|].
  destruct (decode_rune_wide c l r n Hc Ed Hn) as (_ & _ & _ & Hw & _).
  destruct ((r =? 8232) || (r =? 8233)) eqn:Er.
  - apply raw_unicode_escape; [|apply IH]. apply orb_true_iff in Er. lia.
  - apply (raw_wide (c :: take (n - 1) l)); [by constructor|apply IH].
Qed.

Lemma write_bytes_unquote l : ∀ k,
  unquote (write_bytes l k) 0 = mjoin (encode_rune <$> runes_of l k).
Proof.
  induction l as [|c l IH]; intros k; [done|].
  destruct k as [|k]; [|apply IH]. cbn [write_bytes runes_of].
  destruct (Z.ltb_spec (code c) rune_self) as [Hc|Hc].
  { change rune_self with 128 in Hc. pose proof (code_nonneg c).
    rewrite write_byte_unquote, IH by done. unfold decode_rune. rewrite (proj2 (Z.ltb_lt _ _) Hc).
    cbn. rewrite encode_rune_ascii by lia. by rewrite byte_code. }
  destruct (decode_rune c l) as [r n] eqn:Ed.
  change (mjoin (encode_rune <$> r :: runes_of l (n - 1)))
    with (encode_rune r ++ mjoin (encode_rune <$> runes_of l (n - 1)))%list.
  rewrite <- (IH (n - 1)%nat).
  destruct (Nat.eqb_spec n 1) as [->|Hn].
  { rewrite unquote_unicode by done.
    apply decode_rune_decoded in Ed; [|done]. by inversion Ed. }
  destruct (decode_rune_wide c l r n Hc Ed Hn) as (_ & He & Hl & Hw & Hd).
  destruct ((r =? 8232) || (r =? 8233)) eqn:Er.
  - apply orb_true_iff in Er. rewrite unquote_unicode; [done|lia|].
    by destruct Er as [E%Z.eqb_eq|E%Z.eqb_eq]; rewrite E.
  - by apply (unquote_wide c (take (n - 1) l) _ r n).
Qed.

(** A string is read back whole, its invalid bytes replaced. *)
Lemma lex_write_string s rest :
  lex_string (write_bytes (bytes s) 0 ++ quote :: rest) = Some (clean_string s, rest).
Proof. unfold lex_string. rewrite write_bytes_raw, write_bytes_unquote. done. Qed.

(** ** Numbers come back *)

(** What may follow a number without being read as a part of it. *)
Definition number_end (l : list ascii) : bool :=
  match l with
  | [] => true
  | c :: _ => negb (is_dec c) && negb (Ascii.eqb c ".") && negb (Ascii.eqb c "e") &&
              negb (Ascii.eqb c "E")
  end.

Section number.
Context (rest : list ascii) (Hend : number_end rest = true).

Lemma end_span : span_digits rest = ([], rest).
Proof.
  destruct rest as [|c l]; [done|]. cbn in Hend |- *. apply andb_true_iff in Hend as [Hd _].
  apply andb_true_iff in Hd as [Hd _]. apply andb_true_iff in Hd as [Hd _].
  by destruct (is_dec c).
Qed.

Lemma span_digits_app l d r :
  span_digits l = (d, r) → l = (d ++ r)%list ∧ span_digits (l ++ rest) = (d, (r ++ rest)%list).
Proof.
  revert d r. induction l as [|c l IH]; cbn; intros d r.
  - intros [= <- <-]. split; [done|]. apply end_span.
  - destruct (is_dec c).
    + destruct (span_digits l) as [d' r']. intros [= <- <-].
      destruct (IH d' r' eq_refl) as [-> IH2]. by rewrite IH2.
    + by intros [= <- <-].
Qed.

Lemma digits1_app l d r :
  digits1 l = Some (d, r) → l = (d ++ r)%list ∧ digits1 (l ++ rest) = Some (d, (r ++ rest)%list).
Proof.
  unfold digits1. destruct (span_digits l) as [[|c d'] r'] eqn:E; [done|]. intros [= <- <-].
  apply span_digits_app in E as [E1 E2]. by rewrite E2.
Qed.

Lemma lex_integer_app l d r :
  lex_integer l = Some (d, r) → l = (d ++ r)%list ∧ lex_integer (l ++ rest) = Some (d, (r ++ rest)%list).
Proof.
  destruct l as [|c l]; [done|]. unfold lex_integer. cbn [app]. destruct (Ascii.eqb c "0").
  - by intros [= <- <-].
  - intros H. by apply digits1_app in H.
Qed.

Lemma lex_fraction_app l d r :
  lex_fraction l = Some (d, r) →
  l = (d ++ r)%list ∧ lex_fraction (l ++ rest) = Some (d, (r ++ rest)%list).
Proof.
  destruct l as [|c l]; cbn [app].
  - intros [= <- <-]. split; [done|]. destruct rest as [|c l]; [done|]. cbn in Hend |- *.
    by destruct (is_dec c), (Ascii.eqb c ".").
  - unfold lex_fraction. destruct (Ascii.eqb c "."); [|by intros [= <- <-]].
    destruct (digits1 l) as [[d' r']|] eqn:E; [|done]. cbn [mbind option_bind]. intros [= <- <-].
    apply digits1_app in E as [-> ->]. done.
Qed.

Lemma lex_exponent_app l d r :
  lex_exponent l = Some (d, r) →
  l = (d ++ r)%list ∧ lex_exponent (l ++ rest) = Some (d, (r ++ rest)%list).
Proof.
  destruct l as [|c l]; cbn [app].
  - intros [= <- <-]. split; [done|]. destruct rest as [|c l]; [done|]. cbn in Hend |- *.
    by destruct (is_dec c), (Ascii.eqb c "."), (Ascii.eqb c "e"), (Ascii.eqb c "E").
  - unfold lex_exponent. destruct (Ascii.eqb c "e" || Ascii.eqb c "E"); [|by intros [= <- <-]].
    destruct l as [|s l]; [done|]. cbn [app]. destruct (Ascii.eqb s "+" || Ascii.eqb s "-").
    + destruct (digits1 l) as [[d' r']|] eqn:E; [|done]. cbn [mbind option_bind]. intros [= <- <-].
      apply digits1_app in E as [-> ->]. done.
    + destruct (digits1 (s :: l)) as [[d' r']|] eqn:E; [|done]. cbn [mbind option_bind]. intros [= <- <-].
      apply digits1_app in E as [E1 E2]. cbn [app] in E2. rewrite E1, E2. done.
Qed.

Lemma lex_number_app l d r :
  lex_number l = Some (d, r) → l = (d ++ r)%list ∧ lex_number (l ++ rest) = Some (d, (r ++ rest)%list).
Proof.
  unfold lex_number.
  set (sign l := match l with c :: l' => if Ascii.eqb c "-" then ([c], l') else ([], l) | [] => ([], []) end).
  change (match l with c :: l' => _ | [] => _ end) with (sign l).
  change (match (l ++ rest)%list with c :: l' => _ | [] => _ end) with (sign (l ++ rest)%list).
  destruct l as [|c l]; [done|].
  assert (∃ s k, sign (c :: l) = (s, k) ∧ c :: l = (s ++ k)%list ∧
    sign ((c :: l) ++ rest)%list = (s, (k ++ rest)%list)) as (s & k & Es & E & Es').
  { cbn. destruct (Ascii.eqb c "-"); eauto. }
  rewrite Es, Es', E. clearbody sign. clear E Es Es' c l sign.
  destruct (lex_integer k) as [[i k1]|] eqn:E1; [|done].
  apply lex_integer_app in E1 as [-> E1]. rewrite E1. cbn [mbind option_bind].
  destruct (lex_fraction k1) as [[f k2]|] eqn:E2; [|done].
  apply lex_fraction_app in E2 as [-> E2]. rewrite E2. cbn [mbind option_bind].
  destruct (lex_exponent k2) as [[e k3]|] eqn:E3; [|done].
  apply lex_exponent_app in E3 as [-> E3]. rewrite E3. cbn [mbind option_bind].
  intros [= <- <-]. split; [|done]. by rewrite <- !(assoc_L (++)).
Qed.
End number.

Lemma lex_literal s rest :
  number_literal s = true → number_end rest = true →
  lex_number (bytes s ++ rest) = Some (bytes s, rest).
Proof.
  unfold number_literal. intros Hs Hr. destruct (lex_number (bytes s)) as [[d [|c r]]|] eqn:E; try done.
  apply (lex_number_app rest Hr) in E as [E1 E2]. rewrite app_nil_r in E1. by rewrite E2, E1.
Qed.

(** The integers Go writes are literals of the grammar. *)
Lemma itoa_digits_head fuel z acc :
  0 < z < 2 ^ Z.of_nat fuel →
  ∃ c l, itoa_digits fuel z acc = c :: l ∧ Ascii.eqb c "0" = false.
Proof.
  revert z acc. induction fuel as [|fuel IH]; intros z acc Hz; [cbn in Hz; lia|].
  cbn [itoa_digits]. destruct (Z.ltb_spec z 10).
  - eexists _, _. split; [done|]. assert (z ∈ seqZ 1 9) as Hd by (apply elem_of_seqZ; lia).
    revert Hd. clear. intros Hd. cbn in Hd.
    repeat (apply elem_of_cons in Hd as [->|Hd]; [reflexivity|]). by apply not_elem_of_nil in Hd.
  - apply IH. split; [apply Z.div_str_pos; lia|]. apply Z.div_lt_upper_bound; [lia|].
    rewrite Nat2Z.inj_succ, Z.pow_succ_r in Hz by lia. lia.
Qed.

Lemma digit_char_dec c : digit_char c → is_dec c = true.
Proof. done. Qed.

Lemma span_all l : Forall digit_char l → span_digits l = (l, []).
Proof. induction 1 as [|c l Hc _ IH]; [done|]. cbn. by rewrite digit_char_dec, IH. Qed.

Lemma lex_integer_digits z : 0 ≤ z → lex_integer (digits_of z) = Some (digits_of z, []).
Proof.
  intros Hz. destruct (decide (z = 0)) as [->|Hz0]; [done|].
  destruct (digits_of_spec z Hz) as (c & l & E & Hd & _).
  destruct (itoa_digits_head (S (Z.to_nat (Z.log2 z))) z []) as (c' & l' & E' & H0).
  { rewrite Nat2Z.inj_succ, Z2Nat.id by apply Z.log2_nonneg. pose proof (Z.log2_spec z). lia. }
  fold (digits_of z) in E'. rewrite E in *. injection E' as <- <-.
  unfold lex_integer. rewrite H0. unfold digits1. by rewrite span_all.
Qed.

Lemma number_literal_Itoa z : number_literal (Itoa z) = true.
Proof.
  unfold number_literal, Itoa. rewrite bytes_of_bytes. destruct (Z.ltb_spec z 0).
  - unfold lex_number. change (Ascii.eqb "-" "-") with true. cbv iota.
    by rewrite lex_integer_digits by lia.
  - destruct (digits_of_spec z) as (c & l & E & Hd & _); [done|]. unfold lex_number. rewrite E.
    apply Forall_cons in Hd as [Hc _]. destruct (digit_char_not_sign c Hc) as [-> _].
    by rewrite <- E, lex_integer_digits.
Qed.

(** ** Values come back *)

Lemma value_induction (P : value → Prop) :
  P VNull → (∀ b, P (VBool b)) → (∀ n, P (VNumber n)) → (∀ s, P (VString s)) →
  (∀ items, Forall P items → P (VArray items)) →
  (∀ members, Forall (λ kv, P kv.2) members → P (VObject members)) →
  ∀ v, P v.
Proof.
  intros Hnull Hbool Hnum Hstr Harr Hobj. fix IH 1. intros [|b|n|s|items|members].
  - apply Hnull.
  - apply Hbool.
  - apply Hnum.
  - apply Hstr.
  - apply Harr. induction items as [|v items IHi]; constructor; [apply IH|apply IHi].
  - apply Hobj. induction members as [|[k v] members IHm]; constructor; [apply IH|apply IHm].
Qed.

Lemma number_head s : number_literal s = true →
  ∃ c l, bytes s = c :: l ∧ (c = "-"%char ∨ is_dec c = true).
Proof.
  unfold number_literal, lex_number. destruct (bytes s) as [|c l]; [done|]. intros H.
  exists c, l. split; [done|]. revert H. destruct (Ascii.eqb_spec c "-"); [by left|]. right.
  revert H. cbn. destruct (Ascii.eqb_spec c "0"); [by subst|].
  unfold digits1. cbn. by destruct (is_dec c).
Qed.

(** What a scalar of a number's first character is not. *)
Lemma number_start c :
  c = "-"%char ∨ is_dec c = true →
  is_space c = false ∧ c ≠ "["%char ∧ c ≠ "{"%char ∧ c ≠ "]"%char ∧
  ∀ l, lex_scalar (c :: l) =
    '(d, r) ← lex_number (c :: l); Some (VNumber (of_bytes d), r).
Proof.
  intros [->|Hc]; [done|].
  destruct c as [[] [] [] [] [] [] [] []]; vm_compute in Hc; done.
Qed.

Lemma print_head v : writable v = true →
  ∃ c l, print v = c :: l ∧ is_space c = false ∧ c ≠ "]"%char.
Proof.
  destruct v as [|[]|n|s|items|ms]; intros Hw; try by eexists _, _.
  destruct (number_head n Hw) as (c & l & E & Hc).
  destruct (number_start c Hc) as (? & _ & _ & ? & _). exists c, l. by rewrite <- E.
Qed.

Lemma skip_no_space c l : is_space c = false → skip_space (c :: l) = c :: l.
Proof. intros H. cbn. by rewrite H. Qed.

Lemma skip_print v rest : writable v = true → skip_space (print v ++ rest) = (print v ++ rest)%list.
Proof. intros Hw. destruct (print_head v Hw) as (c & l & -> & Hc & _). by apply skip_no_space. Qed.

Definition reads (v : value) : Prop := ∀ f lv rest,
  writable v = true → depth v ≤ lv → (2 * length (print v) < f)%nat → number_end rest = true →
  parse_value f lv (print v ++ rest) = Some (clean v, rest).

Lemma commas_cons p q ps : commas (p :: q :: ps) = (p ++ ","%char :: commas (q :: ps))%list.
Proof. done. Qed.

Lemma commas_head c p ps rest : ∃ l, (commas ((c :: p) :: ps) ++ rest)%list = c :: l.
Proof. destruct ps; cbn; eauto. Qed.

Lemma items_read items : ∀ f lv rest,
  items ≠ [] → Forall reads items → forallb writable items = true → depths items ≤ lv →
  (2 * length (commas (map print items)) + 1 < f)%nat →
  parse_items f lv (commas (map print items) ++ "]"%char :: rest) = Some (map clean items, rest).
Proof.
  induction items as [|v items IH]; intros f lv rest Hne Hall Hw Hd Hf; [done|].
  apply Forall_cons in Hall as [Hv Hall]. cbn [forallb] in Hw. apply andb_true_iff in Hw as [Hwv Hw].
  cbn [depths foldr] in Hd. fold (depths items) in Hd. destruct f as [|f]; [lia|].
  destruct items as [|w items].
  - eapply parse_items_last; [apply Hv; [done|lia| |done]|done]. cbn in Hf. lia.
  - cbn [map] in Hf |- *. rewrite commas_cons in Hf |- *. rewrite <- (assoc_L (++)). cbn [app].
    rewrite length_app in Hf. cbn [length] in Hf.
    eapply parse_items_more; [apply Hv; [done|lia|lia|done]|done|].
    apply IH; [done|done|done|lia|cbn [map]; lia].
Qed.

Lemma members_read ms : ∀ f lv rest,
  ms ≠ [] → Forall (λ kv, reads kv.2) ms → forallb (λ '(_, v), writable v) ms = true →
  member_depths ms ≤ lv →
  let parts := map (λ '(k, v), write_string k ++ ":"%char :: print v)%list ms in
  (2 * length (commas parts) + 1 < f)%nat →
  parse_members f lv (commas parts ++ "}"%char :: rest) =
    Some (map (λ '(k, v), (clean_string k, clean v)) ms, rest).
Proof.
  cbv zeta. induction ms as [|[k v] ms IH]; intros f lv rest Hne Hall Hw Hd Hf; [done|].
  apply Forall_cons in Hall as [Hv Hall]. cbn [forallb] in Hw. apply andb_true_iff in Hw as [Hwv Hw].
  cbn [member_depths foldr] in Hd. fold (member_depths ms) in Hd. destruct f as [|f]; [lia|].
  assert (∀ l, skip_space ((write_string k ++ ":"%char :: print v) ++ l)%list =
    quote :: write_bytes (bytes k) 0 ++ quote :: ":"%char :: print v ++ l)%list as E1.
  { intros l. unfold write_string. cbn [app]. rewrite skip_no_space by done.
    f_equal. rewrite <- !(assoc_L (++)). done. }
  assert (∀ l, lex_string (write_bytes (bytes k) 0 ++ quote :: ":"%char :: print v ++ l)%list =
    Some (clean_string k, ":"%char :: print v ++ l)%list) as E2 by (intros; apply lex_write_string).
  destruct ms as [|w ms].
  - cbn [map commas] in Hf |- *. rewrite length_app in Hf. cbn [length] in Hf.
    eapply parse_members_last; [apply E1|apply E2|done|apply Hv; [done|cbn in *; lia|cbn in *; lia|done]|done].
  - cbn [map] in Hf |- *. rewrite commas_cons in Hf |- *. rewrite <- (assoc_L (++)).
    rewrite !length_app in Hf. cbn [length] in Hf.
    eapply parse_members_more;
      [apply E1|apply E2|done|apply Hv; [done|cbn in *; lia|cbn in *; lia|done]|done|].
    apply IH; [done|done|done|lia|cbn [map]; lia].
Qed.

(** A printed value is read back, whatever follows it that a number may end at. *)
Lemma print_reads v : reads v.
Proof.
  induction v as [|b|n|s|items IH|ms IH] using value_induction; intros f lv rest Hw Hd Hf Hr.
  all: destruct f as [|f]; [lia|].
  - by eapply parse_scalar.
  - destruct b; by eapply parse_scalar.
  - cbn [print clean]. destruct (number_head n Hw) as (c & l & E & Hc).
    destruct (number_start c Hc) as (Hsp & H1 & H2 & _ & Hlex).
    pose proof (lex_literal n rest Hw Hr) as Hl. rewrite E in Hl |- *.
    apply (parse_scalar _ _ _ c (l ++ rest)); [by apply skip_no_space|done|done|].
    cbn [app] in Hl. rewrite Hlex, Hl. cbn [mbind option_bind]. by rewrite <- E, of_bytes_bytes.
  - cbn [print clean]. unfold write_string. cbn [app]. rewrite <- (assoc_L (++)). cbn [app].
    eapply parse_scalar; [by apply skip_no_space|done|done|].
    unfold lex_scalar. rewrite Ascii.eqb_refl, lex_write_string. done.
  - cbn [print clean]. cbn [depth] in Hd. cbn [app]. rewrite <- (assoc_L (++)). cbn [app].
    destruct items as [|v items].
    { eapply parse_array_empty; [done|done|]. cbn in Hd. lia. }
    cbn [print length app] in Hf. rewrite length_app in Hf. cbn [length] in Hf.
    fold (depths (v :: items)) in Hd. pose proof (depths_nonneg (v :: items)).
    destruct (print_head v (proj1 (proj1 (andb_true_iff _ _) Hw))) as (c & p & E & Hsp & Hc).
    destruct (commas_head c p (map print items) ("]"%char :: rest)) as [l El]. rewrite <- E in El.
    eapply parse_array_items; [done|cbn [map]; rewrite El; by apply skip_no_space|done|lia|].
    apply items_read; [done|done|done|lia|lia].
  - cbn [print clean]. cbn [depth] in Hd. cbn [app]. rewrite <- (assoc_L (++)). cbn [app].
    destruct ms as [|[k v] ms].
    { eapply parse_object_empty; [done|done|]. cbn in Hd. lia. }
    cbn [print length app] in Hf. rewrite length_app in Hf. cbn [length] in Hf.
    fold (member_depths ((k, v) :: ms)) in Hd. pose proof (member_depths_nonneg ((k, v) :: ms)).
    destruct (commas_head quote ((write_bytes (bytes k) 0 ++ [quote]) ++ ":"%char :: print v)
      (map (λ '(k, v), write_string k ++ ":"%char :: print v) ms) ("}"%char :: rest))%list as [l El].
    eapply parse_object_members;
      [done|etrans; [apply f_equal, El|by apply skip_no_space]|done|lia|].
    apply members_read; [done|done|done|lia|lia].
Qed.

(** ** UTF-8 *)

Lemma code_byte z : 0 ≤ z < 256 → code (byte z) = z.
Proof.
  intros Hz. unfold code, byte. rewrite N_ascii_embedding; lia.
Qed.

(** The decoder reads an encoded character in one step, and as the same one. *)
Lemma encode_rune_decodes r : ∃ a p r',
  encode_rune r = a :: p ∧ encode_rune r' = a :: p ∧
  ∀ rest, decode_rune a (p ++ rest) = (r', S (length p)).
Proof.
  assert (∃ a p, encode_rune rune_error = a :: p ∧
    ∀ rest, decode_rune a (p ++ rest) = (rune_error, S (length p))) as Hbad.
  { eexists _, _. split; [reflexivity|]. intros rest. cbn [app length].
    by apply (decode_three (byte 239) (byte 191) (byte 189)). }
  assert (∀ r, encode_rune r = encode_rune rune_error → ∃ a p r',
    encode_rune r = a :: p ∧ encode_rune r' = a :: p ∧
    ∀ rest, decode_rune a (p ++ rest) = (r', S (length p))) as Hrep.
  { intros r' ->. destruct Hbad as (a & p & E & Hd). by exists a, p, rune_error. }
  destruct (decide (r < 0 ∨ 1114111 < r ∨ 55296 ≤ r ≤ 57343)) as [Hr|Hr].
  { apply Hrep. unfold encode_rune at 1.
    destruct (Z.leb_spec 0 r), (Z.ltb_spec r 128), (Z.ltb_spec r 2048), (Z.ltb_spec r 0),
      (Z.ltb_spec 1114111 r), (Z.leb_spec 55296 r), (Z.leb_spec r 57343); cbn; (done || lia). }
  destruct (decide (r < 128)).
  { rewrite encode_rune_ascii by lia. exists (byte r), [], r. split; [done|].
    split; [apply encode_rune_ascii; lia|]. intros rest. unfold decode_rune.
    rewrite code_byte by lia. by rewrite (proj2 (Z.ltb_lt r 128)) by lia. }
  destruct (decide (r < 2048)).
  { rewrite encode_two by lia. eexists _, _, r. split; [done|]. split; [apply encode_two; lia|].
    intros rest. cbn [app length]. rewrite decode_two.
    - f_equal. unfold rune2. rewrite !code_byte by (Z.div_mod_to_equations; lia).
      Z.div_mod_to_equations; lia.
    - split; rewrite code_byte; Z.div_mod_to_equations; lia. }
  destruct (decide (r < 65536)).
  { rewrite encode_three by lia. eexists _, _, r. split; [done|]. split; [apply encode_three; lia|].
    intros rest. cbn [app length]. rewrite decode_three.
    - f_equal. unfold rune3. rewrite !code_byte by (Z.div_mod_to_equations; lia).
      Z.div_mod_to_equations; lia.
    - unfold three_ok. rewrite !code_byte by (Z.div_mod_to_equations; lia).
      Z.div_mod_to_equations; lia. }
  rewrite encode_four by lia. eexists _, _, r. split; [done|]. split; [apply encode_four; lia|].
  intros rest. cbn [app length]. rewrite decode_four.
  - f_equal. unfold rune4. rewrite !code_byte by (Z.div_mod_to_equations; lia).
    Z.div_mod_to_equations; lia.
  - unfold four_ok. rewrite !code_byte by (Z.div_mod_to_equations; lia).
    Z.div_mod_to_equations; lia.
Qed.

Lemma runes_of_skip p l : runes_of (p ++ l) (length p) = runes_of l 0.
Proof. induction p as [|c p IH]; [done|]. apply IH. Qed.

(** Whatever was encoded character by character is valid. *)
Lemma encoded_utf8 rs : utf8 (encode_runes rs) = true.
Proof.
  apply seqb_eq. unfold clean_string, encode_runes, runes. f_equal. rewrite bytes_of_bytes.
  induction rs as [|r rs IH]; [done|].
  destruct (encode_rune_decodes r) as (a & p & r' & E & E' & Hd).
  change (mjoin (encode_rune <$> r :: rs))
    with (encode_rune r ++ mjoin (encode_rune <$> rs))%list. rewrite E. cbn [app runes_of].
  rewrite Hd. cbn [Nat.sub]. rewrite Nat.sub_0_r, runes_of_skip.
  change (mjoin (encode_rune <$> r' :: ?k)) with (encode_rune r' ++ mjoin (encode_rune <$> k))%list.
  by rewrite E', IH.
Qed.

Lemma clean_utf8 s : utf8 (clean_string s) = true.
Proof. apply encoded_utf8. Qed.

Lemma escape_ascii u e : escape u = Some e → code e < 128.
Proof. unfold escape. repeat case_match; intros [= <-]; done. Qed.

(** What a string literal stands for is valid, whatever its bytes. *)
Lemma unquote_encoded l : ∀ k, ∃ rs, unquote l k = mjoin (encode_rune <$> rs).
Proof.
  induction l as [|c l IH]; intros k; [by exists []|].
  assert (∀ r k, ∃ rs, (encode_rune r ++ unquote l k)%list = mjoin (encode_rune <$> rs)) as Hcons.
  { intros r k'. destruct (IH k') as [rs ->]. by exists (r :: rs). }
  assert (∀ e k, code e < 128 → ∃ rs, (e :: unquote l k) = mjoin (encode_rune <$> rs)) as Hascii.
  { intros e k' He. destruct (Hcons (code e) k') as [rs E]. exists rs. rewrite <- E.
    pose proof (code_nonneg e). rewrite encode_rune_ascii by lia. by rewrite byte_code. }
  destruct k as [|k]; [|apply IH]. cbn [unquote].
  repeat case_match; try apply Hcons; try by exists [].
  - apply Hascii. by eapply escape_ascii.
  - apply Hascii. by apply Z.ltb_lt.
Qed.

Lemma lex_string_utf8 l s rest : lex_string l = Some (s, rest) → utf8 s = true.
Proof.
  unfold lex_string. destruct (raw_string l 0) as [[raw r]|]; [|done]. intros [= <- _].
  destruct (unquote_encoded raw 0) as [rs ->]. apply encoded_utf8.
Qed.

Fixpoint text_ok (v : value) : bool :=
  match v with
  | VString s => utf8 s
  | VArray items => forallb text_ok items
  | VObject members => forallb (λ '(k, v), utf8 k && text_ok v) members
  | _ => true
  end.

Lemma clean_text v : text_ok v = true → clean v = v.
Proof.
  induction v as [|b|n|s|items IH|ms IH] using value_induction; cbn; intros Hv; try done.
  - f_equal. by apply seqb_eq.
  - f_equal. induction IH as [|v items Hv' _ IHi]; [done|]. cbn in *.
    apply andb_true_iff in Hv as [H1 H2]. by rewrite Hv', IHi.
  - f_equal. induction IH as [|[k v] ms Hv' _ IHm]; [done|]. cbn in *.
    apply andb_true_iff in Hv as [H1 H2]. apply andb_true_iff in H1 as [H0 H1].
    apply seqb_eq in H0. by rewrite Hv', IHm, H0.
Qed.

Lemma lex_word_value word v l w r : lex_word word v l = Some (w, r) → w = v.
Proof. unfold lex_word. case_match; [by intros [= <- _]|done]. Qed.

Lemma lex_scalar_text l v r : lex_scalar l = Some (v, r) → text_ok v = true.
Proof.
  destruct l as [|c l]; [done|]. unfold lex_scalar. repeat case_match; try done; intros H'.
  - destruct (lex_string l) as [[s r']|] eqn:E; [|done]. injection H' as <- _. by eapply lex_string_utf8.
  - by apply lex_word_value in H' as ->.
  - by apply lex_word_value in H' as ->.
  - by apply lex_word_value in H' as ->.
  - destruct (lex_number _) as [[d r']|]; [|done]. by injection H' as <- _.
Qed.

(** The reader hands out valid text only. *)
Lemma parse_text f :
  (∀ lv l v r, parse_value f lv l = Some (v, r) → text_ok v = true) ∧
  (∀ lv l vs r, parse_items f lv l = Some (vs, r) → forallb text_ok vs = true) ∧
  (∀ lv l ms r, parse_members f lv l = Some (ms, r) →
    forallb (λ '(k, v), utf8 k && text_ok v) ms = true).
Proof.
  induction f as [|f (IHv & IHi & IHm)]; [by split_and!|]. split_and!.
  - intros lv l v r. cbn [parse_value]. repeat case_match; try done; intros H';
      try by injection H' as <- _.
    + destruct (parse_items f _ _) as [[items r']|] eqn:E; [|done]. injection H' as <- _.
      by eapply IHi.
    + destruct (parse_members f _ _) as [[ms r']|] eqn:E; [|done]. injection H' as <- _.
      by eapply IHm.
    + by eapply lex_scalar_text.
  - intros lv l vs r. cbn [parse_items].
    destruct (parse_value f lv l) as [[v r0]|] eqn:E; [|done]. cbn [mbind option_bind].
    apply IHv in E. repeat case_match; try done; intros H'.
    + injection H' as <- _. cbn. by rewrite E.
    + destruct (parse_items f _ _) as [[items r']|] eqn:E'; [|done]. injection H' as <- _.
      cbn. apply IHi in E'. by rewrite E.
  - intros lv l ms r. cbn [parse_members]. repeat case_match; try done.
    destruct (lex_string _) as [[k r0]|] eqn:Ek; [|done]. cbn [mbind option_bind].
    apply lex_string_utf8 in Ek. repeat case_match; try done.
    destruct (parse_value f lv _) as [[v r1]|] eqn:E; [|done]. cbn [mbind option_bind].
    apply IHv in E. repeat case_match; try done; intros H'.
    + injection H' as <- _. cbn. by rewrite Ek, E.
    + destruct (parse_members f _ _) as [[ms' r']|] eqn:E'; [|done]. injection H' as <- _.
      cbn. apply IHm in E'. by rewrite Ek, E.
Qed.

Lemma parse_document_text body v : parse_document body = Some v → text_ok v = true.
Proof.
  unfold parse_document. destruct (parse_value _ _ _) as [[w r]|] eqn:E; [|done].
  cbn [mbind option_bind]. case_match; [|done]. intros [= <-]. by eapply parse_text.
Qed.

(** ** The round trip

    The text of a value is one document, and reading it gives the value, with
    U+FFFD for the bytes that are not valid UTF-8. *)
Theorem parse_print v :
  writable v = true → depth v ≤ max_nesting_depth →
  parse_document (of_bytes (print v)) = Some (clean v).
Proof.
  intros Hw Hd. unfold parse_document. rewrite bytes_of_bytes, <- length_bytes, bytes_of_bytes.
  rewrite <- (app_nil_r (print v)) at 2.
  rewrite (print_reads v) by (try done; lia). done.
Qed.

Lemma parse_print_text v :
  writable v = true → text_ok v = true → depth v ≤ max_nesting_depth →
  parse_document (of_bytes (print v)) = Some v.
Proof. intros Hw Ht Hd. by rewrite parse_print, clean_text. Qed.

(** ** Enough fuel *)

(** What the reader leaves is shorter than what it was given. *)
Lemma parse_shorter f :
  (∀ lv l v r, parse_value f lv l = Some (v, r) → (length r < length l)%nat) ∧
  (∀ lv l vs r, parse_items f lv l = Some (vs, r) → (length r < length l)%nat) ∧
  (∀ lv l ms r, parse_members f lv l = Some (ms, r) → (length r < length l)%nat).
Proof.
  induction f as [|f (IHv & IHi & IHm)]; [by split_and!|]. split_and!.
  - intros lv l v r. cbn [parse_value]. pose proof (skip_space_le l) as Hl.
    destruct (skip_space l) as [|c rest]; [done|]. cbn [length] in Hl. pose proof (skip_space_le rest) as Hr.
    destruct (Ascii.eqb c "["); [|destruct (Ascii.eqb c "{")].
    + destruct (lv <=? 0); [done|]. destruct (skip_space rest) as [|e rest']; [done|]. cbn [length] in Hr.
      destruct (Ascii.eqb e "]"); [intros [= _ <-]; lia|].
      destruct (parse_items f _ _) as [[vs r']|] eqn:E; [|done]. intros [= _ <-]. apply IHi in E. lia.
    + destruct (lv <=? 0); [done|]. destruct (skip_space rest) as [|e rest']; [done|]. cbn [length] in Hr.
      destruct (Ascii.eqb e "}"); [intros [= _ <-]; lia|].
      destruct (parse_members f _ _) as [[ms r']|] eqn:E; [|done]. intros [= _ <-]. apply IHm in E. lia.
    + intros E. apply lex_scalar_lt in E. cbn in E. lia.
  - intros lv l vs r. cbn [parse_items].
    destruct (parse_value f lv l) as [[v r0]|] eqn:E; [|done]. cbn [mbind option_bind].
    apply IHv in E. pose proof (skip_space_le r0) as Hr.
    destruct (skip_space r0) as [|c r']; [done|]. cbn [length] in Hr.
    destruct (Ascii.eqb c "]"); [intros [= _ <-]; lia|]. destruct (Ascii.eqb c ","); [|done].
    destruct (parse_items f lv r') as [[vs' r2]|] eqn:E2; [|done]. intros [= _ <-]. apply IHi in E2. lia.
  - intros lv l ms r. cbn [parse_members]. pose proof (skip_space_le l) as Hl.
    destruct (skip_space l) as [|q l0]; [done|]. cbn [length] in Hl. destruct (Ascii.eqb q quote); [|done].
    destruct (lex_string l0) as [[k r0]|] eqn:Ek; [|done]. cbn [mbind option_bind].
    apply lex_string_lt in Ek. pose proof (skip_space_le r0) as Hr0.
    destruct (skip_space r0) as [|c r1]; [done|]. cbn [length] in Hr0. destruct (Ascii.eqb c ":"); [|done].
    destruct (parse_value f lv r1) as [[v r2]|] eqn:E; [|done]. cbn [mbind option_bind].
    apply IHv in E. pose proof (skip_space_le r2) as Hr2.
    destruct (skip_space r2) as [|c' r3]; [done|]. cbn [length] in Hr2.
    destruct (Ascii.eqb c' "}"); [intros [= _ <-]; lia|]. destruct (Ascii.eqb c' ","); [|done].
    destruct (parse_members f lv r3) as [[ms' r4]|] eqn:E2; [|done]. intros [= _ <-]. apply IHm in E2. lia.
Qed.

(** With twice the length of the input, more fuel changes nothing. *)
Lemma parse_stable f :
  (∀ g lv l, (2 * length l < f)%nat → (f ≤ g)%nat → parse_value g lv l = parse_value f lv l) ∧
  (∀ g lv l, (2 * length l + 1 < f)%nat → (f ≤ g)%nat → parse_items g lv l = parse_items f lv l) ∧
  (∀ g lv l, (2 * length l + 1 < f)%nat → (f ≤ g)%nat → parse_members g lv l = parse_members f lv l).
Proof.
  induction f as [|f (IHv & IHi & IHm)]; [split_and!; lia|].
  split_and!; intros [|g] lv l Hf Hg; try lia.
  - cbn [parse_value]. pose proof (skip_space_le l) as Hl.
    destruct (skip_space l) as [|c rest]; [done|]. cbn [length] in Hl.
    destruct (Ascii.eqb c "["); [|destruct (Ascii.eqb c "{"); [|done]].
    + destruct (lv <=? 0); [done|]. destruct (skip_space rest) as [|e rest']; [done|].
      destruct (Ascii.eqb e "]"); [done|]. by rewrite (IHi g) by lia.
    + destruct (lv <=? 0); [done|]. destruct (skip_space rest) as [|e rest']; [done|].
      destruct (Ascii.eqb e "}"); [done|]. by rewrite (IHm g) by lia.
  - cbn [parse_items]. rewrite (IHv g) by lia.
    destruct (parse_value f lv l) as [[v r0]|] eqn:E; [|done]. cbn [mbind option_bind].
    apply parse_shorter in E. pose proof (skip_space_le r0) as Hr.
    destruct (skip_space r0) as [|c r']; [done|]. cbn [length] in Hr.
    destruct (Ascii.eqb c "]"); [done|]. destruct (Ascii.eqb c ","); [|done].
    by rewrite (IHi g) by lia.
  - cbn [parse_members]. pose proof (skip_space_le l) as Hl.
    destruct (skip_space l) as [|q l0]; [done|]. cbn [length] in Hl. destruct (Ascii.eqb q quote); [|done].
    destruct (lex_string l0) as [[k r0]|] eqn:Ek; [|done]. cbn [mbind option_bind].
    apply lex_string_lt in Ek. pose proof (skip_space_le r0) as Hr0.
    destruct (skip_space r0) as [|c r1]; [done|]. cbn [length] in Hr0. destruct (Ascii.eqb c ":"); [|done].
    rewrite (IHv g) by lia.
    destruct (parse_value f lv r1) as [[v r2]|] eqn:E; [|done]. cbn [mbind option_bind].
    apply parse_shorter in E. pose proof (skip_space_le r2) as Hr2.
    destruct (skip_space r2) as [|c' r3]; [done|]. cbn [length] in Hr2.
    destruct (Ascii.eqb c' "}"); [done|]. destruct (Ascii.eqb c' ","); [|done].
    by rewrite (IHm g) by lia.
Qed.

(** So the fuel of [Decode] and of [parse_document] is never what stops them. *)
Lemma document_fuel body n :
  (2 * S (String.length body) ≤ n)%nat →
  parse_value n max_nesting_depth (bytes body) =
    parse_value (2 * S (String.length body)) max_nesting_depth (bytes body).
Proof. intros Hn. apply parse_stable; [rewrite length_bytes; lia|done]. Qed.

(** ** Documents inside documents: [appendCompact]

    What [Marshal] makes of a [json.RawMessage]: white space outside strings goes,
    and what the writer of strings escapes is escaped. [inside] is whether the text
    is in a string, and whether the next byte of it is escaped. *)
Inductive lexical := Outside | Inside | Escaped.

Definition lexical_step (s : lexical) (c : ascii) : lexical :=
  match s with
  | Outside => if Ascii.eqb c quote then Inside else Outside
  | Inside => if Ascii.eqb c quote then Outside
              else if Ascii.eqb c backslash then Escaped else Inside
  | Escaped => Inside
  end.

(** U+2028 or U+2029 at the head of the input, by its bytes. *)
Definition line_separator (l : list ascii) : option Z :=
  match l with
  | a :: b :: c :: _ =>
      if (code a =? 226) && (code b =? 128) && (Z.land (code c) 254 =? 168)
      then Some (8192 + 32 + (code c - 160)) else None
  | _ => None
  end.

Fixpoint compact (l : list ascii) (s : lexical) (skip : nat) : list ascii :=
  match l with
  | [] => []
  | c :: l' =>
      match skip with
      | S skip => compact l' s skip
      | O =>
          if Ascii.eqb c "<" || Ascii.eqb c ">" || Ascii.eqb c "&"
          then unicode_escape (code c) ++ compact l' (lexical_step s c) 0
          else
            match line_separator l with
            | Some r => unicode_escape r ++ compact l' s 2
            | None =>
                match s with
                | Outside => if is_space c then compact l' s 0
                             else c :: compact l' (lexical_step s c) 0
                | _ => c :: compact l' (lexical_step s c) 0
                end
            end
      end
  end%list.

(** A document as an element of another; one that is not valid is an error. *)
Definition raw_message (body : string) : result (list ascii) :=
  match parse_document body with
  | Some _ => Ok (compact (bytes body) Outside 0)
  | None => Err err_syntax
  end.

(** A byte that stays as it is. *)
Definition kept (s : lexical) (c : ascii) : bool :=
  negb (Ascii.eqb c "<") && negb (Ascii.eqb c ">") && negb (Ascii.eqb c "&") &&
  negb (code c =? 226) && match s with Outside => negb (is_space c) | _ => true end.

(** A text that stays as it is, and the state it leads to. *)
Definition passes (s : lexical) (l : list ascii) (s' : lexical) : Prop :=
  ∀ rest, compact (l ++ rest) s 0 = (l ++ compact rest s' 0)%list.

Lemma passes_nil s : passes s [] s.
Proof. done. Qed.

Lemma passes_app s l s1 k s2 : passes s l s1 → passes s1 k s2 → passes s (l ++ k) s2.
Proof. intros Hl Hk rest. by rewrite <- !(assoc_L (++)), Hl, Hk. Qed.

Lemma separator_head c l : code c ≠ 226 → line_separator (c :: l) = None.
Proof. intros Hc. destruct l as [|b [|d l]]; cbn; try done. by rewrite (proj2 (Z.eqb_neq _ _) Hc). Qed.

Lemma passes_byte s c : kept s c = true → passes s [c] (lexical_step s c).
Proof.
  unfold kept. rewrite !andb_true_iff, !negb_true_iff.
  intros ((((H1 & H2) & H3) & H4%Z.eqb_neq) & Hs) rest.
  cbn [app compact]. rewrite H1, H2, H3, separator_head by done. cbn [orb].
  destruct s; try done. apply negb_true_iff in Hs. by rewrite Hs.
Qed.

Lemma passes_cons s c l s' :
  kept s c = true → passes (lexical_step s c) l s' → passes s (c :: l) s'.
Proof. intros Hc Hl. apply (passes_app s [c] (lexical_step s c) l); [by apply passes_byte|done]. Qed.

(** Bytes that mean nothing special in a string. *)
Definition inert (c : ascii) : bool :=
  kept Inside c && negb (Ascii.eqb c quote) && negb (Ascii.eqb c backslash).

Lemma passes_inert l : Forall (λ c, inert c = true) l → passes Inside l Inside.
Proof.
  induction 1 as [|c l Hc _ IH]; [apply passes_nil|]. unfold inert in Hc.
  rewrite !andb_true_iff, !negb_true_iff in Hc. destruct Hc as [[Hk Hq] Hb].
  apply passes_cons; [done|]. unfold lexical_step. by rewrite Hq, Hb.
Qed.

Lemma inert_range c : code c < 226 → 128 ≤ code c → inert c = true.
Proof.
  intros H1 H2. unfold inert, kept. rewrite !andb_true_iff, !negb_true_iff, Z.eqb_neq, !Ascii.eqb_neq.
  split_and!; try done; try lia; intros ->; vm_compute in H2; by apply H2.
Qed.

Lemma inert_wide c : 226 < code c → inert c = true.
Proof.
  intros H1. unfold inert, kept. rewrite !andb_true_iff, !negb_true_iff, Z.eqb_neq, !Ascii.eqb_neq.
  split_and!; try done; try lia; intros ->; by vm_compute in H1.
Qed.

Lemma inert_hex d : 0 ≤ d < 16 → inert (lower_hex d) = true.
Proof.
  intros. assert (d ∈ seqZ 0 16) as Hd by (apply elem_of_seqZ; lia).
  revert Hd. clear. intros Hd. cbn in Hd.
  repeat (apply elem_of_cons in Hd as [->|Hd]; [reflexivity|]).
  by apply not_elem_of_nil in Hd.
Qed.

Lemma passes_unicode r : passes Inside (unicode_escape r) Inside.
Proof.
  unfold unicode_escape. apply passes_cons; [done|]. apply passes_cons; [done|].
  apply (passes_inert [_; _; _; _]). repeat constructor; apply inert_hex, Z.mod_pos_bound; lia.
Qed.

Lemma escape_kept u e : escape u = Some e → kept Escaped u = true.
Proof.
  unfold escape. repeat (case_match; [intros _;
    match goal with H : Ascii.eqb _ _ = true |- _ => apply Ascii.eqb_eq in H as -> end; done|]). done.
Qed.

Lemma passes_write_byte c : code c < 128 → passes Inside (write_byte c) Inside.
Proof.
  intros Hc. destruct (write_byte_cases c Hc) as [(-> & Es & _)|[(u & -> & _ & Hu)| ->]].
  - apply (passes_inert [c]). repeat constructor. unfold html_safe in Es. unfold inert, kept.
    rewrite !andb_true_iff, !negb_true_iff in *. destruct Es as (((((_ & ?) & ?) & ?) & ?) & ?).
    split_and!; try done. apply Z.eqb_neq. lia.
  - apply passes_cons; [done|]. apply passes_cons; [by eapply escape_kept|]. apply passes_nil.
  - apply passes_unicode.
Qed.

Lemma separator_byte z : 128 ≤ z ≤ 191 → Z.land z 254 = 168 → z = 168 ∨ z = 169.
Proof.
  intros Hz. assert (forallb (λ z, negb (Z.land z 254 =? 168) || (z =? 168) || (z =? 169)) (seqZ 128 64)
    = true) as Hall by by vm_compute.
  rewrite forallb_forall in Hall. specialize (Hall z). rewrite <- list_elem_of_In, elem_of_seqZ in Hall.
  specialize (Hall ltac:(lia)). rewrite !orb_true_iff, negb_true_iff, Z.eqb_neq, !Z.eqb_eq in Hall. tauto.
Qed.

Lemma compact_inside c l :
  128 ≤ code c → line_separator (c :: l) = None →
  compact (c :: l) Inside 0 = c :: compact l Inside 0.
Proof.
  intros Hc Hl. assert (∀ e, code e < 128 → Ascii.eqb c e = false) as Hne.
  { intros e He. apply Ascii.eqb_neq. intros ->. lia. }
  cbn [compact]. rewrite Hl, !Hne by done. cbn [orb lexical_step]. by rewrite !Hne by done.
Qed.

(** A character of several bytes that is not a line separator. *)
Lemma passes_wide c l r n :
  128 ≤ code c → decode_rune c l = (r, n) → n ≠ 1%nat → r ≠ 8232 → r ≠ 8233 →
  passes Inside (c :: take (n - 1) l) Inside.
Proof.
  intros Hc Hd%decode_rune_decoded Hn H1 H2; [|done].
  destruct Hd as [l|b l H|b d l H|b d e l H]; [done|..]; cbn [take Nat.sub].
  - destruct H. apply (passes_inert [_; _]). repeat constructor; apply inert_range; lia.
  - destruct H as (Ha & Hb & Hd & _).
    assert (passes Inside [b; d] Inside) as Hp.
    { apply (passes_inert [_; _]). repeat constructor; apply inert_range; lia. }
    destruct (Z.lt_trichotomy (code c) 226) as [Hlt|[Heq|Hgt]].
    + apply (passes_inert [_; _; _]). repeat constructor; apply inert_range; lia.
    + intros rest. change ((c :: b :: d :: take 0 l) ++ rest)%list with (c :: b :: d :: rest)%list.
      rewrite compact_inside; [exact (f_equal (cons c) (Hp rest))|lia|].
      cbn. destruct ((code c =? 226) && (code b =? 128) && (Z.land (code d) 254 =? 168)) eqn:E; [|done].
      rewrite !andb_true_iff, !Z.eqb_eq in E. destruct E as [[_ Eb] Ed].
      apply separator_byte in Ed; [|lia]. exfalso. unfold rune3 in *. lia.
    + apply (passes_app _ [c] Inside [b; d]); [|done]. apply (passes_inert [c]).
      repeat constructor. by apply inert_wide.
  - destruct H as (Ha & Hb & Hd & He & _).
    apply (passes_app _ [c] Inside [b; d; e]); [|].
    + apply (passes_inert [c]). repeat constructor. apply inert_wide. lia.
    + apply (passes_inert [_; _; _]). repeat constructor; apply inert_range; lia.
Qed.

Lemma passes_write_bytes l : ∀ k, passes Inside (write_bytes l k) Inside.
Proof.
  induction l as [|c l IH]; intros k; [apply passes_nil|]. destruct k as [|k]; [|apply IH].
  cbn [write_bytes]. destruct (Z.ltb_spec (code c) rune_self) as [Hc|Hc].
  { eapply passes_app; [by apply passes_write_byte|apply IH]. }
  destruct (decode_rune c l) as [r n] eqn:Ed. apply (passes_app _ _ Inside); [|apply IH].
  destruct (Nat.eqb_spec n 1) as [->|Hn]; [apply passes_unicode|].
  destruct ((r =? 8232) || (r =? 8233)) eqn:Er; [apply passes_unicode|].
  rewrite orb_false_iff, !Z.eqb_neq in Er. destruct Er. by eapply passes_wide.
Qed.

Lemma passes_string s : passes Outside (write_string s) Outside.
Proof.
  unfold write_string. apply passes_cons; [done|]. cbn [lexical_step].
  change (Ascii.eqb quote quote) with true. cbv iota.
  eapply passes_app; [apply passes_write_bytes|]. by apply (passes_byte Inside quote).
Qed.

(** The characters of numbers and of the other literals. *)
Definition plain (c : ascii) : bool := kept Outside c && negb (Ascii.eqb c quote).

Lemma passes_plain l : Forall (λ c, plain c = true) l → passes Outside l Outside.
Proof.
  induction 1 as [|c l Hc _ IH]; [apply passes_nil|]. unfold plain in Hc.
  rewrite andb_true_iff, negb_true_iff in Hc. destruct Hc as [Hk Hq].
  apply passes_cons; [done|]. unfold lexical_step. by rewrite Hq.
Qed.

Lemma plain_dec c : is_dec c = true → plain c = true.
Proof. destruct c as [[] [] [] [] [] [] [] []]; vm_compute; done. Qed.

Abbreviation all_plain := (Forall (λ c, plain c = true)).

Lemma span_plain l d r : span_digits l = (d, r) → all_plain d.
Proof.
  revert d r. induction l as [|c l IH]; cbn; intros d r; [by intros [= <- _]|].
  destruct (is_dec c) eqn:E; [|by intros [= <- _]]. destruct (span_digits l) as [d' r'].
  intros [= <- _]. constructor; [by apply plain_dec|by eapply IH].
Qed.

Lemma digits1_plain l d r : digits1 l = Some (d, r) → all_plain d.
Proof.
  unfold digits1. destruct (span_digits l) as [[|c d'] r'] eqn:E; [done|]. intros [= <- _].
  by eapply span_plain.
Qed.

Lemma number_plain s : number_literal s = true → all_plain (bytes s).
Proof.
  unfold number_literal. destruct (lex_number (bytes s)) as [[d [|c r]]|] eqn:E; try done. intros _.
  assert (bytes s = d) as ->.
  { apply (lex_number_app [] eq_refl) in E as [-> _]. by rewrite app_nil_r. }
  revert E. unfold lex_number. destruct (bytes s) as [|c l]; [done|].
  set (sl := if Ascii.eqb c "-" then _ else _).
  assert (all_plain sl.1) as Hs.
  { unfold sl. destruct (Ascii.eqb_spec c "-") as [->|]; repeat constructor. }
  destruct sl as [sign k]. cbn [fst] in Hs.
  destruct (lex_integer k) as [[i k1]|] eqn:E1; [|done]. cbn [mbind option_bind].
  destruct (lex_fraction k1) as [[f k2]|] eqn:E2; [|done]. cbn [mbind option_bind].
  destruct (lex_exponent k2) as [[e k3]|] eqn:E3; [|done]. cbn [mbind option_bind]. intros [= <- _].
  repeat apply Forall_app_2; [done|..].
  - destruct k as [|c0 k]; [done|]. cbn in E1. destruct (Ascii.eqb_spec c0 "0") as [->|].
    + injection E1 as <- _. repeat constructor.
    + by eapply digits1_plain.
  - destruct k1 as [|c0 k1]; cbn in E2; [by injection E2 as <- _|].
    destruct (Ascii.eqb_spec c0 ".") as [->|]; [|by injection E2 as <- _].
    destruct (digits1 k1) as [[d' r']|] eqn:Ed; [|done]. injection E2 as <- _.
    constructor; [done|by eapply digits1_plain].
  - destruct k2 as [|c0 k2]; cbn in E3; [by injection E3 as <- _|].
    destruct (Ascii.eqb c0 "e" || Ascii.eqb c0 "E") eqn:Ec; [|by injection E3 as <- _].
    assert (plain c0 = true) as Hc0.
    { apply orb_true_iff in Ec as [ ->%Ascii.eqb_eq| ->%Ascii.eqb_eq]; done. }
    destruct k2 as [|s0 k2]; [done|]. destruct (Ascii.eqb s0 "+" || Ascii.eqb s0 "-") eqn:Es.
    + assert (plain s0 = true) as Hs0.
      { apply orb_true_iff in Es as [ ->%Ascii.eqb_eq| ->%Ascii.eqb_eq]; done. }
      destruct (digits1 k2) as [[d' r']|] eqn:Ed; [|done]. injection E3 as <- _.
      repeat (constructor; [done|]). by eapply digits1_plain.
    + destruct (digits1 (s0 :: k2)) as [[d' r']|] eqn:Ed; [|done]. injection E3 as <- _.
      constructor; [done|by eapply digits1_plain].
Qed.

Lemma passes_commas parts :
  Forall (λ p, passes Outside p Outside) parts → passes Outside (commas parts) Outside.
Proof.
  induction 1 as [|p parts Hp Hps IH]; [apply passes_nil|]. destruct parts as [|q parts]; [done|].
  rewrite commas_cons. eapply passes_app; [done|]. by apply passes_cons.
Qed.

(** What the writer wrote is compact already. *)
Lemma passes_print v : writable v = true → passes Outside (print v) Outside.
Proof.
  induction v as [|b|n|s|items IH|ms IH] using value_induction; intros Hw; cbn [print].
  - apply passes_plain. repeat constructor.
  - destruct b; apply passes_plain; repeat constructor.
  - by apply passes_plain, number_plain.
  - apply passes_string.
  - apply passes_cons; [done|]. eapply passes_app; [|by apply (passes_byte Outside "]")].
    apply passes_commas. cbn in Hw. induction IH as [|v items Hv _ IHi]; [constructor|].
    cbn in Hw. apply andb_true_iff in Hw as [H1 H2]. constructor; [by apply Hv|by apply IHi].
  - apply passes_cons; [done|]. eapply passes_app; [|by apply (passes_byte Outside "}")].
    apply passes_commas. cbn in Hw. induction IH as [|[k v] ms Hv _ IHm]; [constructor|].
    cbn in Hw. apply andb_true_iff in Hw as [H1 H2]. constructor; [|by apply IHm].
    eapply passes_app; [apply passes_string|]. apply passes_cons; [done|by apply Hv].
Qed.

Lemma compact_print v : writable v = true → compact (print v) Outside 0 = print v.
Proof.
  intros Hw. pose proof (passes_print v Hw []) as E. rewrite app_nil_r in E. rewrite E. apply app_nil_r.
Qed.

Lemma raw_message_print v :
  writable v = true → depth v ≤ max_nesting_depth →
  raw_message (of_bytes (print v)) = Ok (print v).
Proof.
  intros Hw Hd. unfold raw_message. rewrite parse_print by done.
  by rewrite bytes_of_bytes, compact_print.
Qed.
