(* ===== verification/Wire.v ===== *)
(** * encoding/json: Go values

    What [json.Marshal] and [json.Unmarshal] do with the types of the messages:
    structs with tagged fields, pointers, slices, arrays and maps with string
    keys. A Go value is a [gval] of a [ty]; reading a document writes over the
    value that is there, as the code's repeated member names can show: a slice
    keeps the cells of its array past its length, and an element read into one of
    them starts from what it holds.

    A [gotype] relates a type of this development to its Go type; its two laws are
    the reason for the round trip [unmarshal_marshal] and for what [unmarshal_ok]
    says of everything that was read. *)
From S2P Require Import Prelude GoString Json JsonWrite.

(** ** Types and values *)

(** A field of a struct: its name in the document, [omitempty], its type. *)
Inductive ty : Type :=
| TBool | TInt | TUint | TString
| TPtr (t : ty)
| TSlice (t : ty)
| TArray (n : nat) (t : ty)
| TMap (t : ty)
| TStruct (fields : list (string * bool * ty)).

(** [GNil] is the nil pointer, slice or map. A slice has a length and the cells of
    its array that were ever written. A map lists its keys once each. *)
Inductive gval : Type :=
| GBool (b : bool)
| GInt (z : Z)
| GString (s : string)
| GNil
| GPtr (g : gval)
| GSlice (n : nat) (cells : list gval)
| GArray (items : list gval)
| GMap (members : list (string * gval))
| GStruct (fields : list gval).

Fixpoint zero (t : ty) : gval :=
  match t with
  | TBool => GBool false
  | TInt | TUint => GInt 0
  | TString => GString ""
  | TPtr _ | TSlice _ | TMap _ => GNil
  | TArray n t => GArray (repeat (zero t) n)
  | TStruct fields => GStruct (map (λ f, zero f.2) fields)
  end.

(** [strconv.ParseUint] in base 10. *)
Definition ParseUint (s : string) : option Z :=
  match bytes s with
  | [] => None
  | l => z ← digits_value l 0; if z <? 2 ^ 64 then Some z else None
  end.

(** ** Marshal *)

(** [isEmptyValue] *)
Definition empty_value (g : gval) : bool :=
  match g with
  | GBool b => negb b
  | GInt z => z =? 0
  | GString s => is_empty s
  | GNil => true
  | GPtr _ => false
  | GSlice n _ => (n =? 0)%nat
  | GArray items => is_nil items
  | GMap members => is_nil members
  | GStruct _ => false
  end.

Section members.
Context (enc : gval → ty → value).

Fixpoint encode_fields (gs : list gval) (fields : list (string * bool * ty))
    : list (string * value) :=
  match gs, fields with
  | g :: gs, (name, omit, t) :: fields =>
      if omit && empty_value g then encode_fields gs fields
      else (name, enc g t) :: encode_fields gs fields
  | _, _ => []
  end.
End members.

Fixpoint encode (g : gval) (t : ty) : value :=
  match g, t with
  | GBool b, _ => VBool b
  | GInt z, _ => VNumber (Itoa z)
  | GString s, _ => VString s
  | GPtr g, TPtr t => encode g t
  | GSlice n cells, TSlice t => VArray (take n (map (λ g, encode g t) cells))
  | GArray items, TArray _ t => VArray (map (λ g, encode g t) items)
  | GMap members, TMap t => VObject (by_key (map (λ '(k, g), (k, encode g t)) members))
  | GStruct gs, TStruct fields => VObject (encode_fields encode gs fields)
  | _, _ => VNull
  end.

Definition marshal (t : ty) (g : gval) : string := of_bytes (print (encode g t)).

(** ** Unmarshal *)

(** What pointers lead to, the value there, and the way back. *)
Fixpoint base (t : ty) : ty :=
  match t with TPtr t => base t | t => t end.
Fixpoint target (t : ty) (g : gval) : gval :=
  match t with
  | TPtr t => target t (match g with GPtr g => g | _ => zero t end)
  | _ => g
  end.
Fixpoint point (t : ty) (g : gval) : gval :=
  match t with TPtr t => GPtr (point t g) | _ => g end.

Definition cells_of (g : gval) : list gval :=
  match g with GSlice _ cells => cells | _ => [] end.
Definition items_of (g : gval) : list gval :=
  match g with GArray items => items | _ => [] end.
Definition members_of (g : gval) : list (string * gval) :=
  match g with GMap members => members | _ => [] end.
Definition fields_of (g : gval) : list gval :=
  match g with GStruct fields => fields | _ => [] end.

Fixpoint map_set (k : string) (g : gval) (members : list (string * gval))
    : list (string * gval) :=
  match members with
  | [] => [(k, g)]
  | (k', g') :: members =>
      if k =s? k' then (k, g) :: members else (k', g') :: map_set k g members
  end.

Fixpoint find_index {A} (p : A → bool) (l : list A) : option nat :=
  match l with
  | [] => None
  | a :: l => if p a then Some O else S <$> find_index p l
  end.

Section decode.
Context `{Unicode}.

(** A member goes to the field of its name, else to the first field whose name is
    the same but for case. *)
Definition field_index (fields : list (string * bool * ty)) (key : string) : option nat :=
  match find_index (λ f, f.1.1 =s? key) fields with
  | Some i => Some i
  | None => find_index (λ f, EqualFold f.1.1 key) fields
  end.

Section loops.
Context (dec : value → ty → gval → option gval).

(** The elements of an array, each over the cell it goes to. *)
Fixpoint decode_items (t : ty) (items : list value) (old : list gval) : option (list gval) :=
  match items with
  | [] => Some []
  | v :: items =>
      g ← dec v t (hd (zero t) old);
      gs ← decode_items t items (tl old);
      Some (g :: gs)
  end.

(** An array of [n] elements: more are dropped, the rest is zero. *)
Fixpoint decode_array (t : ty) (items : list value) (old : list gval) : option (list gval) :=
  match old, items with
  | g :: old, v :: items =>
      g ← dec v t g;
      gs ← decode_array t items old;
      Some (g :: gs)
  | _, _ => Some (map (λ _, zero t) old)
  end.

Fixpoint decode_map (t : ty) (members : list (string * value)) (m : list (string * gval))
    : option (list (string * gval)) :=
  match members with
  | [] => Some m
  | (k, v) :: members => g ← dec v t (zero t); decode_map t members (map_set k g m)
  end.

Fixpoint decode_struct (fields : list (string * bool * ty)) (members : list (string * value))
    (gs : list gval) : option (list gval) :=
  match members with
  | [] => Some gs
  | (k, v) :: members =>
      match field_index fields k with
      | Some i =>
          match fields !! i, gs !! i with
          | Some (_, _, t), Some g => g ← dec v t g; decode_struct fields members (<[i := g]> gs)
          | _, _ => None
          end
      | None => decode_struct fields members gs
      end
  end.
End loops.

(** [d.value]: [cur] is the value there. A type the document does not fit makes
    the whole call fail. *)
Fixpoint decode (v : value) (t : ty) (cur : gval) : option gval :=
  let here := target t cur in
  match v with
  | VNull => Some (match t with TPtr _ | TSlice _ | TMap _ => GNil | _ => cur end)
  | VBool b =>
      match base t with TBool => Some (point t (GBool b)) | _ => None end
  | VNumber n =>
      match base t with
      | TInt => point t ∘ GInt <$> ParseInt n
      | TUint => point t ∘ GInt <$> ParseUint n
      | _ => None
      end
  | VString s =>
      match base t with TString => Some (point t (GString s)) | _ => None end
  | VArray items =>
      match base t with
      | TSlice t' =>
          gs ← decode_items decode t' items (cells_of here);
          Some (point t (if is_nil items then GSlice 0 []
                         else GSlice (length items) (gs ++ drop (length items) (cells_of here))%list))
      | TArray _ t' => point t ∘ GArray <$> decode_array decode t' items (items_of here)
      | _ => None
      end
  | VObject members =>
      match base t with
      | TMap t' => point t ∘ GMap <$> decode_map decode t' members (members_of here)
      | TStruct fields => point t ∘ GStruct <$> decode_struct decode fields members (fields_of here)
      | _ => None
      end
  end.

(** [json.Unmarshal] into a fresh variable: the input is checked first. *)
Definition unmarshal (t : ty) (body : string) : result gval :=
  match parse_document body with
  | None => Err err_syntax
  | Some v =>
      match decode v t (zero t) with
      | Some g => Ok g
      | None => errorf "json: cannot unmarshal into Go value"
      end
  end.
End decode.

(** ** Values of a type

    [strict] asks in addition for what [Marshal] does not tell apart: no cells past
    a slice's length, sorted maps, and nothing empty but not nil under [omitempty]. *)
Definition uint64 (z : Z) : Prop := 0 ≤ z < 2 ^ 64.
#[export] Instance int64_dec z : Decision (int64 z).
Proof. unfold int64. apply _. Defined.
#[export] Instance uint64_dec z : Decision (uint64 z).
Proof. unfold uint64. apply _. Defined.

Definition settled (omit : bool) (g : gval) : bool :=
  negb omit || match g with GSlice O _ | GMap [] => false | _ => true end.

Section fits.
Context (strict : bool).

Section fields.
Context (fits : gval → ty → bool).
Fixpoint fits_fields (gs : list gval) (fields : list (string * bool * ty)) : bool :=
  match gs, fields with
  | [], [] => true
  | g :: gs, (_, omit, t) :: fields =>
      fits g t && (negb strict || settled omit g) && fits_fields gs fields
  | _, _ => false
  end.
End fields.

Fixpoint fits (g : gval) (t : ty) : bool :=
  match g, t with
  | GBool _, TBool => true
  | GInt z, TInt => bool_decide (int64 z)
  | GInt z, TUint => bool_decide (uint64 z)
  | GString s, TString => utf8 s
  | GNil, (TPtr _ | TSlice _ | TMap _) => true
  | GPtr g, TPtr t => fits g t
  | GSlice n cells, TSlice t =>
      (if strict then (n =? length cells)%nat else (n <=? length cells)%nat) &&
      forallb (λ g, fits g t) cells
  | GArray items, TArray n t => (length items =? n)%nat && forallb (λ g, fits g t) items
  | GMap members, TMap t =>
      bool_decide (NoDup members.*1) &&
      (negb strict || bool_decide (sort_strings members.*1 = members.*1)) &&
      forallb (λ '(k, g), utf8 k && fits g t) members
  | GStruct gs, TStruct fields => fits_fields fits gs fields
  | _, _ => false
  end.
End fits.

(** A value [Unmarshal] can leave, and one that its document determines. *)
Abbreviation typed := (fits false).
Abbreviation tidy := (fits true).

Definition nilable (t : ty) : bool :=
  match t with TPtr _ | TSlice _ | TMap _ => true | _ => false end.

(** No pointer to what can be nil itself; field names differ. *)
Fixpoint ty_ok (t : ty) : bool :=
  match t with
  | TPtr t => negb (nilable t) && ty_ok t
  | TSlice t | TArray _ t | TMap t => ty_ok t
  | TStruct fields =>
      bool_decide (NoDup (map (λ f, f.1.1) fields)) &&
      forallb (λ f, utf8 f.1.1) fields && forallb (λ f, ty_ok f.2) fields
  | _ => true
  end.

(** How deep the documents of a type nest. *)
Fixpoint ty_depth (t : ty) : Z :=
  match t with
  | TPtr t => ty_depth t
  | TSlice t | TArray _ t | TMap t => 1 + ty_depth t
  | TStruct fields => 1 + foldr (λ f n, Z.max (ty_depth f.2) n) 0 fields
  | _ => 0
  end.

(** *** Induction *)

Lemma gval_induction (P : gval → Prop) :
  (∀ b, P (GBool b)) → (∀ z, P (GInt z)) → (∀ s, P (GString s)) → P GNil →
  (∀ g, P g → P (GPtr g)) → (∀ n cells, Forall P cells → P (GSlice n cells)) →
  (∀ items, Forall P items → P (GArray items)) →
  (∀ ms, Forall (λ kg, P kg.2) ms → P (GMap ms)) →
  (∀ gs, Forall P gs → P (GStruct gs)) →
  ∀ g, P g.
Proof.
  intros Hb Hi Hs Hn Hp Hsl Ha Hm Hst. fix IH 1.
  assert (∀ gs, Forall P gs) as IHs.
  { intros gs. induction gs as [|g gs IHg]; constructor; [apply IH|apply IHg]. }
  intros [b|z|s| |g|n cells|items|ms|gs].
  - apply Hb.
  - apply Hi.
  - apply Hs.
  - apply Hn.
  - apply Hp, IH.
  - apply Hsl. induction cells as [|g gs IHg]; constructor; [apply IH|apply IHg].
  - apply Ha. induction items as [|g gs IHg]; constructor; [apply IH|apply IHg].
  - apply Hm. induction ms as [|[k g] ms IHm]; constructor; [apply IH|apply IHm].
  - apply Hst. induction gs as [|g gs IHg]; constructor; [apply IH|apply IHg].
Qed.

Lemma ty_induction (P : ty → Prop) :
  P TBool → P TInt → P TUint → P TString → (∀ t, P t → P (TPtr t)) → (∀ t, P t → P (TSlice t)) →
  (∀ n t, P t → P (TArray n t)) → (∀ t, P t → P (TMap t)) →
  (∀ fields, Forall (λ f, P f.2) fields → P (TStruct fields)) →
  ∀ t, P t.
Proof.
  intros Hb Hi Hu Hs Hp Hsl Ha Hm Hst. fix IH 1. intros [| | | |t|t|n t|t|fields].
  - apply Hb.
  - apply Hi.
  - apply Hu.
  - apply Hs.
  - apply Hp, IH.
  - apply Hsl, IH.
  - apply Ha, IH.
  - apply Hm, IH.
  - apply Hst. induction fields as [|[f t] fields IHf]; constructor; [apply IH|apply IHf].
Qed.

(** *** The zero value *)

Lemma zero_fits strict t : ty_ok t = true → fits strict (zero t) t = true.
Proof.
  induction t as [| | | |t IH|t IH|n t IH|t IH|fields IH] using ty_induction; intros Hok; try done.
  - cbn in *. rewrite repeat_length, Nat.eqb_refl. cbn.
    induction n as [|n IHn]; [done|]. cbn. by rewrite IH.
  - cbn in *. apply andb_true_iff in Hok as [_ Hok].
    induction IH as [|[[name omit] t] fields Ht _ IHf]; [done|]. cbn in *.
    apply andb_true_iff in Hok as [H1 H2]. rewrite (Ht H1), IHf by done.
    destruct t, omit; by destruct strict.
Qed.

Lemma empty_zero g t :
  tidy g t = true → settled true g = true → empty_value g = true → g = zero t.
Proof.
  destruct g as [[]|z|s| |g|[|n] cells|[|i items]|[|m ms]|gs], t; try done; cbn; intros Ht _ He.
  - by apply Z.eqb_eq in He as ->.
  - by apply Z.eqb_eq in He as ->.
  - by apply is_empty_true in He as ->.
  - by destruct n.
Qed.

(** ** The round trip *)

Lemma decode_pointer `{Unicode} v t cur :
  v ≠ VNull →
  decode v (TPtr t) cur = GPtr <$> decode v t (match cur with GPtr g => g | _ => zero t end).
Proof.
  destruct v as [|b|n|s|items|ms]; intros Hv; [done|..]; cbn [decode base target point].
  - by destruct (base t).
  - destruct (base t); try done; [by destruct (ParseInt n)|by destruct (ParseUint n)].
  - by destruct (base t).
  - destruct (base t); try done.
    + by destruct (decode_items _ _ _ _).
    + by destruct (decode_array _ _ _ _).
  - destruct (base t); try done.
    + by destruct (decode_map _ _ _ _).
    + by destruct (decode_struct _ _ _ _).
Qed.

Lemma encode_not_null g t : tidy g t = true → nilable t = false → encode g t ≠ VNull.
Proof. by destruct g, t. Qed.

Lemma ParseUint_Itoa z : uint64 z → ParseUint (Itoa z) = Some z.
Proof.
  intros Hz. unfold ParseUint, uint64 in *. rewrite Itoa_nonneg, bytes_of_bytes by lia.
  destruct (digits_of_spec z) as (c & l & -> & _ & Hv); [lia|]. rewrite Hv. cbn [mbind option_bind].
  by rewrite (proj2 (Z.ltb_lt _ _)) by lia.
Qed.

Lemma find_index_pre {A} (p : A → bool) pre a l :
  Forall (λ b, p b = false) pre → p a = true → find_index p (pre ++ a :: l) = Some (length pre).
Proof.
  intros Hpre Ha. induction Hpre as [|b pre Hb _ IH]; cbn; [by rewrite Ha|]. by rewrite Hb, IH.
Qed.

Lemma field_index_own `{Unicode} pre name omit t fields :
  NoDup (map (λ f, f.1.1) (pre ++ (name, omit, t) :: fields)) →
  field_index (pre ++ (name, omit, t) :: fields) name = Some (length pre).
Proof.
  intros Hnd. unfold field_index. rewrite find_index_pre; [done| |apply seqb_refl].
  rewrite map_app in Hnd. apply NoDup_app in Hnd as (_ & Hd & _).
  apply Forall_forall. intros f Hf. apply seqb_neq. intros E.
  apply (Hd (f.1.1)); [by apply (list_elem_of_fmap_2 (λ f, f.1.1))|]. rewrite E. by left.
Qed.

(** What reading over the zero value makes of a written one. *)
Definition comes_back `{Unicode} (g : gval) : Prop := ∀ t,
  ty_ok t = true → tidy g t = true → decode (encode g t) t (zero t) = Some g.

Section round_trip.
Context `{Unicode}.

Lemma items_back t cells :
  ty_ok t = true → Forall comes_back cells → forallb (λ g, tidy g t) cells = true →
  decode_items decode t (map (λ g, encode g t) cells) [] = Some cells.
Proof.
  intros Hok Hall Hf. induction Hall as [|g cells Hg _ IH]; [done|]. cbn in *.
  apply andb_true_iff in Hf as [H1 H2]. rewrite (Hg t Hok H1). cbn. by rewrite (IH H2).
Qed.

Lemma array_back t items :
  ty_ok t = true → Forall comes_back items → forallb (λ g, tidy g t) items = true →
  decode_array decode t (map (λ g, encode g t) items) (repeat (zero t) (length items)) = Some items.
Proof.
  intros Hok Hall Hf. induction Hall as [|g cells Hg _ IH]; [done|]. cbn in *.
  apply andb_true_iff in Hf as [H1 H2]. rewrite (Hg t Hok H1). cbn. by rewrite (IH H2).
Qed.

Lemma map_set_new k g m : k ∉ m.*1 → map_set k g m = (m ++ [(k, g)])%list.
Proof.
  induction m as [|[k' g'] m IH]; [done|]. cbn. rewrite not_elem_of_cons. intros [Hk Hm].
  rewrite (proj2 (seqb_neq k k') Hk). by rewrite IH.
Qed.

Lemma map_back t ms : ∀ m,
  ty_ok t = true → Forall (λ kg, comes_back kg.2) ms →
  forallb (λ '(k, g), utf8 k && tidy g t) ms = true → NoDup (m ++ ms).*1 →
  decode_map decode t (map (λ '(k, g), (k, encode g t)) ms) m = Some (m ++ ms)%list.
Proof.
  intros m Hok Hall. revert m. induction Hall as [|[k g] ms Hg _ IH]; intros m Hf Hnd; cbn in *.
  { by rewrite app_nil_r. }
  apply andb_true_iff in Hf as [H1 H2]. apply andb_true_iff in H1 as [_ H1].
  rewrite (Hg t Hok H1). cbn. rewrite map_set_new.
  - rewrite IH; [by rewrite <- (assoc_L (++))|done|by rewrite <- (assoc_L (++))].
  - rewrite fmap_app in Hnd. apply NoDup_app in Hnd as (_ & Hd & _). intros Hin.
    apply (Hd k Hin). by left.
Qed.

Lemma obj_get_own ms k v : NoDup ms.*1 → (k, v) ∈ ms → obj_get ms k = Some v.
Proof.
  induction ms as [|[k' v'] ms IH]; cbn; [by intros _ ?%not_elem_of_nil|].
  rewrite NoDup_cons. intros [Hk Hnd] [E|Hin]%elem_of_cons.
  - injection E as -> ->. destruct (obj_get ms k') as [w|] eqn:E; [|by rewrite seqb_refl].
    exfalso. apply Hk. clear -E. induction ms as [|[k v] ms IH]; [done|]. cbn in *.
    destruct (obj_get ms k'); [right; by apply IH|].
    destruct (k =s? k') eqn:Ek; [apply seqb_eq in Ek as ->; by left|done].
  - by rewrite (IH Hnd Hin).
Qed.

Lemma remove_dups_id (l : list string) : NoDup l → remove_dups l = l.
Proof.
  induction 1 as [|s l Hs _ IH]; [done|]. cbn. destruct (decide_rel _ _ _); [done|]. by rewrite IH.
Qed.

Lemma by_key_id ms :
  NoDup ms.*1 → sort_strings ms.*1 = ms.*1 → by_key ms = ms.
Proof.
  intros Hnd Hs. unfold by_key. change (map fst ms) with ms.*1. rewrite remove_dups_id, Hs by done.
  assert (∀ l, (∀ kv, kv ∈ l → kv ∈ ms) →
    omap (λ k, (λ v, (k, v)) <$> obj_get ms k) l.*1 = l) as Hl; [|by apply Hl].
  induction l as [|[k v] l IH]; intros Hin; [done|]. cbn.
  rewrite (obj_get_own ms k v) by (try done; apply Hin; by left). cbn. f_equal. apply IH.
  intros kv Hkv. apply Hin. by right.
Qed.

(** The members of a struct go to their fields, and the omitted ones were zero. *)
Lemma fields_back gs : ∀ pre fields gpre,
  Forall comes_back gs → ty_ok (TStruct (pre ++ fields)) = true →
  fits_fields true tidy gs fields = true → length gpre = length pre →
  decode_struct decode (pre ++ fields) (encode_fields encode gs fields)
    (gpre ++ map (λ f, zero f.2) fields) = Some (gpre ++ gs)%list.
Proof.
  induction gs as [|g gs IH]; intros pre [|[[name omit] t] fields] gpre Hall Hok Hf Hlen; try done.
  cbn [fits_fields] in Hf. apply andb_true_iff in Hf as [Hf Hfs]. apply andb_true_iff in Hf as [Hf Hset].
  apply Forall_cons in Hall as [Hg Hall]. pose proof Hok as Hok'.
  cbn in Hok'. apply andb_true_iff in Hok' as [Hok' Hty]. apply andb_true_iff in Hok' as [Hnd _].
  apply bool_decide_eq_true in Hnd. rewrite forallb_app in Hty.
  apply andb_true_iff in Hty as [_ Hty]. cbn in Hty. apply andb_true_iff in Hty as [Hty _].
  pose proof (cons_middle (name, omit, t) pre fields) as Epre.
  assert (∀ h, length (gpre ++ [h]) = length (pre ++ [(name, omit, t)])) as Hlen'
    by (intros; rewrite !length_app, Hlen; done).
  cbn [encode_fields map snd]. destruct (omit && empty_value g) eqn:Eo.
  - apply andb_true_iff in Eo as [-> Ee]. rewrite <- (empty_zero g t Hf Hset Ee).
    rewrite !(cons_middle g gpre), Epre, !(assoc_L (++)) in *. by apply IH.
  - cbn [decode_struct]. rewrite field_index_own by done.
    rewrite list_lookup_middle by done. rewrite <- Hlen, list_lookup_middle by done.
    rewrite (Hg t Hty Hf). cbn [mbind option_bind].
    rewrite insert_app_r_alt, Nat.sub_diag by done. cbn [insert list_insert].
    rewrite !(cons_middle g gpre), Epre, !(assoc_L (++)) in *. by apply IH.
Qed.

Lemma encode_back g : comes_back g.
Proof.
  induction g as [b|z|s| |g IH|n cells IH|items IH|ms IH|gs IH] using gval_induction;
    intros t Hok Ht.
  - by destruct t.
  - destruct t; try done; cbn in Ht; apply bool_decide_eq_true in Ht; cbn.
    + by rewrite ParseInt_Itoa.
    + by rewrite ParseUint_Itoa.
  - by destruct t.
  - by destruct t.
  - destruct t as [| | | |t|t|n t|t|fields]; try done. cbn in Hok, Ht.
    apply andb_true_iff in Hok as [Hn Hok]. apply negb_true_iff in Hn.
    cbn [encode]. rewrite decode_pointer by by apply encode_not_null.
    cbn [zero]. by rewrite (IH t Hok Ht).
  - destruct t as [| | | |t|t|k t|t|fields]; try done. cbn in Ht.
    apply andb_true_iff in Ht as [Hn Hf]. apply Nat.eqb_eq in Hn as ->.
    cbn. rewrite firstn_all2 by by rewrite length_map.
    rewrite items_back by done. cbn. rewrite length_map, drop_nil, app_nil_r.
    by destruct cells.
  - destruct t as [| | | |t|t|k t|t|fields]; try done. cbn in Ht.
    apply andb_true_iff in Ht as [Hn Hf]. apply Nat.eqb_eq in Hn as <-.
    cbn. by rewrite array_back.
  - destruct t as [| | | |t|t|k t|t|fields]; try done. cbn in Ht.
    apply andb_true_iff in Ht as [Hd Hf]. apply andb_true_iff in Hd as [Hd Hs].
    apply bool_decide_eq_true in Hd, Hs.
    assert ((map (λ '(k, g), (k, encode g t)) ms).*1 = ms.*1) as Ekeys.
    { clear. induction ms as [|[k g] ms IH]; [done|]. cbn. by f_equal. }
    cbn. rewrite by_key_id by by rewrite Ekeys. by rewrite map_back.
  - destruct t as [| | | |t|t|k t|t|fields]; try done.
    cbn [encode decode base target point zero fields_of].
    pose proof (fields_back gs [] fields [] IH Hok Ht eq_refl) as E. cbn [app] in E. by rewrite E.
Qed.
End round_trip.

(** What the writer makes of a value of its type can be read: valid text, number
    literals, and no deeper than the type. *)
Definition readable (n : Z) (v : value) : Prop :=
  writable v = true ∧ text_ok v = true ∧ depth v ≤ n.

Lemma ty_depth_nonneg t : 0 ≤ ty_depth t.
Proof.
  induction t as [| | | |t IH|t IH|n t IH|t IH|fields IH] using ty_induction; cbn; try lia.
  induction IH as [|f fields Hf _ IHf]; cbn; lia.
Qed.

Lemma readable_array n vs : 0 ≤ n → Forall (readable n) vs → readable (1 + n) (VArray vs).
Proof.
  intros Hn Hvs. unfold readable. cbn. induction Hvs as [|v vs (Hw & Ht & Hd) _ (IHw & IHt & IHd)]; cbn.
  - split_and!; [done|done|lia].
  - rewrite Hw, Ht, IHw, IHt. split_and!; [done|done|lia].
Qed.

Lemma readable_object n ms :
  0 ≤ n → Forall (λ kv, utf8 kv.1 = true ∧ readable n kv.2) ms → readable (1 + n) (VObject ms).
Proof.
  intros Hn Hms. unfold readable. cbn.
  induction Hms as [|[k v] ms [Hk (Hw & Ht & Hd)] _ (IHw & IHt & IHd)]; cbn in *.
  - split_and!; [done|done|lia].
  - rewrite Hk, Hw, Ht, IHw, IHt. split_and!; [done|done|lia].
Qed.

Lemma readable_weaken n m v : readable n v → n ≤ m → readable m v.
Proof. intros (? & ? & ?) ?. split_and!; [done|done|lia]. Qed.

Lemma forallb_readable t cells :
  Forall (λ g, ∀ t, ty_ok t = true → tidy g t = true → readable (ty_depth t) (encode g t)) cells →
  ty_ok t = true → forallb (λ g, tidy g t) cells = true →
  Forall (readable (ty_depth t)) (map (λ g, encode g t) cells).
Proof.
  intros Hall Hok Hf. induction Hall as [|g cells Hg _ IH]; [constructor|]. cbn in *.
  apply andb_true_iff in Hf as [H1 H2]. constructor; auto.
Qed.

Lemma fields_readable gs : ∀ fields,
  Forall (λ g, ∀ t, ty_ok t = true → tidy g t = true → readable (ty_depth t) (encode g t)) gs →
  forallb (λ f, utf8 f.1.1) fields = true → forallb (λ f, ty_ok f.2) fields = true →
  fits_fields true tidy gs fields = true →
  Forall (λ kv, utf8 kv.1 = true ∧ readable (foldr (λ f n, Z.max (ty_depth f.2) n) 0 fields) kv.2)
    (encode_fields encode gs fields).
Proof.
  induction gs as [|g gs IH]; intros [|[[name omit] t] fields] Hall Hn Hok Hf; try done.
  apply Forall_cons in Hall as [Hg Hall]. cbn [forallb fits_fields fst snd] in *.
  apply andb_true_iff in Hn as [Hn Hns], Hok as [Hok Hoks], Hf as [Hf Hfs].
  apply andb_true_iff in Hf as [Hf _].
  assert (Forall (λ kv, utf8 kv.1 = true ∧
    readable (foldr (λ f n, Z.max (ty_depth f.2) n) 0 ((name, omit, t) :: fields)) kv.2)
    (encode_fields encode gs fields)) as Hrest.
  { eapply Forall_impl; [by apply IH|]. intros [k v] [? ?]. split; [done|].
    eapply readable_weaken; [done|]. cbn. lia. }
  cbn [encode_fields]. destruct (omit && empty_value g); [done|]. constructor; [|done].
  split; [done|]. eapply readable_weaken; [by apply Hg|]. cbn. lia.
Qed.

Lemma encode_readable g : ∀ t,
  ty_ok t = true → tidy g t = true → readable (ty_depth t) (encode g t).
Proof.
  induction g as [b|z|s| |g IH|n cells IH|items IH|ms IH|gs IH] using gval_induction;
    intros t Hok Ht; destruct t as [| | | |t|t|k t|t|fields]; try done.
  - split_and!; [apply number_literal_Itoa|done|done].
  - split_and!; [apply number_literal_Itoa|done|done].
  - split_and!; [done|done|apply ty_depth_nonneg].
  - split_and!; [done|done|apply (ty_depth_nonneg (TSlice t))].
  - split_and!; [done|done|apply (ty_depth_nonneg (TMap t))].
  - cbn in *. apply andb_true_iff in Hok as [_ Hok]. by apply IH.
  - cbn in Ht. apply andb_true_iff in Ht as [_ Hf]. cbn [encode ty_depth].
    apply readable_array; [apply ty_depth_nonneg|]. apply Forall_take. by apply forallb_readable.
  - cbn in Ht. apply andb_true_iff in Ht as [_ Hf]. cbn [encode ty_depth].
    apply readable_array; [apply ty_depth_nonneg|]. by apply forallb_readable.
  - cbn in Ht. apply andb_true_iff in Ht as [Hd Hf]. apply andb_true_iff in Hd as [Hd Hs].
    apply bool_decide_eq_true in Hd, Hs. cbn [encode ty_depth].
    assert ((map (λ '(k, g), (k, encode g t)) ms).*1 = ms.*1) as Ekeys.
    { clear. induction ms as [|[k g] ms IH]; [done|]. cbn. by f_equal. }
    rewrite by_key_id by by rewrite Ekeys. apply readable_object; [apply ty_depth_nonneg|]. clear Hd Hs Ekeys.
    induction IH as [|[k g] ms Hg _ IHms]; [constructor|]. cbn in *.
    apply andb_true_iff in Hf as [H1 H2]. apply andb_true_iff in H1 as [H0 H1]. constructor; auto.
  - cbn in Hok. apply andb_true_iff in Hok as [Hok Hty]. apply andb_true_iff in Hok as [_ Hn].
    cbn [encode ty_depth]. apply readable_object; [|by apply fields_readable].
    clear. induction fields; cbn; lia.
Qed.

(** The types of the messages: sound, and within the reader's depth. *)
Definition wire_type (t : ty) : bool := ty_ok t && (ty_depth t <=? max_nesting_depth).

Theorem unmarshal_marshal_value `{Unicode} t g :
  wire_type t = true → tidy g t = true → unmarshal t (marshal t g) = Ok g.
Proof.
  intros [Hok Hd%Z.leb_le]%andb_true_iff Hg. unfold unmarshal, marshal.
  destruct (encode_readable g t Hok Hg) as (Hw & Ht & Hdep).
  rewrite parse_print_text by (try done; lia). by rewrite encode_back.
Qed.

(** The document that is written. *)
Lemma document_marshal t g :
  wire_type t = true → tidy g t = true → parse_document (marshal t g) = Some (encode g t).
Proof.
  intros [Hok Hd%Z.leb_le]%andb_true_iff Hg. destruct (encode_readable g t Hok Hg) as (Hw & Ht & Hdep).
  apply parse_print_text; [done|done|lia].
Qed.

(** The member at the end of a path of names. *)
Fixpoint member (names : list string) (v : value) : option value :=
  match names with
  | [] => Some v
  | name :: names => match v with VObject ms => obj_get ms name ≫= member names | _ => None end
  end.

(** ** Strings that are not UTF-8

    They are written with U+FFFD for what is not valid, so what is read back is the
    value with its strings cleaned. Values with maps are left out: two keys may
    become one. *)
Fixpoint tidied (g : gval) : gval :=
  match g with
  | GString s => GString (clean_string s)
  | GPtr g => GPtr (tidied g)
  | GSlice n cells => GSlice n (map tidied cells)
  | GArray items => GArray (map tidied items)
  | GStruct gs => GStruct (map tidied gs)
  | g => g
  end.

Fixpoint mapless (g : gval) : bool :=
  match g with
  | GPtr g => mapless g
  | GSlice _ items | GArray items | GStruct items => forallb mapless items
  | GMap _ => false
  | _ => true
  end.

Fixpoint no_maps (t : ty) : bool :=
  match t with
  | TPtr t | TSlice t | TArray _ t => no_maps t
  | TStruct fields => forallb (λ f, no_maps f.2) fields
  | TMap _ => false
  | _ => true
  end.

Lemma fits_mapless strict g : ∀ t, fits strict g t = true → no_maps t = true → mapless g = true.
Proof.
  assert (∀ cells t, Forall (λ g, ∀ t, fits strict g t = true → no_maps t = true → mapless g = true) cells →
    forallb (λ g, fits strict g t) cells = true → no_maps t = true → forallb mapless cells = true) as Hl.
  { intros cells t IH Hf Hm. induction IH as [|h cells Hh _ IHc]; [done|]. cbn in *.
    apply andb_true_iff in Hf as [H1 H2]. by rewrite (Hh t), IHc. }
  induction g as [b|z|s| |g IH|n cells IH|items IH|ms IH|gs IH] using gval_induction; intros t Ht Hm;
    destruct t as [| | | |t|t|k t|t|fields]; try done; cbn in *.
  - by eapply IH.
  - apply andb_true_iff in Ht as [_ Ht]. by eapply Hl.
  - apply andb_true_iff in Ht as [_ Ht]. by eapply Hl.
  - clear Hl. revert fields Ht Hm. induction IH as [|g gs Hg _ IHg]; intros [|[[name omit] t] fields] Ht Hm; try done.
    cbn in *. apply andb_true_iff in Ht as [Ht Hts], Hm as [Hm Hms]. apply andb_true_iff in Ht as [Ht _].
    by rewrite (Hg t), (IHg fields).
Qed.

Lemma mapless_tidied g : mapless (tidied g) = mapless g.
Proof.
  assert (∀ gs, Forall (λ g, mapless (tidied g) = mapless g) gs →
    forallb mapless (map tidied gs) = forallb mapless gs) as Hl.
  { induction 1 as [|h gs Hh _ IH]; [done|]. cbn. by rewrite Hh, IH. }
  induction g using gval_induction; cbn; auto.
Qed.

Lemma clean_nil s : is_empty (clean_string s) = is_empty s.
Proof.
  destruct s as [|c s]; [done|]. unfold clean_string, encode_runes, runes.
  change (bytes (String c s)) with (c :: bytes s)%list. cbn [runes_of].
  destruct (decode_rune c (bytes s)) as [r n]. generalize (runes_of (bytes s) (n - 1)). intros rs.
  change (mjoin (encode_rune <$> r :: rs)) with (encode_rune r ++ mjoin (encode_rune <$> rs))%list.
  destruct (encode_rune_decodes r) as (a & p & r' & -> & _). done.
Qed.

Lemma empty_tidied g : empty_value (tidied g) = empty_value g.
Proof. destruct g as [| |s| | | |[]| |]; try done. apply clean_nil. Qed.

Lemma clean_encode_fields gs : ∀ fields,
  Forall (λ g, ∀ t, ty_ok t = true → mapless g = true → clean (encode g t) = encode (tidied g) t) gs →
  forallb (λ f, utf8 f.1.1) fields = true → forallb (λ f, ty_ok f.2) fields = true →
  forallb mapless gs = true →
  map (λ '(k, v), (clean_string k, clean v)) (encode_fields encode gs fields) =
    encode_fields encode (map tidied gs) fields.
Proof.
  induction gs as [|g gs IH]; intros [|[[name omit] t] fields] Hall Hn Hok Hm; try done.
  apply Forall_cons in Hall as [Hg Hall]. cbn [forallb fst snd] in *.
  apply andb_true_iff in Hn as [Hn Hns], Hok as [Hok Hoks], Hm as [Hm Hms].
  cbn [encode_fields map]. rewrite empty_tidied. destruct (omit && empty_value g); [by apply IH|].
  cbn [map]. rewrite IH, Hg by done. unfold utf8 in Hn. by apply seqb_eq in Hn as ->.
Qed.

Lemma clean_encode g : ∀ t, ty_ok t = true → mapless g = true → clean (encode g t) = encode (tidied g) t.
Proof.
  assert (∀ cells t, Forall (λ g, ∀ t, ty_ok t = true → mapless g = true →
      clean (encode g t) = encode (tidied g) t) cells →
    ty_ok t = true → forallb mapless cells = true →
    map (λ g, clean (encode g t)) cells = map (λ g, encode (tidied g) t) cells) as Hl.
  { intros cells t IH Hok Hm. induction IH as [|h cells Hh _ IHc]; [done|]. cbn in *.
    apply andb_true_iff in Hm as [H1 H2]. by rewrite Hh, IHc. }
  induction g as [b|z|s| |g IH|n cells IH|items IH|ms IH|gs IH] using gval_induction;
    intros t Hok Hm; destruct t as [| | | |t|t|k t|t|fields]; try done.
  - cbn in Hok. apply andb_true_iff in Hok as [_ Hok]. by apply IH.
  - cbn [tidied encode clean]. f_equal. rewrite <- firstn_map, !map_map. f_equal. by apply Hl.
  - cbn [tidied encode clean]. f_equal. rewrite !map_map. by apply Hl.
  - cbn [tidied encode clean]. f_equal. cbn in Hok. apply andb_true_iff in Hok as [Hok Hty].
    apply andb_true_iff in Hok as [_ Hn]. by apply clean_encode_fields.
Qed.

Lemma clean_shape v : writable (clean v) = writable v ∧ depth (clean v) = depth v.
Proof.
  induction v as [|b|n|s|items IH|ms IH] using value_induction; cbn; try done.
  - induction IH as [|v items [H1 H2] _ [IH1 IH2]]; [done|]. cbn. rewrite H1, IH1. split; [done|].
    cbn in IH2. lia.
  - induction IH as [|[k v] ms [H1 H2] _ [IH1 IH2]]; [done|]. cbn in *. rewrite H1, IH1.
    split; [done|]. lia.
Qed.

Theorem unmarshal_marshal_tidied `{Unicode} t g :
  wire_type t = true → mapless g = true → tidy (tidied g) t = true →
  unmarshal t (marshal t g) = Ok (tidied g).
Proof.
  intros [Hok Hd%Z.leb_le]%andb_true_iff Hm Hg. unfold unmarshal, marshal.
  destruct (encode_readable _ t Hok Hg) as (Hw & _ & Hdep). rewrite <- clean_encode in Hw, Hdep by done.
  destruct (clean_shape (encode g t)) as [Ew Ed]. rewrite Ew in Hw. rewrite Ed in Hdep.
  rewrite parse_print by (try done; lia). by rewrite clean_encode, encode_back.
Qed.

(** ** Everything read is of its type *)

Lemma target_fits t : ∀ g, typed g t = true → ty_ok t = true → typed (target t g) (base t) = true.
Proof.
  induction t as [| | | |t IH|t IH|n t IH|t IH|fields IH] using ty_induction; intros g Hg Hok; try done.
  cbn in Hok. apply andb_true_iff in Hok as [_ Hok]. cbn [target base]. apply IH; [|done].
  destruct g; try done; by apply zero_fits.
Qed.

Lemma point_fits strict t : ∀ g, fits strict g (base t) = true → fits strict (point t g) t = true.
Proof.
  induction t as [| | | |t IH|t IH|n t IH|t IH|fields IH] using ty_induction; intros g Hg; try done.
  by apply IH.
Qed.

Lemma base_ok t : ty_ok t = true → ty_ok (base t) = true.
Proof.
  induction t as [| | | |t IH|t IH|n t IH|t IH|fields IH] using ty_induction; intros Hg; try done.
  cbn in *. apply andb_true_iff in Hg as [_ Hg]. auto.
Qed.

Section reading.
Context `{Unicode}.

Definition reads_typed (v : value) : Prop := ∀ t cur g,
  text_ok v = true → ty_ok t = true → typed cur t = true → decode v t cur = Some g →
  typed g t = true.

Lemma items_typed t items : ∀ old gs,
  Forall reads_typed items → forallb text_ok items = true → ty_ok t = true →
  forallb (λ g, typed g t) old = true → decode_items decode t items old = Some gs →
  length gs = length items ∧ forallb (λ g, typed g t) gs = true.
Proof.
  induction items as [|v items IH]; intros old gs Hall Ht Hok Hold; cbn; [by intros [= <-]|].
  apply Forall_cons in Hall as [Hv Hall]. cbn in Ht. apply andb_true_iff in Ht as [Ht Hts].
  assert (typed (hd (zero t) old) t = true ∧ forallb (λ g, typed g t) (tl old) = true) as [Hhd Htl].
  { destruct old; cbn in *; [split; [by apply zero_fits|done]|by apply andb_true_iff]. }
  destruct (decode v t _) as [g|] eqn:E; [|done]. cbn.
  destruct (decode_items _ _ _ _) as [gs'|] eqn:Es; [|done]. cbn. intros [= <-].
  destruct (IH _ _ Hall Hts Hok Htl Es) as [Hlen Hgs]. cbn. split; [by f_equal|].
  by rewrite (Hv t _ g Ht Hok Hhd E).
Qed.

Lemma array_typed t items : ∀ old gs,
  Forall reads_typed items → forallb text_ok items = true → ty_ok t = true →
  forallb (λ g, typed g t) old = true → decode_array decode t items old = Some gs →
  length gs = length old ∧ forallb (λ g, typed g t) gs = true.
Proof.
  assert (∀ old : list gval, ty_ok t = true →
    length (map (λ _, zero t) old) = length old ∧
    forallb (λ g, typed g t) (map (λ _, zero t) old) = true) as Hz.
  { intros old Hok. split; [apply length_map|]. induction old as [|g old IHo]; [done|]. cbn.
    by rewrite zero_fits. }
  induction items as [|v items IH]; intros [|g0 old] gs Hall Ht Hok Hold; cbn [decode_array].
  1,3: by intros [= <-].
  { intros [= <-]. by apply (Hz (g0 :: old)). }
  apply Forall_cons in Hall as [Hv Hall]. cbn in Ht, Hold.
  apply andb_true_iff in Ht as [Ht Hts], Hold as [Hg Hold].
  destruct (decode v t _) as [g|] eqn:E; [|done]. cbn.
  destruct (decode_array _ _ _ _) as [gs'|] eqn:Es; [|done]. cbn. intros [= <-].
  destruct (IH _ _ Hall Hts Hok Hold Es) as [Hlen Hgs]. cbn. split; [by f_equal|].
  by rewrite (Hv t _ g Ht Hok Hg E).
Qed.

Lemma map_set_keys k g m x : x ∈ (map_set k g m).*1 ↔ x = k ∨ x ∈ m.*1.
Proof.
  induction m as [|[k' g'] m IH]; cbn; [rewrite list_elem_of_singleton, elem_of_nil; tauto|].
  destruct (k =s? k') eqn:E; cbn; rewrite !elem_of_cons.
  - apply seqb_eq in E as ->. tauto.
  - rewrite IH. tauto.
Qed.

Lemma map_set_nodup k g m : NoDup m.*1 → NoDup (map_set k g m).*1.
Proof.
  induction m as [|[k' g'] m IH]; cbn; [intros _; repeat constructor; apply not_elem_of_nil|].
  intros [Hk Hnd]%NoDup_cons. destruct (k =s? k') eqn:E; cbn; apply NoDup_cons.
  - apply seqb_eq in E as ->. done.
  - split; [|auto]. rewrite map_set_keys. apply seqb_neq in E. intros [->|?]; done.
Qed.

Definition members_typed (t : ty) (m : list (string * gval)) : Prop :=
  NoDup m.*1 ∧ forallb (λ '(k, g), utf8 k && typed g t) m = true.

Lemma map_typed t ms : ∀ m m',
  Forall (λ kv, reads_typed kv.2) ms → forallb (λ '(k, v), utf8 k && text_ok v) ms = true →
  ty_ok t = true → members_typed t m → decode_map decode t ms m = Some m' → members_typed t m'.
Proof.
  induction ms as [|[k v] ms IH]; intros m m' Hall Ht Hok [Hnd Hm]; cbn; [by intros [= <-]|].
  apply Forall_cons in Hall as [Hv Hall]. cbn in Ht. apply andb_true_iff in Ht as [Ht Hts].
  apply andb_true_iff in Ht as [Hk Ht].
  destruct (decode v t _) as [g|] eqn:E; [|done]. cbn. apply IH; try done.
  pose proof (Hv t _ g Ht Hok (zero_fits false t Hok) E) as Hg. split; [by apply map_set_nodup|].
  clear -Hm Hk Hg. induction m as [|[k' g'] m IH]; cbn; [by rewrite Hk, Hg|]. cbn in Hm.
  apply andb_true_iff in Hm as [H1 H2]. destruct (k =s? k'); cbn; [by rewrite Hk, Hg|].
  by rewrite H1, IH.
Qed.

Lemma fits_fields_lookup gs : ∀ fields i name omit t g,
  fits_fields false typed gs fields = true → fields !! i = Some (name, omit, t) → gs !! i = Some g →
  typed g t = true ∧ ∀ h, typed h t = true → fits_fields false typed (<[i := h]> gs) fields = true.
Proof.
  induction gs as [|g0 gs IH]; intros [|[[n0 o0] t0] fields] i name omit t g Hf Hi Hg; try done.
  cbn in Hf. apply andb_true_iff in Hf as [H1 H2]. destruct i as [|i].
  - injection Hi as -> -> ->. injection Hg as ->. rewrite andb_true_r in H1. split; [done|].
    intros h Hh. cbn. by rewrite Hh.
  - destruct (IH fields i name omit t g H2 Hi Hg) as [Hty Hins]. split; [done|].
    intros h Hh. cbn. by rewrite H1, Hins.
Qed.

Lemma struct_typed fields ms : ∀ gs gs',
  Forall (λ kv, reads_typed kv.2) ms → forallb (λ '(k, v), utf8 k && text_ok v) ms = true →
  forallb (λ f, ty_ok f.2) fields = true → fits_fields false typed gs fields = true →
  decode_struct decode fields ms gs = Some gs' → fits_fields false typed gs' fields = true.
Proof.
  induction ms as [|[k v] ms IH]; intros gs gs' Hall Ht Hok Hf; cbn; [by intros [= <-]|].
  apply Forall_cons in Hall as [Hv Hall]. cbn in Ht. apply andb_true_iff in Ht as [Ht Hts].
  apply andb_true_iff in Ht as [Hk Ht].
  destruct (field_index fields k) as [i|]; [|by apply IH].
  destruct (fields !! i) as [[[name omit] t]|] eqn:Ei; [|done].
  destruct (gs !! i) as [g|] eqn:Eg; [|done].
  destruct (decode v t g) as [h|] eqn:E; [|done]. cbn. apply IH; try done.
  destruct (fits_fields_lookup gs fields i name omit t g Hf Ei Eg) as [Hg Hins]. apply Hins.
  apply (Hv t g h); try done. apply (proj1 (forallb_forall _ _) Hok (name, omit, t)).
  apply list_elem_of_In. by eapply list_elem_of_lookup_2.
Qed.

Lemma ParseUint_range s z : ParseUint s = Some z → uint64 z.
Proof.
  unfold ParseUint, uint64. destruct (bytes s) as [|c l]; [done|].
  destruct (digits_value (c :: l) 0) as [w|] eqn:E; [|done]. cbn. destruct (Z.ltb_spec w (2 ^ 64)); [|done].
  intros [= <-]. split; [|done].
  assert (∀ l a w, 0 ≤ a → digits_value l a = Some w → 0 ≤ w) as Hpos; [|by eapply Hpos].
  clear. induction l as [|c l IH]; cbn; intros a w Ha; [by intros [= <-]|].
  destruct (digit_value c) as [d|] eqn:E; [|done]. cbn. apply IH.
  unfold digit_value, is_digit_ascii, in_range in E. destruct (_ && _) eqn:Eb; [|done].
  injection E as <-. apply andb_true_iff in Eb. lia.
Qed.

Lemma decode_typed v : reads_typed v.
Proof.
  induction v as [|b|n|s|items IH|ms IH] using value_induction; intros t cur g Ht Hok Hcur; cbn [decode].
  - intros [= <-]. by destruct t.
  - destruct (base t) eqn:Eb; try done. intros [= <-]. apply point_fits. by rewrite Eb.
  - destruct (base t) eqn:Eb; try done.
    + destruct (ParseInt n) as [z|] eqn:E; [|done]. cbn. intros [= <-]. apply point_fits. rewrite Eb.
      cbn. apply bool_decide_eq_true. by eapply ParseInt_range.
    + destruct (ParseUint n) as [z|] eqn:E; [|done]. cbn. intros [= <-]. apply point_fits. rewrite Eb.
      cbn. apply bool_decide_eq_true. by eapply ParseUint_range.
  - destruct (base t) eqn:Eb; try done. intros [= <-]. apply point_fits. by rewrite Eb.
  - pose proof (target_fits t cur Hcur Hok) as Hhere. pose proof (base_ok t Hok) as Hbok.
    destruct (base t) as [| | | |t'|t'|k t'|t'|fields] eqn:Eb; try done; cbn in Hbok.
    + assert (forallb (λ g, typed g t') (cells_of (target t cur)) = true) as Hold.
      { destruct (target t cur); try done. cbn in Hhere. by apply andb_true_iff in Hhere as [_ ?]. }
      destruct (decode_items _ _ _ _) as [gs|] eqn:E; [|done]. cbn. intros [= <-].
      destruct (items_typed t' items _ gs IH Ht Hbok Hold E) as [Hlen Hgs].
      apply point_fits. rewrite Eb. destruct items as [|v items]; [done|]. cbn [is_nil fits].
      rewrite forallb_app, Hgs, <- Hlen. cbn [andb]. apply andb_true_iff. split.
      * apply Nat.leb_le. rewrite length_app. lia.
      * apply forallb_forall. intros h Hh. apply (proj1 (forallb_forall _ _) Hold).
        apply list_elem_of_In. apply list_elem_of_In in Hh.
        rewrite <- (take_drop (length gs) (cells_of (target t cur))). apply elem_of_app. by right.
    + destruct (target t cur) as [| | | | | |old| |]; try done. cbn in Hhere.
      apply andb_true_iff in Hhere as [Hlen Hold].
      destruct (decode_array _ _ _ _) as [gs|] eqn:E; [|done]. cbn. intros [= <-].
      destruct (array_typed t' items _ gs IH Ht Hbok Hold E) as [Hl Hgs].
      apply point_fits. rewrite Eb. cbn. by rewrite Hl, Hlen.
  - pose proof (target_fits t cur Hcur Hok) as Hhere. pose proof (base_ok t Hok) as Hbok.
    destruct (base t) as [| | | |t'|t'|k t'|t'|fields] eqn:Eb; try done; cbn in Hbok.
    + assert (members_typed t' (members_of (target t cur))) as Hold.
      { destruct (target t cur); try (split; [constructor|done]). cbn in Hhere.
        apply andb_true_iff in Hhere as [Hnd ?]. rewrite andb_true_r in Hnd.
        by apply bool_decide_eq_true in Hnd. }
      destruct (decode_map _ _ _ _) as [m|] eqn:E; [|done]. cbn. intros [= <-].
      destruct (map_typed t' ms _ m IH Ht Hbok Hold E) as [Hnd Hm].
      apply point_fits. rewrite Eb. cbn. by rewrite bool_decide_eq_true_2, Hm.
    + apply andb_true_iff in Hbok as [_ Hfok].
      destruct (target t cur) as [| | | | | | | |old]; try done.
      destruct (decode_struct _ _ _ _) as [gs|] eqn:E; [|done]. cbn. intros [= <-].
      apply point_fits. rewrite Eb. by apply (struct_typed fields ms old).
Qed.

Lemma unmarshal_typed t body g : wire_type t = true → unmarshal t body = Ok g → typed g t = true.
Proof.
  intros [Hok _]%andb_true_iff. unfold unmarshal. destruct (parse_document body) as [v|] eqn:E; [|done].
  destruct (decode v t (zero t)) as [g'|] eqn:Ed; [|done]. intros [= <-].
  eapply decode_typed; [by eapply parse_document_text|done|by apply zero_fits|done].
Qed.
End reading.

(** ** Types of the development as Go types

    [of_to] is that nothing is lost on the way to the Go value and back;
    [to_tidy] that what was read, seen as a value of the type, is one whose
    document determines it; [to_settled] that nothing is empty without being nil. *)
Record gotype (A : Type) := GoType {
  ty_of : ty;
  to_go : A → gval;
  of_go : gval → A;
  of_to : ∀ a, of_go (to_go a) = a;
  to_tidy : ∀ g, typed g ty_of = true → tidy (to_go (of_go g)) ty_of = true;
  to_settled : ∀ a omit, settled omit (to_go a) = true
}.
Arguments GoType {A}.
Arguments ty_of {A}.
Arguments to_go {A}.
Arguments of_go {A}.
Arguments of_to {A}.
Arguments to_tidy {A}.
Arguments to_settled {A}.

Definition Marshal {A} (c : gotype A) (a : A) : string := marshal (ty_of c) (to_go c a).
Definition Unmarshal `{Unicode} {A} (c : gotype A) (body : string) : result A :=
  g ← unmarshal (ty_of c) body; Ok (of_go c g).

(** A value whose integers have their width and whose strings are valid UTF-8. *)
Definition sendable {A} (c : gotype A) (a : A) : bool := tidy (to_go c a) (ty_of c).

(** What is marshalled is unmarshalled as it was. *)
Theorem unmarshal_marshal `{Unicode} {A} (c : gotype A) a :
  wire_type (ty_of c) = true → sendable c a = true → Unmarshal c (Marshal c a) = Ok a.
Proof.
  intros Hc Ha. unfold Unmarshal, Marshal. rewrite unmarshal_marshal_value by done.
  cbn. by rewrite of_to.
Qed.

(** What was unmarshalled can be sent on. *)
Theorem unmarshal_sendable `{Unicode} {A} (c : gotype A) body a :
  wire_type (ty_of c) = true → Unmarshal c body = Ok a → sendable c a = true.
Proof.
  intros Hc (g & Hg & Ha)%bind_ok. injection Ha as <-. apply to_tidy.
  by eapply unmarshal_typed.
Qed.

(** *** Strings that are not UTF-8 *)

(** The value with its strings cleaned, and that its integers have their width. *)
Definition cleaned {A} (c : gotype A) (a : A) : A := of_go c (tidied (to_go c a)).
Definition sized {A} (c : gotype A) (a : A) : bool := tidy (tidied (to_go c a)) (ty_of c).

(** What is marshalled is unmarshalled with its strings cleaned. *)
Theorem unmarshal_marshal_cleaned `{Unicode} {A} (c : gotype A) a :
  wire_type (ty_of c) = true → mapless (to_go c a) = true → sized c a = true →
  Unmarshal c (Marshal c a) = Ok (cleaned c a).
Proof.
  intros Hc Hm Ha. unfold Unmarshal, Marshal. by rewrite unmarshal_marshal_tidied.
Qed.

Lemma tidied_id g : ∀ t, tidy g t = true → tidied g = g.
Proof.
  assert (∀ cells t, Forall (λ g, ∀ t, tidy g t = true → tidied g = g) cells →
    forallb (λ g, tidy g t) cells = true → map tidied cells = cells) as Hl.
  { intros cells t IH Hf. induction IH as [|h cells Hh _ IHc]; [done|]. cbn in *.
    apply andb_true_iff in Hf as [H1 H2]. by rewrite (Hh t), IHc. }
  induction g as [b|z|s| |g IH|n cells IH|items IH|ms IH|gs IH] using gval_induction; intros t Ht;
    destruct t as [| | | |t|t|k t|t|fields]; try done; cbn in *.
  - f_equal. by apply seqb_eq.
  - f_equal. by eapply IH.
  - f_equal. apply andb_true_iff in Ht as [_ Ht]. by eapply Hl.
  - f_equal. apply andb_true_iff in Ht as [_ Ht]. by eapply Hl.
  - f_equal. clear Hl. revert fields Ht. induction IH as [|g gs Hg _ IHg]; intros [|[[name omit] t] fields] Ht; try done.
    cbn in *. apply andb_true_iff in Ht as [Ht Hts]. apply andb_true_iff in Ht as [Ht _].
    by rewrite (Hg t), (IHg fields).
Qed.

Lemma sized_mapless {A} (c : gotype A) a :
  no_maps (ty_of c) = true → sized c a = true → mapless (to_go c a) = true.
Proof. intros Hm Hs. rewrite <- mapless_tidied. by eapply fits_mapless. Qed.

Lemma sendable_cleaned {A} (c : gotype A) a : sendable c a = true → sized c a = true ∧ cleaned c a = a.
Proof.
  intros Hs. unfold sized, cleaned. rewrite (tidied_id _ _ Hs). split; [exact Hs|apply of_to].
Qed.

(** *** Scalars *)

Lemma settled_other omit g :
  (∀ c, g ≠ GSlice 0 c) → g ≠ GMap [] → settled omit g = true.
Proof.
  unfold settled. intros H1 H2. destruct omit; [|done]. cbn.
  destruct g as [| | | | |[|n] c| |[|m ms]|]; try done. by destruct (H1 c).
Qed.
Ltac settled := intros; apply settled_other; done.

Definition bool_t : gotype bool.
Proof.
  refine (GoType TBool GBool (λ g, match g with GBool b => b | _ => false end) _ _ _);
    [done|done|settled].
Defined.

Definition string_t : gotype string.
Proof.
  refine (GoType TString GString (λ g, match g with GString s => s | _ => "" end) _ _ _);
    [done|by intros []|settled].
Defined.

Definition int_t : gotype Z.
Proof.
  refine (GoType TInt GInt (λ g, match g with GInt z => z | _ => 0 end) _ _ _);
    [done|by intros []|settled].
Defined.

Definition uint_t : gotype Z.
Proof.
  refine (GoType TUint GInt (λ g, match g with GInt z => z | _ => 0 end) _ _ _);
    [done|by intros []|settled].
Defined.

(** *** Pointers, slices and maps *)

Definition ptr_t {A} (c : gotype A) : gotype (option A).
Proof.
  refine (GoType (TPtr (ty_of c))
    (λ o, match o with Some a => GPtr (to_go c a) | None => GNil end)
    (λ g, match g with GPtr g => Some (of_go c g) | _ => None end) _ _ _).
  - intros [a|]; [by rewrite of_to|done].
  - intros [| | | |g| | | |]; try done. cbn. apply to_tidy.
  - intros []; settled.
Defined.

(** A slice without elements is sent as nil. *)
Definition slice_of {A} (c : gotype A) (l : list A) : gval :=
  if is_nil l then GNil else GSlice (length l) (map (to_go c) l).

Lemma slice_tidy {A} (c : gotype A) cells :
  forallb (λ g, typed g (ty_of c)) cells = true →
  tidy (slice_of c (map (of_go c) cells)) (TSlice (ty_of c)) = true.
Proof.
  intros Hc. unfold slice_of. destruct (is_nil _); [done|]. cbn. rewrite !length_map, Nat.eqb_refl. cbn.
  induction cells as [|g cells IH]; [done|]. cbn in *. apply andb_true_iff in Hc as [H1 H2].
  by rewrite to_tidy, IH.
Qed.

Definition slice_t {A} (c : gotype A) : gotype (list A).
Proof.
  refine (GoType (TSlice (ty_of c)) (slice_of c)
    (λ g, match g with GSlice n cells => map (of_go c) (take n cells) | _ => [] end) _ _ _).
  - intros l. unfold slice_of. destruct l as [|a l]; [done|]. cbn [is_nil].
    rewrite firstn_all2 by by rewrite length_map. rewrite map_map.
    rewrite <- (map_id (a :: l)) at 2. apply map_ext, of_to.
  - intros [| | | | |n cells| | |] Hg; try done. cbn in Hg. apply andb_true_iff in Hg as [_ Hg].
    apply slice_tidy. apply forallb_forall. intros g Hin. apply (proj1 (forallb_forall _ _) Hg).
    apply list_elem_of_In. apply list_elem_of_In in Hin. by eapply subseteq_take.
  - intros [|a l]; settled.
Defined.

(** The members of a map in the order of their keys. *)
Definition sorted_members {A} (m : gmap string A) : list (string * A) :=
  omap (λ k, (λ a, (k, a)) <$> m !! k) (sort_strings (map_to_list m).*1).

Lemma sorted_members_elem {A} (m : gmap string A) k a :
  (k, a) ∈ sorted_members m ↔ m !! k = Some a.
Proof.
  unfold sorted_members. rewrite list_elem_of_omap. split.
  - intros (k' & _ & E). destruct (m !! k') as [a'|] eqn:Em; [|done]. by injection E as -> ->.
  - intros Hm. exists k. rewrite Hm. split; [|done]. rewrite sort_strings_perm.
    by apply (list_elem_of_fmap_2 fst _ (k, a)), elem_of_map_to_list.
Qed.

Lemma sorted_members_keys {A} (m : gmap string A) :
  (sorted_members m).*1 = sort_strings (map_to_list m).*1.
Proof.
  unfold sorted_members.
  assert (∀ k, k ∈ sort_strings (map_to_list m).*1 → is_Some (m !! k)) as Hk.
  { intros k. rewrite sort_strings_perm. intros ([k' a] & -> & Hin)%list_elem_of_fmap.
    apply elem_of_map_to_list in Hin. cbn. by rewrite Hin. }
  induction (sort_strings (map_to_list m).*1) as [|k l IH]; [done|].
  destruct (Hk k) as [a Ha]; [by left|]. cbn. rewrite Ha. cbn. f_equal. apply IH.
  intros k' Hk'. apply Hk. by right.
Qed.

Lemma sorted_members_nodup {A} (m : gmap string A) : NoDup (sorted_members m).*1.
Proof. rewrite sorted_members_keys, sort_strings_perm. apply NoDup_fst_map_to_list. Qed.

Lemma sorted_members_list {A} (m : gmap string A) : list_to_map (sorted_members m) = m.
Proof.
  apply map_eq. intros k. apply option_eq. intros a.
  rewrite <- elem_of_list_to_map by apply sorted_members_nodup. apply sorted_members_elem.
Qed.

Definition map_of {A} (c : gotype A) (m : gmap string A) : gval :=
  if is_nil (sorted_members m) then GNil
  else GMap (map (λ '(k, a), (k, to_go c a)) (sorted_members m)).

Lemma map_values {A B} (f : A → B) (l : list (string * A)) :
  (map (λ '(k, a), (k, f a)) l).*1 = l.*1.
Proof. induction l as [|[k a] l IH]; [done|]. cbn. by f_equal. Qed.

Lemma map_tidy {A} (c : gotype A) (l : list (string * gval)) :
  NoDup l.*1 → forallb (λ '(k, g), utf8 k && typed g (ty_of c)) l = true →
  tidy (map_of c (list_to_map (map (λ '(k, g), (k, of_go c g)) l))) (TMap (ty_of c)) = true.
Proof.
  intros Hnd Hl. unfold map_of. set (m := list_to_map _ : gmap string A).
  destruct (is_nil _); [done|]. cbn. rewrite map_values, !bool_decide_eq_true_2.
  - cbn. apply forallb_forall. intros [k g] Hin. apply list_elem_of_In in Hin.
    apply list_elem_of_fmap in Hin as ([k' a] & E & Hin). injection E as -> ->.
    apply sorted_members_elem in Hin. apply elem_of_list_to_map_2 in Hin.
    apply list_elem_of_fmap in Hin as ([k g] & E & Hin). injection E as -> ->.
    apply list_elem_of_In in Hin. apply (proj1 (forallb_forall _ _) Hl) in Hin.
    apply andb_true_iff in Hin as [-> Hg]. by apply to_tidy.
  - rewrite sorted_members_keys. apply sort_strings_same, sort_strings_perm.
  - apply sorted_members_nodup.
Qed.

Definition map_t {A} (c : gotype A) : gotype (gmap string A).
Proof.
  refine (GoType (TMap (ty_of c)) (map_of c)
    (λ g, match g with GMap l => list_to_map (map (λ '(k, g), (k, of_go c g)) l) | _ => ∅ end) _ _ _).
  - intros m. unfold map_of. destruct (sorted_members m) as [|x l] eqn:E; cbn [is_nil].
    + by rewrite <- (sorted_members_list m), E.
    + rewrite <- E, map_map. rewrite <- (sorted_members_list m) at 2. f_equal.
      rewrite <- (map_id (sorted_members m)) at 2. apply map_ext. intros [k a]. by rewrite of_to.
  - intros [| | | | | | |l|] Hg; try done. cbn in Hg. apply andb_true_iff in Hg as [Hnd Hg].
    rewrite andb_true_r in Hnd. apply bool_decide_eq_true in Hnd. by apply map_tidy.
  - intros m. unfold map_of. destruct (sorted_members m); settled.
Defined.

(** *** Structs *)

(** The fields of a struct, its value a tuple of theirs. *)
Record fields (A : Type) := Fields {
  field_types : list (string * bool * ty);
  put : A → list gval;
  get : list gval → A;
  get_put : ∀ a, get (put a) = a;
  put_tidy : ∀ gs, fits_fields false typed gs field_types = true →
    fits_fields true tidy (put (get gs)) field_types = true
}.
Arguments Fields {A}.
Arguments field_types {A}.
Arguments put {A}.
Arguments get {A}.
Arguments get_put {A}.
Arguments put_tidy {A}.

Definition no_field : fields unit.
Proof. refine (Fields [] (λ _, []) (λ _, tt) _ _); [by intros []|by intros [|g gs]]. Defined.

Definition field {A B} (name : string) (omit : bool) (c : gotype A) (rest : fields B)
  : fields (A * B).
Proof.
  refine (Fields ((name, omit, ty_of c) :: field_types rest)
    (λ '(a, b), to_go c a :: put rest b)
    (λ gs, (of_go c (hd GNil gs), get rest (tl gs))) _ _).
  - intros [a b]. cbn. by rewrite of_to, get_put.
  - intros [|g gs]; [done|]. cbn. intros Hg. apply andb_true_iff in Hg as [Hg Hgs].
    rewrite andb_true_r in Hg. by rewrite to_tidy, to_settled, put_tidy.
Defined.

Definition struct_t {A B} (fs : fields B) (to : A → B) (from : B → A)
    (Hft : ∀ a, from (to a) = a) (Htf : ∀ b, to (from b) = b) : gotype A.
Proof.
  refine (GoType (TStruct (field_types fs)) (λ a, GStruct (put fs (to a)))
    (λ g, from (get fs (fields_of g))) _ _ _).
  - intros a. cbn. by rewrite get_put.
  - intros [| | | | | | | |gs] Hg; try done. cbn in *. rewrite Htf. by apply put_tidy.
  - settled.
Defined.

(** *** What is sendable, part by part *)

Definition fields_sendable {B} (fs : fields B) (b : B) : bool :=
  fits_fields true tidy (put fs b) (field_types fs).

Lemma sendable_bool b : sendable bool_t b = true.
Proof. done. Qed.
Lemma sendable_string s : sendable string_t s = utf8 s.
Proof. done. Qed.
Lemma sendable_int z : sendable int_t z = bool_decide (int64 z).
Proof. done. Qed.
Lemma sendable_uint z : sendable uint_t z = bool_decide (uint64 z).
Proof. done. Qed.

Lemma sendable_ptr {A} (c : gotype A) o :
  sendable (ptr_t c) o = match o with Some a => sendable c a | None => true end.
Proof. by destruct o. Qed.

Lemma sendable_slice {A} (c : gotype A) l : sendable (slice_t c) l = forallb (sendable c) l.
Proof.
  unfold sendable. cbn. unfold slice_of. destruct l as [|a l]; [done|]. cbn.
  rewrite length_map, Nat.eqb_refl. cbn. f_equal.
  induction l as [|b l IH]; [done|]. cbn. by rewrite IH.
Qed.

Lemma sendable_struct {A B} (fs : fields B) (to : A → B) (from : B → A) Hft Htf a :
  sendable (struct_t fs to from Hft Htf) a = fields_sendable fs (to a).
Proof. done. Qed.

Lemma sendable_field {A B} name omit (c : gotype A) (rest : fields B) a b :
  fields_sendable (field name omit c rest) (a, b) = sendable c a && fields_sendable rest b.
Proof. unfold fields_sendable. cbn. by rewrite to_settled, andb_true_r. Qed.

Lemma sendable_no_field u : fields_sendable no_field u = true.
Proof. done. Qed.

(** What is sendable of a value whose type is unfolded. *)
Ltac wire :=
  rewrite ?sendable_struct;
  repeat match goal with
         | |- context [fields_sendable (field _ _ ?c ?rest) (?a, ?b)] =>
             rewrite (sendable_field _ _ c rest a b)
         | |- context [fields_sendable no_field ?u] => rewrite (sendable_no_field u)
         | |- context [sendable (ptr_t ?c) ?o] => rewrite (sendable_ptr c o)
         | |- context [sendable (slice_t ?c) ?l] => rewrite (sendable_slice c l)
         | |- context [sendable string_t ?s] => rewrite (sendable_string s)
         | |- context [sendable int_t ?z] => rewrite (sendable_int z)
         | |- context [sendable uint_t ?z] => rewrite (sendable_uint z)
         | |- context [sendable bool_t ?b] => rewrite (sendable_bool b)
         end.

(** *** What is sized, part by part *)

Definition fields_sized {B} (fs : fields B) (b : B) : bool :=
  fits_fields true tidy (map tidied (put fs b)) (field_types fs).

Lemma sized_bool b : sized bool_t b = true.
Proof. done. Qed.
Lemma sized_string s : sized string_t s = true.
Proof. apply clean_utf8. Qed.
Lemma sized_int z : sized int_t z = bool_decide (int64 z).
Proof. done. Qed.
Lemma sized_uint z : sized uint_t z = bool_decide (uint64 z).
Proof. done. Qed.

Lemma sized_ptr {A} (c : gotype A) o :
  sized (ptr_t c) o = match o with Some a => sized c a | None => true end.
Proof. by destruct o. Qed.

Lemma sized_slice {A} (c : gotype A) l : sized (slice_t c) l = forallb (sized c) l.
Proof.
  unfold sized. cbn. unfold slice_of. destruct l as [|a l]; [done|]. cbn.
  rewrite !length_map, Nat.eqb_refl. cbn. f_equal.
  induction l as [|b l IH]; [done|]. cbn. by rewrite IH.
Qed.

Lemma sized_struct {A B} (fs : fields B) (to : A → B) (from : B → A) Hft Htf a :
  sized (struct_t fs to from Hft Htf) a = fields_sized fs (to a).
Proof. done. Qed.

Lemma settled_tidied omit g : settled omit (tidied g) = settled omit g.
Proof. by destruct g. Qed.

Lemma sized_field {A B} name omit (c : gotype A) (rest : fields B) a b :
  fields_sized (field name omit c rest) (a, b) = sized c a && fields_sized rest b.
Proof. unfold fields_sized. cbn. by rewrite settled_tidied, to_settled, andb_true_r. Qed.

Lemma sized_no_field u : fields_sized no_field u = true.
Proof. done. Qed.

(** What is sized of a value whose type is unfolded. *)
Ltac size :=
  rewrite ?sized_struct;
  repeat match goal with
         | |- context [fields_sized (field _ _ ?c ?rest) (?a, ?b)] =>
             rewrite (sized_field _ _ c rest a b)
         | |- context [fields_sized no_field ?u] => rewrite (sized_no_field u)
         | |- context [sized (ptr_t ?c) ?o] => rewrite (sized_ptr c o)
         | |- context [sized (slice_t ?c) ?l] => rewrite (sized_slice c l)
         | |- context [sized string_t ?s] => rewrite (sized_string s)
         | |- context [sized int_t ?z] => rewrite (sized_int z)
         | |- context [sized uint_t ?z] => rewrite (sized_uint z)
         | |- context [sized bool_t ?b] => rewrite (sized_bool b)
         end.
