(* ===== verification/Units.v ===== *)
(** * Sizes and durations of internal/config/profile.go

    [limits.max_body] and [ttl] are texts with a unit. The multiplication by the
    unit is done on 64 bits and is not checked. *)
From S2P Require Import Prelude GoString.

Section units.
Context `{Unicode}.

(** The unit at the end of the text: its multiplier, and the text before it. *)
Definition size_unit (raw : string) : Z * string :=
  if HasSuffix raw "k" then (2 ^ 10, TrimSuffix raw "k")
  else if HasSuffix raw "m" then (2 ^ 20, TrimSuffix raw "m")
  else if HasSuffix raw "g" then (2 ^ 30, TrimSuffix raw "g")
  else (1, raw).

Definition ParseSize (raw : string) : result Z :=
  let raw := TrimSpace (ToLower raw) in
  if is_empty raw then Ok 0
  else
    let '(mult, raw) := size_unit raw in
    match ParseInt (TrimSpace raw) with
    | None => Err (Wrapf "size %q: %w" (Errorf "strconv.ParseInt"))
    | Some n => if n <? 0 then errorf "size must not be negative: %q" else Ok (wrap64 (n * mult))
    end.

Definition duration_unit (raw : string) : Z * string :=
  if HasSuffix raw "s" then (1, TrimSuffix raw "s")
  else if HasSuffix raw "m" then (60, TrimSuffix raw "m")
  else if HasSuffix raw "h" then (3600, TrimSuffix raw "h")
  else if HasSuffix raw "d" then (86400, TrimSuffix raw "d")
  else (1, raw).

Definition ParseDuration (raw : string) : result Z :=
  let raw := TrimSpace (ToLower raw) in
  if is_empty raw then Ok 0
  else
    let '(mult, raw) := duration_unit raw in
    match Atoi (TrimSpace raw) with
    | None => Err (Wrapf "duration %q: %w" (Errorf "strconv.Atoi"))
    | Some n =>
        if n <? 0 then errorf "duration must not be negative: %q" else Ok (wrap64 (n * mult))
    end.

(** [UnmarshalYAML]: [node] is what decoding the YAML node to a string gives. *)
Definition Size_UnmarshalYAML (node : result string) : result Z :=
  raw ← node; ParseSize raw.
Definition Duration_UnmarshalYAML (node : result string) : result Z :=
  raw ← node; ParseDuration raw.
End units.

(** ** What a number with a unit is read as *)

Definition size_units : list (string * Z) :=
  [("", 1); ("k", 2 ^ 10); ("K", 2 ^ 10); ("m", 2 ^ 20); ("M", 2 ^ 20); ("g", 2 ^ 30); ("G", 2 ^ 30)].

Definition duration_units : list (string * Z) :=
  [("", 1); ("s", 1); ("S", 1); ("m", 60); ("M", 60); ("h", 3600); ("H", 3600);
   ("d", 86400); ("D", 86400)].

Section numbers.
Context `{Unicode}.

Lemma digits_lower l : Forall digit_char l → lower_byte <$> l = l.
Proof.
  induction 1 as [|c l Hc _ IH]; [done|]. rewrite fmap_cons, IH.
  by destruct (digit_char_ascii c Hc) as (_ & -> & _).
Qed.

Lemma digits_ascii l : Forall digit_char l → Forall ascii_char l.
Proof. intros H0. eapply Forall_impl; [done|]. intros c Hc. by apply digit_char_ascii. Qed.

(** The normalised text of digits and a one-byte unit. *)
Lemma normalise_number l u :
  Forall digit_char l → l ≠ [] → ascii_char u → graphic (lower_byte u) →
  TrimSpace (ToLower (of_bytes (l ++ [u]))) = of_bytes (l ++ [lower_byte u]).
Proof.
  intros Hl Hne Hu Hg.
  assert (ToLower (of_bytes (l ++ [u])) = of_bytes (l ++ [lower_byte u])) as ->.
  { rewrite ToLower_ascii; rewrite bytes_of_bytes.
    - by rewrite fmap_app, digits_lower.
    - apply Forall_app. split; [by apply digits_ascii|by constructor]. }
  apply TrimSpace_tidy, tidy_graphic; rewrite ?bytes_of_bytes; [by destruct l|].
  apply Forall_app. split; [|by constructor].
  eapply Forall_impl; [exact Hl|]. intros c Hc. by apply digit_char_ascii.
Qed.

Lemma normalise_digits l :
  Forall digit_char l → l ≠ [] → TrimSpace (ToLower (of_bytes l)) = of_bytes l.
Proof.
  intros Hl Hne. rewrite ToLower_ascii by (rewrite bytes_of_bytes; by apply digits_ascii).
  rewrite bytes_of_bytes, digits_lower by done.
  apply TrimSpace_tidy, tidy_graphic; rewrite ?bytes_of_bytes; [by destruct l|].
  eapply Forall_impl; [exact Hl|]. intros c Hc. by apply digit_char_ascii.
Qed.

Lemma digits_no_unit l d :
  Forall digit_char l → l ≠ [] → ¬ digit_char d → HasSuffix (of_bytes l) (String d "") = false.
Proof.
  intros Hl Hne Hd. destruct l as [|c l]; [done|].
  destruct (Forall_last _ _ _ Hl) as (k & e & E & He). rewrite E, HasSuffix_one.
  apply Ascii.eqb_neq. by intros ->.
Qed.

Lemma ParseInt_digits z l :
  int64 z → digits_of z = l → 0 ≤ z → ParseInt (TrimSpace (of_bytes l)) = Some z.
Proof.
  intros Hz <- H0. rewrite <- Itoa_nonneg by done.
  destruct (Itoa_graphic z H0). rewrite TrimSpace_tidy by by apply tidy_graphic.
  by apply ParseInt_Itoa.
Qed.

(** The digits of a number, as the lemmas above want them. *)
Lemma digits_of_ok z : 0 ≤ z → Forall digit_char (digits_of z) ∧ digits_of z ≠ [].
Proof. intros Hz. by destruct (digits_of_spec z Hz) as (c & l & -> & Hd & _). Qed.

Definition after_unit (z mult : Z) : result Z := Ok (wrap64 (z * mult)).

Lemma ParseSize_plain z : 0 ≤ z ≤ int64_max → ParseSize (Itoa z) = after_unit z 1.
Proof.
  intros Hz. rewrite Itoa_nonneg by lia. destruct (digits_of_ok z) as [Hd Hne]; [lia|].
  unfold ParseSize. rewrite normalise_digits by done. unfold size_unit.
  rewrite !digits_no_unit by done.
  destruct (is_empty _) eqn:E; guards; [by apply (of_bytes_inj _ []) in E|].
  rewrite (ParseInt_digits z) by (done || lia || (unfold int64, int64_min in *; lia)).
  by rewrite (proj2 (Z.ltb_ge z 0)) by lia.
Qed.

Lemma ParseSize_unit z u v mult :
  0 ≤ z ≤ int64_max → ascii_char u → lower_byte u = v → graphic v →
  size_unit (of_bytes (digits_of z ++ [v])) = (mult, of_bytes (digits_of z)) →
  ParseSize (Itoa z +:+ String u "") = after_unit z mult.
Proof.
  intros Hz Hu <- Hg Hunit. rewrite Itoa_nonneg by lia.
  destruct (digits_of_ok z) as [Hd Hne]; [lia|].
  change (String u "") with (of_bytes [u]). rewrite <- of_bytes_app.
  unfold ParseSize. rewrite normalise_number by done.
  destruct (is_empty _) eqn:E.
  { guards. apply (of_bytes_inj _ []) in E. by destruct (digits_of z). }
  rewrite Hunit.
  rewrite (ParseInt_digits z) by (done || lia || (unfold int64, int64_min in *; lia)).
  by rewrite (proj2 (Z.ltb_ge z 0)) by lia.
Qed.

(** A decimal number with a unit is read as the 64-bit product of the number
    and the unit: the exact product while that fits, and what wrapping leaves of
    it otherwise. *)
Theorem ParseSize_number z u mult :
  (u, mult) ∈ size_units → 0 ≤ z ≤ int64_max →
  ParseSize (Itoa z +:+ u) = Ok (wrap64 (z * mult)).
Proof.
  intros Hin Hz. unfold size_units in Hin.
  apply elem_of_cons in Hin as [[= -> ->]|Hin]; [by rewrite append_empty_r; apply ParseSize_plain|].
  repeat (apply elem_of_cons in Hin as [[= -> ->]|Hin];
    [eapply ParseSize_unit; [done|done|reflexivity|done|];
     unfold size_unit; rewrite !HasSuffix_one; simpl; by rewrite TrimSuffix_one|]).
  by apply not_elem_of_nil in Hin.
Qed.

Lemma ParseDuration_plain z : 0 ≤ z ≤ int64_max → ParseDuration (Itoa z) = after_unit z 1.
Proof.
  intros Hz. rewrite Itoa_nonneg by lia. destruct (digits_of_ok z) as [Hd Hne]; [lia|].
  unfold ParseDuration. rewrite normalise_digits by done. unfold duration_unit.
  rewrite !digits_no_unit by done.
  destruct (is_empty _) eqn:E; guards; [by apply (of_bytes_inj _ []) in E|].
  unfold Atoi. rewrite (ParseInt_digits z) by (done || lia || (unfold int64, int64_min in *; lia)).
  by rewrite (proj2 (Z.ltb_ge z 0)) by lia.
Qed.

Lemma ParseDuration_unit z u v mult :
  0 ≤ z ≤ int64_max → ascii_char u → lower_byte u = v → graphic v →
  duration_unit (of_bytes (digits_of z ++ [v])) = (mult, of_bytes (digits_of z)) →
  ParseDuration (Itoa z +:+ String u "") = after_unit z mult.
Proof.
  intros Hz Hu <- Hg Hunit. rewrite Itoa_nonneg by lia.
  destruct (digits_of_ok z) as [Hd Hne]; [lia|].
  change (String u "") with (of_bytes [u]). rewrite <- of_bytes_app.
  unfold ParseDuration. rewrite normalise_number by done.
  destruct (is_empty _) eqn:E.
  { guards. apply (of_bytes_inj _ []) in E. by destruct (digits_of z). }
  rewrite Hunit. unfold Atoi.
  rewrite (ParseInt_digits z) by (done || lia || (unfold int64, int64_min in *; lia)).
  by rewrite (proj2 (Z.ltb_ge z 0)) by lia.
Qed.

(** The same for a duration, whose units are seconds, minutes, hours and days. *)
Theorem ParseDuration_number z u mult :
  (u, mult) ∈ duration_units → 0 ≤ z ≤ int64_max →
  ParseDuration (Itoa z +:+ u) = Ok (wrap64 (z * mult)).
Proof.
  intros Hin Hz. unfold duration_units in Hin.
  apply elem_of_cons in Hin as [[= -> ->]|Hin];
    [by rewrite append_empty_r; apply ParseDuration_plain|].
  repeat (apply elem_of_cons in Hin as [[= -> ->]|Hin];
    [eapply ParseDuration_unit; [done|done|reflexivity|done|];
     unfold duration_unit; rewrite !HasSuffix_one; simpl; by rewrite TrimSuffix_one|]).
  by apply not_elem_of_nil in Hin.
Qed.

(** Whatever the text, an accepted size is a 64-bit integer that is at least
    minus 2^63, and not negative unless the multiplication wrapped. *)
Lemma ParseSize_range raw n : ParseSize raw = Ok n → int64 n.
Proof.
  unfold ParseSize. destruct (is_empty _).
  - intros [= <-]. by unfold int64, int64_min, int64_max.
  - destruct (size_unit _) as [mult text]. destruct (ParseInt _) as [m|]; [|done].
    destruct (m <? 0); [done|]. intros [= <-]. apply wrap64_range.
Qed.
End numbers.

Theorem ParseSize_number_witness :
  ("g", 2 ^ 30) ∈ size_units ∧ 0 ≤ 17179869185 ≤ int64_max ∧
  @ParseSize ascii_tables (Itoa 17179869185 +:+ "g") = Ok (2 ^ 30).
Proof.
  split; [unfold size_units; set_solver|]. split; [done|].
  rewrite (@ParseSize_number ascii_tables 17179869185 "g" (2 ^ 30)); [reflexivity| |done].
  unfold size_units; set_solver.
Defined.

Theorem ParseDuration_number_witness :
  ("D", 86400) ∈ duration_units ∧ 0 ≤ 7 ≤ int64_max ∧
  @ParseDuration ascii_tables (Itoa 7 +:+ "D") = Ok 604800.
Proof.
  split; [unfold duration_units; set_solver|]. split; [done|].
  rewrite (@ParseDuration_number ascii_tables 7 "D" 86400); [reflexivity| |done].
  unfold duration_units; set_solver.
Defined.
