(* ===== verification/Protocol.v ===== *)
(** * internal/protocol: the messages of the bus

    The request the module sends, the reply the inspector gives, and the checks
    both pass through. A record's fields carry the name of their Go struct. *)
From S2P Require Import Prelude GoString.

Definition Version : Z := 2.

Record TLS := { TLS_Version : string; TLS_SNI : string; TLS_JA4 : string }.

Record Conn := {
  Conn_ClientIP : string; Conn_ClientPort : Z;
  Conn_ServerIP : string; Conn_ServerPort : Z;
  Conn_TLS : option TLS
}.

Record Header := { Header_Name : string; Header_Value : string }.

Record HTTP := {
  HTTP_Method : string; HTTP_Scheme : string; HTTP_Host : string;
  HTTP_URI : string; HTTP_ArgsSize : Z; HTTP_Version : string
}.

Record Response := {
  Response_Status : Z; Response_Headers : list Header; Response_UpstreamMS : Z
}.

Record Enc := { Enc_Alg : string; Enc_KID : string; Enc_Nonce : string }.

Record Locator := {
  Locator_Store : string; Locator_Driver : string; Locator_Key : string;
  Locator_Unavailable : string; Locator_Size : Z; Locator_DeclaredSize : Z;
  Locator_SHA256 : string; Locator_ProcessedSHA256 : string;
  Locator_Transformed : bool; Locator_Complete : bool; Locator_Truncated : bool;
  Locator_Encoding : string; Locator_ExpiresAt : Z; Locator_Hint : string;
  Locator_Enc : option Enc
}.

Definition Locator_Placed (l : option Locator) : bool :=
  match l with
  | None => false
  | Some l => is_empty (Locator_Unavailable l) && negb (is_empty (Locator_Driver l)) &&
              negb (is_empty (Locator_Key l))
  end.

Record Store := {
  Store_Headers : option Locator; Store_Args : option Locator; Store_Body : option Locator
}.

Record Route := { Route_ServerName : string; Route_Location : string; Route_Profile : string }.

Record ScoreState := { ScoreState_Total : Z; ScoreState_DenyAt : Z }.

Definition DoChallenge := "challenge".
Definition DoThreshold := "threshold".
Definition DoSkip := "skip".
Definition DoReauth := "reauth".
Definition DoNote := "note".
Definition DoMutate := "mutate".
Definition DoActive := "active".
Definition DoPassive := "passive".
Definition DoOff := "off".
Definition DoVote := "vote".
Definition DoAudit := "audit".
Definition DoArchive := "archive".
Definition DoMark := "mark".
Definition DoScore := "score".

Definition ApplyRequest := "request".
Definition ApplyIP := "ip".
Definition ApplyASN := "asn".
Definition ApplySession := "session".
Definition ApplyConn := "conn".
Definition ApplyResponse := "response".

Record ObjectSpec := {
  ObjectSpec_Set : string; ObjectSpec_Limit : Z; ObjectSpec_Source : string
}.

Record Action := {
  Action_To : string; Action_Do : string; Action_Apply : string; Action_Phase : string;
  Action_Code : string; Action_Delta : Z; Action_Value : Z; Action_Counter : string;
  Action_Marker : string; Action_Group : string; Action_Set : string;
  Action_TTL : option Z; Action_When : list string;
  Action_Headers : option ObjectSpec; Action_Args : option ObjectSpec;
  Action_Body : option ObjectSpec
}.

Record PriorVerdict := {
  PriorVerdict_Phase : string; PriorVerdict_Inspector : string;
  PriorVerdict_Verdict : string; PriorVerdict_Score : Z;
  PriorVerdict_Actions : list Action
}.

Definition ArchiveWhen : list string := ["allow"; "deny"].

Section when.
Context `{Unicode}.

(** The words of [when], normalised, unless one is unknown or repeated. *)
Fixpoint archive_words (seen : list string) (words : list string) : result (list string) :=
  match words with
  | [] => Ok seen
  | word :: words =>
      let name := ToLower (TrimSpace word) in
      if negb (name =s? "allow") && negb (name =s? "deny")
      then errorf "when accepts only allow and deny, got %q"
      else if has_string seen name then errorf "when lists %q twice"
      else archive_words (name :: seen) words
  end.

Definition CheckArchiveWhen (words : list string) : result (list string) :=
  seen ← archive_words [] words;
  Ok (List.filter (has_string seen) ArchiveWhen).
End when.

Definition CheckObjectSpec (name : string) (o : option ObjectSpec) (audit : bool) : result unit :=
  match o with
  | None => Ok tt
  | Some o =>
      if negb (is_empty (ObjectSpec_Set o)) && negb (ObjectSpec_Set o =s? "on") &&
         negb (ObjectSpec_Set o =s? "off")
      then errorf "%s.set must be on or off, got %q"
      else if ObjectSpec_Limit o <? 0 then errorf "%s.limit must not be negative"
      else if negb (is_empty (ObjectSpec_Source o)) && negb (ObjectSpec_Source o =s? "store") &&
              negb (ObjectSpec_Source o =s? "original")
      then errorf "%s.source must be store or original, got %q"
      else Ok tt
  end.

Definition Scope (a : Action) : string :=
  if is_empty (Action_Apply a) then ApplyRequest else Action_Apply a.

Record Stream := {
  Stream_Protocol : string; Stream_Direction : string; Stream_Opcode : string;
  Stream_Fin : bool; Stream_Subprotocol : string
}.

Record Release := { Release_Token : string; Release_Reason : string }.

Record Resume := { Resume_Want : bool; Resume_Token : string; Resume_Require : bool }.

Record Request := {
  V : Z; RID : string; Ray : string; Phase : string; Wave : Z; Inspector : string;
  DeadlineMS : Z; AuditSubject : option string; Node : string;
  Request_Conn : Conn; Request_HTTP : HTTP; Vars : gmap string string;
  Needs : list string; Request_Store : Store; Request_Route : Route;
  Request_Score : ScoreState; Prior : list PriorVerdict;
  Request_Response : option Response; RequestStore : Store;
  Request_Resume : option Resume; Request_Release : option Release;
  ConnID : string; Seq : Z; Request_Stream : option Stream
}.

Definition PhaseRequest := "request".
Definition PhaseResponse := "response".
Definition PhaseFrame := "frame".

Definition NeedHeaders := "headers".
Definition NeedArgs := "args".
Definition NeedBody := "body".

Definition Needed (r : Request) (obj : string) : bool := has_string (Needs r) obj.

Definition VerdictAllow := "allow".
Definition VerdictScore := "score".
Definition VerdictRedirect := "redirect".
Definition VerdictDeny := "deny".
Definition VerdictError := "error".

Record Reason := { Reason_Code : string; Reason_Class : string }.

Record ResponseRef := { ResponseRef_Name : string }.

Record RedirectRef := { RedirectRef_URL : string; RedirectRef_Status : Z }.

Record HeaderOps := { HeaderOps_Set : gmap string string; HeaderOps_Unset : list string }.

Record Continue := { Continue_Subject : string; Continue_TTLMS : Z }.

Record Reply := {
  Reply_V : Z; Reply_RID : string; Reply_Inspector : string; Reply_Verdict : string;
  Reply_Score : option Z; Reply_Reason : option Reason;
  Reply_Response : option ResponseRef; Reply_Redirect : option RedirectRef;
  Reply_Headers : option HeaderOps; Reply_Continue : option Continue;
  Reply_Actions : list Action
}.

(** *** Parsing *)

Record ParseError := { ParseError_RID : string; ParseError_Err : error }.

Definition locator_validate (l : option Locator) : result unit :=
  match l with
  | None => Ok tt
  | Some l =>
      if negb (is_empty (Locator_Unavailable l)) &&
         (negb (is_empty (Locator_Driver l)) || negb (is_empty (Locator_Key l)))
      then errorf "store.%s mixes unavailable with an address"
      else if negb (Bool.eqb (is_empty (Locator_Driver l)) (is_empty (Locator_Key l)))
      then errorf "store.%s names a store without driver or key"
      else Ok tt
  end.

Definition store_locators (s : Store) : list (option Locator) :=
  [Store_Headers s; Store_Args s; Store_Body s].

(** [ridPattern] at the head of the input: the member name, white space around
    the colon, and a quoted run of 1 to 32 hexadecimal digits, the submatch. *)
Definition regexp_space (c : ascii) : bool :=
  Ascii.eqb c " " || in_range 9 10 (code c) || in_range 12 13 (code c).
Definition hex_char (c : ascii) : bool :=
  between 48 57 c || between 97 102 c || between 65 70 c.

Fixpoint span_hex (l : list ascii) : list ascii * list ascii :=
  match l with
  | c :: l' => if hex_char c then let '(h, r) := span_hex l' in (c :: h, r) else ([], l)
  | [] => ([], [])
  end.

Definition quote : ascii := byte 34.

Definition match_rid (l : list ascii) : option (list ascii) :=
  let name := (quote :: bytes "rid" ++ [quote])%list in
  if lprefix name l then
    match drop_while regexp_space (drop (length name) l) with
    | colon :: l =>
        if Ascii.eqb colon ":" then
          match drop_while regexp_space l with
          | q :: l =>
              if Ascii.eqb q quote then
                let '(hex, rest) := span_hex l in
                match rest with
                | q' :: _ =>
                    if Ascii.eqb q' quote && (1 <=? len hex) && (len hex <=? 32)
                    then Some hex else None
                | [] => None
                end
              else None
          | [] => None
          end
        else None
    | [] => None
    end
  else None.

Fixpoint find_rid (l : list ascii) : string :=
  match l with
  | [] => ""
  | _ :: l' =>
      match match_rid l with
      | Some hex => of_bytes hex
      | None => find_rid l'
      end
  end.
Definition sniffRID (payload : string) : string := find_rid (bytes payload).

(** [unmarshal] is [json.Unmarshal] into a fresh request, which
    [Messages.UnmarshalRequest] makes concrete. The code ranges over a
    Go map of locators: with two bad ones, which error is reported is not fixed;
    this model reports the first in the order of the fields. *)
Section parse.
Context (unmarshal : string → result Request).

Definition reject (rid : string) (e : error) : Request + ParseError :=
  inr {| ParseError_RID := rid; ParseError_Err := e |}.

Definition Parse (payload : string) : Request + ParseError :=
  match unmarshal payload with
  | Err e => reject (sniffRID payload) (Wrapf "invalid json: %w" e)
  | Ok req =>
      let bad fmt := reject (RID req) (Errorf fmt) in
      if is_empty (RID req) then reject "" (Errorf "field rid is missing or empty")
      else if V req =? 0 then bad "field v is missing"
      else if is_empty (Inspector req) then bad "field inspector is missing or empty"
      else if negb (Phase req =s? PhaseRequest) && negb (Phase req =s? PhaseResponse) &&
              negb (Phase req =s? PhaseFrame)
      then bad "field phase is invalid: %q"
      else
        match Request_Release req with
        | Some release =>
            if is_empty (Release_Token release) then bad "section release has no token"
            else inl req
        | None =>
            if is_empty (HTTP_Method (Request_HTTP req)) || is_empty (HTTP_URI (Request_HTTP req))
            then bad "section http has no method or uri"
            else
              match for_each (λ _, locator_validate) 0
                      (store_locators (Request_Store req) ++ store_locators (RequestStore req)) with
              | Err e => reject (RID req) e
              | Ok _ => inl req
              end
        end
  end.
End parse.

(** *** Replies *)

Definition NewReply (req : Request) (verdict : string) : Reply := {|
  Reply_V := V req; Reply_RID := RID req; Reply_Inspector := Inspector req;
  Reply_Verdict := verdict; Reply_Score := None; Reply_Reason := None;
  Reply_Response := None; Reply_Redirect := None; Reply_Headers := None;
  Reply_Continue := None; Reply_Actions := []
|}.

(** Assignments to the fields of a reply the code holds a pointer to. *)
Definition set_V (v : Z) (r : Reply) : Reply := {|
  Reply_V := v; Reply_RID := Reply_RID r; Reply_Inspector := Reply_Inspector r;
  Reply_Verdict := Reply_Verdict r; Reply_Score := Reply_Score r;
  Reply_Reason := Reply_Reason r; Reply_Response := Reply_Response r;
  Reply_Redirect := Reply_Redirect r; Reply_Headers := Reply_Headers r;
  Reply_Continue := Reply_Continue r; Reply_Actions := Reply_Actions r
|}.
Definition set_score (verdict : string) (score : option Z) (r : Reply) : Reply := {|
  Reply_V := Reply_V r; Reply_RID := Reply_RID r; Reply_Inspector := Reply_Inspector r;
  Reply_Verdict := verdict; Reply_Score := score;
  Reply_Reason := Reply_Reason r; Reply_Response := Reply_Response r;
  Reply_Redirect := Reply_Redirect r; Reply_Headers := Reply_Headers r;
  Reply_Continue := Reply_Continue r; Reply_Actions := Reply_Actions r
|}.
Definition set_reason (reason : option Reason) (r : Reply) : Reply := {|
  Reply_V := Reply_V r; Reply_RID := Reply_RID r; Reply_Inspector := Reply_Inspector r;
  Reply_Verdict := Reply_Verdict r; Reply_Score := Reply_Score r;
  Reply_Reason := reason; Reply_Response := Reply_Response r;
  Reply_Redirect := Reply_Redirect r; Reply_Headers := Reply_Headers r;
  Reply_Continue := Reply_Continue r; Reply_Actions := Reply_Actions r
|}.
Definition set_response (resp : option ResponseRef) (r : Reply) : Reply := {|
  Reply_V := Reply_V r; Reply_RID := Reply_RID r; Reply_Inspector := Reply_Inspector r;
  Reply_Verdict := Reply_Verdict r; Reply_Score := Reply_Score r;
  Reply_Reason := Reply_Reason r; Reply_Response := resp;
  Reply_Redirect := Reply_Redirect r; Reply_Headers := Reply_Headers r;
  Reply_Continue := Reply_Continue r; Reply_Actions := Reply_Actions r
|}.
Definition set_actions (actions : list Action) (r : Reply) : Reply := {|
  Reply_V := Reply_V r; Reply_RID := Reply_RID r; Reply_Inspector := Reply_Inspector r;
  Reply_Verdict := Reply_Verdict r; Reply_Score := Reply_Score r;
  Reply_Reason := Reply_Reason r; Reply_Response := Reply_Response r;
  Reply_Redirect := Reply_Redirect r; Reply_Headers := Reply_Headers r;
  Reply_Continue := Reply_Continue r; Reply_Actions := actions
|}.

Definition ErrorReply (req : Request) (code : string) : Reply :=
  set_reason (Some {| Reason_Code := code; Reason_Class := "" |}) (NewReply req VerdictError).

Definition ClassOverload := "overload".

Definition ShedReply (req : Request) (code : string) : Reply :=
  set_reason (Some {| Reason_Code := code; Reason_Class := ClassOverload |}) (ErrorReply req code).

Definition FallbackReply (rid inspector code : string) : Reply := {|
  Reply_V := Version; Reply_RID := rid; Reply_Inspector := inspector;
  Reply_Verdict := VerdictError; Reply_Score := None;
  Reply_Reason := Some {| Reason_Code := code; Reason_Class := "" |};
  Reply_Response := None; Reply_Redirect := None; Reply_Headers := None;
  Reply_Continue := None; Reply_Actions := []
|}.

Definition score_in_range (score : Z) : bool := (0 <=? score) && (score <=? 100).

Definition WithScore (r : Reply) (score : Z) : result Reply :=
  if (score <? 0) || (100 <? score) then Err (Wrapf "%w: %d" ErrScoreRange)
  else Ok (set_score VerdictScore (Some score) r).

(** [Marshal] before [json.Marshal]: the reply that goes to the bus. *)
Definition Marshal (r : Reply) : result Reply :=
  match Reply_Score r with
  | Some score =>
      if (score <? 0) || (100 <? score) then Err (Wrapf "%w: %d" ErrScoreRange) else Ok r
  | None => Ok r
  end.

(** *** Markers *)

Definition MarkerMax : Z := 128.

Definition control_char (c : ascii) : bool := (code c <? 32) || (code c =? 127).

Definition CheckMarker (marker : string) : result unit :=
  match bytes marker with
  | [] => errorf "mark needs a marker"
  | first :: _ =>
      if MarkerMax <? slen marker then errorf "marker is longer than %d bytes"
      else if existsb control_char (bytes marker) then errorf "marker has a control character"
      else if Ascii.eqb first " " || Ascii.eqb (List.last (bytes marker) first) " "
      then errorf "marker has a leading or trailing space"
      else Ok tt
  end.

(** ** Theorems *)

(** A locator the module may send: an address, the reason there is none, or
    neither. *)
Definition locator_wf (l : Locator) : Prop :=
  (Locator_Driver l = "" ↔ Locator_Key l = "") ∧
  (Locator_Unavailable l ≠ "" → Locator_Driver l = "").

Definition opt_locator_wf (l : option Locator) : Prop :=
  match l with Some l => locator_wf l | None => True end.

Lemma locator_validate_ok l : locator_validate l = Ok tt ↔ opt_locator_wf l.
Proof.
  destruct l as [l|]; [|done]. unfold locator_validate, opt_locator_wf, locator_wf, is_empty.
  destruct (String.eqb_spec (Locator_Unavailable l) "");
    destruct (String.eqb_spec (Locator_Driver l) "");
    destruct (String.eqb_spec (Locator_Key l) ""); simpl; naive_solver.
Qed.

(** The request the inspector works on. *)
Record request_wf (req : Request) : Prop := {
  wf_rid : RID req ≠ "";
  wf_v : V req ≠ 0;
  wf_inspector : Inspector req ≠ "";
  wf_phase : Phase req = PhaseRequest ∨ Phase req = PhaseResponse ∨ Phase req = PhaseFrame;
  wf_release : ∀ r, Request_Release req = Some r → Release_Token r ≠ "";
  wf_http : Request_Release req = None →
    HTTP_Method (Request_HTTP req) ≠ "" ∧ HTTP_URI (Request_HTTP req) ≠ "";
  wf_locators : Request_Release req = None →
    Forall opt_locator_wf (store_locators (Request_Store req) ++ store_locators (RequestStore req))
}.

Lemma phase_check_false p :
  negb (p =s? PhaseRequest) && negb (p =s? PhaseResponse) && negb (p =s? PhaseFrame) = false ↔
  p = PhaseRequest ∨ p = PhaseResponse ∨ p = PhaseFrame.
Proof.
  destruct (String.eqb_spec p PhaseRequest), (String.eqb_spec p PhaseResponse),
    (String.eqb_spec p PhaseFrame); naive_solver.
Qed.

Lemma for_each_locators l :
  for_each (λ _, locator_validate) 0 l = Ok tt ↔ Forall opt_locator_wf l.
Proof. apply for_each_ok. intros _ x. apply locator_validate_ok. Qed.

Lemma Parse_request unmarshal payload req :
  Parse unmarshal payload = inl req ↔ unmarshal payload = Ok req ∧ request_wf req.
Proof.
  unfold Parse, reject. destruct (unmarshal payload) as [q|e]; [|naive_solver].
  destruct (is_empty (RID q)) eqn:E1; guards.
  { split; [done|]. intros [[= <-] []]. done. }
  destruct (V q =? 0) eqn:E2; guards.
  { split; [done|]. intros [[= <-] []]. done. }
  destruct (is_empty (Inspector q)) eqn:E3; guards.
  { split; [done|]. intros [[= <-] []]. done. }
  destruct (_ && negb (Phase q =s? PhaseFrame)) eqn:E4.
  { split; [done|]. intros [[= <-] []]. apply not_false_iff_true in E4 as [].
    by apply phase_check_false. }
  apply phase_check_false in E4.
  destruct (Request_Release q) as [r|] eqn:E5.
  - destruct (is_empty (Release_Token r)) eqn:E6; guards.
    + split; [done|]. intros [[= <-] [? ? ? ? Hr]]. by destruct (Hr r E5).
    + split; [intros [= <-]|by intros [[= <-] _]].
      split; [done|]. split; try done; intros; congruence.
  - destruct (is_empty (HTTP_Method _) || _) eqn:E6.
    { split; [done|]. intros [[= <-] [? ? ? ? ? Hh]]. destruct (Hh E5).
      guards. naive_solver. }
    destruct (for_each _ _ _) as [[]|e] eqn:E7.
    + apply for_each_locators in E7.
      split; [intros [= <-]|by intros [[= <-] _]].
      split; [done|]. guards. split; try done; intros; congruence || naive_solver.
    + split; [done|]. intros [[= <-] [? ? ? ? ? ? Hl]].
      apply Hl, for_each_locators in E5. congruence.
Qed.

(** [Parse] accepts exactly the payloads that decode to a well-formed request,
    and hands that request over unchanged. *)
Theorem Parse_accepts unmarshal payload req :
  Parse unmarshal payload = inl req ↔ unmarshal payload = Ok req ∧ request_wf req.
Proof. exact (Parse_request unmarshal payload req). Qed.

Section when_spec.
Context `{Unicode}.

Definition when_word (word : string) : string := ToLower (TrimSpace word).

Lemma archive_words_ok seen words s :
  archive_words seen words = Ok s ↔
  s = rev (when_word <$> words) ++ seen ∧ Forall (.∈ ArchiveWhen) (when_word <$> words) ∧
  NoDup (when_word <$> words) ∧ (∀ w, w ∈ when_word <$> words → w ∉ seen).
Proof.
  revert seen. induction words as [|word words IH]; intros seen; simpl.
  { split; [intros [= ->]|by intros (-> & _)].
    split_and!; [done|constructor|constructor|by intros ? ?%not_elem_of_nil]. }
  fold (when_word word). rewrite Forall_cons, NoDup_cons.
  destruct (negb (when_word word =s? "allow") && negb (when_word word =s? "deny")) eqn:Ew.
  { split; [done|]. intros (_ & [Hw _] & _). exfalso. unfold ArchiveWhen in Hw.
    guards. rewrite !elem_of_cons in Hw. set_solver. }
  assert (when_word word ∈ ArchiveWhen) as Hw.
  { unfold ArchiveWhen. rewrite !elem_of_cons. guards. tauto. }
  destruct (has_string seen (when_word word)) eqn:Es.
  { split; [done|]. intros (_ & _ & _ & Hd). apply has_string_spec in Es.
    exfalso. apply (Hd (when_word word)); [set_solver|done]. }
  apply has_string_false in Es. rewrite IH, <- app_assoc. split.
  - intros (-> & Hf & Hn & Hd). split_and!; try done; set_solver.
  - intros (-> & [_ Hf] & [Hnot Hn] & Hd). split_and!; try done. set_solver.
Qed.

Lemma filter_words_rev (l : list string) :
  List.filter (has_string (rev l)) ArchiveWhen = List.filter (has_string l) ArchiveWhen.
Proof.
  apply filter_ext. intros w. apply eq_true_iff_eq. rewrite !has_string_spec.
  rewrite !list_elem_of_In. symmetry. apply in_rev.
Qed.

Lemma CheckArchiveWhen_ok words out :
  CheckArchiveWhen words = Ok out ↔
  Forall (.∈ ArchiveWhen) (when_word <$> words) ∧ NoDup (when_word <$> words) ∧
  out = List.filter (has_string (when_word <$> words)) ArchiveWhen.
Proof.
  unfold CheckArchiveWhen. rewrite <- filter_words_rev, <- (app_nil_r (rev _)).
  split.
  - intros (s & Hs & Ho)%bind_ok. apply archive_words_ok in Hs as (-> & ? & ? & _).
    injection Ho as Ho. split_and!; [done|done|]. symmetry. exact Ho.
  - intros (Hf & Hn & ->).
    rewrite (proj2 (archive_words_ok [] words (rev (when_word <$> words) ++ []))); [done|].
    split_and!; try done. by intros ? _ ?%not_elem_of_nil.
Qed.

(** [CheckArchiveWhen] accepts the lists of different words, each [allow] or
    [deny] once blanks and case are dropped, and puts them in a fixed order. *)
Theorem CheckArchiveWhen_spec words out :
  CheckArchiveWhen words = Ok out ↔
  Forall (.∈ ArchiveWhen) (when_word <$> words) ∧ NoDup (when_word <$> words) ∧
  out = List.filter (has_string (when_word <$> words)) ArchiveWhen.
Proof. exact (CheckArchiveWhen_ok words out). Qed.

(** An accepted list is a fixed point: checking it again changes nothing. *)
Lemma CheckArchiveWhen_canonical words out :
  CheckArchiveWhen words = Ok out → out = [] ∨ out = ["allow"] ∨ out = ["deny"] ∨ out = ArchiveWhen.
Proof.
  intros (_ & _ & ->)%CheckArchiveWhen_ok. unfold ArchiveWhen. simpl.
  destruct (has_string _ "allow"), (has_string _ "deny"); auto.
Qed.
End when_spec.

(** ** A request to evaluate things on *)

Definition no_store : Store := {| Store_Headers := None; Store_Args := None; Store_Body := None |}.

Definition sample_request (phase : string) : Protocol.Request := {|
  V := 2; RID := "a1"; Ray := "ray"; Phase := phase; Wave := 0; Inspector := "json";
  DeadlineMS := 100; AuditSubject := None; Node := "n1";
  Request_Conn := {| Conn_ClientIP := "192.0.2.1"; Conn_ClientPort := 1; Conn_ServerIP := "";
                     Conn_ServerPort := 443; Conn_TLS := None |};
  Request_HTTP := {| HTTP_Method := "POST"; HTTP_Scheme := "https"; HTTP_Host := "example.org";
                     HTTP_URI := "/pets?x=1"; HTTP_ArgsSize := 3; HTTP_Version := "1.1" |};
  Vars := ∅; Needs := ["body"; "args"]; Request_Store := no_store;
  Request_Route := {| Route_ServerName := ""; Route_Location := ""; Route_Profile := "shop" |};
  Request_Score := {| ScoreState_Total := 0; ScoreState_DenyAt := 0 |}; Prior := [];
  Request_Response := None; RequestStore := no_store; Request_Resume := None;
  Request_Release := None; ConnID := ""; Seq := 0; Request_Stream := None
|}.
