(* ===== verification/Profile.v ===== *)
(** * internal/config/profile.go and internal/overload: profiles

    A profile is the contract source, what to check in each phase, what each
    mismatch costs, and the outcomes that fire on a verdict. This file has its
    types and defaults, the parsers of sizes and durations, the matching of
    bindings, and the checks a profile passes before it is used. *)
From S2P Require Import Prelude GoString Protocol.

Definition ModeEnforce := "enforce".
Definition ModeObserve := "observe".
Definition ModeOff := "off".

Definition KindOpenAPI := "openapi".
Definition KindJSONSchema := "jsonschema".

Definition ActionDeny := "deny".
Definition ActionScore := "score".
Definition ActionAllow := "allow".

Definition MatchExact := "exact".
Definition MatchPrefix := "prefix".

Definition OnDeny := ActionDeny.
Definition OnAllow := ActionAllow.
Definition OnScore := ActionScore.

Definition WriteAddr := "addr".
Definition WriteNet := "net".
Definition WriteNetAll := "net_all".
Definition WriteASN := "asn".

Definition AuditValuesOff := "off".
Definition AuditValuesHash := "hash".

Definition DefaultName := "default".
Definition ProbeName := "_probe".
Definition SchemaFilePrefix := "schema-".

(** *** internal/overload *)

Definition OnOverload := "overload".
Definition AtMin : Z := 25.
Definition AtMax : Z := 100.

Definition overload_At (at_ : option Z) : Z :=
  match at_ with None => AtMax | Some a => a end.

Definition overload_Check (at_ : option Z) : result unit :=
  match at_ with
  | None => Ok tt
  | Some a =>
      if (a <? AtMin) || (AtMax <? a)
      then errorf "at %d is out of %d..%d percent of the queue" else Ok tt
  end.

Definition overload_Fires (at_ fill : Z) (shed : bool) : bool :=
  if shed then true else (at_ <? AtMax) && (at_ <=? fill).

(** *** The regular expressions *)

Definition ascii_alnum (c : ascii) : bool :=
  between 65 90 c || between 97 122 c || between 48 57 c.

(** [^[A-Za-z0-9][A-Za-z0-9._-]*$] *)
Definition nameRe (s : string) : bool :=
  match bytes s with
  | [] => false
  | c :: l => ascii_alnum c &&
      forallb (λ c, ascii_alnum c || Ascii.eqb c "." || Ascii.eqb c "_" || Ascii.eqb c "-") l
  end.

(** [^[A-Z]+$] *)
Definition methodRe (s : string) : bool :=
  match bytes s with [] => false | l => forallb (between 65 90) l end.

(** [^[A-Z][A-Z0-9_]{0,63}$] *)
Definition codeRe (s : string) : bool :=
  match bytes s with
  | [] => false
  | c :: l => between 65 90 c &&
      forallb (λ c, between 65 90 c || between 48 57 c || Ascii.eqb c "_") l && (len l <=? 63)
  end.

(** *** The data *)

Record Schema := { Schema_Kind : string; Schema_Source : string; Schema_BasePath : string }.

Record Rule := { Rule_Action : string; Rule_Score : Z }.

Record RequestRules := {
  Req_Invalid : Rule; Req_Unparsable : Rule; Req_Truncated : Rule;
  Req_UnknownOperation : Rule; Req_ContentType : Rule; Req_Unavailable : Rule
}.

Record ResponseRules := { Resp_RequestRules : RequestRules; Resp_Status : Rule }.

Record RequestChecks := {
  ReqCheck_Body : bool; ReqCheck_Query : bool; ReqCheck_PathParams : bool; ReqCheck_Headers : bool
}.

Record ResponseChecks := {
  RespCheck_Body : bool; RespCheck_Status : bool; RespCheck_ContentType : bool
}.

Record Outcome := {
  On : string; At : option Z; Below : bool; Eq : bool;
  To : string; Do : string; Apply : string; Outcome_Phase : string;
  Delta : option Z; Outcome_Value : option Z; Counter : string; Group : string; Outcome_Set : string;
  Outcome_Headers : option ObjectSpec; Outcome_Args : option ObjectSpec;
  Outcome_Body : option ObjectSpec; When : list string;
  Marker : string; List : string; Write : string; TTL : Z; Code : string
}.

Record RequestPhase := {
  Req_Enabled : bool; Req_Checks : RequestChecks; Req_Policy : RequestRules;
  Req_DenyResponse : string; Req_Outcomes : list Outcome
}.

Record ResponsePhase := {
  Resp_Enabled : bool; Resp_Checks : ResponseChecks; Resp_Policy : ResponseRules;
  Resp_OnlyTypes : list string; Resp_DenyResponse : string; Resp_Outcomes : list Outcome
}.

Record Binding := {
  Binding_Methods : list string; Binding_Path : string;
  Binding_Match : string; Binding_Schema : string
}.

Record Discriminator := { Pointer : string; Discriminator_Value : string }.

Record FrameBinding := {
  FB_Path : string; FB_Match : string; FB_Direction : string; FB_Subprotocol : string;
  FB_Discriminator : option Discriminator; FB_Schema : string
}.

(** [FrameChecks] has one field. *)
Record FrameChecks := { FrameCheck_Body : bool }.

Record FrameRules := {
  Frame_Invalid : Rule; Frame_Unparsable : Rule; Frame_Truncated : Rule;
  Frame_UnknownOperation : Rule; Frame_Opcode : Rule; Frame_Unavailable : Rule
}.

Record FrameDirection := {
  Dir_Checks : FrameChecks; Dir_Policy : FrameRules;
  Dir_DenyResponse : string; Dir_Outcomes : list Outcome
}.

Record FramePhase := {
  Frame_Enabled : bool; Frame_Bindings : list FrameBinding;
  C2S : FrameDirection; S2C : FrameDirection
}.

Definition DirectionC2S := "c2s".
Definition DirectionS2C := "s2c".
Definition DirectionAny := "any".

Definition OpcodeText := "text".
Definition OpcodeBinary := "binary".
Definition OpcodeContinuation := "continuation".

Record Limits := { MaxBody : Z; MaxDepth : Z; MaxErrors : Z; Cache : Z }.

#[export] Instance Limits_eq_dec : EqDecision Limits.
Proof. solve_decision. Defined.

Record Audit := { Audit_Values : string; Audit_Paths : bool }.

Record PriorRule := {
  From : string; Accept : list string; PriorRule_Apply : list string; Codes : list string
}.

(** [Trigger] has one field. *)
Record Trigger := { Trigger_Prior : list PriorRule }.

Record Profile := {
  Name : string; Mode : string; Description : string;
  Profile_Schema : Schema; Profile_Trigger : Trigger;
  Profile_Request : RequestPhase; Profile_Response : ResponsePhase; Profile_Frame : FramePhase;
  Bindings : list Binding; Profile_Limits : Limits; Profile_Audit : Audit;
  Documents : gmap string string
}.

(** *** Defaults *)

Definition rule_deny : Rule := {| Rule_Action := ActionDeny; Rule_Score := 70 |}.
Definition rule_allowReq : Rule := {| Rule_Action := ActionAllow; Rule_Score := 70 |}.
Definition rule_allowRsp : Rule := {| Rule_Action := ActionAllow; Rule_Score := 40 |}.
Definition rule_scoreRsp : Rule := {| Rule_Action := ActionScore; Rule_Score := 40 |}.

Definition defaults (name : string) : Profile := {|
  Name := name; Mode := ModeEnforce; Description := "";
  Profile_Schema := {| Schema_Kind := KindOpenAPI; Schema_Source := ""; Schema_BasePath := "" |};
  Profile_Trigger := {| Trigger_Prior := [] |};
  Profile_Request := {|
    Req_Enabled := true;
    Req_Checks := {| ReqCheck_Body := true; ReqCheck_Query := true;
                     ReqCheck_PathParams := true; ReqCheck_Headers := false |};
    Req_Policy := {|
      Req_Invalid := rule_deny; Req_Unparsable := rule_deny; Req_Truncated := rule_deny;
      Req_UnknownOperation := rule_allowReq; Req_ContentType := rule_allowReq;
      Req_Unavailable := rule_allowReq |};
    Req_DenyResponse := "json_invalid"; Req_Outcomes := [] |};
  Profile_Response := {|
    Resp_Enabled := true;
    Resp_Checks := {| RespCheck_Body := true; RespCheck_Status := true;
                      RespCheck_ContentType := true |};
    Resp_Policy := {|
      Resp_RequestRules := {|
        Req_Invalid := rule_scoreRsp; Req_Unparsable := rule_allowRsp;
        Req_Truncated := rule_allowRsp; Req_UnknownOperation := rule_allowRsp;
        Req_ContentType := rule_allowRsp; Req_Unavailable := rule_allowRsp |};
      Resp_Status := rule_scoreRsp |};
    Resp_OnlyTypes := ["application/json"; "+json"];
    Resp_DenyResponse := "json_response_invalid"; Resp_Outcomes := [] |};
  Profile_Frame := {|
    Frame_Enabled := false; Frame_Bindings := [];
    C2S := {|
      Dir_Checks := {| FrameCheck_Body := true |};
      Dir_Policy := {|
        Frame_Invalid := rule_deny; Frame_Unparsable := rule_deny; Frame_Truncated := rule_deny;
        Frame_UnknownOperation := rule_deny; Frame_Opcode := rule_deny;
        Frame_Unavailable := rule_allowReq |};
      Dir_DenyResponse := "ws_policy"; Dir_Outcomes := [] |};
    S2C := {|
      Dir_Checks := {| FrameCheck_Body := true |};
      Dir_Policy := {|
        Frame_Invalid := rule_scoreRsp; Frame_Unparsable := rule_allowRsp;
        Frame_Truncated := rule_allowRsp; Frame_UnknownOperation := rule_allowRsp;
        Frame_Opcode := rule_allowRsp; Frame_Unavailable := rule_allowRsp |};
      Dir_DenyResponse := "ws_policy"; Dir_Outcomes := [] |} |};
  Bindings := [];
  Profile_Limits := {| MaxBody := 2 ^ 20; MaxDepth := 64; MaxErrors := 20; Cache := 4096 |};
  Profile_Audit := {| Audit_Values := AuditValuesOff; Audit_Paths := true |};
  Documents := ∅
|}.

(** [p.Name = name], and the defaults of the frame bindings. *)
Definition default_binding (b : FrameBinding) : FrameBinding := {|
  FB_Path := FB_Path b;
  FB_Match := if is_empty (FB_Match b) then MatchPrefix else FB_Match b;
  FB_Direction := if is_empty (FB_Direction b) then DirectionAny else FB_Direction b;
  FB_Subprotocol := FB_Subprotocol b; FB_Discriminator := FB_Discriminator b;
  FB_Schema := FB_Schema b
|}.

Definition with_frame_bindings (f : FramePhase) (bs : list FrameBinding) : FramePhase := {|
  Frame_Enabled := Frame_Enabled f; Frame_Bindings := bs; C2S := C2S f; S2C := S2C f
|}.

Definition normalise_profile (name : string) (p : Profile) : Profile := {|
  Name := name; Mode := Mode p; Description := Description p;
  Profile_Schema := Profile_Schema p; Profile_Trigger := Profile_Trigger p;
  Profile_Request := Profile_Request p; Profile_Response := Profile_Response p;
  Profile_Frame := with_frame_bindings (Profile_Frame p)
    (default_binding <$> Frame_Bindings (Profile_Frame p));
  Bindings := Bindings p; Profile_Limits := Profile_Limits p; Profile_Audit := Profile_Audit p;
  Documents := Documents p
|}.

(** [yaml_decode p raw] is yaml.v3's [Decode] into [p] with [KnownFields]. *)
Definition ParseProfile (yaml_decode : Profile → string → result Profile)
    (name raw : string) : result Profile :=
  p ← wrapf "profile %s: %w" (yaml_decode (defaults name) raw);
  Ok (normalise_profile name p).

(** *** Outcomes *)

Definition outcomeVerbs (do : string) : option (list string) :=
  if has_string [DoChallenge; DoThreshold; DoSkip; DoMutate; DoMark; DoScore] do
  then Some [ApplyRequest]
  else if do =s? DoReauth then Some [ApplySession]
  else if do =s? DoNote then Some [ApplyRequest; ApplyIP; ApplyASN; ApplySession]
  else if has_string [DoActive; DoPassive; DoOff; DoVote] do then Some [ApplyRequest; ApplyConn]
  else if has_string [DoAudit; DoArchive] do then Some [ApplyRequest; ApplyResponse]
  else None.

Definition auditVerb (do : string) : bool := (do =s? DoAudit) || (do =s? DoArchive).

Definition recordVerb (do : string) : bool :=
  auditVerb do || (do =s? DoMark) || (do =s? DoScore).

Definition controlVerb (do : string) : bool :=
  (do =s? DoActive) || (do =s? DoPassive) || (do =s? DoOff) || (do =s? DoVote).

Definition checkPhaseAsk (do phase apply : string) : result unit :=
  if is_empty phase then Ok tt
  else if negb (controlVerb do) then errorf "phase is only for active, passive, vote and off"
  else if negb (has_string [PhaseRequest; PhaseResponse; PhaseFrame] phase)
  then errorf "phase must be request, response or frame, got %q"
  else if (apply =s? ApplyConn) && negb (phase =s? PhaseFrame)
  then errorf "apply conn needs phase frame"
  else Ok tt.

Definition Asks (o : Outcome) : bool := negb (is_empty (Do o)).

Definition Subject (o : Outcome) : string :=
  if is_empty (Write o) then WriteAddr else Write o.

Definition Matches (o : Outcome) (verdict : string) (score : Z) : bool :=
  if On o =s? OnAllow then verdict =s? VerdictAllow
  else if On o =s? OnDeny then verdict =s? VerdictDeny
  else if On o =s? OnScore then
    match At o with
    | None => false
    | Some a =>
        if negb (verdict =s? VerdictScore) then false
        else if Eq o then score =? a
        else if Below o then score <? a
        else a <=? score
    end
  else false.

Definition Axis (o : Outcome) : string :=
  if negb (is_empty (Apply o)) then Apply o
  else
    match outcomeVerbs (Do o) with
    | Some axes => if (len axes =? 1) || auditVerb (Do o) then List.hd "" axes else ""
    | None => ""
    end.

Definition checkCode (code : string) : result unit :=
  if is_empty code then Ok tt
  else fail_if (negb (codeRe code)) "code %q is not [A-Z][A-Z0-9_]{0,63}".


(** [*p != nil && f( *p )] *)
Definition opt_holds {A} (o : option A) (f : A → bool) : bool :=
  match o with Some a => f a | None => false end.

(** [p == nil || *p == 0] *)
Definition nil_or_zero (o : option Z) : bool :=
  match o with Some z => z =? 0 | None => true end.

Section validate_outcome.
Context `{Unicode}.

(** The checks of a record verb, audit or archive. *)
Definition validateRecordAsk (o : Outcome) : result unit :=
  let has_objects := is_some (Outcome_Headers o) || is_some (Outcome_Args o) ||
                     is_some (Outcome_Body o) in
  fail_if (negb (is_empty (To o)) && negb (To o =s? "*"))
    "%s: %s takes no to: the module writes the route's own record";;
  fail_if (negb (Outcome_Set o =s? "on") && negb (Outcome_Set o =s? "off"))
    "%s: %s needs set: on or off, got %q";;
  fail_if ((Outcome_Set o =s? "off") &&
           (negb (TTL o =? 0) || negb (is_nil (When o)) || has_objects))
    "%s: ttl, when and objects are only for set on";;
  fail_if ((Do o =s? DoAudit) && (negb (TTL o =? 0) || negb (is_nil (When o))))
    "%s: ttl and when are only for archive";;
  _ ← wrapf "%s: %w" (CheckArchiveWhen (When o));
  fail_if ((Apply o =s? ApplyResponse) && is_some (Outcome_Args o))
    "%s: args has no meaning for the response record";;
  wrapf "%s: %w" (CheckObjectSpec "headers" (Outcome_Headers o) (Do o =s? DoAudit));;
  wrapf "%s: %w" (CheckObjectSpec "args" (Outcome_Args o) (Do o =s? DoAudit));;
  wrapf "%s: %w" (CheckObjectSpec "body" (Outcome_Body o) (Do o =s? DoAudit)).

Definition validateOutcomeAsk (o : Outcome) : result unit :=
  fail_if ((On o =s? OnDeny) && negb (recordVerb (Do o)))
    "%s: deny ends the phase, an ask has nowhere to go";;
  axes ← match outcomeVerbs (Do o) with
         | None => errorf "%s: unknown verb %q"
         | Some axes => Ok axes
         end;
  fail_if (negb (is_empty (Apply o)) && negb (has_string axes (Apply o)))
    "%s: verb %q does not take apply %q";;
  fail_if (is_empty (Apply o) && negb (len axes =? 1) && negb (auditVerb (Do o)))
    "%s: %s needs apply";;
  fail_if (opt_holds (Delta o) (λ d, (d <? -100) || (900 <? d)))
    "%s: delta %d is out of -100..900 percent";;
  fail_if (opt_holds (Outcome_Value o) (λ v, (v <? -100) || (100 <? v)))
    "%s: value %d is out of -100..100 percent";;
  fail_if ((Do o =s? DoThreshold) && nil_or_zero (Delta o)) "%s: threshold needs a non-zero delta";;
  fail_if ((Do o =s? DoNote) && nil_or_zero (Outcome_Value o)) "%s: note needs a non-zero value";;
  (if Do o =s? DoScore then
     fail_if (negb (is_empty (To o)) && negb (To o =s? "*"))
       "%s: %s takes no to: the module adds to the route's own sum";;
     fail_if (nil_or_zero (Outcome_Value o)) "%s: score needs a non-zero value"
   else Ok tt);;
  fail_if (controlVerb (Do o) && (is_empty (To o) || (To o =s? "*")))
    "%s: %s needs to: the module switches one call, not everyone";;
  wrapf "%s: %w" (checkPhaseAsk (Do o) (Outcome_Phase o) (Axis o));;
  (if negb (is_empty (Counter o)) then
     fail_if (negb (Do o =s? DoNote)) "%s: counter is only for %q";;
     fail_if (negb (nameRe (Counter o))) "%s: bad counter name %q"
   else Ok tt);;
  (if Do o =s? DoMutate then
     fail_if (is_empty (Group o)) "%s: mutate needs a group";;
     fail_if (negb (nameRe (Group o))) "%s: bad group name %q";;
     fail_if (negb (Outcome_Set o =s? "on") && negb (Outcome_Set o =s? "off"))
       "%s: mutate needs set: on or off, got %q"
   else fail_if (negb (is_empty (Group o))) "%s: group is only for %q");;
  (if Do o =s? DoMark then
     fail_if (negb (is_empty (To o)) && negb (To o =s? "*"))
       "%s: %s takes no to: the module marks the route's own record";;
     wrapf "%s: %w" (CheckMarker (Marker o))
   else fail_if (negb (is_empty (Marker o))) "%s: marker is only for %q");;
  (if auditVerb (Do o) then validateRecordAsk o else Ok tt);;
  fail_if (negb (auditVerb (Do o)) &&
           (negb (is_nil (When o)) || is_some (Outcome_Headers o) ||
            is_some (Outcome_Args o) || is_some (Outcome_Body o)))
    "%s: when, headers, args and body are only for audit and archive";;
  fail_if (negb (auditVerb (Do o)) && negb (Do o =s? DoMutate) && negb (is_empty (Outcome_Set o)))
    "%s: set is only for mutate, audit and archive".

(** The trigger of the outcome: what [on] goes with. *)
Definition validateOn (section : string) (o : Outcome) : result unit :=
  if (On o =s? OnDeny) || (On o =s? OnAllow) then
    fail_if (is_some (At o)) "%s: at is only for on: score";;
    fail_if (Below o || Eq o) "%s: below and eq are only for on: score"
  else if On o =s? OnScore then
    match At o with
    | None => errorf "%s: on: score needs at"
    | Some a =>
        fail_if ((a <? 0) || (100 <? a)) "%s: at %d is out of 0..100";;
        fail_if (Below o && Eq o) "%s: below and eq are mutually exclusive"
    end
  else if On o =s? OnOverload then
    fail_if (negb (section =s? "request")) "%s: on: %s is only for the request section";;
    wrapf "%s: %w" (overload_Check (At o));;
    fail_if (Below o || Eq o) "%s: below and eq are only for on: score"
  else errorf "%s: unknown on %q".

Definition validateOutcome (section : string) (i : nat) (o : Outcome) : result unit :=
  validateOn section o;;
  wrapf "%s: %w" (checkCode (Code o));;
  fail_if (Asks o && negb (is_empty (List o))) "%s: do and list are mutually exclusive";;
  if Asks o then validateOutcomeAsk o
  else
    fail_if (is_empty (List o)) "%s: neither do nor list";;
    fail_if (negb (nameRe (List o))) "%s: bad dataset name %q";;
    fail_if (negb (has_string [""; WriteAddr; WriteNet; WriteNetAll; WriteASN] (Write o)))
      "%s: write must be %s, %s, %s or %s, got %q";;
    fail_if (TTL o <=? 0) "%s: list needs ttl".
End validate_outcome.

(** *** Rules on the asks of earlier inspectors *)

Definition AnyInspector := "*".

Definition Accepts (r : PriorRule) (verb : string) : bool := has_string (Accept r) verb.

Definition WantsAxis (r : PriorRule) (axis : string) : bool :=
  if is_nil (PriorRule_Apply r) then true else has_string (PriorRule_Apply r) axis.

Definition WantsCode (r : PriorRule) (code : string) : bool :=
  if is_nil (Codes r) then true else has_string (Codes r) code.

Definition validatePriorVerb (_ : nat) (verb : string) : result unit :=
  if has_string ["threshold"; "skip"] verb then Ok tt
  else if has_string ["challenge"; "reauth"; "note"] verb
  then errorf "trigger.prior[%d]: %q is not ours to apply"
  else errorf "trigger.prior[%d]: unknown verb %q".

Definition validatePriorAxis (_ : nat) (axis : string) : result unit :=
  if axis =s? "request" then Ok tt
  else if has_string ["ip"; "asn"; "session"] axis
  then errorf "trigger.prior[%d]: axis %q never occurs with %v"
  else errorf "trigger.prior[%d]: unknown axis %q".

Definition validatePrior (i : nat) (r : PriorRule) : result unit :=
  fail_if (is_empty (From r)) "trigger.prior[%d]: from is empty";;
  fail_if (is_nil (Accept r)) "trigger.prior[%d]: accept is required";;
  for_each validatePriorVerb 0 (Accept r);;
  for_each validatePriorAxis 0 (PriorRule_Apply r);;
  fail_if (From r =s? AnyInspector) "trigger.prior[%d]: %v need a named sender: they can weaken".

(** *** Named rules *)

Definition OutcomeInvalid := "invalid".
Definition OutcomeUnparsable := "unparsable".
Definition OutcomeTruncated := "truncated".
Definition OutcomeUnknownOperation := "unknown_operation".
Definition OutcomeContentType := "content_type".
Definition OutcomeUnavailable := "unavailable".
Definition OutcomeStatus := "status".
Definition OutcomeOpcode := "opcode".

(** A [NamedRule] is the name with its rule. *)
Definition NamedRule : Type := string * Rule.

Definition RequestRules_Rules (r : RequestRules) : list NamedRule :=
  [(OutcomeInvalid, Req_Invalid r); (OutcomeUnparsable, Req_Unparsable r);
   (OutcomeTruncated, Req_Truncated r); (OutcomeUnknownOperation, Req_UnknownOperation r);
   (OutcomeContentType, Req_ContentType r); (OutcomeUnavailable, Req_Unavailable r)].

Definition ResponsePhase_Rules (p : ResponsePhase) : list NamedRule :=
  RequestRules_Rules (Resp_RequestRules (Resp_Policy p)) ++
  [(OutcomeStatus, Resp_Status (Resp_Policy p))].

Definition FrameRules_Rules (r : FrameRules) : list NamedRule :=
  [(OutcomeInvalid, Frame_Invalid r); (OutcomeUnparsable, Frame_Unparsable r);
   (OutcomeTruncated, Frame_Truncated r); (OutcomeUnknownOperation, Frame_UnknownOperation r);
   (OutcomeOpcode, Frame_Opcode r); (OutcomeUnavailable, Frame_Unavailable r)].

Definition Direction (f : FramePhase) (name : string) : FrameDirection :=
  if name =s? DirectionS2C then S2C f else C2S f.

Definition action (value : string) : result unit :=
  if (value =s? ActionDeny) || (value =s? ActionScore) || (value =s? ActionAllow) then Ok tt
  else errorf "%s must be %s, %s or %s, got %q".

Definition validateRule (_ : nat) (named : NamedRule) : result unit :=
  action (Rule_Action named.2);;
  fail_if ((Rule_Score named.2 <? 0) || (100 <? Rule_Score named.2))
    "%s.score must be within 0..100, got %d".

Definition validateRules (rules : list NamedRule) (denyResponse : string) : result unit :=
  for_each validateRule 0 rules;;
  fail_if (existsb (λ named, Rule_Action named.2 =s? ActionDeny) rules && is_empty denyResponse)
    "%s.deny_response is required when a policy is %s".

(** *** Bindings *)

Definition known_match (m : string) : bool := (m =s? MatchExact) || (m =s? MatchPrefix).

Definition validateMethod (_ : nat) (m : string) : result unit :=
  fail_if (negb (methodRe m)) "%s.methods: %q is not an upper-case method".

Definition validateBinding (_ : nat) (b : Binding) : result unit :=
  fail_if (is_empty (Binding_Schema b)) "%s.schema is required";;
  fail_if (negb (nameRe (Binding_Schema b))) "%s.schema %q is not a valid object name";;
  fail_if (is_empty (Binding_Path b)) "%s.path is required";;
  fail_if (negb (HasPrefix (Binding_Path b) "/")) "%s.path must start with /, got %q";;
  fail_if (negb (known_match (Binding_Match b))) "%s.match must be %s or %s, got %q";;
  for_each validateMethod 0 (Binding_Methods b).

Definition validateBindings (p : Profile) : result unit :=
  if is_nil (Bindings p) then Ok tt
  else
    fail_if (Schema_Kind (Profile_Schema p) =s? KindOpenAPI)
      "bindings are only valid with schema.kind %s: with OpenAPI the operation picks the schema";;
    for_each validateBinding 0 (Bindings p).

Definition validateFrameBinding (_ : nat) (b : FrameBinding) : result unit :=
  fail_if (is_empty (FB_Schema b)) "%s.schema is required";;
  fail_if (negb (nameRe (FB_Schema b))) "%s.schema %q is not a valid object name";;
  fail_if (is_empty (FB_Path b)) "%s.path is required";;
  fail_if (negb (HasPrefix (FB_Path b) "/")) "%s.path must start with /, got %q";;
  fail_if (negb (known_match (FB_Match b))) "%s.match must be %s or %s, got %q";;
  fail_if (negb (has_string [DirectionC2S; DirectionS2C; DirectionAny] (FB_Direction b)))
    "%s.direction must be %s, %s or %s, got %q";;
  match FB_Discriminator b with
  | None => Ok tt
  | Some d =>
      fail_if (negb (HasPrefix (Pointer d) "/"))
        "%s.discriminator.pointer must be a JSON pointer starting with /, got %q";;
      fail_if (is_empty (Discriminator_Value d)) "%s.discriminator.value is required"
  end.

Definition validateFrame (p : Profile) : result unit :=
  if negb (Frame_Enabled (Profile_Frame p)) then Ok tt
  else
    fail_if (negb (Schema_Kind (Profile_Schema p) =s? KindJSONSchema))
      "frame is only valid with schema.kind %s: a socket message has no OpenAPI operation";;
    fail_if (is_nil (Frame_Bindings (Profile_Frame p)) && is_empty (Schema_Source (Profile_Schema p)))
      "frame.bindings is required: without a main schema there is nothing to check a message against";;
    for_each validateFrameBinding 0 (Frame_Bindings (Profile_Frame p)).

Definition FrameBinding_Matches (b : FrameBinding) (path direction subprotocol : string) : bool :=
  if negb (FB_Direction b =s? DirectionAny) && negb (is_empty (FB_Direction b)) &&
     negb (FB_Direction b =s? direction) then false
  else if negb (is_empty (FB_Subprotocol b)) && negb (FB_Subprotocol b =s? subprotocol) then false
  else if (FB_Match b =s? MatchExact) && negb (FB_Path b =s? path) then false
  else if (FB_Match b =s? MatchPrefix) && negb (HasPrefix path (FB_Path b)) then false
  else true.

Section bindings.
Context `{Unicode}.

Definition matchesMethod (b : Binding) (method : string) : bool :=
  if is_nil (Binding_Methods b) then true
  else existsb (λ m, EqualFold m method) (Binding_Methods b).

Definition Binding_Matches (b : Binding) (method path : string) : bool :=
  if negb (matchesMethod b method) then false
  else if (Binding_Match b =s? MatchExact) && negb (Binding_Path b =s? path) then false
  else if (Binding_Match b =s? MatchPrefix) && negb (HasPrefix path (Binding_Path b)) then false
  else true.

Definition BindingFor (p : Profile) (method path : string) : option Binding :=
  List.find (λ b, Binding_Matches b method path) (Bindings p).

(** The media type without its parameters, in lower case. *)
Definition media_type (contentType : string) : string :=
  let ct := ToLower (TrimSpace contentType) in
  match IndexByte ct ";" with
  | Some i => TrimSpace (str_take i ct)
  | None => ct
  end.

Definition TypeAllowed (ph : ResponsePhase) (contentType : string) : bool :=
  if is_nil (Resp_OnlyTypes ph) then true
  else
    let ct := media_type contentType in
    existsb (λ want,
      let want := ToLower (TrimSpace want) in
      if HasPrefix want "+" then HasSuffix ct want else ct =s? want) (Resp_OnlyTypes ph).
End bindings.

(** The schema documents a profile needs: each name once, in order of mention. *)
Fixpoint add_names (seen : list string) (names : list string) : list string :=
  match names with
  | [] => []
  | name :: names =>
      if is_empty name || has_string seen name then add_names seen names
      else name :: add_names (name :: seen) names
  end.

Definition mentions (p : Profile) : list string :=
  Schema_Source (Profile_Schema p) :: (Binding_Schema <$> Bindings p) ++
  (FB_Schema <$> Frame_Bindings (Profile_Frame p)).

Definition Sources (p : Profile) : list string := add_names [] (mentions p).

(** *** Validate *)

Section validate.
Context `{Unicode}.

Definition validateOutcomes (p : Profile) : result unit :=
  for_each (validateOutcome "request") 0 (Req_Outcomes (Profile_Request p));;
  for_each (validateOutcome "response") 0 (Resp_Outcomes (Profile_Response p));;
  for_each (validateOutcome "frame.c2s") 0 (Dir_Outcomes (C2S (Profile_Frame p)));;
  for_each (validateOutcome "frame.s2c") 0 (Dir_Outcomes (S2C (Profile_Frame p))).

Definition validatePolicies (p : Profile) : result unit :=
  let rq := Profile_Request p in
  let rs := Profile_Response p in
  let fr := Profile_Frame p in
  (if Req_Enabled rq
   then validateRules (RequestRules_Rules (Req_Policy rq)) (Req_DenyResponse rq) else Ok tt);;
  (if Resp_Enabled rs
   then validateRules (ResponsePhase_Rules rs) (Resp_DenyResponse rs) else Ok tt);;
  (if Frame_Enabled fr then
     validateRules (FrameRules_Rules (Dir_Policy (C2S fr))) (Dir_DenyResponse (C2S fr));;
     validateRules (FrameRules_Rules (Dir_Policy (S2C fr))) (Dir_DenyResponse (S2C fr))
   else Ok tt).

Definition validateSchema (p : Profile) : result unit :=
  let s := Profile_Schema p in
  fail_if (negb ((Schema_Kind s =s? KindOpenAPI) || (Schema_Kind s =s? KindJSONSchema)))
    "schema.kind must be %s or %s, got %q";;
  fail_if (is_empty (Schema_Source s) && is_nil (Bindings p) &&
           is_nil (Frame_Bindings (Profile_Frame p))) "schema.source is required";;
  fail_if (negb (is_empty (Schema_Source s)) && negb (nameRe (Schema_Source s)))
    "schema.source %q is not a valid object name";;
  fail_if (negb (is_empty (Schema_BasePath s)) && negb (HasPrefix (Schema_BasePath s) "/"))
    "schema.base_path must start with /, got %q".

Definition validateLimits (l : Limits) : result unit :=
  fail_if (MaxBody l <=? 0) "limits.max_body must be positive";;
  fail_if (MaxDepth l <? 1) "limits.max_depth must be positive";;
  fail_if (MaxErrors l <? 0) "limits.max_errors must not be negative";;
  fail_if (Cache l <? 0) "limits.cache must not be negative".

Definition Validate (p : Profile) : result unit :=
  fail_if (negb ((Mode p =s? ModeEnforce) || (Mode p =s? ModeObserve) || (Mode p =s? ModeOff)))
    "mode must be enforce, observe or off, got %q";;
  for_each validatePrior 0 (Trigger_Prior (Profile_Trigger p));;
  validateOutcomes p;;
  if Mode p =s? ModeOff then Ok tt
  else
    validateSchema p;;
    fail_if (negb (Req_Enabled (Profile_Request p)) && negb (Resp_Enabled (Profile_Response p)) &&
             negb (Frame_Enabled (Profile_Frame p)))
      "all phases are disabled: the profile would do nothing";;
    validatePolicies p;;
    validateBindings p;;
    validateFrame p;;
    fail_if (negb ((Audit_Values (Profile_Audit p) =s? AuditValuesOff) ||
                   (Audit_Values (Profile_Audit p) =s? AuditValuesHash)))
      "audit.values must be %s or %s, got %q";;
    validateLimits (Profile_Limits p).
End validate.

(** ** What a validated profile satisfies *)

Definition prior_ok (r : PriorRule) : Prop :=
  From r ≠ "" ∧ From r ≠ AnyInspector ∧ Accept r ≠ [] ∧
  Forall (λ v, v = DoThreshold ∨ v = DoSkip) (Accept r) ∧
  Forall (λ a, a = ApplyRequest) (PriorRule_Apply r).

Definition rule_ok (named : NamedRule) : Prop :=
  (Rule_Action named.2 = ActionDeny ∨ Rule_Action named.2 = ActionScore ∨
   Rule_Action named.2 = ActionAllow) ∧ 0 ≤ Rule_Score named.2 ≤ 100.

Definition rules_ok (rules : list NamedRule) (denyResponse : string) : Prop :=
  Forall rule_ok rules ∧
  (Exists (λ named, Rule_Action named.2 = ActionDeny) rules → denyResponse ≠ "").

Definition binding_ok (b : Binding) : Prop :=
  nameRe (Binding_Schema b) = true ∧ HasPrefix (Binding_Path b) "/" = true ∧
  (Binding_Match b = MatchExact ∨ Binding_Match b = MatchPrefix) ∧
  Forall (λ m, methodRe m = true) (Binding_Methods b).

Definition discriminator_ok (d : option Discriminator) : Prop :=
  match d with
  | None => True
  | Some d => HasPrefix (Pointer d) "/" = true ∧ Discriminator_Value d ≠ ""
  end.

Definition frame_binding_ok (b : FrameBinding) : Prop :=
  nameRe (FB_Schema b) = true ∧ HasPrefix (FB_Path b) "/" = true ∧
  (FB_Match b = MatchExact ∨ FB_Match b = MatchPrefix) ∧
  FB_Direction b ∈ [DirectionC2S; DirectionS2C; DirectionAny] ∧
  discriminator_ok (FB_Discriminator b).

Definition limits_ok (l : Limits) : Prop :=
  0 < MaxBody l ∧ 1 ≤ MaxDepth l ∧ 0 ≤ MaxErrors l ∧ 0 ≤ Cache l.

Lemma nameRe_nonempty s : nameRe s = true → s ≠ "".
Proof. by intros H ->. Qed.

Lemma HasPrefix_slash_nonempty s : HasPrefix s "/" = true → s ≠ "".
Proof. by intros H ->. Qed.

Lemma validatePriorVerb_ok i v :
  validatePriorVerb i v = Ok tt ↔ v = DoThreshold ∨ v = DoSkip.
Proof.
  unfold validatePriorVerb. destruct (has_string _ v) eqn:E; guards.
  - rewrite !elem_of_cons in E. split; [|done]. intros _.
    destruct E as [|[|?%not_elem_of_nil]]; auto; done.
  - split; [by case_match|]. intros Hv. exfalso. apply E.
    destruct Hv as [-> | ->]; rewrite !elem_of_cons; auto.
Qed.

Lemma validatePriorAxis_ok i a : validatePriorAxis i a = Ok tt ↔ a = ApplyRequest.
Proof.
  unfold validatePriorAxis. destruct (String.eqb_spec a "request") as [->|Hne]; [done|].
  split; [by case_match|done].
Qed.

Lemma validatePrior_ok i r : validatePrior i r = Ok tt ↔ prior_ok r.
Proof.
  unfold validatePrior, prior_ok. guards.
  rewrite (for_each_ok _ _ _ _ validatePriorVerb_ok).
  rewrite (for_each_ok _ _ _ _ validatePriorAxis_ok).
  destruct (Accept r); simpl; naive_solver.
Qed.

Lemma action_ok a : action a = Ok tt ↔ a = ActionDeny ∨ a = ActionScore ∨ a = ActionAllow.
Proof.
  unfold action. destruct (_ || _) eqn:E; guards; [tauto|]. split; [done|]. tauto.
Qed.

Lemma validateRule_ok i named : validateRule i named = Ok tt ↔ rule_ok named.
Proof. unfold validateRule, rule_ok. guards. rewrite action_ok. intuition lia. Qed.

Lemma validateRules_ok rules resp : validateRules rules resp = Ok tt ↔ rules_ok rules resp.
Proof.
  unfold validateRules, rules_ok. guards. rewrite (for_each_ok _ _ _ _ validateRule_ok).
  apply and_iff_compat_l. rewrite Exists_exists. split.
  - intros [He|?]; [|done]. intros (named & Hin & Ha). exfalso.
    apply not_true_iff_false in He. apply He, existsb_exists. exists named.
    by rewrite seqb_eq, <- list_elem_of_In.
  - intros H. destruct (existsb (λ named, Rule_Action named.2 =s? ActionDeny) rules) eqn:E;
      [right|by left].
    apply H. apply existsb_exists in E as (named & Hin%list_elem_of_In & Ha%seqb_eq). eauto.
Qed.

Lemma known_match_true m : known_match m = true ↔ m = MatchExact ∨ m = MatchPrefix.
Proof. unfold known_match. by guards. Qed.

Lemma validateBinding_ok i b : validateBinding i b = Ok tt ↔ binding_ok b.
Proof.
  unfold validateBinding, binding_ok. guards. rewrite known_match_true.
  rewrite (for_each_ok _ (λ m, methodRe m = true)) by (intros; unfold validateMethod; by guards).
  pose proof (nameRe_nonempty (Binding_Schema b)).
  pose proof (HasPrefix_slash_nonempty (Binding_Path b)). tauto.
Qed.

Lemma validateFrameBinding_ok i b : validateFrameBinding i b = Ok tt ↔ frame_binding_ok b.
Proof.
  unfold validateFrameBinding, frame_binding_ok. guards. rewrite known_match_true.
  assert ((match FB_Discriminator b with
    | None => Ok tt
    | Some d =>
        fail_if (negb (HasPrefix (Pointer d) "/"))
          "%s.discriminator.pointer must be a JSON pointer starting with /, got %q";;
        fail_if (is_empty (Discriminator_Value d)) "%s.discriminator.value is required"
    end) = Ok tt ↔ discriminator_ok (FB_Discriminator b)) as ->.
  { destruct (FB_Discriminator b) as [d|]; [|done]. simpl. by guards. }
  pose proof (nameRe_nonempty (FB_Schema b)).
  pose proof (HasPrefix_slash_nonempty (FB_Path b)). tauto.
Qed.

Lemma validateLimits_ok l : validateLimits l = Ok tt ↔ limits_ok l.
Proof. unfold validateLimits, limits_ok. guards. lia. Qed.

Section validated.
Context `{Unicode}.

Definition on_ok (section : string) (o : Outcome) : Prop :=
  ((On o = OnDeny ∨ On o = OnAllow) ∧ At o = None ∧ Below o = false ∧ Eq o = false) ∨
  (On o = OnScore ∧ (Below o = false ∨ Eq o = false) ∧ ∃ a, At o = Some a ∧ 0 ≤ a ≤ 100) ∨
  (On o = OnOverload ∧ section = "request" ∧ Below o = false ∧ Eq o = false ∧
   AtMin ≤ overload_At (At o) ≤ AtMax).

Definition write_ok (o : Outcome) : Prop :=
  nameRe (List o) = true ∧ Subject o ∈ [WriteAddr; WriteNet; WriteNetAll; WriteASN] ∧ 0 < TTL o.

(** *** What an ask may be *)

Definition records : list string := [DoAudit; DoArchive].
Definition controls : list string := [DoActive; DoPassive; DoOff; DoVote].

(** The axes a verb applies to. *)
Inductive takes : string → list string → Prop :=
| takes_request verb :
    verb ∈ [DoChallenge; DoThreshold; DoSkip; DoMutate; DoMark; DoScore] → takes verb [ApplyRequest]
| takes_session : takes DoReauth [ApplySession]
| takes_note : takes DoNote [ApplyRequest; ApplyIP; ApplyASN; ApplySession]
| takes_control verb : verb ∈ controls → takes verb [ApplyRequest; ApplyConn]
| takes_record verb : verb ∈ records → takes verb [ApplyRequest; ApplyResponse].

(** One of the axes; it may be left out when there is one, or the verb has a default. *)
Definition axis_ok (o : Outcome) : Prop :=
  ∃ axes, takes (Do o) axes ∧
    (Apply o ≠ "" → Apply o ∈ axes) ∧ (Apply o = "" → len axes = 1 ∨ Do o ∈ records).

Definition for_all (o : Outcome) : Prop := To o = "" ∨ To o = "*".
Definition on_off (o : Outcome) : Prop := Outcome_Set o = "on" ∨ Outcome_Set o = "off".
Definition nonzero (n : option Z) : Prop := ∃ z, n = Some z ∧ z ≠ 0.

(** 1 to 128 bytes, no control character, no blank at either end. *)
Definition marker_ok (marker : string) : Prop :=
  1 ≤ slen marker ≤ 128 ∧ (∀ c, c ∈ bytes marker → 32 ≤ code c ∧ code c ≠ 127) ∧
  head (bytes marker) ≠ Some " "%char ∧ last (bytes marker) ≠ Some " "%char.

Definition phase_ok (o : Outcome) : Prop :=
  Outcome_Phase o ≠ "" → Do o ∈ controls ∧
  Outcome_Phase o ∈ [PhaseRequest; PhaseResponse; PhaseFrame] ∧
  (Apply o = ApplyConn → Outcome_Phase o = PhaseFrame).

Definition object_ok (o : option ObjectSpec) : Prop :=
  ∀ s, o = Some s → ObjectSpec_Set s ∈ [""; "on"; "off"] ∧ 0 ≤ ObjectSpec_Limit s ∧
    ObjectSpec_Source s ∈ [""; "store"; "original"].

Definition no_objects (o : Outcome) : Prop :=
  Outcome_Headers o = None ∧ Outcome_Args o = None ∧ Outcome_Body o = None.

(** What audit and archive ask for. *)
Definition record_ok (o : Outcome) : Prop :=
  for_all o ∧ on_off o ∧
  (Outcome_Set o = "off" → TTL o = 0 ∧ When o = [] ∧ no_objects o) ∧
  (Do o = DoAudit → TTL o = 0 ∧ When o = []) ∧
  (Forall (.∈ ArchiveWhen) (when_word <$> When o) ∧ NoDup (when_word <$> When o)) ∧
  (Apply o = ApplyResponse → Outcome_Args o = None) ∧
  object_ok (Outcome_Headers o) ∧ object_ok (Outcome_Args o) ∧ object_ok (Outcome_Body o).

(** An ask: of which verbs it may be asked on a denial; its axis; the numbers in
    range, and there where the verb needs them; and each further field with the
    verbs that have it, and as they want it. *)
Definition ask_wf (o : Outcome) : Prop :=
  (On o = OnDeny → Do o ∈ [DoAudit; DoArchive; DoMark; DoScore]) ∧
  axis_ok o ∧
  (∀ d, Delta o = Some d → -100 ≤ d ≤ 900) ∧
  (∀ v, Outcome_Value o = Some v → -100 ≤ v ≤ 100) ∧
  (Do o = DoThreshold → nonzero (Delta o)) ∧
  (Do o = DoNote → nonzero (Outcome_Value o)) ∧
  (Do o = DoScore → for_all o ∧ nonzero (Outcome_Value o)) ∧
  (Do o ∈ controls → To o ≠ "" ∧ To o ≠ "*") ∧
  phase_ok o ∧
  (Counter o ≠ "" → Do o = DoNote ∧ nameRe (Counter o) = true) ∧
  (Do o = DoMutate → nameRe (Group o) = true ∧ on_off o) ∧ (Do o ≠ DoMutate → Group o = "") ∧
  (Do o = DoMark → for_all o ∧ marker_ok (Marker o)) ∧ (Do o ≠ DoMark → Marker o = "") ∧
  (Do o ∈ records → record_ok o) ∧
  (Do o ∉ records → When o = [] ∧ no_objects o) ∧
  (Do o ∉ DoMutate :: records → Outcome_Set o = "").

Definition outcome_ok (section : string) (o : Outcome) : Prop :=
  on_ok section o ∧ (Code o = "" ∨ codeRe (Code o) = true) ∧
  (Do o ≠ "" ∧ List o = "" ∧ ask_wf o ∨ Do o = "" ∧ write_ok o).

Definition outcomes_ok (p : Profile) : Prop :=
  Forall (outcome_ok "request") (Req_Outcomes (Profile_Request p)) ∧
  Forall (outcome_ok "response") (Resp_Outcomes (Profile_Response p)) ∧
  Forall (outcome_ok "frame.c2s") (Dir_Outcomes (C2S (Profile_Frame p))) ∧
  Forall (outcome_ok "frame.s2c") (Dir_Outcomes (S2C (Profile_Frame p))).

Definition policies_ok (p : Profile) : Prop :=
  let rq := Profile_Request p in
  let rs := Profile_Response p in
  let fr := Profile_Frame p in
  (Req_Enabled rq = true → rules_ok (RequestRules_Rules (Req_Policy rq)) (Req_DenyResponse rq)) ∧
  (Resp_Enabled rs = true → rules_ok (ResponsePhase_Rules rs) (Resp_DenyResponse rs)) ∧
  (Frame_Enabled fr = true →
    rules_ok (FrameRules_Rules (Dir_Policy (C2S fr))) (Dir_DenyResponse (C2S fr)) ∧
    rules_ok (FrameRules_Rules (Dir_Policy (S2C fr))) (Dir_DenyResponse (S2C fr))).

Definition schema_ok (p : Profile) : Prop :=
  let s := Profile_Schema p in
  (Schema_Kind s = KindOpenAPI ∨ Schema_Kind s = KindJSONSchema) ∧
  (Schema_Source s = "" → Bindings p ≠ [] ∨ Frame_Bindings (Profile_Frame p) ≠ []) ∧
  (Schema_Source s ≠ "" → nameRe (Schema_Source s) = true) ∧
  (Schema_BasePath s ≠ "" → HasPrefix (Schema_BasePath s) "/" = true).

Definition bindings_ok (p : Profile) : Prop :=
  (Bindings p ≠ [] → Schema_Kind (Profile_Schema p) ≠ KindOpenAPI) ∧
  Forall binding_ok (Bindings p).

Definition frame_ok (p : Profile) : Prop :=
  Frame_Enabled (Profile_Frame p) = true →
  Schema_Kind (Profile_Schema p) = KindJSONSchema ∧
  (Schema_Source (Profile_Schema p) = "" → Frame_Bindings (Profile_Frame p) ≠ []) ∧
  Forall frame_binding_ok (Frame_Bindings (Profile_Frame p)).

(** What a profile that is not off must satisfy. *)
Definition active_ok (p : Profile) : Prop :=
  schema_ok p ∧
  (Req_Enabled (Profile_Request p) = true ∨ Resp_Enabled (Profile_Response p) = true ∨
   Frame_Enabled (Profile_Frame p) = true) ∧
  policies_ok p ∧ bindings_ok p ∧ frame_ok p ∧
  (Audit_Values (Profile_Audit p) = AuditValuesOff ∨
   Audit_Values (Profile_Audit p) = AuditValuesHash) ∧
  limits_ok (Profile_Limits p).

Definition profile_ok (p : Profile) : Prop :=
  (Mode p = ModeEnforce ∨ Mode p = ModeObserve ∨ Mode p = ModeOff) ∧
  Forall prior_ok (Trigger_Prior (Profile_Trigger p)) ∧
  outcomes_ok p ∧
  (Mode p = ModeOff ∨ active_ok p).

Lemma overload_Check_ok a : overload_Check a = Ok tt ↔ AtMin ≤ overload_At a ≤ AtMax.
Proof.
  destruct a as [a|]; simpl; [|unfold AtMin, AtMax; split; [lia|done]].
  destruct (_ || _) eqn:E; guards; split; done || lia.
Qed.

Lemma validateOn_ok section o : validateOn section o = Ok tt ↔ on_ok section o.
Proof.
  unfold validateOn, on_ok.
  destruct (String.eqb_spec (On o) OnDeny) as [E1|N1];
    [|destruct (String.eqb_spec (On o) OnAllow) as [E1|N2]]; simpl.
  1,2: guards; split;
    [intros [Ha [Hb He]]; left; destruct (At o); [done|tauto]
    |intros [(_ & Ha & Hb & He)|[(E & _)|(E & _)]];
      [by rewrite Ha|by rewrite E1 in E|by rewrite E1 in E]].
  destruct (String.eqb_spec (On o) OnScore) as [E3|N3].
  { destruct (At o) as [a|]; guards.
    - split.
      + intros [? ?]. right. left. split; [done|]. split; [tauto|]. exists a. split; [done|lia].
      + intros [([?|?]&?)|[(?&?&a'&[= <-]&?)|(E4&?)]]; try congruence; [|by rewrite E3 in E4].
        split; [lia|tauto].
    - split; [done|]. intros [([?|?]&?)|[(?&?&a'&?&?)|(E4&?)]]; try congruence.
      by rewrite E3 in E4. }
  destruct (String.eqb_spec (On o) OnOverload) as [E4|N4].
  { guards. rewrite overload_Check_ok. split; [intros; right; right; tauto|].
    intros [([?|?]&?)|[(?&?)|?]]; try congruence. tauto. }
  split; [done|]. intros [([?|?]&?)|[(?&?)|(?&?)]]; congruence.
Qed.

Lemma Subject_ok o :
  has_string [""; WriteAddr; WriteNet; WriteNetAll; WriteASN] (Write o) = true ↔
  Subject o ∈ [WriteAddr; WriteNet; WriteNetAll; WriteASN].
Proof.
  rewrite has_string_spec, elem_of_cons. unfold Subject.
  destruct (is_empty (Write o)) eqn:E; guards; [|tauto].
  split; [|by left]. intros _. apply elem_of_cons. by left.
Qed.

Lemma outcomeVerbs_ok verb axes : outcomeVerbs verb = Some axes ↔ takes verb axes.
Proof.
  split.
  - unfold outcomeVerbs. destruct (has_string _ verb) eqn:E1; guards.
    { intros [= <-]. by constructor. }
    destruct (String.eqb_spec verb DoReauth) as [->|]; [intros [= <-]; constructor|].
    destruct (String.eqb_spec verb DoNote) as [->|]; [intros [= <-]; constructor|].
    destruct (has_string [DoActive; _; _; _] verb) eqn:E2; guards; [intros [= <-]; by constructor|].
    destruct (has_string [DoAudit; _] verb) eqn:E3; guards; [intros [= <-]; by constructor|done].
  - assert (∀ v l axes, forallb (λ v, bool_decide (outcomeVerbs v = Some axes)) l = true →
      v ∈ l → outcomeVerbs v = Some axes) as Hl.
    { intros v l a Hl Hin. rewrite forallb_forall in Hl. eapply bool_decide_eq_true_1, Hl.
      by apply list_elem_of_In. }
    intros [? Hv| | |? Hv|? Hv]; try done; (eapply Hl; [|exact Hv]); reflexivity.
Qed.

Lemma auditVerb_true verb : auditVerb verb = true ↔ verb ∈ records.
Proof. unfold auditVerb, records. rewrite !elem_of_cons, elem_of_nil. guards. tauto. Qed.
Lemma auditVerb_false verb : auditVerb verb = false ↔ verb ∉ records.
Proof. rewrite <- auditVerb_true. by destruct (auditVerb verb). Qed.
Lemma controlVerb_true verb : controlVerb verb = true ↔ verb ∈ controls.
Proof. unfold controlVerb, controls. rewrite !elem_of_cons, elem_of_nil. guards. tauto. Qed.
Lemma controlVerb_false verb : controlVerb verb = false ↔ verb ∉ controls.
Proof. rewrite <- controlVerb_true. by destruct (controlVerb verb). Qed.

Lemma Axis_control o : Do o ∈ controls → Axis o = Apply o.
Proof.
  intros Hc. unfold Axis. destruct (is_empty (Apply o)) eqn:E; cbn [negb]; [|done].
  apply is_empty_true in E as ->. rewrite (proj2 (outcomeVerbs_ok _ _) (takes_control _ Hc)).
  assert (auditVerb (Do o) = false) as ->; [|done]. revert Hc. unfold controls.
  rewrite !elem_of_cons, elem_of_nil. by intros [-> |[-> |[-> |[-> |[]]]]].
Qed.

Lemma checkPhaseAsk_ok o : checkPhaseAsk (Do o) (Outcome_Phase o) (Axis o) = Ok tt ↔ phase_ok o.
Proof.
  unfold checkPhaseAsk, phase_ok. destruct (is_empty (Outcome_Phase o)) eqn:E; guards; [by split|].
  destruct (controlVerb (Do o)) eqn:Ec; cbn [negb].
  2:{ apply controlVerb_false in Ec. split; [done|]. by intros [? _]. }
  apply controlVerb_true in Ec. rewrite Axis_control by done.
  destruct (has_string _ (Outcome_Phase o)) eqn:Ep; guards; cbn [negb].
  2:{ split; [done|]. by intros (_ & ? & _). }
  destruct (String.eqb_spec (Apply o) ApplyConn) as [Ea|Ea]; cbn [andb]; [|tauto].
  destruct (String.eqb_spec (Outcome_Phase o) PhaseFrame) as [Ef|Ef]; cbn [negb]; [tauto|].
  split; [done|]. intros (_ & _ & Hf)%(λ h, h E). by destruct (Ef (Hf Ea)).
Qed.

Lemma opt_range_ok (n : option Z) a b :
  opt_holds n (λ z, (z <? a) || (b <? z)) = false ↔ ∀ z, n = Some z → a ≤ z ≤ b.
Proof.
  destruct n as [z|]; cbn; [|by split]. guards. split; [by intros ? ? [= <-]; lia|].
  intros Hz. specialize (Hz z eq_refl). lia.
Qed.

Lemma nil_or_zero_ok n : nil_or_zero n = false ↔ nonzero n.
Proof.
  unfold nonzero. destruct n as [z|]; cbn; [|split; [done|by intros (? & ? & _)]]. guards.
  split; [eauto|]. by intros (? & [= <-] & ?).
Qed.

Lemma last_Some_last {A} (l : list A) d : l ≠ [] → last l = Some (List.last l d).
Proof. induction l as [|x [|y l] IH]; [done|done|]. intros _. by apply IH. Qed.

Lemma CheckMarker_ok m : CheckMarker m = Ok tt ↔ marker_ok m.
Proof.
  unfold CheckMarker, marker_ok, slen. rewrite <- length_bytes. destruct (bytes m) as [|c l] eqn:E.
  { cbn. split; [done|]. intros [? _]. lia. }
  rewrite (last_Some_last (c :: l) c) by done. set (x := List.last (c :: l) c). cbn [head].
  unfold MarkerMax. assert (1 ≤ Z.of_nat (length (c :: l))) as Hl by (cbn [length]; lia).
  destruct (Z.ltb_spec 128 (Z.of_nat (length (c :: l)))); [split; [done|]; intros [? _]; lia|].
  destruct (existsb control_char (c :: l)) eqn:Ex.
  { split; [done|]. intros (_ & Hc & _). apply existsb_exists in Ex as (y & Hy & Hcc).
    apply list_elem_of_In, Hc in Hy. unfold control_char in Hcc. guards. lia. }
  assert (∀ y, y ∈ c :: l → 32 ≤ code y ∧ code y ≠ 127) as Hctl.
  { intros y Hy. apply not_true_iff_false in Ex. destruct (control_char y) eqn:Ey.
    - destruct Ex. apply existsb_exists. exists y. split; [by apply list_elem_of_In|done].
    - unfold control_char in Ey. guards. lia. }
  destruct (Ascii.eqb_spec c " "%char) as [->|Hc]; cbn [orb].
  { split; [done|]. by intros (_ & _ & [] & _). }
  destruct (Ascii.eqb_spec x " "%char) as [->|Hx].
  { split; [done|]. by intros (_ & _ & _ & []). }
  split; [|done]. intros _. split_and!; [lia|lia|done|congruence|congruence].
Qed.

Lemma three_words (s a b : string) :
  negb (is_empty s) && negb (s =s? a) && negb (s =s? b) = false ↔ s ∈ [""; a; b].
Proof. rewrite !elem_of_cons, elem_of_nil. guards. destruct (decide (s = "")); tauto. Qed.

Lemma CheckObjectSpec_ok name o audit : CheckObjectSpec name o audit = Ok tt ↔ object_ok o.
Proof.
  unfold CheckObjectSpec, object_ok. destruct o as [s|]; [|by split].
  transitivity (ObjectSpec_Set s ∈ [""; "on"; "off"] ∧ 0 ≤ ObjectSpec_Limit s ∧
    ObjectSpec_Source s ∈ [""; "store"; "original"]); [|naive_solver].
  rewrite <- !three_words.
  destruct (_ && _ && negb (ObjectSpec_Set s =s? "off")); [by split; [|intros [? _]]|].
  destruct (Z.ltb_spec (ObjectSpec_Limit s) 0); [by split; [|intros (_ & ? & _); lia]|].
  destruct (_ && _ && negb (ObjectSpec_Source s =s? "original")); [by split; [|intros (_ & _ & ?)]|].
  done.
Qed.

Lemma CheckArchiveWhen_fine words :
  (_ ← wrapf "%s: %w" (CheckArchiveWhen words); Ok tt) = Ok tt ↔
  Forall (.∈ ArchiveWhen) (when_word <$> words) ∧ NoDup (when_word <$> words).
Proof.
  split.
  - intros (w & Hw%wrapf_ok & _)%bind_ok. by apply CheckArchiveWhen_ok in Hw as (? & ? & _).
  - intros [Hf Hn]. by rewrite (proj2 (CheckArchiveWhen_ok words _) (conj Hf (conj Hn eq_refl))).
Qed.

Lemma for_all_ok o : negb (is_empty (To o)) && negb (To o =s? "*") = false ↔ for_all o.
Proof. unfold for_all. guards. tauto. Qed.
Lemma on_off_ok o :
  negb (Outcome_Set o =s? "on") && negb (Outcome_Set o =s? "off") = false ↔ on_off o.
Proof. unfold on_off. guards. tauto. Qed.

Lemma is_some_false {A} (o : option A) : is_some o = false ↔ o = None.
Proof. by destruct o. Qed.
Lemma is_nil_false' {A} (l : list A) : negb (is_nil l) = false ↔ l = [].
Proof. by destruct l. Qed.

Lemma no_objects_ok o :
  is_some (Outcome_Headers o) || is_some (Outcome_Args o) || is_some (Outcome_Body o) = false ↔
  no_objects o.
Proof. unfold no_objects. rewrite !orb_false_iff, !is_some_false. tauto. Qed.

(** A guard of a verb, as what it asks of that verb. *)
Lemma guard_ok (a b : bool) (A B : Prop) :
  (a = true ↔ A) → (b = false ↔ B) → a && b = false ↔ (A → B).
Proof. intros HA HB. rewrite andb_false_iff, <- HA, <- HB. destruct a; naive_solver. Qed.
Lemma when_ok (a : bool) (r : result unit) (A B : Prop) :
  (a = true ↔ A) → (r = Ok tt ↔ B) → (if a then r else Ok tt) = Ok tt ↔ (A → B).
Proof. intros HA HB. rewrite <- HA, <- HB. destruct a; naive_solver. Qed.

Lemma validateRecordAsk_ok o : validateRecordAsk o = Ok tt ↔ record_ok o.
Proof.
  unfold validateRecordAsk, record_ok. rewrite !seq_ok, !fail_if_ok.
  rewrite for_all_ok, on_off_ok. do 2 apply and_iff_compat_l.
  rewrite (guard_ok _ _ _ (TTL o = 0 ∧ When o = [] ∧ no_objects o) (seqb_eq _ _)).
  2:{ rewrite <- no_objects_ok, !orb_false_iff, is_nil_false', negb_false_iff, Z.eqb_eq. tauto. }
  apply and_iff_compat_l.
  rewrite (guard_ok _ _ _ (TTL o = 0 ∧ When o = []) (seqb_eq _ _)).
  2:{ by rewrite orb_false_iff, is_nil_false', negb_false_iff, Z.eqb_eq. }
  apply and_iff_compat_l. rewrite <- CheckArchiveWhen_fine.
  destruct (wrapf "%s: %w" (CheckArchiveWhen (When o))) as [w|]; cbn [mbind result_bind];
    [|by split; [|intros [? _]]].
  rewrite !seq_ok, !wrapf_ok, !CheckObjectSpec_ok, fail_if_ok.
  rewrite (guard_ok _ _ _ _ (seqb_eq _ _) (is_some_false _)). naive_solver.
Qed.

Lemma axis_ok_iff o :
  (∃ axes, outcomeVerbs (Do o) = Some axes ∧
     negb (is_empty (Apply o)) && negb (has_string axes (Apply o)) = false ∧
     is_empty (Apply o) && negb (len axes =? 1) && negb (auditVerb (Do o)) = false) ↔ axis_ok o.
Proof.
  unfold axis_ok. f_equiv. intros axes. rewrite outcomeVerbs_ok. apply and_iff_compat_l.
  rewrite (guard_ok _ _ (Apply o ≠ "") (Apply o ∈ axes))
    by (rewrite ?negb_true_iff, ?negb_false_iff, ?is_empty_false, ?has_string_spec; done).
  apply and_iff_compat_l.
  rewrite <- andb_assoc. apply guard_ok; [apply is_empty_true|].
  rewrite andb_false_iff, !negb_false_iff, auditVerb_true, Z.eqb_eq. done.
Qed.

Lemma recordVerb_true verb :
  recordVerb verb = true ↔ verb ∈ [DoAudit; DoArchive; DoMark; DoScore].
Proof.
  unfold recordVerb. rewrite !orb_true_iff, auditVerb_true, !seqb_eq. unfold records.
  rewrite !elem_of_cons, !elem_of_nil. tauto.
Qed.

Lemma if_ok (b : bool) (r r' : result unit) (A B B' : Prop) :
  (b = true ↔ A) → (r = Ok tt ↔ B) → (r' = Ok tt ↔ B') →
  (if b then r else r') = Ok tt ↔ (A → B) ∧ (¬ A → B').
Proof. intros HA HB HB'. rewrite <- HA, <- HB, <- HB'. destruct b; naive_solver. Qed.

Lemma not_empty s : negb (is_empty s) = false ↔ s = "".
Proof. rewrite negb_false_iff. apply is_empty_true. Qed.

(** The verb is known, and the rest holds of its axes. *)
Lemma axes_bind verb (k : list string → result unit) (P : list string → Prop) Q :
  (∀ axes, k axes = Ok tt ↔ P axes ∧ Q) →
  (axes ← match outcomeVerbs verb with
          | None => errorf "%s: unknown verb %q"
          | Some axes => Ok axes
          end; k axes) = Ok tt ↔ (∃ axes, outcomeVerbs verb = Some axes ∧ P axes) ∧ Q.
Proof.
  intros Hk. destruct (outcomeVerbs verb) as [axes|]; cbn [mbind result_bind]; [|naive_solver].
  rewrite Hk. naive_solver.
Qed.

Lemma validateOutcomeAsk_ok o : validateOutcomeAsk o = Ok tt ↔ ask_wf o.
Proof.
  unfold validateOutcomeAsk, ask_wf. rewrite seq_ok, fail_if_ok.
  rewrite (guard_ok _ _ _ (Do o ∈ [DoAudit; DoArchive; DoMark; DoScore]) (seqb_eq _ _))
    by (by rewrite negb_false_iff, recordVerb_true).
  apply and_iff_compat_l. rewrite <- axis_ok_iff. apply axes_bind. intros axes.
  rewrite !seq_ok, !fail_if_ok, !wrapf_ok, !opt_range_ok.
  rewrite (guard_ok _ _ _ _ (seqb_eq _ _) (nil_or_zero_ok (Delta o))).
  rewrite (guard_ok _ _ _ _ (seqb_eq _ _) (nil_or_zero_ok (Outcome_Value o))).
  rewrite (when_ok _ _ (Do o = DoScore) (for_all o ∧ nonzero (Outcome_Value o)) (seqb_eq _ _))
    by (by rewrite seq_ok, !fail_if_ok, for_all_ok, nil_or_zero_ok).
  rewrite (guard_ok _ _ (Do o ∈ controls) (To o ≠ "" ∧ To o ≠ "*") (controlVerb_true _))
    by (by rewrite orb_false_iff, is_empty_false, seqb_neq).
  rewrite checkPhaseAsk_ok.
  rewrite (when_ok _ _ (Counter o ≠ "") (Do o = DoNote ∧ nameRe (Counter o) = true))
    by (rewrite ?seq_ok, ?fail_if_ok, ?negb_false_iff, ?negb_true_iff, ?seqb_eq, ?is_empty_false; done).
  rewrite (if_ok _ _ _ (Do o = DoMutate) (nameRe (Group o) = true ∧ on_off o) (Group o = "") (seqb_eq _ _)).
  2:{ rewrite !seq_ok, !fail_if_ok, on_off_ok, negb_false_iff, is_empty_false.
      pose proof (nameRe_nonempty (Group o)). tauto. }
  2:{ by rewrite fail_if_ok, not_empty. }
  rewrite (if_ok _ _ _ (Do o = DoMark) (for_all o ∧ marker_ok (Marker o)) (Marker o = "") (seqb_eq _ _)).
  2:{ by rewrite seq_ok, fail_if_ok, wrapf_ok, for_all_ok, CheckMarker_ok. }
  2:{ by rewrite fail_if_ok, not_empty. }
  rewrite (when_ok _ _ _ _ (auditVerb_true _) (validateRecordAsk_ok o)).
  assert (negb (auditVerb (Do o)) = true ↔ Do o ∉ records) as Hrec
    by (by rewrite negb_true_iff, auditVerb_false).
  rewrite (guard_ok _ _ _ (When o = [] ∧ no_objects o) Hrec).
  2:{ rewrite <- no_objects_ok, !orb_false_iff, is_nil_false'. tauto. }
  assert (negb (auditVerb (Do o)) && negb (Do o =s? DoMutate) = true ↔ Do o ∉ DoMutate :: records) as Hset
    by (rewrite andb_true_iff, Hrec, negb_true_iff, seqb_neq, not_elem_of_cons; tauto).
  rewrite (guard_ok _ _ _ _ Hset (not_empty _)). tauto.
Qed.

Lemma validateOutcome_ok section i o :
  validateOutcome section i o = Ok tt ↔ outcome_ok section o.
Proof.
  unfold validateOutcome, outcome_ok, write_ok. rewrite !seq_ok, validateOn_ok, wrapf_ok.
  apply and_iff_compat_l.
  assert (checkCode (Code o) = Ok tt ↔ Code o = "" ∨ codeRe (Code o) = true) as ->.
  { unfold checkCode. destruct (is_empty (Code o)) eqn:E; guards; [tauto|].
    split; [by right|]. by intros [?|?]. }
  apply and_iff_compat_l. rewrite fail_if_ok. unfold Asks.
  destruct (is_empty (Do o)) eqn:E; cbn [negb andb].
  - rewrite !seq_ok, !fail_if_ok, (negb_false_iff (has_string _ _)), Subject_ok. guards.
    pose proof (nameRe_nonempty (List o)). naive_solver lia.
  - rewrite validateOutcomeAsk_ok. guards. naive_solver.
Qed.

Lemma validateOutcomes_ok p : validateOutcomes p = Ok tt ↔ outcomes_ok p.
Proof.
  unfold validateOutcomes, outcomes_ok. rewrite !seq_ok.
  by rewrite !(for_each_ok _ _ _ _ (validateOutcome_ok _)).
Qed.

Lemma when_enabled (b : bool) (r : result unit) (P : Prop) :
  (r = Ok tt ↔ P) → (if b then r else Ok tt) = Ok tt ↔ (b = true → P).
Proof. destruct b; naive_solver. Qed.

Lemma validatePolicies_ok p : validatePolicies p = Ok tt ↔ policies_ok p.
Proof.
  unfold validatePolicies, policies_ok. rewrite !seq_ok.
  rewrite (when_enabled _ _ _ (validateRules_ok _ _)), (when_enabled _ _ _ (validateRules_ok _ _)).
  do 2 apply and_iff_compat_l. apply when_enabled. by rewrite seq_ok, !validateRules_ok.
Qed.

Lemma is_nil_true {A} (l : list A) : is_nil l = true ↔ l = [].
Proof. by destruct l. Qed.
Lemma is_nil_false {A} (l : list A) : is_nil l = false ↔ l ≠ [].
Proof. by destruct l. Qed.

Lemma validateSchema_ok p : validateSchema p = Ok tt ↔ schema_ok p.
Proof.
  unfold validateSchema, schema_ok. guards. rewrite !is_nil_false.
  set (s := Profile_Schema p).
  destruct (decide (Schema_Source s = "")), (decide (Schema_BasePath s = "")); tauto.
Qed.

Lemma validateBindings_ok p : validateBindings p = Ok tt ↔ bindings_ok p.
Proof.
  unfold validateBindings, bindings_ok. destruct (is_nil (Bindings p)) eqn:E.
  - apply is_nil_true in E. rewrite E. split; [|done]. intros _. split; [done|constructor].
  - apply is_nil_false in E. guards. rewrite (for_each_ok _ _ _ _ validateBinding_ok). tauto.
Qed.

Lemma validateFrame_ok p : validateFrame p = Ok tt ↔ frame_ok p.
Proof.
  unfold validateFrame, frame_ok. destruct (Frame_Enabled (Profile_Frame p)); simpl; [|naive_solver].
  guards. rewrite (for_each_ok _ _ _ _ validateFrameBinding_ok), is_nil_false.
  destruct (decide (Schema_Source (Profile_Schema p) = "")); tauto.
Qed.

Lemma validate_active_ok p :
  (validateSchema p;;
   fail_if (negb (Req_Enabled (Profile_Request p)) && negb (Resp_Enabled (Profile_Response p)) &&
            negb (Frame_Enabled (Profile_Frame p)))
     "all phases are disabled: the profile would do nothing";;
   validatePolicies p;; validateBindings p;; validateFrame p;;
   fail_if (negb ((Audit_Values (Profile_Audit p) =s? AuditValuesOff) ||
                  (Audit_Values (Profile_Audit p) =s? AuditValuesHash)))
     "audit.values must be %s or %s, got %q";;
   validateLimits (Profile_Limits p)) = Ok tt ↔ active_ok p.
Proof.
  unfold active_ok. rewrite !seq_ok, validateSchema_ok, validatePolicies_ok,
    validateBindings_ok, validateFrame_ok, validateLimits_ok. guards. tauto.
Qed.

Lemma Validate_profile_ok p : Validate p = Ok tt ↔ profile_ok p.
Proof.
  unfold Validate, profile_ok.
  rewrite !seq_ok, validateOutcomes_ok, (for_each_ok _ _ _ _ validatePrior_ok).
  destruct (String.eqb_spec (Mode p) ModeOff) as [E|N].
  - guards. tauto.
  - rewrite validate_active_ok. guards. naive_solver.
Qed.

(** C12. [Validate] accepts exactly the profiles of the declarative description:
    every guard is in it, and no guard refuses more. *)
Theorem Validate_spec p : Validate p = Ok tt ↔ profile_ok p.
Proof. exact (Validate_profile_ok p). Qed.
End validated.

(** ** A profile to evaluate things on *)

Definition with_schema (p : Profile) (mode : string) : Profile := {|
  Name := Name p; Mode := mode; Description := Description p;
  Profile_Schema := {| Schema_Kind := KindJSONSchema; Schema_Source := "pets"; Schema_BasePath := "" |};
  Profile_Trigger := Profile_Trigger p; Profile_Request := Profile_Request p;
  Profile_Response := Profile_Response p; Profile_Frame := Profile_Frame p;
  Bindings := []; Profile_Limits := Profile_Limits p; Profile_Audit := Profile_Audit p;
  Documents := {["pets" := "{}"]}
|}.
