(* ===== verification/Snapshot.v ===== *)
(** * internal/config/profiles.go: snapshots of the profile directory

    [read] turns a directory into a snapshot of profiles or fails; the store keeps
    the snapshot in force. The operations are functions of the file system as it
    is when the profiles are read and, later, when the fingerprint is taken. *)
From stdpp Require Import sorting.
From S2P Require Import Prelude GoString FileTree Units Profile.

Definition profileFile := "profile.yaml".

Section snapshots.
Context `{Unicode} {C : Type}.
Context (yaml_decode : Profile → string → result Profile).
Context (sha256 : string → string).
(** The compiler of the store, if it has one. It reads the snapshot by [All]. *)
Context (compiler : option (list Profile → result C)).

Record Snapshot := MkSnapshot {
  Gen : Z; Fingerprint : string;
  byName : gmap string Profile; Snapshot_names : list string;
  Snapshot_limits : Limits; compiled : option C
}.

(** The methods, on a pointer that may be nil. [All] looks up the names, and the
    names of a snapshot are keys of its map. *)
Definition Snapshot_Profile (s : option Snapshot) (name : string) : option Profile :=
  match s with
  | None => None
  | Some s => byName s !! (if is_empty name then DefaultName else name)
  end.
Definition Names (s : option Snapshot) : list string :=
  match s with None => [] | Some s => Snapshot_names s end.
Definition no_limits : Limits := {| MaxBody := 0; MaxDepth := 0; MaxErrors := 0; Cache := 0 |}.
Definition Snapshot_Limits (s : option Snapshot) : Limits :=
  match s with None => no_limits | Some s => Snapshot_limits s end.
Definition Compiled (s : option Snapshot) : option C :=
  match s with None => None | Some s => compiled s end.
Definition profiles_of (byName : gmap string Profile) (names : list string) : list Profile :=
  omap (λ n, byName !! n) names.
Definition All (s : option Snapshot) : list Profile :=
  match s with None => [] | Some s => profiles_of (byName s) (Snapshot_names s) end.

(** *** Reading *)

Definition with_documents (docs : gmap string string) (p : Profile) : Profile := {|
  Name := Name p; Mode := Mode p; Description := Description p;
  Profile_Schema := Profile_Schema p; Profile_Trigger := Profile_Trigger p;
  Profile_Request := Profile_Request p; Profile_Response := Profile_Response p;
  Profile_Frame := Profile_Frame p; Bindings := Bindings p;
  Profile_Limits := Profile_Limits p; Profile_Audit := Profile_Audit p; Documents := docs
|}.

Fixpoint attach_sources (fs : FS) (dir : path) (sources : list string)
    (docs : gmap string string) : result (gmap string string) :=
  match sources with
  | [] => Ok docs
  | source :: sources =>
      raw ← wrapf "profile %s: schema %q: %w" (ReadFile fs (dir ++ [SchemaFilePrefix +:+ source])%list);
      if is_empty raw then errorf "profile %s: schema %q is empty"
      else attach_sources fs dir sources (<[source := raw]> docs)
  end.

Definition attachDocuments (fs : FS) (p : Profile) (dir : path) : result Profile :=
  if Mode p =s? ModeOff then Ok p
  else
    docs ← attach_sources fs dir (Sources p) ∅;
    Ok (with_documents docs p).

(** [None] is the nil profile of a directory without a profile file. *)
Definition readProfile (fs : FS) (dir : path) (name : string) : result (option Profile) :=
  match ReadFile fs (dir ++ [name; profileFile])%list with
  | Err ErrNotExist => Ok None
  | Err e => Err (Wrapf "profiles: %w" e)
  | Ok raw =>
      p ← ParseProfile yaml_decode name raw;
      wrapf "profile %s: %w" (Validate p);;
      p ← attachDocuments fs p (dir ++ [name])%list;
      Ok (Some p)
  end.

Fixpoint read_entries (fs : FS) (dir : path) (entries : list (string * bool))
    (snap : gmap string Profile * list string) : result (gmap string Profile * list string) :=
  match entries with
  | [] => Ok snap
  | (name, isDir) :: entries =>
      if negb isDir then read_entries fs dir entries snap
      else
        p ← readProfile fs dir name;
        match p with
        | None => read_entries fs dir entries snap
        | Some p => read_entries fs dir entries (<[name := p]> snap.1, (snap.2 ++ [name])%list)
        end
  end.

(** The probe profile comes from the base directory when [dir] is another one
    without it; a bad one is only logged. *)
Definition add_probe (fs : FS) (base dir : path) (snap : gmap string Profile * list string)
    : gmap string Profile * list string :=
  if negb (is_some (snap.1 !! ProbeName)) && negb (bool_decide (base = dir)) then
    match readProfile fs base ProbeName with
    | Ok (Some p) => (<[ProbeName := p]> snap.1, (snap.2 ++ [ProbeName])%list)
    | _ => snap
    end
  else snap.

Definition limits_eqb (a b : Limits) : bool :=
  (MaxBody a =? MaxBody b) && (MaxDepth a =? MaxDepth b) && (MaxErrors a =? MaxErrors b) &&
  (Cache a =? Cache b).

(** [first] is the empty string before the first profile, and its name after. *)
Fixpoint common_limits (ps : list (string * Profile)) (first : string) (limits : Limits)
    : result Limits :=
  match ps with
  | [] => Ok limits
  | (name, p) :: ps =>
      if is_empty first then common_limits ps name (Profile_Limits p)
      else if negb (limits_eqb (Profile_Limits p) limits)
      then errorf "profiles %s and %s declare different limits: the section describes the process, not the profile"
      else common_limits ps first limits
  end.
Definition commonLimits (byName : gmap string Profile) (names : list string) : result Limits :=
  common_limits (omap (λ n, (λ p, (n, p)) <$> byName !! n) names) "" no_limits.

Definition nul : string := String (byte 0) "".

Definition slash_path (p : path) : string :=
  match p with [] => "." | _ => Join p "/" end.

Definition fingerprint (fs : FS) (dir : path) : result string :=
  files ← wrapf "profiles: %w" (WalkFiles fs dir);
  let written := (λ '(rel, size, mtime),
    slash_path rel +:+ nul +:+ Itoa size +:+ nul +:+ Itoa mtime +:+ nul) <$> files in
  Ok (EncodeToString (sha256 (Join written ""))).

(** *** The store *)

Record Store := MkStore { dir : path; base : path; cur : option Snapshot; gen : Z }.

(** What [read] makes of the tree [fs], before the fingerprint. *)
Definition read_profiles (fs : FS) (base dir : path)
    : result (gmap string Profile * list string * Limits * option C) :=
  entries ← wrapf "profiles: %w" (ReadDir fs dir);
  snap ← read_entries fs dir entries (∅, []);
  let snap := add_probe fs base dir snap in
  if negb (is_some (snap.1 !! DefaultName)) then errorf "profiles: %s is missing in %s"
  else
    let names := sort_strings snap.2 in
    limits ← commonLimits snap.1 names;
    compiled ← match compiler with
               | None => Ok None
               | Some compile => c ← compile (profiles_of snap.1 names); Ok (Some c)
               end;
    Ok (snap.1, names, limits, compiled).

(** The generation is counted by the store when all has gone well. *)
Definition read (fs fs' : FS) (s : Store) : Store * result Snapshot :=
  let got :=
    parts ← read_profiles fs (base s) (dir s);
    fp ← fingerprint fs' (dir s);
    Ok (parts, fp) in
  match got with
  | Err e => (s, Err e)
  | Ok (byName, names, limits, compiled, fp) =>
      let g := wrap64 (gen s + 1) in
      (MkStore (dir s) (base s) (cur s) g,
       Ok (MkSnapshot g fp byName names limits compiled))
  end.

Definition set_dir (d : path) (s : Store) : Store := MkStore d (base s) (cur s) (gen s).
Definition set_cur (snap : Snapshot) (s : Store) : Store :=
  MkStore (dir s) (base s) (Some snap) (gen s).

Definition LoadProfiles (fs fs' : FS) (d : path) : result Store :=
  let '(s, snap) := read fs fs' (MkStore d d None 0) in
  snap ← snap;
  Ok (set_cur snap s).

Definition ReloadFrom (fs fs' : FS) (d : path) (s : Store) : Store * result unit :=
  let prev := dir s in
  let '(s, snap) := read fs fs' (set_dir d s) in
  match snap with
  | Err e => (set_dir prev s, Err e)
  | Ok snap => (set_cur snap s, Ok tt)
  end.

(** [fs0] is the file system when [Reload] compares, [fs] when it reads, [fs']
    when it takes the new fingerprint. *)
Definition Reload (fs0 fs fs' : FS) (s : Store) : Store * result bool :=
  match fingerprint fs0 (dir s) with
  | Err e => (s, Err e)
  | Ok fp =>
      if match cur s with Some cur => Fingerprint cur =s? fp | None => false end
      then (s, Ok false)
      else
        let '(s, snap) := read fs fs' s in
        match snap with
        | Err e => (s, Err e)
        | Ok snap => (set_cur snap s, Ok true)
        end
  end.

(** [Watch]: at every tick the file systems its reload meets, and what it reports. *)
Fixpoint watch_ticks (ticks : list (FS * FS * FS)) (s : Store) : Store * list (result bool) :=
  match ticks with
  | [] => (s, [])
  | (fs0, fs, fs') :: ticks =>
      let '(s, r) := Reload fs0 fs fs' s in
      let '(s, rs) := watch_ticks ticks s in (s, r :: rs)
  end.

Definition Watch (every : Z) (ticks : list (FS * FS * FS)) (s : Store) : Store * list (result bool) :=
  if every <=? 0 then (s, []) else watch_ticks ticks s.
End snapshots.
Arguments Snapshot : clear implicits.
Arguments Store : clear implicits.

(** ** What a snapshot holds *)

Section listing.
Lemma child_inj dir p q n : child dir p = Some n → child dir q = Some n → p = q.
Proof.
  unfold child. destruct (strip dir p) as [[|a [|]]|] eqn:Ep, (strip dir q) as [[|b [|]]|] eqn:Eq;
    intros; simplify_eq. apply strip_some in Ep, Eq. congruence.
Qed.

Lemma child_some dir p n : child dir p = Some n ↔ p = (dir ++ [n])%list.
Proof.
  unfold child. split.
  - destruct (strip dir p) as [[|a [|]]|] eqn:Ep; intros; simplify_eq. by apply strip_some.
  - intros ->. by rewrite strip_app.
Qed.

Lemma children_spec fs dir :
  NoDup (children fs dir) ∧ ∀ n, n ∈ children fs dir ↔ is_Some (fs !! (dir ++ [n])%list).
Proof.
  unfold children. rewrite sort_strings_perm. split.
  - pose proof (NoDup_fst_map_to_list fs) as Hn. revert Hn.
    induction (map_to_list fs).*1 as [|p l IH]; cbn; [constructor|].
    intros [Hp Hl]%NoDup_cons. destruct (child dir p) as [n|] eqn:E; [|auto].
    apply NoDup_cons. split; [|auto].
    intros (q & Hq & Hc)%list_elem_of_omap. by rewrite (child_inj _ _ _ _ E Hc) in Hp.
  - intros n. rewrite sort_strings_perm, list_elem_of_omap. split.
    + intros (p & ([q m] & Hq & Hin)%list_elem_of_fmap & ->%child_some).
      apply elem_of_map_to_list in Hin. cbn in Hq. subst q. eauto.
    + intros [m Hm]. exists (dir ++ [n])%list. rewrite child_some. split; [|done].
      apply (list_elem_of_fmap_2 fst _ (dir ++ [n], m)%list). by apply elem_of_map_to_list.
Qed.

Lemma ReadDir_names fs dir entries : ReadDir fs dir = Ok entries → NoDup entries.*1.
Proof.
  unfold ReadDir. destruct (fs !! dir) as [[]|]; try done. destruct readable; [|done].
  intros [= <-]. rewrite <- list_fmap_compose. cbn.
  rewrite list_fmap_id. apply children_spec.
Qed.
End listing.

Section loaded.
Context `{Unicode} {C : Type}.
Context (yaml_decode : Profile → string → result Profile).
Context (sha256 : string → string).
Context (compiler : option (list Profile → result C)).

Abbreviation readProfile := (readProfile yaml_decode).
Abbreviation read_profiles := (read_profiles yaml_decode compiler).
Abbreviation read := (read yaml_decode sha256 compiler).
Abbreviation read_entries := (read_entries yaml_decode).
Abbreviation add_probe := (add_probe yaml_decode).

Lemma attach_sources_ok fs dir sources : ∀ docs out,
  attach_sources fs dir sources docs = Ok out →
  (∀ s, s ∈ sources → ∃ raw, raw ≠ "" ∧ out !! s = Some raw ∧
     ReadFile fs (dir ++ [SchemaFilePrefix +:+ s])%list = Ok raw) ∧
  (∀ s, s ∉ sources → out !! s = docs !! s).
Proof.
  induction sources as [|a sources IH]; intros docs out; cbn.
  { intros [= <-]. split; [by intros s ?%not_elem_of_nil|done]. }
  intros (raw & Hr%wrapf_ok & Hk)%bind_ok. destruct (is_empty raw) eqn:E; [done|].
  apply is_empty_false in E. apply IH in Hk as [Hin Hout]. split.
  - intros s Hs. destruct (decide (s ∈ sources)) as [?|Hn]; [by apply Hin|].
    assert (s = a) as -> by set_solver. exists raw. split; [done|].
    rewrite Hout by done. by rewrite lookup_insert_eq.
  - intros s [Hne Hn]%not_elem_of_cons. rewrite Hout by done. by rewrite lookup_insert_ne.
Qed.

(** A profile as the store holds it: under its directory's name, parsed from some
    text, validated, and when it is not off, with the documents it mentions and no
    others. *)
Record profile_loaded (name : string) (p : Profile) : Prop := {
  pl_name : Name p = name;
  pl_parsed : ∃ raw q, ParseProfile yaml_decode name raw = Ok q ∧
    p = with_documents (Documents p) q;
  pl_valid : Validate p = Ok tt;
  pl_docs : Mode p ≠ ModeOff → ∀ s, s ∈ Sources p ↔ is_Some (Documents p !! s);
  pl_text : Mode p ≠ ModeOff → ∀ s, Documents p !! s ≠ Some ""
}.

Lemma readProfile_ok fs dir name p :
  readProfile fs dir name = Ok (Some p) → profile_loaded name p.
Proof.
  unfold Snapshot.readProfile.
  destruct (ReadFile fs _) as [raw|e]; [|destruct e; by intros ?].
  intros (q & Hq & Hr)%bind_ok. apply seq_ok in Hr as [Hv%wrapf_ok Hr].
  apply bind_ok in Hr as (p' & Ha & Hp). injection Hp as ->. pose proof Hq as Hparse.
  apply bind_ok in Hq as (d & _ & Hq). injection Hq as Hq.
  assert (Name q = name) as Hn by by rewrite <- Hq.
  unfold attachDocuments in Ha. destruct (String.eqb_spec (Mode q) ModeOff) as [Ho|Ho].
  { injection Ha as <-. split; try done. exists raw, q. by destruct q. }
  apply bind_ok in Ha as (docs & Hd & Ha). injection Ha as <-.
  apply attach_sources_ok in Hd as [Hin Hout].
  split; [done|by exists raw, q|exact Hv| |].
  - intros _ s. change (Sources (with_documents docs q)) with (Sources q). cbn. split.
    + intros (text & _ & ? & _)%Hin. eauto.
    + intros [text Hs]. destruct (decide (s ∈ Sources q)); [done|].
      rewrite Hout, lookup_empty in Hs by done. done.
  - intros _ s. cbn. destruct (decide (s ∈ Sources q)) as [(text & ? & -> & _)%Hin|Hn'].
    + congruence.
    + by rewrite Hout, lookup_empty.
Qed.

(** What the loop over the entries keeps. *)
Record gathered (fs : FS) (dir base : path) (snap : gmap string Profile * list string) : Prop := {
  ga_nodup : NoDup snap.2;
  ga_keys : ∀ n, n ∈ snap.2 ↔ is_Some (snap.1 !! n);
  ga_read : ∀ n p, snap.1 !! n = Some p →
    readProfile fs dir n = Ok (Some p) ∨ n = ProbeName ∧ readProfile fs base n = Ok (Some p)
}.

Lemma gathered_insert fs dir base snap n p :
  gathered fs dir base snap → n ∉ snap.2 →
  readProfile fs dir n = Ok (Some p) ∨ n = ProbeName ∧ readProfile fs base n = Ok (Some p) →
  gathered fs dir base (<[n := p]> snap.1, (snap.2 ++ [n])%list).
Proof.
  intros [Hn Hk Hr] Hfresh Hp. split; cbn.
  - apply NoDup_app. split_and!; [done| |apply NoDup_singleton]. set_solver.
  - intros m. rewrite elem_of_app, list_elem_of_singleton.
    destruct (decide (n = m)) as [->|Hne].
    + rewrite lookup_insert_eq. naive_solver.
    + rewrite lookup_insert_ne, Hk by done. naive_solver.
  - intros m q. destruct (decide (n = m)) as [->|Hne].
    + rewrite lookup_insert_eq. intros [= <-]. done.
    + rewrite lookup_insert_ne by done. apply Hr.
Qed.

Lemma read_entries_ok fs dir base entries : ∀ snap out,
  gathered fs dir base snap → NoDup entries.*1 → (∀ n, n ∈ entries.*1 → n ∉ snap.2) →
  read_entries fs dir entries snap = Ok out → gathered fs dir base out.
Proof.
  induction entries as [|[n isDir] entries IH]; intros snap out Hg Hnd Hfresh; cbn.
  { by intros [= <-]. }
  cbn in Hnd, Hfresh. apply NoDup_cons in Hnd as [Hn Hnd].
  destruct isDir; cbn.
  - intros (o & Ho & Hk)%bind_ok. destruct o as [p|].
    + eapply IH, Hk; [|done|].
      * apply gathered_insert; [done|set_solver|auto].
      * cbn. intros m Hm. rewrite elem_of_app, list_elem_of_singleton.
        intros [Hs| ->]; [|done]. apply (Hfresh m); [set_solver|done].
    + eapply IH, Hk; [done|done|set_solver].
  - apply IH; [done|done|set_solver].
Qed.

Lemma add_probe_ok fs base dir snap :
  gathered fs dir base snap → gathered fs dir base (add_probe fs base dir snap).
Proof.
  intros Hg. unfold Snapshot.add_probe.
  destruct (negb (is_some _) && _) eqn:E; [|done].
  destruct (readProfile fs base ProbeName) as [[p|]|] eqn:Er; try done.
  apply andb_true_iff in E as [E _]. destruct (snap.1 !! ProbeName) eqn:El; [done|].
  apply gathered_insert; [done| |auto].
  rewrite (ga_keys _ _ _ _ Hg), El. by intros [].
Qed.

Lemma limits_eqb_eq a b : limits_eqb a b = true ↔ a = b.
Proof.
  destruct a, b. unfold limits_eqb. cbn. guards. split; [|by intros [= -> -> -> ->]].
  by intros [[[-> ->] ->] ->].
Qed.

Lemma common_limits_rest ps first limits out :
  first ≠ "" → common_limits ps first limits = Ok out →
  out = limits ∧ Forall (λ np, Profile_Limits np.2 = limits) ps.
Proof.
  intros Hf. induction ps as [|[n p] ps IH]; cbn.
  { intros [= ->]. by split. }
  rewrite (proj2 (is_empty_false _) Hf).
  destruct (limits_eqb _ _) eqn:E; cbn; [|done]. apply limits_eqb_eq in E.
  intros [-> ?]%IH. split; [done|]. by constructor.
Qed.

Lemma common_limits_all ps limits out :
  common_limits ps "" limits = Ok out →
  Forall (λ np, np.1 ≠ "" → Profile_Limits np.2 = out) ps.
Proof.
  revert limits. induction ps as [|[n p] ps IH]; intros limits; cbn; [constructor|].
  destruct (decide (n = "")) as [->|Hn].
  - intros Hps%IH. by constructor.
  - intros [-> Hf]%common_limits_rest; [|done]. constructor; [done|].
    eapply Forall_impl; [exact Hf|]. by intros [].
Qed.

Lemma commonLimits_ok m names out n p :
  commonLimits m names = Ok out → n ∈ names → m !! n = Some p → n ≠ "" → Profile_Limits p = out.
Proof.
  intros Hc%common_limits_all Hn Hm. rewrite Forall_forall in Hc. apply (Hc (n, p)).
  apply list_elem_of_omap. exists n. by rewrite Hm.
Qed.

(** A sound snapshot: its names are the keys of the map, each once and in order;
    the default profile is there; every profile is loaded; the limits are
    everybody's; and the compiler has accepted it. *)
Record snapshot_ok (s : Snapshot C) : Prop := {
  sn_nodup : NoDup (Snapshot_names s);
  sn_sorted : Sorted String.leb (Snapshot_names s);
  sn_keys : ∀ n, n ∈ Snapshot_names s ↔ is_Some (byName s !! n);
  sn_default : is_Some (Snapshot_Profile (Some s) "");
  sn_loaded : ∀ n p, byName s !! n = Some p → profile_loaded n p;
  sn_limits : ∀ n p, byName s !! n = Some p → n ≠ "" → Profile_Limits p = Snapshot_limits s;
  sn_compiled : match compiler with
                | Some compile => ∃ c, compile (All (Some s)) = Ok c ∧ compiled s = Some c
                | None => compiled s = None
                end
}.

Lemma read_profiles_ok fs base dir m names limits c g fp :
  read_profiles fs base dir = Ok (m, names, limits, c) →
  snapshot_ok (MkSnapshot g fp m names limits c) ∧
  ∀ n p, m !! n = Some p →
    readProfile fs dir n = Ok (Some p) ∨ n = ProbeName ∧ readProfile fs base n = Ok (Some p).
Proof.
  intros (entries & He%wrapf_ok & Hr)%bind_ok. apply bind_ok in Hr as (snap & Hs & Hr).
  apply ReadDir_names in He.
  assert (gathered fs dir base snap) as Hg.
  { eapply read_entries_ok, Hs; [|done|].
    - split; cbn; [constructor| |done]. intros n. rewrite lookup_empty.
      split; [by intros ?%not_elem_of_nil|by intros []].
    - intros n _. apply not_elem_of_nil. }
  apply (add_probe_ok _ base) in Hg. revert Hg Hr.
  generalize (add_probe fs base dir snap). clear snap Hs. intros snap [Hn Hk Hread].
  cbn. destruct (is_some (snap.1 !! DefaultName)) eqn:Ed; cbn; [|done]. apply is_some_true in Ed.
  intros (l & Hl & Hr)%bind_ok. apply bind_ok in Hr as (c' & Hc & Hr). injection Hr as <- <- <- <-.
  split; [|exact Hread]. pose proof (sort_strings_perm snap.2) as Hp.
  split; unfold Snapshot_Profile, All; cbn.
  - by rewrite Hp.
  - apply sort_strings_sorted.
  - intros n. by rewrite Hp.
  - exact Ed.
  - intros n p Hm. destruct (Hread n p Hm) as [?|[_ ?]]; by eapply readProfile_ok.
  - intros n p Hm. eapply commonLimits_ok; [exact Hl| |done]. rewrite Hp. apply Hk. eauto.
  - destruct compiler as [compile|]; [|by injection Hc as <-].
    apply bind_ok in Hc as (c & Hc & E). injection E as <-. eauto.
Qed.

Lemma read_ok fs fs' s s' r :
  read fs fs' s = (s', r) →
  match r with
  | Err _ => s' = s
  | Ok snap => snapshot_ok snap ∧ Gen snap = wrap64 (gen s + 1) ∧
      fingerprint sha256 fs' (dir s) = Ok (Fingerprint snap) ∧
      s' = MkStore (dir s) (base s) (cur s) (Gen snap)
  end.
Proof.
  unfold Snapshot.read. destruct (read_profiles fs (base s) (dir s)) as [[[[m names] limits] c]|] eqn:E;
    cbn; [|by intros [= <- <-]].
  destruct (fingerprint sha256 fs' (dir s)) as [fp|] eqn:Ef; cbn; [|by intros [= <- <-]].
  intros [= <- <-]. split; [|done]. exact (proj1 (read_profiles_ok _ _ _ _ _ _ _ _ _ E)).
Qed.

(** *** What a snapshot is made of *)

Lemma readProfile_made fs dir name p :
  readProfile fs dir name = Ok (Some p) →
  ∃ raw q, ReadFile fs (dir ++ [name; profileFile])%list = Ok raw ∧
    ParseProfile yaml_decode name raw = Ok q ∧ p = with_documents (Documents p) q ∧
    (Mode p ≠ ModeOff → ∀ s text, Documents p !! s = Some text →
       ReadFile fs ((dir ++ [name]) ++ [SchemaFilePrefix +:+ s])%list = Ok text).
Proof.
  unfold Snapshot.readProfile.
  destruct (ReadFile fs (dir ++ [name; profileFile])%list) as [raw|e] eqn:Er; [|destruct e; by intros ?].
  intros (q & Hq & Hr)%bind_ok. apply seq_ok in Hr as [_ Hr].
  apply bind_ok in Hr as (p' & Ha & Hp). injection Hp as ->. exists raw, q. split; [done|]. split; [done|].
  unfold attachDocuments in Ha. destruct (String.eqb_spec (Mode q) ModeOff) as [Ho|Ho].
  { injection Ha as <-. split; [by destruct q|]. done. }
  apply bind_ok in Ha as (docs & Hd & Ha). injection Ha as <-. split; [done|].
  apply attach_sources_ok in Hd as [Hin Hout]. intros _ s text Hs. cbn in Hs.
  destruct (decide (s ∈ Sources q)) as [(t & _ & Ht & Hf)%Hin|Hn].
  - by rewrite Ht in Hs; injection Hs as <-.
  - by rewrite Hout, lookup_empty in Hs.
Qed.

Lemma read_entries_all fs dir entries : ∀ snap out,
  NoDup entries.*1 → read_entries fs dir entries snap = Ok out →
  (∀ n p, snap.1 !! n = Some p → n ∉ entries.*1 → out.1 !! n = Some p) ∧
  ∀ n, (n, true) ∈ entries → readProfile fs dir n = Ok None ∨
    ∃ p, readProfile fs dir n = Ok (Some p) ∧ out.1 !! n = Some p.
Proof.
  induction entries as [|[n isDir] entries IH]; intros snap out Hnd; cbn.
  { intros [= <-]. split; [done|]. by intros n ?%not_elem_of_nil. }
  cbn in Hnd. apply NoDup_cons in Hnd as [Hn Hnd].
  assert (∀ snap', read_entries fs dir entries snap' = Ok out →
    (∀ k p, snap.1 !! k = Some p → k ≠ n → snap'.1 !! k = Some p) →
    (∀ k p, snap.1 !! k = Some p → k ∉ n :: entries.*1 → out.1 !! k = Some p) ∧
    (∀ k, (k, true) ∈ entries → readProfile fs dir k = Ok None ∨
       ∃ p, readProfile fs dir k = Ok (Some p) ∧ out.1 !! k = Some p)) as Hrest.
  { intros snap' Hr Hk. destruct (IH _ _ Hnd Hr) as [H1 H2]. split; [|exact H2].
    intros k p Hp [Hne Hke]%not_elem_of_cons. apply H1; auto. }
  destruct isDir; cbn.
  - intros (o & Ho & Hk)%bind_ok. destruct o as [p|].
    + destruct (Hrest _ Hk) as [H1 H2].
      { intros k q Hq Hne. cbn. by rewrite lookup_insert_ne. }
      split; [exact H1|]. intros k [[= ->]|Hin]%elem_of_cons; [|by apply H2]. right. exists p.
      split; [done|]. destruct (IH _ _ Hnd Hk) as [H3 _]. apply H3; [|done]. cbn. apply lookup_insert_eq.
    + destruct (Hrest _ Hk) as [H1 H2]; [done|]. split; [exact H1|].
      intros k [[= ->]|Hin]%elem_of_cons; [by left|by apply H2].
  - intros Hk. destruct (Hrest _ Hk) as [H1 H2]; [done|]. split; [exact H1|].
    intros k [[= _]|Hin]%elem_of_cons. by apply H2.
Qed.

Lemma ReadDir_dirs fs dir entries n :
  ReadDir fs dir = Ok entries → is_dir fs (dir ++ [n])%list = true → (n, true) ∈ entries.
Proof.
  unfold ReadDir. destruct (fs !! dir) as [[]|]; try done. destruct readable; [|done].
  intros [= <-] Hd. apply list_elem_of_fmap. exists n. split; [by rewrite Hd|].
  apply children_spec. unfold is_dir in Hd. destruct (dir ++ [n])%list eqn:E; [by destruct dir|].
  rewrite <- E in Hd |- *. destruct (fs !! (dir ++ [n])%list); [by eexists|done].
Qed.

(** Its profiles are those of the directories of the tree that have a profile file;
    the probe profile may be that of the base directory, if the tree has none. *)
Lemma read_made fs fs' s s' snap :
  read fs fs' s = (s', Ok snap) →
  (∀ n p, byName snap !! n = Some p → readProfile fs (dir s) n = Ok (Some p) ∨
     n = ProbeName ∧ readProfile fs (base s) n = Ok (Some p)) ∧
  ∀ n, is_dir fs (dir s ++ [n])%list = true → readProfile fs (dir s) n = Ok None ∨
    ∃ p, readProfile fs (dir s) n = Ok (Some p) ∧ byName snap !! n = Some p.
Proof.
  unfold Snapshot.read. destruct (read_profiles fs (base s) (dir s)) as [[[[m names] limits] c]|] eqn:E;
    cbn; [|done].
  destruct (fingerprint sha256 fs' (dir s)) as [fp|]; cbn; [|done]. intros [= _ <-]. cbn.
  split; [exact (proj2 (read_profiles_ok _ _ _ _ _ _ _ 0 "" E))|]. intros n Hn.
  unfold Snapshot.read_profiles in E. apply bind_ok in E as (entries & He%wrapf_ok & E).
  apply bind_ok in E as (got & Hg & E).
  destruct (read_entries_all _ _ _ _ _ (ReadDir_names _ _ _ He) Hg) as [_ Hall].
  destruct (Hall n (ReadDir_dirs _ _ _ _ He Hn)) as [?|(p & Hp & Hlook)]; [by left|right].
  exists p. split; [done|]. assert (m = (add_probe fs (base s) (dir s) got).1) as ->.
  { revert E. generalize (add_probe fs (base s) (dir s) got). intros k. cbn.
    destruct (negb _); [done|]. intros (l & _ & E)%bind_ok. apply bind_ok in E as (x & _ & E).
    by injection E as <- _ _ _. }
  unfold Snapshot.add_probe. destruct (negb (is_some (got.1 !! ProbeName)) && _) eqn:Ea; [|done].
  destruct (Snapshot.readProfile _ _ (base s) ProbeName) as [[q|]|]; [|done|done]. cbn.
  rewrite lookup_insert_ne; [done|]. intros <-. by rewrite Hlook in Ea.
Qed.

Lemma reloaded_from fs fs' d s s' r :
  ReloadFrom yaml_decode sha256 compiler fs fs' d s = (s', r) →
  match r with
  | Err _ => s' = s
  | Ok _ => ∃ snap, read fs fs' (set_dir d s) = (MkStore d (base s) (cur s) (Gen snap), Ok snap) ∧
      snapshot_ok snap ∧ s' = MkStore d (base s) (Some snap) (wrap64 (gen s + 1))
  end.
Proof.
  unfold ReloadFrom. destruct (read fs fs' (set_dir d s)) as [s1 [snap|e]] eqn:E.
  - apply read_ok in E as H1. destruct H1 as (Hok & Hg & _ & ->). intros [= <- <-].
    exists snap. split_and!; [done|done|]. unfold set_cur. cbn. by rewrite Hg.
  - apply read_ok in E as ->. intros [= <- <-]. by destruct s.
Qed.

(** C37. A reload that fails leaves the store as it was, directory and snapshot;
    one that succeeds puts a sound snapshot of the new directory in force. *)
Theorem ReloadFrom_spec fs fs' d s s' r :
  ReloadFrom yaml_decode sha256 compiler fs fs' d s = (s', r) →
  match r with
  | Err _ => s' = s
  | Ok _ => ∃ snap, read fs fs' (set_dir d s) = (MkStore d (base s) (cur s) (Gen snap), Ok snap) ∧
      snapshot_ok snap ∧ s' = MkStore d (base s) (Some snap) (wrap64 (gen s + 1))
  end.
Proof. exact (reloaded_from fs fs' d s s' r). Qed.

(** [Reload] reads anew exactly when the fingerprint differs from the one in
    force; when anything fails, the snapshot in force stays. *)
Theorem Reload_spec fs0 fs fs' s s' r :
  Reload yaml_decode sha256 compiler fs0 fs fs' s = (s', r) →
  match r with
  | Err _ => s' = s
  | Ok false => s' = s ∧ ∃ snap, cur s = Some snap ∧
      fingerprint sha256 fs0 (dir s) = Ok (Fingerprint snap)
  | Ok true => ∃ snap, snapshot_ok snap ∧
      fingerprint sha256 fs' (dir s) = Ok (Fingerprint snap) ∧
      s' = MkStore (dir s) (base s) (Some snap) (wrap64 (gen s + 1))
  end.
Proof.
  unfold Reload. destruct (fingerprint sha256 fs0 (dir s)) as [fp|e] eqn:Ef; [|by intros [= <- <-]].
  destruct (match cur s with Some c => _ | None => _ end) eqn:Ec.
  { intros [= <- <-]. split; [done|]. destruct (cur s) as [c|]; [|done].
    apply seqb_eq in Ec as <-. eauto. }
  destruct (read fs fs' s) as [s1 [snap|e]] eqn:E; apply read_ok in E.
  - destruct E as (Hok & Hg & Hf & ->). intros [= <- <-]. exists snap. split_and!; [done|done|].
    unfold set_cur. cbn. by rewrite Hg.
  - subst. by intros [= <- <-].
Qed.

(** *** The watcher *)

(** What a reload reports when nothing has changed since one that reported [r]. *)
Definition settled (r : result bool) : result bool :=
  match r with Ok _ => Ok false | Err e => Err e end.

Lemma Reload_again fs s s' r :
  Reload yaml_decode sha256 compiler fs fs fs s = (s', r) →
  Reload yaml_decode sha256 compiler fs fs fs s' = (s', settled r).
Proof.
  intros E. pose proof (Reload_spec _ _ _ _ _ _ E) as Hs. destruct r as [[|]|e].
  - destruct Hs as (snap & _ & Hf & ->). unfold Reload. cbn. rewrite Hf. by rewrite seqb_refl.
  - destruct Hs as [-> _]. done.
  - subst. done.
Qed.

(** C14. While the files do not change, only the first tick of the watcher can do
    anything: it loads them if they are not in force, and from then on every tick
    reports no change; or it fails, and every tick fails in the same way and leaves
    the store as it was. Without an interval there is no tick. *)
Theorem Watch_settles every fs n s :
  Watch yaml_decode sha256 compiler every (replicate (S n) (fs, fs, fs)) s =
    if every <=? 0 then (s, [])
    else
      let '(s', r) := Reload yaml_decode sha256 compiler fs fs fs s in
      (s', r :: replicate n (settled r)).
Proof.
  unfold Watch. destruct (every <=? 0); [done|]. cbn [replicate watch_ticks].
  destruct (Reload _ _ _ fs fs fs s) as [s' r] eqn:E. apply Reload_again in E.
  assert (watch_ticks yaml_decode sha256 compiler (replicate n (fs, fs, fs)) s' =
    (s', replicate n (settled r))) as ->; [|done].
  assert (settled (settled r) = settled r) as Hset by by destruct r.
  induction n as [|n IH]; [done|]. cbn [replicate watch_ticks]. by rewrite E, IH.
Qed.

(** *** Reloads that overlap

    The watcher of the directory and the watcher of the desired state run [Reload]
    and [ReloadFrom] at once: any number of reads may be under way, of any
    directory the store has had, and end in any order. A read that has ended
    waits in [fetched] for its store. *)
Record world := World { store : Store C; fetched : list (Snapshot C) }.

Inductive store_step : world → world → Prop :=
| step_dir s l d : store_step (World s l) (World (set_dir d s) l)
| step_read s l d fs fs' s' snap :
    read fs fs' (set_dir d s) = (s', Ok snap) →
    store_step (World s l) (World (set_dir (dir s) s') (l ++ [snap]))
| step_store s l1 snap l2 :
    store_step (World s (l1 ++ snap :: l2)) (World (set_cur snap s) (l1 ++ l2)).

(** A store with a sound snapshot in force, and sound ones on their way. *)
Record sound_world (w : world) : Prop := {
  sw_cur : ∃ snap, cur (store w) = Some snap ∧ snapshot_ok snap;
  sw_fetched : Forall snapshot_ok (fetched w)
}.

Lemma loaded_sound fs fs' d s :
  LoadProfiles yaml_decode sha256 compiler fs fs' d = Ok s → sound_world (World s []).
Proof.
  unfold LoadProfiles. destruct (read fs fs' _) as [s1 r] eqn:E.
  intros (snap & -> & Hs)%bind_ok. injection Hs as <-. apply read_ok in E as (Hok & _ & _ & ->).
  split; cbn; [eauto|constructor].
Qed.

Lemma step_sound w w' : store_step w w' → sound_world w → sound_world w'.
Proof.
  intros [s l d|s l d f f' s' snap Hr|s l1 snap l2] [Hc Hf]; cbn in *.
  - by split.
  - apply read_ok in Hr as (? & _ & _ & ->). split; cbn; [done|].
    apply Forall_app. split; [done|by apply Forall_singleton].
  - apply Forall_app in Hf as [? [? ?]%Forall_cons]. split; cbn; [eauto|by apply Forall_app].
Qed.

Lemma steps_sound w w' : rtc store_step w w' → sound_world w → sound_world w'.
Proof. induction 1; eauto using step_sound. Qed.

(** C13. However reloads overlap and whatever happens to the files meanwhile, the
    store keeps a sound snapshot in force from the moment it is loaded. *)
Theorem store_sound fs fs' d s w :
  LoadProfiles yaml_decode sha256 compiler fs fs' d = Ok s →
  rtc store_step (World s []) w →
  ∃ snap, cur (store w) = Some snap ∧ snapshot_ok snap.
Proof. intros Hl%loaded_sound Hr. by apply (steps_sound _ _ Hr). Qed.

(** The operations are runs of these steps, whatever else is on its way. *)
Lemma store_read_steps fs fs' s s' snap l :
  read fs fs' s = (s', Ok snap) → rtc store_step (World s l) (World (set_cur snap s') l).
Proof.
  intros Hr. assert (set_dir (dir s) s = s) as E by by destruct s.
  rewrite <- E in Hr at 1. apply read_ok in Hr as Hs. destruct Hs as (_ & _ & _ & Hs).
  eapply rtc_l; [by eapply step_read|]. rewrite Hs.
  eapply rtc_l; [apply (step_store _ l snap [])|]. by rewrite app_nil_r.
Qed.

Lemma ReloadFrom_steps fs fs' d s s' r l :
  ReloadFrom yaml_decode sha256 compiler fs fs' d s = (s', r) →
  rtc store_step (World s l) (World s' l).
Proof.
  unfold ReloadFrom. destruct (read fs fs' (set_dir d s)) as [s1 [snap|e]] eqn:E.
  - intros [= <- <-]. eapply rtc_l; [apply step_dir|]. by apply (store_read_steps fs fs').
  - apply read_ok in E as ->. intros [= <- <-]. by destruct s.
Qed.

Lemma Reload_steps fs0 fs fs' s s' r l :
  Reload yaml_decode sha256 compiler fs0 fs fs' s = (s', r) →
  rtc store_step (World s l) (World s' l).
Proof.
  unfold Reload. destruct (fingerprint sha256 fs0 (dir s)); [|by intros [= <- <-]].
  destruct (match cur s with Some c => _ | None => _ end); [by intros [= <- <-]|].
  destruct (read fs fs' s) as [s1 [snap|e]] eqn:E.
  - intros [= <- <-]. by apply (store_read_steps fs fs').
  - apply read_ok in E as ->. by intros [= <- <-].
Qed.

Lemma Watch_steps every ticks : ∀ s s' rs l,
  Watch yaml_decode sha256 compiler every ticks s = (s', rs) →
  rtc store_step (World s l) (World s' l).
Proof.
  unfold Watch. destruct (every <=? 0); [by intros s s' rs l [= <- <-]|].
  induction ticks as [|[[fs0 fs] fs'] ticks IH]; intros s s' rs l; cbn; [by intros [= <- <-]|].
  destruct (Reload _ _ _ fs0 fs fs' s) as [s1 r] eqn:E1.
  destruct (watch_ticks _ _ _ ticks s1) as [s2 rs2] eqn:E2. intros [= <- _].
  etrans; [by eapply Reload_steps|by eapply IH].
Qed.

(** Two reads that overlap may be stored in the other order: the generation in
    force goes back to that of the earlier read, until a later reload. *)
Lemma store_goes_back s d d' f1 f1' f2 f2' s1 a s2 b :
  read f1 f1' (set_dir d s) = (s1, Ok a) →
  read f2 f2' (set_dir d' (set_dir (dir s) s1)) = (s2, Ok b) →
  ∃ w1 w2, rtc store_step (World s []) w1 ∧ rtc store_step w1 w2 ∧
    cur (store w1) = Some b ∧ cur (store w2) = Some a ∧ Gen b = wrap64 (Gen a + 1).
Proof.
  intros Ra Rb. exists (World (set_cur b (set_dir (dir s) s2)) [a]).
  exists (World (set_cur a (set_cur b (set_dir (dir s) s2))) []).
  apply read_ok in Ra as Ha. destruct Ha as (_ & Ga & _ & E1).
  apply read_ok in Rb as Hb. destruct Hb as (_ & Gb & _ & E2). subst s1.
  split_and!; [|apply rtc_once, (step_store _ [])|done|done|exact Gb].
  eapply rtc_l; [by eapply (step_read s [] d)|].
  eapply rtc_l; [by eapply (step_read _ [a] d')|]. apply rtc_once, (step_store _ [a] b []).
Qed.
End loaded.

(** ** Witnesses *)

Definition sample_fs (text : string) (mtime : Z) : FS :=
  {[ ["p"] := Dir true; ["p"; "default"] := Dir true;
     ["p"; "default"; profileFile] := File text mtime true ]}.

(** A decoder whose documents are descriptions of a profile that is off. *)
Definition sample_decode (p : Profile) (raw : string) : result Profile :=
  let q := with_schema p ModeOff in
  if raw =s? "bad" then Err EOF else Ok {|
  Name := Name q; Mode := Mode q; Description := raw;
  Profile_Schema := Profile_Schema q; Profile_Trigger := Profile_Trigger q;
  Profile_Request := Profile_Request q; Profile_Response := Profile_Response q;
  Profile_Frame := Profile_Frame q; Bindings := Bindings q;
  Profile_Limits := Profile_Limits q; Profile_Audit := Profile_Audit q; Documents := Documents q
|}.

Definition sample_load (fs fs' : FS) : result (Store unit) :=
  @LoadProfiles ascii_tables unit sample_decode id None fs fs' ["p"].

Abbreviation sample_reload_from :=
  (@ReloadFrom ascii_tables unit sample_decode id None).
Abbreviation sample_reload := (@Reload ascii_tables unit sample_decode id None).

Definition sample_store : Store unit :=
  match sample_load (sample_fs "a" 1) (sample_fs "a" 1) with
  | Ok s => s
  | Err _ => MkStore [] [] None 0
  end.

Theorem ReloadFrom_spec_witness :
  sample_reload_from (sample_fs "bad" 2) (sample_fs "bad" 2) ["p"] sample_store =
    (sample_store, Err (Wrapf "profile %s: %w" EOF)) ∧
  sample_store = sample_store.
Proof.
  assert (sample_reload_from (sample_fs "bad" 2) (sample_fs "bad" 2) ["p"] sample_store =
    (sample_store, Err (Wrapf "profile %s: %w" EOF))) as E by (vm_compute; reflexivity).
  split; [exact E|].
  exact (@ReloadFrom_spec ascii_tables unit sample_decode id None _ _ _ _ _ _ E).
Defined.

Theorem Reload_spec_witness :
  ∃ snap, sample_reload (sample_fs "a" 1) ∅ ∅ sample_store = (sample_store, Ok false) ∧
    cur sample_store = Some snap ∧
    fingerprint id (sample_fs "a" 1) (dir sample_store) = Ok (Fingerprint snap).
Proof.
  assert (sample_reload (sample_fs "a" 1) ∅ ∅ sample_store = (sample_store, Ok false)) as E
    by (vm_compute; reflexivity).
  pose proof (@Reload_spec ascii_tables unit sample_decode id None _ _ _ _ _ _ E : _ ∧ _)
    as (_ & snap & Hs & Hf).
  exists snap. split; [exact E|]. split; [exact Hs|exact Hf].
Defined.

Theorem store_sound_witness :
  ∃ snap, cur sample_store = Some snap ∧
    @snapshot_ok ascii_tables unit sample_decode None snap.
Proof.
  assert (sample_load (sample_fs "a" 1) (sample_fs "a" 1) = Ok sample_store) as E
    by (vm_compute; reflexivity).
  exact (@store_sound ascii_tables unit sample_decode id None _ _ _ _ (World sample_store []) E
    (rtc_refl _ _)).
Defined.

(** The fingerprint is taken after the profiles are read. An edit in between is
    recorded as seen: the reload finds nothing to do, and the profile of before
    the edit stays in force for as long as the files do not change again. *)
Lemma Reload_misses_edit :
  match sample_load (sample_fs "old" 1) (sample_fs "new" 2), sample_load (sample_fs "new" 2) (sample_fs "new" 2) with
  | Ok s, Ok s' =>
      sample_reload (sample_fs "new" 2) (sample_fs "new" 2) (sample_fs "new" 2) s = (s, Ok false) ∧
      Description <$> Snapshot_Profile (cur s) "" = Some "old" ∧
      Description <$> Snapshot_Profile (cur s') "" = Some "new"
  | _, _ => False
  end.
Proof. vm_compute. auto. Qed.
