(* ===== verification/Desired.v ===== *)
(** * internal/desired: the desired state

    A manifest with the profiles the inspector should run comes from the bus.
    [Apply] writes it next to the live tree, swaps the trees by renaming and reloads
    the store, and goes back when that fails; [watch_step] is the body of the loop
    of [Watch]. The disk is the file system with a list of the faults to come: an
    operation that writes may fail, and may then have done a part of its work. *)
From S2P Require Import Prelude GoString FileTree Profile Snapshot.

Definition ApplyOK := "ok".
Definition ApplyFailed := "apply_failed".
Definition treeDir := "profiles".
Definition DefaultProfile := "default".

Record file := DFile { file_Name : string; Text : string }.
Record profile := DProfile { Files : list file }.

(** [level] is set by [validate]. *)
Record Settings := MkSettings { LogLevel : string; level : Z }.

Record Manifest := MkManifest {
  MV : Z; Rev : Z; ConfigHash : string; Profiles : gmap string profile;
  Manifest_Settings : option Settings
}.

Section manifest.
Context (sha256 : string → string) (unmarshal : string → result Manifest).
(** [loglevel.Parse]. *)
Context (parse_level : string → result Z).

Definition settings_validate (s : option Settings) : result (option Settings) :=
  match s with
  | None => Ok None
  | Some s =>
      l ← wrapf "settings.log_level: %w" (parse_level (LogLevel s));
      Ok (Some (MkSettings (LogLevel s) l))
  end.

Definition writeSettings (s : option Settings) : string :=
  match s with
  | None => ""
  | Some s => "settings" +:+ nul +:+ "log_level" +:+ nul +:+ LogLevel s +:+ nul
  end.

Definition file_text (f : file) : string := file_Name f +:+ nul +:+ Text f +:+ nul.
Definition Manifest_Names (ps : gmap string profile) : list string :=
  sort_strings (map_to_list ps).*1.
Definition profile_text (ps : gmap string profile) (name : string) : string :=
  name +:+ nul +:+
  Join (file_text <$> match ps !! name with Some p => Files p | None => [] end) "".

(** What is hashed. *)
Definition hashed (ps : gmap string profile) (s : option Settings) : string :=
  Join (profile_text ps <$> Manifest_Names ps) "" +:+ writeSettings s.
Definition HashWith (ps : gmap string profile) (s : option Settings) : string :=
  "sha256:" +:+ EncodeToString (sha256 (hashed ps s)).

Definition separators : string := "/\".

Definition bad_file (f : file) : bool :=
  is_empty (file_Name f) || ContainsAny (file_Name f) separators || (file_Name f =s? ".") ||
  (file_Name f =s? "..").

Definition check_file (_ : nat) (f : file) : result unit :=
  fail_if (bad_file f) "manifest: profile %q has a bad file name %q".

Definition check_profile (_ : nat) (np : string * profile) : result unit :=
  let '(name, p) := np in
  fail_if (is_empty name || is_nil (Files p)) "manifest: profile %q is empty";;
  for_each check_file 0 (Files p);;
  fail_if ((name =s? ".") || (name =s? "..") || ContainsAny name separators)
    "manifest: bad profile name %q".

Definition Parse (raw : string) : result Manifest :=
  m ← wrapf "manifest: %w" (unmarshal raw);
  fail_if (negb (MV m =? 1)) "manifest: unsupported v %d";;
  fail_if (Rev m <? 1) "manifest: rev must be positive";;
  fail_if (negb (is_some (Profiles m !! DefaultProfile))) "manifest: profile %q is missing";;
  for_each check_profile 0 (map_to_list (Profiles m));;
  s ← wrapf "manifest: %w" (settings_validate (Manifest_Settings m));
  let got := HashWith (Profiles m) s in
  fail_if (negb (is_empty (ConfigHash m)) && negb (ConfigHash m =s? got))
    "manifest: config_hash mismatch: got %s want %s";;
  Ok (MkManifest (MV m) (Rev m) got (Profiles m) s).
End manifest.

(** ** The disk *)

(** An operation that fails: its error; how far [os.MkdirAll] got, or [os.WriteFile],
    if it began; which of the entries below its path [os.RemoveAll] left. *)
Record fault := Fault { fault_error : error; fault_wrote : option nat; fault_kept : path → bool }.

Record disk := Disk { fs : FS; faults : list (option fault) }.

(** A directory stays while something below it does. *)
Definition stays (fs : FS) (p : path) (kept : path → bool) (r : path) : bool :=
  existsb (λ q, match strip (p ++ r)%list q with Some s => kept (r ++ s)%list | None => false end)
    (map_to_list fs).*1.
Definition remaining (fs : FS) (p : path) (kept : path → bool) : FS :=
  filter (λ e, match strip p e.1 with None => true | Some r => stays fs p kept r end = true) fs.

(** A computation on the disk. *)
Definition action (A : Type) : Type := disk → disk * result A.
Definition act_ret {A} (a : A) : action A := λ d, (d, Ok a).
Definition act_bind {A B} (m : action A) (k : A → action B) : action B := λ d,
  let '(d, r) := m d in match r with Ok a => k a d | Err e => (d, Err e) end.
Notation "x <- m ; k" := (act_bind m (λ x, k)) (at level 100, m at level 90, right associativity)
  : go_scope.
Notation "m >>; k" := (act_bind m (λ _, k)) (at level 100, right associativity) : go_scope.

(** One operation of the file system: its effect, or, when there is a fault, what
    is done of it. *)
Definition operate (f : FS → result FS) (part : fault → FS → FS) : action unit := λ d,
  match faults d with
  | Some ft :: fl => (Disk (part ft (fs d)) fl, Err (fault_error ft))
  | None :: fl | ([] as fl) =>
      match f (fs d) with
      | Ok fs' => (Disk fs' fl, Ok tt)
      | Err e => (Disk (fs d) fl, Err e)
      end
  end.

(** [_ = op]: the result is dropped. *)
Definition ignore (m : action unit) : action unit := λ d, ((m d).1, Ok tt).

Definition mkdirAll (p : path) : action unit :=
  operate (λ fs, MkdirAll fs p) (λ ft fs,
    match fault_wrote ft with
    | Some n => match MkdirAll fs (take n p) with Ok fs' => fs' | Err _ => fs end
    | None => fs
    end).
Definition removeAll (p : path) : action unit :=
  operate (λ fs, Ok (RemoveAll fs p)) (λ ft fs, remaining fs p (fault_kept ft)).
Definition rename (old new : path) : action unit := operate (λ fs, Rename fs old new) (λ _ fs, fs).

Section apply.
Context `{Unicode} {C : Type}.
Context (yaml_decode : Profile → string → result Profile) (sha256 : string → string).
Context (compiler : option (list Profile → result C)).
(** The time of the files written. *)
Context (now : Z).

Definition writeFile (p : path) (text : string) : action unit :=
  operate (λ fs, WriteFile fs now p text) (λ ft fs,
    match fault_wrote ft with
    | Some n =>
        match WriteFile fs now p (of_bytes (take n (bytes text))) with Ok fs' => fs' | Err _ => fs end
    | None => fs
    end).

Fixpoint write_files (sub : path) (files : list file) : action unit :=
  match files with
  | [] => act_ret tt
  | f :: files => writeFile (join sub (file_Name f)) (Text f) >>; write_files sub files
  end.

Fixpoint write_profiles (dir : path) (ps : list (string * profile)) : action unit :=
  match ps with
  | [] => act_ret tt
  | (name, p) :: ps =>
      mkdirAll (join dir name) >>;
      write_files (join dir name) (Files p) >>;
      write_profiles dir ps
  end.

Definition write (dir : path) (m : Manifest) : action unit :=
  mkdirAll dir >>; write_profiles dir (map_to_list (Profiles m)).

(** The store is read and written besides the disk. *)
Abbreviation reload := (ReloadFrom yaml_decode sha256 compiler).

(** What happened to the live tree when it was put aside. *)
Definition park (live prev : path) (d : disk) : disk * result bool :=
  match rename live prev d with
  | (d, Ok _) => (d, Ok true)
  | (d, Err ErrNotExist) => (d, Ok false)
  | (d, Err e) => (d, Err e)
  end.

Definition Apply (store : Store C) (dataDir : path) (m : Manifest) (d : disk)
    : disk * Store C * result unit :=
  let staging := join dataDir ".next" in
  let prev := join dataDir ".prev" in
  let live := join dataDir treeDir in
  match mkdirAll dataDir d with
  | (d, Err e) => (d, store, Err (Wrapf "data dir: %w" e))
  | (d, Ok _) =>
      let d := (removeAll staging d).1 in
      match write staging m d with
      | (d, Err e) => ((removeAll staging d).1, store, Err e)
      | (d, Ok _) =>
          let d := (removeAll prev d).1 in
          match park live prev d with
          | (d, Err e) => ((removeAll staging d).1, store, Err (Wrapf "park live: %w" e))
          | (d, Ok lived) =>
              match rename staging live d with
              | (d, Err e) =>
                  let d := if lived then (rename prev live d).1 else d in
                  ((removeAll staging d).1, store, Err (Wrapf "promote staging: %w" e))
              | (d, Ok _) =>
                  let '(store, r) := reload (fs d) (fs d) live store in
                  match r with
                  | Ok _ => ((removeAll prev d).1, store, Ok tt)
                  | Err e =>
                      let d := (removeAll live d).1 in
                      if lived then
                        match rename prev live d with
                        | (d, Ok _) => (d, (reload (fs d) (fs d) live store).1, Err e)
                        | (d, Err _) => (d, store, Err e)
                        end
                      else (d, store, Err e)
                  end
              end
          end
      end
  end.

(** ** Watching *)

Record Applied := MkApplied { hash : string; rev : Z; status : string; names : list string }.

Definition Applied_Snapshot (a : option Applied) : string * Z * string * list string :=
  match a with None => ("", 0, "", []) | Some a => (hash a, rev a, status a, names a) end.

Inductive kv_op := KVPut | KVDelete | KVPurge.

Record entry := Entry { operation : kv_op; entry_value : string }.

Record watcher := Watcher {
  w_applied : Applied; w_store : Store C; w_disk : disk; w_level : Z
}.

(** [Settings.apply]: the level of the process, which is not nil. *)
Definition settings_apply (s : option Settings) (lvl : Z) : Z :=
  match s with None => lvl | Some s => level s end.

Context (unmarshal : string → result Manifest) (parse_level : string → result Z).

(** One turn of the loop; [None] is the nil entry that ends the initial values. *)
Definition watch_step (dataDir : path) (e : option entry) (w : watcher) : watcher :=
  match e with
  | None => w
  | Some e =>
      match operation e with
      | KVDelete | KVPurge => w
      | KVPut =>
          match Parse sha256 unmarshal parse_level (entry_value e) with
          | Err _ => w
          | Ok m =>
              let a := w_applied w in
              if (status a =s? ApplyOK) && (hash a =s? ConfigHash m) && (rev a =? Rev m) then w
              else
                match Apply (w_store w) dataDir m (w_disk w) with
                | (d, s, Err _) =>
                    Watcher (MkApplied (hash a) (rev a) ApplyFailed (names a)) s d (w_level w)
                | (d, s, Ok _) =>
                    Watcher (MkApplied (ConfigHash m) (Rev m) ApplyOK (Manifest_Names (Profiles m)))
                      s d (settings_apply (Manifest_Settings m) (w_level w))
                end
          end
      end
  end.

(** [dataDir] is a path or, when it is not configured, empty. *)
Definition Bootstrap (fs : FS) (dataDir : option path) (s : Store C) : Store C * bool :=
  match dataDir with
  | None => (s, false)
  | Some dataDir =>
      let live := join dataDir treeDir in
      match Stat fs (join (join live DefaultProfile) "profile.yaml") with
      | Err _ => (s, false)
      | Ok _ =>
          match reload fs fs live s with
          | (s, Err _) => (s, false)
          | (s, Ok _) => (s, true)
          end
      end
  end.
End apply.

(** ** What a parsed manifest satisfies *)

Record manifest_ok (sha256 : string → string) (m : Manifest) : Prop := {
  mo_v : MV m = 1;
  mo_rev : 1 ≤ Rev m;
  mo_default : is_Some (Profiles m !! DefaultProfile);
  mo_names : ∀ name p, Profiles m !! name = Some p →
    plain_name name ∧ Files p ≠ [] ∧ Forall (λ f, plain_name (file_Name f)) (Files p);
  mo_hash : ConfigHash m = HashWith sha256 (Profiles m) (Manifest_Settings m)
}.

Lemma no_separator s : ContainsAny s separators = false → "/"%char ∉ bytes s.
Proof.
  unfold ContainsAny. intros H Hin. apply not_true_iff_false in H. apply H.
  apply existsb_exists. exists "/"%char. split; [by apply list_elem_of_In|reflexivity].
Qed.

Lemma check_file_ok i f : check_file i f = Ok tt → plain_name (file_Name f).
Proof.
  unfold check_file, bad_file. rewrite fail_if_ok, !orb_false_iff.
  intros [[[H1%is_empty_false H2%no_separator] H3%seqb_neq] H4%seqb_neq]. done.
Qed.

Lemma for_each_in {A} (f : nat → A → result unit) i l x :
  for_each f i l = Ok tt → x ∈ l → ∃ j, f j x = Ok tt.
Proof.
  revert i. induction l as [|y l IH]; intros i; cbn; [by intros _ ?%not_elem_of_nil|].
  intros [H1 H2]%seq_ok [->|Hx]%elem_of_cons; eauto.
Qed.

Lemma check_profile_ok i name p :
  check_profile i (name, p) = Ok tt →
  plain_name name ∧ Files p ≠ [] ∧ Forall (λ f, plain_name (file_Name f)) (Files p).
Proof.
  unfold check_profile. intros [H1 [H2 H3]%seq_ok]%seq_ok.
  rewrite fail_if_ok, orb_false_iff in H1. destruct H1 as [Hn%is_empty_false Hf].
  rewrite fail_if_ok, !orb_false_iff in H3.
  destruct H3 as [[Hd%seqb_neq Hdd%seqb_neq] Hs%no_separator].
  split; [done|]. split; [by destruct (Files p)|]. apply Forall_forall. intros f Hin.
  destruct (for_each_in _ _ _ _ H2 Hin) as [j Hj]. by apply check_file_ok in Hj.
Qed.

Lemma parsed_ok sha256 unmarshal parse_level raw m :
  Parse sha256 unmarshal parse_level raw = Ok m → manifest_ok sha256 m.
Proof.
  intros (m0 & _ & Hp)%bind_ok. apply seq_ok in Hp as [Hv Hp]. apply seq_ok in Hp as [Hr Hp].
  apply seq_ok in Hp as [Hd Hp]. apply seq_ok in Hp as [Hc Hp].
  apply bind_ok in Hp as (s & _ & Hp). apply seq_ok in Hp as [_ Hp]. injection Hp as <-.
  rewrite fail_if_ok in Hv, Hr, Hd. apply Z.ltb_ge in Hr. apply negb_false_iff, Z.eqb_eq in Hv.
  split; cbn; [done|done| | |done].
  - apply is_some_true. by destruct (is_some _).
  - intros name p Hin%elem_of_map_to_list. destruct (for_each_in _ _ _ _ Hc Hin) as [j Hj].
    by eapply check_profile_ok.
Qed.

(** ** Writing a manifest *)

Section written.
Context (now : Z).
Abbreviation write := (write now).
Abbreviation write_files := (write_files now).
Abbreviation write_profiles := (write_profiles now).

(** The last of several files of one name is the one that stays. *)
Fixpoint last_text (name : string) (files : list file) : option string :=
  match files with
  | [] => None
  | f :: files =>
      match last_text name files with
      | Some t => Some t
      | None => if file_Name f =s? name then Some (Text f) else None
      end
  end.

(** The tree a list of profiles describes, and that of a manifest. *)
Definition tree_at (ps : list (string * profile)) (r : path) : option node :=
  match r with
  | [] => Some (Dir true)
  | [name] => if has_string ps.*1 name then Some (Dir true) else None
  | [name; f] =>
      p ← snd <$> List.find (λ np, np.1 =s? name) ps;
      (λ t, File t now true) <$> last_text f (Files p)
  | _ => None
  end.
Definition holds (fs : FS) (dir : path) (m : Manifest) : Prop :=
  ∀ r, fs !! (dir ++ r)%list = tree_at (map_to_list (Profiles m)) r.

Lemma operate_ok f part d d' : operate f part d = (d', Ok tt) → f (fs d) = Ok (fs d').
Proof.
  unfold operate. destruct (faults d) as [|[e|] fl]; [| done |];
    destruct (f (fs d)) as [x|]; by intros [= <-].
Qed.

Lemma operate_err f part d d' e :
  operate f part d = (d', Err e) →
  fs d' = fs d ∨ ∃ ft, Some ft ∈ faults d ∧ fs d' = part ft (fs d).
Proof.
  unfold operate. destruct (faults d) as [|[x|] fl].
  - destruct (f (fs d)); [done|]. intros [= <- _]. by left.
  - intros [= <- _]. right. exists x. split; [by left|done].
  - destruct (f (fs d)); [done|]. intros [= <- _]. by left.
Qed.

Lemma act_bind_ok {A B} (m : action A) (k : A → action B) d d' b :
  act_bind m k d = (d', Ok b) → ∃ d1 a, m d = (d1, Ok a) ∧ k a d1 = (d', Ok b).
Proof.
  unfold act_bind. destruct (m d) as [d1 [a|e]] eqn:E; [|done]. eauto.
Qed.

(** An action that leaves a tree as it is. *)
Definition keeps {A} (q : path) (m : action A) : Prop :=
  ∀ d, subtree (fs (m d).1) q = subtree (fs d) q.

Lemma keeps_bind {A B} q (m : action A) (k : A → action B) :
  keeps q m → (∀ a, keeps q (k a)) → keeps q (act_bind m k).
Proof.
  intros Hm Hk d. unfold act_bind. specialize (Hm d). destruct (m d) as [d1 [a|e]]; cbn in *; [|done].
  by rewrite Hk.
Qed.

Lemma keeps_operate q f part :
  (∀ fs fs', f fs = Ok fs' → subtree fs' q = subtree fs q) →
  (∀ ft fs, subtree (part ft fs) q = subtree fs q) → keeps q (operate f part).
Proof.
  intros Hf Hp d. destruct (operate f part d) as [d' [[]|e]] eqn:E; cbn.
  - by apply operate_ok, Hf in E.
  - apply operate_err in E as [->|(ft & _ & ->)]; [done|apply Hp].
Qed.

Lemma mkdir_elsewhere fs fs' p q :
  MkdirAll fs p = Ok fs' → strip q p = None → subtree fs' q = subtree fs q.
Proof.
  intros Hm Hq. apply subtree_eq. intros r.
  rewrite (MkdirAll_spec _ _ _ Hm). destruct (fs !! _); [done|].
  unfold on_way. destruct (strip (q ++ r)%list p) as [s|] eqn:E; [|by rewrite andb_false_r].
  apply strip_some in E as ->. rewrite <- app_assoc, strip_app in Hq. done.
Qed.

Lemma strip_take q p n : strip q p = None → strip q (take n p) = None.
Proof.
  rewrite !strip_none. intros H r E. apply (H (r ++ drop n p)%list).
  by rewrite app_assoc, <- E, take_drop.
Qed.

Lemma keeps_mkdirAll q p : strip q p = None → keeps q (mkdirAll p).
Proof.
  intros Hq. apply keeps_operate; [intros fs fs' Hm; by eapply mkdir_elsewhere|].
  intros ft fs. destruct (fault_wrote ft) as [n|]; [|done].
  destruct (MkdirAll fs (take n p)) as [fs'|] eqn:E; [|done].
  eapply mkdir_elsewhere; [exact E|by apply strip_take].
Qed.

Lemma keeps_writeFile q p text : strip q p = None → keeps q (writeFile now p text).
Proof.
  intros Hq.
  assert (∀ fs fs' text, WriteFile fs now p text = Ok fs' → subtree fs' q = subtree fs q) as Hw.
  { intros fs fs' t ->%WriteFile_spec. apply subtree_eq.
    intros r. apply lookup_insert_ne. intros ->. by rewrite strip_app in Hq. }
  apply keeps_operate; [intros fs fs'; apply Hw|]. intros ft fs.
  destruct (fault_wrote ft) as [n|]; [|done].
  destruct (WriteFile _ _ _ _) as [fs'|] eqn:E; [by apply Hw in E|done].
Qed.

(** What a failing [os.RemoveAll] leaves: nothing new, and all that is elsewhere. *)
Lemma remaining_some fs p kept q n : remaining fs p kept !! q = Some n → fs !! q = Some n.
Proof. unfold remaining. by intros [? _]%map_lookup_filter_Some. Qed.

Lemma remaining_apart fs p kept q : apart p q → subtree (remaining fs p kept) q = subtree fs q.
Proof.
  intros Ha. apply subtree_eq. intros r. unfold remaining.
  destruct (fs !! (q ++ r)%list) as [n|] eqn:E.
  - apply map_lookup_filter_Some. split; [done|]. cbn. by rewrite apart_strip.
  - apply map_lookup_filter_None. by left.
Qed.

Lemma keeps_removeAll q p : apart p q → keeps q (removeAll p).
Proof.
  intros Ha. apply keeps_operate; [intros fs fs' [= <-]; by apply removed_apart|].
  intros ft fs. by apply remaining_apart.
Qed.

Lemma keeps_rename q old new :
  apart old new → apart old q → apart new q → keeps q (rename old new).
Proof.
  intros Ha Ho Hn. apply keeps_operate; [|done]. intros fs fs' Hr.
  apply Rename_spec in Hr as [-> _]; [|done]. by apply moved_apart.
Qed.

Lemma keeps_write_files q sub files :
  (∀ r, strip q (sub ++ r)%list = None) → Forall (λ f, plain_name (file_Name f)) files →
  keeps q (write_files sub files).
Proof.
  intros Hq Hp. induction Hp as [|f files Hf _ IH]; [done|]. cbn. apply keeps_bind; [|done].
  apply keeps_writeFile. by rewrite join_plain.
Qed.

(** Names and files fit to be components of a path. *)
Definition plain_profiles (ps : list (string * profile)) : Prop :=
  Forall (λ np, plain_name np.1 ∧ Forall (λ f, plain_name (file_Name f)) (Files np.2)) ps.

Lemma keeps_write_profiles q dir ps :
  (∀ r, strip q (dir ++ r)%list = None) → plain_profiles ps → keeps q (write_profiles dir ps).
Proof.
  intros Hq Hp. induction Hp as [|[name p] ps [Hn Hf] _ IH]; [done|]. cbn in *.
  rewrite join_plain by done. apply keeps_bind; [by apply keeps_mkdirAll|]. intros _.
  apply keeps_bind; [|done]. apply keeps_write_files; [|done].
  intros r. by rewrite <- app_assoc.
Qed.

Lemma write_files_spec sub files : ∀ d d',
  Forall (λ f, plain_name (file_Name f)) files → write_files sub files d = (d', Ok tt) →
  (∀ f n, fs d !! (sub ++ [f])%list = Some n → ∃ t, n = File t now true) →
  ∀ q, fs d' !! q = match strip sub q with
                    | Some [f] => match last_text f files with
                                  | Some t => Some (File t now true)
                                  | None => fs d !! q
                                  end
                    | _ => fs d !! q
                    end.
Proof.
  induction files as [|x files IH]; intros d d' Hp; cbn.
  { intros [= ->] _ q. by destruct (strip sub q) as [[|f [|]]|]. }
  apply Forall_cons in Hp as [Hx Hp].
  intros (d1 & [] & Hw & Hr)%act_bind_ok Hfresh q.
  apply operate_ok, WriteFile_spec in Hw. rewrite join_plain in Hw by done.
  set (r := match fs d !! (sub ++ [file_Name x])%list with Some (File _ _ r) => r | _ => true end) in Hw.
  assert (r = true) as E.
  { unfold r. destruct (fs d !! (sub ++ [file_Name x])%list) as [n|] eqn:En; [|done].
    by destruct (Hfresh _ _ En) as [t ->]. }
  rewrite E in Hw. rewrite (IH d1 d' Hp Hr).
  - rewrite Hw. destruct (strip sub q) as [[|f [|]]|] eqn:Eq.
    1, 3: apply lookup_insert_ne; intros <-; by rewrite strip_app in Eq.
    2: apply lookup_insert_ne; intros <-; by rewrite strip_app in Eq.
    apply strip_some in Eq as ->. destruct (last_text f files); [done|].
    destruct (String.eqb_spec (file_Name x) f) as [->|Hne].
    + by rewrite lookup_insert_eq.
    + apply lookup_insert_ne. intros Heq%app_inj. congruence.
  - intros f n. rewrite Hw. destruct (decide (f = file_Name x)) as [->|Hne].
    + rewrite lookup_insert_eq. intros [= <-]. eauto.
    + rewrite lookup_insert_ne; [apply Hfresh|]. intros Heq%app_inj. congruence.
Qed.

Lemma find_absent (ps : list (string * profile)) name :
  name ∉ ps.*1 → List.find (λ np, np.1 =s? name) ps = None.
Proof.
  induction ps as [|[n p] ps IH]; cbn; [done|]. rewrite not_elem_of_cons. intros [Hn Hp].
  rewrite (proj2 (seqb_neq _ _)) by done. auto.
Qed.

Lemma find_app {A} (f : A → bool) l k :
  List.find f (l ++ k) = match List.find f l with Some x => Some x | None => List.find f k end.
Proof. induction l as [|x l IH]; cbn; [done|]. by destruct (f x). Qed.

Lemma has_string_app l k s : has_string (l ++ k) s = has_string l s || has_string k s.
Proof. induction l as [|x l IH]; cbn; [done|]. by destruct (x =s? s). Qed.

(** In the list of a map, one finds what the map has. *)
Lemma find_in (ps : list (string * profile)) name (p : profile) :
  NoDup ps.*1 → (name, p) ∈ ps → List.find (λ np, np.1 =s? name) ps = Some (name, p).
Proof.
  induction ps as [|[n q] ps IH]; cbn; [by intros _ ?%not_elem_of_nil|].
  intros [Hn Hp]%NoDup_cons [[= -> ->]|Hin]%elem_of_cons; [by rewrite seqb_refl|].
  rewrite (proj2 (seqb_neq _ _)); [by apply IH|]. intros ->. apply Hn.
  by apply (list_elem_of_fmap_2 fst _ (name, p)).
Qed.

Lemma find_listed (ps : gmap string profile) name :
  snd <$> List.find (λ np, np.1 =s? name) (map_to_list ps) = ps !! name.
Proof.
  destruct (ps !! name) as [p|] eqn:E.
  - erewrite find_in; [done|apply NoDup_fst_map_to_list|by apply elem_of_map_to_list].
  - rewrite find_absent; [done|].
    intros ([n p] & -> & Hin%elem_of_map_to_list)%list_elem_of_fmap. cbn in E. congruence.
Qed.

(** The files read from a tree that holds a manifest are the manifest's. *)
Lemma holds_read fs dir m name f :
  holds fs dir m →
  ReadFile fs (dir ++ [name; f])%list =
    match p ← Profiles m !! name; last_text f (Files p) with
    | Some t => Ok t
    | None => Err ErrNotExist
    end.
Proof.
  intros Hh. unfold ReadFile. rewrite (Hh [name; f]). cbn.
  rewrite <- find_listed. destruct (List.find _ _) as [[n p]|]; cbn; [|done].
  by destruct (last_text f (Files p)).
Qed.

Lemma holds_dir fs dir m name :
  holds fs dir m → is_Some (Profiles m !! name) → is_dir fs (dir ++ [name])%list = true.
Proof.
  intros Hh [p Hp]. unfold is_dir. destruct (dir ++ [name])%list eqn:E; [by destruct dir|].
  rewrite <- E, (Hh [name]). cbn.
  assert (has_string (map_to_list (Profiles m)).*1 name = true) as ->; [|done].
  apply has_string_spec, (list_elem_of_fmap_2 fst _ (name, p)). by apply elem_of_map_to_list.
Qed.

(** What one more profile adds to the tree. *)
Lemma tree_at_snoc done name p r :
  name ∉ done.*1 →
  tree_at (done ++ [(name, p)])%list r =
    match r with
    | [n] => if n =s? name then Some (Dir true) else tree_at done r
    | [n; f] => if n =s? name then (λ t, File t now true) <$> last_text f (Files p)
                else tree_at done r
    | _ => tree_at done r
    end.
Proof.
  intros Hn. destruct r as [|n [|f [|]]]; cbn; [done| | |done].
  - rewrite fmap_app, has_string_app. cbn.
    destruct (String.eqb_spec n name) as [->|Hne].
    + rewrite seqb_refl. by rewrite orb_true_r.
    + rewrite (proj2 (seqb_neq name n)) by congruence. by rewrite orb_false_r.
  - rewrite find_app. cbn. destruct (String.eqb_spec n name) as [->|Hne].
    + rewrite (find_absent _ _ Hn), seqb_refl. done.
    + rewrite (proj2 (seqb_neq name n)) by congruence.
      by destruct (List.find (λ np, np.1 =s? n) done).
Qed.

Lemma write_profiles_spec dir ps : ∀ done d d',
  plain_profiles ps → NoDup (done ++ ps).*1 → dir ≠ [] →
  (∀ r, fs d !! (dir ++ r)%list = tree_at done r) →
  write_profiles dir ps d = (d', Ok tt) →
  ∀ r, fs d' !! (dir ++ r)%list = tree_at (done ++ ps)%list r.
Proof.
  induction ps as [|[name p] ps IH]; intros done d d' Hp Hnd Hdir Hd; cbn.
  { intros [= ->] r. by rewrite app_nil_r. }
  apply Forall_cons in Hp as [[Hn Hf] Hp]. cbn in Hn, Hf.
  intros (d1 & [] & Hm & Hr)%act_bind_ok. apply act_bind_ok in Hr as (d2 & [] & Hw & Hr).
  rewrite join_plain in Hm, Hw by done. apply operate_ok in Hm.
  assert (name ∉ done.*1) as Hfresh.
  { rewrite fmap_app in Hnd. apply NoDup_app in Hnd as (_ & Hd' & _). intros Hin.
    apply (Hd' _ Hin). cbn. by left. }
  assert (∀ r, fs d1 !! (dir ++ r)%list =
    if decide (r = [name]) then Some (Dir true) else tree_at done r) as Hd1.
  { intros r. rewrite (MkdirAll_spec _ _ _ Hm), Hd. unfold on_way.
    case_decide as Er.
    - subst r. unfold tree_at at 1. destruct (has_string done.*1 name); [done|].
      assert (strip (dir ++ [name]) (dir ++ [name])%list = Some []) as ->
        by (apply strip_some; by rewrite app_nil_r).
      by destruct dir.
    - destruct (tree_at done r) eqn:Et; [done|].
      destruct (strip (dir ++ r)%list (dir ++ [name])%list) as [s|] eqn:Es; [|by rewrite andb_false_r].
      apply strip_some in Es. rewrite <- app_assoc in Es. apply app_inj in Es.
      destruct r as [|a r]; [by destruct dir|]. cbn in Es. simplify_eq/=.
      by destruct r. }
  rewrite cons_middle, app_assoc. eapply IH; [done| |done| |exact Hr].
  { by rewrite <- app_assoc. }
  intros r. rewrite (write_files_spec _ _ _ _ Hf Hw).
  2:{ intros f n. rewrite <- app_assoc, Hd1. cbn. case_decide; [done|].
      by rewrite (find_absent _ _ Hfresh). }
  rewrite Hd1, tree_at_snoc by done.
  destruct (strip (dir ++ [name])%list (dir ++ r)%list) as [s|] eqn:Es.
  - apply strip_some in Es. rewrite <- app_assoc in Es. apply app_inj in Es as ->. cbn.
    destruct s as [|f [|]]; cbn; rewrite ?seqb_refl; try done.
    + by destruct (decide _).
    + destruct (decide _); [done|]. rewrite (find_absent _ _ Hfresh).
      by destruct (last_text f (Files p)).
    + by destruct (decide _).
  - destruct r as [|n r]; [by destruct (decide _)|].
    assert (n ≠ name) as Hne.
    { intros ->. pose proof (strip_app (dir ++ [name]) r) as E. rewrite <- app_assoc in E.
      cbn in E. congruence. }
    destruct (decide _); [congruence|]. rewrite (proj2 (seqb_neq n name)) by done.
    by destruct r as [|? [|]].
Qed.
End written.

(** ** Applying a manifest *)

Section applied.
Context `{Unicode} {C : Type}.
Context (yaml_decode : Profile → string → result Profile) (sha256 : string → string).
Context (compiler : option (list Profile → result C)) (now : Z).
Context (dataDir : path) (m : Manifest) (Hm : manifest_ok sha256 m).

Abbreviation Apply := (Apply yaml_decode sha256 compiler now).
Abbreviation staging := (dataDir ++ [".next"])%list.
Abbreviation prev := (dataDir ++ [".prev"])%list.
Abbreviation live := (dataDir ++ [treeDir])%list.
Abbreviation holds := (holds now).

Lemma sibling_names :
  join dataDir ".next" = staging ∧ join dataDir ".prev" = prev ∧ join dataDir treeDir = live.
Proof.
  split_and!; apply join_plain; repeat split; try done; by apply not_in_eval.
Qed.

Lemma siblings_apart :
  apart staging prev ∧ apart staging live ∧ apart prev live ∧
  apart prev staging ∧ apart live staging ∧ apart live prev.
Proof. split_and!; by apply apart_siblings. Qed.

Lemma manifest_plain : plain_profiles (map_to_list (Profiles m)).
Proof.
  apply Forall_forall. intros [n p] Hin%elem_of_map_to_list. cbn.
  destruct (mo_names _ _ Hm n p Hin) as (? & _ & ?). done.
Qed.

Lemma keeps_write q top : apart top q → keeps q (write now top m).
Proof.
  intros Ha. unfold write. apply keeps_bind.
  - apply keeps_mkdirAll, Ha.
  - intros _. apply keeps_write_profiles; [|apply manifest_plain].
    intros r. by apply apart_strip, apart_sym.
Qed.

(** What is written is the manifest's tree. *)
Lemma write_holds d d' :
  subtree (fs d) staging = ∅ → write now staging m d = (d', Ok tt) → holds (fs d') staging m.
Proof.
  intros He (d1 & [] & Hmk & Hw)%act_bind_ok. apply operate_ok in Hmk. intros r.
  apply (write_profiles_spec now staging (map_to_list (Profiles m)) [] d1 d'); [apply manifest_plain| | |
    |exact Hw].
  - apply NoDup_fst_map_to_list.
  - by destruct dataDir.
  - intros q. rewrite (MkdirAll_spec _ _ _ Hmk), <- lookup_subtree, He, lookup_empty. unfold on_way.
    destruct q as [|a q]; cbn.
    + assert (strip (staging ++ [])%list staging = Some []) as ->
        by (apply strip_some; by rewrite !app_nil_r).
      by destruct dataDir.
    + assert (strip (staging ++ a :: q)%list staging = None) as ->.
      { apply strip_none. intros s E. apply (f_equal length) in E.
        rewrite !length_app in E. cbn in E. lia. }
      rewrite andb_false_r. by destruct q as [|? [|]].
Qed.

Lemma holds_subtree f f' p p' : subtree f p = subtree f' p' → holds f' p' m → holds f p m.
Proof. intros E Hh r. rewrite subtree_eq in E. by rewrite E. Qed.

Lemma removed_below d p q n : fs (removeAll p d).1 !! q = Some n → fs d !! q = Some n.
Proof.
  destruct (removeAll p d) as [d' [[]|e]] eqn:E; cbn.
  - apply operate_ok in E. injection E as <-. rewrite lookup_RemoveAll. by destruct (strip p q).
  - apply operate_err in E as [->|(ft & _ & ->)]; [done|apply remaining_some].
Qed.

Lemma removed d p : subtree (fs d) p = ∅ → subtree (fs (removeAll p d).1) p = ∅.
Proof.
  intros He. apply map_eq. intros r. rewrite lookup_subtree, lookup_empty.
  destruct (fs (removeAll p d).1 !! (p ++ r)%list) as [n|] eqn:E; [|done].
  apply removed_below in E. rewrite <- lookup_subtree, He in E. done.
Qed.

Lemma removed_cases d p :
  subtree (fs (removeAll p d).1) p = ∅ ∨
  ∃ ft, Some ft ∈ faults d ∧ fs (removeAll p d).1 = remaining (fs d) p (fault_kept ft).
Proof.
  unfold removeAll, operate. destruct (faults d) as [|[ft|] fl]; cbn.
  - left. apply removed_tree.
  - right. exists ft. split; [by left|done].
  - left. apply removed_tree.
Qed.

(** Renaming one of the three trees to another: done, or not. *)
Lemma renamed d old new d' r :
  apart old new → rename old new d = (d', r) →
  (r = Ok tt ∧ fs d' = move (fs d) old new ∧ is_Some (fs d !! old)) ∨
  (∃ e, r = Err e ∧ fs d' = fs d).
Proof.
  intros Ha. destruct r as [[]|e]; intros E.
  - left. apply operate_ok, Rename_spec in E as [E ?]; [|done]. done.
  - right. apply operate_err in E as [?|(? & _ & ?)]; eauto.
Qed.

Lemma parked d d' r :
  park live prev d = (d', r) →
  (r = Ok true ∧ fs d' = move (fs d) live prev ∧ is_Some (fs d !! live)) ∨
  (r = Ok false ∧ fs d' = fs d) ∨ (∃ e, r = Err e ∧ fs d' = fs d).
Proof.
  unfold park. destruct (rename live prev d) as [d1 r1] eqn:E.
  destruct (renamed _ _ _ _ _ (proj2 (proj2 (proj2 (proj2 (proj2 siblings_apart))))) E)
    as [(-> & Hf & Hs)|(e & -> & Hf)].
  - intros [= <- <-]. auto.
  - destruct e; intros [= <- <-]; eauto.
Qed.

(** The fates of the live tree: the old one, nothing, the manifest's; or, when a
    removal fails, what that leaves of the manifest's. *)
Definition live_fate (fl : list (option fault)) (old new : FS) : Prop :=
  subtree new live = subtree old live ∨ subtree new live = ∅ ∨ holds new live m ∨
  ∃ whole ft, Some ft ∈ fl ∧ holds whole live m ∧
    subtree new live = subtree (remaining whole live (fault_kept ft)) live.

(** The last part of [Apply]: the staged tree is in place, the old one, if there was
    one, is at [prev]; the store reloads. *)
Definition settle (store : Store C) (lived : bool) (d : disk) : disk * Store C * result unit :=
  let '(store, r) := ReloadFrom yaml_decode sha256 compiler (fs d) (fs d) live store in
  match r with
  | Ok _ => ((removeAll prev d).1, store, Ok tt)
  | Err e =>
      let d := (removeAll live d).1 in
      if lived then
        match rename prev live d with
        | (d, Ok _) =>
            (d, (ReloadFrom yaml_decode sha256 compiler (fs d) (fs d) live store).1, Err e)
        | (d, Err _) => (d, store, Err e)
        end
      else (d, store, Err e)
  end.

Lemma settle_fate store (lived : bool) old d d' s' r :
  holds (fs d) live m → (lived = true → subtree (fs d) prev = subtree old live) →
  settle store lived d = (d', s', r) →
  live_fate (faults d) old (fs d') ∧ (r = Ok tt → holds (fs d') live m).
Proof.
  intros Hh Hp. unfold settle. destruct (ReloadFrom _ _ _ _ _ live store) as [s1 [[]|e]].
  - intros [= <- <- <-].
    assert (holds (fs (removeAll prev d).1) live m) as Hh'.
    { eapply holds_subtree, Hh. apply keeps_removeAll, siblings_apart. }
    split; [do 2 right; by left|done].
  - assert (subtree (fs (removeAll live d).1) prev = subtree (fs d) prev) as Hk
      by apply keeps_removeAll, siblings_apart.
    assert (∀ new, subtree new live = subtree (fs (removeAll live d).1) live →
      live_fate (faults d) old new) as Hrem.
    { intros new E. destruct (removed_cases d live) as [Hn|(ft & Hft & Hr)]; unfold live_fate.
      - right. left. by rewrite E.
      - do 3 right. exists (fs d), ft. rewrite E, Hr. done. }
    destruct lived.
    + destruct (rename prev live (removeAll live d).1) as [d1 r1] eqn:Er.
      destruct (renamed _ _ _ _ _ (proj1 (proj2 (proj2 siblings_apart))) Er)
        as [(-> & Ef & _)|(e' & -> & Ef)]; intros [= <- <- <-]; (split; [|done]).
      * left. rewrite Ef, moved_tree, Hk. auto.
      * apply Hrem. by rewrite Ef.
    + intros [= <- <- <-]. split; [|done]. by apply Hrem.
Qed.

(** The middle part: the staged tree takes the place of the live one. *)
Definition swap (store : Store C) (d : disk) : disk * Store C * result unit :=
  match park live prev d with
  | (d, Err e) => ((removeAll staging d).1, store, Err (Wrapf "park live: %w" e))
  | (d, Ok lived) =>
      match rename staging live d with
      | (d, Err e) =>
          let d := if lived then (rename prev live d).1 else d in
          ((removeAll staging d).1, store, Err (Wrapf "promote staging: %w" e))
      | (d, Ok _) => settle store lived d
      end
  end.

Lemma operate_faults f part d : faults (operate f part d).1 = tail (faults d).
Proof. unfold operate. destruct (faults d) as [|[]]; [|done|]; by destruct (f (fs d)). Qed.

Lemma quiet_operate f part d : faults d = [] → faults (operate f part d).1 = [].
Proof. rewrite operate_faults. by intros ->. Qed.

Lemma suffix_tail {A} (l : list A) : tail l `suffix_of` l.
Proof. destruct l as [|x l]; [done|]. by exists [x]. Qed.

(** An action that takes faults as they come, and under which a directory stays one
    when there are none. *)
Definition calm {A} (q : path) (x : action A) : Prop :=
  ∀ d, faults (x d).1 `suffix_of` faults d ∧
       (faults d = [] → is_dir (fs d) q = true → is_dir (fs (x d).1) q = true).

Lemma calm_quiet {A} q (x : action A) d : calm q x → faults d = [] → faults (x d).1 = [].
Proof. intros Hc Hq. destruct (Hc d) as [Hs _]. rewrite Hq in Hs. by apply suffix_nil_inv in Hs. Qed.

Lemma calm_bind {A B} q (x : action A) (k : A → action B) :
  calm q x → (∀ a, calm q (k a)) → calm q (act_bind x k).
Proof.
  intros Hc Hk d. pose proof (calm_quiet _ _ d Hc) as Hq. unfold act_bind. specialize (Hc d).
  destruct (x d) as [d1 [a|e]]; [|done]. destruct (Hk a d1) as [H1 H2]. cbn in *.
  destruct Hc as [H3 H4]. split; [by etrans|auto].
Qed.

Lemma calm_operate q f part :
  (∀ fs fs', f fs = Ok fs' → is_dir fs q = true → is_dir fs' q = true) → calm q (operate f part).
Proof.
  intros Hf d. split; [rewrite operate_faults; apply suffix_tail|]. intros Hq. unfold operate.
  rewrite Hq. destruct (f (fs d)) as [fs'|] eqn:E; [|done]. intros Hd. by eapply Hf.
Qed.

Lemma calm_ret q : calm q (act_ret tt).
Proof. intros d. by split. Qed.

Lemma calm_write q p : calm q (write now p m).
Proof.
  assert (∀ sub files, calm q (write_files now sub files)) as Hfiles.
  { intros sub files. induction files as [|f files IH]; cbn; [apply calm_ret|].
    apply calm_bind; [|done]. apply calm_operate. intros fs fs' Hw. by eapply WriteFile_keeps_dir. }
  apply calm_bind; [apply calm_operate; intros fs fs'; apply MkdirAll_keeps_dir|]. intros _.
  induction (map_to_list (Profiles m)) as [|[n pr] ps IH]; cbn; [apply calm_ret|].
  apply calm_bind; [apply calm_operate; intros fs fs'; apply MkdirAll_keeps_dir|]. intros _.
  by apply calm_bind.
Qed.

Lemma calm_removeAll q p : strip p q = None → calm q (removeAll p).
Proof. intros Hs. apply calm_operate. intros fs fs' [= <-] E. by rewrite RemoveAll_above. Qed.

(** Nothing is staged, or the removal of what is does not fail: it is the second
    operation of [Apply]. *)
Definition unstaged (d : disk) : Prop :=
  subtree (fs d) staging = ∅ ∨ ∀ ft, faults d !! 1%nat ≠ Some (Some ft).

(** [Apply] is the preparation of a staged tree and the swap. *)
Lemma Apply_prepare store d :
  unstaged d →
  (∃ e d', Apply store dataDir m d = (d', store, Err e) ∧
     subtree (fs d') live = subtree (fs d) live) ∨
  ∃ d4, Apply store dataDir m d = swap store d4 ∧ holds (fs d4) staging m ∧
    subtree (fs d4) live = subtree (fs d) live ∧ faults d4 `suffix_of` faults d ∧
    (faults d = [] → fs d4 !! prev = None ∧ is_dir (fs d4) dataDir = true).
Proof.
  intros He. unfold Desired.Apply. cbv zeta. destruct sibling_names as (-> & -> & ->).
  destruct siblings_apart as (Hsp & Hsl & Hpl & Hps & Hls & Hlp).
  pose proof (keeps_mkdirAll live dataDir (strip_parent _ _) d) as K1.
  pose proof (keeps_mkdirAll staging dataDir (strip_parent _ _) d) as K2.
  pose proof (operate_faults _ _ d : faults (mkdirAll dataDir d).1 = _) as Q1.
  destruct (mkdirAll dataDir d) as [d1 [[]|e]] eqn:E1; cbn in K1, K2, Q1; [|left; eauto].
  apply operate_ok, MkdirAll_dir in E1.
  assert (subtree (fs (removeAll staging d1).1) staging = ∅) as E2.
  { destruct He as [He|He]; [apply removed; by rewrite K2|].
    destruct (removed_cases d1 staging) as [?|(ft & Hft & Hr)]; [done|].
    unfold removeAll, operate. rewrite Q1. destruct (faults d) as [|x [|[ft2|] fl]]; cbn.
    1, 2, 4: apply removed_tree. by destruct (He ft2). }
  destruct (calm_removeAll dataDir staging (strip_parent _ _) d1) as [Q2 D2].
  assert (faults d1 `suffix_of` faults d) as Q1' by (rewrite Q1; apply suffix_tail).
  assert (faults d = [] → faults d1 = []) as N1 by (rewrite Q1; by intros ->).
  pose proof (keeps_removeAll live staging Hsl d1) as L2. rewrite K1 in L2.
  revert E2 L2 Q2 D2. generalize (removeAll staging d1).1. intros d2 E2 L2 Q2 D2.
  pose proof (keeps_write live staging Hsl d2) as L3. destruct (calm_write dataDir staging d2) as [Q3 D3].
  assert (faults d2 `suffix_of` faults d) as Q2' by by etrans.
  assert (faults d = [] → faults d2 = []) as N2 by (intros E; rewrite E in Q2'; by apply suffix_nil_inv in Q2').
  destruct (write now staging m d2) as [d3 [[]|e]] eqn:Ew; cbn in L3, Q3, D3.
  2:{ left. eexists _, _. split; [done|]. by rewrite (keeps_removeAll live staging Hsl d3), L3, L2. }
  apply write_holds in Ew as Hst; [|done]. right. exists (removeAll prev d3).1.
  destruct (calm_removeAll dataDir prev (strip_parent _ _) d3) as [Q4 D4].
  assert (faults d3 `suffix_of` faults d) as Q3' by by etrans.
  split; [done|]. split_and!.
  - eapply holds_subtree, Hst. by apply keeps_removeAll.
  - by rewrite (keeps_removeAll live prev Hpl d3), L3, L2.
  - by etrans.
  - intros Hq. assert (faults d3 = []) as N3 by (rewrite Hq in Q3'; by apply suffix_nil_inv in Q3').
    split; [|auto]. apply tree_root. unfold removeAll, operate. rewrite N3. cbn. apply removed_tree.
Qed.

(** The old tree can be brought back. *)
Definition restorable (d : disk) : Prop :=
  faults d = [] ∧ is_Some (fs d !! prev) ∧ is_dir (fs d) dataDir = true.

Lemma restore d :
  restorable d → fs d !! live = None → ∃ d', rename prev live d = (d', Ok tt).
Proof.
  intros (Hq & Hp & Hd) Hl. unfold rename, operate. rewrite Hq.
  assert (is_ok (Rename (fs d) prev live) = true) as Hok.
  { apply Rename_free; [apply siblings_apart|done|]. by rewrite removelast_last. }
  destruct (Rename (fs d) prev live); [eauto|done].
Qed.

Lemma park_absent d d' :
  faults d = [] → fs d !! prev = None → is_dir (fs d) dataDir = true →
  park live prev d = (d', Ok false) → fs d !! live = None.
Proof.
  intros Hq Hp Hd Hpark. destruct (fs d !! live) as [n|] eqn:El; [|done]. exfalso.
  assert (is_ok (Rename (fs d) live prev) = true) as Hok.
  { apply Rename_free; [apply siblings_apart|done|]. rewrite removelast_last, El. eauto. }
  revert Hpark. unfold park, rename, operate. rewrite Hq.
  by destruct (Rename (fs d) live prev).
Qed.

Lemma park_faults d : faults (park live prev d).1 `suffix_of` faults d.
Proof.
  pose proof (operate_faults _ _ d : faults (rename live prev d).1 = _) as Q. unfold park.
  destruct (rename live prev d) as [d1 [[]|e]]; [|destruct e]; cbn in *; rewrite Q; apply suffix_tail.
Qed.

Lemma quiet_suffix (d d' : disk) : faults d' `suffix_of` faults d → faults d = [] → faults d' = [].
Proof. intros Hs E. rewrite E in Hs. by apply suffix_nil_inv in Hs. Qed.

(** After the swap, or instead of it. *)
Lemma swap_cases store d d' s' r :
  holds (fs d) staging m → swap store d = (d', s', r) →
  (∃ e, r = Err e ∧ s' = store ∧ (∀ fl, live_fate fl (fs d) (fs d')) ∧
     (faults d = [] → fs d !! prev = None → is_dir (fs d) dataDir = true →
      subtree (fs d') live = subtree (fs d) live)) ∨
  ∃ lived d1, holds (fs d1) live m ∧
    (lived = true → subtree (fs d1) prev = subtree (fs d) live) ∧
    settle store lived d1 = (d', s', r) ∧ faults d1 `suffix_of` faults d ∧
    (faults d = [] → fs d !! prev = None → is_dir (fs d) dataDir = true →
     if lived then restorable d1 else fs d !! live = None).
Proof.
  intros Hst. unfold swap. destruct siblings_apart as (Hsp & Hsl & Hpl & Hps & Hls & Hlp).
  pose proof (park_faults d) as Q5. destruct (park live prev d) as [d5 r5] eqn:Ep. cbn in Q5.
  pose proof (operate_faults _ _ d5 : faults (rename staging live d5).1 = _) as Q6.
  destruct (rename staging live d5) as [d6 r6] eqn:Er. cbn in Q6.
  assert (faults d6 `suffix_of` faults d) as Q6' by (rewrite Q6; etrans; [apply suffix_tail|done]).
  destruct (parked _ _ _ Ep) as [(-> & F5 & Hs5)|[(-> & F5)|(e & -> & F5)]];
    [| |intros [= <- <- <-]; left; eexists; split; [done|]; split; [done|];
        unfold live_fate; rewrite (keeps_removeAll live staging Hsl d5), F5; auto].
  - assert (subtree (fs d5) prev = subtree (fs d) live) as P5 by (by rewrite F5, moved_tree).
    assert (subtree (fs d5) live = ∅) as L5 by (rewrite F5; by apply moved_away).
    assert (faults d = [] → is_dir (fs d) dataDir = true → restorable d5) as Hres.
    { intros Hq Hd. split; [by eapply quiet_suffix|]. split.
      - rewrite <- (app_nil_r prev), F5, lookup_move_new, app_nil_r. done.
      - rewrite F5, move_above by apply strip_parent. done. }
    destruct (renamed _ _ _ _ _ Hsl Er) as [(-> & F6 & _)|(e & -> & F6)].
    + intros Hset. right. exists true, d6. split_and!; [| |exact Hset|exact Q6'|].
      * eapply holds_subtree, Hst. rewrite F6, moved_tree, F5. by apply moved_apart.
      * intros _. rewrite <- P5, F6. by apply moved_apart.
      * intros Hq _ Hd. destruct (Hres Hq Hd) as (Hq5 & Hp5 & Hd5).
        split; [by eapply quiet_suffix|].
        rewrite F6, move_above by apply strip_parent. split; [|done].
        rewrite <- (app_nil_r prev), <- lookup_subtree, moved_apart, lookup_subtree, app_nil_r; done.
    + intros [= <- <- <-]. left. eexists. split; [done|]. split; [done|].
      destruct (rename prev live d6) as [d7 r7] eqn:E7. cbn.
      unfold live_fate. rewrite (keeps_removeAll live staging Hsl d7).
      destruct (renamed _ _ _ _ _ Hpl E7) as [(_ & F7 & _)|(e7 & -> & F7)].
      * rewrite F7, moved_tree, F6, P5. auto.
      * rewrite F7, F6, L5. split; [auto|]. intros Hq _ Hd. exfalso.
        destruct (restore d6) as [d8 E8]; [|rewrite F6; by apply tree_root|by rewrite E7 in E8].
        destruct (Hres Hq Hd) as (Hq5 & Hp5 & Hd5). unfold restorable. rewrite F6.
        split; [by eapply quiet_suffix|done].
  - destruct (renamed _ _ _ _ _ Hsl Er) as [(-> & F6 & _)|(e & -> & F6)].
    + intros Hset. right. exists false, d6. split_and!; [|done|exact Hset|exact Q6'|].
      * eapply holds_subtree, Hst. by rewrite F6, moved_tree, F5.
      * intros Hq Hp Hd. by eapply park_absent.
    + intros [= <- <- <-]. left. eexists. split; [done|]. split; [done|].
      unfold live_fate. rewrite (keeps_removeAll live staging Hsl d6), F6, F5. auto.
Qed.

Lemma fate_trans (fl fl' : list (option fault)) (f1 f2 f3 : FS) :
  fl `suffix_of` fl' → subtree f2 live = subtree f1 live → live_fate fl f2 f3 → live_fate fl' f1 f3.
Proof.
  unfold live_fate. intros [k ->] -> [?|[?|[?|(w & ft & Hin & Hw & Hr)]]]; [by left|by right; left|by do 2 right; left|].
  do 3 right. exists w, ft. split; [|done]. apply elem_of_app. by right.
Qed.

Lemma applied_whole store d d' s' r :
  unstaged d → Apply store dataDir m d = (d', s', r) →
  live_fate (faults d) (fs d) (fs d') ∧ (r = Ok tt → holds (fs d') live m).
Proof.
  intros He Ha. destruct (Apply_prepare store d He) as [(e & d1 & E & Hl)|(d4 & E & Hst & Hl & Hq & _)].
  - rewrite E in Ha. injection Ha as <- <- <-. split; [by left|done].
  - rewrite E in Ha.
    destruct (swap_cases _ _ _ _ _ Hst Ha) as [(e & -> & _ & Hf & _)|(lived & d1 & Hh & Hp & Hs & Hq1 & _)].
    + split; [by eapply (fate_trans (faults d))|done].
    + destruct (settle_fate _ _ _ _ _ _ _ Hh Hp Hs) as [Hf Hok].
      split; [|done]. eapply (fate_trans (faults d1)); [by etrans|exact Hl|exact Hf].
Qed.

(** C9. Whatever operations of the disk fail, and with whatever part of their work
    done, but for the one that clears the staging directory: [Apply] leaves in place of
    the live tree the old one, the whole tree of the manifest, or nothing; or, if the
    profiles were rejected and the removal of their tree failed, what that left of it.
    It is never a mixture of the two trees, and when [Apply] succeeds it is the
    manifest's. *)
Theorem Apply_whole store d d' s' r :
  unstaged d → Apply store dataDir m d = (d', s', r) →
  live_fate (faults d) (fs d) (fs d') ∧ (r = Ok tt → holds (fs d') live m).
Proof. exact (applied_whole store d d' s' r). Qed.

(** The store after a failure: as it was, or with a snapshot of what the disk then
    holds in force. *)
Definition store_kept (f : FS) (store s' : Store C) : Prop :=
  s' = store ∨ ∃ snap,
    read yaml_decode sha256 compiler f f (set_dir live store) =
      (MkStore live (base store) (cur store) (Gen snap), Ok snap) ∧
    s' = MkStore live (base store) (Some snap) (wrap64 (gen store + 1)).

Lemma settle_rollback store (lived : bool) old d d' s' e :
  faults d = [] → (if lived then restorable d else subtree old live = ∅) →
  (lived = true → subtree (fs d) prev = subtree old live) →
  settle store lived d = (d', s', Err e) →
  subtree (fs d') live = subtree old live ∧ store_kept (fs d') store s'.
Proof.
  intros Hq Hr Hp. unfold settle.
  destruct (ReloadFrom yaml_decode sha256 compiler (fs d) (fs d) live store) as [s1 [[]|e1]] eqn:E1;
    [done|].
  apply reloaded_from in E1 as ->.
  assert (fs (removeAll live d).1 = RemoveAll (fs d) live ∧ faults (removeAll live d).1 = [])
    as [Ef Eq] by (unfold removeAll, operate; by rewrite Hq).
  destruct siblings_apart as (Hsp & Hsl & Hpl & Hps & Hls & Hlp). destruct lived.
  - destruct Hr as (_ & Hpr & Hd).
    destruct (restore (removeAll live d).1) as [d2 E2].
    { split; [done|]. rewrite Ef, RemoveAll_above by apply strip_parent. split; [|done].
      by rewrite lookup_RemoveAll, (proj1 Hlp). }
    { rewrite Ef. apply tree_root, removed_tree. }
    rewrite E2. destruct (renamed _ _ _ _ _ Hpl E2) as [(_ & F2 & _)|(? & ? & _)]; [|done].
    destruct (ReloadFrom yaml_decode sha256 compiler (fs d2) (fs d2) live store) as [s2 r2] eqn:E3.
    intros [= <- <- _]. split.
    + rewrite F2, moved_tree, Ef, removed_apart by done. auto.
    + apply reloaded_from in E3. destruct r2; cbn; [|by left].
      destruct E3 as (snap & Hr & _ & ->). right. eauto.
  - intros [= <- <- _]. split; [|by left]. by rewrite Ef, removed_tree.
Qed.

(** C30. When no operation of the disk fails, a manifest that cannot be applied, for
    one its profiles do not validate or compile, leaves everything as it was: the
    live tree is the old one, and the store has its old snapshot, or the one that is
    read of that old tree. (If the live directory does not exist, nothing is below
    it.) *)
Theorem Apply_rollback store d d' s' e :
  faults d = [] → (fs d !! live = None → subtree (fs d) live = ∅) →
  Apply store dataDir m d = (d', s', Err e) →
  subtree (fs d') live = subtree (fs d) live ∧ store_kept (fs d') store s'.
Proof.
  intros Hq Horphan Ha. assert (unstaged d) as He by (right; by rewrite Hq).
  destruct (Apply_prepare store d He) as [(e1 & d1 & E & Hl)|(d4 & E & Hst & Hl & Hs4 & Hc)];
    rewrite E in Ha.
  - injection Ha as <- <- _. split; [done|by left].
  - destruct (Hc Hq) as (Hp4 & Hd4). pose proof (quiet_suffix _ _ Hs4 Hq) as Hq4. rewrite <- Hl.
    destruct (swap_cases _ _ _ _ _ Hst Ha) as [(e1 & _ & -> & _ & Hk)|(lived & d1 & _ & Hp & Hs & Hs1 & Hk)].
    + split; [by apply Hk|by left].
    + specialize (Hk Hq4 Hp4 Hd4). eapply settle_rollback; [by eapply quiet_suffix| |exact Hp|exact Hs].
      destruct lived; [done|]. rewrite Hl. apply Horphan.
      by rewrite <- (app_nil_r live), <- lookup_subtree, <- Hl, lookup_subtree, app_nil_r.
Qed.

(** A manifest that is applied is in force: the store's snapshot was read from the
    live tree, which is the manifest's. *)
Lemma Apply_in_force store d d' s' :
  unstaged d → Apply store dataDir m d = (d', s', Ok tt) →
  ∃ f snap, holds f live m ∧
    read yaml_decode sha256 compiler f f (set_dir live store) =
      (MkStore live (base store) (cur store) (Gen snap), Ok snap) ∧
    s' = MkStore live (base store) (Some snap) (wrap64 (gen store + 1)) ∧
    snapshot_ok yaml_decode compiler snap.
Proof.
  intros He Ha. destruct (Apply_prepare store d He) as [(e1 & d1 & E & Hl)|(d4 & E & Hst & Hl & _)];
    rewrite E in Ha; [done|].
  destruct (swap_cases _ _ _ _ _ Hst Ha) as [(e1 & ? & _)|(lived & d1 & Hh & Hp & Hs & _)]; [done|].
  revert Hs. unfold settle.
  destruct (ReloadFrom yaml_decode sha256 compiler (fs d1) (fs d1) live store) as [s1 [[]|e1]] eqn:E1.
  - apply reloaded_from in E1 as (snap & Hr & Hok & ->). intros [= _ <-]. by exists (fs d1), snap.
  - destruct lived; [|done]. by destruct (rename prev live _) as [? [|]].
Qed.

End applied.

(** *** The loop *)

Section watched.
Context `{Unicode} {C : Type}.
Context (yaml_decode : Profile → string → result Profile) (sha256 : string → string).
Context (compiler : option (list Profile → result C)) (now : Z) (dataDir : path).
Context (unmarshal : string → result Manifest) (parse_level : string → result Z).

Abbreviation watch_step :=
  (watch_step yaml_decode sha256 compiler now unmarshal parse_level dataDir).
Abbreviation live := (dataDir ++ [treeDir])%list.

(** The profiles of the snapshot are those of the manifest: each is parsed from the
    manifest's profile file, with the manifest's schema files as its documents, and
    every profile that the manifest has with a profile file is there. Only the probe
    profile may come from elsewhere, if the manifest has none. *)
Record made_of (m : Manifest) (snap : Snapshot.Snapshot C) : Prop := {
  made_each : ∀ n p, Snapshot.byName snap !! n = Some p →
    (∃ dp raw q, Profiles m !! n = Some dp ∧ last_text profileFile (Files dp) = Some raw ∧
       ParseProfile yaml_decode n raw = Ok q ∧ p = with_documents (Documents p) q ∧
       (Profile.Mode p ≠ ModeOff → ∀ s text, Documents p !! s = Some text →
          last_text (SchemaFilePrefix +:+ s) (Files dp) = Some text)) ∨
    n = ProbeName ∧ (dp ← Profiles m !! n; last_text profileFile (Files dp)) = None;
  made_all : ∀ n dp raw, Profiles m !! n = Some dp → last_text profileFile (Files dp) = Some raw →
    is_Some (Snapshot.byName snap !! n)
}.

Lemma read_made_of m f s s' snap :
  holds now f (dir s) m → read yaml_decode sha256 compiler f f s = (s', Ok snap) → made_of m snap.
Proof.
  intros Hh Hr. apply read_made in Hr as [Heach Hall].
  assert (∀ n p, readProfile yaml_decode f (dir s) n = Ok (Some p) →
    ∃ dp raw q, Profiles m !! n = Some dp ∧ last_text profileFile (Files dp) = Some raw ∧
      ParseProfile yaml_decode n raw = Ok q ∧ p = with_documents (Documents p) q ∧
      (Profile.Mode p ≠ ModeOff → ∀ s text, Documents p !! s = Some text →
         last_text (SchemaFilePrefix +:+ s) (Files dp) = Some text)) as Hmade.
  { intros n p (raw & q & Hraw & Hq & Hp & Hdocs)%(readProfile_made yaml_decode sha256).
    rewrite (holds_read now f _ m) in Hraw by done.
    destruct (Profiles m !! n) as [dp|] eqn:En; cbn in Hraw; [|done].
    destruct (last_text profileFile (Files dp)) as [t|] eqn:Et; [|done]. injection Hraw as ->.
    exists dp, raw, q. split_and!; [done..|]. intros Hmode k text Hk.
    specialize (Hdocs Hmode k text Hk). revert Hdocs. generalize (SchemaFilePrefix +:+ k).
    intros file Hdocs. rewrite <- app_assoc in Hdocs. cbn in Hdocs.
    rewrite (holds_read now f _ m), En in Hdocs by done. cbn in Hdocs.
    destruct (last_text file (Files dp)) as [t|]; cbn in Hdocs; [|done]. congruence. }
  assert (∀ n dp raw, Profiles m !! n = Some dp → last_text profileFile (Files dp) = Some raw →
    ∃ p, readProfile yaml_decode f (dir s) n = Ok (Some p) ∧ Snapshot.byName snap !! n = Some p) as Hin.
  { intros n dp raw Hn Ht. destruct (Hall n) as [Hnone|?]; [eapply holds_dir; [exact Hh|eauto]| |done].
    exfalso. revert Hnone. unfold readProfile. rewrite (holds_read now f _ m), Hn by done. cbn. rewrite Ht.
    intros (q & _ & Hk)%bind_ok. apply seq_ok in Hk as [_ Hk]. by apply bind_ok in Hk as (? & _ & [=]). }
  split.
  - intros n p Hp. destruct (Heach n p Hp) as [?|[-> _]]; [left; by apply Hmade|].
    destruct (dp ← Profiles m !! ProbeName; last_text profileFile (Files dp)) as [raw|] eqn:E; [|by right].
    apply bind_Some in E as (dp & Hn & Ht). destruct (Hin _ _ _ Hn Ht) as (p' & Hr & Hp').
    left. apply Hmade. congruence.
  - intros n dp raw Hn Ht. destruct (Hin _ _ _ Hn Ht) as (p & _ & Hp). eauto.
Qed.

(** What the report says is so. *)
Definition reported (w : watcher (C := C)) : Prop :=
  status (w_applied w) = ApplyOK →
  ∃ raw m snap, Parse sha256 unmarshal parse_level raw = Ok m ∧
    hash (w_applied w) = ConfigHash m ∧ rev (w_applied w) = Rev m ∧
    names (w_applied w) = Manifest_Names (Profiles m) ∧
    holds now (fs (w_disk w)) live m ∧
    cur (w_store w) = Some snap ∧ dir (w_store w) = live ∧
    snapshot_ok yaml_decode compiler snap ∧ made_of m snap.

Abbreviation watch := (foldl (λ w e, watch_step e w)).

Lemma step_reports e w : unstaged dataDir (w_disk w) → reported w → reported (watch_step e w).
Proof.
  intros He Hr. unfold Desired.watch_step. destruct e as [[op raw]|]; [|done]. destruct op; [|done..].
  cbn [operation entry_value].
  destruct (Parse sha256 unmarshal parse_level raw) as [m|] eqn:Ep; [|done].
  apply parsed_ok in Ep as Hm. destruct (_ && (rev _ =? _)); [done|].
  destruct (Apply yaml_decode sha256 compiler now (w_store w) dataDir m (w_disk w))
    as [[d' s'] r] eqn:Ea.
  destruct r as [[]|e]; [|by intros ?].
  intros _. destruct (Apply_in_force yaml_decode sha256 compiler now dataDir m Hm _ _ _ _ He Ea)
    as (f & snap & Hf & Hread & Es & Hok).
  exists raw, m, snap. cbn. rewrite Es. split_and!; try done.
  - by apply (applied_whole yaml_decode sha256 compiler now dataDir m Hm _ _ _ _ _ He Ea).
  - by eapply read_made_of, Hread.
Qed.


(** *** What the loop does to the store

    It only reloads it, so the store runs on by its own steps. *)
Abbreviation store_step := (store_step yaml_decode sha256 compiler).

Lemma Apply_steps store m d d' s' r l :
  Apply yaml_decode sha256 compiler now store dataDir m d = (d', s', r) →
  rtc store_step (World store l) (World s' l).
Proof.
  unfold Desired.Apply. cbv zeta.
  destruct (mkdirAll dataDir d) as [d1 [[]|e]]; [|by intros [= _ <- _]].
  destruct (write _ _ _ _) as [d2 [[]|e]]; [|by intros [= _ <- _]].
  destruct (park _ _ _) as [d3 [lived|e]]; [|by intros [= _ <- _]].
  destruct (rename _ _ d3) as [d4 [[]|e]]; [|by intros [= _ <- _]].
  destruct (ReloadFrom _ _ _ _ _ _ _) as [s1 [[]|e]] eqn:E1; apply (ReloadFrom_steps _ _ _ _ _ _ _ _ _ l) in E1.
  { by intros [= _ <- _]. }
  destruct lived; [|by intros [= _ <- _]].
  destruct (rename _ _ _) as [d5 [[]|e']]; [|by intros [= _ <- _]].
  destruct (ReloadFrom _ _ _ (fs d5) _ _ _) as [s2 r2] eqn:E2; apply (ReloadFrom_steps _ _ _ _ _ _ _ _ _ l) in E2.
  intros [= _ <- _]. by etrans.
Qed.

Lemma watch_step_steps e w l :
  rtc store_step (World (w_store w) l) (World (w_store (watch_step e w)) l).
Proof.
  unfold Desired.watch_step. destruct e as [[[] raw]|]; cbn [operation entry_value]; try done.
  destruct (Parse _ _ _ raw) as [m|]; [|done]. destruct (_ && (rev _ =? _)); [done|].
  destruct (Apply _ _ _ _ _ _ _ _) as [[d s] r] eqn:E. apply (Apply_steps _ _ _ _ _ _ l) in E.
  by destruct r.
Qed.

Lemma Bootstrap_steps fs dir s l :
  rtc store_step (World s l) (World (Bootstrap yaml_decode sha256 compiler fs dir s).1 l).
Proof.
  unfold Bootstrap. destruct dir as [top|]; [|done]. destruct (Stat _ _); [|done].
  destruct (ReloadFrom _ _ _ _ _ _ _) as [s1 r] eqn:E. apply (ReloadFrom_steps _ _ _ _ _ _ _ _ _ l) in E.
  by destruct r.
Qed.
End watched.

(** ** What Parse lets through *)

(** C31. A manifest that parses is for version 1, has a positive revision and the
    default profile; it has the hash of its contents, which is the one it names if it
    names one; and writing it below a directory, with whatever faults of the disk,
    touches nothing elsewhere: no name in it leads out of the directory. *)
Theorem Parse_confined sha256 unmarshal parse_level raw m now top q d :
  Parse sha256 unmarshal parse_level raw = Ok m → apart top q →
  MV m = 1 ∧ 1 ≤ Rev m ∧ is_Some (Profiles m !! DefaultProfile) ∧
  ConfigHash m = HashWith sha256 (Profiles m) (Manifest_Settings m) ∧
  (∃ named, unmarshal raw = Ok named ∧ (ConfigHash named = "" ∨ ConfigHash named = ConfigHash m)) ∧
  subtree (fs (write now top m d).1) q = subtree (fs d) q.
Proof.
  intros Hp Ha. apply parsed_ok in Hp as Hm. pose proof Hm as [Hv Hr Hd _ Hh].
  split_and!; [done..| |by apply (keeps_write sha256 now m Hm)].
  apply bind_ok in Hp as (named & Hu%wrapf_ok & Hp). exists named. split; [done|].
  do 4 apply seq_ok in Hp as [_ Hp]. apply bind_ok in Hp as (s & _ & Hp).
  apply seq_ok in Hp as [Hc Hp]. injection Hp as <-. cbn in *.
  rewrite fail_if_ok, andb_false_iff, !negb_false_iff in Hc.
  destruct Hc as [Hc|Hc%seqb_eq]; [left; by apply is_empty_true|by right].
Qed.

(** ** Witnesses *)

Definition sample_manifest (text : string) : Manifest :=
  MkManifest 1 3 "" {["default" := DProfile [DFile "profile.yaml" text]]} None.

Definition sample_unmarshal (raw : string) : result Manifest := Ok (sample_manifest raw).

Definition sample_parse (raw : string) : result Manifest :=
  Parse id sample_unmarshal (λ _, Ok 0) raw.

Definition parsed (text : string) : Manifest :=
  match sample_parse text with Ok m => m | Err _ => sample_manifest text end.

Lemma sample_parsed text : sample_parse text = Ok (parsed text).
Proof. reflexivity. Qed.

Theorem Parse_confined_witness :
  ∃ m, sample_parse "a" = Ok m ∧
    subtree (fs (write 5 ["d"; "new"] m (Disk ∅ [])).1) ["d"; "other"] = subtree ∅ ["d"; "other"].
Proof.
  exists (parsed "a"). split; [reflexivity|].
  apply (Parse_confined id sample_unmarshal (λ _, Ok 0) "a" (parsed "a") 5
    ["d"; "new"] ["d"; "other"] (Disk ∅ [])); [reflexivity|]. split; reflexivity.
Defined.

(** A disk with a tree in force, and a store that has loaded it. *)
Definition sample_disk (faults : list (option fault)) : disk :=
  Disk {[ ["d"] := Dir true; ["d"; treeDir] := Dir true; ["d"; treeDir; "default"] := Dir true;
          ["d"; treeDir; "default"; profileFile] := File "old" 1 true ]} faults.

Definition sample_Apply (text : string) (d : disk) : disk * Store unit * result unit :=
  @Apply ascii_tables unit sample_decode id None 9 sample_store ["d"] (parsed text) d.

Lemma sample_applied text d s r :
  (sample_Apply text d).1.2 = s → (sample_Apply text d).2 = r →
  @Apply ascii_tables unit sample_decode id None 9 sample_store ["d"] (parsed text) d =
  ((sample_Apply text d).1.1, s, r).
Proof. intros <- <-. unfold sample_Apply. by destruct (Apply _ _ _ _ _ _ _ _) as [[??]?]. Qed.

(** A removal that fails half way. *)
Definition half_removed : fault := Fault (Errorf "removing") None (λ r, bool_decide (r = ["default"])).

Definition failing_disk : disk :=
  sample_disk [None; None; None; None; None; None; None; None; Some half_removed].

Lemma parsed_manifest text : manifest_ok id (parsed text).
Proof. apply (parsed_ok id sample_unmarshal (λ _, Ok 0) text). apply sample_parsed. Qed.

(** With the removal of the old tree failing in the end; and with a manifest whose
    profiles are rejected, the removal of its tree failing half way. *)
Theorem Apply_whole_witness :
  ((sample_Apply "new" failing_disk).2 = Ok tt ∧
   holds 9 (fs (sample_Apply "new" failing_disk).1.1) ["d"; treeDir] (parsed "new")) ∧
  fs (sample_Apply "bad" failing_disk).1.1 !! ["d"; treeDir; "default"] = Some (Dir true) ∧
  fs (sample_Apply "bad" failing_disk).1.1 !! ["d"; treeDir; "default"; profileFile] = None ∧
  live_fate 9 ["d"] (parsed "bad") (faults failing_disk) (fs failing_disk)
    (fs (sample_Apply "bad" failing_disk).1.1).
Proof.
  split.
  - split; [vm_compute; reflexivity|].
    refine (proj2 (@Apply_whole ascii_tables unit sample_decode id None 9 ["d"] (parsed "new")
      (parsed_manifest "new") sample_store failing_disk _ _ _ _
      (sample_applied "new" failing_disk _ _ eq_refl eq_refl)) _); [|vm_compute; reflexivity].
    right; intros ft E; by vm_compute in E.
  - split; [vm_compute; reflexivity|]. split; [vm_compute; reflexivity|].
    refine (proj1 (@Apply_whole ascii_tables unit sample_decode id None 9 ["d"] (parsed "bad")
      (parsed_manifest "bad") sample_store failing_disk _ _ _ _
      (sample_applied "bad" failing_disk _ _ eq_refl eq_refl))).
    right; intros ft E; by vm_compute in E.
Defined.

Theorem Apply_rollback_witness :
  ∃ e, (sample_Apply "bad" (sample_disk [])).2 = Err e ∧
    subtree (fs (sample_Apply "bad" (sample_disk [])).1.1) ["d"; treeDir] =
    subtree (fs (sample_disk [])) ["d"; treeDir].
Proof.
  exists (Wrapf "profile %s: %w" EOF). split; [vm_compute; reflexivity|].
  refine (proj1 (@Apply_rollback ascii_tables unit sample_decode id None 9 ["d"] (parsed "bad")
    (parsed_manifest "bad") sample_store (sample_disk []) _ _ _ eq_refl _
    (sample_applied "bad" (sample_disk []) _ _ eq_refl _))); [|vm_compute; reflexivity].
  intros Hl. by vm_compute in Hl.
Defined.

(** The first time the live tree cannot be put aside; the second time all goes well. *)
Definition sample_watched (entries : list (option entry)) : watcher (C := unit) :=
  foldl (λ w e, @watch_step ascii_tables unit sample_decode id None 9 sample_unmarshal (λ _, Ok 0)
      ["d"] e w)
    (Watcher (MkApplied "" 0 "" []) sample_store
       (sample_disk [None; None; None; None; None; None; Some half_removed]) 0) entries.


(** When the staging directory cannot be cleared, what an earlier attempt left in it
    is taken for the manifest's: it is put in force with it. *)
Lemma Apply_promotes_leftovers :
  let left := Disk {[ ["d"] := Dir true; ["d"; ".next"] := Dir true; ["d"; ".next"; "default"] := Dir true;
      ["d"; ".next"; "default"; "left"] := File "behind" 1 true ]}
    [None; Some (Fault (Errorf "removing") None (λ _, true))] in
  (sample_Apply "new" left).2 = Ok tt ∧
  fs (sample_Apply "new" left).1.1 !! ["d"; treeDir; "default"; "left"] = Some (File "behind" 1 true).
Proof. split; vm_compute; reflexivity. Qed.

(** Different manifests may have one hash: the settings are hashed as a profile
    named settings would be. *)
Lemma HashWith_collides sha256 :
  let settings := Some (MkSettings "info" 0) in
  let default := DProfile [DFile "profile.yaml" "mode: off"] in
  let more := DProfile [DFile "log_level" "info"] in
  let plain : gmap string profile := {["default" := default]} in
  HashWith sha256 plain settings = HashWith sha256 (<["settings" := more]> plain) None ∧
  plain ≠ <["settings" := more]> plain.
Proof.
  cbv zeta. split; [reflexivity|]. intros E. apply (f_equal (lookup "settings")) in E.
  rewrite lookup_insert_eq in E. by vm_compute in E.
Qed.
