(* ===== verification/ConfFile.v ===== *)
(** * internal/config/file.go: inspector.conf

    The configuration file is read line by line: directives that end in a
    semicolon, and one block of Redis addresses. What the code reads of the process
    and its files is the record [machine]; [url_parse] is [url.Parse], of whose
    result the code reads the scheme and the host. *)
From S2P Require Import Prelude GoString.

Definition QueueFullDrop := "drop".
Definition QueueFullWait := "wait".
Definition QueueExpandOff := "off".
Definition QueueExpandAsk := "ask".
Definition InternalFromExchange := "exchange".

(** [LookupEnv]; [Stat], which tells whether the path is a directory; [ReadFile]. *)
Record machine := {
  LookupEnv : string → option string;
  Stat : string → result bool;
  ReadFile : string → result string
}.

Record queueFile := {
  Max : option Z; Full : string; Expand : string; RedisURL : string; RedisInternal : string
}.

Definition no_file : queueFile :=
  {| Max := None; Full := ""; Expand := ""; RedisURL := ""; RedisInternal := "" |}.

Definition set_max (v : Z) (f : queueFile) : queueFile := {|
  Max := Some v; Full := Full f; Expand := Expand f; RedisURL := RedisURL f;
  RedisInternal := RedisInternal f |}.
Definition set_full (v : string) (f : queueFile) : queueFile := {|
  Max := Max f; Full := v; Expand := Expand f; RedisURL := RedisURL f;
  RedisInternal := RedisInternal f |}.
Definition set_expand (v : string) (f : queueFile) : queueFile := {|
  Max := Max f; Full := Full f; Expand := v; RedisURL := RedisURL f;
  RedisInternal := RedisInternal f |}.
Definition set_url (v : string) (f : queueFile) : queueFile := {|
  Max := Max f; Full := Full f; Expand := Expand f; RedisURL := v;
  RedisInternal := RedisInternal f |}.
Definition set_internal (v : string) (f : queueFile) : queueFile := {|
  Max := Max f; Full := Full f; Expand := Expand f; RedisURL := RedisURL f;
  RedisInternal := v |}.

(** *** Where the file is *)

(** The trimmed value of a variable that is set and not blank. *)
Definition env_value (m : machine) (name : string) : option string :=
  match LookupEnv m name with
  | Some v => if is_empty (TrimSpace v) then None else Some (TrimSpace v)
  | None => None
  end.

Fixpoint first_file (m : machine) (candidates : list string) : string :=
  match candidates with
  | [] => ""
  | c :: candidates =>
      match Stat m c with
      | Ok false => c
      | _ => first_file m candidates
      end
  end.

Definition confPath (m : machine) (envName : string) : string :=
  match env_value m envName with
  | Some v => v
  | None => first_file m ["inspector.conf"; "/app/inspector.conf"]
  end.

Definition envOverride (m : machine) (name current : string) : string :=
  default current (env_value m name).

Definition exchangeRedis (m : machine) (file : queueFile) : string :=
  default (RedisURL file) (env_value m "REDIS_URL").

Definition noInternalRedis (file : queueFile) : result unit :=
  fail_if (negb (is_empty (RedisInternal file)))
    "%s: redis internal: this inspector keeps no state in Redis, remove the key".

(** *** Lines and directives *)

Definition confText (line : string) : string :=
  TrimSpace (match IndexByte line "#" with Some i => str_take i line | None => line end).

Definition requireSemicolon (text : string) : result string :=
  if negb (HasSuffix text ";") then errorf "missing semicolon"
  else Ok (TrimSpace (TrimSuffix text ";")).

Section parse.
Context `{Unicode}.
Context (url_parse : string → result (string * string)).

Definition isConfName (s : string) : bool :=
  negb (is_empty s) && forallb (λ r, (r =? 95) || is_letter r || is_digit r) (runes s).

Definition tab : ascii := byte 9.

Definition splitDirective (stmt : string) : result (string * string) :=
  let stmt := TrimSpace stmt in
  if is_empty stmt then errorf "empty directive"
  else
    let '(key, rest, ok) := Cut stmt " " in
    if negb ok then errorf "directive %q has no value"
    else if negb (isConfName key) then errorf "invalid directive name %q"
    else
      let value := TrimSpace rest in
      if is_empty value || ContainsAny value (String " " (String tab "")) then
        errorf "directive %s expects one value"
      else Ok (key, value).

Definition isRedisURL (s : string) : bool :=
  match url_parse s with
  | Err _ => false
  | Ok (scheme, host) =>
      negb (is_empty host) && ((scheme =s? "redis") || (scheme =s? "rediss"))
  end.

(** [block] is the name of the open block. The position of an error is not kept. *)
Record conf_state := ConfState { conf : queueFile; seen : gset string; block : string }.

Definition parseRedisKey (st : conf_state) (text : string) : result conf_state :=
  stmt ← requireSemicolon text;
  kv ← splitDirective stmt;
  let '(key, value) := kv in
  let id := "redis." +:+ key in
  if bool_decide (id ∈ seen st) then errorf "redis %s is set twice"
  else if negb (key =s? "url") && negb (key =s? "internal")
  then errorf "unknown key %q in the redis block, want url or internal"
  else if negb (isRedisURL value)
  then errorf "redis %s must be redis://host:port[/db] or rediss://..., got %q"
  else
    let conf := if key =s? "url" then set_url value (conf st) else set_internal value (conf st) in
    Ok (ConfState conf ({[id]} ∪ seen st) (block st)).

Definition set_directive (key value : string) (f : queueFile) : result queueFile :=
  if key =s? "queue_max" then
    match Atoi value with
    | Some v => if v <? 1 then errorf "queue_max must be a positive integer, got %q"
                else Ok (set_max v f)
    | None => errorf "queue_max must be a positive integer, got %q"
    end
  else if key =s? "queue_full" then
    if (value =s? QueueFullDrop) || (value =s? QueueFullWait) then Ok (set_full value f)
    else errorf "queue_full must be drop or wait, got %q"
  else if key =s? "queue_expand" then
    if (value =s? QueueExpandOff) || (value =s? QueueExpandAsk) then Ok (set_expand value f)
    else errorf "queue_expand must be off or ask, got %q"
  else errorf "unknown directive %q".

(** The body of the loop. *)
Definition parse_line (st : conf_state) (line : string) : result conf_state :=
  let text := confText line in
  if is_empty text then Ok st
  else if negb (is_empty (block st)) then
    if text =s? "}" then Ok (ConfState (conf st) (seen st) "") else parseRedisKey st text
  else if text =s? "}" then errorf "unexpected }"
  else
    let '(head, ok) := CutSuffix text "{" in
    if ok : bool then
      let head := TrimSpace head in
      if negb (head =s? "redis") then errorf "unknown block %q"
      else if bool_decide (head ∈ seen st) then errorf "%s block is set twice"
      else Ok (ConfState (conf st) ({[head]} ∪ seen st) head)
    else
      stmt ← requireSemicolon text;
      kv ← splitDirective stmt;
      let '(key, value) := kv in
      if bool_decide (key ∈ seen st) then errorf "%s is set twice"
      else
        f ← set_directive key value (conf st);
        Ok (ConfState f ({[key]} ∪ seen st) (block st)).

Fixpoint parse_lines (lines : list string) (st : conf_state) : result conf_state :=
  match lines with
  | [] => Ok st
  | line :: lines => st ← wrapf "%s:%d: %w" (parse_line st line); parse_lines lines st
  end.

Definition newline : ascii := byte 10.

Definition parseQueueFile (src : string) : result queueFile :=
  st ← parse_lines (Split src newline) (ConfState no_file ∅ "");
  if negb (is_empty (block st)) then errorf "%s:%d: %s block is not closed" else Ok (conf st).

Definition loadQueueFile (m : machine) (path : string) : result queueFile :=
  raw ← wrapf "%s: %w" (ReadFile m path);
  parseQueueFile raw.

(** *** Applying the file *)

Record queueSettings := { Settings_Max : Z; Settings_Full : string; Settings_Expand : string }.

Definition applyQueueFile (c : queueSettings) (file : queueFile) : queueSettings := {|
  Settings_Max := default (Settings_Max c) (Max file);
  Settings_Full := if is_empty (Full file) then Settings_Full c else Full file;
  Settings_Expand := if is_empty (Expand file) then Settings_Expand c else Expand file
|}.
End parse.

(** ** What a parsed file says *)

Section parsed.
Context `{Unicode}.
Context (url_parse : string → result (string * string)).
Abbreviation isRedisURL := (isRedisURL url_parse).
Abbreviation parse_line := (parse_line url_parse).
Abbreviation parse_lines := (parse_lines url_parse).

(** Every value is one the code allows; an absent one is empty. *)
Record file_ok (f : queueFile) : Prop := {
  fo_max : ∀ v, Max f = Some v → 1 ≤ v ≤ int64_max;
  fo_full : Full f ∈ [""; QueueFullDrop; QueueFullWait];
  fo_expand : Expand f ∈ [""; QueueExpandOff; QueueExpandAsk];
  fo_url : RedisURL f ≠ "" → isRedisURL (RedisURL f) = true;
  fo_internal : RedisInternal f ≠ "" → isRedisURL (RedisInternal f) = true
}.

Lemma set_directive_ok key value f f' :
  set_directive key value f = Ok f' → file_ok f → file_ok f'.
Proof.
  unfold set_directive. intros Hs [].
  destruct (key =s? "queue_max").
  { destruct (Atoi value) as [v|] eqn:Ea; [|done]. destruct (Z.ltb_spec v 1); [done|].
    injection Hs as <-. apply ParseInt_range in Ea. unfold int64 in Ea.
    split; cbn; [intros ? [= <-]; lia|done..]. }
  destruct (key =s? "queue_full").
  { destruct (_ || _) eqn:E; [|done]. injection Hs as <-. guards.
    split; cbn; try done. rewrite !elem_of_cons. tauto. }
  destruct (key =s? "queue_expand"); [|done].
  destruct (_ || _) eqn:E; [|done]. injection Hs as <-. guards.
  split; cbn; try done. rewrite !elem_of_cons. tauto.
Qed.

Lemma parseRedisKey_ok st text st' :
  parseRedisKey url_parse st text = Ok st' → file_ok (conf st) → file_ok (conf st').
Proof.
  intros (stmt & _ & Hp)%bind_ok []. apply bind_ok in Hp as ([key value] & _ & Hp). cbn beta iota zeta in Hp.
  case_bool_decide; [done|]. destruct (negb (key =s? "url") && _); [done|].
  destruct (isRedisURL value) eqn:E; [|done]. injection Hp as <-. cbn.
  by destruct (key =s? "url"); split.
Qed.

Lemma parse_line_ok st line st' :
  parse_line st line = Ok st' → file_ok (conf st) → file_ok (conf st').
Proof.
  unfold ConfFile.parse_line. destruct (is_empty (confText line)); [by intros [= <-]|].
  destruct (negb (is_empty (block st))).
  { destruct (_ =s? _); [by intros [= <-]|apply parseRedisKey_ok]. }
  destruct (_ =s? _); [done|]. destruct (CutSuffix _ _) as [head []].
  - destruct (negb _); [done|]. case_bool_decide; [done|]. by intros [= <-].
  - intros (stmt & _ & Hp)%bind_ok. apply bind_ok in Hp as ([key value] & _ & Hp). cbn beta iota zeta in Hp.
    case_bool_decide; [done|]. apply bind_ok in Hp as (f & Hf & Hp). injection Hp as <-.
    intros Hok. by eapply set_directive_ok.
Qed.

Lemma parse_lines_ok lines : ∀ st st',
  parse_lines lines st = Ok st' → file_ok (conf st) → file_ok (conf st').
Proof.
  induction lines as [|line lines IH]; intros st st'; cbn; [by intros [= <-]|].
  intros (st1 & Hl%wrapf_ok & Hk)%bind_ok Hok. eapply IH, parse_line_ok; done.
Qed.

(** A file that parses holds allowed values only. *)
Lemma parseQueueFile_ok src f : parseQueueFile url_parse src = Ok f → file_ok f.
Proof.
  intros (st & Hs & Hf)%bind_ok. destruct (negb _); [done|]. injection Hf as <-.
  eapply parse_lines_ok; [exact Hs|].
  split; cbn; [done|apply elem_of_eval; reflexivity|apply elem_of_eval; reflexivity|done|done].
Qed.
End parsed.

(** ** Round trip *)

(** A file with the settings of [f], one directive a line. *)
Definition directive (key value : string) : string := key +:+ " " +:+ value +:+ ";".
Definition redis_line (key value : string) : list string :=
  if is_empty value then [] else [directive key value].
Definition render_redis (f : queueFile) : list string :=
  "redis {" :: redis_line "url" (RedisURL f) ++ redis_line "internal" (RedisInternal f) ++ ["}"].
Definition render_lines (f : queueFile) : list string :=
  match Max f with Some v => [directive "queue_max" (Itoa v)] | None => [] end ++
  redis_line "queue_full" (Full f) ++ redis_line "queue_expand" (Expand f) ++ render_redis f.
Definition render (f : queueFile) : string := Join (render_lines f) (String newline "").

(** Text a value may consist of: printable, without blanks or a comment sign. *)
Definition plain (c : ascii) : Prop := graphic c ∧ c ≠ "#"%char.

Section roundtrip.
Context `{Unicode}.
Context (url_parse : string → result (string * string)).

Lemma plain_graphic l : Forall plain l → Forall graphic l.
Proof. intros Hl. eapply Forall_impl; [exact Hl|]. by intros ? []. Qed.

Lemma plain_not c l : Forall plain l → in_range 33 126 (code c) = false → c ∉ l.
Proof.
  intros Hl Hc Hin. rewrite Forall_forall in Hl. destruct (Hl c Hin) as [Hg _].
  unfold graphic in Hg. congruence.
Qed.

Lemma plain_no_hash l : Forall plain l → "#"%char ∉ l.
Proof. rewrite Forall_forall. intros Hl Hin. by destruct (Hl _ Hin) as [_ []]. Qed.

Lemma tidy_between a t b :
  a ≠ "" → b ≠ "" → Forall plain (bytes a) → Forall plain (bytes b) → tidy (a +:+ t +:+ b).
Proof.
  intros Ha Hb Hpa%plain_graphic Hpb%plain_graphic.
  destruct (tidy_graphic a Ha Hpa) as [(c & l & E & Hc) _].
  destruct (tidy_graphic b Hb Hpb) as [_ (k & d & E' & Hd)].
  split.
  - exists c, (l ++ bytes t ++ bytes b)%list. split; [|done]. by rewrite !bytes_app, E.
  - exists (bytes a ++ bytes t ++ k)%list, d. split; [|done].
    by rewrite !bytes_app, E', <- !app_assoc.
Qed.

Lemma no_comment s : "#"%char ∉ bytes s → tidy s → confText s = s.
Proof.
  intros Hs Ht. unfold confText, IndexByte. rewrite index_byte_none by done.
  by apply TrimSpace_tidy.
Qed.

(** A line is read as the directive it writes. *)
Record directive_text (key value : string) : Prop := {
  dt_key : key ≠ "" ∧ Forall plain (bytes key);
  dt_name : isConfName key = true;
  dt_value : value ≠ "" ∧ Forall plain (bytes value)
}.

Lemma splitDirective_line key value :
  directive_text key value → splitDirective (key +:+ " " +:+ value) = Ok (key, value).
Proof.
  intros [[Hk Hpk] Hn [Hv Hpv]]. unfold splitDirective.
  assert (tidy (key +:+ " " +:+ value)) as Ht by by apply tidy_between.
  rewrite TrimSpace_tidy by done.
  assert (is_empty (key +:+ " " +:+ value) = false) as ->.
  { apply is_empty_false. destruct key; done. }
  change (" " +:+ value) with (String " " value). rewrite Cut_here by by apply plain_not.
  cbn [negb]. rewrite Hn. cbn [negb].
  rewrite TrimSpace_tidy by by apply tidy_graphic, plain_graphic.
  rewrite (proj2 (is_empty_false _) Hv). cbn [orb].
  assert (ContainsAny value (String " " (String tab "")) = false) as ->; [|done].
  unfold ContainsAny. apply not_true_iff_false. intros (a & Ha & Hb)%existsb_exists.
  apply list_elem_of_In in Ha. apply existsb_exists in Hb as (b & Hin & ->%Ascii.eqb_eq).
  cbn in Hin. revert Ha. destruct Hin as [<-|[<-|[]]]; by apply plain_not.
Qed.

Lemma directive_line key value :
  directive_text key value →
  confText (directive key value) = directive key value ∧
  requireSemicolon (directive key value) = Ok (key +:+ " " +:+ value) ∧
  (newline ∉ bytes (directive key value)) ∧ directive key value ≠ "" ∧
  HasSuffix (directive key value) "{" = false ∧ directive key value ≠ "}".
Proof.
  intros [[Hk Hpk] Hn [Hv Hpv]]. unfold directive.
  assert (Forall plain (bytes ";")) as Hs by by repeat constructor.
  assert (key +:+ " " +:+ value +:+ ";" = (key +:+ " " +:+ value) +:+ ";") as E.
  { apply bytes_inj. by rewrite !bytes_app, <- !app_assoc. }
  assert (∀ c, c ∉ bytes key → c ∉ bytes " " → c ∉ bytes value → c ∉ bytes ";" →
    c ∉ bytes (key +:+ " " +:+ value +:+ ";")) as Hout.
  { intros c. rewrite !bytes_app, !elem_of_app. tauto. }
  split_and!.
  - apply no_comment.
    + apply Hout; try by apply plain_no_hash. by apply not_in_one.
    + replace (key +:+ " " +:+ value +:+ ";") with (key +:+ (" " +:+ value) +:+ ";")
        by (apply bytes_inj; by rewrite !bytes_app).
      by apply tidy_between.
  - unfold requireSemicolon. rewrite E, HasSuffix_app, TrimSuffix_app. cbn [negb].
    rewrite TrimSpace_tidy; [done|]. by apply tidy_between.
  - apply Hout; first [by apply plain_not|by apply not_in_one].
  - by destruct key.
  - rewrite E. by apply HasSuffix_other.
  - destruct key as [|a [|]]; done.
Qed.

(** The name of a setting: all keys the code knows are plain names. *)
Lemma directive_known key value :
  key ∈ ["queue_max"; "queue_full"; "queue_expand"; "url"; "internal"] →
  value ≠ "" → Forall plain (bytes value) → directive_text key value.
Proof.
  intros Hk Hv Hp. repeat (apply elem_of_cons in Hk as [->|Hk]); try by apply not_elem_of_nil in Hk.
  all: split; [split; [done|by repeat constructor]|reflexivity|done].
Qed.

Lemma parse_top key value st :
  key ∈ ["queue_max"; "queue_full"; "queue_expand"] → value ≠ "" → Forall plain (bytes value) →
  block st = "" → key ∉ seen st →
  parse_line url_parse st (directive key value) =
    (f ← set_directive key value (conf st); Ok (ConfState f ({[key]} ∪ seen st) (block st))).
Proof.
  intros Hk Hv Hp Hb Hs.
  assert (directive_text key value) as Ht.
  { apply directive_known; [|done|done]. by revert Hk; apply sub_of_eval. }
  destruct (directive_line key value Ht) as (Hc & Hr & _ & Hne & Hsuf & Hbr).
  unfold parse_line. rewrite Hc, (proj2 (is_empty_false _) Hne), Hb. cbn [is_empty negb].
  rewrite (proj2 (seqb_neq _ _) Hbr). unfold CutSuffix. rewrite Hsuf, Hr. cbn.
  rewrite splitDirective_line by done. cbn. by rewrite bool_decide_eq_false_2.
Qed.

Lemma parse_redis key value st :
  key ∈ ["url"; "internal"] → value ≠ "" → Forall plain (bytes value) →
  block st ≠ "" → "redis." +:+ key ∉ seen st → isRedisURL url_parse value = true →
  parse_line url_parse st (directive key value) =
    Ok (ConfState (if key =s? "url" then set_url value (conf st) else set_internal value (conf st))
          ({["redis." +:+ key]} ∪ seen st) (block st)).
Proof.
  intros Hk Hv Hp Hb Hs Hu.
  assert (directive_text key value) as Ht.
  { apply directive_known; [|done|done]. by revert Hk; apply sub_of_eval. }
  destruct (directive_line key value Ht) as (Hc & Hr & _ & Hne & Hsuf & Hbr).
  unfold parse_line. rewrite Hc, (proj2 (is_empty_false _) Hne), (proj2 (is_empty_false _) Hb).
  cbn [negb]. rewrite (proj2 (seqb_neq _ _) Hbr). unfold parseRedisKey. rewrite Hr. cbn [mbind].
  cbn. rewrite splitDirective_line by done. cbn. rewrite bool_decide_eq_false_2 by done.
  rewrite Hu. repeat (apply elem_of_cons in Hk as [->|Hk]); by try apply not_elem_of_nil in Hk.
Qed.

Lemma parse_lines_app l k st :
  parse_lines url_parse (l ++ k) st =
    (st ← parse_lines url_parse l st; parse_lines url_parse k st).
Proof.
  revert st. induction l as [|x l IH]; intros st; cbn; [done|].
  destruct (parse_line url_parse st x); cbn; [apply IH|done].
Qed.

(** One optional setting: the file read so far, and the keys seen. *)
Lemma parse_setting key value g g' s :
  key ∈ ["queue_max"; "queue_full"; "queue_expand"] → Forall plain (bytes value) →
  key ∉ s → (value ≠ "" → set_directive key value g = Ok g') → (value = "" → g' = g) →
  ∃ s', parse_lines url_parse (redis_line key value) (ConfState g s "") = Ok (ConfState g' s' "") ∧
    s' ⊆ {[key]} ∪ s.
Proof.
  intros Hk Hp Hs Hset Hnone. unfold redis_line. destruct (is_empty value) eqn:E.
  - apply is_empty_true in E. rewrite (Hnone E). exists s. split; [done|set_solver].
  - apply is_empty_false in E. exists ({[key]} ∪ s). split; [|done]. cbn.
    rewrite parse_top by done. cbn. by rewrite (Hset E).
Qed.

Lemma parse_open g s :
  "redis" ∉ s →
  parse_line url_parse (ConfState g s "") "redis {" = Ok (ConfState g ({["redis"]} ∪ s) "redis").
Proof.
  intros Hs. unfold parse_line.
  replace (confText "redis {") with "redis {" by (vm_compute; reflexivity).
  replace (CutSuffix "redis {" "{") with ("redis ", true) by (vm_compute; reflexivity).
  cbn [is_empty String.eqb block negb].
  replace (TrimSpace "redis ") with "redis" by (vm_compute; reflexivity).
  cbn [seen conf]. by rewrite bool_decide_eq_false_2.
Qed.

Lemma parse_close g s b :
  b ≠ "" → parse_line url_parse (ConfState g s b) "}" = Ok (ConfState g s "").
Proof.
  intros Hb. unfold parse_line. replace (confText "}") with "}" by (vm_compute; reflexivity).
  cbn [block]. by rewrite (proj2 (is_empty_false _) Hb).
Qed.

Ltac redis_side :=
  solve [done | by auto | by apply elem_of_eval | cbn [seen]; set_solver].

Lemma parse_redis_block f s :
  file_ok url_parse f → "redis" ∉ s → "redis.url" ∉ s → "redis.internal" ∉ s →
  Forall plain (bytes (RedisURL f)) → Forall plain (bytes (RedisInternal f)) →
  ∃ s', parse_lines url_parse (render_redis f) (ConfState {| Max := Max f; Full := Full f;
      Expand := Expand f; RedisURL := ""; RedisInternal := "" |} s "") = Ok (ConfState f s' "").
Proof.
  intros [_ _ _ Hu Hi] Hs1 Hs2 Hs3 Hpu Hpi. unfold render_redis.
  change ("redis {" :: ?l)%list with (["redis {"] ++ l)%list.
  rewrite parse_lines_app. cbn [parse_lines].
  rewrite parse_open by done.
  cbn [wrapf mbind result_bind]. rewrite parse_lines_app. unfold redis_line.
  destruct f as [mx fu ex u i]. cbn [RedisURL RedisInternal Max Full Expand] in *.
  destruct (is_empty u) eqn:Eu; [apply is_empty_true in Eu as ->|apply is_empty_false in Eu];
    (destruct (is_empty i) eqn:Ei; [apply is_empty_true in Ei as ->|apply is_empty_false in Ei]);
    cbn [app parse_lines];
    rewrite ?parse_redis by redis_side;
    cbn [wrapf mbind result_bind conf seen block];
    rewrite ?parse_redis by redis_side;
    cbn [wrapf mbind result_bind conf seen block];
    rewrite parse_close by done; eexists; reflexivity.
Qed.

Lemma value_line key value :
  key ∈ ["queue_max"; "queue_full"; "queue_expand"; "url"; "internal"] →
  Forall plain (bytes value) → Forall (λ l, newline ∉ bytes l) (redis_line key value).
Proof.
  intros Hk Hp. unfold redis_line. destruct (is_empty value) eqn:E; [constructor|].
  apply is_empty_false in E. apply Forall_singleton.
  by destruct (directive_line key value) as (_ & _ & ? & _); [apply directive_known|].
Qed.

Lemma max_line f :
  match Max f with Some v => [directive "queue_max" (Itoa v)] | None => [] end =
  redis_line "queue_max" (match Max f with Some v => Itoa v | None => "" end).
Proof.
  destruct (Max f) as [v|]; [|done]. unfold redis_line.
  assert (Itoa v ≠ "") as ->%is_empty_false; [|done].
  destruct (Z.ltb_spec v 0) as [Hv|Hv]; [|by apply Itoa_graphic].
  unfold Itoa. by rewrite (proj2 (Z.ltb_lt _ _) Hv).
Qed.

Lemma Itoa_plain v : 0 ≤ v → Forall plain (bytes (Itoa v)).
Proof.
  intros Hv. rewrite Itoa_nonneg by done.
  destruct (digits_of_spec v Hv) as (c & l & -> & Hd & _). rewrite bytes_of_bytes.
  eapply Forall_impl; [exact Hd|]. intros d Hdd. split; [by apply digit_char_ascii|].
  intros ->. by vm_compute in Hdd.
Qed.

(** Values out of a short list are plain. *)
Lemma member_plain l s :
  forallb (λ s, forallb (λ c, in_range 33 126 (code c) && negb (Ascii.eqb c "#")) (bytes s)) l = true →
  s ∈ l → Forall plain (bytes s).
Proof.
  intros Hl Hs%list_elem_of_In. rewrite forallb_forall in Hl. apply Hl in Hs.
  rewrite forallb_forall in Hs. apply Forall_forall. intros c Hc%list_elem_of_In.
  apply Hs, andb_true_iff in Hc as [Hg Hn]. split; [done|].
  apply negb_true_iff, Ascii.eqb_neq in Hn. done.
Qed.

(** C27. A file written from settings reads back as the same settings: whatever the
    code accepts, printed one directive a line, parses to itself. *)
Theorem parse_render f :
  file_ok url_parse f →
  Forall plain (bytes (RedisURL f)) → Forall plain (bytes (RedisInternal f)) →
  parseQueueFile url_parse (render f) = Ok f.
Proof.
  intros Hok Hpu Hpi. pose proof Hok as [Hm Hf He _ _].
  assert (Forall plain (bytes (Full f))) as Hpf by (eapply member_plain, Hf; reflexivity).
  assert (Forall plain (bytes (Expand f))) as Hpe by (eapply member_plain, He; reflexivity).
  assert (Forall plain (bytes (match Max f with Some v => Itoa v | None => "" end))) as Hpm.
  { destruct (Max f) as [v|]; [|constructor]. specialize (Hm v eq_refl). apply Itoa_plain. lia. }
  unfold parseQueueFile, render, render_lines. rewrite max_line. rewrite (Split_Join newline).
  2:{ rewrite !app_assoc. unfold render_redis. intros E. by apply app_eq_nil in E as [_ ?]. }
  2:{ unfold render_redis. rewrite !Forall_app, Forall_cons, !Forall_app, Forall_singleton.
      split_and!; try (apply value_line; [by apply elem_of_eval|done]); by apply not_in_eval. }
  destruct (parse_setting "queue_max" (match Max f with Some v => Itoa v | None => "" end)
    no_file {| Max := Max f; Full := ""; Expand := ""; RedisURL := ""; RedisInternal := "" |} ∅)
    as (s1 & E1 & S1); [by apply elem_of_eval|done|set_solver| | |].
  { destruct (Max f) as [v|]; [|done]. intros _. specialize (Hm v eq_refl).
    unfold set_directive. cbn [String.eqb]. unfold Atoi.
    rewrite ParseInt_Itoa by (unfold int64, int64_min; lia).
    by rewrite (proj2 (Z.ltb_ge v 1)) by lia. }
  { destruct (Max f) as [v|] eqn:Ev; [|done]. intros Hi. specialize (Hm v eq_refl).
    by destruct (Itoa_graphic v) as [[] _]; [lia|]. }
  destruct (parse_setting "queue_full" (Full f)
    {| Max := Max f; Full := ""; Expand := ""; RedisURL := ""; RedisInternal := "" |}
    {| Max := Max f; Full := Full f; Expand := ""; RedisURL := ""; RedisInternal := "" |} s1)
    as (s2 & E2 & S2); [by apply elem_of_eval|done|set_solver| |by intros ->|].
  { intros Hne. unfold set_directive. cbn [String.eqb].
    rewrite !elem_of_cons in Hf. destruct Hf as [?|[->|[->|?%not_elem_of_nil]]]; done. }
  destruct (parse_setting "queue_expand" (Expand f)
    {| Max := Max f; Full := Full f; Expand := ""; RedisURL := ""; RedisInternal := "" |}
    {| Max := Max f; Full := Full f; Expand := Expand f; RedisURL := ""; RedisInternal := "" |} s2)
    as (s3 & E3 & S3); [by apply elem_of_eval|done|set_solver| |by intros ->|].
  { intros Hne. unfold set_directive. cbn [String.eqb].
    rewrite !elem_of_cons in He. destruct He as [?|[->|[->|?%not_elem_of_nil]]]; done. }
  assert (s3 ⊆ list_to_set ["queue_max"; "queue_full"; "queue_expand"]) as Hs3
    by (clear -S1 S2 S3; set_solver).
  assert (∀ k, has_string ["queue_max"; "queue_full"; "queue_expand"] k = false → k ∉ s3) as Hout.
  { intros k Hk%has_string_false Hin%Hs3. by apply elem_of_list_to_set in Hin. }
  destruct (parse_redis_block f s3) as (s4 & E4); [done|by apply Hout..|done|done|].
  rewrite !parse_lines_app, E1. cbn [mbind result_bind]. rewrite parse_lines_app, E2.
  cbn [mbind result_bind]. rewrite parse_lines_app, E3. cbn [mbind result_bind]. by rewrite E4.
Qed.
End roundtrip.

Definition sample_url_parse (s : string) : result (string * string) :=
  if HasPrefix s "redis://" then Ok ("redis", str_drop 8 s) else Err EOF.

Definition sample_file : queueFile := {|
  Max := Some 512; Full := QueueFullWait; Expand := ""; RedisURL := "redis://cache:6379/0";
  RedisInternal := ""
|}.

Theorem parse_render_witness :
  @file_ok sample_url_parse sample_file ∧
  @parseQueueFile ascii_tables sample_url_parse (render sample_file) = Ok sample_file.
Proof.
  assert (@file_ok sample_url_parse sample_file) as Hok.
  { split; cbn; [intros ? [= <-]; unfold int64_max; lia|by apply elem_of_eval..|
      intros _; reflexivity|done]. }
  split; [exact Hok|]. apply (@parse_render ascii_tables sample_url_parse sample_file Hok).
  - apply (member_plain ["redis://cache:6379/0"]); [reflexivity|by apply elem_of_eval].
  - constructor.
Defined.
