(* ===== verification/Messages.v ===== *)
(** * The messages as JSON

    The Go types of internal/protocol and of the manifest of internal/desired: the
    names of the fields, what is left out when empty, and how [json.Marshal] and
    [json.Unmarshal] relate them to the records of [Protocol] and [Desired]. *)
From S2P Require Import Prelude GoString Json JsonWrite Wire Protocol.
From S2P Require Desired.

#[local] Notation "⟨ x ; .. ; y ⟩" := (pair x .. (pair y tt) ..) : core_scope.

(** A tuple is the one made of its parts. *)
Ltac records :=
  repeat match goal with
         | |- ∀ _ : _ * _, _ => let a := fresh in let b := fresh in intros [a b]; revert b
         end; by intros [].

(** ** internal/protocol *)

Definition tls_fields :=
  field "version" false string_t $
  field "sni" false string_t $
  field "ja4" false string_t $
  no_field.

Definition tls_t : gotype TLS.
Proof.
  refine (struct_t tls_fields
    (λ r, ⟨TLS_Version r; TLS_SNI r; TLS_JA4 r⟩)
    (λ '⟨x0; x1; x2⟩, Build_TLS x0 x1 x2) _ _);
    [by intros []|records].
Defined.

Definition conn_fields :=
  field "client_ip" false string_t $
  field "client_port" false int_t $
  field "server_ip" false string_t $
  field "server_port" false int_t $
  field "tls" false (ptr_t tls_t) $
  no_field.

Definition conn_t : gotype Conn.
Proof.
  refine (struct_t conn_fields
    (λ r, ⟨Conn_ClientIP r; Conn_ClientPort r; Conn_ServerIP r; Conn_ServerPort r;
        Conn_TLS r⟩)
    (λ '⟨x0; x1; x2; x3; x4⟩, Build_Conn x0 x1 x2 x3 x4) _ _);
    [by intros []|records].
Defined.

(** [Header] is an array of two strings. *)
Definition header_go (h : Header) : gval :=
  GArray [GString (Header_Name h); GString (Header_Value h)].
Definition header_t : gotype Header.
Proof.
  refine (GoType (TArray 2 TString) header_go
    (λ g, match g with
          | GArray [GString name; GString value] => Build_Header name value
          | _ => Build_Header "" ""
          end) _ _ _).
  - by intros [].
  - intros [| | | | | |items| |] Hg; try done. cbn in Hg. apply andb_true_iff in Hg as [Hn Hg].
    destruct items as [|[] [|[] [|]]]; try done; cbn in Hg; rewrite ?andb_false_r in Hg; done.
  - settled.
Defined.

Definition http_fields :=
  field "method" false string_t $
  field "scheme" false string_t $
  field "host" false string_t $
  field "uri" false string_t $
  field "args_size" false int_t $
  field "version" false string_t $
  no_field.

Definition http_t : gotype HTTP.
Proof.
  refine (struct_t http_fields
    (λ r, ⟨HTTP_Method r; HTTP_Scheme r; HTTP_Host r; HTTP_URI r; HTTP_ArgsSize r;
        HTTP_Version r⟩)
    (λ '⟨x0; x1; x2; x3; x4; x5⟩, Build_HTTP x0 x1 x2 x3 x4 x5) _ _);
    [by intros []|records].
Defined.

Definition response_fields :=
  field "status" false int_t $
  field "headers" false (slice_t header_t) $
  field "upstream_ms" false int_t $
  no_field.

Definition response_t : gotype Response.
Proof.
  refine (struct_t response_fields
    (λ r, ⟨Response_Status r; Response_Headers r; Response_UpstreamMS r⟩)
    (λ '⟨x0; x1; x2⟩, Build_Response x0 x1 x2) _ _);
    [by intros []|records].
Defined.

Definition enc_fields :=
  field "alg" false string_t $
  field "kid" false string_t $
  field "nonce" false string_t $
  no_field.

Definition enc_t : gotype Enc.
Proof.
  refine (struct_t enc_fields
    (λ r, ⟨Enc_Alg r; Enc_KID r; Enc_Nonce r⟩)
    (λ '⟨x0; x1; x2⟩, Build_Enc x0 x1 x2) _ _);
    [by intros []|records].
Defined.

Definition locator_fields :=
  field "store" false string_t $
  field "driver" false string_t $
  field "key" false string_t $
  field "unavailable" false string_t $
  field "size" false int_t $
  field "declared_size" false int_t $
  field "sha256" false string_t $
  field "processed_sha256" false string_t $
  field "transformed" false bool_t $
  field "complete" false bool_t $
  field "truncated" false bool_t $
  field "encoding" false string_t $
  field "expires_at" false int_t $
  field "hint" false string_t $
  field "enc" false (ptr_t enc_t) $
  no_field.

Definition locator_t : gotype Locator.
Proof.
  refine (struct_t locator_fields
    (λ r, ⟨Locator_Store r; Locator_Driver r; Locator_Key r; Locator_Unavailable r;
        Locator_Size r; Locator_DeclaredSize r; Locator_SHA256 r;
        Locator_ProcessedSHA256 r; Locator_Transformed r; Locator_Complete r;
        Locator_Truncated r; Locator_Encoding r; Locator_ExpiresAt r;
        Locator_Hint r; Locator_Enc r⟩)
    (λ '⟨x0; x1; x2; x3; x4; x5; x6; x7; x8; x9; x10; x11; x12; x13; x14⟩, Build_Locator x0 x1 x2 x3 x4 x5 x6 x7 x8 x9 x10 x11 x12 x13 x14) _ _);
    [by intros []|records].
Defined.

Definition store_fields :=
  field "headers" false (ptr_t locator_t) $
  field "args" false (ptr_t locator_t) $
  field "body" false (ptr_t locator_t) $
  no_field.

Definition store_t : gotype Store.
Proof.
  refine (struct_t store_fields
    (λ r, ⟨Store_Headers r; Store_Args r; Store_Body r⟩)
    (λ '⟨x0; x1; x2⟩, Build_Store x0 x1 x2) _ _);
    [by intros []|records].
Defined.

Definition route_fields :=
  field "server_name" false string_t $
  field "location" false string_t $
  field "profile" false string_t $
  no_field.

Definition route_t : gotype Route.
Proof.
  refine (struct_t route_fields
    (λ r, ⟨Route_ServerName r; Route_Location r; Route_Profile r⟩)
    (λ '⟨x0; x1; x2⟩, Build_Route x0 x1 x2) _ _);
    [by intros []|records].
Defined.

Definition scorestate_fields :=
  field "total" false int_t $
  field "deny_at" false int_t $
  no_field.

Definition scorestate_t : gotype ScoreState.
Proof.
  refine (struct_t scorestate_fields
    (λ r, ⟨ScoreState_Total r; ScoreState_DenyAt r⟩)
    (λ '⟨x0; x1⟩, Build_ScoreState x0 x1) _ _);
    [by intros []|records].
Defined.

Definition objectspec_fields :=
  field "set" true string_t $
  field "limit" true int_t $
  field "source" true string_t $
  no_field.

Definition objectspec_t : gotype ObjectSpec.
Proof.
  refine (struct_t objectspec_fields
    (λ r, ⟨ObjectSpec_Set r; ObjectSpec_Limit r; ObjectSpec_Source r⟩)
    (λ '⟨x0; x1; x2⟩, Build_ObjectSpec x0 x1 x2) _ _);
    [by intros []|records].
Defined.

Definition action_fields :=
  field "to" true string_t $
  field "do" false string_t $
  field "apply" false string_t $
  field "phase" true string_t $
  field "code" true string_t $
  field "delta" true int_t $
  field "value" true int_t $
  field "counter" true string_t $
  field "marker" true string_t $
  field "group" true string_t $
  field "set" true string_t $
  field "ttl" true (ptr_t int_t) $
  field "when" true (slice_t string_t) $
  field "headers" true (ptr_t objectspec_t) $
  field "args" true (ptr_t objectspec_t) $
  field "body" true (ptr_t objectspec_t) $
  no_field.

Definition action_t : gotype Action.
Proof.
  refine (struct_t action_fields
    (λ r, ⟨Action_To r; Action_Do r; Action_Apply r; Action_Phase r; Action_Code r;
        Action_Delta r; Action_Value r; Action_Counter r; Action_Marker r;
        Action_Group r; Action_Set r; Action_TTL r; Action_When r;
        Action_Headers r; Action_Args r; Action_Body r⟩)
    (λ '⟨x0; x1; x2; x3; x4; x5; x6; x7; x8; x9; x10; x11; x12; x13; x14; x15⟩, Build_Action x0 x1 x2 x3 x4 x5 x6 x7 x8 x9 x10 x11 x12 x13 x14 x15) _ _);
    [by intros []|records].
Defined.

Definition priorverdict_fields :=
  field "phase" false string_t $
  field "inspector" false string_t $
  field "verdict" false string_t $
  field "score" false int_t $
  field "actions" false (slice_t action_t) $
  no_field.

Definition priorverdict_t : gotype PriorVerdict.
Proof.
  refine (struct_t priorverdict_fields
    (λ r, ⟨PriorVerdict_Phase r; PriorVerdict_Inspector r; PriorVerdict_Verdict r;
        PriorVerdict_Score r; PriorVerdict_Actions r⟩)
    (λ '⟨x0; x1; x2; x3; x4⟩, Build_PriorVerdict x0 x1 x2 x3 x4) _ _);
    [by intros []|records].
Defined.

Definition stream_fields :=
  field "protocol" false string_t $
  field "direction" false string_t $
  field "opcode" false string_t $
  field "fin" false bool_t $
  field "subprotocol" false string_t $
  no_field.

Definition stream_t : gotype Stream.
Proof.
  refine (struct_t stream_fields
    (λ r, ⟨Stream_Protocol r; Stream_Direction r; Stream_Opcode r; Stream_Fin r;
        Stream_Subprotocol r⟩)
    (λ '⟨x0; x1; x2; x3; x4⟩, Build_Stream x0 x1 x2 x3 x4) _ _);
    [by intros []|records].
Defined.

Definition release_fields :=
  field "token" false string_t $
  field "reason" false string_t $
  no_field.

Definition release_t : gotype Release.
Proof.
  refine (struct_t release_fields
    (λ r, ⟨Release_Token r; Release_Reason r⟩)
    (λ '⟨x0; x1⟩, Build_Release x0 x1) _ _);
    [by intros []|records].
Defined.

Definition resume_fields :=
  field "want" false bool_t $
  field "token" false string_t $
  field "require" false bool_t $
  no_field.

Definition resume_t : gotype Resume.
Proof.
  refine (struct_t resume_fields
    (λ r, ⟨Resume_Want r; Resume_Token r; Resume_Require r⟩)
    (λ '⟨x0; x1; x2⟩, Build_Resume x0 x1 x2) _ _);
    [by intros []|records].
Defined.

Definition request_fields :=
  field "v" false int_t $
  field "rid" false string_t $
  field "ray" false string_t $
  field "phase" false string_t $
  field "wave" false int_t $
  field "inspector" false string_t $
  field "deadline_ms" false int_t $
  field "audit_subject" false (ptr_t string_t) $
  field "node" false string_t $
  field "conn" false conn_t $
  field "http" false http_t $
  field "vars" false (map_t string_t) $
  field "needs" false (slice_t string_t) $
  field "store" false store_t $
  field "route" false route_t $
  field "score" false scorestate_t $
  field "prior" false (slice_t priorverdict_t) $
  field "response" false (ptr_t response_t) $
  field "request_store" false store_t $
  field "resume" false (ptr_t resume_t) $
  field "release" false (ptr_t release_t) $
  field "conn_id" false string_t $
  field "seq" false uint_t $
  field "stream" false (ptr_t stream_t) $
  no_field.

Definition request_t : gotype Request.
Proof.
  refine (struct_t request_fields
    (λ r, ⟨V r; RID r; Ray r; Phase r; Wave r; Inspector r; DeadlineMS r;
        AuditSubject r; Node r; Request_Conn r; Request_HTTP r; Vars r; Needs r;
        Request_Store r; Request_Route r; Request_Score r; Prior r;
        Request_Response r; RequestStore r; Request_Resume r; Request_Release r;
        ConnID r; Seq r; Request_Stream r⟩)
    (λ '⟨x0; x1; x2; x3; x4; x5; x6; x7; x8; x9; x10; x11; x12; x13; x14; x15; x16;
       x17; x18; x19; x20; x21; x22; x23⟩, Build_Request x0 x1 x2 x3 x4 x5 x6 x7 x8 x9 x10 x11 x12 x13 x14 x15 x16 x17 x18 x19 x20 x21 x22 x23) _ _);
    [by intros []|records].
Defined.

Definition reason_fields :=
  field "code" false string_t $
  field "class" true string_t $
  no_field.

Definition reason_t : gotype Reason.
Proof.
  refine (struct_t reason_fields
    (λ r, ⟨Reason_Code r; Reason_Class r⟩)
    (λ '⟨x0; x1⟩, Build_Reason x0 x1) _ _);
    [by intros []|records].
Defined.

Definition responseref_fields :=
  field "name" false string_t $
  no_field.

Definition responseref_t : gotype ResponseRef.
Proof.
  refine (struct_t responseref_fields
    (λ r, ⟨ResponseRef_Name r⟩)
    (λ '⟨x0⟩, Build_ResponseRef x0) _ _);
    [by intros []|records].
Defined.

Definition redirectref_fields :=
  field "url" false string_t $
  field "status" true int_t $
  no_field.

Definition redirectref_t : gotype RedirectRef.
Proof.
  refine (struct_t redirectref_fields
    (λ r, ⟨RedirectRef_URL r; RedirectRef_Status r⟩)
    (λ '⟨x0; x1⟩, Build_RedirectRef x0 x1) _ _);
    [by intros []|records].
Defined.

Definition headerops_fields :=
  field "set" true (map_t string_t) $
  field "unset" true (slice_t string_t) $
  no_field.

Definition headerops_t : gotype HeaderOps.
Proof.
  refine (struct_t headerops_fields
    (λ r, ⟨HeaderOps_Set r; HeaderOps_Unset r⟩)
    (λ '⟨x0; x1⟩, Build_HeaderOps x0 x1) _ _);
    [by intros []|records].
Defined.

Definition continue_fields :=
  field "subject" false string_t $
  field "ttl_ms" false int_t $
  no_field.

Definition continue_t : gotype Continue.
Proof.
  refine (struct_t continue_fields
    (λ r, ⟨Continue_Subject r; Continue_TTLMS r⟩)
    (λ '⟨x0; x1⟩, Build_Continue x0 x1) _ _);
    [by intros []|records].
Defined.

Definition reply_fields :=
  field "v" false int_t $
  field "rid" false string_t $
  field "inspector" false string_t $
  field "verdict" false string_t $
  field "score" true (ptr_t int_t) $
  field "reason" true (ptr_t reason_t) $
  field "response" true (ptr_t responseref_t) $
  field "redirect" true (ptr_t redirectref_t) $
  field "headers" true (ptr_t headerops_t) $
  field "continue" true (ptr_t continue_t) $
  field "actions" true (slice_t action_t) $
  no_field.

Definition reply_t : gotype Reply.
Proof.
  refine (struct_t reply_fields
    (λ r, ⟨Reply_V r; Reply_RID r; Reply_Inspector r; Reply_Verdict r; Reply_Score r;
        Reply_Reason r; Reply_Response r; Reply_Redirect r; Reply_Headers r;
        Reply_Continue r; Reply_Actions r⟩)
    (λ '⟨x0; x1; x2; x3; x4; x5; x6; x7; x8; x9; x10⟩, Build_Reply x0 x1 x2 x3 x4 x5 x6 x7 x8 x9 x10) _ _);
    [by intros []|records].
Defined.


(** ** internal/desired *)

Definition file_t : gotype Desired.file.
Proof.
  refine (struct_t (field "name" false string_t $ field "text" false string_t $ no_field)
    (λ f, ⟨Desired.file_Name f; Desired.Text f⟩) (λ '⟨n; t⟩, Desired.DFile n t) _ _);
    [by intros []|records].
Defined.

Definition profile_t : gotype Desired.profile.
Proof.
  refine (struct_t (field "files" false (slice_t file_t) $ no_field)
    (λ p, ⟨Desired.Files p⟩) (λ '⟨fs⟩, Desired.DProfile fs) _ _);
    [by intros []|records].
Defined.

(** The level is not a field of the document: [Parse] sets it. *)
Definition settings_t : gotype string.
Proof.
  refine (struct_t (field "log_level" false string_t $ no_field) (λ s, ⟨s⟩) (λ '⟨s⟩, s) _ _);
    [done|records].
Defined.

Definition manifest_fields :=
  field "v" false int_t $
  field "rev" false int_t $
  field "config_hash" false string_t $
  field "profiles" false (map_t profile_t) $
  field "settings" true (ptr_t settings_t) $
  no_field.

Definition manifest_t : gotype (Z * (Z * (string * (gmap string Desired.profile * (option string * unit))))).
Proof. refine (struct_t manifest_fields id id _ _); done. Defined.

Definition UnmarshalManifest `{Unicode} (raw : string) : result Desired.Manifest :=
  '⟨v; rev; hash; profiles; settings⟩ ← Unmarshal manifest_t raw;
  Ok (Desired.MkManifest v rev hash profiles
        ((λ s, Desired.MkSettings s 0) <$> settings)).

(** ** The calls of the code *)

Section calls.
Context `{Unicode}.

Definition UnmarshalRequest : string → result Request := Unmarshal request_t.
Definition UnmarshalReply : string → result Reply := Unmarshal reply_t.
Definition UnmarshalHeaders : string → result (list Header) := Unmarshal (slice_t header_t).
End calls.

(** A request is marshalled by the probe only, whose slices and maps are nil. *)
Definition MarshalRequest (r : Request) : string := Wire.Marshal request_t r.

(** [Marshal] of a reply: the range of the score, then the document. *)
Definition MarshalReply (r : Reply) : result string :=
  r ← Protocol.Marshal r; Ok (Wire.Marshal reply_t r).

Lemma wire_types :
  forallb wire_type [ty_of request_t; ty_of reply_t; ty_of (slice_t header_t); ty_of manifest_t] = true.
Proof. by vm_compute. Qed.

(** A document the inspector or the probe writes is read as what was written. *)
Lemma read_back_request `{Unicode} r :
  sendable request_t r = true → UnmarshalRequest (MarshalRequest r) = Ok r.
Proof. apply unmarshal_marshal. by vm_compute. Qed.

Lemma read_back_reply `{Unicode} r :
  sendable reply_t r = true → UnmarshalReply (Wire.Marshal reply_t r) = Ok r.
Proof. apply unmarshal_marshal. by vm_compute. Qed.

(** The replies of the module have no header operations, which hold a map. Then the
    strings may hold any bytes: what is read has U+FFFD for those that are not
    UTF-8. *)
Lemma reply_mapless r :
  Reply_Headers r = None → sized reply_t r = true → mapless (to_go reply_t r) = true.
Proof.
  destruct r as [v rid insp verdict score reason response redirect headers cont actions]. cbn [Reply_Headers].
  intros -> Hs. unfold reply_t in Hs. rewrite sized_struct in Hs. unfold reply_fields in Hs.
  revert Hs. size. rewrite !andb_true_iff. intros (_ & _ & _ & _ & _ & _ & _ & _ & _ & _ & Ha & _).
  cbn [to_go reply_t struct_t reply_fields field put no_field mapless forallb andb].
  assert (mapless (to_go (slice_t action_t) actions) = true) as Hm.
  { apply sized_mapless; [by vm_compute|]. by rewrite sized_slice. }
  cbn [Reply_V Reply_RID Reply_Inspector Reply_Verdict Reply_Score Reply_Reason Reply_Response
    Reply_Redirect Reply_Headers Reply_Continue Reply_Actions].
  rewrite Hm. destruct score, reason, response, redirect, cont; reflexivity.
Qed.

Lemma read_back_cleaned `{Unicode} r :
  Reply_Headers r = None → sized reply_t r = true →
  UnmarshalReply (Wire.Marshal reply_t r) = Ok (cleaned reply_t r).
Proof.
  intros Hh Hs. apply unmarshal_marshal_cleaned; [by vm_compute|by apply reply_mapless|done].
Qed.

(** What was read can be sent: integers have their width, strings are UTF-8. *)
Lemma request_sendable `{Unicode} payload r :
  UnmarshalRequest payload = Ok r → sendable request_t r = true.
Proof. apply unmarshal_sendable. by vm_compute. Qed.

(** What a request's document has, by name, of what is looked at when it comes. *)
Definition request_document (r : Request) (doc : value) : Prop :=
  member ["v"] doc = Some (VNumber (Itoa (V r))) ∧
  member ["rid"] doc = Some (VString (RID r)) ∧
  member ["inspector"] doc = Some (VString (Inspector r)) ∧
  member ["phase"] doc = Some (VString (Phase r)) ∧
  member ["http"; "method"] doc = Some (VString (HTTP_Method (Request_HTTP r))) ∧
  member ["http"; "uri"] doc = Some (VString (HTTP_URI (Request_HTTP r))) ∧
  member ["release"; "token"] doc = VString ∘ Release_Token <$> Request_Release r ∧
  member ["store"; "body"; "driver"] doc = VString ∘ Locator_Driver <$> Store_Body (Request_Store r) ∧
  member ["store"; "body"; "key"] doc = VString ∘ Locator_Key <$> Store_Body (Request_Store r) ∧
  member ["store"; "body"; "unavailable"] doc =
    VString ∘ Locator_Unavailable <$> Store_Body (Request_Store r).

Lemma request_written r :
  sendable request_t r = true →
  ∃ doc, parse_document (MarshalRequest r) = Some doc ∧ request_document r doc.
Proof.
  intros Hs. exists (encode (to_go request_t r) (ty_of request_t)). split.
  - apply document_marshal; [by vm_compute|done].
  - unfold request_document. destruct r as [? ? ? ? ? ? ? ? ? ? http ? ? [? ? body] ? ? ? ? ? ? rel ? ? ?].
    cbn [Request_Release Request_Store Store_Body]. destruct rel as [[]|], body as [[]|]; split_and!; reflexivity.
Qed.

(** C25. What comes of a message. A document that decodes to a request is taken when
    the request is well formed, and is handed over unchanged; otherwise it is refused
    under the request's id with the first thing that is missing, in this order: the
    id, the version, the inspector, the phase, the token of a release, the method and
    uri; and one that does not decode is refused under the id found in its text. The
    members looked at have the names of the protocol: a request that is written has
    them there, and is taken again exactly when it is well formed. *)
Theorem Parse_spec `{Unicode} payload :
  match UnmarshalRequest payload with
  | Err e => Parse UnmarshalRequest payload = reject (sniffRID payload) (Wrapf "invalid json: %w" e)
  | Ok r =>
      (request_wf r → Parse UnmarshalRequest payload = inl r) ∧
      (¬ request_wf r → ∃ e, Parse UnmarshalRequest payload = reject (RID r) e ∧
        (RID r = "" → e = Errorf "field rid is missing or empty") ∧
        (RID r ≠ "" → V r = 0 → e = Errorf "field v is missing") ∧
        (RID r ≠ "" → V r ≠ 0 → Inspector r = "" →
           e = Errorf "field inspector is missing or empty") ∧
        (RID r ≠ "" → V r ≠ 0 → Inspector r ≠ "" → Phase r ∉ [PhaseRequest; PhaseResponse; PhaseFrame] →
           e = Errorf "field phase is invalid: %q") ∧
        (RID r ≠ "" → V r ≠ 0 → Inspector r ≠ "" → Phase r ∈ [PhaseRequest; PhaseResponse; PhaseFrame] →
           (∀ rel, Request_Release r = Some rel → e = Errorf "section release has no token") ∧
           (Request_Release r = None →
            HTTP_Method (Request_HTTP r) = "" ∨ HTTP_URI (Request_HTTP r) = "" →
            e = Errorf "section http has no method or uri"))) ∧
      ∃ doc, parse_document (MarshalRequest r) = Some doc ∧ request_document r doc ∧
        (Parse UnmarshalRequest (MarshalRequest r) = inl r ↔ request_wf r)
  end.
Proof.
  destruct (UnmarshalRequest payload) as [r|e] eqn:Eu.
  2:{ unfold Parse. by rewrite Eu. }
  pose proof (request_sendable _ _ Eu) as Hs. pose proof (Parse_request UnmarshalRequest payload r) as Hp.
  split; [tauto|]. split.
  - intros Hwf. assert (Parse UnmarshalRequest payload ≠ inl r) as Hne by tauto. clear Hp Hs Hwf. revert Hne.
    assert (Phase r ∈ [PhaseRequest; PhaseResponse; PhaseFrame] ↔
      Phase r = PhaseRequest ∨ Phase r = PhaseResponse ∨ Phase r = PhaseFrame) as Hph
      by (rewrite !elem_of_cons, elem_of_nil; tauto).
    setoid_rewrite Hph. setoid_rewrite <- phase_check_false. clear Hph. unfold Parse, reject. rewrite Eu.
    destruct (is_empty (RID r)) eqn:E1; guards.
    { rewrite E1. eexists. split; [done|]. split_and!; intros; done. }
    destruct (V r =? 0) eqn:E2; guards.
    { eexists. split; [done|]. split_and!; intros; done. }
    destruct (is_empty (Inspector r)) eqn:E3; guards.
    { eexists. split; [done|]. split_and!; intros; done. }
    destruct (negb (Phase r =s? PhaseRequest) && _ && _) eqn:E4.
    { eexists. split; [done|]. split_and!; intros; done. }
    destruct (Request_Release r) as [rel|].
    { destruct (is_empty (Release_Token rel)); [|done]. eexists. split; [done|].
      split_and!; intros; try done; split; intros; done. }
    destruct (is_empty (HTTP_Method _) || _) eqn:E5.
    { eexists. split; [done|]. split_and!; intros; try done; split; intros; done. }
    apply orb_false_iff in E5 as [E5 E6]. apply is_empty_false in E5, E6.
    destruct (for_each _ _ _) as [[]|e]; [done|]. eexists. split; [done|].
    split_and!; intros; try done. split; [done|]. by intros _ [?|?].
  - destruct (request_written r Hs) as (doc & Hd & Hdoc). exists doc. split; [done|]. split; [done|].
    rewrite Parse_request, (read_back_request r Hs). tauto.
Qed.

(** What a reply's document has, by name. *)
Definition reply_document (r : Reply) (doc : value) : Prop :=
  member ["v"] doc = Some (VNumber (Itoa (Reply_V r))) ∧
  member ["rid"] doc = Some (VString (Reply_RID r)) ∧
  member ["inspector"] doc = Some (VString (Reply_Inspector r)) ∧
  member ["verdict"] doc = Some (VString (Reply_Verdict r)) ∧
  member ["score"] doc = VNumber ∘ Itoa <$> Reply_Score r ∧
  member ["reason"; "code"] doc = VString ∘ Reason_Code <$> Reply_Reason r ∧
  member ["response"; "name"] doc = VString ∘ ResponseRef_Name <$> Reply_Response r ∧
  (is_some (member ["actions"] doc) = negb (is_nil (Reply_Actions r))).

Lemma reply_written r :
  sendable reply_t r = true →
  ∃ doc, parse_document (Wire.Marshal reply_t r) = Some doc ∧ reply_document r doc.
Proof.
  intros Hs. exists (encode (to_go reply_t r) (ty_of reply_t)). split.
  - apply document_marshal; [by vm_compute|done].
  - unfold reply_document. destruct r as [? ? ? ? score reason resp redir hs cont acts].
    cbn [Reply_Score Reply_Reason Reply_Response Reply_Actions].
    destruct score, reason as [[? []]|], resp as [[]|], redir, hs, cont, acts; split_and!; reflexivity.
Qed.


(** ** Witnesses *)

#[local] Existing Instance ascii_tables.

(** A text with the apostrophe for the quotation mark. *)
Definition quoted (s : string) : string :=
  of_bytes ((λ c, if Ascii.eqb c "'" then Json.quote else c) <$> bytes s).

(** Members in another case, repeated, unknown and escaped. *)
Definition sample_document : string := quoted
  "{'v':1,'V':2,'rid':'a\u0031','phase':'request','inspector':'json','unknown':[1,{}],
    'http':{'method':'GET','uri':'/'},'needs':['a','b'],'needs':['body'],'needs':[null,null],
    'conn':null,'seq':18446744073709551615,'vars':{'k':'1','k':'2'},'audit_subject':'s'}".

(** The array of a repeated slice is used again: an element that is null is what was
    there before. *)
Example sample_document_read :
  match UnmarshalRequest sample_document with
  | Ok r => (V r, RID r, Needs r, Vars r !! "k", Seq r, AuditSubject r) =
      (2, "a1", ["body"; "b"], Some "2", 2 ^ 64 - 1, Some "s")
  | Err _ => False
  end.
Proof. vm_compute. reflexivity. Qed.

(** Numbers out of range, of another form or of another type are refused. *)
Example sample_document_refused :
  forallb (λ s, negb (is_ok (UnmarshalRequest (quoted s))))
    ["{'v':9223372036854775808}"; "{'v':1.0}"; "{'seq':-1}"; "{'rid':1}"; "{'conn':[]}"; "{} {}"] = true.
Proof. vm_compute. reflexivity. Qed.

(** A denial with an ask. *)
Definition sample_reply : Reply :=
  set_actions
    [{| Action_To := "waf"; Action_Do := DoNote; Action_Apply := ApplyIP; Action_Phase := "";
        Action_Code := "A<B"; Action_Delta := -5; Action_Value := 0; Action_Counter := "";
        Action_Marker := ""; Action_Group := ""; Action_Set := ""; Action_TTL := Some 0;
        Action_When := ["deny"]; Action_Headers := None; Action_Args := None;
        Action_Body := Some {| ObjectSpec_Set := "on"; ObjectSpec_Limit := 0; ObjectSpec_Source := "" |} |}]
    (set_response (Some {| ResponseRef_Name := "json_invalid" |}) (FallbackReply "a1" "json" "X")).

(** The document itself: what is empty is left out, [<] is escaped. *)
Example sample_reply_written :
  MarshalReply sample_reply = Ok (quoted (String.concat ""
    ["{'v':2,'rid':'a1','inspector':'json','verdict':'error','reason':{'code':'X'},";
     "'response':{'name':'json_invalid'},'actions':[{'to':'waf','do':'note','apply':'ip',";
     "'code':'A\u003cB','delta':-5,'ttl':0,'when':['deny'],'body':{'set':'on'}}]}"])).
Proof. vm_compute. reflexivity. Qed.

