(* ===== verification/Config.v ===== *)
(** * internal/config/config.go, internal/config/logship.go: the settings of the process

    [Load] puts the environment over the file over the defaults, and checks the
    result. [filepath.Abs], [url.Parse] and the shared level parser are parameters,
    as is the number of processors. *)
From S2P Require Import Prelude GoString ConfFile.
From S2P Require GoTime.

Definition Millisecond : Z := 1000000.
Definition Second : Z := 1000 * Millisecond.
Definition RedisTimeout : Z := 20 * Millisecond.

Definition splitList (s : string) : list string :=
  filter (λ p, is_empty p = false) (TrimSpace <$> Split s ",").

(** [os.LookupEnv], and the empty value taken for an absent one. *)
Definition lookup_set (m : machine) (name : string) : option string :=
  match LookupEnv m name with
  | Some v => if is_empty v then None else Some v
  | None => None
  end.

Definition env (m : machine) (name def : string) : string := default def (lookup_set m name).

Definition envIntIfSet (m : machine) (name : string) (def : Z) : result Z :=
  match lookup_set m name with
  | None => Ok def
  | Some raw => match Atoi (TrimSpace raw) with Some v => Ok v | None => errorf "%s: %w" end
  end.

Definition envInt := envIntIfSet.

Fixpoint atoi_all (parts : list string) : result (list Z) :=
  match parts with
  | [] => Ok []
  | part :: parts =>
      match Atoi part with
      | None => errorf "%s: %w"
      | Some v => out ← atoi_all parts; Ok (v :: out)
      end
  end.

Definition envIntList (m : machine) (name : string) (def : list Z) : result (list Z) :=
  match lookup_set m name with
  | None => Ok def
  | Some raw => atoi_all (splitList raw)
  end.

Section config.
Context `{Unicode} {L : Type}.
Context (url_parse : string → result (string * string)).
Context (Abs : string → result string).
Context (parse_level : string → result L) (procs : Z).

Definition envDuration (m : machine) (name : string) (def : Z) : result Z :=
  match lookup_set m name with
  | None => Ok def
  | Some raw =>
      d ← wrapf "%s: %w" (GoTime.ParseDuration (TrimSpace raw));
      if d <=? 0 then errorf "%s must be positive" else Ok d
  end.

Definition envDurationOrZero (m : machine) (name : string) (def : Z) : result Z :=
  match lookup_set m name with
  | None => Ok def
  | Some raw =>
      d ← wrapf "%s: %w" (GoTime.ParseDuration (TrimSpace raw));
      if d <? 0 then errorf "%s must not be negative" else Ok d
  end.

Definition parseLevel (s : string) : result L := wrapf "WAF_JSON_LOG: %w" (parse_level s).

Record Config := {
  Servers : list string; Subject : string; Config_Name : string; Queue : string;
  ProfilesDir : string; DataDir : string; ReloadEvery : Z;
  Workers : Z; QueueDepth : Z; QueueFull : string; QueueExpand : string; ConfPath : string;
  ReserveMS : Z; MinBudgetMS : Z; Config_RedisURL : string;
  GeoAddr : string; GeoTimeout : Z; GeoNegMax : Z;
  Versions : list Z; LogLevel : L; HeartbeatEvery : Z
}.

Definition with_dirs (profiles data : string) (c : Config) : Config := {|
  Servers := Servers c; Subject := Subject c; Config_Name := Config_Name c; Queue := Queue c;
  ProfilesDir := profiles; DataDir := data; ReloadEvery := ReloadEvery c;
  Workers := Workers c; QueueDepth := QueueDepth c; QueueFull := QueueFull c;
  QueueExpand := QueueExpand c; ConfPath := ConfPath c; ReserveMS := ReserveMS c;
  MinBudgetMS := MinBudgetMS c; Config_RedisURL := Config_RedisURL c; GeoAddr := GeoAddr c;
  GeoTimeout := GeoTimeout c; GeoNegMax := GeoNegMax c; Versions := Versions c;
  LogLevel := LogLevel c; HeartbeatEvery := HeartbeatEvery c
|}.

(** [validate] completes the directories. *)
Definition validate (c : Config) : result Config :=
  fail_if (is_nil (Servers c)) "NATS_URL is empty";;
  fail_if (is_empty (Subject c) || is_empty (Config_Name c) || is_empty (Queue c))
    "subject, name and queue must not be empty";;
  fail_if (Workers c <? 1) "WAF_JSON_WORKERS must be positive, got %d";;
  fail_if (QueueDepth c <? 1) "queue_max must be positive, got %d";;
  fail_if (negb ((QueueFull c =s? QueueFullDrop) || (QueueFull c =s? QueueFullWait)))
    "queue_full must be drop or wait, got %q";;
  fail_if (negb ((QueueExpand c =s? QueueExpandOff) || (QueueExpand c =s? QueueExpandAsk)))
    "queue_expand must be off or ask, got %q";;
  fail_if ((ReserveMS c <? 0) || (MinBudgetMS c <? 0))
    "WAF_JSON_RESERVE_MS and WAF_JSON_MIN_BUDGET_MS must not be negative";;
  fail_if (is_nil (Versions c)) "WAF_JSON_VERSIONS is empty";;
  abs ← wrapf "WAF_JSON_PROFILES: %w" (Abs (ProfilesDir c));
  data ← wrapf "WAF_JSON_DATA: %w"
    (Abs (if is_empty (DataDir c) then abs +:+ ".applied" else DataDir c));
  Ok (with_dirs abs data c).

Definition default_queue : queueSettings := {|
  Settings_Max := 256; Settings_Full := QueueFullDrop; Settings_Expand := QueueExpandOff |}.

(** The file, when there is one, and what it says of the queue. *)
Definition load_file (m : machine) : result (queueFile * queueSettings) :=
  let path := confPath m "WAF_JSON_CONF" in
  if is_empty path then Ok (no_file, default_queue)
  else
    file ← loadQueueFile url_parse m path;
    noInternalRedis file;;
    Ok (file, applyQueueFile default_queue file).

Definition Load (m : machine) : result Config :=
  let name := env m "WAF_JSON_NAME" "json" in
  workers ← envInt m "WAF_JSON_WORKERS" procs;
  fq ← load_file m;
  let '(file, q) := fq in
  max ← envIntIfSet m "WAF_JSON_QUEUE_DEPTH" (Settings_Max q);
  reserve ← envInt m "WAF_JSON_RESERVE_MS" 2;
  minBudget ← envInt m "WAF_JSON_MIN_BUDGET_MS" 2;
  versions ← envIntList m "WAF_JSON_VERSIONS" [2];
  level ← parseLevel (env m "WAF_JSON_LOG" "info");
  geoTimeout ← envDuration m "WAF_JSON_GEO_TIMEOUT" (500 * Millisecond);
  geoNegMax ← envInt m "WAF_JSON_GEO_NEG_MAX" 0;
  heartbeat ← envDuration m "WAF_HEARTBEAT_EVERY" (4 * Second);
  reload ← envDurationOrZero m "WAF_JSON_RELOAD_EVERY" Second;
  validate {|
    Servers := splitList (env m "NATS_URL" "nats://127.0.0.1:4222");
    Subject := env m "WAF_JSON_SUBJECT" "waf.req.json"; Config_Name := name;
    Queue := env m "WAF_JSON_QUEUE" name;
    ProfilesDir := env m "WAF_JSON_PROFILES" "./profiles"; DataDir := env m "WAF_JSON_DATA" "";
    ReloadEvery := reload; Workers := workers; QueueDepth := max;
    QueueFull := envOverride m "WAF_JSON_QUEUE_FULL" (Settings_Full q);
    QueueExpand := envOverride m "WAF_JSON_QUEUE_EXPAND" (Settings_Expand q);
    ConfPath := confPath m "WAF_JSON_CONF"; ReserveMS := reserve; MinBudgetMS := minBudget;
    Config_RedisURL := exchangeRedis m file; GeoAddr := env m "WAF_JSON_GEO_ADDR" "";
    GeoTimeout := geoTimeout; GeoNegMax := geoNegMax; Versions := versions; LogLevel := level;
    HeartbeatEvery := heartbeat |}.

Fixpoint supports (versions : list Z) (v : Z) : bool :=
  match versions with
  | [] => false
  | known :: versions => if known =? v then true else supports versions v
  end.
Definition Supports (c : Config) (v : Z) : bool := supports (Versions c) v.

(** *** internal/config/logship.go *)

Definition LogShip (m : machine) : bool :=
  negb (has_string ["off"; "0"; "no"; "false"]
          (ToLower (TrimSpace (default "" (LookupEnv m "WAF_LOG_SHIP"))))).

(** [hostname] is [os.Hostname]. *)
Definition LogWriter (m : machine) (hostname : result string) (fallback : string) : string :=
  let v := TrimSpace (default "" (LookupEnv m "WAF_LOG_WRITER")) in
  if negb (is_empty v) then v
  else
    match hostname with
    | Ok name => if is_empty name then fallback else name
    | Err _ => fallback
    end.

(** ** What a loaded configuration satisfies *)

(** The settings the other components count on: the pool gets workers, a depth and
    a mode it knows; the receiver knows a version; the timers have periods. *)
Record config_ok (c : Config) : Prop := {
  co_servers : Servers c ≠ [];
  co_names : Subject c ≠ "" ∧ Config_Name c ≠ "" ∧ Queue c ≠ "";
  co_workers : 1 ≤ Workers c;
  co_depth : 1 ≤ QueueDepth c;
  co_full : QueueFull c = QueueFullDrop ∨ QueueFull c = QueueFullWait;
  co_expand : QueueExpand c = QueueExpandOff ∨ QueueExpand c = QueueExpandAsk;
  co_reserve : 0 ≤ ReserveMS c ∧ 0 ≤ MinBudgetMS c;
  co_versions : Versions c ≠ [];
  co_periods : 0 < HeartbeatEvery c ∧ 0 < GeoTimeout c ∧ 0 ≤ ReloadEvery c
}.

Lemma envDuration_pos m name def d :
  0 < def → envDuration m name def = Ok d → 0 < d.
Proof.
  unfold envDuration. intros Hd. destruct (lookup_set m name); [|by intros [= <-]].
  intros (x & _ & Hx)%bind_ok. destruct (Z.leb_spec x 0); [done|]. by injection Hx as <-.
Qed.

Lemma envDurationOrZero_nonneg m name def d :
  0 ≤ def → envDurationOrZero m name def = Ok d → 0 ≤ d.
Proof.
  unfold envDurationOrZero. intros Hd. destruct (lookup_set m name); [|by intros [= <-]].
  intros (x & _ & Hx)%bind_ok. destruct (Z.ltb_spec x 0); [done|]. by injection Hx as <-.
Qed.

Lemma supports_spec versions v : supports versions v = true ↔ v ∈ versions.
Proof.
  induction versions as [|k versions IH]; cbn.
  - split; [done|by intros ?%not_elem_of_nil].
  - rewrite elem_of_cons. destruct (Z.eqb_spec k v); [naive_solver|]. rewrite IH. naive_solver.
Qed.

(** The value of an integer setting: the variable's, when it is set and not empty,
    else the default. *)
Definition int_setting (m : machine) (name : string) (def v : Z) : Prop :=
  match LookupEnv m name with
  | None => v = def
  | Some raw => raw = "" ∧ v = def ∨ raw ≠ "" ∧ Atoi (TrimSpace raw) = Some v
  end.

Lemma envIntIfSet_ok m name def v : envIntIfSet m name def = Ok v → int_setting m name def v.
Proof.
  unfold envIntIfSet, int_setting, lookup_set. destruct (LookupEnv m name) as [raw|]; [|by intros [= <-]].
  destruct (is_empty raw) eqn:E; guards; [intros [= <-]; by left|].
  destruct (Atoi _) as [z|]; [|done]. intros [= <-]. by right.
Qed.

Lemma loaded_settings m c :
  Load m = Ok c →
  config_ok c ∧ ∃ file, load_file m = Ok (file, applyQueueFile default_queue file) ∧
    int_setting m "WAF_JSON_QUEUE_DEPTH" (default 256 (Max file)) (QueueDepth c) ∧
    int_setting m "WAF_JSON_WORKERS" procs (Workers c) ∧
    QueueFull c = (if env_value m "WAF_JSON_QUEUE_FULL" is Some v then v
                   else if is_empty (Full file) then QueueFullDrop else Full file) ∧
    QueueExpand c = (if env_value m "WAF_JSON_QUEUE_EXPAND" is Some v then v
                     else if is_empty (Expand file) then QueueExpandOff else Expand file) ∧
    Config_RedisURL c = default (RedisURL file) (env_value m "REDIS_URL").
Proof.
  unfold Load. intros (workers & Hw%envIntIfSet_ok & HL)%bind_ok. apply bind_ok in HL as ([file q] & Hf & HL).
  cbn beta iota zeta in HL. apply bind_ok in HL as (max & Hm%envIntIfSet_ok & HL).
  do 4 apply bind_ok in HL as (? & _ & HL).
  apply bind_ok in HL as (geo & Hg & HL). apply bind_ok in HL as (? & _ & HL).
  apply bind_ok in HL as (beat & Hb & HL). apply bind_ok in HL as (reload & Hr & HL).
  apply envDuration_pos in Hg, Hb; [|done..]. apply envDurationOrZero_nonneg in Hr; [|done].
  assert (q = applyQueueFile default_queue file) as Hq.
  { unfold load_file in Hf. destruct (is_empty _); [by injection Hf as <- <-|].
    apply bind_ok in Hf as (f & _ & Hf). apply seq_ok in Hf as [_ Hf]. by injection Hf as <- <-. }
  unfold validate in HL. do 8 (apply seq_ok in HL as [?%fail_if_ok HL]).
  apply bind_ok in HL as (abs & _ & HL). apply bind_ok in HL as (data & _ & HL).
  injection HL as <-. cbn in *. split.
  - guards. split; cbn; try done; try tauto; try lia; by intros E; rewrite E in *.
  - exists file. rewrite <- Hq. split_and!; [done| |done| | |done].
    + by rewrite Hq in Hm.
    + unfold envOverride. rewrite Hq. by destruct (env_value _ _).
    + unfold envOverride. rewrite Hq. by destruct (env_value _ _).
Qed.

Lemma loaded_ok m c : Load m = Ok c → config_ok c.
Proof. intros Hl. apply (loaded_settings m c Hl). Qed.

(** C38. A configuration that loads is sound, and each setting of the queue, its depth,
    what is done when it is full and whether it expands, is the variable's, else the
    file's, else the default; so is the address of the exchange; the number of workers,
    which the file does not have, is the variable's or that of the processors. *)
Theorem Load_ok m c :
  Load m = Ok c →
  config_ok c ∧ ∃ file, load_file m = Ok (file, applyQueueFile default_queue file) ∧
    int_setting m "WAF_JSON_QUEUE_DEPTH" (default 256 (Max file)) (QueueDepth c) ∧
    int_setting m "WAF_JSON_WORKERS" procs (Workers c) ∧
    QueueFull c = (if env_value m "WAF_JSON_QUEUE_FULL" is Some v then v
                   else if is_empty (Full file) then QueueFullDrop else Full file) ∧
    QueueExpand c = (if env_value m "WAF_JSON_QUEUE_EXPAND" is Some v then v
                     else if is_empty (Expand file) then QueueExpandOff else Expand file) ∧
    Config_RedisURL c = default (RedisURL file) (env_value m "REDIS_URL").
Proof. exact (loaded_settings m c). Qed.
End config.

(** A process without variables, and a file that sets the depth. *)
Definition bare_machine : machine := {|
  LookupEnv := λ _, None;
  Stat := λ path, if path =s? "inspector.conf" then Ok false else Err ErrNotExist;
  ReadFile := λ _, Ok "queue_max 512;"
|}.

Definition sample_Load (m : machine) : result (@Config unit) :=
  @Load ascii_tables unit (λ _, Err EOF) Ok (λ _, Ok tt) 4 m.

(** The same, with a variable that sets the depth. *)
Definition deep_machine : machine := {|
  LookupEnv := λ name, if name =s? "WAF_JSON_QUEUE_DEPTH" then Some " 64 " else None;
  Stat := Stat bare_machine; ReadFile := ReadFile bare_machine
|}.

Theorem Load_ok_witness :
  ∃ c c', sample_Load bare_machine = Ok c ∧ config_ok c ∧ QueueDepth c = 512 ∧
    sample_Load deep_machine = Ok c' ∧ QueueDepth c' = 64.
Proof.
  eexists _, _. split; [vm_compute; reflexivity|].
  assert (∀ c, sample_Load bare_machine = Ok c → config_ok c ∧ QueueDepth c = 512) as Hl.
  { intros c E. pose proof (@Load_ok ascii_tables unit (λ _, Err EOF) Ok
      (λ _, Ok tt) 4 bare_machine c E) as (Hok & file & Hf & Hd & _).
    split; [exact Hok|]. vm_compute in Hf. injection Hf as <- _. exact Hd. }
  assert (∀ c, sample_Load deep_machine = Ok c → QueueDepth c = 64) as Hd.
  { intros c E. pose proof (@Load_ok ascii_tables unit (λ _, Err EOF) Ok
      (λ _, Ok tt) 4 deep_machine c E) as (_ & file & _ & [[Hd _]|[_ Hd]] & _); [discriminate Hd|].
    vm_compute in Hd. by injection Hd. }
  pose proof (Hl _ ltac:(vm_compute; reflexivity)) as [H1 H2].
  split; [exact H1|]. split; [exact H2|]. split; [vm_compute; reflexivity|].
  apply Hd. vm_compute. reflexivity.
Defined.
