(* ===== verification/AuditLog.v ===== *)
(** * internal/audit: events and the sink that batches them

    [Build] makes the event of a reply. The [Sink] keeps the events not sent yet;
    its loop takes them in batches and publishes each batch grouped by subject,
    while handlers go on adding. The values of [engine] are of the callers'
    choosing, so their type is a parameter, as [map[string]any] is in Go. *)
From stdpp Require Import sorting.
From S2P Require Import Prelude GoString GoFloat Json JsonWrite Protocol.

Definition SeverityInfo := "info".
Definition SeverityLow := "low".
Definition SeverityMedium := "medium".
Definition SeverityHigh := "high".
Definition SeverityCritical := "critical".

Definition TargetURI := "uri".
Definition TargetArgs := "args".
Definition TargetBody := "body".
Definition TargetConn := "conn".

Definition Kind := "inspector".
Definition KindBatch := "batch".
Definition Audit_Version : Z := 1.

Record Finding := {
  Finding_Code : string; Severity : string; Target : string;
  Offset : option Z; Length : option Z; Finding_Rule : string;
  Confidence : option float64; Evidence : string
}.

(** The composite literals of the code leave the three pointers nil. *)
Definition new_finding (code severity target rule evidence : string) : Finding := {|
  Finding_Code := code; Severity := severity; Target := target;
  Offset := None; Length := None; Finding_Rule := rule; Confidence := None; Evidence := evidence
|}.

Record FrameRef := { FrameRef_Direction : string; FrameRef_Seq : Z }.

Section events.
Context {E : Type}.

Record Details := {
  EngineMS : float64; Findings : list Finding; Engine : gmap string E
}.

Record Event := {
  Event_V : Z; Event_Kind : string; TS : string; Event_Ray : string; Event_Node : string;
  Event_Phase : string; Event_Inspector : string; Event_Profile : string;
  Event_Verdict : string; Event_Score : option Z; Event_EngineMS : float64;
  Event_Findings : list Finding; Event_Engine : gmap string E; Event_Frame : option FrameRef
}.

(** [now] is the time of the call in the event's format. *)
Definition Build (now : string) (req : option Request) (reply : option Reply) (det : Details)
    : Event := {|
  Event_V := Audit_Version; Event_Kind := Kind; TS := now;
  Event_Ray := match req with Some r => Ray r | None => "" end;
  Event_Node := match req with Some r => Node r | None => "" end;
  Event_Phase := match req with Some r => Phase r | None => "" end;
  Event_Inspector :=
    let insp := match req with Some r => Inspector r | None => "" end in
    match reply with
    | Some rep => if is_empty insp then Reply_Inspector rep else insp
    | None => insp
    end;
  Event_Profile := match req with Some r => Route_Profile (Request_Route r) | None => "" end;
  Event_Verdict := match reply with Some rep => Reply_Verdict rep | None => "" end;
  Event_Score := match reply with Some rep => Reply_Score rep | None => None end;
  Event_EngineMS := EngineMS det;
  Event_Findings := Findings det;
  Event_Engine := Engine det;
  Event_Frame :=
    match req with
    | Some r =>
        match Request_Stream r with
        | Some st =>
            if is_empty (Stream_Direction st) then None
            else Some {| FrameRef_Direction := Stream_Direction st; FrameRef_Seq := Seq r |}
        | None => None
        end
    | None => None
    end
|}.
End events.
Arguments Details : clear implicits.
Arguments Event : clear implicits.

(** ** The stream of the events *)

Definition Stream := "WAF_AUDIT".
Definition MaxBytes : Z := Z.shiftl 256 20.
Definition MaxAge : Z := 24 * 3600 * 10 ^ 9.

(** The fields of [nats.StreamConfig] that the code sets; storage, retention and
    discard are the library's names of them. *)
Record StreamConfig := {
  Stream_Name : string; Subjects : list string; Storage : string; Retention : string;
  Stream_MaxAge : Z; Stream_MaxBytes : Z; Discard : string; Duplicates : Z
}.

Definition stream_config : StreamConfig := {|
  Stream_Name := Stream; Subjects := ["waf.audit.>"]; Storage := "FileStorage";
  Retention := "LimitsPolicy"; Stream_MaxAge := MaxAge; Stream_MaxBytes := MaxBytes;
  Discard := "DiscardOld"; Duplicates := 2 * 60 * 10 ^ 9
|}.

(** The connection is nil or has a JetStream context, which may fail to be made
    and adds streams. *)
Definition Ensure (nc : option (result (StreamConfig → result unit))) (in_use : error)
    : result unit :=
  match nc with
  | None => Err (Errorf "nats connection is nil")
  | Some (Err e) => Err e
  | Some (Ok add_stream) =>
      match add_stream stream_config with
      | Ok _ => Ok tt
      | Err e => if errors_is e in_use then Ok tt else Err e
      end
  end.

(** The zero [Details]. *)
Definition no_details {E} : Details E := {| EngineMS := of_int 0; Findings := []; Engine := ∅ |}.

(** ** The sink *)

Definition maxItems : nat := 256.
Definition maxSize : Z := Z.shiftl 512 10.
Definition maxPending : nat := Z.to_nat 50000.

Record item := Item { subject : string; item_body : string }.

#[export] Instance item_eq_dec : EqDecision item.
Proof. solve_decision. Defined.

Fixpoint sizeOf (items : list item) : Z :=
  match items with
  | [] => 0
  | it :: items => slen (item_body it) + 2 + sizeOf items
  end.

(** [nc] tells whether the sink has a connection; [wake] whether the channel of
    capacity one holds a token. *)
Record Sink := MkSink {
  nc : bool; pending : list item; sink_size : Z; dropped : Z; wake : bool
}.

Definition NewSink (connected : bool) : Sink := MkSink connected [] 0 0 false.

(** The critical section of [Add], and the kick that follows it. *)
Definition add_item (it : item) (s : Sink) : Sink :=
  let pend := (pending s ++ [it])%list in
  let sz := sink_size s + (slen (item_body it) + 2) in
  let '(pend, sz, drp) :=
    if bool_decide (maxPending < length pend)%nat then
      let cut := (length pend - maxPending)%nat in
      let pend := drop cut pend in
      (pend, sizeOf pend, (dropped s + Z.of_nat cut) mod 2 ^ 64)
    else (pend, sz, dropped s) in
  let full := bool_decide (maxItems ≤ length pend)%nat || (maxSize <=? sz) in
  MkSink (nc s) pend sz drp (full || wake s).

Section sink.
Context {E : Type}.
(** [json.Marshal] of an event. *)
Context (marshal_event : Event E → result string).

Definition Add (now : string) (s : option Sink) (req : option Request) (reply : option Reply)
    (det : Details E) : option Sink * result unit :=
  match s, req, reply with
  | Some sk, Some r, Some _ =>
      if negb (nc sk) then (s, Ok tt)
      else
        match AuditSubject r with
        | None => (s, Ok tt)
        | Some subj =>
            if is_empty subj then (s, Ok tt)
            else
              match marshal_event (Build now req reply det) with
              | Err e => (s, Err e)
              | Ok b => (Some (add_item (Item subj b) sk), Ok tt)
              end
        end
  | _, _, _ => (s, Ok tt)
  end.

(** What [Add] appends, when it gets that far. *)
Definition added_item (now : string) (s : option Sink) (req : option Request)
    (reply : option Reply) (det : Details E) : option item :=
  match s, req, reply with
  | Some sk, Some r, Some _ =>
      match nc sk, AuditSubject r, marshal_event (Build now req reply det) with
      | true, Some subj, Ok b => if is_empty subj then None else Some (Item subj b)
      | _, _, _ => None
      end
  | _, _, _ => None
  end.

Lemma Add_added now s req reply det :
  (Add now s req reply det).1 =
    match added_item now s req reply det with Some it => add_item it <$> s | None => s end.
Proof.
  unfold Add, added_item. destruct s as [sk|]; [|done]. destruct req as [r|]; [|done].
  destruct reply; [|done]. destruct (nc sk); cbn; [|done]. destruct (AuditSubject r) as [subj|]; [|done].
  destruct (is_empty subj); [by destruct (marshal_event _)|]. by destruct (marshal_event _).
Qed.

(** The critical section of [flush]: the next batch, and what stays. *)
Definition take_batch (s : Sink) : option (list item * Sink) :=
  if bool_decide (length (pending s) = 0)%nat then None
  else
    let n := length (pending s) in
    let n := if bool_decide (maxItems < n)%nat then maxItems else n in
    let rest := drop n (pending s) in
    Some (take n (pending s), MkSink (nc s) rest (sizeOf rest) (dropped s) (wake s)).

(** The loop over the items: the order of subjects and their groups. *)
Fixpoint group_loop (items : list item) (order : list string)
    (bySubject : gmap string (list item)) : list string * gmap string (list item) :=
  match items with
  | [] => (order, bySubject)
  | it :: items =>
      let order :=
        match bySubject !! subject it with
        | Some _ => order
        | None => (order ++ [subject it])%list
        end in
      group_loop items order
        (<[subject it := (default [] (bySubject !! subject it) ++ [it])%list]> bySubject)
  end.

Definition groupBySubject (items : list item) : list string * gmap string (list item) :=
  group_loop items [] ∅.

(** The loop's receive from the channel [wake]. *)
Definition take_token (s : Sink) : Sink :=
  MkSink (nc s) (pending s) (sink_size s) (dropped s) false.

(** The calls of [send] that [publish] makes: a subject and its items. *)
Definition publish (items : list item) : list (string * list item) :=
  match items with
  | [it] => [(subject it, [it])]
  | _ =>
      let '(order, bySubject) := groupBySubject items in
      (λ s, (s, default [] (bySubject !! s))) <$> order
  end.

(** The texts of the raw messages, or the first error. *)
Fixpoint raw_messages (bodies : list string) : result (list (list ascii)) :=
  match bodies with
  | [] => Ok []
  | b :: bodies =>
      match raw_message b with
      | Err e => Err e
      | Ok t => match raw_messages bodies with Err e => Err e | Ok ts => Ok (t :: ts) end
      end
  end.

(** A member of an object whose value is written already. *)
Definition member_text (key : string) (text : list ascii) : list ascii :=
  (write_string key ++ ":"%char :: text)%list.

(** [json.Marshal] of the batch's envelope. *)
Definition marshal_envelope (v : Z) (kind : string) (bodies : list string) : result string :=
  match raw_messages bodies with
  | Err e => Err e
  | Ok texts => Ok (of_bytes ("{"%char :: commas [
      member_text "v" (print (VNumber (Itoa v)));
      member_text "kind" (print (VString kind));
      member_text "items" ("["%char :: commas texts ++ ["]"%char])] ++ ["}"%char]))
  end%list.

Definition pack (items : list item) : result string :=
  marshal_envelope Audit_Version KindBatch (item_body <$> items).

(** What one [send] puts on the bus, when the envelope marshals. *)
Definition send (c : string * list item) : list (string * string) :=
  match pack c.2 with
  | Ok b => [(c.1, b)]
  | Err _ => []
  end.

(** [flush] with nobody adding meanwhile: the batches it publishes, in order,
    and the sink it leaves. Every batch takes at least one item, so the items
    pending are fuel enough. *)
Fixpoint flush_loop (fuel : nat) (s : Sink) : list (list item) * Sink :=
  match fuel with
  | O => ([], s)
  | S fuel =>
      match take_batch s with
      | None => ([], s)
      | Some (batch, s) =>
          let '(more, s) := flush_loop fuel s in (batch :: more, s)
      end
  end.
Definition flush (s : Sink) : list (list item) * Sink :=
  flush_loop (S (length (pending s))) s.
End sink.

(** A start on a server that has the stream already is as good as the first. *)
Lemma Ensure_ok nc in_use :
  Ensure nc in_use = Ok tt ↔
  ∃ add, nc = Some (Ok add) ∧
    (add stream_config = Ok tt ∨ ∃ e, add stream_config = Err e ∧ errors_is e in_use = true).
Proof.
  split.
  - destruct nc as [[add|e]|]; cbn; try done. intros H. exists add. split; [done|].
    destruct (add stream_config) as [[]|e] eqn:E; [by left|]. right. exists e.
    by destruct (errors_is e in_use).
  - intros (add & -> & [H|(e & H & He)]); cbn; rewrite H; [done|]. by rewrite He.
Qed.

(** ** Grouping *)

Definition of_subject (x : string) (items : list item) : list item :=
  filter (λ it, subject it = x) items.
#[global] Arguments of_subject : simpl never.

(** What the loop has built when it has read [seen]. *)
Definition grouped (seen : list item) (order : list string) (m : gmap string (list item)) : Prop :=
  NoDup order ∧ (∀ x, x ∈ order ↔ x ∈ subject <$> seen) ∧
  (∀ x, m !! x = if decide (x ∈ subject <$> seen) then Some (of_subject x seen) else None).

Lemma of_subject_app x l k : of_subject x (l ++ k) = (of_subject x l ++ of_subject x k)%list.
Proof. apply filter_app. Qed.

Lemma of_subject_absent x l : x ∉ subject <$> l → of_subject x l = [].
Proof.
  induction l as [|it l IH]; [done|]. rewrite fmap_cons, not_elem_of_cons. intros [Hne Hl].
  unfold of_subject. rewrite filter_cons_False by done. by apply IH.
Qed.

Lemma of_subject_one x it : of_subject x [it] = if decide (subject it = x) then [it] else [].
Proof. unfold of_subject. rewrite filter_cons, filter_nil. done. Qed.

Lemma grouped_step seen order m it :
  grouped seen order m →
  grouped (seen ++ [it])
    (match m !! subject it with Some _ => order | None => order ++ [subject it] end)%list
    (<[subject it := (default [] (m !! subject it) ++ [it])%list]> m).
Proof.
  intros (Hnd & Hin & Hm). unfold grouped. rewrite fmap_app.
  change (subject <$> [it]) with [subject it].
  assert (default [] (m !! subject it) = of_subject (subject it) seen) as Hdef.
  { rewrite Hm. case_decide; [done|]. by rewrite of_subject_absent. }
  split_and!.
  - rewrite Hm. case_decide as Hs; [done|]. apply NoDup_app. split; [done|].
    split; [|apply NoDup_singleton]. intros x Hx ->%list_elem_of_singleton. by apply Hs, Hin.
  - intros x. rewrite elem_of_app, list_elem_of_singleton, Hm.
    case_decide as Hs; rewrite ?elem_of_app, ?list_elem_of_singleton, <- Hin.
    + split; [by left|]. intros [?| ->]; [done|by apply Hin].
    + done.
  - intros x. rewrite Hdef, of_subject_app, of_subject_one.
    destruct (decide (x = subject it)) as [->|Hne].
    + rewrite lookup_insert_eq, !decide_True by
        (done || (rewrite elem_of_app, list_elem_of_singleton; by right)). done.
    + rewrite lookup_insert_ne by done. rewrite Hm, (decide_False (P := subject it = x)) by done.
      rewrite app_nil_r. apply decide_ext.
      rewrite elem_of_app, list_elem_of_singleton. naive_solver.
Qed.

Lemma group_loop_grouped items : ∀ seen order m,
  grouped seen order m →
  let '(order', m') := group_loop items order m in grouped (seen ++ items) order' m'.
Proof.
  induction items as [|it items IH]; intros seen order m Hg; simpl; [by rewrite app_nil_r|].
  specialize (IH _ _ _ (grouped_step _ _ _ it Hg)). by rewrite <- app_assoc in IH.
Qed.

Lemma groupBySubject_grouped items :
  let '(order, m) := groupBySubject items in grouped items order m.
Proof.
  apply (group_loop_grouped items []). split_and!; [apply NoDup_nil_2| |done].
  intros x. by rewrite fmap_nil.
Qed.

Lemma publish_groups items :
  NoDup (publish items).*1 ∧ (∀ x, x ∈ (publish items).*1 ↔ x ∈ subject <$> items) ∧
  Forall (λ c, c.2 = of_subject c.1 items) (publish items).
Proof.
  assert ((∃ it, items = [it]) ∨ publish items =
    let '(order, m) := groupBySubject items in (λ s, (s, default [] (m !! s))) <$> order)
    as [[it ->]| ->] by (destruct items as [|it [|it' l]]; eauto).
  { cbn. split_and!; [apply NoDup_singleton|done|].
    constructor; [|constructor]. cbn. by rewrite of_subject_one, decide_True. }
  pose proof (groupBySubject_grouped items) as Hg.
  destruct (groupBySubject items) as [order m]. destruct Hg as (Hnd & Hin & Hm).
  rewrite <- list_fmap_compose. unfold compose. cbn. rewrite list_fmap_id.
  split_and!; [done|done|]. apply Forall_fmap, Forall_forall. intros x Hx. cbn.
  rewrite Hm, decide_True by by apply Hin. done.
Qed.

(** Each batch goes out grouped: one message per subject that occurs in it, no
    subject twice, and in each message the batch's items of that subject, all of
    them and in their order. *)
Theorem publish_spec items :
  NoDup (publish items).*1 ∧
  ∀ x batch, (x, batch) ∈ publish items ↔
    x ∈ subject <$> items ∧ batch = filter (λ it, subject it = x) items.
Proof.
  destruct (publish_groups items) as (Hnd & Hin & Hall). split; [done|].
  rewrite Forall_forall in Hall. intros x batch. split.
  - intros Hc. split; [|exact (Hall _ Hc)]. apply Hin, list_elem_of_fmap. by exists (x, batch).
  - intros [Hx ->]. apply Hin, list_elem_of_fmap in Hx as ([x' b] & -> & Hc).
    pose proof (Hall _ Hc) as Hb. cbn in *. by subst b.
Qed.

(** ** The sink under handlers that keep adding *)

(** Everything added so far, and the batches taken so far. *)
Record history := History { added : list item; taken : list (list item) }.

(** A handler's [Add] and the loop's taking of a batch exclude each other by the
    mutex, so the sink moves by these steps in some order; the loop also takes the
    token that wakes it. *)
Inductive sink_step : Sink * history → Sink * history → Prop :=
| step_add s h it :
    sink_step (s, h) (add_item it s, History (added h ++ [it]) (taken h))
| step_take s h batch s' :
    take_batch s = Some (batch, s') →
    sink_step (s, h) (s', History (added h) (taken h ++ [batch]))
| step_wake s h :
    wake s = true → sink_step (s, h) (take_token s, h).

Definition sink_init (c : bool) : Sink * history := (NewSink c, History [] []).

Definition sink_inv (st : Sink * history) : Prop :=
  let '(s, h) := st in
  sink_size s = sizeOf (pending s) ∧
  (length (pending s) ≤ maxPending)%nat ∧
  pending s `suffix_of` added h ∧
  sublist (mjoin (taken h) ++ pending s) (added h) ∧
  dropped s = (len (added h) - len (mjoin (taken h) ++ pending s)%list) mod 2 ^ 64 ∧
  Forall (λ b, 1 ≤ length b ≤ maxItems)%nat (taken h).

Lemma sizeOf_app l k : sizeOf (l ++ k) = sizeOf l + sizeOf k.
Proof. induction l as [|it l IH]; cbn [sizeOf app]; lia. Qed.

Lemma len_app {A} (l k : list A) : len (l ++ k) = len l + len k.
Proof. unfold len. rewrite length_app. lia. Qed.

Lemma take_batch_spec s batch s' :
  take_batch s = Some (batch, s') →
  pending s = (batch ++ pending s')%list ∧ (1 ≤ length batch ≤ maxItems)%nat ∧
  sink_size s' = sizeOf (pending s') ∧ dropped s' = dropped s.
Proof.
  unfold take_batch. case_bool_decide as Hne; [done|]. intros [= <- <-]. cbn.
  split_and!; [by rewrite take_drop| | |done|done].
  - rewrite length_take. unfold maxItems. case_bool_decide; lia.
  - rewrite length_take. case_bool_decide; unfold maxItems in *; lia.
Qed.

Lemma take_batch_none s : take_batch s = None ↔ pending s = [].
Proof.
  unfold take_batch. case_bool_decide as H.
  - split; [|done]. intros _. by apply nil_length_inv.
  - split; [done|]. intros E. by rewrite E in H.
Qed.

Lemma add_item_pending it s :
  pending (add_item it s) =
    drop (length (pending s ++ [it]) - maxPending) (pending s ++ [it])%list.
Proof.
  unfold add_item. case_bool_decide as H; cbn; [done|].
  by replace (_ - maxPending)%nat with 0%nat by lia.
Qed.

Lemma add_item_rest it s :
  sink_size s = sizeOf (pending s) →
  sink_size (add_item it s) = sizeOf (pending (add_item it s)) ∧
  dropped (add_item it s) mod 2 ^ 64 =
    (dropped s + Z.of_nat (length (pending s ++ [it]) - maxPending)) mod 2 ^ 64 ∧
  (dropped s = dropped s mod 2 ^ 64 →
   dropped (add_item it s) = dropped (add_item it s) mod 2 ^ 64).
Proof.
  intros Hsz. unfold add_item. case_bool_decide as H; cbn.
  - rewrite !Zmod_mod. done.
  - rewrite sizeOf_app. cbn. split_and!; [lia| |done].
    f_equal. lia.
Qed.

Lemma sink_inv_add s h it :
  sink_inv (s, h) → sink_inv (add_item it s, History (added h ++ [it]) (taken h)).
Proof.
  intros (Hsz & Hlen & Hsuf & Hsub & Hdr & Hb).
  destruct (add_item_rest it s Hsz) as (Hsz' & Hdr' & Hnorm).
  pose proof (add_item_pending it s) as Hp.
  set (cut := (length (pending s ++ [it]) - maxPending)%nat) in *.
  assert (sublist (pending (add_item it s)) (pending s ++ [it])) as Hps
    by (rewrite Hp; apply sublist_drop).
  unfold sink_inv. cbn [added taken].
  split_and!; [done| | | | |done].
  - rewrite Hp, length_drop. lia.
  - rewrite Hp. destruct Hsuf as [k ->].
    exists (k ++ take cut (pending s ++ [it]))%list. by rewrite <- !app_assoc, take_drop.
  - trans (mjoin (taken h) ++ (pending s ++ [it]))%list; [by apply sublist_app|].
    rewrite app_assoc. by apply sublist_app.
  - rewrite Hnorm by (rewrite Hdr; by rewrite Zmod_mod). rewrite Hdr', Hdr.
    rewrite Zplus_mod_idemp_l. f_equal. rewrite !len_app. rewrite Hp. unfold len.
    rewrite length_drop. assert (cut ≤ length (pending s ++ [it]))%nat by lia.
    rewrite length_app in *. cbn in *. lia.
Qed.

Lemma sink_inv_take s h batch s' :
  take_batch s = Some (batch, s') → sink_inv (s, h) →
  sink_inv (s', History (added h) (taken h ++ [batch])).
Proof.
  intros Ht (Hsz & Hlen & Hsuf & Hsub & Hdr & Hb).
  destruct (take_batch_spec _ _ _ Ht) as (Hp & Hbl & Hsz' & Hd).
  assert ((mjoin (taken h ++ [batch]) ++ pending s')%list = (mjoin (taken h) ++ pending s)%list)
    as Heq by (rewrite Hp, join_app; cbn; by rewrite app_nil_r, app_assoc).
  unfold sink_inv. cbn [added taken]. rewrite Heq, Hd. split_and!; [done| | |done|done|].
  - rewrite Hp, length_app in Hlen. lia.
  - rewrite Hp in Hsuf. destruct Hsuf as [k ->]. exists (k ++ batch)%list. by rewrite app_assoc.
  - apply Forall_app. split; [done|by constructor].
Qed.

Lemma reachable_inv c st :
  rtc sink_step (sink_init c) st → sink_inv st.
Proof.
  intros Hr. remember (sink_init c) as st0 eqn:E.
  assert (sink_inv st0) as H0.
  { subst. cbn. split_and!; [done|unfold maxPending; lia|done|done|done|constructor]. }
  clear E. induction Hr as [st|st1 st2 st3 Hs _ IH]; [done|]. apply IH.
  destruct Hs as [s h it|s h batch s' Ht|s h _];
    [by apply sink_inv_add|by eapply sink_inv_take|done].
Qed.

(** C32. In every interleaving of adding handlers and of the loop: the size the sink
    keeps is the size of what is pending; at most 50000 events are pending, the
    most recent ones added; batches hold between 1 and 256 events; the batches in
    the order taken, then the pending events, are the added ones in their order
    less those counted in [dropped]. *)
Theorem sink_reachable_inv c st :
  rtc sink_step (sink_init c) st → sink_inv st.
Proof. exact (reachable_inv c st). Qed.

(** ** A flush nobody interrupts *)

Lemma flush_loop_spec fuel : ∀ s,
  (length (pending s) < fuel)%nat →
  let '(batches, s') := flush_loop fuel s in
  mjoin batches = pending s ∧ pending s' = [] ∧
  Forall (λ b, 1 ≤ length b ≤ maxItems)%nat batches.
Proof.
  induction fuel as [|fuel IH]; intros s Hf; [lia|]. cbn [flush_loop].
  destruct (take_batch s) as [[batch s1]|] eqn:Ht.
  - destruct (take_batch_spec _ _ _ Ht) as (Hp & Hbl & _).
    specialize (IH s1). destruct (flush_loop fuel s1) as [more s2].
    rewrite Hp, length_app in Hf. destruct IH as (Hj & Hnil & Hall); [lia|].
    change (mjoin (batch :: more)) with (batch ++ mjoin more)%list.
    rewrite Hj. split_and!; [done|done|by constructor].
  - apply take_batch_none in Ht. by rewrite Ht.
Qed.

(** The items of a subject that a list of batches puts on the bus, in order. *)
Definition delivered (x : string) (batches : list (list item)) : list item :=
  mjoin (snd <$> filter (λ c, c.1 = x) (batches ≫= publish)).

Lemma groups_of x cs :
  NoDup cs.*1 → mjoin (snd <$> filter (λ c : string * list item, c.1 = x) cs) =
  match list_to_map (M := gmap string (list item)) cs !! x with Some b => b | None => [] end.
Proof.
  induction cs as [|[y b] cs IH]; [done|]. cbn [fmap list_fmap fst].
  intros [Hy Hnd]%NoDup_cons. rewrite filter_cons. cbn.
  destruct (decide (y = x)) as [->|Hne].
  - rewrite lookup_insert_eq.
    change (b ++ mjoin (filter (λ c : string * list item, c.1 = x) cs).*2 = b)%list.
    rewrite IH by done. rewrite not_elem_of_list_to_map_1 by done. by rewrite app_nil_r.
  - rewrite lookup_insert_ne by done. by apply IH.
Qed.

Lemma of_subject_sublist x l k : sublist l k → sublist (of_subject x l) (of_subject x k).
Proof.
  unfold of_subject. induction 1 as [|it l k _ IH|it l k _ IH]; [done| |];
    rewrite ?filter_cons; case_decide; by try constructor.
Qed.

Lemma delivered_batch x b : delivered x [b] = of_subject x b.
Proof.
  unfold delivered. cbn. rewrite app_nil_r.
  destruct (publish_groups b) as (Hnd & Hin & Hall). rewrite groups_of by done.
  destruct (list_to_map _ !! x) as [g|] eqn:E.
  - apply elem_of_list_to_map_2 in E. rewrite Forall_forall in Hall. exact (Hall _ E).
  - apply not_elem_of_list_to_map_2 in E. symmetry. apply of_subject_absent. by rewrite <- Hin.
Qed.

Lemma delivered_app x l k : delivered x (l ++ k) = (delivered x l ++ delivered x k)%list.
Proof. unfold delivered. by rewrite bind_app, filter_app, fmap_app, join_app. Qed.

Lemma delivered_join x batches : delivered x batches = of_subject x (mjoin batches).
Proof.
  induction batches as [|b batches IH]; [done|].
  change (b :: batches) with ([b] ++ batches)%list at 1.
  rewrite delivered_app, delivered_batch, IH. cbn. by rewrite of_subject_app.
Qed.

(** A flush ends, leaves nothing pending, and delivers on every subject exactly
    the pending items of that subject, in their order, in batches of 1 to 256. *)
Theorem flush_delivers s :
  let '(batches, s') := flush s in
  pending s' = [] ∧ Forall (λ b, 1 ≤ length b ≤ maxItems)%nat batches ∧
  ∀ x, delivered x batches = filter (λ it, subject it = x) (pending s).
Proof.
  unfold flush. pose proof (flush_loop_spec (S (length (pending s))) s ltac:(lia)) as H.
  destruct (flush_loop _ s) as [batches s']. destruct H as (Hj & Hnil & Hall).
  split_and!; [done|done|]. intros x. by rewrite delivered_join, Hj.
Qed.

(** ** The batches on the bus *)

(** A body that [json.Marshal] wrote, and that fits into an envelope. *)
Definition wrote (v : value) (it : item) : Prop :=
  item_body it = of_bytes (print v) ∧ writable v = true ∧ depth v ≤ max_nesting_depth - 2.

(** The envelope of a batch as a reader decodes it. *)
Definition batch_document (vs : list value) : value := VObject [
  ("v", VNumber (Itoa Audit_Version)); ("kind", VString KindBatch); ("items", VArray vs)].

(** The values a message of the bus carries. *)
Definition message_items (body : string) : list value :=
  match parse_document body with
  | Some (VObject [_; _; (_, VArray vs)]) => vs
  | _ => []
  end.

(** What a subscriber of a subject reads out of the messages of some batches. *)
Definition read_on (x : string) (calls : list (string * list item)) : list value :=
  mjoin ((message_items ∘ snd) <$> filter (λ m, m.1 = x) (mjoin (send <$> calls))).

Definition document (it : item) : option value := parse_document (item_body it).
Definition written (it : item) : Prop := ∃ v, wrote v it.

Lemma raw_messages_wrote items vs :
  Forall2 wrote vs items → raw_messages (item_body <$> items) = Ok (print <$> vs).
Proof.
  induction 1 as [|v it vs items (Eb & Hw & Hd) _ IH]; [done|].
  rewrite fmap_cons. cbn [raw_messages]. rewrite Eb, raw_message_print by (done || lia).
  by rewrite IH.
Qed.

Lemma items_depth vs :
  Forall (λ v, depth v ≤ max_nesting_depth - 2) vs → depth (batch_document vs) ≤ max_nesting_depth.
Proof.
  intros H. cbn. assert (foldr (λ v n, Z.max (depth v) n) 0 vs ≤ max_nesting_depth - 2).
  { induction H; cbn; unfold max_nesting_depth in *; lia. }
  unfold max_nesting_depth in *. lia.
Qed.

Lemma written_all vs items :
  Forall2 wrote vs items →
  (∀ v, v ∈ vs → writable v = true) ∧ Forall (λ v, depth v ≤ max_nesting_depth - 2) vs.
Proof.
  induction 1 as [|v it vs items (_ & Hw & Hd) _ [IH1 IH2]].
  - split; [|constructor]. by intros v Hv%not_elem_of_nil.
  - split; [|by constructor]. intros u [->|Hu]%elem_of_cons; [done|by apply IH1].
Qed.

Lemma values_of items : Forall written items → ∃ vs, Forall2 wrote vs items.
Proof.
  induction 1 as [|it items [v Hv] _ [vs IH]]; [by exists []|]. exists (v :: vs). by constructor.
Qed.

Lemma documents_wrote items vs :
  Forall2 wrote vs items → document <$> items = Some <$> (clean <$> vs).
Proof.
  induction 1 as [|v it vs items (Eb & Hw & Hd) _ IH]; [done|]. rewrite !fmap_cons, IH.
  unfold document. rewrite Eb, parse_print by (done || lia). done.
Qed.

(** A batch of documents is read back as its envelope with these documents. *)
Lemma pack_reads items vs :
  Forall2 wrote vs items →
  ∃ b, pack items = Ok b ∧ parse_document b = Some (batch_document (clean <$> vs)).
Proof.
  intros H. eexists. unfold pack, marshal_envelope. rewrite (raw_messages_wrote _ _ H).
  split; [done|]. change (parse_document (of_bytes (print (batch_document vs))) =
    Some (batch_document (clean <$> vs))).
  rewrite parse_print; [done|..].
  - change (true && (true && (forallb writable vs && true)) = true).
    rewrite andb_true_r. cbn [andb]. apply forallb_forall. intros v Hv%list_elem_of_In.
    by apply (written_all _ _ H).
  - by apply items_depth, (written_all _ _ H).
Qed.

(** The calls of [send] for a subject together carry the items of these calls. *)
Lemma calls_read x calls :
  Forall (λ c, Forall written c.2) calls →
  Some <$> read_on x calls = document <$> mjoin (snd <$> filter (λ c, c.1 = x) calls).
Proof.
  induction 1 as [|[y items] calls Hc _ IH]; [done|].
  assert (Some <$> read_on x [(y, items)] =
    document <$> mjoin (snd <$> filter (λ c, c.1 = x) [(y, items)])) as E1.
  { destruct (values_of items Hc) as [vs Hvs]. destruct (pack_reads items vs Hvs) as (b & Hb & Hr).
    unfold read_on. cbn [fmap list_fmap mjoin list_join]. unfold send. cbn [fst snd]. rewrite Hb.
    cbn [app]. rewrite !filter_cons, !filter_nil. cbn [fst]. case_decide; [|done].
    cbn. unfold message_items. rewrite !app_nil_r, Hr. by rewrite (documents_wrote _ _ Hvs). }
  change ((y, items) :: calls) with ([(y, items)] ++ calls)%list.
  rewrite filter_app, fmap_app, join_app, fmap_app, <- E1, <- IH, <- fmap_app. f_equal.
  unfold read_on. by rewrite fmap_app, join_app, filter_app, fmap_app, join_app.
Qed.

Lemma publish_written items :
  Forall written items → Forall (λ c, Forall written c.2) (publish items).
Proof.
  intros H. destruct (publish_groups items) as (_ & _ & Hall).
  eapply Forall_impl; [exact Hall|]. intros c ->.
  rewrite Forall_forall in H |- *. intros it [_ Hit]%list_elem_of_filter. by apply H.
Qed.

Lemma batches_written batches :
  Forall written (mjoin batches) → Forall (λ c, Forall written c.2) (batches ≫= publish).
Proof.
  induction batches as [|b batches IH]; [constructor|]. cbn [mjoin list_join].
  rewrite Forall_app. intros [Hb Hr]. cbn [mbind list_bind]. apply Forall_app. split.
  - by apply publish_written.
  - by apply IH.
Qed.

(** C39. A flush ends and leaves nothing pending. When the bodies are texts that
    [json.Marshal] wrote, every message it publishes is read back as a batch, and
    what a subject's messages carry is, value for value and in order, what the
    pending items of that subject hold. *)
Theorem flush_read s :
  Forall written (pending s) →
  let '(batches, s') := flush s in
  pending s' = [] ∧ Forall (λ b, 1 ≤ length b ≤ maxItems)%nat batches ∧
  ∀ x, Some <$> read_on x (batches ≫= publish) =
       document <$> filter (λ it, subject it = x) (pending s).
Proof.
  intros Hw. unfold flush.
  pose proof (flush_loop_spec (S (length (pending s))) s ltac:(lia)) as H.
  destruct (flush_loop _ s) as [batches s']. destruct H as (Hj & Hnil & Hall).
  split_and!; [done|done|]. intros x. rewrite <- Hj in Hw |- *.
  rewrite calls_read by by apply batches_written.
  f_equal. exact (delivered_join x batches).
Qed.

(** Under interleaving, what each subject receives is in the order of adding. *)
Theorem sink_subject_order c s h x :
  rtc sink_step (sink_init c) (s, h) →
  sublist (delivered x (taken h)) (filter (λ it, subject it = x) (added h)).
Proof.
  intros Hr. apply reachable_inv in Hr as (_ & _ & _ & Hsub & _).
  rewrite delivered_join. apply of_subject_sublist. etrans; [|exact Hsub]. by apply sublist_inserts_r.
Qed.

(** ** Witnesses *)

Definition sample_item : item := Item "waf.audit.a" "{}".

(** Two events of different subjects are added and taken in one batch. *)
Lemma sample_sink_run :
  ∃ s, rtc sink_step (sink_init true)
         (s, History [sample_item; Item "waf.audit.b" "[]"] [[sample_item; Item "waf.audit.b" "[]"]])
       ∧ pending s = [] ∧ sink_size s = 0.
Proof.
  eexists. split.
  - eapply rtc_l; [apply (step_add _ _ sample_item)|].
    eapply rtc_l; [apply (step_add _ _ (Item "waf.audit.b" "[]"))|].
    eapply rtc_l; [|apply rtc_refl].
    exact (step_take (add_item (Item "waf.audit.b" "[]") (add_item sample_item (NewSink true)))
      (History [sample_item; Item "waf.audit.b" "[]"] []) _ _ eq_refl).
  - split; reflexivity.
Qed.

Theorem sink_reachable_inv_witness :
  ∃ s, sink_inv
    (s, History [sample_item; Item "waf.audit.b" "[]"] [[sample_item; Item "waf.audit.b" "[]"]]).
Proof.
  destruct sample_sink_run as (s & Hr & _). exists s.
  apply (sink_reachable_inv true). exact Hr.
Defined.

Theorem sink_subject_order_witness :
  ∃ s, rtc sink_step (sink_init true)
         (s, History [sample_item; Item "waf.audit.b" "[]"] [[sample_item; Item "waf.audit.b" "[]"]])
       ∧ sublist (delivered "waf.audit.a" [[sample_item; Item "waf.audit.b" "[]"]]) [sample_item].
Proof.
  destruct sample_sink_run as (s & Hr & _). exists s. split; [exact Hr|].
  exact (sink_subject_order true s _ "waf.audit.a" Hr).
Defined.

Definition sample_sink : Sink :=
  add_item (Item "waf.audit.a" "[1]") (add_item (Item "waf.audit.b" "[]")
    (add_item (Item "waf.audit.a" "{}") (NewSink true))).

Theorem flush_read_witness :
  let '(batches, s') := flush sample_sink in
  pending s' = [] ∧ Forall (λ b, 1 ≤ length b ≤ maxItems)%nat batches ∧
  ∀ x, Some <$> read_on x (batches ≫= publish) =
       document <$> filter (λ it, subject it = x) (pending sample_sink).
Proof.
  apply (flush_read sample_sink).
  repeat constructor; [exists (VObject [])|exists (VArray [])|exists (VArray [VNumber "1"])];
    split_and!; reflexivity || (vm_compute; discriminate).
Defined.
