(* ===== verification/Sink.v ===== *)
(** * internal/audit/sink.go: the goroutine of the sink and its end

    [AuditLog] has the critical sections of the sink. Here is the goroutine that
    [NewSink] starts, with its [select], the flushes it runs and the batches it
    publishes outside the mutex, and [Close], which any number of goroutines may
    call: the handlers that add, the loop and the callers of [Close] interleave. *)
From S2P Require Import Prelude GoString AuditLog.

(** Where the loop is. [fin] tells a flush that the [stop] branch runs. *)
Inductive loop_state :=
| Select
| Flushing (fin : bool)
| Publishing (batch : list item) (fin : bool)
| Done.

(** [sync.Once]: nobody has called, the one call runs, it has returned. *)
Inductive once_state := Unused | Running | Used.

(** A goroutine in [Close]: before [once.Do], in [<-s.done], returned. *)
Inductive closer := Entered | Awaiting | Returned.

Record process := Process {
  sk : Sink; loop : loop_state; stop : bool; once : once_state;
  closers : gmap nat closer; everything : list item; sent : list (list item)
}.

Definition started (connected : bool) : process :=
  Process (NewSink connected) Select false Unused ∅ [] [].

(** One step of the process. The channel [done] is closed where the loop returns,
    so a receive from it goes on when the loop is [Done]. [Add] kicks the loop after
    it has left the mutex; that the kick comes with the addition here is no loss,
    since the ticker may bring any flush a kick brings, and at any time. *)
Inductive step : process → process → Prop :=
| step_add s l b o cs ev out it :
    step (Process s l b o cs ev out) (Process (add_item it s) l b o cs (ev ++ [it]) out)
| step_stop s o cs ev out :
    step (Process s Select true o cs ev out) (Process s (Flushing true) true o cs ev out)
| step_woken s b o cs ev out :
    wake s = true →
    step (Process s Select b o cs ev out) (Process (take_token s) (Flushing false) b o cs ev out)
| step_tick s b o cs ev out :
    step (Process s Select b o cs ev out) (Process s (Flushing false) b o cs ev out)
| step_take s s' batch fin b o cs ev out :
    take_batch s = Some (batch, s') →
    step (Process s (Flushing fin) b o cs ev out)
         (Process s' (Publishing batch fin) b o cs ev out)
| step_publish s batch fin b o cs ev out :
    step (Process s (Publishing batch fin) b o cs ev out)
         (Process s (Flushing fin) b o cs ev (out ++ [batch]))
| step_empty s fin b o cs ev out :
    take_batch s = None →
    step (Process s (Flushing fin) b o cs ev out)
         (Process s (if fin then Done else Select) b o cs ev out)
| step_close s l b o cs ev out c :
    cs !! c = None →
    step (Process s l b o cs ev out) (Process s l b o (<[c := Entered]> cs) ev out)
| step_first s l b cs ev out c :
    cs !! c = Some Entered →
    step (Process s l b Unused cs ev out)
         (Process s l true Running (<[c := Awaiting]> cs) ev out)
| step_done s b o cs ev out c :
    cs !! c = Some Awaiting →
    step (Process s Done b o cs ev out) (Process s Done b Used (<[c := Returned]> cs) ev out)
| step_again s l b cs ev out c :
    cs !! c = Some Entered →
    step (Process s l b Used cs ev out) (Process s l b Used (<[c := Returned]> cs) ev out).

(** The batch the loop has in its hands. *)
Definition in_hand (l : loop_state) : list (list item) :=
  match l with Publishing batch _ => [batch] | _ => [] end.

(** What [AuditLog.sink_step] sees of the process. *)
Definition abstract (p : process) : Sink * history :=
  (sk p, History (everything p) (sent p ++ in_hand (loop p))).

(** Whether the loop has seen the end of [stop]. *)
Definition ending (l : loop_state) : bool :=
  match l with Flushing fin | Publishing _ fin => fin | Done => true | Select => false end.

(** ** The process is a run of the sink *)

Lemma abstract_step p p' : step p p' → rtc sink_step (abstract p) (abstract p').
Proof.
  intros H. destruct H; unfold abstract; cbn [sk loop everything sent in_hand];
    rewrite ?app_nil_r; try reflexivity.
  - apply rtc_once. by apply AuditLog.step_add.
  - apply rtc_once. by apply AuditLog.step_wake.
  - apply rtc_once. by apply AuditLog.step_take.
  - destruct fin; cbn; by rewrite app_nil_r.
Qed.

(** Every run of the goroutines is one of the abstract sink. *)
Lemma abstract_run p p' : rtc step p p' → rtc sink_step (abstract p) (abstract p').
Proof. induction 1 as [|p1 p2 p3 H _ IH]; [done|]. etrans; [by apply abstract_step|done]. Qed.

(** ** Closing *)

(** [stop] is closed by the one call that [once] lets through; the loop ends only
    after it, and a caller returns only after the loop. *)
Record closing_ok (p : process) : Prop := {
  co_stop : stop p = true ↔ once p ≠ Unused;
  co_ending : ending (loop p) = true → stop p = true;
  co_used : once p = Used → loop p = Done;
  co_returned c : closers p !! c = Some Returned → once p = Used;
  co_awaiting c : closers p !! c = Some Awaiting → once p ≠ Unused;
  co_running : once p = Running → ∃ c, closers p !! c = Some Awaiting;
  co_called : once p ≠ Unused → closers p ≠ ∅
}.

(** A caller's move does not touch what another caller is doing. *)
Lemma lookup_moved (cs : gmap nat closer) c d e x :
  <[c := d]> cs !! e = Some x → e ≠ c ∧ cs !! e = Some x ∨ x = d.
Proof.
  destruct (decide (e = c)) as [->|Hne]; [rewrite lookup_insert_eq; intros [= ->]; by right|].
  rewrite lookup_insert_ne by done. by left.
Qed.

Lemma awaiting_stays (cs : gmap nat closer) c d :
  cs !! c ≠ Some Awaiting → (∃ e, cs !! e = Some Awaiting) →
  ∃ e, <[c := d]> cs !! e = Some Awaiting.
Proof. intros Hc [e He]. exists e. rewrite lookup_insert_ne; [done|]. by intros ->. Qed.

Ltac moved :=
  let c := fresh in let H := fresh in
  intros c H; apply lookup_moved in H as [[_ H]|H]; [eauto|done].

Lemma closing_step p p' : step p p' → closing_ok p → closing_ok p'.
Proof.
  intros H [H1 H2 H3 H4 H5 H6 H7].
  destruct H; cbn [stop once loop closers] in *; split; cbn [stop once loop closers ending] in *;
    try done; try (intros E; by specialize (H3 E)); try moved;
    try (intros _; apply insert_non_empty).
  - destruct fin; [by intros _; apply H2|done].
  - intros E. apply awaiting_stays; [congruence|auto].
  - match goal with R : cs !! _ = Some Returned |- _ => by apply H4 in R end.
  - intros _. exists c. by rewrite lookup_insert_eq.
  - split; [done|]. intros _. apply H1. by eapply H5.
Qed.

Lemma started_closing connected : closing_ok (started connected).
Proof. by split. Qed.

Lemma reachable_closing connected p : rtc step (started connected) p → closing_ok p.
Proof.
  intros H. remember (started connected) as p0 eqn:E.
  assert (closing_ok p0) as H0 by (rewrite E; apply started_closing). clear E.
  induction H as [|p1 p2 p3 H _ IH]; [done|]. apply IH. by eapply closing_step.
Qed.

(** Once the loop is done, nothing is taken or published. *)
Lemma done_stays p p' : rtc step p p' → loop p = Done → loop p' = Done ∧ sent p' = sent p.
Proof.
  induction 1 as [|p1 p2 p3 H _ IH]; [done|]. intros Hd.
  assert (loop p2 = Done ∧ sent p2 = sent p1) as [H1 H2] by (destruct H; cbn in *; done).
  destruct (IH H1) as [-> ->]. done.
Qed.

(** What stays pending when the loop is done was added after [before] others. *)
Definition late (before : nat) (p : process) : Prop :=
  (before ≤ length (everything p))%nat ∧
  (loop p = Done → pending (sk p) `suffix_of` drop before (everything p)).

Lemma late_step before p p' : step p p' → late before p → late before p'.
Proof.
  unfold late. intros H [Hle Hd]. destruct H; cbn [sk loop everything] in *; split; try done.
  - rewrite length_app. lia.
  - intros E. specialize (Hd E). rewrite add_item_pending, (drop_app_le ev) by done.
    etrans; [apply suffix_drop|]. by apply suffix_app.
  - intros E. apply take_batch_none in H. rewrite H. apply suffix_nil.
Qed.

Lemma late_run before p p' : rtc step p p' → late before p → late before p'.
Proof. induction 1 as [|p1 p2 p3 H _ IH]; [done|]. intros Hl. apply IH. by eapply late_step. Qed.

Lemma late_now p : loop p ≠ Done → late (length (everything p)) p.
Proof. by split. Qed.

(** ** The loop can go on *)

(** A flush runs to its end. *)
Lemma flush_runs m : ∀ s fin b o cs ev out,
  (length (pending s) ≤ m)%nat →
  ∃ s' out', rtc step (Process s (Flushing fin) b o cs ev out)
                      (Process s' (if fin then Done else Select) b o cs ev out').
Proof.
  induction m as [|m IH]; intros s fin b o cs ev out Hm;
    destruct (take_batch s) as [[batch s1]|] eqn:E.
  2, 4: exists s, out; by apply rtc_once, step_empty.
  all: pose proof (take_batch_spec _ _ _ E) as (Hp & Hb & _); rewrite Hp, length_app in Hm; try lia.
  destruct (IH s1 fin b o cs ev (out ++ [batch])%list) as (s' & out' & H); [lia|]. exists s', out'.
  eapply rtc_l; [by apply step_take|]. eapply rtc_l; [apply step_publish|]. exact H.
Qed.

(** After [stop] the loop can reach its end, whatever it is doing. *)
Lemma loop_ends s l o cs ev out :
  ∃ s' out', rtc step (Process s l true o cs ev out) (Process s' Done true o cs ev out').
Proof.
  assert (∀ s out, ∃ s' out', rtc step (Process s Select true o cs ev out)
    (Process s' Done true o cs ev out')) as Hsel.
  { intros s1 out1. destruct (flush_runs _ s1 true true o cs ev out1 (Nat.le_refl _)) as (s' & out' & H).
    exists s', out'. eapply rtc_l; [apply step_stop|exact H]. }
  assert (∀ s fin out, ∃ s' out', rtc step (Process s (Flushing fin) true o cs ev out)
    (Process s' Done true o cs ev out')) as Hfl.
  { intros s1 fin out1.
    destruct (flush_runs _ s1 fin true o cs ev out1 (Nat.le_refl _)) as (s' & out' & H). destruct fin.
    - by exists s', out'.
    - destruct (Hsel s' out') as (s2 & out2 & H2). exists s2, out2. by etrans. }
  destruct l as [|fin|batch fin|]; [apply Hsel|apply Hfl| |by exists s, out].
  destruct (Hfl s fin (out ++ [batch])%list) as (s' & out' & H). exists s', out'.
  eapply rtc_l; [apply step_publish|exact H].
Qed.

Lemma awaiting_returns p c :
  closing_ok p → closers p !! c = Some Awaiting →
  ∃ p', rtc step p p' ∧ everything p' = everything p ∧ once p' = Used ∧
    closers p' = <[c := Returned]> (closers p).
Proof.
  intros Hok Hc. pose proof (co_awaiting _ Hok _ Hc) as Ho. apply (co_stop _ Hok) in Ho.
  destruct p as [s l b o cs ev out]. cbn in *. subst b.
  destruct (loop_ends s l o cs ev out) as (s' & out' & H). exists (Process s' Done true Used (<[c := Returned]> cs) ev out').
  split; [|done].
  eapply rtc_r; [exact H|]. by apply step_done.
Qed.

(** A step of the loop or of a caller that is there already. *)
Record inner_step (p p' : process) : Prop := {
  in_step : step p p';
  in_everything : everything p' = everything p;
  in_closers : dom (closers p') = dom (closers p)
}.

Lemma step_grows p p' :
  step p p' → everything p `prefix_of` everything p' ∧ dom (closers p) ⊆ dom (closers p').
Proof.
  destruct 1; cbn [everything closers]; (split; [by (done || apply prefix_app_r)|]);
    rewrite ?dom_insert_L; set_solver.
Qed.

Lemma run_grows p p' :
  rtc step p p' → everything p `prefix_of` everything p' ∧ dom (closers p) ⊆ dom (closers p').
Proof.
  induction 1 as [|p1 p2 p3 H _ [IH1 IH2]]; [done|]. apply step_grows in H as [H1 H2].
  split; [by etrans|set_solver].
Qed.

(** A run at whose end nothing is new is one of such steps. *)
Lemma goroutine_run p p' :
  rtc step p p' → everything p' = everything p → dom (closers p') = dom (closers p) →
  rtc inner_step p p'.
Proof.
  induction 1 as [|p1 p2 p3 H Hr IH]; intros He Hd; [apply rtc_refl|].
  destruct (step_grows _ _ H) as [H1 H2]. destruct (run_grows _ _ Hr) as [H3 H4].
  assert (everything p2 = everything p1) as E.
  { rewrite He in H3. apply (anti_symm prefix); done. }
  assert (dom (closers p2) = dom (closers p1)) as Ed by set_solver.
  eapply rtc_l; [by split|]. apply IH; congruence.
Qed.

(** A caller of [Close] can return, with no other help than the loop's. *)
Lemma caller_returns p c x :
  closing_ok p → closers p !! c = Some x →
  ∃ p', rtc inner_step p p' ∧ everything p' = everything p ∧ closers p' !! c = Some Returned.
Proof.
  intros Hok Hc.
  assert (∃ p', rtc step p p' ∧ everything p' = everything p ∧ closers p' !! c = Some Returned ∧
    dom (closers p') = dom (closers p)) as (p' & Hr & He & Hc' & Hd).
  2: { exists p'. split; [by apply goroutine_run|done]. }
  assert (∀ e y, closers p !! e = Some y → dom (<[e := Returned]> (closers p)) = dom (closers p)) as Hdom.
  { intros e y He. apply dom_insert_lookup_L. by exists y. }
  destruct x; [|..].
  - destruct (once p) eqn:Ho; destruct p as [s l b o cs ev out]; cbn in *; subst o.
    + pose proof (step_first s l b cs ev out c Hc) as H1.
      destruct (awaiting_returns _ c (closing_step _ _ H1 Hok)) as (p' & H & E & _ & Ec);
        [by cbn; rewrite lookup_insert_eq|]. exists p'. rewrite Ec. cbn. rewrite insert_insert_eq.
      split_and!; [by eapply rtc_l|done|by rewrite lookup_insert_eq|by eapply Hdom].
    + destruct (co_running _ Hok eq_refl) as [e He]. cbn in He.
      destruct (awaiting_returns _ e Hok He) as (p' & H & E & Eo & Ec).
      destruct p' as [s' l' b' o' cs' ev' out']. cbn in *. subst.
      eexists. split; [eapply rtc_r; [exact H|]; apply (step_again _ _ _ _ _ _ c)|].
      { rewrite lookup_insert_ne; [done|congruence]. }
      cbn. split_and!; [done|by rewrite lookup_insert_eq|].
      rewrite dom_insert_lookup_L; [by eapply Hdom|]. rewrite lookup_insert_ne; [by eexists|congruence].
    + eexists. split; [by apply rtc_once, (step_again _ _ _ _ _ _ c)|].
      cbn. split_and!; [done|by rewrite lookup_insert_eq|by eapply Hdom].
  - destruct (awaiting_returns p c Hok Hc) as (p' & H & E & _ & Ec). exists p'. rewrite Ec.
    split_and!; [done|done|by rewrite lookup_insert_eq|by eapply Hdom].
  - by exists p.
Qed.

(** *** No caller is stuck *)

(** Such a step, when the ticker is left out. *)
Record work_step (p p' : process) : Prop := {
  work_inner : inner_step p p';
  work_no_tick : ¬ (loop p = Select ∧ loop p' = Flushing false ∧ sk p' = sk p)
}.

(** What is left to do, with one goroutine in [Close]. *)
Definition closer_weight (x : option closer) : nat :=
  match x with Some Entered => 2 | Some Awaiting => 1 | _ => 0 end.
Definition loop_weight (l : loop_state) : nat :=
  match l with
  | Select => 2 | Flushing fin => if fin then 1 else 3
  | Publishing _ fin => if fin then 2 else 4 | Done => 0
  end.
Definition weight (p : process) : nat :=
  3 * length (pending (sk p)) + (if wake (sk p) then 3 else 0) + loop_weight (loop p) +
  closer_weight (closers p !! 0%nat).

Lemma take_batch_lighter s batch s' :
  take_batch s = Some (batch, s') →
  (length (pending s') < length (pending s))%nat ∧ wake s' = wake s.
Proof.
  intros H. pose proof (take_batch_spec _ _ _ H) as (Hp & Hb & _). split.
  - rewrite Hp, length_app. destruct Hb as [Hb _]. destruct batch; [cbn in Hb; lia|cbn; lia].
  - unfold take_batch in H. case_bool_decide; [done|]. by injection H as _ <-.
Qed.

Lemma work_lighter p p' : work_step p p' → dom (closers p) ⊆ {[0%nat]} → (weight p' < weight p)%nat.
Proof.
  intros [[Hs He Hd] Ht] Hc.
  assert (∀ c x, closers p !! c = Some x → c = 0%nat) as H0.
  { intros c x Hx. apply (elem_of_dom_2 (D := gset nat)) in Hx. set_solver. }
  unfold weight. destruct Hs as [s l b o cs ev out it|s o cs ev out|s b o cs ev out Hk|s b o cs ev out
    |s s' batch fin b o cs ev out Hb|s batch fin b o cs ev out|s fin b o cs ev out Hb
    |s l b o cs ev out c Hx|s l b cs ev out c Hx|s b o cs ev out c Hx|s l b cs ev out c Hx];
    cbn [sk loop closers everything] in *.
  - apply (f_equal length) in He. rewrite length_app in He. cbn in He. lia.
  - cbn. lia.
  - cbn. rewrite Hk. lia.
  - by destruct Ht.
  - apply take_batch_lighter in Hb as [? ->]. destruct fin; cbn; lia.
  - destruct fin; cbn; lia.
  - destruct fin; cbn; lia.
  - rewrite dom_insert_L in Hd. apply (not_elem_of_dom (D := gset nat)) in Hx. set_solver.
  - pose proof (H0 _ _ Hx) as ->. rewrite lookup_insert_eq, Hx. cbn. lia.
  - pose proof (H0 _ _ Hx) as ->. rewrite lookup_insert_eq, Hx. cbn. lia.
  - pose proof (H0 _ _ Hx) as ->. rewrite lookup_insert_eq, Hx. cbn. lia.
Qed.

(** A caller that has not returned waits for the loop, and that can go on. *)
Lemma caller_goes p x :
  closing_ok p → dom (closers p) = {[0%nat]} → closers p !! 0%nat = Some x →
  x = Returned ∨ red work_step p.
Proof.
  intros Hok Hd Hx.
  assert (∀ p', step p p' → everything p' = everything p → dom (closers p') = dom (closers p) →
    ¬ (loop p = Select ∧ loop p' = Flushing false ∧ sk p' = sk p) → red work_step p) as Hgo.
  { intros p' Hs He Hd' Ht. exists p'. by repeat split. }
  assert (∀ y, dom (<[0%nat := y]> (closers p)) = dom (closers p)) as Hins.
  { intros y. by apply dom_insert_lookup_L. }
  destruct p as [s l b o cs ev out]. cbn in *. destruct x; [right|right|by left].
  - destruct o.
    + eapply Hgo; [by apply (step_first _ _ _ _ _ _ 0%nat)|done|apply Hins|cbn; by intros (-> & ? & _)].
    + destruct (co_running _ Hok eq_refl) as [c Hc]. cbn in Hc.
      assert (c = 0%nat) as ->.
      { pose proof (elem_of_dom_2 (D := gset nat) _ _ _ Hc) as H. rewrite Hd in H. set_solver. }
      congruence.
    + eapply Hgo; [by apply (step_again _ _ _ _ _ _ 0%nat)|done|apply Hins|cbn; by intros (-> & ? & _)].
  - assert (b = true) as ->. { apply (co_stop _ Hok). by apply (co_awaiting _ Hok 0%nat). }
    destruct l as [|fin|batch fin|].
    + by eapply Hgo; [apply step_stop|..|intros (_ & ? & _)].
    + destruct (take_batch s) as [[batch s']|] eqn:E.
      * by eapply Hgo; [by apply step_take|..|intros (? & _)].
      * by eapply Hgo; [by apply step_empty|..|intros (? & _)].
    + by eapply Hgo; [by apply step_publish|..|intros (? & _)].
    + eapply Hgo; [by apply (step_done _ _ _ _ _ _ 0%nat)|done|apply Hins|cbn; by intros (? & _)].
Qed.

(** What holds when a call that came after [p1] has returned. *)
Lemma returned_published connected p1 p2 c :
  rtc step (started connected) p1 → stop p1 = false →
  rtc step p1 p2 → closers p2 !! c = Some Returned →
  loop p2 = Done ∧
  pending (sk p2) `suffix_of` drop (length (everything p1)) (everything p2) ∧
  sublist (mjoin (sent p2) ++ pending (sk p2)) (everything p2) ∧
  dropped (sk p2) =
    (len (everything p2) - len (mjoin (sent p2) ++ pending (sk p2))%list) mod 2 ^ 64.
Proof.
  intros Hr Hs H Hc. pose proof (reachable_closing _ _ Hr) as Hok.
  pose proof (reachable_closing connected p2 ltac:(by etrans)) as Hok2.
  assert (loop p2 = Done) as Hd by by eapply co_used, co_returned. split; [done|].
  split; [|].
  - apply (late_run _ _ _ H); [|done]. apply late_now. intros E.
    pose proof (co_ending _ Hok) as He. rewrite E, Hs in He. by specialize (He eq_refl).
  - assert (rtc sink_step (sink_init connected) (abstract p2)) as Ha
      by (apply (abstract_run (started connected)); by etrans).
    apply reachable_inv in Ha as (_ & _ & _ & Hsub & Hdr & _).
    cbn in Hsub, Hdr. rewrite Hd, app_nil_r in Hsub, Hdr. done.
Qed.

(** C17. From every state of the process each goroutine in [Close] can return, with
    nothing added meanwhile. When a call has returned, the loop has ended, and of
    the events that had been added before the first call nothing is pending: the
    batches published, then what was added too late, are the events added, in
    their order, less those counted in [dropped]. *)
Theorem close_spec connected p1 :
  rtc step (started connected) p1 →
  (∀ c x, closers p1 !! c = Some x →
     ∃ p', rtc step p1 p' ∧ everything p' = everything p1 ∧ closers p' !! c = Some Returned) ∧
  (stop p1 = false → ∀ p2 c,
     rtc step p1 p2 → closers p2 !! c = Some Returned →
     loop p2 = Done ∧
     pending (sk p2) `suffix_of` drop (length (everything p1)) (everything p2) ∧
     sublist (mjoin (sent p2) ++ pending (sk p2)) (everything p2) ∧
     dropped (sk p2) =
       (len (everything p2) - len (mjoin (sent p2) ++ pending (sk p2))%list) mod 2 ^ 64).
Proof.
  intros Hr. pose proof (reachable_closing _ _ Hr) as Hok. split.
  - intros c x Hc. destruct (caller_returns p1 c x Hok Hc) as (p' & H & Hp). exists p'.
    split; [|done]. eapply rtc_subrel; [|exact H]. by intros ? ? [].
  - intros Hs p2 c. by eapply returned_published.
Qed.

(** ** A run with two callers of [Close] *)

Definition sample_open : process :=
  Process (add_item sample_item (NewSink true)) Select false Unused
    {[0%nat := Entered; 1%nat := Entered]} [sample_item] [].

Lemma sample_opened : rtc step (started true) sample_open.
Proof.
  eapply rtc_l; [apply (step_add _ _ _ _ _ _ _ sample_item)|].
  eapply rtc_l; [by apply (step_close _ _ _ _ _ _ _ 1)|].
  eapply rtc_l; [by apply (step_close _ _ _ _ _ _ _ 0)|]. apply rtc_refl.
Qed.

Lemma sample_closes :
  ∃ p2, rtc step sample_open p2 ∧ closers p2 !! 1%nat = Some Returned ∧
    sent p2 = [[sample_item]] ∧ everything p2 = [sample_item].
Proof.
  eexists. split.
  - eapply rtc_l; [apply (step_first _ _ _ _ _ _ 0); reflexivity|].
    eapply rtc_l; [apply step_stop|].
    eapply rtc_l; [apply step_take; vm_compute; reflexivity|].
    eapply rtc_l; [apply step_publish|].
    eapply rtc_l; [by apply step_empty|].
    eapply rtc_l; [apply (step_done _ _ _ _ _ _ 0); reflexivity|].
    eapply rtc_l; [apply (step_again _ _ _ _ _ _ 1); reflexivity|]. apply rtc_refl.
  - split_and!; reflexivity.
Qed.

Theorem close_spec_witness :
  (∃ p', rtc step sample_open p' ∧ everything p' = [sample_item] ∧
     closers p' !! 1%nat = Some Returned) ∧
  ∃ p2, sent p2 = [[sample_item]] ∧ pending (sk p2) `suffix_of` [].
Proof.
  split.
  - exact (proj1 (close_spec true sample_open sample_opened) 1%nat Entered eq_refl).
  - destruct sample_closes as (p2 & Hr & Hc & Hs & He). exists p2. split; [exact Hs|].
    pose proof (proj2 (close_spec true sample_open sample_opened) eq_refl p2 1%nat Hr Hc)
      as (_ & Hsuf & _).
    rewrite He in Hsuf. exact Hsuf.
Defined.
