(* ===== verification/Findings.v ===== *)
(** * internal/schema/findings.go: what is reported of a mismatch

    The validators are libraries; of their error values this file has the fields
    the code reads. The text of an error kind, its keyword path, the marshalling
    of a value and the digest are parameters. *)
From S2P Require Import Prelude GoString GoFloat Json AuditLog.

Definition OutcomeOK := "ok".
Definition OutcomeMismatch := "mismatch".
Definition OutcomeUnknownOperation := "unknown_operation".
Definition OutcomeContentType := "content_type".
Definition OutcomeStatus := "status".

Definition evidenceMax : Z := 256.

Record Options := {
  MaxErrors : Z; Paths : bool; HashValues : bool; document : option value
}.

Record Result := {
  Result_Outcome : string; Operation : string; Result_Findings : list Finding; Errors : Z
}.

Definition Result_OK (r : Result) : bool := Result_Outcome r =s? OutcomeOK.

(** ** The libraries' error values

    [jsonschema.ValidationError]: a tree of causes under a location. The pointer
    may be nil. [K] is the type of the error kinds. *)
Inductive SchemaError {K : Type} : Type :=
| NilError
| MkSchemaError (SchemaURL : string) (InstanceLocation : list string)
    (ErrorKind : option K) (Causes : list SchemaError).
Arguments SchemaError : clear implicits.

Record SchemaValidationFailure {K : Type} := {
  SVF_Reason : string; KeywordLocation : string; ReferenceSchema : string;
  OriginalJsonSchemaError : SchemaError K
}.
Arguments SchemaValidationFailure : clear implicits.

Record ValidationError {K : Type} := {
  ValidationType : string; ValidationSubType : string; SpecPath : string;
  Message : string; VE_Reason : string; ParameterName : string;
  SchemaValidationErrors : list (option (SchemaValidationFailure K))
}.
Arguments ValidationError : clear implicits.

Definition ellipsis : string := encode_runes [8230].

Definition clamp (s : string) : string :=
  let s := TrimSpace (ReplaceAll s (String (byte 10) "") " ") in
  if slen s <=? evidenceMax then s
  else str_take (Z.to_nat (evidenceMax - 1)) s +:+ ellipsis.

Definition note (code severity target rule text : string) : Finding :=
  new_finding code severity target rule (clamp text).

Definition evidence (reason path : string) (opts : Options) : string :=
  let reason := TrimSpace reason in
  if negb (is_empty path) && Paths opts then clamp (path +:+ ": " +:+ reason)
  else clamp reason.

(** The step of [valueAt] and of [pointer] into a container. *)
Definition value_step (cur : value) (step : string) : option value :=
  match cur with
  | VObject members => obj_get members step
  | VArray items =>
      match Atoi step with
      | None => None
      | Some i => if (i <? 0) || (len items <=? i) then None else items !! Z.to_nat i
      end
  | _ => None
  end.

Fixpoint valueAt (doc : value) (loc : list string) : option value :=
  match loc with
  | [] => Some doc
  | step :: loc => next ← value_step doc step; valueAt next loc
  end.

Definition trim (inp : list Finding) (max : Z) : list Finding :=
  if (max <=? 0) || (len inp <=? max) then inp
  else
    (take (Z.to_nat max) inp ++
      [new_finding "json-errors-truncated" SeverityInfo TargetBody ""
         (Itoa (len inp - max) +:+ " more findings are not listed")])%list.

Definition lastSegment (path : string) : string :=
  if is_empty path then ""
  else List.last (Split (Trim path "/") "/") "".

Definition reasonOf {K} (err : ValidationError K) : string :=
  if negb (is_empty (VE_Reason err)) then VE_Reason err else Message err.

Definition rule {K} (sve : SchemaValidationFailure K) : string :=
  if negb (is_empty (KeywordLocation sve)) then KeywordLocation sve else ReferenceSchema sve.

(** A nil error has no location. *)
Definition instanceOf {K} (sve : SchemaValidationFailure K) : list string :=
  match OriginalJsonSchemaError sve with
  | NilError => []
  | MkSchemaError _ loc _ _ => loc
  end.

Definition location_path (loc : list string) : string :=
  if bool_decide (loc = []) then "/" else "/" +:+ Join loc "/".

Definition dash : ascii := "-".

(** The characters [slug] keeps, and those it turns into a dash. *)
Definition slug_rune (r : Z) : list ascii :=
  if in_range 97 122 r || in_range 48 57 r then [byte r]
  else if (r =? 32) || (r =? 95) || (r =? 45) || (r =? 46) then [dash]
  else [].

Section findings.
Context {K : Type} (KeywordPath : K → list string) (LocalizedString : K → string).
Context (sha256 : string → string).
Context (marshal_value : value → result string).
Context `{Unicode}.

Definition keywordOf (e : SchemaError K) : string :=
  match e with
  | MkSchemaError _ _ (Some k) _ =>
      match KeywordPath k with [] => "schema" | kp => List.last kp "" end
  | _ => "schema"
  end.

Definition locate (sve : SchemaValidationFailure K) : string * string :=
  match OriginalJsonSchemaError sve with
  | MkSchemaError _ loc _ _ as orig => (location_path loc, keywordOf orig)
  | NilError =>
      let kw := lastSegment (KeywordLocation sve) in
      if negb (is_empty kw) then ("", kw) else ("", "schema")
  end.

Definition Hash (value : string) : string :=
  "sha256:" +:+ EncodeToString (str_take 8 (sha256 value)).

(** JSON's null is the nil [any]. *)
Definition digest (loc : list string) (opts : Options) : string :=
  match HashValues opts, document opts with
  | false, _ | _, None | _, Some VNull => ""
  | true, Some doc =>
      match valueAt doc loc with
      | None => ""
      | Some v =>
          match marshal_value v with
          | Err _ => ""
          | Ok raw => " value=" +:+ Hash raw
          end
      end
  end.

Definition slug (s : string) : string :=
  Trim (of_bytes (runes (ToLower (TrimSpace s)) ≫= slug_rune)) dash.

Definition codeFor (kind sub : string) : string :=
  let parts := "json" :: List.filter (λ p, negb (is_empty p)) (slug <$> [kind; sub]) in
  if len parts =? 1 then "json-invalid" else Join parts "-".

Definition targetFor (err : ValidationError K) (def : string) : string :=
  let sub := ToLower (ValidationSubType err) in
  let name := ToLower (ParameterName err) in
  if sub =s? "query" then TargetArgs
  else if sub =s? "path" then TargetURI
  else if sub =s? "header" then
    if negb (is_empty name) then "header:" +:+ name else TargetConn
  else if sub =s? "cookie" then
    if negb (is_empty name) then "cookie:" +:+ name else TargetConn
  else def.

Definition failure_finding (err : ValidationError K) (target : string) (opts : Options)
    (sve : SchemaValidationFailure K) : Finding :=
  let '(path, keyword) := locate sve in
  new_finding ("json-" +:+ keyword) SeverityMedium (targetFor err target) (rule sve)
    (evidence (SVF_Reason sve) path opts +:+ digest (instanceOf sve) opts).

(** The findings of one validation error; [None] is a nil pointer. *)
Definition error_findings (target : string) (opts : Options) (err : option (ValidationError K))
    : list Finding :=
  match err with
  | None => []
  | Some err =>
      match SchemaValidationErrors err with
      | [] =>
          [new_finding (codeFor (ValidationType err) (ValidationSubType err)) SeverityMedium
             (targetFor err target) (SpecPath err) (evidence (reasonOf err) "" opts)]
      | sves => sves ≫= λ sve,
          match sve with
          | None => []
          | Some sve => [failure_finding err target opts sve]
          end
      end
  end.

Definition fromValidationErrors (errs : list (option (ValidationError K))) (target : string)
    (opts : Options) : list Finding :=
  trim (errs ≫= error_findings target opts) (MaxErrors opts).

(** [walk]: the leaves of the tree of causes, in order. A leaf without an error
    kind makes the call of [LocalizedString] panic. *)
Fixpoint walk (target : string) (opts : Options) (e : SchemaError K) : result (list Finding) :=
  match e with
  | NilError => Ok []
  | MkSchemaError url loc kind [] =>
      match kind with
      | None => Err Panic
      | Some k =>
          Ok [new_finding ("json-" +:+ keywordOf e) SeverityMedium target url
                (evidence (LocalizedString k) (location_path loc) opts +:+ digest loc opts)]
      end
  | MkSchemaError _ _ _ causes =>
      (fix walk_all (causes : list (SchemaError K)) : result (list Finding) :=
         match causes with
         | [] => Ok []
         | cause :: causes =>
             here ← walk target opts cause; rest ← walk_all causes; Ok (here ++ rest)%list
         end) causes
  end.

Definition fromSchemaError (err : SchemaError K) (target : string) (opts : Options)
    : result (list Finding) :=
  match err with
  | NilError => Ok []
  | _ => out ← walk target opts err; Ok (trim out (MaxErrors opts))
  end.
End findings.

(** ** One line, and how long *)

Lemma slen_app s t : slen (s +:+ t) = slen s + slen t.
Proof.
  unfold slen. rewrite <- !length_bytes, bytes_app, length_app. lia.
Qed.

Lemma bytes_take n s : bytes (str_take n s) = take n (bytes s).
Proof. apply bytes_of_bytes. Qed.

Lemma slen_take n s : slen (str_take n s) = Z.min (Z.of_nat n) (slen s).
Proof. unfold slen. rewrite <- !length_bytes, bytes_take, length_take. lia. Qed.

Lemma replace_one_absent c new l :
  c ∉ new → c ∉ replace_bytes [c] new l 0.
Proof.
  intros Hnew. induction l as [|a l IH]; cbn; [by intros ?%not_elem_of_nil|].
  destruct (Ascii.eqb_spec c a) as [->|Hne]; cbn.
  - rewrite elem_of_app. tauto.
  - rewrite elem_of_cons. naive_solver.
Qed.

Lemma trim_bytes_subseteq pats l skip a : a ∈ trim_bytes pats l skip → a ∈ l.
Proof.
  revert skip. induction l as [|b l IH]; intros skip; cbn; [done|].
  rewrite elem_of_cons. destruct skip as [|skip]; [|naive_solver].
  destruct (find _ _) as [p|]; [|by rewrite elem_of_cons]. naive_solver.
Qed.

Lemma TrimSpace_subseteq s a : a ∈ bytes (TrimSpace s) → a ∈ bytes s.
Proof.
  unfold TrimSpace. rewrite bytes_of_bytes, list_elem_of_In, <- in_rev, <- list_elem_of_In.
  intros H%trim_bytes_subseteq. rewrite list_elem_of_In, <- in_rev, <- list_elem_of_In in H.
  by apply trim_bytes_subseteq in H.
Qed.

Lemma ellipsis_length : slen ellipsis = 3.
Proof. reflexivity. Qed.

(** A text that goes into a finding has no line feed. When what is left after the
    line feeds are replaced and the ends trimmed has at most 256 bytes it is kept
    whole; otherwise the result has 258 bytes: 255 of the text and the three of the
    ellipsis. The constant 256 is not the bound of the length. *)
Theorem clamp_spec s :
  let line := TrimSpace (ReplaceAll s (String (byte 10) "") " ") in
  (byte 10 ∉ bytes (clamp s)) ∧
  (slen line ≤ evidenceMax → clamp s = line) ∧
  (evidenceMax < slen line →
   slen (clamp s) = evidenceMax + 2 ∧ ∀ i, (i < 255)%nat → bytes (clamp s) !! i = bytes line !! i).
Proof.
  set (line := TrimSpace _). cbn zeta.
  assert (byte 10 ∉ bytes line) as Hline.
  { intros H%TrimSpace_subseteq. unfold ReplaceAll in H. rewrite bytes_of_bytes in H.
    revert H. apply replace_one_absent. set_solver. }
  unfold clamp. fold line. destruct (Z.leb_spec (slen line) evidenceMax) as [Hle|Hgt].
  { split_and!; [done|done|lia]. }
  split_and!; [|lia|intros _; split].
  - rewrite bytes_app, elem_of_app, bytes_take. intros [H|H].
    + apply Hline. eapply (subseteq_take 255). exact H.
    + revert H. change (bytes ellipsis) with [byte 226; byte 128; byte 166]. set_solver.
  - rewrite slen_app, slen_take, ellipsis_length. unfold evidenceMax in *. lia.
  - intros i Hi. rewrite bytes_app, bytes_take, lookup_app_l.
    + by rewrite lookup_take_lt.
    + rewrite length_take. unfold slen, evidenceMax in Hgt. rewrite <- length_bytes in Hgt.
      change (Z.to_nat (evidenceMax - 1)) with 255%nat. lia.
Qed.

(** ** Slugs *)

Definition slug_char (c : ascii) : bool := between 97 122 c || between 48 57 c || Ascii.eqb c dash.

Lemma slug_rune_chars r : Forall (λ c, slug_char c = true) (slug_rune r).
Proof.
  unfold slug_rune. destruct (in_range 97 122 r || in_range 48 57 r) eqn:E.
  - constructor; [|done]. unfold in_range in E. guards.
    assert (code (byte r) = r) as Hc.
    { unfold code, byte. rewrite N_ascii_embedding by lia. lia. }
    unfold slug_char, between. rewrite Hc. guards. lia.
  - by destruct ((r =? 32) || (r =? 95) || (r =? 45) || (r =? 46)); constructor.
Qed.

Lemma drop_while_sub {A} (f : A → bool) l a : a ∈ drop_while f l → a ∈ l.
Proof.
  induction l as [|b l IH]; cbn; [done|]. destruct (f b); rewrite ?elem_of_cons; naive_solver.
Qed.

Lemma drop_while_head {A} (f : A → bool) l a k : drop_while f l = a :: k → f a = false.
Proof.
  induction l as [|b l IH]; cbn; [done|]. destruct (f b) eqn:E; [done|]. by intros [= <- <-].
Qed.

Lemma drop_while_suffix {A} (f : A → bool) l : drop_while f l `suffix_of` l.
Proof.
  induction l as [|b l IH]; cbn; [done|]. destruct (f b); [|done]. by apply suffix_cons_r.
Qed.

Lemma drop_while_id {A} (f : A → bool) l :
  (∀ a k, l = a :: k → f a = false) → drop_while f l = l.
Proof. destruct l as [|a l]; [done|]. intros H. cbn. by rewrite (H a l). Qed.

(** What [Trim] leaves neither begins nor ends with the cut character. *)
Definition no_edge (c : ascii) (l : list ascii) : Prop :=
  (∀ a k, l = a :: k → a ≠ c) ∧ (∀ a k, l = (k ++ [a])%list → a ≠ c).

Lemma Trim_edges s c : no_edge c (bytes (Trim s c)).
Proof.
  unfold Trim. rewrite bytes_of_bytes. set (l := drop_while (Ascii.eqb c) (bytes s)).
  split.
  - intros a k E.
    destruct (drop_while_suffix (Ascii.eqb c) (rev l)) as [d Hd].
    assert (l = (rev (drop_while (Ascii.eqb c) (rev l)) ++ rev d)%list) as Hl.
    { rewrite <- rev_app_distr, <- Hd. by rewrite rev_involutive. }
    rewrite E in Hl. unfold l in Hl. apply drop_while_head in Hl.
    apply Ascii.eqb_neq in Hl. congruence.
  - intros a k E. apply (f_equal (@rev ascii)) in E.
    rewrite rev_involutive, rev_app_distr in E. apply drop_while_head in E.
    apply Ascii.eqb_neq in E. congruence.
Qed.

Lemma Trim_sub s c a : a ∈ bytes (Trim s c) → a ∈ bytes s.
Proof.
  unfold Trim. rewrite bytes_of_bytes, list_elem_of_In, <- in_rev, <- list_elem_of_In.
  intros H%drop_while_sub. rewrite list_elem_of_In, <- in_rev, <- list_elem_of_In in H.
  by apply drop_while_sub in H.
Qed.

Section slugs.
Context `{Unicode}.

Lemma slug_chars s : Forall (λ c, slug_char c = true) (bytes (slug s)).
Proof.
  apply Forall_forall. intros c Hc%Trim_sub. rewrite bytes_of_bytes in Hc.
  apply list_elem_of_bind in Hc as (r & Hc & _).
  revert c Hc. apply Forall_forall. apply slug_rune_chars.
Qed.

Lemma no_edge_join c l k :
  l ≠ [] → k ≠ [] → no_edge c l → no_edge c k → no_edge c (l ++ c :: k).
Proof.
  intros Hl Hk [Hl1 Hl2] [Hk1 Hk2]. split.
  - intros a r E. destruct l as [|b l]; [done|]. injection E as <- <-. by eapply Hl1.
  - intros a r E. destruct (exists_last Hk) as (k' & b & ->).
    rewrite app_comm_cons, app_assoc in E. apply app_inj_tail in E as [_ <-]. by eapply Hk2.
Qed.

(** The code of a finding the OpenAPI validator made without a schema error is
    [json-] and then a non-empty word of lower-case letters, digits and dashes
    that neither begins nor ends with a dash. *)
Theorem codeFor_shape kind sub :
  ∃ rest, codeFor kind sub = "json-" +:+ rest ∧ rest ≠ "" ∧
    Forall (λ c, slug_char c = true) (bytes rest) ∧ no_edge dash (bytes rest).
Proof.
  pose proof (slug_chars kind) as Hk. pose proof (slug_chars sub) as Hs.
  pose proof (Trim_edges (of_bytes (runes (ToLower (TrimSpace kind)) ≫= slug_rune)) dash) as Ek.
  pose proof (Trim_edges (of_bytes (runes (ToLower (TrimSpace sub)) ≫= slug_rune)) dash) as Es.
  change (no_edge dash (bytes (slug kind))) in Ek. change (no_edge dash (bytes (slug sub))) in Es.
  unfold codeFor. cbn [fmap list_fmap List.filter].
  destruct (is_empty (slug kind)) eqn:E1, (is_empty (slug sub)) eqn:E2; cbn [negb];
    apply is_empty_true in E1 || apply is_empty_false in E1;
    apply is_empty_true in E2 || apply is_empty_false in E2.
  - exists "invalid". split; [done|]. split; [done|]. split; [by repeat constructor|].
    split; intros a k E.
    + by injection E as <- _.
    + intros ->. apply (f_equal (@rev ascii)) in E. by rewrite rev_app_distr in E.
  - by exists (slug sub).
  - by exists (slug kind).
  - exists (slug kind +:+ "-" +:+ slug sub). split; [done|].
    rewrite !bytes_app. change (bytes "-") with [dash]. split_and!.
    + intros E. apply E1. destruct (slug kind); [done|]. by cbn in E.
    + apply Forall_app. split; [done|]. by constructor.
    + apply no_edge_join; [| |done|done]; intros E; apply (f_equal of_bytes) in E;
        by rewrite of_bytes_bytes in E.
Qed.
End slugs.

(** ** The tree of causes *)

Section trees.
Context {K : Type}.
Implicit Types e : SchemaError K.

(** What the validation library returns: no nil node, and a kind at each leaf. *)
Fixpoint well_formed e : bool :=
  match e with
  | NilError => false
  | MkSchemaError _ _ kind [] => match kind with Some _ => true | None => false end
  | MkSchemaError _ _ _ causes => forallb well_formed causes
  end.

Fixpoint leaves e : list (SchemaError K) :=
  match e with
  | NilError => []
  | MkSchemaError _ _ _ [] => [e]
  | MkSchemaError _ _ _ causes => causes ≫= leaves
  end.

Lemma SchemaError_rect' (P : SchemaError K → Prop) :
  P NilError → (∀ url loc kind causes, Forall P causes → P (MkSchemaError url loc kind causes)) →
  ∀ e, P e.
Proof.
  intros Hnil Hmk. fix IH 1. intros [|url loc kind causes]; [done|].
  apply Hmk. induction causes as [|c causes IHc]; constructor; [apply IH|apply IHc].
Qed.

Lemma leaves_nonempty e : well_formed e = true → leaves e ≠ [].
Proof.
  induction e as [|url loc kind causes IH] using SchemaError_rect'; [done|].
  destruct causes as [|c causes]; [done|].
  change (forallb well_formed (c :: causes) = true →
    (leaves c ++ (causes ≫= leaves))%list ≠ []). cbn. intros [Hc _]%andb_true_iff.
  apply Forall_cons in IH as [IHc _]. intros [E _]%app_nil. by apply IHc.
Qed.

Context (KeywordPath : K → list string) (LocalizedString : K → string).
Context (sha256 : string → string) (marshal_value : value → result string).
Abbreviation walk := (walk KeywordPath LocalizedString sha256 marshal_value).
Abbreviation fromSchemaError := (fromSchemaError KeywordPath LocalizedString sha256 marshal_value).

Lemma walk_leaves target opts e :
  well_formed e = true →
  ∃ out, walk target opts e = Ok out ∧ length out = length (leaves e).
Proof.
  induction e as [|url loc kind causes IH] using SchemaError_rect'; [done|].
  destruct causes as [|c causes].
  { cbn. destruct kind as [k|]; [|done]. intros _. eauto. }
  change (forallb well_formed (c :: causes) = true →
    ∃ out, (here ← walk target opts c;
      rest ← (fix walk_all (causes : list (SchemaError K)) : result (list Finding) :=
         match causes with
         | [] => Ok []
         | cause :: causes =>
             here ← walk target opts cause; rest ← walk_all causes; Ok (here ++ rest)%list
         end) causes;
      Ok (here ++ rest)%list) = Ok out ∧
    length out = length (leaves c ++ (causes ≫= leaves))%list).
  cbn [forallb]. intros [Hc Hcs]%andb_true_iff.
  apply Forall_cons in IH as [IHc IH]. destruct (IHc Hc) as (here & -> & Hlen). cbn [mbind result_bind].
  assert (∃ rest, (fix walk_all (causes : list (SchemaError K)) : result (list Finding) :=
         match causes with
         | [] => Ok []
         | cause :: causes =>
             here ← walk target opts cause; rest ← walk_all causes; Ok (here ++ rest)%list
         end) causes = Ok rest ∧ length rest = length (causes ≫= leaves)) as (rest & -> & Hrest).
  { clear Hc IHc Hlen. induction causes as [|d causes IHcs]; [by eexists|].
    cbn [forallb] in Hcs. apply andb_true_iff in Hcs as [Hd Hds].
    apply Forall_cons in IH as [IHd IH]. destruct (IHd Hd) as (hd & -> & Hhd).
    destruct (IHcs IH Hds) as (tl & Htl & Hlen). cbn [mbind result_bind]. rewrite Htl.
    eexists. split; [reflexivity|]. rewrite bind_cons, !length_app. lia. }
  eexists. split; [reflexivity|]. rewrite !length_app. lia.
Qed.

Lemma trim_length l max :
  (max ≤ 0 ∨ len l ≤ max → trim l max = l) ∧
  (0 < max < len l → len (trim l max) = max + 1).
Proof.
  unfold trim. destruct (Z.leb_spec max 0); [split; [done|lia]|].
  destruct (Z.leb_spec (len l) max); cbn [orb]; [split; [done|lia]|].
  split; [lia|]. intros _. rewrite len_app. unfold len in *. rewrite length_take. cbn. lia.
Qed.

Lemma fromSchemaError_findings e target opts :
  well_formed e = true →
  ∃ out, fromSchemaError e target opts = Ok out ∧ out ≠ [] ∧
    (MaxErrors opts ≤ 0 ∨ len (leaves e) ≤ MaxErrors opts → length out = length (leaves e)) ∧
    (0 < MaxErrors opts → len out ≤ MaxErrors opts + 1).
Proof.
  intros Hwf. destruct (walk_leaves target opts e Hwf) as (out & Hw & Hlen).
  pose proof (leaves_nonempty e Hwf) as Hne.
  assert (fromSchemaError e target opts = Ok (trim out (MaxErrors opts))) as ->.
  { unfold Findings.fromSchemaError. destruct e; [done|]. by rewrite Hw. }
  destruct (trim_length out (MaxErrors opts)) as [Hall Hcut].
  assert (len out = len (leaves e)) as Hl by (unfold len; lia).
  eexists. split; [reflexivity|].
  assert (0 < len out) as Hpos.
  { rewrite Hl. unfold len. destruct (leaves e); [done|cbn; lia]. }
  destruct (decide (MaxErrors opts ≤ 0 ∨ len out ≤ MaxErrors opts)) as [Hs|Hb].
  - rewrite Hall by done. split_and!; [by intros ->|done|lia].
  - apply Decidable.not_or in Hb as [? ?].
    specialize (Hcut ltac:(lia)). split_and!; [|intros [?|?]; lia|lia].
    intros E. rewrite E in Hcut. change (len (@nil Finding)) with 0 in Hcut. lia.
Qed.

(** For an error as the validation library builds it nothing panics, there is
    a finding per leaf of its tree of causes, so at least one, and never more
    than the limit and the line that counts the rest. *)
Theorem fromSchemaError_total e target opts :
  well_formed e = true →
  ∃ out, fromSchemaError e target opts = Ok out ∧ out ≠ [] ∧
    (MaxErrors opts ≤ 0 ∨ len (leaves e) ≤ MaxErrors opts → length out = length (leaves e)) ∧
    (0 < MaxErrors opts → len out ≤ MaxErrors opts + 1).
Proof. exact (fromSchemaError_findings e target opts). Qed.
End trees.

Definition sample_error : SchemaError string :=
  MkSchemaError "waf://schema/pets" [] None
    [MkSchemaError "waf://schema/pets#/a" ["a"] (Some "type") [];
     MkSchemaError "waf://schema/pets#/b" ["b"; "0"] (Some "minimum") []].

Theorem fromSchemaError_total_witness :
  well_formed sample_error = true ∧
  ∃ out, fromSchemaError (λ k, [k]) id id (λ _, Ok "") sample_error TargetBody
           {| MaxErrors := 1; Paths := true; HashValues := false; document := None |} = Ok out ∧
    out ≠ [] ∧ (1 ≤ 0 ∨ 2 ≤ 1 → length out = 2%nat) ∧ (0 < 1 → len out ≤ 1 + 1).
Proof.
  split; [reflexivity|].
  exact (fromSchemaError_total (λ k, [k]) id id (λ _, Ok "") sample_error TargetBody
    {| MaxErrors := 1; Paths := true; HashValues := false; document := None |} eq_refl).
Defined.
