(* ===== verification/Decide.v ===== *)
(** * internal/decide: from an outcome to a decision

    [From] turns the outcome of validation into a verdict under the phase's
    policy, [Fire] and [FireOverload] collect the asks and list writes of the
    outcomes that match it, and [EvaluatePrior] weighs the asks of earlier
    inspectors. Names shared with package config or protocol are qualified. *)
From Stdlib Require Import QArith Qround Qabs Lqa.
From S2P Require Import Prelude GoString GoFloat Protocol Profile Findings.
Open Scope Z_scope.

Definition CodeMismatch := "JSON_SCHEMA_MISMATCH".
Definition CodeUnparsable := "JSON_UNPARSABLE".
Definition CodeTruncated := "JSON_BODY_TRUNCATED".
Definition CodeTooLarge := "JSON_BODY_TOO_LARGE".
Definition CodeTooDeep := "JSON_TOO_DEEP".
Definition CodeUnknownOperation := "JSON_UNKNOWN_OPERATION".
Definition CodeContentType := "JSON_CONTENT_TYPE".
Definition CodeStatus := "JSON_STATUS_UNDECLARED".
Definition CodeBodyUnavailable := "JSON_BODY_UNAVAILABLE".
Definition CodeArgsUnavailable := "JSON_ARGS_UNAVAILABLE".
Definition CodeFrameOpcode := "JSON_FRAME_OPCODE".
Definition CodeObserve := "JSON_OBSERVE".
Definition CodeUnknownProfile := "JSON_UNKNOWN_PROFILE".
Definition CodeSkipped := "JSON_SKIPPED".
Definition CodePhaseNotSupported := "JSON_PHASE_NOT_SUPPORTED".
Definition CodePhaseDisabled := "JSON_PHASE_DISABLED".
Definition CodeProfileOff := "JSON_PROFILE_OFF".
Definition CodeInternalError := "JSON_INTERNAL_ERROR".
Definition CodeStoreUnavailable := "JSON_STORE_UNAVAILABLE".
Definition CodeGeoUnavailable := "JSON_GEO_UNAVAILABLE".
Definition CodeMalformedRequest := "JSON_MALFORMED_REQUEST".
Definition CodeUnsupportedVersion := "JSON_UNSUPPORTED_VERSION".

(** The outcomes of validation; the first five are those of package schema. *)
Definition OutcomeOK := Findings.OutcomeOK.
Definition OutcomeMismatch := Findings.OutcomeMismatch.
Definition OutcomeUnknownOperation := Findings.OutcomeUnknownOperation.
Definition OutcomeContentType := Findings.OutcomeContentType.
Definition OutcomeStatus := Findings.OutcomeStatus.
Definition OutcomeUnparsable := "unparsable".
Definition OutcomeTruncated := "truncated".
Definition OutcomeTooLarge := "too_large".
Definition OutcomeTooDeep := "too_deep".
Definition OutcomeBodyUnavailable := "body_unavailable".
Definition OutcomeArgsUnavailable := "args_unavailable".
Definition OutcomeOpcode := "opcode".

(** [Decision] of the code; the name is taken by stdpp. *)
Record decision := {
  Verdict : string; Decision_Score : Z; Decision_Code : string; DenyResponse : string;
  WouldVerdict : string; WouldScore : Z; WouldCode : string
}.

(** [decide.Phase]: the policy of one phase of a profile. *)
Record PhasePolicy := {
  Phase_Mode : string; Rules : gmap string Rule;
  Phase_DenyResponse : string; Outcomes : list Outcome
}.

Fixpoint rules_into (out : gmap string Rule) (list : list NamedRule) : gmap string Rule :=
  match list with
  | [] => out
  | (outcome, rule) :: list => rules_into (<[outcome := rule]> out) list
  end.
Definition rulesOf (list : list NamedRule) : gmap string Rule := rules_into ∅ list.

Definition RequestPhase (p : Profile) : PhasePolicy := {|
  Phase_Mode := Mode p; Rules := rulesOf (RequestRules_Rules (Req_Policy (Profile_Request p)));
  Phase_DenyResponse := Req_DenyResponse (Profile_Request p);
  Outcomes := Req_Outcomes (Profile_Request p)
|}.

Definition ResponsePhase (p : Profile) : PhasePolicy := {|
  Phase_Mode := Mode p; Rules := rulesOf (ResponsePhase_Rules (Profile_Response p));
  Phase_DenyResponse := Resp_DenyResponse (Profile_Response p);
  Outcomes := Resp_Outcomes (Profile_Response p)
|}.

Definition FramePhase (p : Profile) (direction : string) : PhasePolicy :=
  let dir := Direction (Profile_Frame p) direction in {|
  Phase_Mode := Mode p; Rules := rulesOf (FrameRules_Rules (Dir_Policy dir));
  Phase_DenyResponse := Dir_DenyResponse dir; Outcomes := Dir_Outcomes dir
|}.

Definition policy (outcome : string) : string * string :=
  if outcome =s? OutcomeMismatch then (OutcomeInvalid, CodeMismatch)
  else if outcome =s? OutcomeTooDeep then (OutcomeInvalid, CodeTooDeep)
  else if outcome =s? OutcomeUnparsable then (Profile.OutcomeUnparsable, CodeUnparsable)
  else if outcome =s? OutcomeTruncated then (Profile.OutcomeTruncated, CodeTruncated)
  else if outcome =s? OutcomeTooLarge then (Profile.OutcomeTruncated, CodeTooLarge)
  else if outcome =s? OutcomeUnknownOperation
  then (Profile.OutcomeUnknownOperation, CodeUnknownOperation)
  else if outcome =s? OutcomeContentType then (Profile.OutcomeContentType, CodeContentType)
  else if outcome =s? OutcomeStatus then (Profile.OutcomeStatus, CodeStatus)
  else if outcome =s? OutcomeBodyUnavailable then (OutcomeUnavailable, CodeBodyUnavailable)
  else if outcome =s? OutcomeArgsUnavailable then (OutcomeUnavailable, CodeArgsUnavailable)
  else if outcome =s? OutcomeOpcode then (Profile.OutcomeOpcode, CodeFrameOpcode)
  else ("", "").

(** What a map lookup gives for a key that is not there. *)
Definition zero_rule : Rule := {| Rule_Action := ""; Rule_Score := 0 |}.

Definition allowed (code : string) : decision := {|
  Verdict := VerdictAllow; Decision_Score := 0; Decision_Code := code; DenyResponse := "";
  WouldVerdict := ""; WouldScore := 0; WouldCode := ""
|}.

(** The decision before the mode is looked at. *)
Definition enforced (ph : PhasePolicy) (outcome : string) : decision :=
  let '(key, code) := policy outcome in
  let rule := default zero_rule (Rules ph !! key) in
  if Rule_Action rule =s? ActionDeny then
    {| Verdict := VerdictDeny; Decision_Score := 0; Decision_Code := code;
       DenyResponse := Phase_DenyResponse ph;
       WouldVerdict := ""; WouldScore := 0; WouldCode := "" |}
  else if Rule_Action rule =s? ActionScore then
    {| Verdict := VerdictScore; Decision_Score := Rule_Score rule; Decision_Code := code;
       DenyResponse := ""; WouldVerdict := ""; WouldScore := 0; WouldCode := "" |}
  else allowed code.

Definition From (ph : PhasePolicy) (outcome : string) : decision :=
  if outcome =s? OutcomeOK then allowed ""
  else
    let d := enforced ph outcome in
    if (Phase_Mode ph =s? ModeObserve) && negb (Verdict d =s? VerdictAllow) then
      {| Verdict := VerdictAllow; Decision_Score := 0; Decision_Code := CodeObserve;
         DenyResponse := ""; WouldVerdict := Verdict d; WouldScore := Decision_Score d;
         WouldCode := Decision_Code d |}
    else d.

(** ** Outcomes that fire *)

Record Ban := {
  Dataset : string; Ban_Write : string; Addr : string; Ban_TTL : Z; Ban_Reason : string
}.

Record Fired := { Actions : list Action; Bans : list Ban; Names : list string }.

Definition no_fired : Fired := {| Actions := []; Bans := []; Names := [] |}.

Definition reason (o : Outcome) (code : string) : string :=
  if negb (is_empty (Code o)) then Code o else code.

Definition outcomeName (o : Outcome) : string := if Asks o then Do o else List o.

Section fire.
Context `{Unicode}.

Definition archive_on (o : Outcome) : bool :=
  (Do o =s? DoArchive) && (Outcome_Set o =s? "on").

Definition ask (o : Outcome) (code : string) : Action := {|
  Action_To := To o; Action_Do := Do o; Action_Apply := Axis o; Action_Phase := Outcome_Phase o;
  Action_Code := reason o code;
  Action_Delta := default 0 (Delta o); Action_Value := default 0 (Outcome_Value o);
  Action_Counter := Counter o; Action_Marker := Marker o; Action_Group := Group o;
  Action_Set := Outcome_Set o;
  Action_TTL := if archive_on o && (0 <? TTL o) then Some (TTL o) else None;
  Action_When :=
    if archive_on o && (0 <? len (When o)) then
      match CheckArchiveWhen (When o) with Ok w => w | Err _ => [] end
    else [];
  Action_Headers := Outcome_Headers o; Action_Args := Outcome_Args o;
  Action_Body := Outcome_Body o
|}.

Definition ban (o : Outcome) (addr code : string) : Ban := {|
  Dataset := List o; Ban_Write := Subject o; Addr := addr; Ban_TTL := TTL o;
  Ban_Reason := reason o code
|}.

(** One turn of the loop: nothing, an ask, or a ban when there is an address. *)
Definition fire_one (matches : bool) (addr code : string) (out : Fired) (o : Outcome) : Fired :=
  if negb matches then out
  else if Asks o then
    {| Actions := Actions out ++ [ask o code]; Bans := Bans out;
       Names := Names out ++ [outcomeName o] |}
  else if is_empty addr then out
  else
    {| Actions := Actions out; Bans := Bans out ++ [ban o addr code];
       Names := Names out ++ [outcomeName o] |}.

(** The decision the outcomes are matched against: what would have been. *)
Definition effective_of (d : decision) : string * Z * string :=
  if negb (is_empty (WouldVerdict d)) then (WouldVerdict d, WouldScore d, WouldCode d)
  else (Verdict d, Decision_Score d, Decision_Code d).

Definition Fire (ph : PhasePolicy) (d : decision) (addr : string) : Fired :=
  if is_nil (Outcomes ph) then no_fired
  else
    let '(verdict, score, code) := effective_of d in
    foldl (λ out o, fire_one (Matches o verdict score) addr code out o) no_fired (Outcomes ph).

Definition overload_matches (fill : Z) (shed : bool) (o : Outcome) : bool :=
  (On o =s? OnOverload) && overload_Fires (overload_At (At o)) fill shed.

Definition FireOverload (outcomes : list Outcome) (fill : Z) (shed : bool) (addr code : string)
    : Fired :=
  foldl (λ out o, fire_one (overload_matches fill shed o) addr code out o) no_fired outcomes.
End fire.

(** ** The asks of earlier inspectors *)

Definition PercentMin : Z := -100.
Definition PercentMax : Z := 900.

Definition OutcomeApplied := "applied".
Definition OutcomeNoRule := "no_rule".

Record ActionOutcome := {
  AO_From : string; AO_Do : string; AO_Apply : string; AO_Code : string;
  AO_Delta : Z; AO_Value : Z; Took : Z; AO_Outcome : string
}.

Record Ask := { Skip : bool; Percent : Z; Ask_Outcomes : list ActionOutcome }.

(** [ActionOutcome.apply] *)
Definition apply (o : ActionOutcome) (took : Z) : ActionOutcome := {|
  AO_From := AO_From o; AO_Do := AO_Do o; AO_Apply := AO_Apply o; AO_Code := AO_Code o;
  AO_Delta := AO_Delta o; AO_Value := AO_Value o;
  Took := wrap64 (Took o + took); AO_Outcome := OutcomeApplied
|}.

Definition rule_takes (from : string) (act : Action) (r : PriorRule) : bool :=
  (Profile.From r =s? from) &&
  (Accepts r (Action_Do act) && WantsAxis r (Scope act) && WantsCode r (Action_Code act)).

(** The loop over the rules, on what [deliver] keeps: [Skip], [Percent], the outcome. *)
Fixpoint deliver_rules (from : string) (act : Action) (rules : list PriorRule)
    (skip : bool) (percent : Z) (out : ActionOutcome) : bool * Z * ActionOutcome :=
  match rules with
  | [] => (skip, percent, out)
  | r :: rules =>
      if negb (rule_takes from act r) then deliver_rules from act rules skip percent out
      else if Action_Do act =s? DoSkip then
        deliver_rules from act rules true percent (apply out 0)
      else if Action_Do act =s? DoThreshold then
        deliver_rules from act rules skip (wrap64 (percent + Action_Delta act))
          (apply out (Action_Delta act))
      else deliver_rules from act rules skip percent out
  end.

Definition deliver (a : Ask) (from : string) (act : Action) (rules : list PriorRule) : Ask :=
  let out := {|
    AO_From := from; AO_Do := Action_Do act; AO_Apply := Scope act; AO_Code := Action_Code act;
    AO_Delta := Action_Delta act; AO_Value := Action_Value act; Took := 0;
    AO_Outcome := OutcomeNoRule |} in
  let '(skip, percent, out) := deliver_rules from act rules (Skip a) (Percent a) out in
  {| Skip := skip; Percent := percent; Ask_Outcomes := Ask_Outcomes a ++ [out] |}.

Definition no_ask : Ask := {| Skip := false; Percent := 0; Ask_Outcomes := [] |}.

Definition deliver_all (entries : list PriorVerdict) (rules : list PriorRule) : Ask :=
  foldl (λ a v, foldl (λ a act, deliver a (PriorVerdict_Inspector v) act rules) a
                  (PriorVerdict_Actions v)) no_ask entries.

Definition EvaluatePrior (entries : list PriorVerdict) (rules : list PriorRule) : Ask :=
  let a := deliver_all entries rules in
  let percent := if Percent a <? PercentMin then PercentMin else Percent a in
  let percent := if PercentMax <? percent then PercentMax else percent in
  {| Skip := Skip a; Percent := percent; Ask_Outcomes := Ask_Outcomes a |}.

Definition ScaleScore (score percent : Z) : Z :=
  if (percent =? 0) || (score <=? 0) then Z.max score 0
  else
    let scaled := Round (fmul (of_int score) (fadd (of_int 1) (fdiv (of_int percent) (of_int 100)))) in
    let scaled := if scaled <? 0 then 0 else scaled in
    Z.min scaled 100.

(** ** Decisions *)

Definition with_mode (mode : string) (ph : PhasePolicy) : PhasePolicy := {|
  Phase_Mode := mode; Rules := Rules ph; Phase_DenyResponse := Phase_DenyResponse ph;
  Outcomes := Outcomes ph
|}.

(** C22. Under the observe mode the verdict is always to allow, with no score and no
    response page, and what the enforce mode would have decided is kept aside:
    exactly that decision, unless it was to allow. *)
Theorem From_observe ph outcome :
  Phase_Mode ph = ModeObserve →
  let d := From ph outcome in
  let e := From (with_mode ModeEnforce ph) outcome in
  Verdict d = VerdictAllow ∧ Decision_Score d = 0 ∧ DenyResponse d = "" ∧
  (Verdict e = VerdictAllow → d = e) ∧
  (Verdict e ≠ VerdictAllow →
   Decision_Code d = CodeObserve ∧ WouldVerdict d = Verdict e ∧
   WouldScore d = Decision_Score e ∧ WouldCode d = Decision_Code e).
Proof.
  intros Hm. unfold From. destruct (outcome =s? OutcomeOK); [done|].
  change (enforced (with_mode ModeEnforce ph) outcome) with (enforced ph outcome).
  change (Phase_Mode (with_mode ModeEnforce ph) =s? ModeObserve) with false.
  rewrite Hm. change (ModeObserve =s? ModeObserve) with true. cbn [andb].
  destruct (String.eqb_spec (Verdict (enforced ph outcome)) VerdictAllow) as [E|N]; cbn [negb]; [|done].
  split_and!; [done| | |done|done]; revert E; unfold enforced;
    destruct (policy outcome) as [key code];
    repeat (destruct (_ =s? _)); done.
Qed.

(** The outcomes each phase can end with, besides the two of the body's state. *)
Definition body_outcomes : list string :=
  [OutcomeMismatch; OutcomeTooDeep; OutcomeUnparsable; OutcomeTruncated; OutcomeTooLarge;
   OutcomeUnknownOperation; OutcomeBodyUnavailable].
Definition request_outcomes : list string :=
  OutcomeContentType :: OutcomeArgsUnavailable :: body_outcomes.
Definition response_outcomes : list string :=
  OutcomeContentType :: OutcomeStatus :: body_outcomes.
Definition frame_outcomes : list string := OutcomeOpcode :: body_outcomes.

(** What a decision of a phase with sound rules looks like. *)
Definition decision_ok (d : decision) : Prop :=
  Verdict d = VerdictAllow ∧ Decision_Score d = 0 ∧ DenyResponse d = "" ∨
  Verdict d = VerdictScore ∧ 0 ≤ Decision_Score d ≤ 100 ∧ DenyResponse d = "" ∧ WouldVerdict d = "" ∨
  Verdict d = VerdictDeny ∧ Decision_Score d = 0 ∧ DenyResponse d ≠ "" ∧ WouldVerdict d = "".

Lemma rules_into_lookup list out key :
  rules_into out list !! key =
  match rules_into ∅ list !! key with Some r => Some r | None => out !! key end.
Proof.
  revert out. induction list as [|[o r] list IH]; intros out; cbn.
  - by rewrite lookup_empty.
  - rewrite IH, (IH (<[o := r]> ∅)). destruct (rules_into ∅ list !! key); [done|].
    destruct (decide (o = key)) as [->|Hne].
    + by rewrite !lookup_insert_eq.
    + by rewrite !lookup_insert_ne, lookup_empty by done.
Qed.

Lemma rulesOf_in list key r : rulesOf list !! key = Some r → (key, r) ∈ list.
Proof.
  unfold rulesOf. induction list as [|[o r'] list IH]; cbn; [by rewrite lookup_empty|].
  rewrite rules_into_lookup, elem_of_cons. destruct (rules_into ∅ list !! key) eqn:E.
  - intros [= ->]. right. by apply IH.
  - destruct (decide (o = key)) as [->|Hne].
    + rewrite lookup_insert_eq. intros [= ->]. by left.
    + by rewrite lookup_insert_ne, lookup_empty.
Qed.

Lemma From_rules_ok mode list deny outs outcome :
  rules_ok list deny →
  decision_ok (From {| Phase_Mode := mode; Rules := rulesOf list; Phase_DenyResponse := deny;
                       Outcomes := outs |} outcome).
Proof.
  intros [Hall Hdeny]. unfold From. destruct (outcome =s? OutcomeOK); [by left|].
  unfold enforced. destruct (policy outcome) as [key code]. cbn [Rules Phase_Mode Phase_DenyResponse].
  destruct (rulesOf list !! key) as [r|] eqn:E; cbn [default].
  - apply rulesOf_in in E. rewrite Forall_forall in Hall. destruct (Hall _ E) as [_ Hs].
    cbn in Hs. unfold decision_ok. cbv zeta. change (id r) with r.
    destruct (String.eqb_spec (Rule_Action r) ActionDeny) as [Ed|Nd].
    + cbn [Verdict]. change (VerdictDeny =s? VerdictAllow) with false.
      destruct (mode =s? ModeObserve); cbn; [by left|]. right. right. split_and!; try done.
      apply Hdeny, Exists_exists. by exists (key, r).
    + destruct (Rule_Action r =s? ActionScore); cbn [Verdict allowed];
        [|change (VerdictAllow =s? VerdictAllow) with true; cbn; rewrite andb_false_r; by left].
      change (VerdictScore =s? VerdictAllow) with false.
      destruct (mode =s? ModeObserve); cbn; [by left|]. right. left. split_and!; done || lia.
  - cbv zeta. change (Rule_Action (default zero_rule None) =s? ActionDeny) with false.
    change (Rule_Action (default zero_rule None) =s? ActionScore) with false. cbv iota.
    change (negb (Verdict (allowed code) =s? VerdictAllow)) with false.
    rewrite andb_false_r. by left.
Qed.

Section decisions.
Context `{Unicode}.

Lemma validated_decision p direction outcome :
  Validate p = Ok tt → Mode p ≠ ModeOff →
  (Req_Enabled (Profile_Request p) = true → decision_ok (From (RequestPhase p) outcome)) ∧
  (Resp_Enabled (Profile_Response p) = true → decision_ok (From (ResponsePhase p) outcome)) ∧
  (Frame_Enabled (Profile_Frame p) = true →
   decision_ok (From (FramePhase p direction) outcome)).
Proof.
  intros Hv Hoff. apply Validate_profile_ok in Hv as (_ & _ & _ & [?|Ha]); [done|].
  destruct Ha as (_ & _ & (Hreq & Hresp & Hframe) & _).
  split_and!; intros E.
  - apply From_rules_ok. auto.
  - apply From_rules_ok. auto.
  - destruct (Hframe E) as [Hc Hs]. unfold FramePhase, Direction.
    destruct (direction =s? DirectionS2C); by apply From_rules_ok.
Qed.

(** In the observe mode the verdict is allow; otherwise nothing is kept of what would
    have been. *)
Definition by_mode (mode : string) (d : decision) : Prop :=
  if decide (mode = ModeObserve) then Verdict d = VerdictAllow
  else WouldVerdict d = "" ∧ WouldScore d = 0 ∧ WouldCode d = "".

Lemma From_by_mode ph outcome : by_mode (Phase_Mode ph) (From ph outcome).
Proof.
  unfold by_mode, From, enforced. destruct (outcome =s? OutcomeOK); [by case_decide|].
  destruct (policy outcome) as [key code]. destruct (String.eqb_spec (Phase_Mode ph) ModeObserve);
    [rewrite decide_True by done|rewrite decide_False by done]; cbn [andb].
  - destruct (Verdict _ =s? VerdictAllow) eqn:E; cbn [negb]; [by apply seqb_eq in E|done].
  - set (r := default _ _). by destruct (Rule_Action r =s? ActionDeny), (Rule_Action r =s? ActionScore).
Qed.

(** C21. The phases of a profile that is validated and not off, each when enabled:
    the verdict is allow, score or deny; a score is within 0..100; a denial names
    a response. In the observe mode the verdict is always allow; in the enforce mode
    it is what the policy says, with nothing noted of what would have been. *)
Theorem From_validated p direction outcome :
  Validate p = Ok tt → Mode p ≠ ModeOff →
  let fine d := decision_ok d ∧
    (Mode p = ModeObserve ∧ Verdict d = VerdictAllow ∨
     Mode p = ModeEnforce ∧ WouldVerdict d = "" ∧ WouldScore d = 0 ∧ WouldCode d = "") in
  (Req_Enabled (Profile_Request p) = true → fine (From (RequestPhase p) outcome)) ∧
  (Resp_Enabled (Profile_Response p) = true → fine (From (ResponsePhase p) outcome)) ∧
  (Frame_Enabled (Profile_Frame p) = true → fine (From (FramePhase p direction) outcome)).
Proof.
  intros Hv Hoff fine. destruct (validated_decision p direction outcome Hv Hoff) as (H1 & H2 & H3).
  assert (∀ ph, Phase_Mode ph = Mode p → decision_ok (From ph outcome) → fine (From ph outcome)) as Hfine.
  { intros ph Hm Hd. split; [done|]. pose proof (From_by_mode ph outcome) as Hb. unfold by_mode in Hb.
    rewrite Hm in Hb. apply Validate_profile_ok in Hv as ([E|[E|?]] & _); [right|left|done].
    - rewrite E in Hb. by rewrite decide_False in Hb.
    - by rewrite decide_True in Hb. }
  split_and!; intros E; apply Hfine; auto.
Qed.
End decisions.

(** Each outcome a phase can end with has its rule in that phase's table: no
    outcome falls to the default of the switch, to allow, for want of a rule. *)
Theorem policy_covered p direction :
  Forall (λ o, is_Some (Rules (RequestPhase p) !! (policy o).1)) request_outcomes ∧
  Forall (λ o, is_Some (Rules (ResponsePhase p) !! (policy o).1)) response_outcomes ∧
  Forall (λ o, is_Some (Rules (FramePhase p direction) !! (policy o).1)) frame_outcomes.
Proof. split_and!; repeat constructor; eexists; reflexivity. Qed.

(** ** What fires *)

Section fired.
Context `{Unicode}.

Lemma fire_loop (m : Outcome → bool) addr code outs : ∀ out,
  let r := foldl (λ out o, fire_one (m o) addr code out o) out outs in
  Actions r = (Actions out ++ ((λ o, ask o code) <$> filter (λ o, m o && Asks o = true) outs))%list ∧
  Bans r = (Bans out ++ ((λ o, ban o addr code) <$>
    filter (λ o, m o && negb (Asks o) && negb (is_empty addr) = true) outs))%list ∧
  Names r = (Names out ++ (outcomeName <$>
    filter (λ o, m o && (Asks o || negb (is_empty addr)) = true) outs))%list.
Proof.
  induction outs as [|o outs IH]; intros out r; subst r; cbn [foldl].
  { rewrite !filter_nil. cbn. by rewrite !app_nil_r. }
  destruct (IH (fire_one (m o) addr code out o)) as (-> & -> & ->).
  rewrite !filter_cons. unfold fire_one.
  destruct (m o), (Asks o), (is_empty addr); cbn; rewrite <- ?app_assoc; done.
Qed.

(** C40. Of the outcomes of a phase, those whose trigger matches the decision fire,
    each once and in their order: the asks become the actions; the list writes
    become bans, and only when the client has an address. The decision matched
    is the one that would have been taken, when the mode only observes. *)
Theorem Fire_spec ph d addr :
  let '(verdict, score, code) := effective_of d in
  let hit o := Matches o verdict score in
  let f := Fire ph d addr in
  Actions f = (λ o, ask o code) <$> filter (λ o, hit o && Asks o = true) (Outcomes ph) ∧
  Bans f = (λ o, ban o addr code) <$>
    filter (λ o, hit o && negb (Asks o) && negb (is_empty addr) = true) (Outcomes ph) ∧
  Names f = outcomeName <$>
    filter (λ o, hit o && (Asks o || negb (is_empty addr)) = true) (Outcomes ph).
Proof.
  unfold Fire. destruct (effective_of d) as [[verdict score] code]. cbn zeta.
  destruct (is_nil (Outcomes ph)) eqn:E.
  - apply is_nil_true in E. by rewrite E.
  - exact (fire_loop (λ o, Matches o verdict score) addr code (Outcomes ph) no_fired).
Qed.

(** The same for the overload outcomes, against the fill of the queue. *)
Theorem FireOverload_spec outs fill shed addr code :
  let hit := overload_matches fill shed in
  let f := FireOverload outs fill shed addr code in
  Actions f = (λ o, ask o code) <$> filter (λ o, hit o && Asks o = true) outs ∧
  Bans f = (λ o, ban o addr code) <$>
    filter (λ o, hit o && negb (Asks o) && negb (is_empty addr) = true) outs ∧
  Names f = outcomeName <$>
    filter (λ o, hit o && (Asks o || negb (is_empty addr)) = true) outs.
Proof. exact (fire_loop (overload_matches fill shed) addr code outs no_fired). Qed.

(** ** The asks a validated outcome makes *)

(** A well-formed action on the bus. *)
Definition action_ok (a : Action) : Prop :=
  (∃ axes, outcomeVerbs (Action_Do a) = Some axes ∧ Action_Apply a ∈ axes) ∧
  -100 ≤ Action_Delta a ≤ 900 ∧ -100 ≤ Action_Value a ≤ 100 ∧
  (Action_Do a = DoThreshold → Action_Delta a ≠ 0) ∧
  (Action_Do a = DoNote ∨ Action_Do a = DoScore → Action_Value a ≠ 0) ∧
  (controlVerb (Action_Do a) = true → Action_To a ≠ "" ∧ Action_To a ≠ "*") ∧
  (Action_Phase a ≠ "" → controlVerb (Action_Do a) = true ∧
    Action_Phase a ∈ [PhaseRequest; PhaseResponse; PhaseFrame]) ∧
  (∀ t, Action_TTL a = Some t → 0 < t ∧ Action_Do a = DoArchive) ∧
  (Action_When a ≠ [] → Action_Do a = DoArchive) ∧
  Action_When a ∈ [[]; ["allow"]; ["deny"]; ["allow"; "deny"]].

Lemma Axis_in o axes :
  outcomeVerbs (Do o) = Some axes →
  (Apply o ≠ "" → has_string axes (Apply o) = true) →
  (Apply o = "" → len axes = 1 ∨ auditVerb (Do o) = true) → Axis o ∈ axes.
Proof.
  intros Hv Hin Hone. unfold Axis. rewrite Hv.
  destruct (is_empty (Apply o)) eqn:E; cbn [negb].
  - apply is_empty_true in E.
    assert ((len axes =? 1) || auditVerb (Do o) = true) as ->.
    { apply orb_true_iff. rewrite Z.eqb_eq. auto. }
    assert (axes ≠ []) as Hne.
    { intros ->. revert Hv. unfold outcomeVerbs. by repeat case_match. }
    destruct axes as [|a axes]; [done|]. apply elem_of_cons. by left.
  - apply is_empty_false in E. apply has_string_spec. auto.
Qed.

Lemma archive_when_cases w k :
  CheckArchiveWhen w = Ok k → k ∈ [[]; ["allow"]; ["deny"]; ["allow"; "deny"]].
Proof.
  unfold CheckArchiveWhen. destruct (archive_words [] w) as [seen|]; [|done].
  intros [= <-]. unfold ArchiveWhen. cbn [List.filter].
  destruct (has_string seen "allow"), (has_string seen "deny"); set_solver.
Qed.

Lemma opt_holds_default (o : option Z) lo hi :
  opt_holds o (λ d, (d <? lo) || (hi <? d)) = false → lo ≤ 0 ≤ hi → lo ≤ default 0 o ≤ hi.
Proof. destruct o as [d|]; cbn; [|done]. intros. guards. unfold id. lia. Qed.

Lemma nil_or_zero_default o : nil_or_zero o = false → default 0 o ≠ 0.
Proof. destruct o as [d|]; cbn; [|done]. intros. guards. done. Qed.
End fired.

Section asks.
Context `{Unicode}.

(** The facts a validated ask carries, as the next theorem uses them. *)
Lemma validated_ask o :
  validateOutcomeAsk o = Ok tt →
  (∃ axes, outcomeVerbs (Do o) = Some axes ∧ Axis o ∈ axes) ∧
  -100 ≤ default 0 (Delta o) ≤ 900 ∧ -100 ≤ default 0 (Outcome_Value o) ≤ 100 ∧
  (Do o = DoThreshold → default 0 (Delta o) ≠ 0) ∧
  (Do o = DoNote ∨ Do o = DoScore → default 0 (Outcome_Value o) ≠ 0) ∧
  (controlVerb (Do o) = true → To o ≠ "" ∧ To o ≠ "*") ∧
  checkPhaseAsk (Do o) (Outcome_Phase o) (Axis o) = Ok tt.
Proof.
  unfold validateOutcomeAsk. intros [_ Hv]%seq_ok.
  destruct (outcomeVerbs (Do o)) as [axes|] eqn:Ev; [|done].
  cbn [mbind result_bind] in Hv.
  repeat lazymatch type of Hv with
    | (?r;; ?k) = Ok _ => apply seq_ok in Hv as [?Hg Hv] end.
  clear Hv. rewrite ?fail_if_ok, ?wrapf_ok in *.
  assert (has_string [DoNote; DoScore] (Do o) = true → nil_or_zero (Outcome_Value o) = false).
  { rewrite has_string_spec, !elem_of_cons. intros [E|[E|E%not_elem_of_nil]]; [| |done];
      rewrite E in *; rewrite ?seqb_refl in *; cbn [andb] in *; [done|].
    match goal with H : (_;; _) = Ok tt |- _ => apply seq_ok in H as [_ H] end.
    by rewrite fail_if_ok in *. }
  split; [|split; [|split; [|split; [|split; [|split]]]]].
  - exists axes. split; [done|]. apply Axis_in; [done| |].
    + intros Hne. apply is_empty_false in Hne. rewrite Hne in *. cbn [negb andb] in *.
      by rewrite negb_false_iff in *.
    + intros He%is_empty_true. rewrite He in *. cbn [negb andb] in *. guards.
      destruct (decide (len axes = 1)); tauto.
  - by apply opt_holds_default.
  - by apply opt_holds_default.
  - intros E. apply nil_or_zero_default. rewrite E in *. by rewrite ?seqb_refl in *.
  - intros E. apply nil_or_zero_default. apply H0.
    rewrite has_string_spec, !elem_of_cons. tauto.
  - intros E. rewrite E in *. cbn [andb] in *. guards. tauto.
  - done.
Qed.

(** An ask that validation accepted goes on the bus well formed: the axis is one
    the verb takes, numbers are in range and present where the verb needs them, a
    control verb names its receiver, the phase and the archive fields belong to
    verbs that have them, and [when] is in its canonical order. *)
Theorem ask_ok o code : validateOutcomeAsk o = Ok tt → action_ok (ask o code).
Proof.
  intros Hv. destruct (validated_ask o Hv) as (Hax & Hd & Hval & Ht & Hn & Hc & Hp).
  unfold action_ok. cbn [ask Action_Do Action_Apply Action_Delta Action_Value Action_To
    Action_Phase Action_TTL Action_When].
  refine (conj Hax (conj Hd (conj Hval (conj Ht (conj Hn (conj Hc _)))))). split_and!.
  - unfold checkPhaseAsk in Hp. intros Hne%is_empty_false. rewrite Hne in Hp.
    destruct (controlVerb (Do o)); [|done]. split; [done|]. cbn [negb] in Hp.
    destruct (has_string _ _) eqn:E; [|done]. by apply has_string_spec in E.
  - intros t. unfold archive_on. destruct (_ && _) eqn:E; [|done]. intros [= <-].
    guards. tauto.
  - unfold archive_on. destruct (_ && _) eqn:E; [|done]. guards. tauto.
  - destruct (archive_on o && _); [|apply elem_of_cons; by left].
    destruct (CheckArchiveWhen (When o)) as [w|] eqn:E; [|apply elem_of_cons; by left].
    by apply archive_when_cases in E.
Qed.
End asks.

Definition sample_ask : Outcome := {|
  On := OnDeny; At := None; Below := false; Eq := false; To := ""; Do := DoArchive; Apply := "";
  Outcome_Phase := ""; Delta := None; Outcome_Value := None; Counter := ""; Group := "";
  Outcome_Set := "on"; Outcome_Headers := None; Outcome_Args := None; Outcome_Body := None;
  When := ["deny"; " Allow"]; Marker := ""; List := ""; Write := ""; TTL := 3600; Code := ""
|}.

Theorem ask_ok_witness :
  @validateOutcomeAsk ascii_tables sample_ask = Ok tt ∧
  Action_When (@ask ascii_tables sample_ask CodeMismatch) = ["allow"; "deny"] ∧
  action_ok (@ask ascii_tables sample_ask CodeMismatch).
Proof.
  split; [reflexivity|]. split; [reflexivity|].
  apply (@ask_ok ascii_tables sample_ask CodeMismatch). reflexivity.
Defined.

(** ** Prior asks *)

Lemma wrap64_add_l a b : wrap64 (wrap64 a + b) = wrap64 (a + b).
Proof.
  unfold wrap64. f_equal.
  replace ((a + 2 ^ 63) mod 2 ^ 64 - 2 ^ 63 + b + 2 ^ 63) with ((a + 2 ^ 63) mod 2 ^ 64 + b) by lia.
  rewrite Zplus_mod_idemp_l. f_equal. lia.
Qed.

Lemma wrap64_wrap64 a : wrap64 (wrap64 a) = wrap64 a.
Proof. apply wrap64_id, wrap64_range. Qed.

(** The rules of the list that take the action. *)
Definition takers (rules : list PriorRule) (from : string) (act : Action) : list PriorRule :=
  filter (λ r, rule_takes from act r = true) rules.

(** What one action adds to the percentage. *)
Definition contribution (rules : list PriorRule) (from : string) (act : Action) : Z :=
  if Action_Do act =s? DoThreshold then len (takers rules from act) * Action_Delta act else 0.

Definition own_verb (verb : string) : bool := (verb =s? DoSkip) || (verb =s? DoThreshold).

Lemma takers_cons r rules from act :
  takers (r :: rules) from act =
  if rule_takes from act r then r :: takers rules from act else takers rules from act.
Proof. unfold takers. rewrite filter_cons. by destruct (rule_takes from act r). Qed.

Lemma len_cons {A} (a : A) l : len (a :: l) = 1 + len l.
Proof. unfold len. cbn. lia. Qed.

Definition taken_outcome (rules : list PriorRule) (from : string) (act : Action)
    (out : ActionOutcome) : ActionOutcome :=
  let applied := own_verb (Action_Do act) && negb (is_nil (takers rules from act)) in {|
  AO_From := AO_From out; AO_Do := AO_Do out; AO_Apply := AO_Apply out; AO_Code := AO_Code out;
  AO_Delta := AO_Delta out; AO_Value := AO_Value out;
  Took := wrap64 (Took out + contribution rules from act);
  AO_Outcome := if applied then OutcomeApplied else AO_Outcome out
|}.

Lemma deliver_rules_spec from act rules : ∀ skip percent out,
  wrap64 percent = percent → wrap64 (Took out) = Took out →
  deliver_rules from act rules skip percent out =
  (skip || ((Action_Do act =s? DoSkip) && negb (is_nil (takers rules from act))),
   wrap64 (percent + contribution rules from act), taken_outcome rules from act out).
Proof.
  induction rules as [|r rules IH]; intros skip percent out Hp Ht.
  { unfold taken_outcome, contribution. cbn. rewrite !andb_false_r, orb_false_r.
    destruct (Action_Do act =s? DoThreshold); cbn; rewrite !Z.add_0_r, Hp, Ht; by destruct out. }
  cbn [deliver_rules]. unfold taken_outcome, contribution. rewrite takers_cons.
  destruct (rule_takes from act r) eqn:Er; cbn [negb];
    [|rewrite IH by done; reflexivity].
  unfold own_verb. destruct (String.eqb_spec (Action_Do act) DoSkip) as [Es|Ns].
  { rewrite IH by (done || apply wrap64_wrap64).
    unfold taken_outcome, contribution, own_verb. rewrite Es.
    change (DoSkip =s? DoThreshold) with false. change (DoSkip =s? DoSkip) with true. cbn.
    rewrite !Z.add_0_r, orb_true_r, wrap64_wrap64. f_equal. f_equal. by destruct (is_nil _). }
  destruct (String.eqb_spec (Action_Do act) DoThreshold) as [Et|Nt].
  - rewrite IH by apply wrap64_wrap64.
    unfold taken_outcome, contribution, own_verb. rewrite Et.
    change (DoThreshold =s? DoThreshold) with true.
    change (DoThreshold =s? DoSkip) with false. cbn [apply Took AO_Outcome AO_From AO_Do AO_Apply
      AO_Code AO_Delta AO_Value andb orb is_nil negb].
    rewrite !wrap64_add_l, len_cons.
    f_equal; [f_equal|]; [f_equal; lia|]. f_equal; [f_equal; lia|].
    by destruct (is_nil _).
  - rewrite IH by done. unfold taken_outcome, contribution, own_verb.
    rewrite (proj2 (seqb_neq _ _) Ns), (proj2 (seqb_neq _ _) Nt). done.
Qed.

(** The actions of the entries, each with its sender. *)
Definition sent (entries : list PriorVerdict) : list (string * Action) :=
  entries ≫= λ v, (λ act, (PriorVerdict_Inspector v, act)) <$> PriorVerdict_Actions v.

Definition new_outcome (from : string) (act : Action) : ActionOutcome := {|
  AO_From := from; AO_Do := Action_Do act; AO_Apply := Scope act; AO_Code := Action_Code act;
  AO_Delta := Action_Delta act; AO_Value := Action_Value act; Took := 0;
  AO_Outcome := OutcomeNoRule |}.

(** The whole of [EvaluatePrior] in closed form, before the clamp. *)
Definition asked_percent (rules : list PriorRule) (acts : list (string * Action)) : Z :=
  foldr (λ fa n, contribution rules fa.1 fa.2 + n) 0 acts.

Definition asks_skip (rules : list PriorRule) (fa : string * Action) : bool :=
  (Action_Do fa.2 =s? DoSkip) && negb (is_nil (takers rules fa.1 fa.2)).

Lemma deliver_loop rules acts : ∀ a,
  wrap64 (Percent a) = Percent a →
  foldl (λ a fa, deliver a fa.1 fa.2 rules) a acts = {|
    Skip := Skip a || existsb (asks_skip rules) acts;
    Percent := wrap64 (Percent a + asked_percent rules acts);
    Ask_Outcomes := Ask_Outcomes a ++
      ((λ fa, taken_outcome rules fa.1 fa.2 (new_outcome fa.1 fa.2)) <$> acts) |}.
Proof.
  induction acts as [|[from act] acts IH]; intros a Ha; cbn.
  { rewrite orb_false_r, app_nil_r, Z.add_0_r, Ha. by destruct a. }
  unfold deliver at 2. change ({| AO_From := from; AO_Do := Action_Do act; AO_Apply := Scope act;
    AO_Code := Action_Code act; AO_Delta := Action_Delta act; AO_Value := Action_Value act;
    Took := 0; AO_Outcome := OutcomeNoRule |}) with (new_outcome from act).
  rewrite deliver_rules_spec by done.
  rewrite IH by apply wrap64_wrap64. cbn [Skip Percent Ask_Outcomes].
  rewrite wrap64_add_l, <- app_assoc, <- orb_assoc, Z.add_assoc. done.
Qed.

Lemma deliver_all_sent rules entries : ∀ a,
  foldl (λ a v, foldl (λ a act, deliver a (PriorVerdict_Inspector v) act rules) a
                  (PriorVerdict_Actions v)) a entries =
  foldl (λ a fa, deliver a fa.1 fa.2 rules) a (sent entries).
Proof.
  unfold sent. induction entries as [|v entries IH]; intros a; cbn [foldl]; [done|].
  rewrite bind_cons, foldl_app, IH. f_equal.
  generalize (PriorVerdict_Actions v). intros acts. revert a.
  induction acts as [|act acts IHa]; intros a; [done|]. cbn. apply IHa.
Qed.

(** C34. [EvaluatePrior], in closed form. The percentage is within -100..900 whatever
    the senders ask; it is the sum of the deltas, each as often as rules take it,
    clamped, as long as that sum fits 64 bits. The phase is skipped exactly when a
    rule takes a skip. There is one record per action, in order, and it says
    applied exactly when a rule takes the action and the verb is one of the two. *)
Theorem EvaluatePrior_spec entries rules :
  let a := EvaluatePrior entries rules in
  let sum := asked_percent rules (sent entries) in
  PercentMin ≤ Percent a ≤ PercentMax ∧
  (int64 sum → Percent a = Z.max PercentMin (Z.min PercentMax sum)) ∧
  (Skip a = true ↔ ∃ from act r, (from, act) ∈ sent entries ∧ r ∈ rules ∧
     rule_takes from act r = true ∧ Action_Do act = DoSkip) ∧
  Forall2 (λ o fa, AO_From o = fa.1 ∧ AO_Do o = Action_Do fa.2 ∧
     (AO_Outcome o = OutcomeApplied ↔
      own_verb (Action_Do fa.2) = true ∧ ∃ r, r ∈ rules ∧ rule_takes fa.1 fa.2 r = true))
    (Ask_Outcomes a) (sent entries).
Proof.
  cbn zeta. unfold EvaluatePrior, deliver_all. rewrite deliver_all_sent.
  rewrite deliver_loop by done. cbn [Skip Percent Ask_Outcomes orb app no_ask].
  rewrite Z.add_0_l. set (sum := asked_percent rules (sent entries)).
  assert (∀ from act, negb (is_nil (takers rules from act)) = true ↔
    ∃ r, r ∈ rules ∧ rule_takes from act r = true) as Htake.
  { intros from act. rewrite negb_true_iff, is_nil_false. split.
    - intros Hne. destruct (takers rules from act) as [|r l] eqn:E; [done|].
      assert (r ∈ takers rules from act) as Hr by (rewrite E; by left).
      apply list_elem_of_filter in Hr as [? ?]. by exists r.
    - intros (r & Hin & Ht) E. assert (r ∈ takers rules from act) as Hr
        by by apply list_elem_of_filter. rewrite E in Hr. by apply not_elem_of_nil in Hr. }
  split; [|split; [|split]].
  - unfold PercentMin, PercentMax.
    destruct (Z.ltb_spec (wrap64 sum) (-100)); [done|].
    destruct (Z.ltb_spec 900 (wrap64 sum)); lia.
  - intros Hs%wrap64_id. rewrite Hs. unfold PercentMin, PercentMax.
    destruct (Z.ltb_spec sum (-100)); [change (900 <? -100) with false; cbv iota; lia|]. destruct (Z.ltb_spec 900 sum); lia.
  - rewrite existsb_exists. split.
    + intros ([from act] & Hin & [Hs Ht]%andb_true_iff). cbn in Hs, Ht. apply seqb_eq in Hs.
      apply Htake in Ht as (r & ? & ?). rewrite <- list_elem_of_In in Hin.
      by exists from, act, r.
    + intros (from & act & r & Hin & Hr & Ht & Hs). exists (from, act).
      rewrite <- list_elem_of_In. split; [done|]. unfold asks_skip. cbn [fst snd].
      rewrite Hs, seqb_refl. apply Htake. by exists r.
  - generalize (sent entries). intros acts. induction acts as [|[from act] acts IH]; [constructor|].
    constructor; [|done]. cbn [fst snd taken_outcome AO_From AO_Do AO_Outcome new_outcome].
    split; [done|]. split; [done|]. rewrite <- Htake.
    destruct (own_verb _), (negb _); cbn; split; try done; by intros [? ?].
Qed.

Lemma Percent_range entries rules : PercentMin ≤ Percent (EvaluatePrior entries rules) ≤ PercentMax.
Proof.
  unfold EvaluatePrior. cbn [Percent]. generalize (Percent (deliver_all entries rules)). intros z.
  unfold PercentMin, PercentMax. destruct (Z.ltb_spec z (-100)); [done|].
  destruct (Z.ltb_spec 900 z); lia.
Qed.

(** The sum may leave 64 bits, and then the clamp sees the wrapped value: two
    requests to raise the threshold, of 2^63-1 and of 1, lower it to the minimum. *)
Lemma EvaluatePrior_wraps :
  let act delta := {|
    Action_To := ""; Action_Do := DoThreshold; Action_Apply := ""; Action_Phase := "";
    Action_Code := ""; Action_Delta := delta; Action_Value := 0; Action_Counter := "";
    Action_Marker := ""; Action_Group := ""; Action_Set := ""; Action_TTL := None;
    Action_When := []; Action_Headers := None; Action_Args := None; Action_Body := None |} in
  Percent (EvaluatePrior
    [{| PriorVerdict_Phase := "request"; PriorVerdict_Inspector := "bot";
        PriorVerdict_Verdict := VerdictScore; PriorVerdict_Score := 0;
        PriorVerdict_Actions := [act int64_max; act 1] |}]
    [{| Profile.From := "bot"; Accept := [DoThreshold]; PriorRule_Apply := []; Codes := [] |}])
  = PercentMin.
Proof. reflexivity. Qed.

(** ** Scaling a score *)

(** [num / 100] rounded half up, for a float64 near it. *)
Lemma Round_near y num :
  0 ≤ num → ((num # 100) - (1#1000) <= y <= (num # 100) + (1#1000))%Q →
  Round y = (num + 50) / 100 ∨ ((num + 50) mod 100 = 0 ∧ Round y = (num + 50) / 100 - 1).
Proof.
  intros Hn Hy. pose proof (Z.div_mod (num + 50) 100 ltac:(lia)) as Hdm.
  pose proof (Z.mod_pos_bound (num + 50) 100 ltac:(lia)) as Hmod.
  set (e := (num + 50) / 100) in *. set (r := (num + 50) mod 100) in *.
  assert ((num # 100) == inject_Z e + (r # 100) - (1#2))%Q as Ht.
  { unfold Qminus, Qeq, inject_Z, Qplus, Qopp. cbn [Qnum Qden]. lia. }
  assert (0 <= r # 100)%Q as Hr0 by (unfold Qle; cbn; lia).
  assert (r # 100 <= 99 # 100)%Q as Hr99 by (unfold Qle; cbn; lia).
  assert (inject_Z (e + 1) == inject_Z e + 1)%Q as He1 by (rewrite inject_Z_plus; reflexivity).
  destruct (Qlt_le_dec y 0) as [Hneg|Hpos].
  - left. assert (num = 0) as H0.
    { destruct (decide (num = 0)) as [|Hne]; [done|exfalso].
      assert (1 # 100 <= num # 100)%Q by (unfold Qle; cbn; lia). lra. }
    unfold Round. destruct (Qle_bool 0 y) eqn:Eb; [apply Qle_bool_iff in Eb; lra|].
    assert (num # 100 == 0)%Q as Hz by (rewrite H0; reflexivity).
    rewrite (Qfloor_eq _ 0); [|change (inject_Z 0) with 0%Q; lra|change (inject_Z (0 + 1)) with 1%Q; lra].
    unfold e. by rewrite H0.
  - rewrite Round_nonneg by done. destruct (decide (r = 0)) as [Hr|Hr].
    + assert (r # 100 == 0)%Q as Hrz by (rewrite Hr; reflexivity).
      destruct (Qlt_le_dec (y + (1#2)) (inject_Z e)) as [Hlt|Hge].
      * right. split; [done|]. apply Qfloor_eq.
        -- assert (inject_Z (e - 1) == inject_Z e - 1)%Q as ->
             by (unfold Zminus; rewrite inject_Z_plus; reflexivity). lra.
        -- by replace (e - 1 + 1) with e by lia.
      * left. apply Qfloor_eq; [done|]. rewrite He1. lra.
    + left. assert (1 # 100 <= r # 100)%Q by (unfold Qle; cbn; lia).
      apply Qfloor_eq; [lra|]. rewrite He1. lra.
Qed.

Definition scaled (score percent : Z) : float64 :=
  fmul (of_int score) (fadd (of_int 1) (fdiv (of_int percent) (of_int 100))).

Lemma scaled_near score percent :
  0 < score ≤ 100 → -100 ≤ percent ≤ 900 →
  ((score * (100 + percent) # 100) - (1#1000) <= scaled score percent <=
   (score * (100 + percent) # 100) + (1#1000))%Q.
Proof.
  intros Hs Hp. unfold scaled, fmul, fadd, fdiv.
  pose proof (of_int_exact score ltac:(lia)) as Es.
  pose proof (of_int_exact percent ltac:(lia)) as Ep.
  pose proof (of_int_exact 1 ltac:(lia)) as E1.
  pose proof (of_int_exact 100 ltac:(lia)) as E100.
  set (a := Qdiv (of_int percent) (of_int 100)).
  assert (a == percent # 100)%Q as Ea.
  { unfold a. rewrite Ep, E100. unfold Qdiv, Qmult, Qinv, inject_Z, Qeq. cbn [Qnum Qden]. lia. }
  assert (- (1) <= percent # 100 <= 9)%Q as Hpq by (unfold Qle; cbn; lia).
  pose proof (round53_bounds a 4 ltac:(lia)) as Ba.
  specialize (Ba ltac:(rewrite Ea; change (inject_Z (2 ^ 4)) with 16%Q; lra)).
  change (1 # Z.to_pos (2 ^ (53 - 4)))%Q with (1 # 562949953421312)%Q in Ba.
  set (x1 := round53 a) in *. set (b := Qplus (of_int 1) x1).
  assert (b == 1 + x1)%Q as Eb by (unfold b; rewrite E1; reflexivity).
  pose proof (round53_bounds b 4 ltac:(lia)) as Bb.
  specialize (Bb ltac:(rewrite Eb; change (inject_Z (2 ^ 4)) with 16%Q; lra)).
  change (1 # Z.to_pos (2 ^ (53 - 4)))%Q with (1 # 562949953421312)%Q in Bb.
  set (x2 := round53 b) in *. set (c := Qmult (of_int score) x2).
  assert (c == inject_Z score * x2)%Q as Ec by (unfold c; by rewrite Es).
  assert (1 <= inject_Z score <= 100)%Q as Hsq.
  { change 1%Q with (inject_Z 1). change 100%Q with (inject_Z 100). rewrite <- !Zle_Qle. lia. }
  assert (x2 - (1 + (percent # 100)) <= 1 # 100000000)%Q as Hu by lra.
  assert (- (1 # 100000000) <= x2 - (1 + (percent # 100)))%Q as Hl by lra.
  assert (c == inject_Z score * (1 + (percent # 100)) +
    inject_Z score * (x2 - (1 + (percent # 100))))%Q as Ec2 by (rewrite Ec; ring).
  assert (inject_Z score * (1 + (percent # 100)) == score * (100 + percent) # 100)%Q as Et.
  { unfold Qeq, Qplus, Qmult, inject_Z. cbn [Qnum Qden]. lia. }
  assert (inject_Z score * (x2 - (1 + (percent # 100))) <= 1 # 1000000)%Q as Hcu by nra.
  assert (- (1 # 1000000) <= inject_Z score * (x2 - (1 + (percent # 100))))%Q as Hcl by nra.
  assert (0 <= score * (100 + percent) # 100)%Q as Ht0 by (unfold Qle; cbn; nia).
  assert (score * (100 + percent) # 100 <= 1000)%Q as Ht1 by (unfold Qle; cbn; nia).
  pose proof (round53_bounds c 10 ltac:(lia)) as Bc.
  specialize (Bc ltac:(rewrite Ec2, Et; change (inject_Z (2 ^ 10)) with 1024%Q; lra)).
  change (1 # Z.to_pos (2 ^ (53 - 10)))%Q with (1 # 8796093022208)%Q in Bc.
  lra.
Qed.

Lemma ScaleScore_near score percent :
  0 ≤ score ≤ 100 → -100 ≤ percent ≤ 900 →
  let num := score * (100 + percent) in
  let exact := (num + 50) / 100 in
  0 ≤ ScaleScore score percent ≤ 100 ∧
  (ScaleScore score percent = Z.min 100 exact ∨
   num mod 100 = 50 ∧ ScaleScore score percent = Z.min 100 (exact - 1)).
Proof.
  intros Hs Hp num exact. unfold ScaleScore.
  destruct (Z.eqb_spec percent 0) as [->|Hp0]; cbn [orb].
  { assert (exact = score) as -> by (unfold exact, num; rewrite Z.add_0_r;
      symmetry; apply (Z.div_unique _ _ _ 50); lia). split; [lia|left; lia]. }
  destruct (Z.leb_spec score 0) as [H0|H0].
  { assert (score = 0) as -> by lia. split; [lia|by left]. }
  fold (scaled score percent).
  assert (0 ≤ num) as Hn by (unfold num; nia).
  destruct (Round_near _ num Hn (scaled_near score percent ltac:(lia) Hp)) as [E|[Hm E]];
    fold exact in E; rewrite E.
  - assert (0 ≤ exact) by (unfold exact; apply Z.div_pos; lia).
    rewrite (proj2 (Z.ltb_ge exact 0)) by lia. split; [lia|left; lia].
  - pose proof (Z.div_mod (num + 50) 100 ltac:(lia)) as Hdm. fold exact in Hdm.
    rewrite (proj2 (Z.ltb_ge (exact - 1) 0)) by lia. split; [lia|right]. split; [|lia].
    symmetry. apply (Z.mod_unique _ _ (exact - 1)); lia.
Qed.

(** C35. Scaling is exact up to one point. With the score within 0..100 and the
    percentage within -100..900 the result is [score * (100 + percent) / 100],
    rounded to the nearest integer and at most 100; only where the exact quotient
    is halfway between two integers may float64 rounding bring the result one
    below the half rounded up. *)
Theorem ScaleScore_spec score percent :
  0 ≤ score ≤ 100 → -100 ≤ percent ≤ 900 →
  let num := score * (100 + percent) in
  let exact := (num + 50) / 100 in
  0 ≤ ScaleScore score percent ≤ 100 ∧
  (ScaleScore score percent = Z.min 100 exact ∨
   num mod 100 = 50 ∧ ScaleScore score percent = Z.min 100 (exact - 1)).
Proof. exact (ScaleScore_near score percent). Qed.

Theorem ScaleScore_spec_witness :
  (0 ≤ 70 ≤ 100) ∧ (-100 ≤ 35 ≤ 900) ∧ ScaleScore 70 35 = 95 ∧
  let num := 70 * (100 + 35) in
  let exact := (num + 50) / 100 in
  0 ≤ ScaleScore 70 35 ≤ 100 ∧
  (ScaleScore 70 35 = Z.min 100 exact ∨
   num mod 100 = 50 ∧ ScaleScore 70 35 = Z.min 100 (exact - 1)).
Proof.
  split; [lia|]. split; [lia|]. split; [reflexivity|].
  apply (ScaleScore_spec 70 35); lia.
Defined.

(** The case of a tie that comes out one below: 5 less 90 percent is one half,
    which [math.Round] would take to 1; the float64 product is below one half. *)
Lemma ScaleScore_tie : ScaleScore 5 (-90) = 0 ∧ (5 * (100 + -90) + 50) / 100 = 1.
Proof. split; reflexivity. Qed.

Definition observing : PhasePolicy := RequestPhase (with_schema (defaults "shop") ModeObserve).

Theorem From_observe_witness :
  Phase_Mode observing = ModeObserve ∧
  WouldVerdict (From observing OutcomeMismatch) = VerdictDeny ∧
  Verdict (From observing OutcomeMismatch) = VerdictAllow.
Proof.
  split; [reflexivity|]. split; [reflexivity|].
  exact (proj1 (From_observe observing OutcomeMismatch eq_refl)).
Defined.

Theorem From_validated_witness :
  let p := with_schema (defaults "shop") ModeEnforce in
  let q := with_schema (defaults "shop") ModeObserve in
  @Validate ascii_tables p = Ok tt ∧ @Validate ascii_tables q = Ok tt ∧
  Verdict (From (RequestPhase p) OutcomeTruncated) = VerdictDeny ∧
  decision_ok (From (RequestPhase p) OutcomeTruncated) ∧
  Verdict (From (RequestPhase q) OutcomeTruncated) = VerdictAllow.
Proof.
  split; [reflexivity|]. split; [reflexivity|]. split; [reflexivity|]. split.
  - apply (@From_validated ascii_tables (with_schema (defaults "shop") ModeEnforce) DirectionC2S
      OutcomeTruncated); [reflexivity|done|reflexivity].
  - destruct (@From_validated ascii_tables (with_schema (defaults "shop") ModeObserve) DirectionC2S
      OutcomeTruncated eq_refl) as [Hr _]; [done|].
    destruct (Hr eq_refl) as [_ [[_ E]|[E _]]]; [exact E|discriminate E].
Defined.
