(* ===== verification/Body.v ===== *)
(** * internal/body: loading what a locator points at

    A [Loader] fetches a blob from a store, decrypts it, and checks its digest.
    The store, the key source, SHA-256 and AES-GCM's [Open] are parameters. A
    store answers the same as long as one call of the loader lasts; a panic in
    one of the loads is the panic of the whole. *)
From S2P Require Import Prelude GoString Protocol Findings.

(** ** encoding/base64 *)

Definition base64_value (c : ascii) : option Z :=
  let z := code c in
  if between 65 90 c then Some (z - 65)
  else if between 97 122 c then Some (z - 71)
  else if between 48 57 c then Some (z + 4)
  else if z =? 43 then Some 62
  else if z =? 47 then Some 63
  else None.

Definition pad : ascii := "=".

Fixpoint base64_quads (l : list ascii) : option (list ascii) :=
  match l with
  | [] => Some []
  | a :: b :: c :: d :: l =>
      va ← base64_value a; vb ← base64_value b;
      let first := byte ((va * 4 + vb / 16) mod 256) in
      if Ascii.eqb c pad then
        if Ascii.eqb d pad && bool_decide (l = []) then Some [first] else None
      else
        vc ← base64_value c;
        let second := byte ((vb * 16 + vc / 4) mod 256) in
        if Ascii.eqb d pad then
          if bool_decide (l = []) then Some [first; second] else None
        else
          vd ← base64_value d;
          rest ← base64_quads l;
          Some (first :: second :: byte ((vc * 64 + vd) mod 256) :: rest)
  | _ => None
  end.

(** [base64.StdEncoding.DecodeString]: line ends are skipped. *)
Definition DecodeString (s : string) : option string :=
  of_bytes <$> base64_quads (List.filter (λ c, negb ((code c =? 10) || (code c =? 13))) (bytes s)).

(** ** The loader *)

Record Body := {
  Data : string; Body_Truncated : bool; Body_Unavailable : string; Fault : bool; SHA256 : string
}.

Definition Available (b : Body) : bool := is_empty (Body_Unavailable b).
Definition Failed (b : Body) : bool := Fault b.

(** The zero [Body], and the two literals that name a reason. *)
Definition no_body : Body := {|
  Data := ""; Body_Truncated := false; Body_Unavailable := ""; Fault := false; SHA256 := "" |}.
Definition absent_body (why : string) : Body := {|
  Data := ""; Body_Truncated := false; Body_Unavailable := why; Fault := false; SHA256 := "" |}.
Definition faulty_body (why : string) : Body := {|
  Data := ""; Body_Truncated := false; Body_Unavailable := why; Fault := true; SHA256 := "" |}.

Definition unavailableNoStore := "store_unconfigured".
Definition unavailableStoreError := "store_error".
Definition unavailableUnknownDrv := "unknown_driver".
Definition unavailableDecryptFail := "decrypt_failed".
Definition unavailableDigestFail := "digest_mismatch".

(** The interfaces [Store] and [MultiStore]: the second is there when the value
    has the method. [None] in the answer of [GetMany] is a nil slice. *)
Record BlobStore := {
  Get : string → string → string → result string;
  GetMany : option (string → string → list string → result (list (option string)))
}.

Record Loader := {
  store : option BlobStore;
  keys : option (string → result string)
}.

Section loader.
Context (sha256 : string → string).
(** [gcm_open key nonce raw]: [None] when authentication fails. *)
Context (gcm_open : string → string → string → option string).

(** [cipher.AEAD.Open] panics on a nonce that is not of 12 bytes. *)
Definition decrypt (l : Loader) (enc : Enc) (raw : string) : result string :=
  match keys l with
  | None => errorf "body is encrypted but no secret source is configured"
  | Some key_of =>
      if negb (Enc_Alg enc =s? "aes-256-gcm") then errorf "unsupported body encryption: %q"
      else
        key ← key_of (Enc_KID enc);
        if negb ((slen key =? 16) || (slen key =? 24) || (slen key =? 32))
        then errorf "crypto/aes: invalid key size %d"
        else
          match DecodeString (Enc_Nonce enc) with
          | None => errorf "illegal base64 data at input byte %d"
          | Some nonce =>
              if negb (slen nonce =? 12) then Err Panic
              else
                match gcm_open key nonce raw with
                | None => errorf "cipher: message authentication failed"
                | Some plain => Ok plain
                end
          end
  end.

(** The digest the content must have; empty when none is required. *)
Definition want_digest (loc : Locator) : string :=
  if negb (is_empty (Locator_ProcessedSHA256 loc)) then Locator_ProcessedSHA256 loc
  else if Locator_Truncated loc then "" else Locator_SHA256 loc.

Definition hex_digest (raw : string) : string := EncodeToString (sha256 raw).

(** [finish] after decryption. *)
Definition check_digest (loc : Locator) (raw : string) : Body :=
  let want := want_digest loc in
  let digest := hex_digest raw in
  if negb (is_empty want) && negb (want =s? digest) then faulty_body unavailableDigestFail
  else {| Data := raw; Body_Truncated := Locator_Truncated loc; Body_Unavailable := "";
          Fault := false; SHA256 := digest |}.

Definition finish (l : Loader) (loc : Locator) (raw : string) : result Body :=
  match Locator_Enc loc with
  | None => Ok (check_digest loc raw)
  | Some enc =>
      match decrypt l enc raw with
      | Err Panic => Err Panic
      | Err _ => Ok (faulty_body unavailableDecryptFail)
      | Ok plain => Ok (check_digest loc plain)
      end
  end.

(** What an error of the store makes of a body. *)
Definition store_failure (e : error) : Body :=
  if errors_is e ErrUnknownDriver then faulty_body unavailableUnknownDrv
  else faulty_body unavailableStoreError.

Definition Load (l : Loader) (loc : option Locator) : result Body :=
  match loc with
  | None => Ok no_body
  | Some loc =>
      if negb (is_empty (Locator_Unavailable loc)) then Ok (absent_body (Locator_Unavailable loc))
      else if negb (is_empty (Locator_Driver loc)) then
        match store l with
        | None => Ok (faulty_body unavailableNoStore)
        | Some s =>
            match Get s (Locator_Driver loc) (Locator_Store loc) (Locator_Key loc) with
            | Err e => Ok (store_failure e)
            | Ok raw => finish l loc raw
            end
        end
      else Ok no_body
  end.

(** The locals of [LoadMany]: the results written so far, the keys of the batch
    and the places they go, and the store the batch is for. *)
Record batch := Batch {
  out : list (result Body); batch_keys : list string; at_ : list nat;
  batch_driver : string; batch_store : string; batched : bool
}.

Definition fetched (loc : Locator) : bool :=
  is_empty (Locator_Unavailable loc) && negb (is_empty (Locator_Driver loc)).

(** One turn of the loop over the locators. *)
Definition collect (l : Loader) (i : nat) (loc : option Locator) (b : batch) : batch :=
  let alone := Batch (<[i := Load l loc]> (out b)) (batch_keys b) (at_ b)
                 (batch_driver b) (batch_store b) (batched b) in
  match loc with
  | None => alone
  | Some lc =>
      if negb (fetched lc) then alone
      else if batched b && (negb (Locator_Driver lc =s? batch_driver b) ||
                            negb (Locator_Store lc =s? batch_store b)) then alone
      else Batch (out b) (batch_keys b ++ [Locator_Key lc]) (at_ b ++ [i])
             (Locator_Driver lc) (Locator_Store lc) true
  end.

Fixpoint collect_all (l : Loader) (i : nat) (locs : list (option Locator)) (b : batch) : batch :=
  match locs with
  | [] => b
  | loc :: locs => collect_all l (S i) locs (collect l i loc b)
  end.

(** [for _, i := range at { out[i] = f(i) }], and the loop that counts too. *)
Fixpoint fill (f : nat → nat → result Body) (n : nat) (at_ : list nat) (out : list (result Body))
    : list (result Body) :=
  match at_ with
  | [] => out
  | i :: at_ => fill f (S n) at_ (<[i := f n i]> out)
  end.

Definition loc_at (locs : list (option Locator)) (i : nat) : option Locator := mjoin (locs !! i).

(** The answer for the [n]-th key, which goes to place [i]. *)
Definition batch_result (l : Loader) (locs : list (option Locator))
    (raws : list (option string)) (n i : nat) : result Body :=
  match raws !! n with
  | None => Err Panic
  | Some None => Ok (faulty_body unavailableStoreError)
  | Some (Some raw) =>
      match loc_at locs i with
      | None => Err Panic
      | Some loc => finish l loc raw
      end
  end.

Definition load_batch (l : Loader)
    (getMany : string → string → list string → result (list (option string)))
    (locs : list (option Locator)) : list (result Body) :=
  let b := collect_all l 0 locs (Batch (replicate (length locs) (Ok no_body)) [] [] "" "" false) in
  if len (batch_keys b) <? 2 then fill (λ _ i, Load l (loc_at locs i)) 0 (at_ b) (out b)
  else
    match getMany (batch_driver b) (batch_store b) (batch_keys b) with
    | Err e => fill (λ _ _, Ok (store_failure e)) 0 (at_ b) (out b)
    | Ok raws => fill (batch_result l locs raws) 0 (at_ b) (out b)
    end.

Definition LoadMany (l : Loader) (locs : list (option Locator)) : result (list Body) :=
  match store l ≫= GetMany with
  | None => mapM (Load l) locs
  | Some getMany => mapM id (load_batch l getMany locs)
  end.
End loader.

(** ** internal/body/redis.go *)

Inductive redis_value :=
| RNil
| RString (s : string)
| RBytes (s : string)
| ROther.

Section redis.
Context (client_get : string → result string).
Context (client_mget : list string → result (list redis_value)).

Definition Redis_Get (driver store key : string) : result string :=
  if negb (driver =s? "redis") then Err ErrUnknownDriver else client_get key.

Definition redis_bytes (v : redis_value) : option string :=
  match v with
  | RString raw | RBytes raw => Some raw
  | _ => None
  end.

Definition Redis_GetMany (driver store : string) (keys : list string)
    : result (list (option string)) :=
  if negb (driver =s? "redis") then Err ErrUnknownDriver
  else if bool_decide (keys = []) then Ok []
  else
    vals ← client_mget keys;
    if negb (len vals =? len keys) then errorf "mget returned %d values for %d keys"
    else Ok (redis_bytes <$> vals).

Definition RedisStore : BlobStore := {| Get := Redis_Get; GetMany := Some Redis_GetMany |}.
End redis.

(** ** What a store with the batch operation promises *)

Definition not_driver (e : error) : Prop := errors_is e ErrUnknownDriver = false.

(** When [GetMany] answers, it answers for each key what [Get] would: its bytes, or
    nothing. It may fail where [Get] would not. *)
Class ConsistentStore (s : BlobStore) : Prop := {
  many_ok getMany driver st ks raws :
    GetMany s = Some getMany → getMany driver st ks = Ok raws →
    Forall2 (λ k raw, match raw with
                      | Some b => Get s driver st k = Ok b
                      | None => ∃ e, Get s driver st k = Err e ∧ not_driver e
                      end) ks raws
}.

(** What the Redis commands promise: MGET, when it answers, gives one value per key,
    the string of GET or nil where GET fails; the error is the client's own. *)
Class RedisClient (get : string → result string) (mget : list string → result (list redis_value))
    : Prop := {
  mget_ok ks vals : mget ks = Ok vals →
    Forall2 (λ k v, match redis_bytes v with
                    | Some b => get k = Ok b
                    | None => ∃ e, get k = Err e ∧ not_driver e
                    end) ks vals
}.

#[export] Instance redis_consistent get mget `{!RedisClient get mget} :
  ConsistentStore (RedisStore get mget).
Proof.
  split. intros gm driver st ks raws [= <-]. cbn. unfold Redis_GetMany, Redis_Get.
  destruct (negb (driver =s? "redis")); [done|].
  case_bool_decide as Hks; [subst ks; intros [= <-]; constructor|].
  intros (vals & Hm & Hl)%bind_ok. destruct (negb _); [done|]. injection Hl as <-.
  apply Forall2_fmap_r. eapply Forall2_impl; [by apply mget_ok|]. done.
Qed.

(** Which locators are asked for in one request: those with the driver and the store
    of the first that is to be fetched. *)
Definition first_fetched (locs : list (option Locator)) : option Locator :=
  head (List.filter fetched (omap id locs)).
Definition batch_member (locs : list (option Locator)) (lc : Locator) : bool :=
  match first_fetched locs with
  | Some f => fetched lc && ((Locator_Driver lc =s? Locator_Driver f) &&
                             (Locator_Store lc =s? Locator_Store f))
  | None => false
  end.
Definition batch_members (locs : list (option Locator)) : list Locator :=
  List.filter (batch_member locs) (omap id locs).

(** The error of that request, when there are several and it fails. *)
Definition batch_error (l : Loader) (locs : list (option Locator)) : option error :=
  match store l ≫= GetMany, batch_members locs with
  | Some getMany, (f :: _ :: _) as ls =>
      match getMany (Locator_Driver f) (Locator_Store f) (Locator_Key <$> ls) with
      | Err e => Some e
      | Ok _ => None
      end
  | _, _ => None
  end.

(** ** The batched load is the load of each *)

Section batched.
Context (sha256 : string → string) (gcm_open : string → string → string → option string).
Context (l : Loader) (locs : list (option Locator)).
Abbreviation Load := (Load sha256 gcm_open l).
Abbreviation collect := (collect sha256 gcm_open l).
Abbreviation collect_all := (collect_all sha256 gcm_open l).

Lemma fill_lookup f g at0 : ∀ n out0,
  NoDup at0 → (∀ i, i ∈ at0 → (i < length out0)%nat) →
  (∀ k i, at0 !! k = Some i → f (n + k)%nat i = g i) →
  ∀ j, fill f n at0 out0 !! j = if decide (j ∈ at0) then Some (g j) else out0 !! j.
Proof.
  induction at0 as [|i at0 IH]; intros n out0 Hnd Hlt Hf j; cbn [fill].
  { rewrite decide_False; [done|]. apply not_elem_of_nil. }
  apply NoDup_cons in Hnd as [Hi Hnd].
  assert (f n i = g i) as Hn by (rewrite <- (Hf 0%nat i), Nat.add_0_r; done).
  rewrite IH; [|done| |].
  - destruct (decide (j = i)) as [->|Hne].
    + rewrite decide_False by done. rewrite decide_True by by left.
      rewrite list_lookup_insert_eq; [by rewrite Hn|]. apply Hlt. by left.
    + rewrite list_lookup_insert_ne by done. apply decide_ext.
      rewrite elem_of_cons. naive_solver.
  - intros a Ha. rewrite length_insert. apply Hlt. by right.
  - intros k a Ha. rewrite <- (Hf (S k) a) by done. f_equal. lia.
Qed.

(** The place [j] is in the batch, as its [k]-th. *)
Definition in_batch (b : batch) (k j : nat) : Prop :=
  ∃ lc, locs !! j = Some (Some lc) ∧ fetched lc = true ∧
    Locator_Driver lc = batch_driver b ∧ Locator_Store lc = batch_store b ∧
    batch_keys b !! k = Some (Locator_Key lc).

Record collected (i : nat) (b : batch) : Prop := {
  co_length : length (out b) = length locs;
  co_keys : length (batch_keys b) = length (at_ b);
  co_nodup : NoDup (at_ b);
  co_below j : j ∈ at_ b → (j < i)%nat;
  co_start : batched b = false → at_ b = [];
  co_batch k j : at_ b !! k = Some j → in_batch b k j;
  co_alone j : (j < i)%nat → j ∉ at_ b → out b !! j = Some (Load (loc_at locs j))
}.

Lemma collected_alone i loc b :
  locs !! i = Some loc → collected i b →
  collected (S i) (Batch (<[i := Load loc]> (out b)) (batch_keys b) (at_ b)
                     (batch_driver b) (batch_store b) (batched b)).
Proof.
  intros Hloc [Hl Hk Hnd Hb Hs Hin Ha]. split; cbn; try done.
  - by rewrite length_insert.
  - intros j Hj. specialize (Hb j Hj). lia.
  - intros j Hj Hn. destruct (decide (j = i)) as [->|Hne].
    + rewrite list_lookup_insert_eq.
      * unfold loc_at. by rewrite Hloc.
      * rewrite Hl. by eapply lookup_lt_Some.
    + rewrite list_lookup_insert_ne by done. apply Ha; [lia|done].
Qed.

Lemma collected_join i lc b :
  locs !! i = Some (Some lc) → fetched lc = true →
  (batched b = true → Locator_Driver lc = batch_driver b ∧ Locator_Store lc = batch_store b) →
  collected i b →
  collected (S i) (Batch (out b) (batch_keys b ++ [Locator_Key lc]) (at_ b ++ [i])
                     (Locator_Driver lc) (Locator_Store lc) true).
Proof.
  intros Hloc Hf Hsame [Hl Hk Hnd Hb Hs Hin Ha]. split; cbn; try done.
  - rewrite !length_app. cbn. lia.
  - apply NoDup_app. split; [done|]. split; [|apply NoDup_singleton].
    intros j Hj ->%list_elem_of_singleton. specialize (Hb i Hj). lia.
  - intros j [Hj| ->%list_elem_of_singleton]%elem_of_app; [specialize (Hb j Hj)|]; lia.
  - intros k j Hkj. unfold in_batch. cbn.
    apply lookup_app_Some in Hkj as [Hkj|[Hge Hkj]].
    + destruct (batched b) eqn:Eb; [|by rewrite Hs in Hkj].
      destruct (Hin k j Hkj) as (lc' & ? & ? & Hd & Hst & Hkey).
      destruct (Hsame eq_refl) as [-> ->]. exists lc'. split_and!; try done.
      apply lookup_app_l_Some. done.
    + apply list_lookup_singleton_Some in Hkj as [Hz <-].
      exists lc. split_and!; try done. rewrite lookup_app_r by lia.
      by replace (k - length (batch_keys b))%nat with 0%nat by lia.
  - intros j Hj Hn. apply Ha.
    + rewrite elem_of_app, list_elem_of_singleton in Hn.
      assert (j ≠ i) by tauto. lia.
    + rewrite elem_of_app in Hn. tauto.
Qed.

Lemma collect_step i loc b :
  locs !! i = Some loc → collected i b → collected (S i) (collect i loc b).
Proof.
  intros Hloc Hc. unfold Body.collect. destruct loc as [lc|]; [|by apply collected_alone].
  destruct (fetched lc) eqn:Hf; cbn [negb]; [|by apply collected_alone].
  destruct (batched b && _) eqn:E; [by apply collected_alone|].
  apply collected_join; [done|done| |done]. intros Hb. rewrite Hb in E. cbn in E.
  apply orb_false_iff in E as [E1 E2]. apply negb_false_iff, seqb_eq in E1, E2. done.
Qed.

Lemma collect_all_spec : ∀ rest pre b,
  locs = (pre ++ rest)%list → collected (length pre) b →
  collected (length locs) (collect_all (length pre) rest b).
Proof.
  induction rest as [|loc rest IH]; intros pre b Hl Hc; cbn.
  { rewrite app_nil_r in Hl. by rewrite Hl. }
  replace (S (length pre)) with (length (pre ++ [loc])) by (rewrite length_app; cbn; lia).
  apply IH; [by rewrite <- app_assoc|].
  rewrite length_app, Nat.add_comm. apply collect_step; [|done].
  rewrite Hl, lookup_app_r, Nat.sub_diag by done. done.
Qed.

(** The batch, after the first locators, is what it is to be of them. *)
Record gathering (pre : list (option Locator)) (b : batch) : Prop := {
  gt_keys : batch_keys b = Locator_Key <$> batch_members pre;
  gt_first : match first_fetched pre with
             | Some f => batched b = true ∧ batch_driver b = Locator_Driver f ∧
                         batch_store b = Locator_Store f
             | None => batched b = false
             end;
  gt_in j lc : pre !! j = Some (Some lc) → batch_member pre lc = true → j ∈ at_ b
}.

Lemma first_fetched_snoc pre loc :
  first_fetched (pre ++ [loc]) =
  match first_fetched pre with
  | Some f => Some f
  | None => match loc with Some lc => if fetched lc then Some lc else None | None => None end
  end.
Proof.
  unfold first_fetched. rewrite omap_app, List.filter_app.
  destruct (List.filter fetched (omap id pre)); [|done]. by destruct loc as [lc|]; cbn; [destruct (fetched lc)|].
Qed.

(** One more locator that does not join leaves the batch; one that does ends it. *)
Lemma members_snoc pre loc :
  (is_Some (first_fetched pre) ∨ ¬ ∃ lc, loc = Some lc ∧ fetched lc = true) →
  first_fetched (pre ++ [loc]) = first_fetched pre ∧
  batch_members (pre ++ [loc]) =
    (batch_members pre ++
     match loc with Some lc => if batch_member pre lc then [lc] else [] | None => [] end)%list.
Proof.
  intros Hf. assert (first_fetched (pre ++ [loc]) = first_fetched pre) as E.
  { rewrite first_fetched_snoc. destruct (first_fetched pre); [done|].
    destruct Hf as [[? [=]]|Hf]. destruct loc as [lc|]; [|done]. destruct (fetched lc) eqn:Ef; [|done].
    by destruct Hf; exists lc. }
  split; [done|]. unfold batch_members. assert (batch_member (pre ++ [loc]) = batch_member pre) as ->
    by (unfold batch_member; by rewrite E).
  rewrite omap_app, List.filter_app. f_equal. by destruct loc as [lc|]; cbn; [destruct (batch_member pre lc)|].
Qed.

Lemma members_first pre lc :
  first_fetched pre = None → fetched lc = true →
  first_fetched (pre ++ [Some lc]) = Some lc ∧ batch_members (pre ++ [Some lc]) = [lc] ∧
  ∀ lc', Some lc' ∈ pre → fetched lc' = false.
Proof.
  intros Hn Hf. pose proof (first_fetched_snoc pre (Some lc)) as E. rewrite Hn, Hf in E.
  assert (∀ lc', Some lc' ∈ pre → fetched lc' = false) as Hall.
  { intros lc' Hin. apply not_true_iff_false. intros Ht. unfold first_fetched in Hn.
    assert (lc' ∈ List.filter fetched (omap id pre)) as H1.
    { apply list_elem_of_In, filter_In. split; [|done]. apply list_elem_of_In, list_elem_of_omap.
      by exists (Some lc'). }
    destruct (List.filter _ _); [by apply not_elem_of_nil in H1|done]. }
  split; [done|]. split; [|done]. unfold batch_members.
  assert (∀ x, batch_member (pre ++ [Some lc]) x = fetched x && ((Locator_Driver x =s? Locator_Driver lc) &&
    (Locator_Store x =s? Locator_Store lc))) as Hm by (intros x; unfold batch_member; by rewrite E).
  rewrite omap_app, List.filter_app. cbn. rewrite Hm, Hf, !seqb_refl. cbn.
  assert (List.filter (batch_member (pre ++ [Some lc])) (omap id pre) = []) as ->; [|done].
  destruct (List.filter _ _) as [|x k] eqn:Ek; [done|]. exfalso.
  assert (In x (List.filter (batch_member (pre ++ [Some lc])) (omap id pre))) as [H1 H2]%filter_In
    by (rewrite Ek; by left).
  apply list_elem_of_In, list_elem_of_omap in H1 as (o & Ho & Hx). cbn in Hx. subst o.
  rewrite Hm, (Hall x Ho) in H2. done.
Qed.

Lemma gather_step pre loc b i :
  gathering pre b → gathering (pre ++ [loc]) (collect i loc b) ∨ i ≠ length pre.
Proof.
  intros [Hk Hf Hin]. destruct (decide (i = length pre)) as [->|]; [left|by right].
  assert (∀ b', (is_Some (first_fetched pre) ∨ ¬ ∃ lc, loc = Some lc ∧ fetched lc = true) →
    (∀ lc, loc = Some lc → batch_member pre lc = false) →
    batch_keys b' = batch_keys b → at_ b' = at_ b → batched b' = batched b →
    batch_driver b' = batch_driver b → batch_store b' = batch_store b →
    gathering (pre ++ [loc]) b') as Halone.
  { intros b' Hc Hno E1 E2 E3 E4 E5. destruct (members_snoc pre loc Hc) as [Ef Em].
    assert (∀ lc, batch_member (pre ++ [loc]) lc = batch_member pre lc) as Eb
      by (intros; unfold batch_member; by rewrite Ef).
    split; rewrite ?Em, ?Ef, ?E1, ?E2, ?E3, ?E4, ?E5.
    - destruct loc as [lc|]; [rewrite (Hno lc eq_refl)|]; by rewrite app_nil_r.
    - done.
    - intros j lc [Hj|[Hj [_ ->]%list_lookup_singleton_Some]]%lookup_app_Some; rewrite Eb; [by apply Hin|].
      by rewrite Hno. }
  unfold Body.collect. destruct loc as [lc|]; [|by apply Halone; [right; intros (? & ? & _)|..]].
  destruct (fetched lc) eqn:El; cbn [negb].
  2:{ apply Halone; try done; [right; intros (? & [= <-] & ?); congruence|].
      intros ? [= <-]. unfold batch_member. rewrite El. by destruct (first_fetched pre). }
  destruct (first_fetched pre) as [f|] eqn:Ef.
  - destruct Hf as (Hb & Hd & Hs). rewrite Hb, Hd, Hs. cbn [andb].
    assert (batch_member pre lc = (Locator_Driver lc =s? Locator_Driver f) &&
      (Locator_Store lc =s? Locator_Store f)) as Em by (unfold batch_member; by rewrite Ef, El).
    destruct ((Locator_Driver lc =s? Locator_Driver f) && (Locator_Store lc =s? Locator_Store f)) eqn:E.
    + rewrite <- negb_andb, E. cbn [negb]. destruct (members_snoc pre (Some lc)) as [Ef' Em'];
        [left; rewrite ?Ef; by eexists|]. rewrite Em in Em'. guards. destruct E as [E1 E2].
      split; cbn; rewrite ?Ef', ?Em', ?Ef.
      * by rewrite fmap_app, Hk.
      * done.
      * intros j lc' Hj. unfold batch_member. rewrite Ef'. intros Hm.
        apply elem_of_app. apply lookup_app_Some in Hj as [Hj|[Hge Hj]]; [left|right].
        -- eapply Hin; [exact Hj|exact Hm].
        -- apply list_lookup_singleton_Some in Hj as [Hj _]. apply list_elem_of_singleton. lia.
    + rewrite <- negb_andb, E. apply Halone; try done; [left; rewrite ?Ef; by eexists|]. by intros ? [= <-].
  - rewrite Hf. cbn [andb]. destruct (members_first pre lc Ef El) as (Ef' & Em' & Hno).
    assert (batch_keys b = []) as Ek.
    { rewrite Hk. unfold batch_members. destruct (List.filter _ _) as [|x k] eqn:Ex; [done|].
      assert (In x (List.filter (batch_member pre) (omap id pre))) as [_ H2]%filter_In
        by (rewrite Ex; by left). unfold batch_member in H2. by rewrite Ef in H2. }
    split; cbn; rewrite ?Ef', ?Em', ?Ek; [done|done|].
    intros j lc' Hj. unfold batch_member. rewrite Ef'. intros [Hm _]%andb_true_iff.
    apply elem_of_app. right. apply lookup_app_Some in Hj as [Hj|[Hge Hj]].
    + rewrite Hno in Hm; [done|]. by eapply list_elem_of_lookup_2.
    + apply list_lookup_singleton_Some in Hj as [Hj _]. apply list_elem_of_singleton. lia.
Qed.

Lemma gather_all : ∀ rest pre b,
  gathering pre b → gathering (pre ++ rest) (collect_all (length pre) rest b).
Proof.
  induction rest as [|loc rest IH]; intros pre b Hg; cbn; [by rewrite app_nil_r|].
  replace (S (length pre)) with (length (pre ++ [loc])) by (rewrite length_app; cbn; lia).
  rewrite (app_assoc pre [loc] rest : (pre ++ loc :: rest)%list = _). apply IH.
  by destruct (gather_step pre loc b (length pre) Hg).
Qed.

(** The results of the batch at its places, and what the locators give elsewhere. *)
Lemma fill_batch f g b :
  collected (length locs) b →
  (∀ k j, at_ b !! k = Some j → f k j = g (loc_at locs j)) →
  (∀ j, j ∉ at_ b → (j < length locs)%nat → g (loc_at locs j) = Load (loc_at locs j)) →
  fill f 0 (at_ b) (out b) = g <$> locs.
Proof.
  intros [Hl Hk Hnd Hb Hs Hin Ha] Hf Hg. apply list_eq. intros j.
  rewrite (fill_lookup f (λ j, g (loc_at locs j))); [|done| |done].
  - rewrite list_lookup_fmap.
    assert (∀ loc, locs !! j = Some loc → loc_at locs j = loc) as Hat.
    { intros loc Hloc. unfold loc_at. by rewrite Hloc. }
    destruct (locs !! j) as [loc|] eqn:Hloc; cbn [fmap option_fmap option_map].
    + apply lookup_lt_Some in Hloc as Hlt. rewrite <- (Hat loc eq_refl).
      destruct (decide (j ∈ at_ b)); [done|]. by rewrite Ha, Hg.
    + apply lookup_ge_None in Hloc. rewrite decide_False.
      * apply lookup_ge_None. by rewrite Hl.
      * intros Hj. specialize (Hb j Hj). lia.
  - intros i Hi. rewrite Hl. by apply Hb.
Qed.

Lemma Load_fetched j lc s :
  locs !! j = Some (Some lc) → fetched lc = true → store l = Some s →
  Load (loc_at locs j) =
  match Get s (Locator_Driver lc) (Locator_Store lc) (Locator_Key lc) with
  | Err e => Ok (store_failure e)
  | Ok raw => finish sha256 gcm_open l lc raw
  end.
Proof.
  intros Hj [Hu Hd]%andb_true_iff Hs. unfold loc_at, Body.Load. rewrite Hj. cbn.
  by rewrite Hu, Hd, Hs.
Qed.

(** What each locator gives in the end. *)
Definition load_with (failed : option error) (loc : option Locator) : result Body :=
  match loc, failed with
  | Some lc, Some e => if batch_member locs lc then Ok (store_failure e) else Load loc
  | _, _ => Load loc
  end.

Lemma load_batch_spec s getMany :
  store l = Some s → GetMany s = Some getMany → ConsistentStore s →
  load_batch sha256 gcm_open l getMany locs = load_with (batch_error l locs) <$> locs.
Proof.
  intros Hs Hm Hc. unfold load_batch.
  pose proof (collect_all_spec locs [] (Batch (replicate (length locs) (Ok no_body)) [] [] "" ""
    false) eq_refl) as Hb. cbn in Hb.
  specialize (Hb ltac:(split; cbn; try done; [by rewrite length_replicate|constructor|
    by intros ? ?%not_elem_of_nil|lia])).
  pose proof (gather_all locs [] (Batch (replicate (length locs) (Ok no_body)) [] [] "" "" false)) as Hg.
  cbn in Hg. specialize (Hg ltac:(split; done)).
  set (b := collect_all _ _ _) in *. destruct Hg as [Gk Gf Gi].
  pose proof (co_batch _ _ Hb) as Hin. pose proof (co_keys _ _ Hb) as Hlen.
  assert (batch_error l locs = if len (batch_keys b) <? 2 then None else
    match getMany (batch_driver b) (batch_store b) (batch_keys b) with Err e => Some e | Ok _ => None end)
    as Eb.
  { unfold batch_error. rewrite Hs. cbn [mbind option_bind]. rewrite Hm, Gk.
    destruct (batch_members locs) as [|f1 [|f2 ls]] eqn:El; [done|done|].
    assert ((len (Locator_Key <$> f1 :: f2 :: ls) <? 2) = false) as ->
      by (apply Z.ltb_ge; unfold len; rewrite length_fmap; cbn [length]; lia).
    assert (In f1 (List.filter (batch_member locs) (omap id locs))) as [_ Hm1]%filter_In
      by (unfold batch_members in El; rewrite El; by left).
    unfold batch_member in Hm1. destruct (first_fetched locs) as [f|]; [|done].
    destruct Gf as (_ & -> & ->). guards. destruct Hm1 as (_ & -> & ->). done. }
  rewrite Eb. destruct (len (batch_keys b) <? 2).
  { apply fill_batch; [done| |]; intros; by destruct (loc_at locs j). }
  destruct (getMany _ _ _) as [raws|e] eqn:Hgm.
  - pose proof (many_ok _ _ _ _ _ Hm Hgm) as Hall.
    apply fill_batch; [done| |by intros; destruct (loc_at locs j)]. intros k j Hkj.
    destruct (Hin k j Hkj) as (lc & Hj & Hf & Hd & Hst & Hkey).
    destruct (Forall2_lookup_l _ _ _ _ _ Hall Hkey) as (raw & Hraw & Hget).
    transitivity (Load (loc_at locs j)); [|by destruct (loc_at locs j)].
    rewrite (Load_fetched j lc s), Hd, Hst by done.
    unfold batch_result. rewrite Hraw. unfold loc_at. rewrite Hj. cbn.
    destruct raw as [raw|]; [by rewrite Hget|]. destruct Hget as (e & -> & He).
    unfold store_failure. by rewrite He.
  - apply fill_batch; [done| |].
    + intros k j Hkj. destruct (Hin k j Hkj) as (lc & Hj & Hf & Hd & Hst & Hkey).
      unfold loc_at. rewrite Hj. cbn. assert (batch_member locs lc = true) as ->; [|done].
      unfold batch_member. destruct (first_fetched locs) as [f|] eqn:Ef.
      * destruct Gf as (_ & -> & ->) in Hd, Hst.
        by rewrite Hf, Hd, Hst, !seqb_refl.
      * rewrite (co_start _ _ Hb Gf) in Hkj. done.
    + intros j Hnot Hlt. unfold load_with, loc_at. destruct (locs !! j) as [[lc|]|] eqn:Hj; [|done..].
      cbn. destruct (batch_member locs lc) eqn:E; [|done]. destruct Hnot. by eapply Gi.
Qed.
End batched.

Lemma mapM_same {A B} (f g : A → result B) l : (∀ x, f x = g x) → mapM f l = mapM g l.
Proof. intros E. induction l as [|x l IH]; cbn; [done|]. by rewrite E, IH. Qed.

Lemma LoadMany_with sha256 gcm_open l locs :
  (∀ s, store l = Some s → ConsistentStore s) →
  LoadMany sha256 gcm_open l locs =
    mapM (load_with sha256 gcm_open l locs (batch_error l locs)) locs.
Proof.
  intros Hc. unfold LoadMany.
  assert (store l ≫= GetMany = None → ∀ loc,
    Load sha256 gcm_open l loc = load_with sha256 gcm_open l locs (batch_error l locs) loc) as Hnone.
  { intros E loc. unfold load_with, batch_error. rewrite E. by destruct loc. }
  destruct (store l) as [s|] eqn:Hs; cbn [mbind option_bind] in *.
  - destruct (GetMany s) as [getMany|] eqn:Hm.
    + rewrite (load_batch_spec sha256 gcm_open l locs s getMany Hs Hm (Hc s eq_refl)).
      generalize (load_with sha256 gcm_open l locs (batch_error l locs)). clear. intros g.
      induction locs as [|loc locs IH]; cbn; [done|]. destruct (g loc); cbn; [|done]. by rewrite IH.
    + apply mapM_same. intros loc. by apply Hnone.
  - apply mapM_same. intros loc. by apply Hnone.
Qed.

(** With no request of several that fails, each is loaded as if alone. *)
Lemma LoadMany_alone sha256 gcm_open l locs :
  (∀ s, store l = Some s → ConsistentStore s) → batch_error l locs = None →
  LoadMany sha256 gcm_open l locs = mapM (Load sha256 gcm_open l) locs.
Proof.
  intros Hc He. rewrite (LoadMany_with _ _ _ _ Hc), He. apply mapM_same. by intros [lc|].
Qed.

(** C10. The batched load gives, for any locators, what loading each of them gives,
    whichever are grouped into one request, and also when a load panics; but when
    the one request for several fails, the locators that were in it, those of the
    first one's driver and store, all get the failure of the request. *)
Theorem LoadMany_spec sha256 gcm_open l locs :
  (∀ s, store l = Some s → ConsistentStore s) →
  LoadMany sha256 gcm_open l locs =
  match batch_error l locs with
  | None => mapM (Load sha256 gcm_open l) locs
  | Some e => mapM (λ loc, match loc with
                           | Some lc => if batch_member locs lc then Ok (store_failure e)
                                        else Load sha256 gcm_open l loc
                           | None => Load sha256 gcm_open l loc
                           end) locs
  end.
Proof.
  intros Hc. destruct (batch_error l locs) as [e|] eqn:E; [|by apply LoadMany_alone].
  rewrite (LoadMany_with _ _ _ _ Hc), E. apply mapM_same. by intros [lc|].
Qed.

(** ** What a loaded body is *)

Section loaded.
Context (sha256 : string → string) (gcm_open : string → string → string → option string).
Abbreviation Load := (Load sha256 gcm_open).
Abbreviation finish := (finish sha256 gcm_open).

Lemma check_digest_ok loc raw b :
  check_digest sha256 loc raw = b → Fault b = false →
  b = {| Data := raw; Body_Truncated := Locator_Truncated loc; Body_Unavailable := "";
         Fault := false; SHA256 := hex_digest sha256 raw |} ∧
  (want_digest loc ≠ "" → hex_digest sha256 raw = want_digest loc).
Proof.
  unfold check_digest. destruct (_ && _) eqn:E; intros <-; [done|]. intros _. split; [done|].
  intros Hne%is_empty_false. rewrite Hne in E. cbn in E. by apply negb_false_iff, seqb_eq in E.
Qed.

Lemma loaded_intact l loc b :
  Load l (Some loc) = Ok b → Locator_Placed (Some loc) = true → Available b = true →
  Fault b = false ∧ SHA256 b = hex_digest sha256 (Data b) ∧
  (want_digest loc ≠ "" → hex_digest sha256 (Data b) = want_digest loc) ∧
  Body_Truncated b = Locator_Truncated loc.
Proof.
  intros Hload [[Hu Hd]%andb_true_iff _]%andb_true_iff Ha. cbn in Hload.
  rewrite Hu, Hd in Hload. cbn in Hload.
  assert (∀ raw, check_digest sha256 loc raw = b →
    Fault b = false ∧ SHA256 b = hex_digest sha256 (Data b) ∧
    (want_digest loc ≠ "" → hex_digest sha256 (Data b) = want_digest loc) ∧
    Body_Truncated b = Locator_Truncated loc) as Hcheck.
  { intros raw Hr. destruct (Fault b) eqn:Hf.
    - exfalso. revert Hr. unfold check_digest. destruct (_ && _); intros <-; done.
    - destruct (check_digest_ok loc raw b Hr Hf) as [-> Hw]. done. }
  destruct (store l) as [s|]; [|by injection Hload as <-].
  destruct (Get s _ _ _) as [raw|e].
  - unfold Body.finish in Hload. destruct (Locator_Enc loc) as [enc|].
    + destruct (decrypt gcm_open l enc raw) as [plain|[]]; try done;
        injection Hload as Hb; try (by subst b); by apply (Hcheck plain).
    + injection Hload as Hb. by apply (Hcheck raw).
  - injection Hload as <-. unfold store_failure in Ha. by destruct (errors_is _ _).
Qed.

(** C36. Integrity: what the validators are given of a placed locator has the digest
    the locator demands, whichever store answered and whether or not it was
    encrypted; it is flagged truncated exactly when the locator says so. *)
Theorem Load_integrity l loc b :
  Load l (Some loc) = Ok b → Locator_Placed (Some loc) = true → Available b = true →
  Fault b = false ∧ SHA256 b = hex_digest sha256 (Data b) ∧
  (want_digest loc ≠ "" → hex_digest sha256 (Data b) = want_digest loc) ∧
  Body_Truncated b = Locator_Truncated loc.
Proof. exact (loaded_intact l loc b). Qed.

(** A fault is the store's or the content's, never the sender's word: a locator
    that says why its object is unavailable is reported so, without a fault, and
    a locator that places nothing gives an empty body. *)
Theorem Load_fault l loc b :
  Load l loc = Ok b →
  (Fault b = true → Available b = false ∧ ∃ lc, loc = Some lc ∧ fetched lc = true) ∧
  (∀ lc, loc = Some lc → Locator_Unavailable lc ≠ "" →
   b = absent_body (Locator_Unavailable lc)) ∧
  (Available b = false → Data b = "").
Proof.
  destruct loc as [lc|]; cbn; [|by intros [= <-]].
  destruct (is_empty (Locator_Unavailable lc)) eqn:Eu; cbn [negb];
    [|intros [= <-]; split; [done|]; split; [|done]; by intros ? [= <-]].
  apply is_empty_true in Eu.
  destruct (is_empty (Locator_Driver lc)) eqn:Ed; cbn [negb];
    [intros [= <-]; split; [done|]; split; [|done]; intros ? [= <-]; congruence|].
  assert (fetched lc = true) as Hf by (unfold fetched; rewrite Eu, Ed; done).
  intros Hload. split; [|split; [intros ? [= <-]; congruence|]].
  - intros Hfault. split; [|by exists lc].
    destruct (Available b) eqn:Ea; [exfalso|done].
    revert Hload. destruct (store l) as [s|]; [|by intros [= <-]].
    destruct (Get s _ _ _) as [raw|e]; [|unfold store_failure; intros [= <-];
      by destruct (errors_is _ _)].
    assert (∀ r, Ok (check_digest sha256 lc r) ≠ Ok b) as Hc.
    { unfold check_digest. intros r [= <-]. by destruct (_ && _). }
    unfold Body.finish. destruct (Locator_Enc lc) as [enc|]; [|apply Hc].
    destruct (decrypt _ _ _ _) as [plain|[]]; try (by intros [= <-]). apply Hc.
  - intros Ha. revert Hload. destruct (store l) as [s|]; [|by intros [= <-]].
    destruct (Get s _ _ _) as [raw|e]; [|unfold store_failure; intros [= <-];
      by destruct (errors_is _ _)].
    assert (∀ r, Ok (check_digest sha256 lc r) = Ok b → Data b = "") as Hc.
    { unfold check_digest. intros r [= <-]. by destruct (_ && _). }
    unfold Body.finish. destruct (Locator_Enc lc) as [enc|]; [|apply Hc].
    destruct (decrypt _ _ _ _) as [plain|[]]; try (by intros [= <-]). apply Hc.
Qed.
End loaded.

(** ** Witnesses *)

Definition sample_get (key : string) : result string :=
  if key =s? "body" then Ok "{}" else Err (Errorf "redis: nil").
Definition sample_mget (ks : list string) : result (list redis_value) :=
  Ok ((λ k, match sample_get k with Ok s => RString s | Err _ => RNil end) <$> ks).

(** MGET on a server that answers GET alone. *)
Definition failing_mget (ks : list string) : result (list redis_value) := Err (Errorf "i/o timeout").

Lemma sample_client : RedisClient sample_get sample_mget.
Proof.
  split. intros ks vals [= <-]. apply Forall2_fmap_r, Forall_Forall2_diag, Forall_true.
  intros k. cbn beta. destruct (sample_get k) as [s|e] eqn:E; cbn; rewrite ?E; cbn; [done|]. exists e. split; [done|].
  revert E. unfold sample_get. destruct (k =s? "body"); [done|]. by intros [= <-].
Qed.

Lemma failing_client : RedisClient sample_get failing_mget.
Proof. by split. Qed.

Definition sample_locator (key : string) : Locator := {|
  Locator_Store := "bodies"; Locator_Driver := "redis"; Locator_Key := key;
  Locator_Unavailable := ""; Locator_Size := 2; Locator_DeclaredSize := 2;
  Locator_SHA256 := "7b7d"; Locator_ProcessedSHA256 := ""; Locator_Transformed := false;
  Locator_Complete := true; Locator_Truncated := false; Locator_Encoding := "";
  Locator_ExpiresAt := 0; Locator_Hint := ""; Locator_Enc := None
|}.

Definition other_locator (key : string) : Locator := {|
  Locator_Store := "more"; Locator_Driver := "redis"; Locator_Key := key;
  Locator_Unavailable := ""; Locator_Size := 2; Locator_DeclaredSize := 2;
  Locator_SHA256 := "7b7d"; Locator_ProcessedSHA256 := ""; Locator_Transformed := false;
  Locator_Complete := true; Locator_Truncated := false; Locator_Encoding := "";
  Locator_ExpiresAt := 0; Locator_Hint := ""; Locator_Enc := None
|}.

Definition sample_loader : Loader :=
  {| store := Some (RedisStore sample_get sample_mget); keys := None |}.

Definition sample_gcm (_ _ raw : string) : option string := Some raw.

Definition sample_body : Body := {|
  Data := "{}"; Body_Truncated := false; Body_Unavailable := ""; Fault := false; SHA256 := "7b7d" |}.

(** A request that succeeds, and one that fails where GET would not: the locator of
    another store is loaded all the same. *)
Theorem LoadMany_spec_witness :
  LoadMany id sample_gcm sample_loader [Some (sample_locator "body"); None; Some (sample_locator "x")]
  = Ok [sample_body; no_body; faulty_body unavailableStoreError] ∧
  LoadMany id sample_gcm {| store := Some (RedisStore sample_get failing_mget); keys := None |}
    [Some (sample_locator "body"); Some (sample_locator "x"); Some (other_locator "body")]
  = Ok [faulty_body unavailableStoreError; faulty_body unavailableStoreError; sample_body].
Proof.
  split; rewrite LoadMany_spec; try reflexivity; intros s [= <-].
  - apply (@redis_consistent _ _ sample_client).
  - apply (@redis_consistent _ _ failing_client).
Defined.

Theorem Load_integrity_witness :
  let b := {| Data := "{}"; Body_Truncated := false; Body_Unavailable := ""; Fault := false;
              SHA256 := "7b7d" |} in
  Load id sample_gcm sample_loader (Some (sample_locator "body")) = Ok b ∧
  Locator_Placed (Some (sample_locator "body")) = true ∧
  hex_digest id (Data b) = want_digest (sample_locator "body").
Proof.
  split; [reflexivity|]. split; [reflexivity|].
  refine (proj1 (proj2 (proj2 (Load_integrity id sample_gcm sample_loader (sample_locator "body")
    _ eq_refl eq_refl eq_refl))) _). done.
Defined.

Theorem Load_fault_witness :
  Load id sample_gcm sample_loader (Some (sample_locator "x")) =
    Ok (faulty_body unavailableStoreError) ∧
  Available (faulty_body unavailableStoreError) = false.
Proof.
  split; [reflexivity|].
  refine (proj1 (proj1 (Load_fault id sample_gcm sample_loader (Some (sample_locator "x"))
    (faulty_body unavailableStoreError) eq_refl) eq_refl)).
Defined.

(** A nonce of the wrong length is not reported as a failed decryption: it makes
    the load panic. *)
Lemma Load_nonce_panics sha256 gcm_open key_of key get mget enc :
  key_of (Enc_KID enc) = Ok key → slen key = 32 → Enc_Alg enc = "aes-256-gcm" →
  Enc_Nonce enc = "AAAA" →
  decrypt gcm_open {| store := Some (RedisStore get mget); keys := Some key_of |} enc "{}" = Err Panic ∧
  ∀ loc, Locator_Enc loc = Some enc →
    finish sha256 gcm_open {| store := Some (RedisStore get mget); keys := Some key_of |} loc "{}"
    = Err Panic.
Proof.
  intros Hk Hl Ha Hn.
  assert (decrypt gcm_open {| store := Some (RedisStore get mget); keys := Some key_of |} enc "{}"
    = Err Panic) as Hd.
  { unfold decrypt. cbn [keys]. rewrite Ha, seqb_refl, Hk. cbn. by rewrite Hl, Hn. }
  split; [done|]. intros loc He. unfold finish. by rewrite He, Hd.
Qed.
