(* ===== verification/Redis.v ===== *)
(** * internal/body/redis.go: the store that Redis keeps

    [Body] has the two reading operations over GET and MGET. Here the server has a
    state: [Put] writes an object, [Ping] and [Close] ask and end the connection. A
    server is an instance of [RedisServer], and [RedisServerLaws] what its commands
    promise; an object that was put is loaded. *)
From S2P Require Import Prelude GoString Json Protocol Body.

(** GET, MGET, SET with a time to live, PING and the closing of the client. *)
Class RedisServer (W : Type) := {
  server_get : W → string → result string;
  server_mget : W → list string → result (list redis_value);
  server_set : string → string → Z → W → W * result unit;
  server_ping : W → result unit;
  server_close : W → W * result unit
}.

Class RedisServerLaws (W : Type) `{!RedisServer W} : Prop := {
  server_reads (w : W) :: RedisClient (server_get w) (server_mget w);
  server_set_ok key value ttl w w' k :
    server_set key value ttl w = (w', Ok tt) →
    server_get w' k = if k =s? key then Ok value else server_get w k
}.

Section server.
Context {W : Type} `{!RedisServer W}.

Definition Put (key value : string) (ttl : Z) (w : W) : W * result unit := server_set key value ttl w.
Definition Ping (w : W) : result unit := server_ping w.
Definition Close (w : W) : W * result unit := server_close w.

(** The store, while the server is in a state. *)
Definition store_in (w : W) : BlobStore := RedisStore (server_get w) (server_mget w).
End server.

Section objects.
Context (sha256 : string → string) (gcm_open : string → string → string → option string).
Context {W : Type} `{!RedisServer W, !RedisServerLaws W}.

Abbreviation Load := (Load sha256 gcm_open).
Abbreviation LoadMany := (LoadMany sha256 gcm_open).

(** A locator of an object in Redis that is there as it is. *)
Definition points_to (key value : string) (loc : Locator) : Prop :=
  Locator_Driver loc = "redis" ∧ Locator_Key loc = key ∧ Locator_Unavailable loc = "" ∧
  Locator_Enc loc = None ∧ want_digest loc ∈ [""; hex_digest sha256 value].

Lemma stored_loads w ks key value loc :
  server_get w key = Ok value → points_to key value loc →
  ∃ b, Load {| store := Some (store_in w); keys := ks |} (Some loc) = Ok b ∧
    Available b = true ∧ Data b = value ∧ Fault b = false.
Proof.
  intros Hg (Ed & Ek & Eu & Ee & Hw). unfold Body.Load. rewrite Eu, Ed, Ek. cbn.
  unfold Redis_Get. cbn. rewrite Hg. unfold finish. rewrite Ee. eexists. split; [done|].
  unfold check_digest. apply elem_of_cons in Hw as [-> |Hw]; [done|].
  apply list_elem_of_singleton in Hw as ->. by rewrite seqb_refl, andb_false_r.
Qed.

(** Objects put one after the other, up to the first failure. *)
Fixpoint put_all (objects : list (string * string)) (ttl : Z) (w : W) : W * result unit :=
  match objects with
  | [] => (w, Ok tt)
  | (key, value) :: objects =>
      match Put key value ttl w with
      | (w, Ok _) => put_all objects ttl w
      | (w, Err e) => (w, Err e)
      end
  end.

Lemma put_all_get objects ttl : ∀ w w',
  put_all objects ttl w = (w', Ok tt) → NoDup objects.*1 →
  ∀ key, server_get w' key = match list_to_map (M := gmap string string) objects !! key with
                            | Some value => Ok value
                            | None => server_get w key
                            end.
Proof.
  induction objects as [|[k v] objects IH]; intros w w'; cbn [put_all]; [by intros [= ->] _ key|].
  unfold Put. destruct (server_set k v ttl w) as [w1 [[]|e]] eqn:E; [|done].
  intros Hp [Hk Hnd]%NoDup_cons key. rewrite (IH _ _ Hp Hnd). cbn [list_to_map foldr].
  rewrite (server_set_ok _ _ _ _ _ key E). cbn. destruct (String.eqb_spec key k) as [->|Hne].
  - rewrite lookup_insert_eq. by rewrite not_elem_of_list_to_map_1.
  - by rewrite lookup_insert_ne.
Qed.

(** A server that answers MGET answers the batch. *)
Lemma batch_answered w ks (objects : list (string * string)) locs :
  (∀ ks e, server_mget w ks ≠ Err e) →
  Forall2 (λ _ loc, Locator_Driver loc = "redis") objects locs →
  batch_error {| store := Some (store_in w); keys := ks |} (Some <$> locs) = None.
Proof.
  intros Hans Hl. unfold batch_error. cbn [store mbind option_bind GetMany store_in RedisStore].
  destruct (batch_members (Some <$> locs)) as [|f [|f' k]] eqn:Ek; [done|done|].
  assert (In f (List.filter (batch_member (Some <$> locs)) (omap id (Some <$> locs)))) as [Hin _]%filter_In
    by (unfold batch_members in Ek; rewrite Ek; by left).
  apply list_elem_of_In, list_elem_of_omap in Hin as (o & Ho & Hf). cbn in Hf. subst o.
  apply list_elem_of_fmap in Ho as (lc & [= <-] & Hin).
  apply list_elem_of_lookup in Hin as [i Hi]. destruct (Forall2_lookup_r _ _ _ _ _ Hl Hi) as (x & _ & Hd).
  rewrite Hd. unfold Redis_GetMany. cbn. destruct (server_mget w _) as [vals|e] eqn:E; [|by apply Hans in E].
  apply mget_ok in E. apply Forall2_length in E. cbn. unfold len. rewrite <- E. cbn [length].
  by rewrite Z.eqb_refl.
Qed.

(** Objects put under different keys are loaded by the locators that point to them,
    in one batch, unharmed and without a fault, when the server answers it. *)
Theorem put_loads objects ttl ks w w' locs :
  (∀ ks e, server_mget w' ks ≠ Err e) → put_all objects ttl w = (w', Ok tt) → NoDup objects.*1 →
  Forall2 (λ o loc, points_to o.1 o.2 loc) objects locs →
  ∃ bs, LoadMany {| store := Some (store_in w'); keys := ks |} (Some <$> locs) = Ok bs ∧
    Forall2 (λ o b, Available b = true ∧ Fault b = false ∧ Data b = o.2) objects bs.
Proof.
  intros Hans Hp Hnd Hl. rewrite LoadMany_alone.
  2:{ intros s [= <-]. apply _. }
  2:{ apply (batch_answered _ _ objects); [done|]. eapply Forall2_impl; [exact Hl|]. by intros ? ? []. }
  assert (∀ o, o ∈ objects → server_get w' o.1 = Ok o.2) as Hg.
  { intros [k v] Hin. rewrite (put_all_get _ _ _ _ Hp Hnd). cbn.
    by rewrite (elem_of_list_to_map_1 _ _ _ Hnd Hin). }
  clear Hp Hnd. induction Hl as [|[k v] loc objects locs Hloc _ IH]; [by exists []|].
  destruct IH as (bs & E & Hbs). { intros o Ho. apply Hg. by right. }
  destruct (stored_loads w' ks k v loc (Hg (k, v) ltac:(by left)) Hloc) as (b & Eb & Ha & Hd & Hf).
  exists (b :: bs). rewrite fmap_cons. cbn [mapM]. rewrite Eb. cbn [mbind result_bind]. rewrite E.
  split; [done|]. by constructor.
Qed.
End objects.

(** ** A server that is a map *)

#[export] Instance map_server : RedisServer (gmap string string) := {|
  server_get w k := match w !! k with Some v => Ok v | None => Err (Errorf "redis: nil") end;
  server_mget w ks := Ok ((λ k, match w !! k with Some v => RString v | None => RNil end) <$> ks);
  server_set k v _ w := (<[k:=v]> w, Ok tt);
  server_ping _ := Ok tt;
  server_close w := (w, Ok tt)
|}.

#[export] Instance map_server_laws : RedisServerLaws (gmap string string).
Proof.
  split.
  - intros w. split. intros ks vals [= <-]. apply Forall2_fmap_r, Forall_Forall2_diag, Forall_true.
    intros k. cbn. destruct (w !! k); cbn; [done|]. by eexists.
  - intros key value ttl w w' k [= <-]. cbn. destruct (String.eqb_spec k key) as [->|Hne].
    + by rewrite lookup_insert_eq.
    + by rewrite lookup_insert_ne.
Qed.

Theorem put_loads_witness :
  ∃ bs, LoadMany id sample_gcm {| store := Some (store_in {["body" := "{}"]}); keys := None |}
    [Some (sample_locator "body")] = Ok bs ∧ Data <$> bs = ["{}"].
Proof.
  destruct (put_loads id sample_gcm [("body", "{}")] 0 None ∅ {["body" := "{}"]} [sample_locator "body"])
    as (bs & E & Hbs).
  - done.
  - reflexivity.
  - apply NoDup_singleton.
  - constructor; [|constructor]. unfold points_to. split_and!; [reflexivity..|]. right. left.
  - exists bs. split; [exact E|]. inversion Hbs as [|o b os bs' (_ & _ & Hd) Hr]; subst.
    inversion Hr; subst. cbn in *. by rewrite Hd.
Defined.
