(* ===== verification/Schema.v ===== *)
(** * internal/schema: contracts

    A contract is compiled from a profile's documents and checks requests,
    responses and frames. The OpenAPI and JSON Schema libraries are parameters: a
    document model with its router and validators is a record of functions, a
    compiled schema a type with a validation function. A library call may panic,
    so it answers in [result], where [Panic] is the only error that arises; so
    do the checks. *)
From stdpp Require Import sorting.
From S2P Require Import Prelude GoString Json Profile AuditLog Findings.

(** ** net/http: header maps *)

(** The token characters of a header field name. *)
Definition token_char (c : ascii) : bool :=
  between 48 57 c || between 65 90 c || between 97 122 c ||
  existsb (Ascii.eqb c) (bytes "!#$%&'*+-.^_`|~").

Fixpoint canonical_bytes (upper : bool) (l : list ascii) : list ascii :=
  match l with
  | [] => []
  | c :: l =>
      let c := if upper then (if between 97 122 c then byte (code c - 32) else c)
               else (if between 65 90 c then byte (code c + 32) else c) in
      c :: canonical_bytes (Ascii.eqb c "-") l
  end.

(** [textproto.CanonicalMIMEHeaderKey] *)
Definition CanonicalMIMEHeaderKey (name : string) : string :=
  if forallb token_char (bytes name) then of_bytes (canonical_bytes true (bytes name)) else name.

Definition http_Header : Type := gmap string (list string).

Definition Header_Add (h : http_Header) (name value : string) : http_Header :=
  let key := CanonicalMIMEHeaderKey name in
  <[key := (default [] (h !! key) ++ [value])%list]> h.
Definition Header_Get (h : http_Header) (name : string) : string :=
  List.hd "" (default [] (h !! CanonicalMIMEHeaderKey name)).
Definition Header_Set (h : http_Header) (name value : string) : http_Header :=
  <[CanonicalMIMEHeaderKey name := [value]]> h.

(** [http.Request] and [http.Response], less the constant protocol and the text
    of the status. An empty body is not set and its length is zero. *)
Record http_request := {
  http_method : string; http_path : string; http_query : string;
  http_header : http_Header; http_host : string; http_body : string
}.
Record http_response := {
  http_status : Z; response_header : http_Header; response_body : string
}.

(** ** What a call brings *)

Record Input := {
  Method : string; Scheme : string; Host : string; Path : string; Query : string;
  Headers : list (string * string); Input_Body : string; Status : Z
}.

Record FrameInput := {
  Frame_Path : string; Frame_Direction : string; Frame_Subprotocol : string; Frame_Body : string
}.

(** ** The OpenAPI model: the fields the code reads *)

Section model.
Context {M : Type}.

(** An ordered map of media types; the values are pointers. *)
Definition Content : Type := list (string * option M).

Record RequestBody := { RB_Required : option bool; RB_Content : option Content }.
Record ApiResponse := { Response_Content : option Content }.
Record Responses := {
  Codes : option (list (string * option ApiResponse)); Default : option ApiResponse
}.
Record ApiOperation := { Op_RequestBody : option RequestBody; Op_Responses : option Responses }.
End model.
Arguments Content : clear implicits.
Arguments RequestBody : clear implicits.
Arguments ApiResponse : clear implicits.
Arguments Responses : clear implicits.
Arguments ApiOperation : clear implicits.

(** [orderedmap.Map.Get] *)
Fixpoint map_get {A} (m : list (string * A)) (key : string) : option A :=
  match m with
  | [] => None
  | (k, v) :: m => if k =s? key then Some v else map_get m key
  end.

Definition stripBase (path base : string) : string :=
  if is_empty base || negb (HasPrefix path base) then path
  else
    let rest := str_drop (String.length base) path in
    if is_empty rest then "/"
    else if HasPrefix rest "/" then rest
    else path.

Section media.
Context {M : Type} `{Unicode}.

Definition baseType (ct : string) : string :=
  let ct := ToLower (TrimSpace ct) in
  match IndexByte ct ";" with
  | Some i => TrimSpace (str_take i ct)
  | None => ct
  end.

(** The loop; [star] and [any] are the candidates seen so far. *)
Fixpoint media_loop (base : string) (content : Content M) (star any : option M)
    : option (option M) :=
  match content with
  | [] =>
      match star, any with
      | Some _, _ => Some star
      | None, Some _ => Some any
      | None, None => None
      end
  | (name, value) :: content =>
      let key := ToLower (TrimSpace name) in
      if key =s? base then Some value
      else if HasSuffix key "/*" && HasPrefix base (TrimSuffix key "*")
      then media_loop base content value any
      else if key =s? "*/*" then media_loop base content star value
      else media_loop base content star any
  end.

(** [None] is the [false] of the code. *)
Definition mediaTypeFor (content : option (Content M)) (ct : string) : option (option M) :=
  match content with
  | None => None
  | Some content => media_loop (baseType ct) content None None
  end.

Definition responseFor (op : ApiOperation M) (status : Z)
    : option (option (ApiResponse M) * string) :=
  match Op_Responses op with
  | None => None
  | Some rs =>
      let code := Itoa status in
      let class := str_take 1 code +:+ "XX" in
      let by_default := match Default rs with Some r => Some (Some r, "default") | None => None end in
      match Codes rs with
      | None => by_default
      | Some codes =>
          match map_get codes code with
          | Some r => Some (r, code)
          | None =>
              match map_get codes class with
              | Some r => Some (r, class)
              | None =>
                  match map_get codes (ToLower class) with
                  | Some r => Some (r, class)
                  | None => by_default
                  end
              end
          end
      end
  end.

Fixpoint headerValue (headers : list (string * string)) (name : string) : string :=
  match headers with
  | [] => ""
  | (n, v) :: headers => if EqualFold n name then v else headerValue headers name
  end.

Definition operationName (method path : string) : string := ToUpper method +:+ " " +:+ path.
End media.

(** ** JSON pointers *)

Definition unescape (raw : string) : string := ReplaceAll (ReplaceAll raw "~1" "/") "~0" "~".

Fixpoint walk_pointer (cur : value) (tokens : list string) : option value :=
  match tokens with
  | [] => Some cur
  | raw :: tokens => next ← value_step cur (unescape raw); walk_pointer next tokens
  end.

Definition pointer (v : value) (ptr : string) : option value :=
  if is_empty ptr then Some v
  else if negb (HasPrefix ptr "/") then None
  else walk_pointer v (Split (str_drop 1 ptr) "/").

(** A decoded document holds no [float64]: numbers are kept as their literals. *)
Definition discriminates (v : value) (d : Discriminator) : bool :=
  match pointer v (Pointer d) with
  | Some (VString s) => s =s? Discriminator_Value d
  | Some (VNumber lit) => lit =s? Discriminator_Value d
  | Some (VBool b) => FormatBool b =s? Discriminator_Value d
  | _ => false
  end.

Definition withDocument (opts : Options) (body : string) : Options :=
  if negb (HashValues opts) || is_empty body then opts
  else
    match Decode body with
    | Ok doc => {| MaxErrors := MaxErrors opts; Paths := Paths opts;
                   HashValues := HashValues opts; document := Some doc |}
    | Err _ => opts
    end.

(** The counts and the outcome a list of findings comes to. *)
Definition finish (operation : string) (findings : list Finding) (undescribed : bool)
    (opts : Options) : Result := {|
  Result_Outcome :=
    if len findings =? 0 then OutcomeOK
    else if undescribed && (len findings =? 1) then OutcomeContentType
    else OutcomeMismatch;
  Operation := operation;
  Result_Findings := trim findings (MaxErrors opts);
  Errors := len findings
|}.

Definition result_ok (operation : string) : Result :=
  {| Result_Outcome := OutcomeOK; Operation := operation; Result_Findings := []; Errors := 0 |}.

(** A result with one finding. *)
Definition one_finding (outcome operation : string) (f : Finding) : Result :=
  {| Result_Outcome := outcome; Operation := operation; Result_Findings := [f]; Errors := 1 |}.

(** ** Contracts *)

Section contract.
Context `{Unicode}.
(** Media types, path items, error kinds and compiled schemas of the libraries. *)
Context {M I K S : Type}.
Context (KeywordPath : K → list string) (LocalizedString : K → string).
Context (sha256 : string → string) (marshal_value : value → result string).

Abbreviation fromSchemaError :=
  (fromSchemaError KeywordPath LocalizedString sha256 marshal_value).
Abbreviation fromValidationErrors :=
  (fromValidationErrors KeywordPath sha256 marshal_value).

(** The error of [Schema.Validate]: a validation error, or another one by its text. *)
Inductive validation := Valid | Invalid (e : SchemaError K) | Broken (text : string).
Context (sch_validate : S → value → result validation).

Record route := {
  route_Path : string; route_PathItem : I; route_Operation : option (ApiOperation M)
}.

(** A validator's answer: whether it accepts, and its errors. *)
Definition answer : Type := bool * list (option (ValidationError K)).

Record OpenAPI := {
  FindRoute : http_request → result (option route);
  ValidatePathParams : http_request → I → string → result answer;
  ValidateQueryParams : http_request → I → string → result answer;
  ValidateHeaderParams : http_request → I → string → result answer;
  ValidateRequestBody : http_request → I → string → result answer;
  ValidateResponseBody : http_request → http_response → I → string → result answer;
  (** [doc.Paths.PathItems], by its items, and the operations of an item. *)
  PathItems : option (list (option I));
  item_operations : I → Z
}.

Record Contract := {
  Contract_profile : string; Contract_kind : string; Contract_source : string;
  basePath : string; model : option OpenAPI; operations : Z;
  main : option S; byName : gmap string S;
  bindings : list Binding; frames : list FrameBinding
}.

(** *** internal/schema/jsonschema.go *)

Fixpoint pick_binding (bs : list Binding) (method path : string) : option Binding :=
  match bs with
  | [] => None
  | b :: bs => if Binding_Matches b method path then Some b else pick_binding bs method path
  end.

(** The schema and its name; the schema may be missing for a binding too. *)
Definition pick (c : Contract) (method path : string) : option S * string :=
  match pick_binding (bindings c) method path with
  | Some b => (byName c !! Binding_Schema b, Binding_Schema b)
  | None => match main c with Some s => (Some s, Contract_source c) | None => (None, "") end
  end.

(** What [Validate] says of the decoded body. *)
Definition schema_result (operation name : string) (opts : Options) (v : validation)
    : result Result :=
  match v with
  | Valid => Ok (result_ok operation)
  | Invalid e =>
      findings ← fromSchemaError e TargetBody opts;
      Ok {| Result_Outcome := OutcomeMismatch; Operation := operation;
            Result_Findings := findings; Errors := len findings |}
  | Broken text =>
      Ok (one_finding OutcomeMismatch operation
            (note "json-schema" SeverityMedium TargetBody name text))
  end.

(** [error_text] is the message of an error. *)
Context (error_text : error → string).

Definition bySchema (c : Contract) (inp : Input) (opts : Options) : result Result :=
  let '(sch, name) := pick c (Method inp) (Path inp) in
  match sch with
  | None =>
      Ok (one_finding OutcomeUnknownOperation ""
            (note "json-unbound" SeverityLow TargetURI "" "no schema is bound to this call"))
  | Some sch =>
      let operation := operationName (Method inp) name in
      if is_empty (Input_Body inp) then Ok (result_ok operation)
      else
        match Decode (Input_Body inp) with
        | Err e =>
            Ok (one_finding OutcomeMismatch ""
                  (note "json-unparsable" SeverityMedium TargetBody name (error_text e)))
        | Ok v => r ← sch_validate sch v; schema_result operation name opts r
        end
  end.

Definition requestBySchema (c : Contract) (inp : Input) (ch : RequestChecks) (opts : Options)
    : result Result :=
  if negb (ReqCheck_Body ch) then Ok (result_ok "") else bySchema c inp opts.

Definition responseBySchema (c : Contract) (inp : Input) (ch : ResponseChecks) (opts : Options)
    : result Result :=
  if negb (RespCheck_Body ch) then Ok (result_ok "") else bySchema c inp opts.

(** *** internal/schema/frame.go *)

Definition frame_applies (inp : FrameInput) (v : value) (b : FrameBinding) : bool :=
  FrameBinding_Matches b (Frame_Path inp) (Frame_Direction inp) (Frame_Subprotocol inp) &&
  match FB_Discriminator b with Some d => discriminates v d | None => true end.

Fixpoint pick_frame_binding (bs : list FrameBinding) (inp : FrameInput) (v : value)
    : option FrameBinding :=
  match bs with
  | [] => None
  | b :: bs => if frame_applies inp v b then Some b else pick_frame_binding bs inp v
  end.

Definition pickFrame (c : Contract) (inp : FrameInput) (v : value) : option S * string :=
  match pick_frame_binding (frames c) inp v with
  | Some b => (byName c !! FB_Schema b, FB_Schema b)
  | None => match main c with Some s => (Some s, Contract_source c) | None => (None, "") end
  end.

Definition Frame (c : Contract) (inp : FrameInput) (ch : FrameChecks) (opts : Options)
    : result Result :=
  if negb (FrameCheck_Body ch) then Ok (result_ok "")
  else
    let opts := withDocument opts (Frame_Body inp) in
    if is_empty (Frame_Body inp) then Ok (result_ok "")
    else
      match Decode (Frame_Body inp) with
      | Err e =>
          Ok (one_finding OutcomeMismatch ""
                (note "json-unparsable" SeverityMedium TargetBody "" (error_text e)))
      | Ok v =>
          let '(sch, name) := pickFrame c inp v in
          match sch with
          | None =>
              Ok (one_finding OutcomeUnknownOperation ""
                    (note "json-unbound" SeverityLow TargetBody ""
                       "no schema is bound to this message"))
          | Some sch =>
              r ← sch_validate sch v;
              schema_result ("frame:" +:+ Frame_Direction inp +:+ " " +:+ name) name opts r
          end
      end.

(** *** internal/schema/openapi.go *)

Definition request (c : Contract) (inp : Input) : http_request := {|
  http_method := Method inp; http_path := stripBase (Path inp) (basePath c);
  http_query := Query inp;
  http_header := foldl (λ h nv, Header_Add h nv.1 nv.2) ∅ (Headers inp);
  http_host := Host inp; http_body := Input_Body inp
|}.

Definition response (inp : Input) : http_response :=
  let h := foldl (λ h nv, Header_Add h nv.1 nv.2) ∅ (Headers inp) in {|
  http_status := Status inp;
  response_header :=
    if is_empty (Header_Get h "Content-Type") then Header_Set h "Content-Type" "application/json"
    else h;
  response_body := Input_Body inp
|}.

(** One of the checks of parameters. *)
Definition check_params (enabled : bool) (ask : result answer) (target : string)
    (opts : Options) : result (list Finding) :=
  if enabled then
    a ← ask;
    Ok (if a.1 : bool then [] else fromValidationErrors a.2 target opts)
  else Ok [].

Definition undescribed_type (ct : string) (where_ : string) : string :=
  "content type " +:+ baseType ct +:+ " is not described " +:+ where_.

Definition requestBody (c : Contract) (api : OpenAPI) (inp : Input) (op : ApiOperation M)
    (item : I) (path : string) (opts : Options) : result (list Finding * bool) :=
  let ct := headerValue (Headers inp) "content-type" in
  if is_empty (Input_Body inp) then
    match Op_RequestBody op with
    | Some {| RB_Required := Some true |} =>
        Ok ([note "json-required-body" SeverityMedium TargetBody path
               "the operation requires a request body"], false)
    | _ => Ok ([], false)
    end
  else
    match Op_RequestBody op with
    | None =>
        Ok ([note "json-body-not-declared" SeverityLow TargetBody path
               "a body was sent, the operation declares none"], true)
    | Some rb =>
        match mediaTypeFor (RB_Content rb) ct with
        | None =>
            Ok ([note "json-content-type" SeverityLow TargetBody path
                   (undescribed_type ct "by the operation")], true)
        | Some _ =>
            a ← ValidateRequestBody api (request c inp) item path;
            Ok (if a.1 : bool then [] else fromValidationErrors a.2 TargetBody opts, false)
        end
    end.

Definition Request_openapi (c : Contract) (api : OpenAPI) (inp : Input) (ch : RequestChecks)
    (opts : Options) : result Result :=
  match FindRoute api (request c inp) with
  | Err Panic => Err Panic
  | Err _ | Ok None =>
      Ok (one_finding OutcomeUnknownOperation ""
            (note "json-unknown-path" SeverityLow TargetURI ""
               "path is not described by the specification"))
  | Ok (Some rt) =>
      let operation := operationName (Method inp) (route_Path rt) in
      match route_Operation rt with
      | None =>
          Ok (one_finding OutcomeUnknownOperation operation
                (note "json-unknown-method" SeverityLow TargetURI (route_Path rt)
                   "the path is described, the method is not"))
      | Some op =>
          let item := route_PathItem rt in
          let path := route_Path rt in
          in_path ← check_params (ReqCheck_PathParams ch)
            (ValidatePathParams api (request c inp) item path) TargetURI opts;
          in_query ← check_params (ReqCheck_Query ch)
            (ValidateQueryParams api (request c inp) item path) TargetArgs opts;
          in_headers ← check_params (ReqCheck_Headers ch)
            (ValidateHeaderParams api (request c inp) item path) TargetConn opts;
          body ← (if ReqCheck_Body ch then requestBody c api inp op item path opts
                  else Ok ([], false));
          Ok (finish operation (in_path ++ in_query ++ in_headers ++ body.1)%list body.2 opts)
      end
  end.

(** A contract of the OpenAPI kind has its model: [build] saw to it. *)
Definition Request (c : Contract) (inp : Input) (ch : RequestChecks) (opts : Options)
    : result Result :=
  let opts := withDocument opts (Input_Body inp) in
  if Contract_kind c =s? KindJSONSchema then requestBySchema c inp ch opts
  else
    match model c with
    | None => Err Panic
    | Some api => Request_openapi c api inp ch opts
    end.

Definition status_undeclared (operation path : string) : Result :=
  one_finding OutcomeStatus operation
    (note "json-status-undeclared" SeverityLow TargetBody path
       "response status is not described by the operation").

Definition Response_openapi (c : Contract) (api : OpenAPI) (inp : Input) (ch : ResponseChecks)
    (opts : Options) : result Result :=
  let unknown :=
    Ok (one_finding OutcomeUnknownOperation ""
          (note "json-unknown-operation" SeverityLow TargetURI ""
             "the operation is not described by the specification")) in
  match FindRoute api (request c inp) with
  | Err Panic => Err Panic
  | Err _ | Ok None => unknown
  | Ok (Some rt) =>
      match route_Operation rt with
      | None => unknown
      | Some op =>
          let operation := operationName (Method inp) (route_Path rt) in
          match responseFor op (Status inp) with
          | None =>
              if negb (RespCheck_Status ch) then Ok (result_ok operation)
              else Ok (status_undeclared operation (route_Path rt))
          | Some (declared, code) =>
              let ct := headerValue (Headers inp) "content-type" in
              let empty := is_empty (Input_Body inp) in
              let content := declared ≫= Response_Content in
              let described := is_some (mediaTypeFor content ct) in
              if RespCheck_ContentType ch && negb empty && is_some content && negb described then
                Ok (finish operation
                  [note "json-content-type" SeverityLow TargetBody
                     (route_Path rt +:+ " " +:+ code) (undescribed_type ct "for this status")]
                  true opts)
              else if negb (RespCheck_Body ch) || empty then Ok (result_ok operation)
              else if negb (is_some content) then Ok (result_ok operation)
              else if negb described then Ok (result_ok operation)
              else
                a ← ValidateResponseBody api (request c inp) (response inp)
                  (route_PathItem rt) (route_Path rt);
                Ok (finish operation
                  (if a.1 : bool then [] else fromValidationErrors a.2 TargetBody opts)
                  false opts)
          end
      end
  end.

Definition Response (c : Contract) (inp : Input) (ch : ResponseChecks) (opts : Options)
    : result Result :=
  let opts := withDocument opts (Input_Body inp) in
  if Contract_kind c =s? KindJSONSchema then responseBySchema c inp ch opts
  else
    match model c with
    | None => Err Panic
    | Some api => Response_openapi c api inp ch opts
    end.
End contract.

(** *** Building contracts *)

Section compile.
Context {M I K S : Type}.
Abbreviation Contract := (@Contract M I K S).
Abbreviation OpenAPI := (@OpenAPI M I K).

(** [openapi_model] is [libopenapi.NewDocument] and [BuildV3Model] with the
    router and the validators made from the model, whose pointer may be nil.
    [yaml_json] is [yaml.Unmarshal] followed by [json.Marshal], [read_json] is
    [jsonschema.UnmarshalJSON], [compile loader url doc] the schema compiler. *)
Context {Y : Type}.
Context (openapi_model : string → result (option OpenAPI)).
Context (yaml_unmarshal : string → result Y) (json_marshal : Y → result string).
Context {D : Type} (read_json : string → result D).
Context (compile : (string → result D) → string → D → result S).

(** [offline.Load] *)
Definition offline_Load (url : string) : result D :=
  errorf "external schema references are not resolved: %s".

Definition decodeDocument (raw : string) : result D :=
  probe ← wrapf "document is neither JSON nor YAML: %w" (yaml_unmarshal raw);
  buf ← wrapf "document: %w" (json_marshal probe);
  read_json buf.

Definition compileSchema (name raw : string) : result S :=
  doc ← decodeDocument raw;
  compile offline_Load ("waf://schema/" +:+ name) doc.

Definition countOperations (api : OpenAPI) : Z :=
  match PathItems api with
  | None => 0
  | Some items =>
      foldl (λ n item, match item with Some i => n + item_operations api i | None => n end) 0 items
  end.

Definition new_contract (p : Profile) (model : option OpenAPI) (ops : Z) (main : option S)
    (byName : gmap string S) : Contract := {|
  Contract_profile := Name p; Contract_kind := Schema_Kind (Profile_Schema p);
  Contract_source := Schema_Source (Profile_Schema p);
  basePath := TrimSuffix (Schema_BasePath (Profile_Schema p)) "/";
  model := model; operations := ops; main := main; byName := byName;
  bindings := Bindings p; frames := Frame_Bindings (Profile_Frame p)
|}.

Definition buildOpenAPI (p : Profile) : result Contract :=
  match Documents p !! Schema_Source (Profile_Schema p) with
  | None => errorf "schema %q is missing"
  | Some raw =>
      m ← wrapf "openapi: %w" (openapi_model raw);
      match m with
      | None => errorf "openapi: document has no v3 model"
      | Some api =>
          if countOperations api =? 0 then errorf "openapi: document declares no operations"
          else Ok (new_contract p (Some api) (countOperations api) None ∅)
      end
  end.

(** The loop over the documents. Go ranges over the map in any order; which of
    several bad documents is reported is not fixed, that one is reported is. *)
Fixpoint compile_all (docs : list (string * string)) (byName : gmap string S)
    : result (gmap string S) :=
  match docs with
  | [] => Ok byName
  | (name, raw) :: docs =>
      compiled ← wrapf "schema %q: %w" (compileSchema name raw);
      compile_all docs (<[name := compiled]> byName)
  end.

Definition buildJSONSchema (p : Profile) : result Contract :=
  byName ← compile_all (map_to_list (Documents p)) ∅;
  let source := Schema_Source (Profile_Schema p) in
  let main := if negb (is_empty source) then byName !! source else None in
  if negb (is_some main) && is_nil (Bindings p) && is_nil (Frame_Bindings (Profile_Frame p))
  then errorf "schema %q is missing"
  else Ok (new_contract p None 0 main byName).

Definition build (p : Profile) : result Contract :=
  if Schema_Kind (Profile_Schema p) =s? KindOpenAPI then buildOpenAPI p
  else if Schema_Kind (Profile_Schema p) =s? KindJSONSchema then buildJSONSchema p
  else errorf "unsupported schema kind %q".

(** [schema.Set]: the contracts of a snapshot. *)
Record ContractSet := { byProfile : gmap string Contract; names : list string }.

Fixpoint compile_profiles (ps : list Profile) (set : ContractSet) : result ContractSet :=
  match ps with
  | [] => Ok set
  | p :: ps =>
      if Mode p =s? ModeOff then compile_profiles ps set
      else
        contract ← wrapf "profile %s: %w" (build p);
        compile_profiles ps
          {| byProfile := <[Name p := contract]> (byProfile set); names := names set ++ [Name p] |}
  end.

(** [all] is [snap.All()]. *)
Definition Compile (all : list Profile) : result ContractSet :=
  set ← compile_profiles all {| byProfile := ∅; names := [] |};
  Ok {| byProfile := byProfile set; names := sort_strings (names set) |}.

(** The methods of the set, on a pointer that may be nil. *)
Definition Set_Names (s : option ContractSet) : list string :=
  match s with None => [] | Some s => names s end.
Definition Set_Contract (s : option ContractSet) (profile : string) : option Contract :=
  match s with None => None | Some s => byProfile s !! profile end.
End compile.
Arguments ContractSet : clear implicits.

(** ** Pointers and locations *)

Definition tilde : ascii := "~".
Definition slash : ascii := "/".

(** The escaping of RFC 6901. *)
Definition escape_byte (a : ascii) : list ascii :=
  if Ascii.eqb a tilde then bytes "~0" else if Ascii.eqb a slash then bytes "~1" else [a].
Definition escape (token : string) : string := of_bytes (bytes token ≫= escape_byte).

Definition half_escaped (a : ascii) : list ascii :=
  if Ascii.eqb a tilde then bytes "~0" else [a].

Lemma replace_miss c p new a l :
  c ≠ a → replace_bytes (c :: p) new (a :: l) 0 = a :: replace_bytes (c :: p) new l 0.
Proof. intros Hn%Ascii.eqb_neq. cbn [replace_bytes lprefix]. by rewrite Hn. Qed.

Lemma unescape_slash l :
  replace_bytes (bytes "~1") (bytes "/") (l ≫= escape_byte) 0 = l ≫= half_escaped.
Proof.
  induction l as [|a l IH]; [done|]. rewrite !bind_cons. unfold escape_byte at 1, half_escaped at 1.
  set (e := l ≫= escape_byte) in *. set (h := l ≫= half_escaped) in *.
  destruct (Ascii.eqb_spec a tilde) as [->|Hn]; [cbn in *; by rewrite IH|].
  destruct (Ascii.eqb_spec a slash) as [->|Hs]; [cbn in *; by rewrite IH|].
  cbn [app]. change (bytes "~1") with [tilde; "1"%char] in *.
  change (bytes "~0") with [tilde; "0"%char] in *. rewrite replace_miss by congruence.
  by rewrite IH.
Qed.

Lemma unescape_tilde l : replace_bytes (bytes "~0") (bytes "~") (l ≫= half_escaped) 0 = l.
Proof.
  induction l as [|a l IH]; [done|]. rewrite bind_cons. unfold half_escaped at 1.
  set (h := l ≫= half_escaped) in *.
  destruct (Ascii.eqb_spec a tilde) as [->|Hn]; [cbn in *; by rewrite IH|].
  cbn [app]. change (bytes "~1") with [tilde; "1"%char] in *.
  change (bytes "~0") with [tilde; "0"%char] in *. rewrite replace_miss by congruence.
  by rewrite IH.
Qed.

Lemma unescape_escape t : unescape (escape t) = t.
Proof.
  unfold unescape, escape, ReplaceAll. rewrite !bytes_of_bytes.
  by rewrite unescape_slash, unescape_tilde, of_bytes_bytes.
Qed.

Lemma escape_no_slash t : slash ∉ bytes (escape t).
Proof.
  unfold escape. rewrite bytes_of_bytes. intros (a & Ha & _)%list_elem_of_bind.
  revert Ha. unfold escape_byte. destruct (Ascii.eqb_spec a tilde) as [->|Hn]; [set_solver|].
  destruct (Ascii.eqb_spec a slash) as [->|Hs]; [set_solver|].
  intros E%list_elem_of_singleton. congruence.
Qed.

(** A pointer and a location are two ways to walk a document, and the code has
    a walk for each. They agree: the pointer that escapes the steps of a location
    and puts a slash before each finds what walking the location finds. *)
Theorem pointer_valueAt v loc :
  loc ≠ [] → pointer v ("/" +:+ Join (escape <$> loc) "/") = valueAt v loc.
Proof.
  intros Hne. unfold pointer.
  assert (∀ s, is_empty ("/" +:+ s) = false) as -> by (intros s; by apply is_empty_false).
  rewrite HasPrefix_app. cbn [negb].
  assert (∀ s, str_drop 1 ("/" +:+ s) = s) as ->.
  { intros s. apply of_bytes_bytes. }
  rewrite (Split_Join slash).
  - clear. revert v. induction loc as [|t loc IH]; intros v; [done|].
    cbn. rewrite unescape_escape. by destruct (value_step v t); cbn.
  - by destruct loc.
  - apply Forall_fmap, Forall_true. intros t. apply escape_no_slash.
Qed.

Theorem pointer_valueAt_witness :
  ["a/b"; "1"] ≠ [] ∧
  pointer (VObject [("a/b", VArray [VNull; VNumber "7"])])
    ("/" +:+ Join (escape <$> ["a/b"; "1"]) "/") = Some (VNumber "7").
Proof.
  split; [done|].
  rewrite (pointer_valueAt (VObject [("a/b", VArray [VNull; VNumber "7"])]) ["a/b"; "1"]);
    [reflexivity|done].
Defined.

(** ** The base path *)

(** A base path is stripped at a segment boundary only: a path under it loses it,
    the base itself becomes the root, and any other path, one that only shares the
    base's characters too, stays as it is. *)
Theorem stripBase_spec base rest :
  base ≠ "" →
  (HasPrefix rest "/" = true → stripBase (base +:+ rest) base = rest) ∧
  (stripBase base base = "/") ∧
  (rest ≠ "" → HasPrefix rest "/" = false → stripBase (base +:+ rest) base = base +:+ rest) ∧
  (∀ path, HasPrefix path base = false → stripBase path base = path).
Proof.
  intros Hb%is_empty_false.
  assert (∀ r, str_drop (String.length base) (base +:+ r) = r) as Hdrop.
  { intros r. unfold str_drop. rewrite bytes_app, <- length_bytes, drop_app_length.
    apply of_bytes_bytes. }
  unfold stripBase. rewrite Hb. cbn [orb]. split_and!.
  - intros Hr. rewrite HasPrefix_app, Hdrop. cbn [negb].
    rewrite (proj2 (is_empty_false rest)) by by apply HasPrefix_slash_nonempty.
    by rewrite Hr.
  - specialize (Hdrop ""). rewrite append_empty_r in Hdrop.
    assert (HasPrefix base base = true) as ->.
    { apply HasPrefix_spec. exists "". by rewrite append_empty_r. }
    cbn [negb]. by rewrite Hdrop.
  - intros Hne%is_empty_false Hr. by rewrite HasPrefix_app, Hdrop, Hne, Hr.
  - intros path Hp. by rewrite Hp.
Qed.

Theorem stripBase_spec_witness :
  "/api" ≠ "" ∧ HasPrefix "/pets" "/" = true ∧ stripBase ("/api" +:+ "/pets") "/api" = "/pets" ∧
  stripBase ("/api" +:+ "s") "/api" = "/apis".
Proof.
  split; [done|]. split; [reflexivity|]. split.
  - refine (proj1 (stripBase_spec "/api" "/pets" _) _); done.
  - refine (proj1 (proj2 (proj2 (stripBase_spec "/api" "s" _))) _ _); done.
Defined.

(** ** Results *)

Definition outcome_in (outs : list string) (r : Result) : Prop :=
  Result_Outcome r ∈ outs ∧
  (Result_OK r = true → Errors r = 0 ∧ Result_Findings r = []) ∧
  (Result_OK r = false → 0 < Errors r ∧ Result_Findings r ≠ []).

Lemma outcome_in_ok outs operation : OutcomeOK ∈ outs → outcome_in outs (result_ok operation).
Proof. intros H. split; [done|]. by split. Qed.

Lemma outcome_in_one outs o operation f :
  o ∈ outs → o ≠ OutcomeOK → outcome_in outs (one_finding o operation f).
Proof.
  intros Ho Hne%seqb_neq. split; [done|]. unfold Result_OK. cbn. rewrite Hne. by split.
Qed.

Lemma trim_nonempty l max : l ≠ [] → trim l max ≠ [].
Proof.
  unfold trim. destruct (_ || _) eqn:E; [done|]. intros Hl.
  destruct (take (Z.to_nat max) l); cbn; done.
Qed.

Lemma outcome_in_finish outs operation findings undescribed opts :
  OutcomeOK ∈ outs → OutcomeMismatch ∈ outs → (undescribed = true → OutcomeContentType ∈ outs) →
  outcome_in outs (finish operation findings undescribed opts).
Proof.
  intros Hok Hmis Hct. unfold finish. destruct findings as [|f fs].
  - change (len (@nil Finding) =? 0) with true. cbn. split; [done|]. split; [|done].
    intros _. split; [done|]. unfold trim. change (len (@nil Finding)) with 0.
    destruct (MaxErrors opts <=? 0) eqn:E; [done|]. cbn. by rewrite (proj2 (Z.leb_le 0 _)) by lia.
  - assert (0 < len (f :: fs)) as Hpos by (unfold len; cbn; lia).
    rewrite (proj2 (Z.eqb_neq (len (f :: fs)) 0)) by lia.
    pose proof (trim_nonempty (f :: fs) (MaxErrors opts) ltac:(done)) as Hne.
    destruct undescribed; cbn [andb].
    + destruct (len (f :: fs) =? 1); (split; [by auto|]); unfold Result_OK; cbn; done.
    + split; [done|]. unfold Result_OK; cbn; done.
Qed.

(** The lists of each category of checks are cut to the limit before they are put
    together, and the whole is counted and cut once more: with three bad path
    parameters and a limit of one the result counts two errors, and its last line
    says that one finding is not listed, where two are not. *)
Lemma finish_recounts {K} kp sha mv `{Unicode} (e : ValidationError K) :
  SchemaValidationErrors e = [] →
  let opts := {| MaxErrors := 1; Paths := false; HashValues := false; document := None |} in
  let r := finish "GET /" (fromValidationErrors kp sha mv [Some e; Some e; Some e] TargetURI opts)
             false opts in
  Errors r = 2 ∧ (Evidence <$> last (Result_Findings r)) = Some "1 more findings are not listed".
Proof.
  intros He opts r. subst r opts. unfold fromValidationErrors. cbn [mbind list_bind error_findings].
  rewrite He. by cbn.
Qed.

Section results.
Context `{Unicode} {M I K S : Type}.
Context (KeywordPath : K → list string) (LocalizedString : K → string).
Context (sha256 : string → string) (marshal_value : value → result string).
Context (sch_validate : S → value → result (@validation K)) (error_text : error → string).
(** The library's errors are well formed. *)
Context (lib_errors : ∀ s v e, sch_validate s v = Ok (Invalid e) → well_formed e = true).

Abbreviation Contract := (@Contract M I K S).
Abbreviation bySchema := (bySchema KeywordPath LocalizedString sha256 marshal_value
  sch_validate error_text (M := M) (I := I)).
Abbreviation Frame := (Frame KeywordPath LocalizedString sha256 marshal_value
  sch_validate error_text (M := M) (I := I)).
Abbreviation Request := (Request KeywordPath LocalizedString sha256 marshal_value
  sch_validate error_text (M := M) (I := I)).
Abbreviation Response := (Response KeywordPath LocalizedString sha256 marshal_value
  sch_validate error_text (M := M) (I := I)).
Abbreviation schema_result := (schema_result KeywordPath LocalizedString sha256 marshal_value).
Abbreviation schema_outcomes := [OutcomeOK; OutcomeMismatch; OutcomeUnknownOperation].

Lemma schema_result_spec s v verdict operation name opts r :
  sch_validate s v = Ok verdict → schema_result operation name opts verdict = Ok r →
  outcome_in [OutcomeOK; OutcomeMismatch] r ∧ (Result_OK r = true ↔ verdict = Valid).
Proof.
  intros Hs. destruct verdict as [|e|text]; cbn.
  - intros [= <-]. split; [apply outcome_in_ok; by left|done].
  - destruct (fromSchemaError_findings KeywordPath LocalizedString sha256 marshal_value e TargetBody
      opts (lib_errors _ _ _ Hs)) as (out & -> & Hne & _). cbn. intros [= <-].
    split; [|done]. split; [cbn; right; by left|]. split; [done|]. intros _. cbn.
    split; [|done]. unfold len. destruct out; [done|cbn; lia].
  - intros [= <-]. split; [|done]. apply outcome_in_one; [right; by left|done].
Qed.

Lemma outcome_in_weaken outs outs' r :
  (∀ o, o ∈ outs → o ∈ outs') → outcome_in outs r → outcome_in outs' r.
Proof. intros Hsub (Ho & Hr). split; [by apply Hsub|done]. Qed.

Lemma bySchema_result (c : Contract) inp opts r :
  bySchema c inp opts = Ok r →
  outcome_in schema_outcomes r ∧
  (Result_OK r = true ↔
   ∃ sch name, pick c (Method inp) (Path inp) = (Some sch, name) ∧
     (Input_Body inp = "" ∨
      ∃ v, Decode (Input_Body inp) = Ok v ∧ sch_validate sch v = Ok Valid)).
Proof.
  unfold Schema.bySchema. destruct (pick c (Method inp) (Path inp)) as [[sch|] name].
  - destruct (is_empty (Input_Body inp)) eqn:Eb.
    { apply is_empty_true in Eb. intros [= <-]. split; [apply outcome_in_ok; set_solver|].
      split; [|done]. intros _. exists sch, name. auto. }
    apply is_empty_false in Eb. destruct (Decode (Input_Body inp)) as [v|e].
    + intros (verdict & Hv & Hr)%bind_ok.
      destruct (schema_result_spec _ _ _ _ _ _ _ Hv Hr) as [Hout Hiff]. split.
      { eapply outcome_in_weaken, Hout. set_solver. }
      rewrite Hiff. split.
      * intros ->. exists sch, name. split; [done|]. right. by exists v.
      * intros (sch' & name' & [= <- <-] & [?|(v' & [= <-] & Hv')]); [done|]. congruence.
    + intros [= <-]. split; [apply outcome_in_one; [set_solver|done]|].
      split; [done|]. intros (? & ? & _ & [?|(? & ? & _)]); done.
  - intros [= <-]. split; [apply outcome_in_one; [set_solver|done]|].
    split; [done|]. by intros (? & ? & ? & _).
Qed.

(** C24. Under a JSON Schema contract a call is in order exactly when a schema is
    found for it and its body, if it has one, decodes to a value this schema
    accepts; otherwise the result says mismatch or unknown operation, with at
    least one finding. *)
Theorem bySchema_spec (c : Contract) inp opts r :
  bySchema c inp opts = Ok r →
  outcome_in schema_outcomes r ∧
  (Result_OK r = true ↔
   ∃ sch name, pick c (Method inp) (Path inp) = (Some sch, name) ∧
     (Input_Body inp = "" ∨
      ∃ v, Decode (Input_Body inp) = Ok v ∧ sch_validate sch v = Ok Valid)).
Proof. exact (bySchema_result c inp opts r). Qed.

Lemma frame_checked (c : Contract) inp ch opts r :
  FrameCheck_Body ch = true → Frame c inp ch opts = Ok r →
  outcome_in schema_outcomes r ∧
  (Result_OK r = true ↔
   Frame_Body inp = "" ∨
   ∃ v sch name, Decode (Frame_Body inp) = Ok v ∧ pickFrame c inp v = (Some sch, name) ∧
     sch_validate sch v = Ok Valid).
Proof.
  unfold Schema.Frame. intros ->. cbn [negb].
  destruct (is_empty (Frame_Body inp)) eqn:Eb.
  { apply is_empty_true in Eb. intros [= <-]. split; [apply outcome_in_ok; set_solver|].
    split; [by left|done]. }
  apply is_empty_false in Eb. destruct (Decode (Frame_Body inp)) as [v|e].
  - destruct (pickFrame c inp v) as [[sch|] name] eqn:Ep.
    + intros (verdict & Hv & Hr)%bind_ok.
      destruct (schema_result_spec _ _ _ _ _ _ _ Hv Hr) as [Hout Hiff]. split.
      { eapply outcome_in_weaken, Hout. set_solver. }
      rewrite Hiff. split.
      * intros ->. right. by exists v, sch, name.
      * intros [?|(v' & sch' & name' & [= <-] & Hp & Hv')]; [done|].
        rewrite Ep in Hp. injection Hp as <- <-. congruence.
    + intros [= <-]. split; [apply outcome_in_one; [set_solver|done]|].
      split; [done|]. intros [?|(v' & sch' & name' & [= <-] & Hp & _)]; [done|].
      by rewrite Ep in Hp.
  - intros [= <-]. split; [apply outcome_in_one; [set_solver|done]|].
    split; [done|]. intros [?|(? & ? & ? & ? & _)]; done.
Qed.

(** The same for a frame that is checked. *)
Theorem Frame_spec (c : Contract) inp ch opts r :
  FrameCheck_Body ch = true → Frame c inp ch opts = Ok r →
  outcome_in schema_outcomes r ∧
  (Result_OK r = true ↔
   Frame_Body inp = "" ∨
   ∃ v sch name, Decode (Frame_Body inp) = Ok v ∧ pickFrame c inp v = (Some sch, name) ∧
     sch_validate sch v = Ok Valid).
Proof. exact (frame_checked c inp ch opts r). Qed.

(** A request check ends, when no library panics, with one of four outcomes;
    it is in order exactly when there is no finding. *)
Theorem Request_outcome (c : Contract) inp ch opts r :
  Request c inp ch opts = Ok r →
  outcome_in [OutcomeOK; OutcomeMismatch; OutcomeUnknownOperation; OutcomeContentType] r.
Proof.
  unfold Schema.Request. destruct (Contract_kind c =s? KindJSONSchema).
  - unfold requestBySchema. destruct (negb _).
    + intros [= <-]. apply outcome_in_ok. set_solver.
    + intros Hr%bySchema_result. destruct Hr as [Hr _].
      eapply outcome_in_weaken, Hr. set_solver.
  - destruct (model c) as [api|]; [|done]. unfold Request_openapi.
    destruct (FindRoute api _) as [[rt|]|[]];
      try (intros [= <-]; apply outcome_in_one; [set_solver|done]); [|done].
    destruct (route_Operation rt) as [op|];
      [|intros [= <-]; apply outcome_in_one; [set_solver|done]].
    intros (? & _ & (? & _ & (? & _ & (body & _ & Hf)%bind_ok)%bind_ok)%bind_ok)%bind_ok.
    injection Hf as <-. apply outcome_in_finish; set_solver.
Qed.

(** The same for a response, which may also have an undeclared status. *)
Theorem Response_outcome (c : Contract) inp ch opts r :
  Response c inp ch opts = Ok r →
  outcome_in [OutcomeOK; OutcomeMismatch; OutcomeUnknownOperation; OutcomeContentType;
              OutcomeStatus] r.
Proof.
  unfold Schema.Response. destruct (Contract_kind c =s? KindJSONSchema).
  - unfold responseBySchema. destruct (negb _).
    + intros [= <-]. apply outcome_in_ok. set_solver.
    + intros Hr%bySchema_result. destruct Hr as [Hr _].
      eapply outcome_in_weaken, Hr. set_solver.
  - destruct (model c) as [api|]; [|done]. unfold Response_openapi.
    destruct (FindRoute api _) as [[rt|]|[]];
      try (intros [= <-]; apply outcome_in_one; [set_solver|done]); [|done].
    destruct (route_Operation rt) as [op|];
      [|intros [= <-]; apply outcome_in_one; [set_solver|done]].
    destruct (responseFor op (Status inp)) as [[declared code]|].
    + destruct (_ && negb (is_some _)); [intros [= <-]; apply outcome_in_finish; set_solver|].
      destruct (_ || _); [intros [= <-]; apply outcome_in_ok; set_solver|].
      destruct (negb _); [intros [= <-]; apply outcome_in_ok; set_solver|].
      destruct (negb _); [intros [= <-]; apply outcome_in_ok; set_solver|].
      intros (a & _ & Hf)%bind_ok. injection Hf as <-. apply outcome_in_finish; set_solver.
    + destruct (negb _); intros [= <-]; [apply outcome_in_ok; set_solver|].
      apply outcome_in_one; [set_solver|done].
Qed.
End results.

(** ** Witnesses *)

(** A library with one schema, which accepts objects. *)
Definition sample_validate (_ : unit) (v : value) : result (@validation string) :=
  match v with
  | VObject _ => Ok Valid
  | _ => Ok (Invalid (MkSchemaError "waf://schema/pets" [] (Some "type") []))
  end.

Definition sample_contract : @Contract unit unit string unit := {|
  Contract_profile := "pets"; Contract_kind := KindJSONSchema; Contract_source := "pets";
  basePath := ""; model := None; operations := 0; main := Some tt; byName := {["pets" := tt]};
  bindings := []; frames := []
|}.

Definition sample_input (body : string) : Input := {|
  Method := "post"; Scheme := "https"; Host := "example.org"; Path := "/pets"; Query := "";
  Headers := []; Input_Body := body; Status := 200
|}.

Definition sample_options : Options :=
  {| MaxErrors := 20; Paths := true; HashValues := false; document := None |}.

Lemma sample_errors s v e : sample_validate s v = Ok (Invalid e) → well_formed e = true.
Proof. destruct v; cbn; by intros [= <-]. Qed.

Theorem bySchema_spec_witness :
  @bySchema ascii_tables unit unit string unit (λ k, [k]) id id (λ _, Ok "") sample_validate
    (λ _, "") sample_contract (sample_input "{}") sample_options = Ok (result_ok "POST pets") ∧
  ∃ sch name, @pick ascii_tables unit unit string unit sample_contract "post" "/pets"
      = (Some sch, name) ∧
    ("{}" = "" ∨ ∃ v, Decode "{}" = Ok v ∧ sample_validate sch v = Ok Valid).
Proof.
  split; [reflexivity|].
  refine (proj1 (proj2 (@bySchema_spec ascii_tables unit unit string unit (λ k, [k]) id id
    (λ _, Ok "") sample_validate (λ _, "") sample_errors sample_contract (sample_input "{}")
    sample_options (result_ok "POST pets") _)) _); reflexivity.
Defined.

Definition sample_frame (body : string) : FrameInput := {|
  Frame_Path := "/ws"; Frame_Direction := DirectionC2S; Frame_Subprotocol := ""; Frame_Body := body
|}.

Theorem Frame_spec_witness :
  ∃ r, @Frame unit unit string unit (λ k, [k]) id id (λ _, Ok "") sample_validate
    (λ _, "") sample_contract (sample_frame "[1]") {| FrameCheck_Body := true |} sample_options = Ok r ∧
    Result_OK r = false ∧ outcome_in [OutcomeOK; OutcomeMismatch; OutcomeUnknownOperation] r.
Proof.
  eexists. split; [reflexivity|]. split; [reflexivity|].
  refine (proj1 (@Frame_spec unit unit string unit (λ k, [k]) id id (λ _, Ok "") sample_validate
    (λ _, "") sample_errors sample_contract (sample_frame "[1]") {| FrameCheck_Body := true |}
    sample_options _ eq_refl _)). reflexivity.
Defined.

Definition sample_checks : RequestChecks := {|
  ReqCheck_Body := true; ReqCheck_Query := true; ReqCheck_PathParams := true;
  ReqCheck_Headers := false |}.

Theorem Request_outcome_witness :
  ∃ r, @Request ascii_tables unit unit string unit (λ k, [k]) id id (λ _, Ok "") sample_validate
    (λ _, "") sample_contract (sample_input "7")
    sample_checks sample_options = Ok r ∧
    Result_Outcome r = OutcomeMismatch ∧
    outcome_in [OutcomeOK; OutcomeMismatch; OutcomeUnknownOperation; OutcomeContentType] r.
Proof.
  eexists. split; [reflexivity|]. split; [reflexivity|].
  refine (@Request_outcome ascii_tables unit unit string unit (λ k, [k]) id id (λ _, Ok "")
    sample_validate (λ _, "") sample_errors sample_contract (sample_input "7")
    sample_checks sample_options _ _).
  reflexivity.
Defined.

(** ** Compiling a snapshot *)

Section compiled.
Context {M I K S Y D : Type}.
Context (openapi_model : string → result (option (@OpenAPI M I K))).
Context (yaml_unmarshal : string → result Y) (json_marshal : Y → result string).
Context (read_json : string → result D).
Context (compile : (string → result D) → string → D → result S).
Abbreviation build := (build openapi_model yaml_unmarshal json_marshal read_json compile).
Abbreviation compile_profiles :=
  (compile_profiles openapi_model yaml_unmarshal json_marshal read_json compile).
Abbreviation Compile := (Compile openapi_model yaml_unmarshal json_marshal read_json compile).
Abbreviation CSet := (ContractSet M I K S).

Definition active (ps : list Profile) : list Profile := filter (λ p, Mode p ≠ ModeOff) ps.

Lemma active_cons p ps :
  active (p :: ps) = if Mode p =s? ModeOff then active ps else p :: active ps.
Proof.
  unfold active. rewrite filter_cons.
  destruct (String.eqb_spec (Mode p) ModeOff); case_decide; done.
Qed.

(** What the loop has when it returns: a contract per profile that is not off. *)
Lemma compile_profiles_spec ps : ∀ (set out : CSet),
  compile_profiles ps set = Ok out → NoDup (Name <$> ps) →
  Schema.names out = (Schema.names set ++ (Name <$> active ps))%list ∧
  (∀ p, p ∈ active ps → ∃ c, build p = Ok c ∧ byProfile out !! Name p = Some c) ∧
  (∀ n, n ∉ Name <$> active ps → byProfile out !! n = byProfile set !! n).
Proof.
  induction ps as [|p ps IH]; intros set out; cbn [Schema.compile_profiles].
  { intros [= <-] _. cbn. rewrite app_nil_r. split; [done|]. split; [|done].
    by intros p ?%not_elem_of_nil. }
  rewrite fmap_cons, active_cons. destruct (Mode p =s? ModeOff).
  { intros Hc [_ Hnd]%NoDup_cons. by apply IH. }
  intros (c & Hb%wrapf_ok & Hc)%bind_ok [Hp Hnd]%NoDup_cons.
  destruct (IH _ _ Hc Hnd) as (Hn & Hin & Hout). cbn in Hn, Hout.
  assert (Name p ∉ Name <$> active ps) as Hfresh.
  { intros H. apply Hp. unfold active in H.
    apply list_elem_of_fmap in H as (q & -> & [_ Hq]%list_elem_of_filter).
    by apply list_elem_of_fmap_2. }
  split_and!.
  - rewrite Hn, fmap_cons. by rewrite <- app_assoc.
  - intros q [->|Hq]%elem_of_cons; [|by apply Hin]. exists c. split; [done|].
    rewrite Hout by done. by rewrite lookup_insert_eq.
  - intros n. rewrite fmap_cons, not_elem_of_cons. intros [Hne Hn']. rewrite Hout by done.
    by rewrite lookup_insert_ne.
Qed.

Lemma compiled_contracts ps set :
  NoDup (Name <$> ps) → Compile ps = Ok set →
  (∀ p, p ∈ ps → Mode p ≠ ModeOff →
     ∃ c, build p = Ok c ∧ Set_Contract (Some set) (Name p) = Some c) ∧
  (∀ p, p ∈ ps → Mode p = ModeOff → Set_Contract (Some set) (Name p) = None) ∧
  Schema.names set ≡ₚ Name <$> active ps ∧ Sorted String.leb (Schema.names set).
Proof.
  intros Hnd (out & Hc & Hs)%bind_ok. injection Hs as <-.
  destruct (compile_profiles_spec _ _ _ Hc Hnd) as (Hn & Hin & Hout).
  cbn in *. split_and!.
  - intros p Hp Hm. apply Hin. by apply list_elem_of_filter.
  - intros p Hp Hm. rewrite Hout, lookup_empty; [done|].
    intros (q & E & [Hq Hin']%list_elem_of_filter)%list_elem_of_fmap.
    assert (p = q) as ->; [|done].
    apply list_elem_of_lookup in Hp as [i Hi], Hin' as [j Hj].
    assert (i = j) as ->; [|congruence].
    eapply NoDup_lookup; [exact Hnd| |]; rewrite list_lookup_fmap.
    + rewrite Hi. cbn. by rewrite E.
    + by rewrite Hj.
  - by rewrite sort_strings_perm, Hn.
  - apply sort_strings_sorted.
Qed.

(** A snapshot that compiles has a contract for exactly the profiles that are
    not off, each the one [build] makes of it; the names are these profiles',
    sorted. One profile that does not build fails the whole. *)
Theorem Compile_spec ps set :
  NoDup (Name <$> ps) → Compile ps = Ok set →
  (∀ p, p ∈ ps → Mode p ≠ ModeOff →
     ∃ c, build p = Ok c ∧ Set_Contract (Some set) (Name p) = Some c) ∧
  (∀ p, p ∈ ps → Mode p = ModeOff → Set_Contract (Some set) (Name p) = None) ∧
  Schema.names set ≡ₚ Name <$> active ps ∧ Sorted String.leb (Schema.names set).
Proof. exact (compiled_contracts ps set). Qed.
End compiled.

Definition sample_profiles : list Profile :=
  [with_schema (defaults "shop") ModeEnforce; with_schema (defaults "blog") ModeObserve;
   with_schema (defaults "idle") ModeOff].

Definition sample_compile : result (ContractSet unit unit string unit) :=
  Compile (λ _, Err EOF) (λ raw, Ok raw) (λ raw, Ok raw) (λ raw, Ok raw)
    (λ _ _ _, Ok tt) sample_profiles.

Theorem Compile_spec_witness :
  ∃ set, sample_compile = Ok set ∧ Schema.names set = ["blog"; "shop"] ∧
    (∀ p, p ∈ sample_profiles → Mode p = ModeOff → Set_Contract (Some set) (Name p) = None) ∧
    Sorted String.leb (Schema.names set).
Proof.
  eexists. split; [reflexivity|]. split; [reflexivity|].
  pose proof (@Compile_spec unit unit string unit string string (λ _, Err EOF) (λ raw, Ok raw) (λ raw, Ok raw) (λ raw, Ok raw)
    (λ _ _ _, Ok tt : result unit) sample_profiles _
    ltac:(apply (bool_decide_unpack _); reflexivity) eq_refl
    : _ ∧ _ ∧ _ ∧ _) as (_ & Hoff & _ & Hsort).
  split; [exact Hoff|exact Hsort].
Defined.

Theorem Response_outcome_witness :
  ∃ r, @Response ascii_tables unit unit string unit (λ k, [k]) id id (λ _, Ok "") sample_validate
    (λ _, "") sample_contract (sample_input "{}")
    {| RespCheck_Body := true; RespCheck_Status := true; RespCheck_ContentType := true |}
    sample_options = Ok r ∧ Result_OK r = true ∧
    outcome_in [OutcomeOK; OutcomeMismatch; OutcomeUnknownOperation; OutcomeContentType;
                OutcomeStatus] r.
Proof.
  eexists. split; [reflexivity|]. split; [reflexivity|].
  refine (@Response_outcome ascii_tables unit unit string unit (λ k, [k]) id id (λ _, Ok "")
    sample_validate (λ _, "") sample_errors sample_contract (sample_input "{}")
    {| RespCheck_Body := true; RespCheck_Status := true; RespCheck_ContentType := true |}
    sample_options _ _).
  reflexivity.
Defined.

(** ** Media types *)

(** The content map declares the base type when a key is the type itself, the
    wildcard of its family, or the wildcard of all; the pointer of a wildcard must
    not be nil. *)
Definition declares {M} `{Unicode} (base : string) (entry : string * option M) : Prop :=
  let key := ToLower (TrimSpace entry.1) in
  key = base ∨
  is_Some entry.2 ∧
    (HasSuffix key "/*" = true ∧ HasPrefix base (TrimSuffix key "*") = true ∨ key = "*/*").

Section media_spec.
Context `{Unicode} {M : Type}.

Lemma media_loop_some base content (star any : option M) :
  is_Some star ∨ is_Some any ∨ Exists (declares base) content →
  (∀ e, e ∈ content → is_Some e.2) →
  is_Some (media_loop base content star any).
Proof.
  revert star any. induction content as [|[name v] content IH]; intros star any Hex Hsome.
  - cbn. destruct Hex as [[? ->]|[[? ->]|Hex]]; [by eexists|by destruct star; eexists|].
    by apply Exists_nil in Hex.
  - cbn [media_loop]. set (key := ToLower (TrimSpace name)).
    destruct (String.eqb_spec key base); [by eexists|].
    assert (is_Some v) as Hv by (apply (Hsome (name, v)); by left).
    assert (∀ e, e ∈ content → is_Some e.2) as Hs by (intros e He; apply Hsome; by right).
    destruct (HasSuffix key "/*" && _) eqn:E1; [apply IH; [by left|done]|].
    destruct (String.eqb_spec key "*/*") as [E2|N2]; [apply IH; [by right; left|done]|].
    apply IH; [|done]. destruct Hex as [?|[?|Hex]]; [auto|auto|].
    apply Exists_cons in Hex as [Hd|?]; [|auto]. exfalso. unfold declares in Hd. cbn [fst snd] in Hd.
    fold key in Hd. cbv zeta in Hd. apply andb_false_iff in E1.
    destruct Hd as [?|(_ & [[A B]|?])]; [done| |done].
    rewrite A, B in E1. by destruct E1.
Qed.

Lemma media_loop_declares base content (star any : option M) v :
  media_loop base content star any = Some v →
  is_Some star ∨ is_Some any ∨ Exists (declares base) content.
Proof.
  revert star any. induction content as [|[name w] content IH]; intros star any; cbn [media_loop].
  { destruct star; [eauto|]. destruct any; [eauto|done]. }
  set (key := ToLower (TrimSpace name)).
  assert (∀ P, P ∨ Exists (declares base) content →
    P ∨ Exists (declares base) ((name, w) :: content)) as Htl.
  { intros P [?|?]; [by left|right]. apply Exists_cons. by right. }
  destruct (String.eqb_spec key base) as [E|N].
  { intros _. right. right. apply Exists_cons. left. by left. }
  destruct (HasSuffix key "/*" && _) eqn:E1.
  { intros Hm. destruct (IH _ _ Hm) as [Hw|Hr].
    - right. right. apply Exists_cons. left. right. split; [done|]. left.
      by apply andb_true_iff in E1.
    - right. by apply Htl. }
  destruct (String.eqb_spec key "*/*") as [E2|N2]; intros Hm; destruct (IH _ _ Hm) as [Hs|[Ha|Hr]].
  - by left.
  - right. right. apply Exists_cons. left. right. split; [done|]. by right.
  - right. right. apply Exists_cons. by right.
  - by left.
  - right. by left.
  - right. right. apply Exists_cons. by right.
Qed.

(** A body's content type is described exactly when a media type of the map
    declares it, whatever their order. *)
Theorem mediaTypeFor_spec (content : Content M) ct :
  (∀ e, e ∈ content → is_Some e.2) →
  is_Some (mediaTypeFor (Some content) ct) ↔ Exists (declares (baseType ct)) content.
Proof.
  intros Hs. cbn. split.
  - intros [v Hm]. apply media_loop_declares in Hm as [[? ?]|[[? ?]|?]]; done.
  - intros Hex. apply media_loop_some; auto.
Qed.
End media_spec.

Theorem mediaTypeFor_spec_witness :
  let content : Content unit := [("text/*", Some tt); ("application/json", Some tt)] in
  is_Some (@mediaTypeFor unit ascii_tables (Some content) "Text/HTML; charset=utf-8") ∧
  Exists (@declares unit ascii_tables "text/html") content.
Proof.
  split; [by eexists|].
  refine (proj1 (@mediaTypeFor_spec ascii_tables unit _ "Text/HTML; charset=utf-8" _) _).
  - intros e He. apply elem_of_cons in He as [->|He]; [by eexists|].
    apply elem_of_cons in He as [->|He]; [by eexists|]. by apply not_elem_of_nil in He.
  - by eexists.
Defined.
