(* ===== verification/Validate.v ===== *)
(** * internal/validate: one run over a loaded request

    [Run] looks at the state of the body first, then asks the contract. An outcome
    that comes from a failing store is marked as a fault. *)
From S2P Require Import Prelude GoString Json Profile AuditLog Findings Schema Decide Body Protocol.

Record Outcome := {
  out_Outcome : string; out_Operation : string; out_Findings : list Finding; out_Errors : Z;
  Skipped : string; out_Fault : string
}.

Definition finding (code severity text : string) : Finding :=
  new_finding code severity TargetBody "" text.

(** An outcome with one finding and no operation. *)
Definition stopped (outcome code severity text fault : string) : Outcome := {|
  out_Outcome := outcome; out_Operation := ""; out_Findings := [finding code severity text];
  out_Errors := 1; Skipped := ""; out_Fault := fault
|}.

Definition skipped (why : string) : Outcome := {|
  out_Outcome := Decide.OutcomeOK; out_Operation := ""; out_Findings := []; out_Errors := 0;
  Skipped := why; out_Fault := ""
|}.

Definition Direction (req : Protocol.Request) : string :=
  match Request_Stream req with
  | None => DirectionC2S
  | Some st => if is_empty (Stream_Direction st) then DirectionC2S else Stream_Direction st
  end.

Definition Opcode (req : Protocol.Request) : string :=
  match Request_Stream req with
  | None => OpcodeText
  | Some st => if is_empty (Stream_Opcode st) then OpcodeText else Stream_Opcode st
  end.

Definition Subprotocol (req : Protocol.Request) : string :=
  match Request_Stream req with None => "" | Some st => Stream_Subprotocol st end.

Definition options (p : Profile) : Options := {|
  MaxErrors := Profile.MaxErrors (Profile_Limits p); Paths := Audit_Paths (Profile_Audit p);
  HashValues := Audit_Values (Profile_Audit p) =s? AuditValuesHash; document := None
|}.

Definition pathOf (uri : string) : string :=
  match IndexByte uri "?" with Some i => str_take i uri | None => uri end.

Definition status (req : Protocol.Request) : Z :=
  match Request_Response req with None => 0 | Some r => Response_Status r end.

Definition headers (inp : list Header) : list (string * string) :=
  (λ h, (Header_Name h, Header_Value h)) <$> inp.

Fixpoint headerValue `{Unicode} (inp : list Header) (name : string) : string :=
  match inp with
  | [] => ""
  | h :: inp => if EqualFold (Header_Name h) name then Header_Value h else headerValue inp name
  end.

Definition merge (res : Result) (deferred : string) : Outcome :=
  if (Result_Outcome res =s? Decide.OutcomeOK) && negb (is_empty deferred) then {|
    out_Outcome := deferred; out_Operation := Operation res;
    out_Findings := (Result_Findings res ++
      [finding "json-args-unavailable" SeverityInfo
         "the query string is not captured on this route"])%list;
    out_Errors := 1; Skipped := ""; out_Fault := "" |}
  else {|
    out_Outcome := Result_Outcome res; out_Operation := Operation res;
    out_Findings := Result_Findings res; out_Errors := Errors res; Skipped := ""; out_Fault := "" |}.

Definition with_fault (fault : string) (o : Outcome) : Outcome := {|
  out_Outcome := out_Outcome o; out_Operation := out_Operation o; out_Findings := out_Findings o;
  out_Errors := out_Errors o; Skipped := Skipped o; out_Fault := fault
|}.

Section run.
Context `{Unicode} {M I K S : Type}.
Context (KeywordPath : K → list string) (LocalizedString : K → string).
Context (sha256 : string → string) (marshal_value : value → result string).
Context (sch_validate : S → value → result (@validation K)) (error_text : error → string).

Abbreviation contract_request :=
  (Schema.Request KeywordPath LocalizedString sha256 marshal_value sch_validate error_text
     (M := M) (I := I)).
Abbreviation contract_response :=
  (Schema.Response KeywordPath LocalizedString sha256 marshal_value sch_validate error_text
     (M := M) (I := I)).
Abbreviation contract_frame :=
  (Schema.Frame KeywordPath LocalizedString sha256 marshal_value sch_validate error_text
     (M := M) (I := I)).

Record Input := {
  Req : Protocol.Request; In_Profile : Profile; In_Contract : @Contract M I K S;
  In_Body : Body; In_Args : Body; In_Headers : list Header
}.

(** [Some] is the outcome the run stops with. *)
Definition bodyState (b : Body) (limits : Limits) : option Outcome :=
  if negb (Available b) then
    Some (stopped OutcomeBodyUnavailable "json-body-unavailable" SeverityInfo
            (Body_Unavailable b) (if Failed b then Body_Unavailable b else ""))
  else if Body_Truncated b then
    Some (stopped Decide.OutcomeTruncated "json-body-truncated" SeverityMedium
            "the body is a prefix: a truncated document cannot be validated" "")
  else if is_empty (Data b) then None
  else if (0 <? MaxBody limits) && (MaxBody limits <? slen (Data b)) then
    Some (stopped OutcomeTooLarge "json-body-too-large" SeverityMedium
            "the body is larger than limits.max_body" "")
  else
    match Scan (Data b) (MaxDepth limits) with
    | Err e =>
        if errors_is e ErrTooDeep then
          Some (stopped OutcomeTooDeep "json-too-deep" SeverityHigh
                  "the document is deeper than limits.max_depth" "")
        else
          Some (stopped Decide.OutcomeUnparsable "json-unparsable" SeverityMedium
                  (error_text e) "")
    | Ok _ => None
    end.

(** [if checks.Body { if out, stop := bodyState(...); stop { return out } }] *)
Definition body_gate (check : bool) (b : Body) (limits : Limits) (k : result Outcome)
    : result Outcome :=
  match (if check then bodyState b limits else None) with
  | Some out => Ok out
  | None => k
  end.

Definition framePhase (inp : Input) : result Outcome :=
  let p := In_Profile inp in
  let direction := Direction (Req inp) in
  let dir := Profile.Direction (Profile_Frame p) direction in
  if negb (FrameCheck_Body (Dir_Checks dir)) then Ok (skipped "body_check_off")
  else if Opcode (Req inp) =s? OpcodeBinary then
    Ok (stopped Decide.OutcomeOpcode "json-frame-binary" SeverityMedium
          "a binary frame where the contract describes text messages" "")
  else
    body_gate true (In_Body inp) (Profile_Limits p)
      (res ← contract_frame (In_Contract inp) {|
         Frame_Path := pathOf (HTTP_URI (Request_HTTP (Req inp)));
         Frame_Direction := direction; Frame_Subprotocol := Subprotocol (Req inp);
         Frame_Body := Data (In_Body inp) |} (Dir_Checks dir) (options p);
       Ok (merge res "")).

(** The query string is to be checked and is not at hand. *)
Definition args_missing (inp : Input) : bool :=
  ReqCheck_Query (Req_Checks (Profile_Request (In_Profile inp))) &&
  (0 <? HTTP_ArgsSize (Request_HTTP (Req inp))) &&
  (negb (Available (In_Args inp)) || negb (Needed (Req inp) NeedArgs)).

Definition requestPhase (inp : Input) : result Outcome :=
  let p := In_Profile inp in
  let checks := Req_Checks (Profile_Request p) in
  let http := Request_HTTP (Req inp) in
  body_gate (ReqCheck_Body checks) (In_Body inp) (Profile_Limits p)
    (let deferred := if args_missing inp then OutcomeArgsUnavailable else "" in
     let fault := if args_missing inp && Failed (In_Args inp)
                  then Body_Unavailable (In_Args inp) else "" in
     res ← contract_request (In_Contract inp) {|
       Method := HTTP_Method http; Scheme := HTTP_Scheme http; Host := HTTP_Host http;
       Path := pathOf (HTTP_URI http); Query := Data (In_Args inp);
       Headers := headers (In_Headers inp); Input_Body := Data (In_Body inp); Status := 0 |}
       checks (options p);
     Ok (with_fault fault (merge res deferred))).

Definition responsePhase (inp : Input) : result Outcome :=
  let p := In_Profile inp in
  let checks := Resp_Checks (Profile_Response p) in
  let http := Request_HTTP (Req inp) in
  let contentType := headerValue (In_Headers inp) "content-type" in
  if negb (is_empty (Data (In_Body inp))) && negb (TypeAllowed (Profile_Response p) contentType)
  then Ok (skipped "content_type_filtered")
  else
    body_gate (RespCheck_Body checks) (In_Body inp) (Profile_Limits p)
      (res ← contract_response (In_Contract inp) {|
         Method := HTTP_Method http; Scheme := HTTP_Scheme http; Host := HTTP_Host http;
         Path := pathOf (HTTP_URI http); Query := "";
         Headers := headers (In_Headers inp); Input_Body := Data (In_Body inp);
         Status := status (Req inp) |} checks (options p);
       Ok (merge res "")).

Definition Run (inp : Input) : result Outcome :=
  if Phase (Req inp) =s? PhaseResponse then responsePhase inp
  else if Phase (Req inp) =s? PhaseFrame then framePhase inp
  else requestPhase inp.
End run.

(** ** The state of a body *)

Section state.
Context (error_text : error → string).
Abbreviation bodyState := (bodyState error_text).

(** The outcomes the state of the body may stop a run with. *)
Definition state_outcomes : list string :=
  [OutcomeBodyUnavailable; Decide.OutcomeTruncated; OutcomeTooLarge; OutcomeTooDeep;
   Decide.OutcomeUnparsable].

Lemma bodyState_some b limits out :
  bodyState b limits = Some out →
  out_Outcome out ∈ state_outcomes ∧ out_Errors out = 1 ∧
  (out_Fault out ≠ "" → Fault b = true).
Proof.
  unfold Validate.bodyState. destruct (Available b).
  - cbn [negb]. destruct (Body_Truncated b); [intros [= <-]; cbn; split; [set_solver|done]|].
    destruct (is_empty _); [done|].
    destruct (_ && _); [intros [= <-]; cbn; split; [set_solver|done]|].
    destruct (Scan _ _) as [|e]; [done|].
    destruct (errors_is _ _); intros [= <-]; cbn; (split; [set_solver|done]).
  - cbn [negb]. intros [= <-]. cbn. split; [set_solver|]. split; [done|].
    unfold Failed. by destruct (Fault b).
Qed.

(** The state of a body lets the contract see it exactly when it is there and
    whole, and is either empty or within the limit of size and accepted by the
    scan, which sees to the limit of depth. *)
Lemma bodyState_none b limits :
  bodyState b limits = None ↔
  Available b = true ∧ Body_Truncated b = false ∧
  (Data b = "" ∨ (MaxBody limits ≤ 0 ∨ slen (Data b) ≤ MaxBody limits) ∧
                 Scan (Data b) (MaxDepth limits) = Ok tt).
Proof.
  unfold Validate.bodyState. destruct (Available b); cbn [negb]; [|by split; [|intros [? _]]].
  destruct (Body_Truncated b); [by split; [|intros (_ & ? & _)]|].
  destruct (is_empty (Data b)) eqn:E.
  { apply is_empty_true in E. split; [auto|done]. }
  apply is_empty_false in E.
  destruct ((0 <? MaxBody limits) && (MaxBody limits <? slen (Data b))) eqn:Em; guards.
  { split; [done|]. intros (_ & _ & [?|[? _]]); [done|lia]. }
  destruct (Scan (Data b) (MaxDepth limits)) as [[]|e].
  - split; [|done]. intros _. split_and!; [done|done|]. right. split; [lia|done].
  - split; [by destruct (errors_is _ _)|]. by intros (_ & _ & [?|[_ ?]]).
Qed.
End state.

Section merged.
Lemma merge_outcome res deferred :
  out_Outcome (merge res deferred) = Result_Outcome res ∨
  out_Outcome (merge res deferred) = deferred ∧ deferred ≠ "".
Proof.
  unfold merge. destruct (_ && _) eqn:E; [right|by left]. guards. tauto.
Qed.

Lemma merge_fault res deferred : out_Fault (merge res deferred) = "".
Proof. unfold merge. by destruct (_ && _). Qed.

Lemma merge_ok res deferred :
  out_Outcome (merge res deferred) = Decide.OutcomeOK →
  deferred ≠ Decide.OutcomeOK → Result_OK res = true ∧ deferred = "".
Proof.
  unfold merge, Result_OK. change Findings.OutcomeOK with Decide.OutcomeOK.
  destruct (String.eqb_spec (Result_Outcome res) Decide.OutcomeOK) as [E|E]; cbn [andb].
  - destruct (is_empty deferred) eqn:Ed; cbn; [|done]. apply is_empty_true in Ed. done.
  - done.
Qed.
End merged.

(** ** What a run says *)

Section runs.
Context `{Unicode} {M I K S : Type}.
Context (KeywordPath : K → list string) (LocalizedString : K → string).
Context (sha256 : string → string) (marshal_value : value → result string).
Context (sch_validate : S → value → result (@validation K)) (error_text : error → string).

Abbreviation Run := (Run KeywordPath LocalizedString sha256 marshal_value sch_validate error_text
  (M := M) (I := I)).
Abbreviation requestPhase := (requestPhase KeywordPath LocalizedString sha256 marshal_value
  sch_validate error_text (M := M) (I := I)).
Abbreviation bodyState := (bodyState error_text).
Abbreviation Input := (@Input M I K S).

(** The body the phase would validate, when it would. *)
Definition gated (inp : Input) : Prop :=
  let p := In_Profile inp in
  if Phase (Req inp) =s? PhaseResponse then
    RespCheck_Body (Resp_Checks (Profile_Response p)) = true ∧
    (Data (In_Body inp) ≠ "" →
     TypeAllowed (Profile_Response p) (headerValue (In_Headers inp) "content-type") = true)
  else if Phase (Req inp) =s? PhaseFrame then
    FrameCheck_Body (Dir_Checks (Profile.Direction (Profile_Frame p) (Direction (Req inp)))) = true ∧
    Opcode (Req inp) ≠ OpcodeBinary
  else ReqCheck_Body (Req_Checks (Profile_Request p)) = true.

Lemma run_stopped inp out :
  gated inp → bodyState (In_Body inp) (Profile_Limits (In_Profile inp)) = Some out →
  Run inp = Ok out.
Proof.
  unfold gated, Validate.Run. intros Hg Hb.
  destruct (Phase (Req inp) =s? PhaseResponse); [|destruct (Phase (Req inp) =s? PhaseFrame)].
  - destruct Hg as [Hc Ht]. unfold responsePhase, body_gate. rewrite Hc, Hb.
    destruct (is_empty (Data (In_Body inp))) eqn:E; [done|]. apply is_empty_false in E.
    by rewrite Ht.
  - destruct Hg as [Hc Ho]. unfold framePhase, body_gate. rewrite Hc, Hb. cbn [negb].
    by rewrite (proj2 (seqb_neq _ _) Ho).
  - unfold Validate.requestPhase, body_gate. by rewrite Hg, Hb.
Qed.

(** There, not a prefix, and not empty. *)
Definition whole (b : Body) : Prop :=
  Available b = true ∧ Body_Truncated b = false ∧ Data b ≠ "".
Definition within (b : Body) (limits : Limits) : Prop :=
  MaxBody limits ≤ 0 ∨ slen (Data b) ≤ MaxBody limits.


(** A run reports a fault only for an object that failed to load: an object its
    sender declares unavailable, or a document that is wrong, is no fault. *)
Theorem Run_fault inp out :
  Run inp = Ok out → out_Fault out ≠ "" →
  Fault (In_Body inp) = true ∨ Fault (In_Args inp) = true.
Proof.
  unfold Validate.Run.
  destruct (Phase (Req inp) =s? PhaseResponse); [|destruct (Phase (Req inp) =s? PhaseFrame)].
  - unfold responsePhase, body_gate. destruct (_ && _); [by intros [= <-]|].
    destruct (if _ : bool then _ else _) as [o|] eqn:Eb.
    + intros [= <-]. destruct (RespCheck_Body _); [|done].
      apply bodyState_some in Eb as (_ & _ & Hf). auto.
    + intros (res & _ & Ho)%bind_ok. injection Ho as <-. by rewrite merge_fault.
  - unfold framePhase, body_gate. destruct (negb _); [by intros [= <-]|].
    destruct (_ =s? _); [by intros [= <-]|].
    destruct (bodyState _ _) as [o|] eqn:Eb.
    + intros [= <-]. apply bodyState_some in Eb as (_ & _ & Hf). auto.
    + intros (res & _ & Ho)%bind_ok. injection Ho as <-. by rewrite merge_fault.
  - unfold Validate.requestPhase, body_gate.
    destruct (if _ : bool then _ else _) as [o|] eqn:Eb.
    + intros [= <-]. destruct (ReqCheck_Body _); [|done].
      apply bodyState_some in Eb as (_ & _ & Hf). auto.
    + intros (res & _ & Ho)%bind_ok. injection Ho as <-. cbn.
      destruct (args_missing inp && Failed (In_Args inp)) eqn:E; [|done].
      intros _. right. by apply andb_true_iff in E as [_ E].
Qed.
End runs.

(** ** Outcomes and soundness *)

Definition phase_outcomes (phase : string) : list string :=
  if phase =s? PhaseResponse then response_outcomes
  else if phase =s? PhaseFrame then frame_outcomes
  else request_outcomes.

Section sound.
Context `{Unicode} {M I K S : Type}.
Context (KeywordPath : K → list string) (LocalizedString : K → string).
Context (sha256 : string → string) (marshal_value : value → result string).
Context (sch_validate : S → value → result (@validation K)) (error_text : error → string).
(** The library's errors are well formed. *)
Context (lib_errors : ∀ s v e, sch_validate s v = Ok (Invalid e) → well_formed e = true).

Abbreviation Run := (Run KeywordPath LocalizedString sha256 marshal_value sch_validate error_text
  (M := M) (I := I)).
Abbreviation bodyState := (bodyState error_text).
Abbreviation contract_frame :=
  (Schema.Frame KeywordPath LocalizedString sha256 marshal_value sch_validate error_text
     (M := M) (I := I)).
Abbreviation Input := (@Input M I K S).

Lemma body_gate_ok check b limits k out (outs : list string) :
  body_gate error_text check b limits k = Ok out →
  (∀ o, o ∈ state_outcomes → o ∈ outs) →
  (k = Ok out → out_Outcome out = Decide.OutcomeOK ∨ out_Outcome out ∈ outs) →
  out_Outcome out = Decide.OutcomeOK ∨ out_Outcome out ∈ outs.
Proof.
  unfold body_gate. intros Hb Hsub Hk. destruct (if check then _ else _) as [o|] eqn:E.
  - injection Hb as <-. right. destruct check; [|done].
    apply bodyState_some in E as [Hin _]. by apply Hsub.
  - by apply Hk.
Qed.

Lemma frame_result c inp ch opts r :
  contract_frame c inp ch opts = Ok r →
  Result_Outcome r ∈ [Findings.OutcomeOK; Findings.OutcomeMismatch;
                      Findings.OutcomeUnknownOperation].
Proof.
  destruct (FrameCheck_Body ch) eqn:Ec.
  - intros Hr. by apply (frame_checked _ _ _ _ _ _ lib_errors) in Hr as [[Ho _] _].
  - unfold Schema.Frame. rewrite Ec. intros [= <-]. by left.
Qed.

Lemma run_outcome_known inp out :
  Run inp = Ok out →
  out_Outcome out = Decide.OutcomeOK ∨ out_Outcome out ∈ phase_outcomes (Phase (Req inp)).
Proof.
  unfold Validate.Run, phase_outcomes.
  destruct (Phase (Req inp) =s? PhaseResponse); [|destruct (Phase (Req inp) =s? PhaseFrame)].
  - unfold responsePhase. destruct (_ && _); [intros [= <-]; by left|].
    intros Hb. eapply body_gate_ok; [exact Hb|by apply sub_of_eval|].
    intros (res & Hr & Ho)%bind_ok. injection Ho as <-.
    apply (Response_outcome _ _ _ _ _ _ lib_errors) in Hr as [Hr _].
    destruct (merge_outcome res "") as [->|[_ ?]]; [|done].
    apply elem_of_cons. revert Hr. by apply sub_of_eval.
  - unfold framePhase. destruct (negb _); [intros [= <-]; by left|].
    destruct (_ =s? _); [intros [= <-]; right; by apply elem_of_eval|].
    intros Hb. eapply body_gate_ok; [exact Hb|by apply sub_of_eval|].
    intros (res & Hr%frame_result & Ho)%bind_ok. injection Ho as <-.
    destruct (merge_outcome res "") as [->|[_ ?]]; [|done].
    apply elem_of_cons. revert Hr. by apply sub_of_eval.
  - unfold Validate.requestPhase. intros Hb.
    eapply body_gate_ok; [exact Hb|by apply sub_of_eval|].
    intros (res & Hr & Ho)%bind_ok. injection Ho as <-.
    apply (Request_outcome _ _ _ _ _ _ lib_errors) in Hr as [Hr _]. cbn.
    destruct (merge_outcome res (if args_missing inp then OutcomeArgsUnavailable else ""))
      as [->|[-> Hne]].
    + apply elem_of_cons. revert Hr. by apply sub_of_eval.
    + destruct (args_missing inp); [|done]. right. by apply elem_of_eval.
Qed.

(** Every outcome a run can end with is either in order or one its phase has a
    policy for: the rule is looked up under a key that is in the phase's table. *)
Theorem Run_outcomes inp out :
  Run inp = Ok out →
  out_Outcome out = Decide.OutcomeOK ∨ out_Outcome out ∈ phase_outcomes (Phase (Req inp)).
Proof. exact (run_outcome_known inp out). Qed.

(** The schema the contract checks the decoded body of this request against. *)
Definition picked (inp : Input) (v : value) : option S * string :=
  let http := Request_HTTP (Req inp) in
  if Phase (Req inp) =s? PhaseFrame then
    pickFrame (In_Contract inp) {|
      Frame_Path := pathOf (HTTP_URI http); Frame_Direction := Direction (Req inp);
      Frame_Subprotocol := Subprotocol (Req inp); Frame_Body := Data (In_Body inp) |} v
  else pick (In_Contract inp) (HTTP_Method http) (pathOf (HTTP_URI http)).

Definition validated (inp : Input) : Prop :=
  ∃ v sch name, Decode (Data (In_Body inp)) = Ok v ∧
    depth v ≤ MaxDepth (Profile_Limits (In_Profile inp)) ∧
    picked inp v = (Some sch, name) ∧ sch_validate sch v = Ok Valid.

Lemma scanned_depth b limits v :
  0 < MaxDepth limits ≤ max_nesting_depth → bodyState b limits = None → Data b ≠ "" →
  Decode (Data b) = Ok v → depth v ≤ MaxDepth limits.
Proof.
  intros Hm (_ & _ & [?|[_ Hs]])%bodyState_none Hne Hd; [done|].
  destruct (scanned_decodes _ _ Hm Hs) as [Hb|(v' & Hv & Hdep)].
  - unfold Decode in Hd. by rewrite Hb in Hd.
  - congruence.
Qed.

Lemma merge_ok_empty res :
  out_Outcome (merge res "") = Decide.OutcomeOK → Result_OK res = true.
Proof. intros Ho. by apply (merge_ok res "") in Ho as [? _]. Qed.

(** A body that is not there is not found in order. *)
Lemma run_unavailable inp out :
  gated inp → Available (In_Body inp) = false → Run inp = Ok out →
  out_Outcome out ≠ Decide.OutcomeOK.
Proof.
  intros Hg Ha Hrun. destruct (bodyState (In_Body inp) (Profile_Limits (In_Profile inp))) as [o|] eqn:Eb.
  - rewrite (run_stopped _ _ _ _ _ _ inp o Hg Eb) in Hrun. injection Hrun as <-.
    apply bodyState_some in Eb as [Hin _]. intros E. rewrite E in Hin. by apply has_string_spec in Hin.
  - apply bodyState_none in Eb as [? _]. congruence.
Qed.

Lemma run_validated inp out :
  let limits := Profile_Limits (In_Profile inp) in
  Contract_kind (In_Contract inp) = KindJSONSchema → gated inp →
  0 < MaxBody limits → 0 < MaxDepth limits ≤ max_nesting_depth →
  Data (In_Body inp) ≠ "" →
  Run inp = Ok out → out_Outcome out = Decide.OutcomeOK →
  Available (In_Body inp) = true ∧ Body_Truncated (In_Body inp) = false ∧
  slen (Data (In_Body inp)) ≤ MaxBody limits ∧ validated inp.
Proof.
  intros limits Hk Hg Hmax Hdepth Hne Hrun Hok.
  destruct (bodyState (In_Body inp) limits) as [o|] eqn:Eb.
  { rewrite (run_stopped _ _ _ _ _ _ inp o Hg Eb) in Hrun. injection Hrun as <-.
    apply bodyState_some in Eb as [Hin _]. rewrite Hok in Hin. by apply has_string_spec in Hin. }
  pose proof (proj1 (bodyState_none _ _ _) Eb) as (Ha & Ht & [?|[Hsize Hscan]]); [done|].
  split; [done|]. split; [done|]. split; [lia|].
  pose proof (λ v, scanned_depth _ _ v Hdepth Eb Hne) as Hdep.
  revert Hrun Hok. unfold Validate.Run, gated, validated, picked in *. fold limits.
  destruct (Phase (Req inp) =s? PhaseResponse) eqn:E1;
    [|destruct (Phase (Req inp) =s? PhaseFrame) eqn:E2].
  - apply seqb_eq in E1. rewrite E1. change (PhaseResponse =s? PhaseFrame) with false.
    destruct Hg as [Hc Hta]. unfold responsePhase, body_gate. fold limits. rewrite Hc, Eb, Hta by done.
    rewrite (proj2 (is_empty_false _) Hne). cbn [negb andb].
    unfold Schema.Response. rewrite Hk. cbn [KindJSONSchema].
    rewrite seqb_refl. unfold responseBySchema. rewrite Hc. cbn [negb].
    intros (res & Hr & Ho)%bind_ok Hout. injection Ho as <-.
    apply (bySchema_result _ _ _ _ _ _ lib_errors) in Hr as [_ Hiff].
    apply merge_ok_empty, Hiff in Hout as (sch & name & Hp & [?|(v & Hd & Hv)]); [done|].
    exists v, sch, name. cbn in *. auto.
  - destruct Hg as [Hc Hop]. unfold framePhase, body_gate. fold limits. rewrite Hc, Eb. cbn [negb].
    rewrite (proj2 (seqb_neq _ _) Hop).
    intros (res & Hr & Ho)%bind_ok Hout. injection Ho as <-.
    apply (frame_checked _ _ _ _ _ _ lib_errors) in Hr as [_ Hiff]; [|done].
    apply merge_ok_empty, Hiff in Hout as [?|(v & sch & name & Hd & Hp & Hv)]; [done|].
    exists v, sch, name. auto.
  - unfold Validate.requestPhase, body_gate. fold limits. rewrite Hg, Eb.
    unfold Schema.Request. rewrite Hk, seqb_refl. unfold requestBySchema. rewrite Hg. cbn [negb].
    intros (res & Hr & Ho)%bind_ok Hout. injection Ho as <-.
    apply (bySchema_result _ _ _ _ _ _ lib_errors) in Hr as [_ Hiff]. cbn in Hout.
    apply merge_ok in Hout as [Hres _]; [|by destruct (args_missing inp)].
    apply Hiff in Hres as (sch & name & Hp & [?|(v & Hd & Hv)]); [done|].
    exists v, sch, name. cbn in *. auto.
Qed.

(** C8. Soundness under a JSON Schema contract. When a phase that checks bodies finds
    a request with a body in order, the body was whole and within the limits of
    size and depth, and its decoded value is one the picked schema accepts. *)
Theorem Run_sound inp out :
  let limits := Profile_Limits (In_Profile inp) in
  Contract_kind (In_Contract inp) = KindJSONSchema → gated inp →
  0 < MaxBody limits → 0 < MaxDepth limits ≤ max_nesting_depth →
  Data (In_Body inp) ≠ "" →
  Run inp = Ok out → out_Outcome out = Decide.OutcomeOK →
  Available (In_Body inp) = true ∧ Body_Truncated (In_Body inp) = false ∧
  slen (Data (In_Body inp)) ≤ MaxBody limits ∧ validated inp.
Proof. exact (run_validated inp out). Qed.
End sound.

(** ** Witnesses *)

Definition loaded (data : string) : Body := {|
  Data := data; Body_Truncated := false; Body_Unavailable := ""; Fault := false; SHA256 := "" |}.

Definition sample_run_input (body : Body) : @Input unit unit string unit := {|
  Req := sample_request PhaseRequest; In_Profile := with_schema (defaults "shop") ModeEnforce;
  In_Contract := sample_contract; In_Body := body; In_Args := loaded "x=1"; In_Headers := []
|}.

Definition sample_Run (body : Body) : result Outcome :=
  @Run ascii_tables unit unit string unit (λ k, [k]) id id (λ _, Ok "") sample_validate (λ _, "")
    (sample_run_input body).


Theorem Run_fault_witness :
  ∃ out, sample_Run (faulty_body unavailableStoreError) = Ok out ∧
    out_Fault out = unavailableStoreError ∧
    (Fault (faulty_body unavailableStoreError) = true ∨ Fault (loaded "x=1") = true).
Proof.
  eexists. split; [reflexivity|]. split; [reflexivity|].
  refine (@Run_fault ascii_tables unit unit string unit (λ k, [k]) id id (λ _, Ok "")
    sample_validate (λ _, "") (sample_run_input (faulty_body unavailableStoreError)) _ _ _);
    [reflexivity|done].
Defined.

Theorem Run_outcomes_witness :
  ∃ out, sample_Run (loaded "7") = Ok out ∧ out_Outcome out = Decide.OutcomeMismatch ∧
    (out_Outcome out = Decide.OutcomeOK ∨ out_Outcome out ∈ phase_outcomes PhaseRequest).
Proof.
  eexists. split; [vm_compute; reflexivity|]. split; [reflexivity|].
  refine (@Run_outcomes ascii_tables unit unit string unit (λ k, [k]) id id (λ _, Ok "")
    sample_validate (λ _, "") sample_errors (sample_run_input (loaded "7")) _ _).
  vm_compute. reflexivity.
Defined.

Theorem Run_sound_witness :
  ∃ out, sample_Run (loaded "{}") = Ok out ∧ out_Outcome out = Decide.OutcomeOK ∧
    @validated ascii_tables unit unit string unit sample_validate (sample_run_input (loaded "{}")).
Proof.
  eexists. split; [vm_compute; reflexivity|]. split; [reflexivity|].
  refine (proj2 (proj2 (proj2 (@Run_sound ascii_tables unit unit string unit (λ k, [k]) id id
    (λ _, Ok "") sample_validate (λ _, "") sample_errors (sample_run_input (loaded "{}")) _
    eq_refl eq_refl eq_refl _ _ _ _)))).
  - split; vm_compute; congruence.
  - done.
  - vm_compute. reflexivity.
  - reflexivity.
Defined.

(** A body of white space alone passes the scan and then does not decode: the run
    says mismatch, not unparsable. *)
Lemma Run_blank_body :
  out_Outcome <$> (match sample_Run (loaded " ") with Ok o => Some o | Err _ => None end) =
    Some Decide.OutcomeMismatch ∧
  Scan " " 64 = Ok tt ∧ is_ok (Decode " ") = false.
Proof. split_and!; vm_compute; reflexivity. Qed.
