(* ===== verification/Queue.v ===== *)
(** * internal/queue: the pool

    Requests wait in a bounded queue for a worker, and every one of them is handed
    to the handler: inspected, or shed because the queue is full, or expired
    because its deadline is too near. The operations that hold the mutex are
    functions on [Pool], with the condition variable they wait on and signal; what a
    submitter, a worker and the sweeper do between two acquisitions of the mutex, or
    between the mutex and the handler, is a function too, and [work_step] lets them
    take their turns in any order. [env_step] is what comes from outside: time,
    timers, submissions, [Close]. Times are nanoseconds. The counter [io] of the
    shared library is left out: nothing here reads it. *)
From S2P Require Import Prelude GoString Protocol.

Definition ReasonQueueLimit := "JSON_QUEUE_LIMIT".
Definition ReasonDeadlineExceeded := "JSON_DEADLINE_EXCEEDED".
Definition FullDrop := "drop".
Definition FullWait := "wait".

Definition Millisecond : Z := 1000000.

Record Task := MkTask {
  Task_Req : Request; Task_Reply : string; Personal : bool; Fill : Z; enqueued : Z
}.

Definition set_fill (fill : Z) (t : Task) : Task :=
  MkTask (Task_Req t) (Task_Reply t) (Personal t) fill (enqueued t).
Definition set_enqueued (now : Z) (t : Task) : Task :=
  MkTask (Task_Req t) (Task_Reply t) (Personal t) (Fill t) now.

(** ** sync.Cond

    A goroutine in [Wait] holds a ticket, and sleeps while its ticket is in the
    list. [Signal] takes one out, [Broadcast] all. *)
Record Cond := MkCond { notify : list nat; next_ticket : nat }.

Definition cond_wait (c : Cond) : Cond * nat :=
  (MkCond (notify c ++ [next_ticket c]) (S (next_ticket c)), next_ticket c).
Definition Signal (c : Cond) : Cond := MkCond (tail (notify c)) (next_ticket c).
Definition Broadcast (c : Cond) : Cond := MkCond [] (next_ticket c).
Definition woken (c : Cond) (ticket : nat) : bool := bool_decide (ticket ∉ notify c).

(** ** The pool under its mutex *)

Record Pool := MkPool {
  q : list Task; q_depth : Z; closed : bool; full : string;
  reserve : Z; minBudget : Z;
  Accepted : Z; Shed : Z; Expired : Z; cond : Cond
}.

Definition New (depth reserveMS minBudgetMS : Z) (full : string) : Pool :=
  MkPool [] (if depth <? 1 then 1 else depth) false
    (if is_empty full then FullDrop else full)
    (wrap64 (reserveMS * Millisecond)) (wrap64 (minBudgetMS * Millisecond)) 0 0 0 (MkCond [] 0).

Definition set_q (l : list Task) (p : Pool) : Pool :=
  MkPool l (q_depth p) (closed p) (full p) (reserve p) (minBudget p) (Accepted p) (Shed p) (Expired p)
    (cond p).
Definition set_cond (c : Cond) (p : Pool) : Pool :=
  MkPool (q p) (q_depth p) (closed p) (full p) (reserve p) (minBudget p) (Accepted p) (Shed p)
    (Expired p) c.
Definition set_closed (p : Pool) : Pool :=
  MkPool (q p) (q_depth p) true (full p) (reserve p) (minBudget p) (Accepted p) (Shed p) (Expired p)
    (cond p).
Definition count_expired (p : Pool) : Pool :=
  MkPool (q p) (q_depth p) (closed p) (full p) (reserve p) (minBudget p) (Accepted p) (Shed p)
    (wrap64 (Expired p + 1)) (cond p).
Definition count_shed (p : Pool) : Pool :=
  MkPool (q p) (q_depth p) (closed p) (full p) (reserve p) (minBudget p) (Accepted p)
    (wrap64 (Shed p + 1)) (Expired p) (cond p).

(** [p.cond.Broadcast()]. *)
Definition wake_all (p : Pool) : Pool := set_cond (Broadcast (cond p)) p.

Definition leftAt (p : Pool) (t : Task) (now : Z) : Z :=
  let deadline := wrap64 (DeadlineMS (Task_Req t) * Millisecond) in
  wrap64 (wrap64 (deadline - saturate64 (now - enqueued t)) - reserve p).

Definition expired_at (p : Pool) (now : Z) (t : Task) : bool := leftAt p t now <? minBudget p.

Definition takeExpiredLocked (p : Pool) (now : Z) : Pool * list Task :=
  let dead := filter (λ t, expired_at p now t = true) (q p) in
  let p := set_q (filter (λ t, expired_at p now t = false) (q p)) p in
  (if bool_decide (dead = []) then p else wake_all p, dead).

Definition enqueueLocked (p : Pool) (t : Task) : Pool :=
  MkPool (q p ++ [t]) (q_depth p) (closed p) (full p) (reserve p) (minBudget p)
    (wrap64 (Accepted p + 1)) (Shed p) (Expired p) (Signal (cond p)).

Definition fillLocked (p : Pool) : Z :=
  if q_depth p <=? len (q p) then 100 else len (q p) * 100 / q_depth p.

Definition Pool_Queued (p : Pool) : Z := len (q p).

(** What becomes of a task in the critical section of [Submit]. *)
Inductive fate := Queued | Waits | Sheds | Expires.

Definition admission (p : Pool) (t : Task) : Pool * Task * fate :=
  if closed p then (p, t, Expires)
  else
    let t := set_fill (fillLocked p) t in
    if len (q p) <? q_depth p then (enqueueLocked p t, t, Queued)
    else if full p =s? FullWait then (p, t, Waits)
    else (p, t, Sheds).

(** One turn of the loop of [submitWaitLocked], and what follows the loop: there are
    expired tasks to reply to; the goroutine sleeps; or the wait is over. *)
Inductive turn := Over (f : fate) | Replies (dead : list Task) | Sleeps (ticket : nat).

Definition wait_turn (p : Pool) (t : Task) (timedOut : bool) (now : Z) : Pool * turn :=
  if (q_depth p <=? len (q p)) && negb timedOut && negb (closed p) then
    let '(p, dead) := takeExpiredLocked p now in
    if bool_decide (dead = []) then
      let '(c, ticket) := cond_wait (cond p) in (set_cond c p, Sleeps ticket)
    else (p, Replies dead)
  else if closed p then (p, Over Expires)
  else if len (q p) <? q_depth p then (enqueueLocked p t, Over Queued)
  else (p, Over Expires).

(** One turn of the loop of [pop]: what the call returns, or the ticket the worker
    sleeps on. *)
Inductive popped_task := Popped (t : Task) | Nothing | Stopped.

Definition pop (p : Pool) (now : Z) : Pool * list Task * (popped_task + nat) :=
  let '(p, dead) := takeExpiredLocked p now in
  match q p with
  | t :: rest => (wake_all (set_q rest p), dead, inl (Popped t))
  | [] =>
      if closed p then (p, dead, inl Stopped)
      else if bool_decide (dead = []) then
        let '(c, ticket) := cond_wait (cond p) in (set_cond c p, dead, inr ticket)
      else (p, dead, inl Nothing)
  end.

Definition budget (p : Pool) (t : Task) (now : Z) : Pool * Z * string :=
  let left := leftAt p t now in
  if left <? minBudget p then (count_expired p, left, ReasonDeadlineExceeded)
  else (p, left, "").

(** ** The goroutines *)

(** A call of the handler. *)
Record call := Call { call_task : Task; call_budget : Z; call_shed : string }.

(** The call of [expire] with nothing left. *)
Definition expire (t : Task) : call := Call t 0 ReasonDeadlineExceeded.

(** Where a call of [Submit] is: at its first check; before [collectExpired]; in
    [replyDead], with what is left of the expired tasks; in [submitWaitLocked], with
    the time of its timer, [timedOut], and the ticket it sleeps on; in the
    [replyDead] of that loop. *)
Inductive phase :=
| Checking | Collecting | Clearing (dead : list Task)
| Waiting (until : Z) (timedOut : bool) (ticket : option nat)
| Replying (until : Z) (timedOut : bool) (dead : list Task).

Record submitter := Sub { sub_task : Task; sub_phase : phase }.

(** The pool afterwards, the submitter if it has not returned, a call of the handler
    and a task that is queued. *)
Definition submitted : Type := Pool * option submitter * list call * list Task.

(** [Submit] under the mutex, up to its end or into the wait. *)
Definition enter (p : Pool) (now : Z) (t : Task) : submitted :=
  match admission p t with
  | (p, t, Queued) => (p, None, [], [t])
  | (p, t, Sheds) => (count_shed p, None, [Call t 0 ReasonQueueLimit], [])
  | (p, t, Expires) => (count_expired p, None, [expire t], [])
  | (p, t, Waits) =>
      let left := leftAt p t now in
      if left <? minBudget p
      then (count_expired p, None, [Call t left ReasonDeadlineExceeded], [])
      else (p, Some (Sub t (Waiting (now + left) false None)), [], [])
  end.

(** The next stretch of a submitter; [None] while it sleeps. [later] is the time
    when [Submit] reads it once more for the handler. *)
Definition submitter_turn (p : Pool) (now later : Z) (s : submitter) : option submitted :=
  let t := sub_task s in
  match sub_phase s with
  | Checking =>
      Some (if leftAt p t now <? minBudget p
            then (count_expired p, None, [Call t (leftAt p t later) ReasonDeadlineExceeded], [])
            else (p, Some (Sub t Collecting), [], []))
  | Collecting =>
      let '(p, dead) := takeExpiredLocked p now in Some (p, Some (Sub t (Clearing dead)), [], [])
  | Clearing (d :: dead) => Some (count_expired p, Some (Sub t (Clearing dead)), [expire d], [])
  | Clearing [] => Some (enter p now t)
  | Waiting until timedOut (Some ticket) =>
      if woken (cond p) ticket
      then Some (p, Some (Sub t (Waiting until timedOut None)), [], []) else None
  | Waiting until timedOut None =>
      Some match wait_turn p t timedOut now with
           | (p, Sleeps ticket) => (p, Some (Sub t (Waiting until timedOut (Some ticket))), [], [])
           | (p, Replies dead) => (p, Some (Sub t (Replying until timedOut dead)), [], [])
           | (p, Over Queued) => (p, None, [], [t])
           | (p, Over _) => (count_expired p, None, [expire t], [])
           end
  | Replying until timedOut (d :: dead) =>
      Some (count_expired p, Some (Sub t (Replying until timedOut dead)), [expire d], [])
  | Replying until timedOut [] => Some (p, Some (Sub t (Waiting until timedOut None)), [], [])
  end.

(** A worker between two calls of [pop]: the expired tasks it still has to reply
    to, and what [pop] gave it. *)
Record job := Job { job_dead : list Task; job_next : popped_task }.

(** Its next stretch: the pool, the job if it is not done, whether the worker
    returns, and a call of the handler. *)
Definition job_turn (p : Pool) (now : Z) (j : job) : Pool * option job * bool * list call :=
  match j with
  | Job (d :: dead) next => (count_expired p, Some (Job dead next), false, [expire d])
  | Job [] (Popped t) =>
      let '(p, remains, shed) := budget p t now in (p, None, false, [Call t remains shed])
  | Job [] Nothing => (p, None, false, [])
  | Job [] Stopped => (p, None, true, [])
  end.

(** The calls of [Submit] under way; the tickets of the workers in the [Wait] of
    [pop]; the workers with a job, the others being free; the sweeper with the
    tasks it has to reply to, [None] when it has returned. [stop] tells that the
    channel is closed. [handled], [arrived], [accepted] and [started] record the
    past: the calls of the handler, the tasks submitted, those queued, and those a
    worker took, in order. *)
Record system := System {
  pool : Pool; now : Z; workers : nat; exited : nat; stop : bool;
  submitters : list submitter; sleeping : list nat; busy : list job;
  sweeping : option (list Task); handled : list call;
  arrived : list Task; accepted : list Task; started : list Task
}.

Definition start (workers : nat) (p : Pool) (now : Z) : system :=
  System p now workers 0 false [] [] [] (Some []) [] [] [] [].

(** Two tasks stand for the same submission. *)
Definition identity (t : Task) : Request * string := (Task_Req t, Task_Reply t).

Definition popped (r : popped_task) : list Task := match r with Popped t => [t] | _ => [] end.

(** A goroutine of the pool goes on. *)
Inductive work_step : system → system → Prop :=
| step_submit p n w e b su1 x su2 sl bu sw ha ad ac st later p' x' calls queued :
    n ≤ later → submitter_turn p n later x = Some (p', x', calls, queued) →
    work_step (System p n w e b (su1 ++ x :: su2) sl bu sw ha ad ac st)
      (System p' n w e b (su1 ++ option_list x' ++ su2) sl bu sw (ha ++ calls) ad (ac ++ queued) st)
(** [work]: a free worker in [pop]. *)
| step_pop p n w e b su sl bu sw ha ad ac st p' dead r :
    (e + length sl + length bu < w)%nat → pop p n = (p', dead, inl r) →
    work_step (System p n w e b su sl bu sw ha ad ac st)
      (System p' n w e b su sl (bu ++ [Job dead r]) sw ha ad ac (st ++ popped r))
| step_sleep p n w e b su sl bu sw ha ad ac st p' dead ticket :
    (e + length sl + length bu < w)%nat → pop p n = (p', dead, inr ticket) →
    work_step (System p n w e b su sl bu sw ha ad ac st)
      (System p' n w e b su (sl ++ [ticket]) bu sw ha ad ac st)
| step_wake p n w e b su sl1 ticket sl2 bu sw ha ad ac st :
    woken (cond p) ticket = true →
    work_step (System p n w e b su (sl1 ++ ticket :: sl2) bu sw ha ad ac st)
      (System p n w e b su (sl1 ++ sl2) bu sw ha ad ac st)
| step_job p n w e b su sl bu1 j bu2 sw ha ad ac st p' j' exits calls :
    job_turn p n j = (p', j', exits, calls) →
    work_step (System p n w e b su sl (bu1 ++ j :: bu2) sw ha ad ac st)
      (System p' n w (if exits : bool then S e else e) b su sl (bu1 ++ option_list j' ++ bu2) sw
         (ha ++ calls) ad ac st)
(** [sweep]: the replies, and the end. *)
| step_sweep_dead p n w e b su sl bu t d ha ad ac st :
    work_step (System p n w e b su sl bu (Some (t :: d)) ha ad ac st)
      (System (count_expired p) n w e b su sl bu (Some d) (ha ++ [expire t]) ad ac st)
| step_sweep_end p n w e su sl bu ha ad ac st :
    work_step (System p n w e true su sl bu (Some []) ha ad ac st)
      (System p n w e true su sl bu None ha ad ac st).

(** The timer of a wait fires: it sets [timedOut]. *)
Definition timed_out (x : submitter) : submitter :=
  Sub (sub_task x)
    match sub_phase x with
    | Waiting until _ ticket => Waiting until true ticket
    | Replying until _ dead => Replying until true dead
    | ph => ph
    end.
Definition timer_at (x : submitter) : option Z :=
  match sub_phase x with
  | Waiting until false _ | Replying until false _ => Some until
  | _ => None
  end.

Inductive env_step : system → system → Prop :=
| step_tick p n w e b su sl bu sw ha ad ac st d :
    0 ≤ d →
    env_step (System p n w e b su sl bu sw ha ad ac st) (System p (n + d) w e b su sl bu sw ha ad ac st)
(** [Submit] is called, and stamps the task. *)
| step_arrive p n w e b su sl bu sw ha ad ac st t :
    env_step (System p n w e b su sl bu sw ha ad ac st)
      (System p n w e b (su ++ [Sub (set_enqueued n t) Checking]) sl bu sw ha (ad ++ [set_enqueued n t])
         ac st)
(** The timer of a wait, at its time or later. *)
| step_timer p n w e b su1 x su2 sl bu sw ha ad ac st until :
    timer_at x = Some until → until ≤ n →
    env_step (System p n w e b (su1 ++ x :: su2) sl bu sw ha ad ac st)
      (System (wake_all p) n w e b (su1 ++ timed_out x :: su2) sl bu sw ha ad ac st)
(** The timer of a wait that was over when it got the mutex. *)
| step_stray p n w e b su sl bu sw ha ad ac st :
    env_step (System p n w e b su sl bu sw ha ad ac st)
      (System (wake_all p) n w e b su sl bu sw ha ad ac st)
(** Which of those who wait [Signal] wakes is not specified. *)
| step_shuffle p n w e b su sl bu sw ha ad ac st l :
    l ≡ₚ notify (cond p) →
    env_step (System p n w e b su sl bu sw ha ad ac st)
      (System (set_cond (MkCond l (next_ticket (cond p))) p) n w e b su sl bu sw ha ad ac st)
(** The sweeper's ticker. *)
| step_sweep p n w e b su sl bu ha ad ac st p' dead :
    takeExpiredLocked p n = (p', dead) →
    env_step (System p n w e b su sl bu (Some []) ha ad ac st)
      (System p' n w e b su sl bu (Some dead) ha ad ac st)
(** [Close] up to its wait: the channel, then the flag under the mutex. *)
| step_stop p n w e su sl bu sw ha ad ac st :
    env_step (System p n w e false su sl bu sw ha ad ac st)
      (System p n w e true su sl bu sw ha ad ac st)
| step_close p n w e su sl bu sw ha ad ac st :
    env_step (System p n w e true su sl bu sw ha ad ac st)
      (System (wake_all (set_closed p)) n w e true su sl bu sw ha ad ac st).

Inductive pool_step (s s' : system) : Prop :=
| on_work : work_step s s' → pool_step s s'
| on_env : env_step s s' → pool_step s s'.

(** [Close] up to its wait, in its two steps. *)
Definition close_channel (s : system) : system :=
  System (pool s) (now s) (workers s) (exited s) true (submitters s) (sleeping s) (busy s)
    (sweeping s) (handled s) (arrived s) (accepted s) (started s).
Definition close_flag (s : system) : system :=
  System (wake_all (set_closed (pool s))) (now s) (workers s) (exited s) (stop s) (submitters s)
    (sleeping s) (busy s) (sweeping s) (handled s) (arrived s) (accepted s) (started s).

Lemma close_channel_step s : stop s = false → pool_step s (close_channel s).
Proof. destruct s. cbn. intros ->. apply on_env, step_stop. Qed.
Lemma close_flag_step s : stop s = true → pool_step s (close_flag s).
Proof. destruct s. cbn. intros ->. apply on_env, step_close. Qed.

(** What [Close] waits for: the workers and the sweeper have returned. *)
Definition joined (s : system) : Prop := exited s = workers s ∧ sweeping s = None.

(** ** The time left *)

(** While the deadline in nanoseconds, and what has gone by with the reserve, fit in
    64 bits, the time left is what it should be. *)
Lemma leftAt_exact p t now :
  0 ≤ DeadlineMS (Task_Req t) * Millisecond ≤ int64_max → 0 ≤ now - enqueued t → 0 ≤ reserve p →
  now - enqueued t + reserve p ≤ int64_max →
  leftAt p t now = DeadlineMS (Task_Req t) * Millisecond - (now - enqueued t) - reserve p.
Proof.
  unfold int64_max. intros Hd He Hr Hs. unfold leftAt, saturate64, int64_max, int64_min.
  rewrite Z.min_r, Z.max_r by lia.
  rewrite (wrap64_id (_ * _)) by (unfold int64, int64_min, int64_max; lia).
  rewrite (wrap64_id (_ * _ - _)) by (unfold int64, int64_min, int64_max; lia).
  apply wrap64_id. unfold int64, int64_min, int64_max. lia.
Qed.

(** A deadline three hundred years away has passed already. *)
Lemma far_deadline_expires p t now :
  DeadlineMS (Task_Req t) = 10 ^ 13 → 0 ≤ minBudget p → 0 ≤ reserve p → 0 ≤ now - enqueued t →
  now - enqueued t + reserve p ≤ 7 * 10 ^ 17 → expired_at p now t = true.
Proof.
  intros Hd Hm Hr He Hs. unfold expired_at, leftAt. rewrite Hd. apply Z.ltb_lt.
  change (wrap64 (10 ^ 13 * Millisecond)) with (10 ^ 19 - 2 ^ 64).
  unfold saturate64, int64_max, int64_min. rewrite Z.min_r, Z.max_r by lia.
  rewrite (wrap64_id (10 ^ 19 - 2 ^ 64 - _)) by (unfold int64, int64_min, int64_max; lia).
  rewrite wrap64_id by (unfold int64, int64_min, int64_max; lia). lia.
Qed.


(** ** The operations *)

Lemma admission_cases p t p' t' f :
  admission p t = (p', t', f) →
  match f with
  | Queued => closed p = false ∧ len (q p) < q_depth p ∧ t' = set_fill (fillLocked p) t ∧
              p' = enqueueLocked p t'
  | Waits => closed p = false ∧ q_depth p ≤ len (q p) ∧ t' = set_fill (fillLocked p) t ∧
             p' = p ∧ full p = FullWait
  | Sheds => closed p = false ∧ q_depth p ≤ len (q p) ∧ t' = set_fill (fillLocked p) t ∧
             p' = p ∧ full p ≠ FullWait
  | Expires => closed p = true ∧ t' = t ∧ p' = p
  end.
Proof.
  unfold admission. destruct (closed p); [by intros [= <- <- <-]|].
  destruct (Z.ltb_spec (len (q p)) (q_depth p)); [by intros [= <- <- <-]|].
  destruct (String.eqb_spec (full p) FullWait); by intros [= <- <- <-].
Qed.

Lemma filter_split {A} (f : A → bool) l :
  l ≡ₚ filter (λ x, f x = false) l ++ filter (λ x, f x = true) l.
Proof.
  induction l as [|x l IH]; [done|]. rewrite !filter_cons.
  destruct (f x); cbn; [|by apply perm_skip].
  etrans; [by apply perm_skip|]. apply Permutation_middle.
Qed.

Lemma filter_none {A} (f : A → bool) l :
  filter (λ x, f x = true) l = [] → filter (λ x, f x = false) l = l.
Proof.
  induction l as [|x l IH]; [done|]. rewrite !filter_cons.
  destruct (f x); cbn; [done|]. intros H. by rewrite IH.
Qed.

(** What the tasks taken out leave; those who wait are woken if there are any. *)
Lemma takeExpired_spec p n p' dead :
  takeExpiredLocked p n = (p', dead) →
  q p ≡ₚ q p' ++ dead ∧ sublist (q p') (q p) ∧
  (dead = [] ∧ p' = p ∨ dead ≠ [] ∧ p' = wake_all (set_q (q p') p)).
Proof.
  unfold takeExpiredLocked. case_bool_decide as Hd; intros [= <- <-]; cbn.
  - rewrite Hd, (filter_none _ _ Hd), app_nil_r. split; [done|]. split; [done|]. left.
    split; [done|]. by destruct p.
  - split; [apply filter_split|]. split; [apply sublist_filter|]. by right.
Qed.

Lemma wait_turn_cases p t timedOut n p' r :
  wait_turn p t timedOut n = (p', r) →
  match r with
  | Over Queued => closed p = false ∧ len (q p) < q_depth p ∧ p' = enqueueLocked p t
  | Over f => f = Expires ∧ p' = p ∧ (closed p = true ∨ timedOut = true)
  | Replies dead => takeExpiredLocked p n = (p', dead) ∧ dead ≠ []
  | Sleeps ticket => closed p = false ∧ timedOut = false ∧ q_depth p ≤ len (q p) ∧
      cond_wait (cond p) = (cond p', ticket) ∧ p' = set_cond (cond p') p
  end.
Proof.
  unfold wait_turn. destruct (Z.leb_spec (q_depth p) (len (q p))) as [Hf|Hf]; cbn [andb].
  - destruct timedOut, (closed p) eqn:Hc; cbn [andb negb].
    1, 3: intros [= <- <-]; auto.
    + destruct (Z.ltb_spec (len (q p)) (q_depth p)); [lia|]. intros [= <- <-]. auto.
    + destruct (takeExpiredLocked p n) as [p1 dead] eqn:E.
      destruct (takeExpired_spec _ _ _ _ E) as (_ & _ & [[-> ->]|[Hd _]]).
      * rewrite bool_decide_true by done. intros [= <- <-]. done.
      * rewrite bool_decide_false by done. by intros [= <- <-].
  - destruct (closed p) eqn:Hc; [intros [= <- <-]; auto|].
    destruct (Z.ltb_spec (len (q p)) (q_depth p)); [|lia]. by intros [= <- <-].
Qed.

Lemma pop_cases p n p' dead r :
  pop p n = (p', dead, r) →
  match r with
  | inl (Popped t) => p' = wake_all (set_q (q p') p) ∧ q p ≡ₚ t :: q p' ++ dead ∧
      sublist (t :: q p') (q p)
  | inl r => takeExpiredLocked p n = (p', dead) ∧ q p' = [] ∧
      match r with Stopped => closed p = true | _ => closed p = false ∧ dead ≠ [] end
  | inr ticket => closed p = false ∧ q p = [] ∧ dead = [] ∧
      cond_wait (cond p) = (cond p', ticket) ∧ p' = set_cond (cond p') p
  end.
Proof.
  unfold pop. destruct (takeExpiredLocked p n) as [p1 d] eqn:E.
  destruct (takeExpired_spec p n p1 d E) as (Hperm & Hsub & Hp1).
  assert (closed p1 = closed p) as Hc by by destruct Hp1 as [[_ ->]|[_ ->]].
  destruct (q p1) as [|t rest] eqn:Eq; cbn in *.
  - rewrite Hc. destruct (closed p) eqn:Ec; [by intros [= <- <- <-]|].
    destruct Hp1 as [[-> ->]|[Hd _]].
    + rewrite bool_decide_true by done. by intros [= <- <- <-].
    + rewrite bool_decide_false by done. by intros [= <- <- <-].
  - intros [= <- <- <-]. cbn. split; [|done]. by destruct Hp1 as [[_ ->]|[_ ->]].
Qed.

Lemma budget_cases p t n p' left shed :
  budget p t n = (p', left, shed) →
  left = leftAt p t n ∧
  (shed = ReasonDeadlineExceeded ∧ p' = count_expired p ∨
   shed = "" ∧ p' = p ∧ minBudget p ≤ left).
Proof.
  unfold budget. destruct (Z.ltb_spec (leftAt p t n) (minBudget p)); intros [= <- <- <-]; auto.
Qed.

(** The fill a task sees is a percentage, and 100 means a full queue. *)
Lemma fillLocked_spec p :
  1 ≤ q_depth p → 0 ≤ fillLocked p ≤ 100 ∧ (fillLocked p = 100 ↔ q_depth p ≤ len (q p)).
Proof.
  intros Hd. unfold fillLocked. assert (0 ≤ len (q p)) by (unfold len; lia).
  destruct (Z.leb_spec (q_depth p) (len (q p))) as [Hle|Hgt]; [lia|].
  assert (0 ≤ len (q p) * 100 / q_depth p) by (apply Z.div_pos; lia).
  assert (len (q p) * 100 / q_depth p < 100) by (apply Z.div_lt_upper_bound; nia).
  lia.
Qed.

Lemma full_fill p t : q_depth p ≤ len (q p) → Fill (set_fill (fillLocked p) t) = 100.
Proof. intros Hf. cbn. unfold fillLocked. by rewrite (proj2 (Z.leb_le _ _) Hf). Qed.

(** ** What a stretch of code does to the pool *)

(** How the queue changes, with the tasks queued and those a worker takes. *)
Inductive queue_change (p p' : Pool) : list Task → list Task → Prop :=
| queue_cut : sublist (q p') (q p) → Accepted p' = Accepted p → queue_change p p' [] []
| queue_taken t : sublist (t :: q p') (q p) → Accepted p' = Accepted p → queue_change p p' [] [t]
| queue_joined t : closed p = false → len (q p) < q_depth p → q p' = (q p ++ [t])%list →
    Accepted p' = wrap64 (Accepted p + 1) → queue_change p p' [t] [].

(** What the handler is told, and the counters that go with it. *)
Inductive call_change (p p' : Pool) : list call → Prop :=
| call_none : Shed p' = Shed p → Expired p' = Expired p → call_change p p' []
| call_expired c : call_shed c = ReasonDeadlineExceeded →
    Shed p' = Shed p → Expired p' = wrap64 (Expired p + 1) → call_change p p' [c]
| call_limit c : call_shed c = ReasonQueueLimit → call_budget c = 0 → Fill (call_task c) = 100 →
    full p ≠ FullWait →
    Shed p' = wrap64 (Shed p + 1) → Expired p' = Expired p → call_change p p' [c]
| call_served c : call_shed c = "" → minBudget p ≤ call_budget c →
    Shed p' = Shed p → Expired p' = Expired p → call_change p p' [c].

(** The settings of the pool, which nothing changes. *)
Definition settings (p : Pool) : Z * string * Z * Z := (q_depth p, full p, reserve p, minBudget p).

(** From [p] to [p'] with the tasks [before] at hand, and [after] when it is done:
    what leaves one place enters another. *)
Record effect (p p' : Pool) (before after : list Task) (calls : list call) (ac st : list Task) : Prop := {
  ef_settings : settings p' = settings p;
  ef_closed : closed p' = closed p;
  ef_tasks : identity <$> q p ++ before ≡ₚ identity <$> q p' ++ after ++ (call_task <$> calls);
  ef_queue : queue_change p p' ac st;
  ef_calls : call_change p p' calls
}.

Lemma effect_none p l k : identity <$> l = identity <$> k → effect p p l k [] [] [].
Proof.
  intros E. split; [done|done| |by apply queue_cut|by apply call_none].
  by rewrite app_nil_r, !fmap_app, E.
Qed.

Lemma effect_expire p l t c :
  call_shed c = ReasonDeadlineExceeded → identity (call_task c) = identity t →
  effect p (count_expired p) (t :: l) l [c] [] [].
Proof.
  intros Hc E. split; [done|done| |by apply queue_cut|by apply call_expired].
  cbn. rewrite !fmap_app. cbn. rewrite E. solve_Permutation.
Qed.

Lemma effect_enqueue p t t' :
  closed p = false → len (q p) < q_depth p → identity t' = identity t →
  effect p (enqueueLocked p t') [t] [] [] [t'] [].
Proof.
  intros Hc Hlt E. split; [done|done| |by apply queue_joined|by apply call_none].
  cbn. rewrite !fmap_app. cbn. by rewrite E, app_nil_r.
Qed.

Lemma effect_take p n p' dead l k :
  takeExpiredLocked p n = (p', dead) → identity <$> k = (identity <$> l) ++ (identity <$> dead) →
  effect p p' l k [] [] [].
Proof.
  intros H E. destruct (takeExpired_spec _ _ _ _ H) as (Hp & Hsub & Hc).
  split; [by destruct Hc as [[_ ->]|[_ ->]]..| | |].
  - rewrite app_nil_r, !fmap_app, E, Hp, fmap_app. solve_Permutation.
  - apply queue_cut; [done|]. by destruct Hc as [[_ ->]|[_ ->]].
  - apply call_none; by destruct Hc as [[_ ->]|[_ ->]].
Qed.

Lemma effect_wait p c l k : identity <$> l = identity <$> k → effect p (set_cond c p) l k [] [] [].
Proof.
  intros E. split; [done|done| |by apply queue_cut|by apply call_none].
  by rewrite app_nil_r, !fmap_app, E.
Qed.

(** *** Of the goroutines *)

Definition phase_dead (ph : phase) : list Task :=
  match ph with Clearing dead | Replying _ _ dead => dead | _ => [] end.
Definition sub_tasks (x : submitter) : list Task := sub_task x :: phase_dead (sub_phase x).
Definition all_sub_tasks (l : list submitter) : list Task := l ≫= sub_tasks.

Definition job_tasks (j : job) : list Task := job_dead j ++ popped (job_next j).
Definition jobs_tasks (l : list job) : list Task := l ≫= job_tasks.

Lemma jobs_one j : jobs_tasks (option_list (Some j)) = job_tasks j.
Proof. apply app_nil_r. Qed.

Lemma admit_effect p n t p' x' calls queued :
  enter p n t = (p', x', calls, queued) →
  effect p p' [t] (all_sub_tasks (option_list x')) calls queued [].
Proof.
  unfold enter. destruct (admission p t) as [[p1 t1] f] eqn:E. apply admission_cases in E.
  destruct f.
  - destruct E as (Hc & Hlt & Ht & ->). intros [= <- <- <- <-]. apply effect_enqueue; [done..|].
    by rewrite Ht.
  - destruct E as (Hc & Hf & -> & -> & _). destruct (Z.ltb_spec (leftAt p (set_fill (fillLocked p) t) n)
      (minBudget p)); intros [= <- <- <- <-]; [by apply effect_expire|by apply effect_none].
  - destruct E as (Hc & Hf & -> & -> & Hw). intros [= <- <- <- <-].
    split; [done|done| |by apply queue_cut|].
    + cbn. by rewrite !fmap_app.
    + apply call_limit; try done. by apply full_fill.
  - destruct E as (Hc & -> & ->). intros [= <- <- <- <-]. by apply effect_expire.
Qed.

Lemma submitter_effect p n later x p' x' calls queued :
  submitter_turn p n later x = Some (p', x', calls, queued) →
  effect p p' (sub_tasks x) (all_sub_tasks (option_list x')) calls queued [].
Proof.
  destruct x as [t ph]. unfold submitter_turn, sub_tasks. cbn [sub_task sub_phase].
  destruct ph as [| |[|d dead]|until timedOut [ticket|]|until timedOut [|d dead]]; cbn [phase_dead].
  - destruct (_ <? _); intros [= <- <- <- <-]; [by apply effect_expire|by apply effect_none].
  - destruct (takeExpiredLocked p n) as [p1 dead] eqn:E. intros [= <- <- <- <-].
    eapply effect_take; [exact E|]. cbn. by rewrite app_nil_r.
  - intros [= H]. by eapply admit_effect.
  - intros [= <- <- <- <-]. cbn. rewrite app_nil_r.
    destruct (effect_expire p (t :: dead) d (expire d)) as [H1 H2 H3 H4 H5]; [done..|].
    split; [done|done| |done|done]. rewrite <- H3. rewrite !fmap_app. cbn. solve_Permutation.
  - destruct (woken _ _); [|done]. intros [= <- <- <- <-]. by apply effect_none.
  - destruct (wait_turn p t timedOut n) as [p1 r] eqn:E. apply wait_turn_cases in E.
    destruct r as [[]|dead|ticket].
    + destruct E as (Hc & Hlt & ->). intros [= <- <- <- <-]. by apply effect_enqueue.
    + by destruct E.
    + by destruct E.
    + destruct E as (_ & -> & _). intros [= <- <- <- <-]. by apply effect_expire.
    + destruct E as (E & _). intros [= <- <- <- <-].
      eapply effect_take; [exact E|]. cbn. by rewrite app_nil_r.
    + destruct E as (_ & _ & _ & _ & ->). intros [= <- <- <- <-]. by apply effect_wait.
  - intros [= <- <- <- <-]. by apply effect_none.
  - intros [= <- <- <- <-]. cbn. rewrite app_nil_r.
    destruct (effect_expire p (t :: dead) d (expire d)) as [H1 H2 H3 H4 H5]; [done..|].
    split; [done|done| |done|done]. rewrite <- H3. rewrite !fmap_app. cbn. solve_Permutation.
Qed.

Lemma pop_effect p n p' dead r :
  pop p n = (p', dead, inl r) → effect p p' [] (job_tasks (Job dead r)) [] [] (popped r).
Proof.
  intros H%pop_cases. destruct r as [t| |].
  - destruct H as (-> & Hp & Hsub). split; [done|done| |by apply queue_taken|by apply call_none].
    unfold job_tasks. cbn [job_dead job_next popped fmap list_fmap]. rewrite !app_nil_r.
    rewrite Hp. cbn. rewrite !fmap_app. cbn. solve_Permutation.
  - destruct H as (H & _). eapply effect_take; [exact H|]. unfold job_tasks. cbn. by rewrite app_nil_r.
  - destruct H as (H & _). eapply effect_take; [exact H|]. unfold job_tasks. cbn. by rewrite app_nil_r.
Qed.

Lemma sleep_effect p n p' dead ticket :
  pop p n = (p', dead, inr ticket) → effect p p' [] [] [] [] [].
Proof. intros (_ & _ & _ & _ & ->)%pop_cases. by apply effect_wait. Qed.

Lemma job_effect p n j p' j' exits calls :
  job_turn p n j = (p', j', exits, calls) →
  effect p p' (job_tasks j) (jobs_tasks (option_list j')) calls [] [].
Proof.
  destruct j as [[|d dead] [t| |]]; cbn [job_turn].
  4-6: intros [= <- <- <- <-]; rewrite jobs_one; by apply effect_expire.
  - destruct (budget p t n) as [[p1 remains] shed] eqn:E. intros [= <- <- <- <-].
    apply budget_cases in E as [-> [(-> & ->)|(-> & -> & Hm)]]; [by apply effect_expire|].
    split; [done|done|done|by apply queue_cut|by apply call_served].
  - intros [= <- <- <- <-]. by apply effect_none.
  - intros [= <- <- <- <-]. by apply effect_none.
Qed.

(** *** To the condition variable *)

(** Nothing; all are woken; or one is, for a task in the queue. *)
Inductive cond_change (p p' : Pool) : Prop :=
| cond_same : cond p' = cond p → q p' = q p → cond_change p p'
| cond_woken : cond p' = Broadcast (cond p) → cond_change p p'
| cond_handed : cond p' = Signal (cond p) → closed p = false → len (q p) < q_depth p →
    len (q p') = len (q p) + 1 → cond_change p p'.

Lemma take_cond p n p' dead : takeExpiredLocked p n = (p', dead) → cond_change p p'.
Proof.
  intros (_ & _ & [[_ ->]|[_ ->]])%takeExpired_spec; [by apply cond_same|by apply cond_woken].
Qed.

Lemma enqueue_cond p t : closed p = false → len (q p) < q_depth p → cond_change p (enqueueLocked p t).
Proof. intros Hc Hq. apply cond_handed; [done..|]. unfold len. cbn. rewrite length_app. cbn. lia. Qed.

(** The ticket of a submitter in [Wait]. *)
Definition ticket_of (x : submitter) : option nat :=
  match sub_phase x with Waiting _ _ ticket => ticket | _ => None end.

Lemma admit_cond p n t p' x' calls queued :
  enter p n t = (p', x', calls, queued) → cond_change p p' ∧ omap ticket_of (option_list x') = [].
Proof.
  unfold enter. destruct (admission p t) as [[p1 t1] f] eqn:E. apply admission_cases in E.
  destruct f.
  - destruct E as (Hc & Hlt & _ & ->). intros [= <- <- <- <-]. split; [by apply enqueue_cond|done].
  - destruct E as (_ & _ & _ & -> & _).
    destruct (_ <? _); intros [= <- <- <- <-]; split; by try apply cond_same.
  - destruct E as (_ & _ & _ & -> & _). intros [= <- <- <- <-]. split; by try apply cond_same.
  - destruct E as (_ & _ & ->). intros [= <- <- <- <-]. split; by try apply cond_same.
Qed.

(** A submitter takes part in three ways: it goes to sleep, it wakes up, or what it
    does concerns the others. *)
Inductive sub_wait (p p' : Pool) : option nat → list nat → Prop :=
| wait_begins ticket : closed p = false → q_depth p ≤ len (q p) →
    cond_wait (cond p) = (cond p', ticket) → q p' = q p → sub_wait p p' None [ticket]
| wait_ends ticket : p' = p → ticket ∉ notify (cond p) → sub_wait p p' (Some ticket) []
| wait_not : cond_change p p' → sub_wait p p' None [].

Lemma submitter_wait p n later x p' x' calls queued :
  submitter_turn p n later x = Some (p', x', calls, queued) →
  sub_wait p p' (ticket_of x) (omap ticket_of (option_list x')).
Proof.
  destruct x as [t ph]. unfold submitter_turn, ticket_of at 1. cbn [sub_task sub_phase].
  destruct ph as [| |[|d dead]|until timedOut [ticket|]|until timedOut [|d dead]].
  - destruct (_ <? _); intros [= <- <- <- <-]; by apply wait_not, cond_same.
  - destruct (takeExpiredLocked p n) as [p1 dead] eqn:E. intros [= <- <- <- <-].
    eapply wait_not, take_cond, E.
  - intros [= H]. apply admit_cond in H as [H ->]. by apply wait_not.
  - intros [= <- <- <- <-]. by apply wait_not, cond_same.
  - unfold woken. case_bool_decide; [|done]. intros [= <- <- <- <-]. by apply wait_ends.
  - destruct (wait_turn p t timedOut n) as [p1 r] eqn:E. apply wait_turn_cases in E.
    destruct r as [[]|dead|ticket].
    + destruct E as (Hc & Hlt & ->). intros [= <- <- <- <-]. by apply wait_not, enqueue_cond.
    + by destruct E.
    + by destruct E.
    + destruct E as (_ & -> & _). intros [= <- <- <- <-]. by apply wait_not, cond_same.
    + destruct E as (E & _). intros [= <- <- <- <-]. eapply wait_not, take_cond, E.
    + destruct E as (Hc & _ & Hf & Hw & Ep). intros [= <- <- <- <-].
      apply wait_begins; [done..|by rewrite Ep].
  - intros [= <- <- <- <-]. by apply wait_not, cond_same.
  - intros [= <- <- <- <-]. by apply wait_not, cond_same.
Qed.

Lemma pop_cond p n p' dead r : pop p n = (p', dead, inl r) → cond_change p p'.
Proof.
  intros H%pop_cases. destruct r as [t| |].
  - destruct H as (-> & _). by apply cond_woken.
  - destruct H as (H & _). by eapply take_cond.
  - destruct H as (H & _). by eapply take_cond.
Qed.

Lemma job_cond p n j p' j' exits calls : job_turn p n j = (p', j', exits, calls) → cond_change p p'.
Proof.
  destruct j as [[|d dead] [t| |]]; cbn [job_turn]; try by intros [= <- <- <- <-]; apply cond_same.
  destruct (budget p t n) as [[p1 remains] shed] eqn:E. intros [= <- <- <- <-].
  by apply budget_cases in E as [-> [(-> & ->)|(-> & -> & Hm)]]; apply cond_same.
Qed.

(** ** Nobody sleeps who has something to do

    [sl] are the tickets of the workers in [Wait], [tks] those of the submitters. A
    closed pool has woken everyone; while a submitter sleeps the queue is full;
    while the queue holds a task not all [w] workers sleep. *)
Record synced (c : Cond) (queued depth : Z) (closed : bool) (w : nat) (tks sl : list nat) : Prop := {
  sy_once : NoDup (notify c);
  sy_below : ∀ k, k ∈ notify c ∨ k ∈ sl ∨ k ∈ tks → (k < next_ticket c)%nat;
  sy_held : ∀ k, k ∈ notify c → k ∈ sl ∨ k ∈ tks;
  sy_closed : closed = true → notify c = [];
  sy_room : ∀ k, k ∈ tks → k ∈ notify c → depth ≤ queued;
  sy_worker : (0 < w)%nat → 0 < queued → (length (filter (λ k, k ∈ notify c) sl) < w)%nat
}.

Lemma filter_in_nil (l : list nat) : filter (λ k, k ∈ (@nil nat)) l = [].
Proof. induction l as [|k l IH]; [done|]. rewrite filter_cons, decide_False; [done|apply not_elem_of_nil]. Qed.

Section synced.
Context (c : Cond) (queued depth : Z) (cl : bool) (w : nat) (tks sl : list nat).
Context (Hs : synced c queued depth cl w tks sl).

(** Those who hold a ticket may get up, unless they sleep. *)
Lemma synced_held tks' sl' :
  (∀ k, k ∈ sl' → k ∈ sl) → (∀ k, k ∈ tks' → k ∈ tks) →
  (∀ k, k ∈ notify c → k ∈ sl ∨ k ∈ tks → k ∈ sl' ∨ k ∈ tks') →
  (length (filter (λ k, k ∈ notify c) sl') ≤ length (filter (λ k, k ∈ notify c) sl))%nat →
  synced c queued depth cl w tks' sl'.
Proof.
  destruct Hs as [H1 H2 H3 H4 H5 H6]. intros Hsl Htk Hn Hlen.
  split; [done| |by auto|done| |intros; specialize (H6 ltac:(done) ltac:(done)); lia].
  - intros k [?|[?|?]]; apply H2; auto.
  - intros k Hk. by apply H5, Htk.
Qed.

Lemma synced_woken queued' cl' : synced (Broadcast c) queued' depth cl' w tks sl.
Proof.
  destruct Hs as [H1 H2 H3 H4 H5 H6]. split; cbn; [apply NoDup_nil_2| |by intros k ?%not_elem_of_nil|
    done|by intros k _ ?%not_elem_of_nil|by rewrite filter_in_nil].
  intros k [?%not_elem_of_nil|?]; [done|]. apply H2. by right.
Qed.

Lemma synced_handed :
  (length sl ≤ w)%nat → queued < depth → cl = false → synced (Signal c) (queued + 1) depth cl w tks sl.
Proof.
  intros Hsl Hlt Hcl. unfold Signal. pose proof (synced_woken (queued + 1) cl) as Hno.
  destruct Hs as [H1 H2 H3 H4 H5 H6]. destruct (notify c) as [|k l] eqn:En; cbn [tail]; [exact Hno|clear Hno].
  apply NoDup_cons in H1 as [Hk Hl]. assert (∀ k', k' ∈ tks → k' ∉ k :: l) as Hno.
  { intros k' Hk' Hin. pose proof (H5 k' Hk' Hin). lia. }
  split; cbn; [done| | |by rewrite Hcl| |].
  - intros k' [?|?]; apply H2; [left; by apply elem_of_cons; right|by right].
  - intros k' Hk'. apply H3, elem_of_cons. by right.
  - intros k' Hk' Hin. destruct (Hno k' Hk'). apply elem_of_cons. by right.
  - intros _ _. eapply Nat.lt_le_trans; [|exact Hsl]. apply (length_filter_lt _ _ k); [|done].
    destruct (H3 k) as [?|Hk']; [apply elem_of_cons; by left|done|].
    destruct (Hno k Hk'). apply elem_of_cons. by left.
Qed.

(** A ticket that is handed out is new. *)
Lemma filter_new l : l ⊆ sl →
  filter (λ k, k ∈ notify c ++ [next_ticket c]) l = filter (λ k, k ∈ notify c) l.
Proof.
  intros Hl. induction l as [|k l IH]; [done|]. rewrite !filter_cons.
  assert (k ∈ sl) as Hk by (apply Hl, elem_of_cons; by left).
  pose proof (sy_below _ _ _ _ _ _ _ Hs k (or_intror (or_introl Hk))).
  rewrite IH by (intros k' ?; apply Hl, elem_of_cons; by right).
  assert (k ∈ notify c ++ [next_ticket c] ↔ k ∈ notify c) as E.
  { rewrite elem_of_app, list_elem_of_singleton. split; [|by left]. intros [?| ->]; [done|lia]. }
  by rewrite (decide_ext _ _ _ _ E).
Qed.

Lemma notify_new : NoDup (notify c ++ [next_ticket c]).
Proof.
  apply NoDup_app. split; [apply (sy_once _ _ _ _ _ _ _ Hs)|]. split; [|apply NoDup_singleton].
  intros k Hk ->%list_elem_of_singleton. pose proof (sy_below _ _ _ _ _ _ _ Hs _ (or_introl Hk)). lia.
Qed.

Lemma synced_sub_sleeps c' ticket tks' :
  cond_wait c = (c', ticket) → cl = false → depth ≤ queued → (∀ k, k ∈ tks' ↔ k = ticket ∨ k ∈ tks) →
  synced c' queued depth cl w tks' sl.
Proof.
  destruct Hs as [H1 H2 H3 H4 H5 H6]. intros [= <- <-] Hcl Hf Htk. split; cbn.
  - apply notify_new.
  - intros k. rewrite elem_of_app, list_elem_of_singleton, Htk. specialize (H2 k).
    intros [[?| ->]|[?|[-> |?]]]; [|lia| |lia|]; enough (k < next_ticket c)%nat by lia; auto.
  - intros k. rewrite elem_of_app, list_elem_of_singleton, Htk. intros [Hk| ->]; [|auto].
    destruct (H3 k Hk); auto.
  - by rewrite Hcl.
  - done.
  - rewrite filter_new by done. done.
Qed.

Lemma synced_worker_sleeps c' ticket :
  cond_wait c = (c', ticket) → cl = false → queued = 0 →
  synced c' queued depth cl w tks (sl ++ [ticket]).
Proof.
  destruct Hs as [H1 H2 H3 H4 H5 H6]. intros [= <- <-] Hcl Hq. split; cbn.
  - apply notify_new.
  - intros k. rewrite !elem_of_app, !list_elem_of_singleton. specialize (H2 k).
    intros [[?| ->]|[[?| ->]|?]]; [|lia| |lia|]; enough (k < next_ticket c)%nat by lia; auto.
  - intros k. rewrite !elem_of_app, !list_elem_of_singleton. intros [Hk| ->]; [|auto].
    destruct (H3 k Hk); auto.
  - by rewrite Hcl.
  - intros k Hk [?| ->%list_elem_of_singleton]%elem_of_app; [by apply (H5 k)|].
    specialize (H2 _ (or_intror (or_intror Hk))). lia.
  - lia.
Qed.

Lemma synced_shuffle l : l ≡ₚ notify c → synced (MkCond l (next_ticket c)) queued depth cl w tks sl.
Proof.
  destruct Hs as [H1 H2 H3 H4 H5 H6]. intros Hl.
  assert (∀ k, k ∈ l ↔ k ∈ notify c) as E by (intros k; by rewrite Hl).
  split; cbn.
  - by rewrite Hl.
  - intros k. rewrite E. apply H2.
  - intros k. rewrite E. apply H3.
  - intros Hc. specialize (H4 Hc). rewrite H4 in Hl. by apply Permutation_nil_r in Hl.
  - intros k. rewrite E. apply H5.
  - by rewrite (list_filter_iff _ _ sl E).
Qed.
End synced.

(** The pool's part in it. *)
Definition pool_synced (p : Pool) (w : nat) : list nat → list nat → Prop :=
  synced (cond p) (len (q p)) (q_depth p) (closed p) w.

Lemma synced_change p p' w tks sl :
  cond_change p p' → settings p' = settings p → closed p' = closed p → (length sl ≤ w)%nat →
  pool_synced p w tks sl → pool_synced p' w tks sl.
Proof.
  unfold pool_synced. intros Hc [= Ed _ _ _] Ec Hl Hs. rewrite Ed, Ec.
  destruct Hc as [E1 E2|E1|E1 Hcl Hlt Hq]; rewrite E1.
  - by rewrite E2.
  - by eapply synced_woken.
  - rewrite Hq. by apply synced_handed.
Qed.

(** ** What every reachable state satisfies *)

(** The tasks of the submitters, with the workers and with the sweeper. *)
Definition submitting (s : system) : list Task := all_sub_tasks (submitters s).
Definition working (s : system) : list Task := jobs_tasks (busy s).
Definition swept (s : system) : list Task := default [] (sweeping s).

(** The tasks the handler has not been called for, wherever they are; and all. *)
Definition pending (s : system) : list Task :=
  submitting s ++ q (pool s) ++ working s ++ swept s.
Definition everywhere (s : system) : list Task := pending s ++ (call_task <$> handled s).

(** A step from [s] to [s'] with the submissions, the calls of the handler, and the
    tasks queued and taken. *)
Record moves (s s' : system) (new : list Task) (calls : list call) (ac st : list Task) : Prop := {
  mv_arrived : arrived s' = arrived s ++ new;
  mv_handled : handled s' = handled s ++ calls;
  mv_accepted : accepted s' = accepted s ++ ac;
  mv_started : started s' = started s ++ st;
  mv_workers : workers s' = workers s;
  mv_settings : settings (pool s') = settings (pool s);
  mv_closed : closed (pool s) = true → closed (pool s') = true;
  mv_queue : queue_change (pool s) (pool s') ac st;
  mv_calls : call_change (pool s) (pool s') calls;
  mv_tasks : identity <$> pending s ++ new ≡ₚ identity <$> pending s' ++ (call_task <$> calls)
}.

(** A step of somebody who had [before] and has [after], while the others keep [rest]. *)
Lemma effect_moves s s' before after rest calls ac st :
  effect (pool s) (pool s') before after calls ac st →
  pending s ≡ₚ q (pool s) ++ before ++ rest → pending s' ≡ₚ q (pool s') ++ after ++ rest →
  arrived s' = arrived s → handled s' = handled s ++ calls → accepted s' = accepted s ++ ac →
  started s' = started s ++ st → workers s' = workers s → moves s s' [] calls ac st.
Proof.
  intros [H1 H2 H3 H4 H5] E E' Ha Hh Hac Hst Hw. split; try done; [by rewrite app_nil_r|by rewrite H2|].
  rewrite E, E', app_nil_r, (app_assoc (q (pool s))), fmap_app, H3, !fmap_app. solve_Permutation.
Qed.

Lemma jobs_app l k : jobs_tasks (l ++ k) = jobs_tasks l ++ jobs_tasks k.
Proof. apply bind_app. Qed.
Lemma subs_app l k : all_sub_tasks (l ++ k) = all_sub_tasks l ++ all_sub_tasks k.
Proof. apply bind_app. Qed.
Lemma jobs_cons j l : jobs_tasks (j :: l) = job_tasks j ++ jobs_tasks l.
Proof. done. Qed.
Lemma subs_cons x l : all_sub_tasks (x :: l) = sub_tasks x ++ all_sub_tasks l.
Proof. done. Qed.

Ltac places :=
  unfold pending, submitting, working, swept; cbn [submitters pool busy sweeping default from_option id];
  rewrite ?subs_app, ?jobs_app, ?subs_cons, ?jobs_cons;
  try change (all_sub_tasks []) with (@nil Task); try change (jobs_tasks []) with (@nil Task);
  rewrite ?app_nil_r; solve_Permutation.

Ltac kept := first [done | by cbn; rewrite app_nil_r].

Lemma work_moves s s' : work_step s s' → ∃ calls ac st, moves s s' [] calls ac st.
Proof.
  destruct 1 as [p n w e b su1 x su2 sl bu sw ha ad ac st later p' x' calls queued _ H
    |p n w e b su sl bu sw ha ad ac st p' dead r _ H|p n w e b su sl bu sw ha ad ac st p' dead ticket _ H
    |p n w e b su sl1 ticket sl2 bu sw ha ad ac st _
    |p n w e b su sl bu1 j bu2 sw ha ad ac st p' j' exits calls H
    |p n w e b su sl bu t d ha ad ac st|p n w e su sl bu ha ad ac st].
  - apply submitter_effect in H. exists calls, queued, [].
    eapply (effect_moves _ _ _ _ (all_sub_tasks (su1 ++ su2) ++ jobs_tasks bu ++ default [] sw));
      [exact H|places|places|kept..].
  - apply pop_effect in H. exists [], [], (popped r).
    eapply (effect_moves _ _ _ _ (all_sub_tasks su ++ jobs_tasks bu ++ default [] sw));
      [exact H|places|places|kept..].
  - apply sleep_effect in H. exists [], [], [].
    eapply (effect_moves _ _ _ _ (all_sub_tasks su ++ jobs_tasks bu ++ default [] sw));
      [exact H|places|places|kept..].
  - exists [], [], []. eapply (effect_moves _ _ [] [] (all_sub_tasks su ++ jobs_tasks bu ++ default [] sw));
      [by apply effect_none|places|places|kept..].
  - apply job_effect in H. exists calls, [], [].
    eapply (effect_moves _ _ _ _ (all_sub_tasks su ++ jobs_tasks (bu1 ++ bu2) ++ default [] sw));
      [exact H|places|places|kept..].
  - exists [expire t], [], [].
    eapply (effect_moves _ _ _ _ (all_sub_tasks su ++ jobs_tasks bu));
      [apply (effect_expire _ d t); done|places|places|kept..].
  - exists [], [], []. eapply (effect_moves _ _ [] [] (all_sub_tasks su ++ jobs_tasks bu));
      [by apply effect_none|places|places|kept..].
Qed.

Lemma timed_out_tasks x : sub_tasks (timed_out x) = sub_tasks x.
Proof. by destruct x as [t []]. Qed.

Lemma env_moves s s' : env_step s s' → ∃ new ac st, moves s s' new [] ac st.
Proof.
  destruct 1 as [p n w e b su sl bu sw ha ad ac st d _|p n w e b su sl bu sw ha ad ac st t
    |p n w e b su1 x su2 sl bu sw ha ad ac st until _ _|p n w e b su sl bu sw ha ad ac st
    |p n w e b su sl bu sw ha ad ac st l _|p n w e b su sl bu ha ad ac st p' dead H
    |p n w e su sl bu sw ha ad ac st|p n w e su sl bu sw ha ad ac st].
  2: { exists [set_enqueued n t], [], []. split; [kept..|done|by apply queue_cut|by apply call_none|].
    unfold pending, submitting. cbn. rewrite subs_app, !fmap_app. cbn. solve_Permutation. }
  all: exists [], [], [].
  5: { eapply (effect_take _ _ _ _ [] dead) in H; [|done].
    eapply (effect_moves _ _ _ _ (all_sub_tasks su ++ jobs_tasks bu)); [exact H|places|places|kept..]. }
  2: { split; [kept..|done|by apply queue_cut|by apply call_none|].
    unfold pending, submitting. cbn. by rewrite !subs_app, !subs_cons, timed_out_tasks. }
  all: split; [kept..|try done|by apply queue_cut|by apply call_none|done].
Qed.

Lemma step_moves s s' : pool_step s s' → ∃ new calls ac st, moves s s' new calls ac st.
Proof.
  intros [(calls & ac & st & H)%work_moves|(new & ac & st & H)%env_moves]; by do 4 eexists.
Qed.

(** A step is an arrival, a call of the handler, or neither. *)
Lemma step_kinds s s' :
  pool_step s s' →
  arrived s' = arrived s ∧ handled s' = handled s ∨
  (∃ t, arrived s' = arrived s ++ [t] ∧ handled s' = handled s) ∨
  ∃ c, arrived s' = arrived s ∧ handled s' = handled s ++ [c].
Proof.
  intros [(calls & ac & st & H)%work_moves|H].
  - rewrite (mv_arrived _ _ _ _ _ _ H), (mv_handled _ _ _ _ _ _ H), app_nil_r.
    destruct (mv_calls _ _ _ _ _ _ H); rewrite ?app_nil_r; eauto.
  - destruct H; cbn; eauto.
Qed.

Lemma step_workers s s' : pool_step s s' → workers s' = workers s.
Proof. intros (? & ? & ? & ? & H)%step_moves. apply H. Qed.

Lemma steps_workers s s' : rtc pool_step s s' → workers s' = workers s.
Proof. induction 1 as [|s1 s2 s3 Hs _ IH]; [done|]. by rewrite IH, (step_workers _ _ Hs). Qed.

Lemma arrived_grows s s' : rtc pool_step s s' → (length (arrived s) ≤ length (arrived s'))%nat.
Proof.
  induction 1 as [|s s1 s' Hs _ IH]; [lia|].
  apply step_moves in Hs as (? & ? & ? & ? & Hs). rewrite (mv_arrived _ _ _ _ _ _ Hs), length_app in IH. lia.
Qed.

(** On a run without arrivals no step is one. *)
Lemma no_arrival s s1 s' :
  pool_step s s1 → rtc pool_step s1 s' → arrived s' = arrived s → arrived s1 = arrived s.
Proof.
  intros Hs Hr%arrived_grows Ha. destruct (step_kinds _ _ Hs) as [[E _]|[(t & E & _)|(c & E & _)]]; try done.
  rewrite E, Ha, length_app in Hr. cbn in Hr. lia.
Qed.

Lemma step_settings s s' : pool_step s s' → settings (pool s') = settings (pool s).
Proof. intros (? & ? & ? & ? & H)%step_moves. apply H. Qed.

Lemma settings_depth p p' : settings p' = settings p → q_depth p' = q_depth p.
Proof. by intros [= -> _ _ _]. Qed.

Lemma run_settings s s' : rtc pool_step s s' → settings (pool s') = settings (pool s).
Proof. induction 1 as [|s1 s2 s3 Hs _ IH]; [done|]. by rewrite IH, (step_settings _ _ Hs). Qed.

Lemma step_call_change s s' :
  pool_step s s' →
  ∃ new, handled s' = (handled s ++ new)%list ∧ call_change (pool s) (pool s') new.
Proof.
  intros (? & calls & ? & ? & H)%step_moves. exists calls.
  split; [apply (mv_handled _ _ _ _ _ _ H)|apply (mv_calls _ _ _ _ _ _ H)].
Qed.

Lemma step_accepted s s' :
  pool_step s s' →
  Accepted (pool s') = Accepted (pool s) ∧ accepted s' = accepted s ∨
  Accepted (pool s') = wrap64 (Accepted (pool s) + 1) ∧ ∃ t, accepted s' = (accepted s ++ [t])%list.
Proof.
  intros (? & ? & ? & ? & H)%step_moves. rewrite (mv_accepted _ _ _ _ _ _ H).
  destruct (mv_queue _ _ _ _ _ _ H); rewrite ?app_nil_r; eauto.
Qed.

Definition call_ok (p : Pool) (c : call) : Prop :=
  call_shed c = "" ∧ minBudget p ≤ call_budget c ∨
  call_shed c = ReasonDeadlineExceeded ∨
  call_shed c = ReasonQueueLimit ∧ call_budget c = 0 ∧ Fill (call_task c) = 100 ∧ full p ≠ FullWait.

Definition count_shed_as (reason : string) (calls : list call) : Z :=
  len (filter (λ c, call_shed c = reason) calls).

Record sound (s : system) : Prop := {
  so_depth : 1 ≤ q_depth (pool s);
  so_bound : len (q (pool s)) ≤ q_depth (pool s);
  so_all : identity <$> everywhere s ≡ₚ identity <$> arrived s;
  so_calls : Forall (call_ok (pool s)) (handled s);
  so_accepted : Accepted (pool s) = wrap64 (len (accepted s));
  so_shed : Shed (pool s) = wrap64 (count_shed_as ReasonQueueLimit (handled s));
  so_expired : Expired (pool s) = wrap64 (count_shed_as ReasonDeadlineExceeded (handled s));
  so_fifo : sublist (started s ++ q (pool s)) (accepted s);
  so_busy : (exited s + length (sleeping s) + length (busy s) ≤ workers s)%nat;
  so_exit : (0 < exited s)%nat ∨ Stopped ∈ job_next <$> busy s →
    closed (pool s) = true ∧ q (pool s) = [];
  so_stop : closed (pool s) = true ∨ sweeping s = None → stop s = true;
  so_synced : pool_synced (pool s) (workers s) (omap ticket_of (submitters s)) (sleeping s)
}.

Lemma everywhere_pending s : everywhere s = pending s ++ (call_task <$> handled s).
Proof. done. Qed.

Lemma call_ok_settings p p' c : settings p' = settings p → call_ok p c → call_ok p' c.
Proof. unfold call_ok. by intros [= _ -> _ ->]. Qed.

Lemma count_shed_app reason l k :
  count_shed_as reason (l ++ k) = count_shed_as reason l + count_shed_as reason k.
Proof. unfold count_shed_as, len. rewrite filter_app, length_app. lia. Qed.

Lemma count_shed_one reason c :
  count_shed_as reason [c] = if decide (call_shed c = reason) then 1 else 0.
Proof. unfold count_shed_as. rewrite filter_cons, filter_nil. by case_decide. Qed.

Lemma wrap64_succ a b : a = wrap64 b → wrap64 (a + 1) = wrap64 (b + 1).
Proof.
  intros ->. unfold wrap64. f_equal.
  replace ((b + 2 ^ 63) mod 2 ^ 64 - 2 ^ 63 + 1 + 2 ^ 63) with ((b + 2 ^ 63) mod 2 ^ 64 + 1) by lia.
  rewrite Zplus_mod_idemp_l. f_equal. lia.
Qed.

(** One call more in the log, and its counter one up. *)
Lemma expired_more p ha c :
  Expired p = wrap64 (count_shed_as ReasonDeadlineExceeded ha) →
  call_shed c = ReasonDeadlineExceeded →
  wrap64 (Expired p + 1) = wrap64 (count_shed_as ReasonDeadlineExceeded (ha ++ [c])).
Proof.
  intros He Hc. rewrite count_shed_app, count_shed_one, decide_True by done. by apply wrap64_succ.
Qed.

Lemma count_shed_other reason ha c :
  call_shed c ≠ reason → count_shed_as reason (ha ++ [c]) = count_shed_as reason ha.
Proof. intros Hc. rewrite count_shed_app, count_shed_one, decide_False by done. lia. Qed.

(** A worker that is at its end found the pool closed and left the queue empty. *)
Definition ending (s : system) : Prop := (0 < exited s)%nat ∨ Stopped ∈ job_next <$> busy s.

Lemma job_ending p n j p' j' exits calls :
  job_turn p n j = (p', j', exits, calls) →
  exits = true ∨ Stopped ∈ job_next <$> option_list j' → job_next j = Stopped.
Proof.
  destruct j as [[|d dead] [t| |]]; cbn [job_turn job_next];
    try destruct (budget p t n) as [[p1 remains] shed]; intros [= _ <- <- _]; try done;
    cbn; intros [?|H]; try done; try (by apply not_elem_of_nil in H); by apply list_elem_of_singleton in H.
Qed.

Lemma step_ending s s' :
  pool_step s s' → ending s' → ending s ∨ closed (pool s') = true ∧ q (pool s') = [].
Proof.
  unfold ending. intros [H|H]; [|destruct H; cbn [exited pool busy]; by auto].
  destruct H as [|p n w e b su sl bu sw ha ad ac st p' dead r _ H| | |
    p n w e b su sl bu1 j bu2 sw ha ad ac st p' j' exits calls H| |];
    cbn [exited pool busy]; auto; rewrite ?fmap_app, ?fmap_cons, !elem_of_app, ?elem_of_cons.
  - intros [?|[?|[Er|Hr]]]; [auto..| |by apply not_elem_of_nil in Hr]. cbn in Er. subst r.
    destruct (pop_cases _ _ _ _ _ H) as (H1 & Hn & Hc). right. split; [|done].
    by destruct (takeExpired_spec _ _ _ _ H1) as (_ & _ & [[_ ->]|[_ ->]]).
  - pose proof (job_ending _ _ _ _ _ _ _ H) as Hj. destruct exits.
    + intros _. left. right. right. left. symmetry. auto.
    + intros [?|[?|[?|?]]]; auto. left. right. right. left. symmetry. auto.
Qed.

Lemma job_length p n j p' j' exits calls :
  job_turn p n j = (p', j', exits, calls) →
  (length (option_list j') + (if exits : bool then 1 else 0) ≤ 1)%nat.
Proof.
  destruct j as [[|d dead] [t| |]]; cbn [job_turn];
    try destruct (budget p t n) as [[p1 remains] shed]; intros [= _ <- <- _]; cbn; lia.
Qed.

Lemma step_busy s s' :
  pool_step s s' → (exited s + length (sleeping s) + length (busy s) ≤ workers s)%nat →
  (exited s' + length (sleeping s') + length (busy s') ≤ workers s')%nat.
Proof.
  intros [H|H]; [|by destruct H]. destruct H; cbn [exited sleeping busy workers]; rewrite ?length_app;
    cbn [length]; try lia.
  match goal with H : job_turn _ _ _ = _ |- _ => apply job_length in H end. destruct exits; lia.
Qed.

(** The flag and the sweeper's end come after the channel is closed. *)
Lemma step_stopped s s' :
  pool_step s s' → (closed (pool s) = true ∨ sweeping s = None → stop s = true) →
  closed (pool s') = true ∨ sweeping s' = None → stop s' = true.
Proof.
  intros [H|H]; destruct H; cbn [pool sweeping stop];
    repeat match goal with
    | H : submitter_turn _ _ _ _ = _ |- _ => apply submitter_effect, ef_closed in H
    | H : pop _ _ = (_, _, inl _) |- _ => apply pop_effect, ef_closed in H
    | H : pop _ _ = (_, _, inr _) |- _ => apply sleep_effect, ef_closed in H
    | H : job_turn _ _ _ = _ |- _ => apply job_effect, ef_closed in H
    | H : takeExpiredLocked _ _ = (_, ?d) |- _ => apply (effect_take _ _ _ _ [] d) in H as H%ef_closed; [|done]
    | H : closed _ = closed _ |- _ => rewrite H; clear H
    end; cbn; auto; naive_solver.
Qed.

(** Sleepers and those who wake them. *)
Lemma tickets_split su1 x su2 :
  omap ticket_of (su1 ++ x :: su2) =
  omap ticket_of su1 ++ option_list (ticket_of x) ++ omap ticket_of su2.
Proof. by rewrite omap_app, omap_cons_list. Qed.

Lemma submitter_synced p n later w su1 x su2 sl p' x' calls queued :
  submitter_turn p n later x = Some (p', x', calls, queued) → (length sl ≤ w)%nat →
  pool_synced p w (omap ticket_of (su1 ++ x :: su2)) sl →
  pool_synced p' w (omap ticket_of (su1 ++ option_list x' ++ su2)) sl.
Proof.
  intros H Hl Hs. destruct (submitter_effect _ _ _ _ _ _ _ _ H) as [Hset Hc _ _ _].
  apply submitter_wait in H. rewrite !omap_app. rewrite tickets_split in Hs.
  destruct H as [ticket Hn Hf Hw Hq|ticket -> Hin|Hch]; cbn [option_list option_rect app] in *.
  - pose proof (settings_depth _ _ Hset) as Hd. unfold pool_synced in *. rewrite Hd, Hc, Hq.
    eapply synced_sub_sleeps; [exact Hs|exact Hw|done|done|].
    intros k. rewrite !elem_of_app, elem_of_cons. tauto.
  - unfold pool_synced in *. eapply synced_held; [exact Hs|done|..|done].
    + intros k. rewrite !elem_of_app, elem_of_cons. tauto.
    + intros k Hk [?|Ht]; [by left|right]. revert Ht. rewrite !elem_of_app, elem_of_cons.
      intros [?|[->|?]]; auto. done.
  - by eapply synced_change.
Qed.

Lemma step_synced s s' :
  pool_step s s' → (exited s + length (sleeping s) + length (busy s) ≤ workers s)%nat →
  pool_synced (pool s) (workers s) (omap ticket_of (submitters s)) (sleeping s) →
  pool_synced (pool s') (workers s') (omap ticket_of (submitters s')) (sleeping s').
Proof.
  intros [H|H] Hl Hs.
  - destruct H as [p n w e b su1 x su2 sl bu sw ha ad ac st later p' x' calls queued _ H
      |p n w e b su sl bu sw ha ad ac st p' dead r _ H|p n w e b su sl bu sw ha ad ac st p' dead ticket _ H
      |p n w e b su sl1 ticket sl2 bu sw ha ad ac st Hw
      |p n w e b su sl bu1 j bu2 sw ha ad ac st p' j' exits calls H
      |p n w e b su sl bu t d ha ad ac st|p n w e su sl bu ha ad ac st];
      cbn [pool workers submitters sleeping exited busy] in *; try done.
    + eapply submitter_synced; [exact H|lia|done].
    + eapply synced_change; [by eapply pop_cond|apply (ef_settings _ _ _ _ _ _ _ (pop_effect _ _ _ _ _ H))
        |apply (ef_closed _ _ _ _ _ _ _ (pop_effect _ _ _ _ _ H))|lia|done].
    + apply pop_cases in H as (Hc & Hq & _ & Hw & ->). unfold pool_synced. cbn [set_cond q q_depth closed].
      eapply synced_worker_sleeps; [exact Hs|exact Hw|done|by rewrite Hq].
    + unfold woken in Hw. apply bool_decide_eq_true in Hw. unfold pool_synced.
      eapply synced_held; [exact Hs|..].
      * intros k. rewrite !elem_of_app, elem_of_cons. tauto.
      * done.
      * intros k Hk [Ht|?]; [left|by right]. revert Ht. rewrite !elem_of_app, elem_of_cons.
        intros [?|[->|?]]; auto. done.
      * rewrite !filter_app, filter_cons_False by done. done.
    + eapply synced_change; [by eapply job_cond|apply (ef_settings _ _ _ _ _ _ _ (job_effect _ _ _ _ _ _ _ H))
        |apply (ef_closed _ _ _ _ _ _ _ (job_effect _ _ _ _ _ _ _ H))|lia|done].
  - destruct H as [| |p n w e b su1 x su2 sl bu sw ha ad ac st until Ht _| | |p n w e b su sl bu ha ad ac st p' dead H| |];
      cbn [pool workers submitters sleeping exited busy] in *; try done.
    + rewrite omap_app. cbn. by rewrite app_nil_r.
    + rewrite tickets_split in Hs |- *.
      assert (ticket_of (timed_out x) = ticket_of x) as -> by by destruct x as [t []].
      eapply synced_woken, Hs.
    + eapply synced_woken, Hs.
    + by eapply synced_shuffle.
    + eapply synced_change; [by eapply take_cond|..|lia|done];
        by destruct (takeExpired_spec _ _ _ _ H) as (_ & _ & [[_ ->]|[_ ->]]).
    + eapply synced_woken, Hs.
Qed.

Lemma len_sublist {A} (l k : list A) : sublist l k → len l ≤ len k.
Proof. intros H%sublist_length. unfold len. lia. Qed.

Lemma sublist_nil_inv {A} (l : list A) : sublist l [] → l = [].
Proof. by intros H%sublist_nil_r. Qed.

Section preserve.
Context (s s' : system) (Hs : pool_step s s') (Hi : sound s).

Lemma sound_all : identity <$> everywhere s' ≡ₚ identity <$> arrived s'.
Proof.
  destruct (step_moves _ _ Hs) as (new & calls & ac & st & Hm). unfold everywhere.
  rewrite (mv_arrived _ _ _ _ _ _ Hm), (mv_handled _ _ _ _ _ _ Hm).
  rewrite (fmap_app identity (arrived s)), <- (so_all _ Hi). unfold everywhere.
  pose proof (mv_tasks _ _ _ _ _ _ Hm) as Ht. rewrite !fmap_app in *.
  etrans; [|apply Permutation_app_comm]. rewrite (app_assoc (identity <$> new)).
  rewrite (Permutation_app_comm (identity <$> new)), Ht. solve_Permutation.
Qed.

Lemma sound_calls :
  Forall (call_ok (pool s')) (handled s') ∧
  Shed (pool s') = wrap64 (count_shed_as ReasonQueueLimit (handled s')) ∧
  Expired (pool s') = wrap64 (count_shed_as ReasonDeadlineExceeded (handled s')).
Proof.
  pose proof (so_calls _ Hi) as Hcalls. pose proof (so_shed _ Hi) as Hsh. pose proof (so_expired _ Hi) as Hex.
  destruct (step_call_change _ _ Hs) as (new & -> & Hc).
  pose proof (step_settings _ _ Hs) as Hset. split.
  { apply Forall_app. split.
    - eapply Forall_impl; [exact Hcalls|]. intros c. by apply call_ok_settings.
    - destruct Hc as [|c E|c E|c E]; [apply Forall_nil_2|apply Forall_singleton..];
        apply (call_ok_settings (pool s) _ _ Hset); unfold call_ok; tauto. }
  destruct Hc as [E1 E2|c E E1 E2|c E _ _ _ E1 E2|c E _ E1 E2]; rewrite E1, E2;
    rewrite ?app_nil_r; [done| | |].
  - rewrite (count_shed_other ReasonQueueLimit) by by rewrite E. split; [done|].
    by apply expired_more.
  - rewrite (count_shed_other ReasonDeadlineExceeded) by by rewrite E. split; [|done].
    rewrite count_shed_app, count_shed_one, decide_True by done. by apply wrap64_succ.
  - rewrite !count_shed_other by by rewrite E. done.
Qed.

Lemma sound_queue :
  len (q (pool s')) ≤ q_depth (pool s') ∧
  sublist (started s' ++ q (pool s')) (accepted s') ∧
  (ending s' → closed (pool s') = true ∧ q (pool s') = []).
Proof.
  pose proof (so_bound _ Hi) as Hb. pose proof (so_fifo _ Hi) as Hf. pose proof (so_exit _ Hi) as He.
  rewrite (settings_depth _ _ (step_settings _ _ Hs)).
  pose proof (step_ending _ _ Hs) as Hex.
  destruct (step_moves _ _ Hs) as (new & calls & ac & st & Hm).
  rewrite (mv_accepted _ _ _ _ _ _ Hm), (mv_started _ _ _ _ _ _ Hm).
  pose proof (mv_closed _ _ _ _ _ _ Hm) as Hc.
  destruct (mv_queue _ _ _ _ _ _ Hm) as [Hsub _|t Hsub _|t Hcl Hlt E _]; rewrite ?app_nil_r.
  - split; [apply len_sublist in Hsub; lia|]. split.
    + etrans; [|exact Hf]. by apply sublist_app.
    + intros H0. destruct (Hex H0) as [[Hcl Hn]%He|?]; [|done].
      rewrite Hn in Hsub. apply sublist_nil_inv in Hsub. auto.
  - split; [apply len_sublist in Hsub; revert Hsub; unfold len in *; cbn; lia|]. split.
    + rewrite <- app_assoc. etrans; [|exact Hf]. by apply sublist_app.
    + intros H0. destruct (Hex H0) as [[_ Hn]%He|?]; [|done].
      rewrite Hn in Hsub. by apply sublist_nil_inv in Hsub.
  - rewrite E. split; [unfold len in *; rewrite length_app; cbn; lia|]. split.
    + rewrite app_assoc. by apply sublist_app.
    + intros H0. destruct (Hex H0) as [[? _]%He|[_ Hn]]; [congruence|].
      rewrite E in Hn. by apply app_eq_nil in Hn as [_ ?].
Qed.

Lemma sound_accepted : Accepted (pool s') = wrap64 (len (accepted s')).
Proof.
  pose proof (so_accepted _ Hi) as Ha.
  destruct (step_accepted _ _ Hs) as [[-> ->]|(-> & t & ->)]; [done|].
  unfold len in *. rewrite length_app, Nat2Z.inj_add. by apply wrap64_succ.
Qed.

Lemma sound_step : sound s'.
Proof.
  destruct sound_calls as (? & ? & ?). destruct sound_queue as (? & ? & ?).
  split; try done.
  - rewrite (settings_depth _ _ (step_settings _ _ Hs)). apply (so_depth _ Hi).
  - apply sound_all.
  - apply sound_accepted.
  - apply (step_busy _ _ Hs), (so_busy _ Hi).
  - apply (step_stopped _ _ Hs), (so_stop _ Hi).
  - apply (step_synced _ _ Hs); [apply (so_busy _ Hi)|apply (so_synced _ Hi)].
Qed.
End preserve.

Lemma sound_start w depth reserveMS minBudgetMS full n :
  sound (start w (New depth reserveMS minBudgetMS full) n).
Proof.
  split; cbn; try done.
  - destruct (Z.ltb_spec depth 1); lia.
  - change (len (@nil Task)) with 0. destruct (Z.ltb_spec depth 1); lia.
  - lia.
  - intros [?|?%not_elem_of_nil]; [lia|done].
  - by intros [?|?].
  - split; cbn; [apply NoDup_nil_2|set_solver..|done|set_solver|done].
Qed.

Lemma sound_steps s s' : rtc pool_step s s' → sound s → sound s'.
Proof. induction 1 as [|s1 s2 s3 Hs _ IH]; [done|]. intros H. apply IH. by eapply sound_step. Qed.

Lemma reachable_sound w depth reserveMS minBudgetMS full n s :
  rtc pool_step (start w (New depth reserveMS minBudgetMS full) n) s → sound s.
Proof.
  intros Hr. eapply sound_steps; [exact Hr|]. apply sound_start.
Qed.

(** C7. Whatever the submitters, the workers, the sweeper and [Close] do and in
    whatever order: the queue never holds more than its depth; every submitted
    task is in exactly one place, so the handler gets none twice and none is lost;
    a task is inspected only with the least budget left, and shed for want of room
    only when the queue was full and the mode is not to wait; the counters count
    the tasks queued, shed and expired; tasks are started in the order they were
    queued; no more workers are at work or asleep than there are; one exits only
    when the pool is closed and its queue empty; and nobody sleeps in a closed pool,
    no submitter while there is room, not all workers while a task is queued. *)
Theorem pool_sound w depth reserveMS minBudgetMS full n s :
  rtc pool_step (start w (New depth reserveMS minBudgetMS full) n) s → sound s.
Proof. exact (reachable_sound w depth reserveMS minBudgetMS full n s). Qed.

(** ** No task is stuck *)

(** What the goroutines of the pool still have to do: first of all with the tasks. *)
Definition sub_weight (x : submitter) : nat :=
  match sub_phase x with
  | Checking => 8
  | Collecting => 7
  | Clearing dead => 6 + length dead
  | Waiting _ _ _ => 5
  | Replying _ _ dead => 5 + length dead
  end.
Definition job_weight (j : job) : nat :=
  length (job_dead j) + match job_next j with Popped _ => 2 | Nothing => 1 | Stopped => 0 end.
Definition weight (s : system) : nat :=
  sum_list_with sub_weight (submitters s) + 4 * length (q (pool s)) +
  sum_list_with job_weight (busy s) + length (swept s).

(** Then until they sleep or have returned. *)
Definition rest_of (c : Cond) (ticket : nat) : nat := if woken c ticket then 3 else 0.
Definition sub_rest (c : Cond) (x : submitter) : nat :=
  match sub_phase x with
  | Waiting _ _ None => 2
  | Waiting _ _ (Some ticket) => rest_of c ticket
  | Replying _ _ _ => 3
  | _ => 0
  end.
Definition job_rest (j : job) : nat := match job_next j with Stopped => 1 | _ => 0 end.
Definition rest (s : system) : nat :=
  let c := cond (pool s) in
  sum_list_with (sub_rest c) (submitters s) + sum_list_with (rest_of c) (sleeping s) +
  2 * (workers s - exited s - length (sleeping s) - length (busy s)) +
  sum_list_with job_rest (busy s) + match sweeping s with Some _ => 1 | None => 0 end.

(** The tickets given out before keep their state. *)
Definition undisturbed (c c' : Cond) : Prop :=
  ∀ k, (k < next_ticket c)%nat → woken c' k = woken c k.

Lemma wait_undisturbed c c' k : cond_wait c = (c', k) → undisturbed c c' ∧ woken c' k = false.
Proof.
  intros [= <- <-]. split.
  - intros k Hk. unfold woken. cbn. apply bool_decide_ext.
    rewrite elem_of_app, list_elem_of_singleton. split; [tauto|]. intros Hn [?|?]; [done|lia].
  - unfold woken. cbn. apply bool_decide_eq_false. intros H. apply H, elem_of_app. right.
    by apply list_elem_of_singleton.
Qed.

Lemma take_length p n p' dead :
  takeExpiredLocked p n = (p', dead) → length (q p) = (length (q p') + length dead)%nat.
Proof. intros (Hp & _)%takeExpired_spec. apply Permutation_length in Hp. by rewrite length_app in Hp. Qed.

Lemma admit_weight p n t p' x' calls queued :
  enter p n t = (p', x', calls, queued) →
  (sum_list_with sub_weight (option_list x') + 4 * length (q p') < 6 + 4 * length (q p))%nat.
Proof.
  unfold enter. destruct (admission p t) as [[p1 t1] f] eqn:E. apply admission_cases in E.
  destruct f.
  - destruct E as (_ & _ & _ & ->). intros [= <- <- _ _]. cbn. rewrite length_app. cbn. lia.
  - destruct E as (_ & _ & _ & -> & _). destruct (_ <? _); intros [= <- <- _ _]; cbn; lia.
  - destruct E as (_ & _ & _ & -> & _). intros [= <- <- _ _]. cbn. lia.
  - destruct E as (_ & _ & ->). intros [= <- <- _ _]. cbn. lia.
Qed.

Lemma turn_weight p n later x p' x' calls queued :
  submitter_turn p n later x = Some (p', x', calls, queued) →
  (sum_list_with sub_weight (option_list x') + 4 * length (q p') <
    sub_weight x + 4 * length (q p))%nat ∨
  undisturbed (cond p) (cond p') ∧
  (sum_list_with sub_weight (option_list x') + 4 * length (q p') = sub_weight x + 4 * length (q p))%nat ∧
  (sum_list_with (sub_rest (cond p')) (option_list x') < sub_rest (cond p) x)%nat.
Proof.
  intros H. destruct x as [t ph]. unfold submitter_turn in H. cbn [sub_task sub_phase] in H.
  destruct ph as [| |[|d dead]|until timedOut [ticket|]|until timedOut [|d dead]].
  - left. destruct (_ <? _); injection H as <- <- _ _; cbn; lia.
  - left. revert H. destruct (takeExpiredLocked p n) as [p1 dead] eqn:E. intros [= <- <- _ _].
    apply take_length in E. cbn. lia.
  - left. injection H as H. by apply admit_weight in H.
  - left. injection H as <- <- _ _. cbn. lia.
  - right. destruct (woken (cond p) ticket) eqn:Ew; [|done]. injection H as <- <- _ _.
    split; [done|]. cbn. unfold rest_of. rewrite Ew. lia.
  - destruct (wait_turn p t timedOut n) as [p1 r] eqn:E. apply wait_turn_cases in E.
    destruct r as [[]|dead|ticket].
    + left. destruct E as (_ & _ & ->). injection H as <- <- _ _. cbn. rewrite length_app. cbn. lia.
    + by destruct E.
    + by destruct E.
    + left. destruct E as (_ & -> & _). injection H as <- <- _ _. cbn. lia.
    + left. destruct E as (E & Hd). injection H as <- <- _ _. apply take_length in E. cbn.
      destruct dead; [done|]. cbn in *. lia.
    + right. destruct E as (_ & _ & _ & Hw & Ep). injection H as <- <- _ _.
      destruct (wait_undisturbed _ _ _ Hw) as [Hu Hn]. split; [done|]. cbn. unfold rest_of. rewrite Hn.
      rewrite Ep. cbn. lia.
  - right. injection H as <- <- _ _. split; [done|]. cbn. lia.
  - left. injection H as <- <- _ _. cbn. lia.
Qed.

Lemma pop_weight p n p' dead r :
  pop p n = (p', dead, inl r) →
  (4 * length (q p') + job_weight (Job dead r) < 4 * length (q p))%nat ∨
  p' = p ∧ job_weight (Job dead r) = 0%nat ∧ job_rest (Job dead r) = 1%nat.
Proof.
  intros H%pop_cases. destruct r as [t| |].
  - left. destruct H as (_ & Hp & _). apply Permutation_length in Hp. rewrite Hp. unfold job_weight.
    cbn. rewrite length_app. lia.
  - left. destruct H as (H & _ & _ & Hd). apply take_length in H. unfold job_weight. cbn.
    destruct dead; [done|]. cbn in *. lia.
  - destruct H as (H & Hq & _). destruct (takeExpired_spec _ _ _ _ H) as (_ & _ & [[-> ->]|[Hd _]]).
    + right. done.
    + left. apply take_length in H. unfold job_weight. cbn. destruct dead; [done|]. cbn in *. lia.
Qed.

Lemma job_lighter p n j p' j' exits calls :
  job_turn p n j = (p', j', exits, calls) →
  q p' = q p ∧ cond p' = cond p ∧
  (sum_list_with job_weight (option_list j') < job_weight j ∨
   sum_list_with job_weight (option_list j') = job_weight j ∧ j' = None ∧ exits = true ∧ job_rest j = 1)%nat.
Proof.
  destruct j as [[|d dead] [t| |]]; cbn [job_turn].
  4-6: intros [= <- <- <- <-]; cbn; unfold job_weight; cbn; split_and!; [done|done|lia].
  - destruct (budget p t n) as [[p1 remains] shed] eqn:E. intros [= <- <- <- <-].
    apply budget_cases in E as [_ [(_ & ->)|(_ & -> & _)]]; cbn; split_and!; (done || (unfold job_weight; cbn; lia)).
  - intros [= <- <- <- <-]. split_and!; [done|done|unfold job_weight; cbn; lia].
  - intros [= <- <- <- <-]. split_and!; [done|done|by right].
Qed.

Lemma sum_list_ext {A} (f g : A → nat) l :
  (∀ x, x ∈ l → f x = g x) → sum_list_with f l = sum_list_with g l.
Proof.
  induction l as [|x l IH]; [done|]. intros H. cbn. rewrite (H x) by (apply elem_of_cons; by left).
  rewrite IH; [done|]. intros y ?. apply H, elem_of_cons. by right.
Qed.

(** The others are as restless as before. *)
Lemma rest_undisturbed c c' k depth cl w tks sl su :
  undisturbed c c' → synced c k depth cl w tks sl → (∀ i, i ∈ omap ticket_of su → i ∈ tks) →
  sum_list_with (sub_rest c') su = sum_list_with (sub_rest c) su ∧
  sum_list_with (rest_of c') sl = sum_list_with (rest_of c) sl.
Proof.
  intros Hu Hs Htk. split; apply sum_list_ext.
  - intros [t ph] Hx. unfold sub_rest. cbn. destruct ph as [| | |until timedOut [ticket|]|]; try done.
    unfold rest_of. rewrite Hu; [done|]. apply (sy_below _ _ _ _ _ _ _ Hs). right. right. apply Htk.
    apply list_elem_of_omap. by eexists.
  - intros i Hi. unfold rest_of. rewrite Hu; [done|]. apply (sy_below _ _ _ _ _ _ _ Hs). by right; left.
Qed.

Definition lighter (s' s : system) : Prop :=
  (weight s' < weight s ∨ weight s' = weight s ∧ rest s' < rest s)%nat.

Lemma pool_lighter s s' : sound s → work_step s s' → lighter s' s.
Proof.
  intros Hi Hs. pose proof (so_synced _ Hi) as Hsy. pose proof (so_busy _ Hi) as Hb. unfold lighter.
  destruct Hs as [p n w e b su1 x su2 sl bu sw ha ad ac st later p' x' calls queued _ H
    |p n w e b su sl bu sw ha ad ac st p' dead r He H|p n w e b su sl bu sw ha ad ac st p' dead ticket He H
    |p n w e b su sl1 ticket sl2 bu sw ha ad ac st Hw
    |p n w e b su sl bu1 j bu2 sw ha ad ac st p' j' exits calls H
    |p n w e b su sl bu t d ha ad ac st|p n w e su sl bu ha ad ac st];
    unfold weight, rest, swept; cbn [pool workers exited submitters sleeping busy sweeping default] in *;
    rewrite ?sum_list_with_app; cbn [sum_list_with].
  - destruct (turn_weight _ _ _ _ _ _ _ _ H) as [?|(Hu & Ew & Er)]; [left; lia|right]. split; [lia|].
    destruct (rest_undisturbed _ _ _ _ _ _ _ _ (su1 ++ su2) Hu Hsy) as [E1 E2].
    { intros k. rewrite !tickets_split, omap_app, !elem_of_app. tauto. }
    rewrite !sum_list_with_app in E1. rewrite E2. lia.
  - rewrite length_app. cbn [length].
    destruct (pop_weight _ _ _ _ _ H) as [?|(-> & -> & ->)]; [left; lia|right]. split; lia.
  - destruct (pop_cases _ _ _ _ _ H) as (_ & _ & _ & Hw & Ep).
    destruct (wait_undisturbed _ _ _ Hw) as [Hu Hn]. right.
    destruct (rest_undisturbed _ _ _ _ _ _ _ _ su Hu Hsy) as [E1 E2]; [done|].
    rewrite E1, E2, length_app. unfold rest_of at 2. rewrite Hn. cbn [length].
    assert (q p' = q p) as -> by by rewrite Ep. split; lia.
  - right. rewrite !length_app in *. cbn [length] in *. unfold rest_of at 4. rewrite Hw. split; lia.
  - destruct (job_lighter _ _ _ _ _ _ _ H) as (-> & -> & [?|(Ew & -> & -> & Er)]); [left; lia|right].
    rewrite !length_app in *. cbn [length sum_list_with option_list option_rect] in *. split; lia.
  - left. cbn. lia.
  - right. split; [done|lia].
Qed.

(** Left to itself the pool comes to rest. *)
Lemma work_ends s : sound s → sn work_step s.
Proof.
  remember (weight s) as m eqn:Em. revert s Em.
  induction (lt_wf m) as [m _ IHm]. intros s Em.
  remember (rest s) as k eqn:Ek. revert s Em Ek.
  induction (lt_wf k) as [k _ IHk]. intros s Em Ek Hi. constructor. intros s' Hs.
  assert (sound s') as Hi' by by eapply sound_step, Hi; apply on_work.
  destruct (pool_lighter _ _ Hi Hs) as [Hlt|[He Hlt]].
  - eapply IHm; [|done|done]. lia.
  - eapply IHk; [|lia|done|done]. lia.
Qed.

Definition idle (s : system) : Prop :=
  submitters s = [] ∧ q (pool s) = [] ∧ busy s = [] ∧ swept s = [].

Lemma idle_pending s : idle s → pending s = [].
Proof. intros (E1 & E2 & E3 & E4). unfold pending, submitting, working. by rewrite E1, E2, E3, E4. Qed.

(** The workers sleep or have returned, and the sweeper has if it is to. *)
Record at_rest (s : system) : Prop := {
  ar_idle : idle s;
  ar_asleep : Forall (λ k, woken (cond (pool s)) k = false) (sleeping s);
  ar_workers : (exited s + length (sleeping s) = workers s)%nat;
  ar_sweeper : stop s = true → sweeping s = None
}.

Lemma filter_full (l k : list nat) : Forall (λ i, i ∈ k) l → filter (λ i, i ∈ k) l = l.
Proof. induction 1 as [|i l Hi _ IH]; [done|]. by rewrite filter_cons_True, IH. Qed.

Section progress.
Context (s : system) (Hi : sound s) (Hw : (0 < workers s)%nat).

Lemma sweeper_goes : (∃ t d, sweeping s = Some (t :: d)) ∨ stop s = true ∧ sweeping s = Some [] →
  red work_step s.
Proof.
  destruct s as [p n w e b su sl bu sw ha ad ac st]. cbn.
  intros [(t & d & ->)|[-> ->]]; eexists; [apply step_sweep_dead|apply step_sweep_end].
Qed.

Lemma job_goes j bu : busy s = j :: bu → red work_step s.
Proof.
  destruct s as [p n w e b su sl bu' sw ha ad ac st]. cbn. intros ->.
  destruct (job_turn p n j) as [[[p' j'] exits] calls] eqn:E. eexists.
  by apply (step_job _ _ _ _ _ _ _ []).
Qed.

(** A worker that does not sleep calls [pop]. *)
Lemma worker_goes :
  busy s = [] → (exited s < workers s)%nat →
  (length (filter (λ k, k ∈ notify (cond (pool s))) (sleeping s)) < workers s - exited s)%nat →
  red work_step s.
Proof.
  destruct s as [p n w e b su sl bu sw ha ad ac st]. cbn. intros -> He Hn.
  destruct (decide (length sl < w - e)%nat) as [Hlt|Hge].
  - destruct (pop p n) as [[p' dead] [r|ticket]] eqn:E; eexists;
      [eapply step_pop|eapply step_sleep]; try exact E; cbn; lia.
  - destruct (decide (Forall (λ k, k ∈ notify (cond p)) sl)) as [Hall|Hex%not_Forall_Exists].
    + rewrite filter_full in Hn by done. lia.
    + apply Exists_exists in Hex as (k & (l1 & l2 & ->)%list_elem_of_split & Hk). eexists.
      apply step_wake. unfold woken. by apply bool_decide_eq_true.
    + intros k. apply _.
Qed.

(** A submitter goes on unless it sleeps, and then there is a queue. *)
Lemma submitter_goes x su : submitters s = x :: su → q (pool s) ≠ [] ∨ red work_step s.
Proof.
  intros Hx. pose proof (so_depth _ Hi) as Hd. pose proof (so_synced _ Hi) as Hsy.
  destruct s as [p n w e b su' sl bu sw ha ad ac st]. cbn in *. subst su'.
  destruct (submitter_turn p n n x) as [[[[p' x'] calls] queued]|] eqn:E.
  - right. eexists. by eapply (step_submit _ _ _ _ _ []).
  - left. destruct x as [t ph]. unfold submitter_turn in E. cbn [sub_task sub_phase] in E.
    destruct ph as [| |[|d dead]|until timedOut [k|]|until timedOut [|d dead]]; try done.
    unfold woken in E. case_bool_decide as Hk; [done|].
    assert (q_depth p ≤ len (q p)) as Hf.
    { apply (sy_room _ _ _ _ _ _ _ Hsy k); [|done]. cbn. apply elem_of_cons. by left. }
    intros Hq. rewrite Hq in Hf. unfold len in Hf. cbn in Hf. lia.
Qed.

Lemma queue_goes : busy s = [] → q (pool s) ≠ [] → red work_step s.
Proof.
  intros Hb Hq. assert (exited s = 0%nat) as He.
  { destruct (exited s) eqn:E; [done|]. destruct (so_exit _ Hi) as [_ ?]; [left; lia|done]. }
  apply worker_goes; [done|lia|]. rewrite He, Nat.sub_0_r.
  apply (sy_worker _ _ _ _ _ _ _ (so_synced _ Hi)); [done|].
  destruct (q (pool s)); [done|]. unfold len. cbn. lia.
Qed.

Lemma work_progress : at_rest s ∨ red work_step s.
Proof.
  destruct (sweeping s) as [[|t d]|] eqn:Esw; [| |].
  2: { right. apply sweeper_goes. left. by do 2 eexists. }
  1: destruct (stop s) eqn:Est; [right; apply sweeper_goes; by right|].
  all: destruct (busy s) as [|j bu] eqn:Eb; [|right; by eapply job_goes].
  all: destruct (decide (q (pool s) = [])) as [Eq|Eq]; [|right; by apply queue_goes].
  all: destruct (submitters s) as [|x su] eqn:Esu; [|right; by destruct (submitter_goes x su)].
  all: pose proof (so_busy _ Hi) as Hb; rewrite Eb in Hb; cbn in Hb.
  all: destruct (decide (exited s < workers s ∧
    length (filter (λ k, k ∈ notify (cond (pool s))) (sleeping s)) < workers s - exited s)%nat)
    as [[He Hn]|Hn]; [right; by apply worker_goes|left].
  all: assert (length (filter (λ k, k ∈ notify (cond (pool s))) (sleeping s)) ≤ length (sleeping s))%nat as Hle
    by apply length_filter.
  all: split; [unfold idle, swept; by rewrite Esw| |lia|by rewrite ?Est, ?Esw].
  all: apply Forall_forall; intros k Hk; apply bool_decide_eq_false; intros Hno.
  all: assert (length (filter (λ k, k ∈ notify (cond (pool s))) (sleeping s)) < length (sleeping s))%nat
    by by eapply length_filter_lt. 
  all: lia.
Qed.

(** Whoever is left then is not needed, and nobody is when the pool is closed. *)
Lemma rest_joined : at_rest s → closed (pool s) = true → joined s.
Proof.
  clear Hw. intros [_ Ha Hn Hsw] Hc. split; [|apply Hsw, (so_stop _ Hi); by left].
  destruct (sleeping s) as [|k l]; [cbn in Hn; lia|]. apply Forall_cons in Ha as [Ha _].
  unfold woken in Ha. apply bool_decide_eq_false in Ha. destruct Ha.
  rewrite (sy_closed _ _ _ _ _ _ _ (so_synced _ Hi) Hc). apply not_elem_of_nil.
Qed.
End progress.

Lemma at_rest_stays s : at_rest s → nf work_step s.
Proof.
  intros [(E1 & E2 & E3 & E4) Ha Hn Hsw] [s' H].
  destruct H; cbn in *; try (apply app_eq_nil in E1 as [_ ?]; done); try (by apply app_eq_nil in E3 as [_ ?]);
    subst; cbn in *; try lia.
  - apply Forall_app in Ha as [_ [Ha _]%Forall_cons]. congruence.
  - done.
  - by specialize (Hsw eq_refl).
Qed.

Lemma work_kept s s' :
  work_step s s' → stop s' = stop s ∧ closed (pool s') = closed (pool s) ∧ arrived s' = arrived s.
Proof.
  destruct 1; cbn; (split; [done|]; split; [|done]);
    repeat match goal with
    | H : submitter_turn _ _ _ _ = _ |- _ => apply submitter_effect, ef_closed in H
    | H : pop _ _ = (_, _, inl _) |- _ => apply pop_effect, ef_closed in H
    | H : pop _ _ = (_, _, inr _) |- _ => apply sleep_effect, ef_closed in H
    | H : job_turn _ _ _ = _ |- _ => apply job_effect, ef_closed in H
    end; done.
Qed.

Lemma work_run s s' :
  rtc work_step s s' →
  rtc pool_step s s' ∧ stop s' = stop s ∧ closed (pool s') = closed (pool s) ∧ arrived s' = arrived s.
Proof.
  induction 1 as [|s1 s2 s3 Hs _ (Hr & F1 & F2 & F3)]; [done|]. rewrite F1, F2, F3.
  split; [by eapply rtc_l; [apply on_work|]|]. by apply work_kept.
Qed.

(** From any state the pool can be left to itself until it rests. *)
Lemma sound_drains s :
  sound s → (0 < workers s)%nat →
  ∃ s', rtc work_step s s' ∧ at_rest s' ∧ sound s' ∧ workers s' = workers s.
Proof.
  intros Hi Hw. pose proof (work_ends s Hi) as Hsn. induction Hsn as [s _ IH].
  destruct (work_progress s Hi Hw) as [?|[s1 Hs]]; [by exists s|].
  assert (pool_step s s1) as Hp by by apply on_work.
  pose proof (step_workers _ _ Hp) as Hw1.
  destruct (IH s1 Hs) as (s' & Hr & Ha & Hs' & Hw'); [by eapply sound_step|lia|].
  exists s'. split_and!; [by eapply rtc_l|done|done|congruence].
Qed.

(** Wherever its runs end, it rests. *)
Lemma sound_rests s s' :
  sound s → (0 < workers s)%nat → rtc work_step s s' → nf work_step s' → at_rest s' ∧ sound s'.
Proof.
  intros Hi Hw Hr Hnf. destruct (work_run _ _ Hr) as (Hr' & _).
  pose proof (sound_steps _ _ Hr' Hi) as Hi'.
  destruct (work_progress s' Hi') as [?|?]; [by rewrite (steps_workers _ _ Hr')|done|done].
Qed.

Lemma idle_handled s :
  sound s → idle s → identity <$> (call_task <$> handled s) ≡ₚ identity <$> arrived s.
Proof.
  intros Hi Hd. rewrite <- (so_all _ Hi), everywhere_pending. by rewrite (idle_pending _ Hd).
Qed.

(** What becomes of the tasks between two sound states. *)
Lemma pending_moves s s' new calls :
  sound s → sound s' → arrived s' = arrived s ++ new → handled s' = handled s ++ calls →
  identity <$> pending s ++ new ≡ₚ identity <$> pending s' ++ (call_task <$> calls).
Proof.
  intros Hs%so_all Hs'%so_all Ea Eh.
  rewrite everywhere_pending, fmap_app in Hs, Hs'. rewrite Ea, Eh, !fmap_app, <- Hs in Hs'.
  rewrite !fmap_app. apply (Permutation_app_inv_r (identity <$> (call_task <$> handled s))).
  rewrite <- !app_assoc. symmetry. etrans; [|etrans; [exact Hs'|]].
  - apply Permutation_app_head, Permutation_app_comm.
  - rewrite <- app_assoc. apply Permutation_app_head, Permutation_app_comm.
Qed.

(** ** Closing *)

(** Once [Close] has set the flag, what it waits for comes. *)
Lemma close_returns s :
  sound s → (0 < workers s)%nat → closed (pool s) = true →
  ∃ s', rtc work_step s s' ∧ idle s' ∧ joined s'.
Proof.
  intros Hs Hw Hc. destruct (sound_drains s Hs Hw) as (s' & Hr & Ha & Hs' & _).
  destruct (work_run _ _ Hr) as (_ & _ & Hc' & _). exists s'. split; [done|].
  split; [apply Ha|]. apply rest_joined; [done|done|congruence].
Qed.

(** What has returned has returned, and has left nothing behind. *)
Lemma joined_stays s s' : pool_step s s' → sound s → joined s → joined s'.
Proof.
  intros [Hs|Hs] Hi [He Hw]; pose proof (so_busy _ Hi) as Hb; destruct Hs; cbn in *; try done;
    rewrite ?length_app in Hb; cbn in Hb; lia.
Qed.

Lemma joined_pending s :
  sound s → (0 < workers s)%nat → joined s →
  pending s = submitting s ∧ closed (pool s) = true.
Proof.
  intros Hi Hw [He Hsw]. pose proof (so_busy _ Hi) as Hb.
  destruct (so_exit _ Hi) as [Hc Hq]; [left; lia|]. split; [|done].
  unfold pending, working, swept. rewrite Hq, Hsw. destruct (busy s); [|cbn in Hb; lia].
  cbn. by rewrite !app_nil_r.
Qed.

(** The first half of [Close]. *)
Lemma close_begins s :
  ∃ s', rtc pool_step s s' ∧ closed (pool s') = true ∧ arrived s' = arrived s ∧
    (idle s → idle s').
Proof.
  destruct s as [p n w e b su sl bu sw ha ad ac st].
  exists (System (wake_all (set_closed p)) n w e true su sl bu sw ha ad ac st). split; [|done].
  destruct b; [by apply rtc_once, on_env, step_close|].
  eapply rtc_l; [apply on_env, step_stop|]. apply rtc_once, on_env, step_close.
Qed.

(** C23. From any state a pool with workers can reach its goroutines, left to
    themselves in any order, come to rest after finitely many stretches of code, with
    no help from the timers; and where they rest, every task submitted so far has been
    handled, each once, nobody is in [Submit] any more, and if [Close] has set the
    flag there is nothing it still waits for. No wakeup is lost. *)
Theorem pool_drains w depth reserveMS minBudgetMS full n s :
  rtc pool_step (start w (New depth reserveMS minBudgetMS full) n) s → (0 < w)%nat →
  sn work_step s ∧ (∃ s', rtc work_step s s' ∧ nf work_step s') ∧
  ∀ s', rtc work_step s s' → nf work_step s' →
    arrived s' = arrived s ∧ identity <$> (call_task <$> handled s') ≡ₚ identity <$> arrived s ∧
    idle s' ∧ (closed (pool s) = true → joined s').
Proof.
  intros Hr Hw. pose proof (steps_workers _ _ Hr) as Ew. cbn in Ew. apply reachable_sound in Hr as Hs.
  split; [by apply work_ends|]. split.
  { destruct (sound_drains s Hs) as (s' & Hr' & Ha & _); [by rewrite Ew|].
    exists s'. split; [done|by apply at_rest_stays]. }
  intros s' Hr' Hnf. destruct (work_run _ _ Hr') as (_ & _ & Ec & Ea).
  destruct (sound_rests s s' Hs) as [Ha Hs']; [by rewrite Ew|done|done|].
  split; [done|]. rewrite <- Ea. split; [apply idle_handled; [done|apply Ha]|].
  split; [apply Ha|]. intros Hc. apply rest_joined; [done|done|congruence].
Qed.

(** ** A run *)

Definition sample_task : Task := MkTask (sample_request PhaseRequest) "inbox" false 0 0.

(** A request waits 40 of its 100 milliseconds for the one worker; the reserve is
    10 and the least budget 5, so 50 are left for its inspection. *)
Definition sample_pool : Pool := New 1 10 5 "".

Ltac turn := eapply rtc_l; [apply on_work, (step_submit _ _ _ _ _ [] _ [] _ _ _ _ _ _ _ 0); [done|reflexivity]|].

Lemma sample_run :
  ∃ s, rtc pool_step (start 1 sample_pool 0) s ∧ q (pool s) = [] ∧ Accepted (pool s) = 1 ∧
    workers s = 1%nat ∧ arrived s = [sample_task] ∧
    handled s = [Call sample_task (50 * Millisecond) ""] ∧ idle s.
Proof.
  eexists. split.
  - eapply rtc_l; [apply on_work; eapply step_sleep; [|reflexivity]; cbn; lia|].
    eapply rtc_l; [apply on_env, (step_arrive _ _ _ _ _ _ _ _ _ _ _ _ _ sample_task)|].
    turn. turn. turn.
    eapply rtc_l; [apply on_env, (step_tick _ _ _ _ _ _ _ _ _ _ _ _ _ (40 * Millisecond)); done|].
    eapply rtc_l; [apply on_work, (step_wake _ _ _ _ _ _ []); reflexivity|].
    eapply rtc_l; [apply on_work; eapply step_pop; [|vm_compute; reflexivity]; cbn; lia|].
    eapply rtc_l; [eapply on_work, (step_job _ _ _ _ _ _ _ [] _ []); vm_compute; reflexivity|].
    apply rtc_refl.
  - vm_compute. split_and!; reflexivity.
Qed.

Theorem pool_sound_witness :
  ∃ s, rtc pool_step (start 1 sample_pool 0) s ∧ handled s = [Call sample_task (50 * Millisecond) ""]
    ∧ sound s.
Proof.
  destruct sample_run as (s & Hr & _ & _ & _ & _ & Hh & _). exists s. split; [exact Hr|].
  split; [exact Hh|]. apply (pool_sound 1 1 10 5 "" 0 s). exact Hr.
Defined.

Theorem pool_drains_witness :
  ∃ s s', rtc pool_step (start 1 sample_pool 0) s ∧ closed (pool s) = true ∧
    rtc work_step s s' ∧ nf work_step s' ∧ joined s' ∧ arrived s' = [sample_task].
Proof.
  destruct sample_run as (s0 & Hr0 & _ & _ & _ & Ha0 & _).
  destruct (close_begins s0) as (s & Hr & Hc & Ha & _). exists s.
  assert (rtc pool_step (start 1 sample_pool 0) s) as Hrs by by etrans.
  destruct (pool_drains 1 1 10 5 "" 0 s Hrs) as (_ & (s' & Hw & Hnf) & Hend); [lia|].
  destruct (Hend s' Hw Hnf) as (Ha' & _ & _ & Hj). exists s'.
  split; [exact Hrs|]. split; [exact Hc|]. split; [exact Hw|]. split; [exact Hnf|].
  split; [by apply Hj|]. by rewrite Ha', Ha.
Defined.
