(* ===== verification/FloatText.v ===== *)
(** * The text of a float64 in JSON

    What [encoding/json] writes for a float64: [strconv.AppendFloat] with the
    fewest digits that read back as the number, in the form of [%f], and of [%e]
    for the very large and the very small. Infinities and NaN, which it refuses,
    are not values of [GoFloat.float64]. *)
From Stdlib Require Import QArith Qabs.
From S2P Require Import Prelude GoString GoFloat Json JsonWrite.
Open Scope Z_scope.

(** [c * 10 ^ s]. *)
Definition scaled (c s : Z) : Q :=
  if 0 <=? s then inject_Z (c * 10 ^ s) else c # Z.to_pos (10 ^ (- s)).

(** The decimal exponent [e] of [n / d], both positive:
    [10 ^ (e - 1) <= n / d < 10 ^ e]. *)
Definition exponent10 (n d : Z) : Z :=
  let e := Z.of_nat (length (digits_of n)) - Z.of_nat (length (digits_of d)) in
  if n * 10 ^ Z.max 0 (- e) <? d * 10 ^ Z.max 0 e then e else e + 1.

(** Among [c] and [c + 1], at the scale [s], the one nearer to [n / d] of those
    that [keep] accepts; an exact tie goes to the even one. *)
Definition nearest (n d s : Z) (keep : Z → bool) : option Z :=
  let num := n * 10 ^ Z.max 0 (- s) in
  let den := d * 10 ^ Z.max 0 s in
  let c := num / den in
  let r := num mod den in
  let up := if 2 * r =? den then negb (Z.even c) else den <? 2 * r in
  match keep c, keep (c + 1) with
  | true, true => Some (if up then c + 1 else c)
  | true, false => Some c
  | false, true => Some (c + 1)
  | false, false => None
  end.

(** With [k] digits; seventeen always do. *)
Definition with_digits (n d : Z) (k : Z) : option (Z * Z) :=
  let s := exponent10 n d - k in
  (λ c, (c, s)) <$> nearest n d s (λ c, (17 <=? k) || Qeq_bool (round53 (scaled c s)) (n # Z.to_pos d)).

Fixpoint shortest_from (fuel : nat) (n d k : Z) : Z * Z :=
  match with_digits n d k, fuel with
  | Some cs, _ => cs
  | None, S fuel => shortest_from fuel n d (k + 1)
  | None, O => (0, 0)
  end.

(** Zeros at the end are no digits. *)
Fixpoint strip_zeros (fuel : nat) (c s : Z) : Z * Z :=
  match fuel with
  | O => (c, s)
  | S fuel => if c mod 10 =? 0 then strip_zeros fuel (c / 10) (s + 1) else (c, s)
  end.

Definition shortest (n d : Z) : Z * Z :=
  let '(c, s) := shortest_from 17 n d 1 in strip_zeros 17 c s.

(** ** Writing it *)

(** The last [k] digits of a number. *)
Fixpoint pad_digits (k : nat) (z : Z) (acc : list ascii) : list ascii :=
  match k with
  | O => acc
  | S k => pad_digits k (z / 10) (byte (48 + z mod 10) :: acc)
  end.

(** [c] with [p] digits after the point. *)
Definition point (c : Z) (p : nat) : list ascii :=
  let ten := 10 ^ Z.of_nat p in
  (digits_of (c / ten) ++ match p with O => [] | _ => "."%char :: pad_digits p (c mod ten) [] end)%list.

Definition format_f (c s : Z) : list ascii :=
  if 0 <=? s then digits_of (c * 10 ^ s) else point c (Z.to_nat (- s)).

(** The exponent of [%e] has a sign and at least two digits; the writer takes a
    zero at its head away again. *)
Definition format_e (c s : Z) : list ascii :=
  let nd := (length (digits_of c) - 1)%nat in
  let e := s + Z.of_nat nd in
  (point c nd ++ "e"%char :: (if e <? 0 then "-"%char else "+"%char) :: digits_of (Z.abs e))%list.

(** The constant [1e-6] as a float64; [1e21] is one. *)
Definition one_millionth : float64 := round53 (1 # 1000000).

Definition format_pos (n d : Z) : list ascii :=
  let '(c, s) := shortest n d in
  let x := n # Z.to_pos d in
  if negb (Qle_bool one_millionth x) || Qle_bool (inject_Z (10 ^ 21)) x then format_e c s
  else format_f c s.

Definition FormatFloat (x : float64) : string :=
  of_bytes match Qnum x with
  | Z0 => ["0"%char]
  | Zpos n => format_pos (Zpos n) (Zpos (Qden x))
  | Zneg n => "-"%char :: format_pos (Zpos n) (Zpos (Qden x))
  end.

Example format_third : FormatFloat (fdiv (of_int 1) (of_int 3)) = "0.3333333333333333".
Proof. vm_compute. reflexivity. Qed.
Example format_sum : FormatFloat (fadd (fdiv (of_int 1) (of_int 10)) (fdiv (of_int 2) (of_int 10))) =
  "0.30000000000000004".
Proof. vm_compute. reflexivity. Qed.
Example format_integer : FormatFloat (of_int 120) = "120".
Proof. vm_compute. reflexivity. Qed.
Example format_negative : FormatFloat (fdiv (of_int (-12345)) (of_int 1000)) = "-12.345".
Proof. vm_compute. reflexivity. Qed.
Example format_large : FormatFloat (of_int (10 ^ 21)) = "1e+21".
Proof. vm_compute. reflexivity. Qed.
Example format_small : FormatFloat (fdiv (of_int 25) (of_int (10 ^ 8))) = "2.5e-7".
Proof. vm_compute. reflexivity. Qed.
Example format_boundary : FormatFloat (fdiv (of_int 1) (of_int (10 ^ 6))) = "0.000001".
Proof. vm_compute. reflexivity. Qed.
Example format_power : FormatFloat (of_int (2 ^ 60)) = "1152921504606847000".
Proof. vm_compute. reflexivity. Qed.

(** ** What is written is a number of the grammar *)

Lemma digit_byte z : digit_char (byte (48 + z mod 10)).
Proof.
  assert (z mod 10 ∈ seqZ 0 10) as Hz.
  { apply elem_of_seqZ. pose proof (Z.mod_pos_bound z 10). lia. }
  revert Hz. generalize (z mod 10). intros r Hr. cbn in Hr.
  repeat (apply elem_of_cons in Hr as [->|Hr]; [by vm_compute|]). by apply not_elem_of_nil in Hr.
Qed.

Lemma pad_digits_all k : ∀ z acc, Forall digit_char acc → Forall digit_char (pad_digits k z acc).
Proof.
  induction k as [|k IH]; intros z acc Ha; [done|]. apply IH. constructor; [apply digit_byte|done].
Qed.

Lemma pad_digits_some k z acc : acc ≠ [] ∨ k ≠ 0%nat → pad_digits k z acc ≠ [].
Proof.
  revert z acc. induction k as [|k IH]; intros z acc Hk; [by destruct Hk|]. apply IH. by left.
Qed.

Lemma span_stop l rest :
  Forall digit_char l → (∀ c, head rest = Some c → is_dec c = false) →
  span_digits (l ++ rest) = (l, rest).
Proof.
  intros Hl Hr. induction Hl as [|c l Hc _ IH]; cbn.
  - destruct rest as [|c rest]; [done|]. cbn. by rewrite (Hr c eq_refl).
  - by rewrite digit_char_dec, IH.
Qed.

Lemma digits1_stop l rest :
  Forall digit_char l → l ≠ [] → (∀ c, head rest = Some c → is_dec c = false) →
  digits1 (l ++ rest) = Some (l, rest).
Proof. intros Hl Hn Hr. unfold digits1. rewrite span_stop by done. by destruct l. Qed.

Definition no_digit (l : list ascii) : Prop := ∀ c, head l = Some c → is_dec c = false.

Lemma lex_integer_stop z rest :
  0 ≤ z → no_digit rest → lex_integer (digits_of z ++ rest) = Some (digits_of z, rest).
Proof.
  intros Hz Hr. destruct (decide (z = 0)) as [->|Hz0]; [done|].
  pose proof (lex_integer_digits z Hz) as Hl. destruct (digits_of_spec z Hz) as (c & l & E & Hd & _).
  rewrite E in *. cbn [app]. unfold lex_integer in *. destruct (Ascii.eqb c "0").
  - injection Hl as Hl. by rewrite <- Hl.
  - change (c :: l ++ rest)%list with ((c :: l) ++ rest)%list. by apply digits1_stop.
Qed.

(** A fraction and an exponent, either of which may be missing. *)
Inductive fraction : list ascii → Prop :=
| no_fraction : fraction []
| some_fraction l : Forall digit_char l → l ≠ [] → fraction ("."%char :: l).
Inductive exponent : list ascii → Prop :=
| no_exponent : exponent []
| some_exponent sg l : sg = "+"%char ∨ sg = "-"%char → Forall digit_char l → l ≠ [] →
    exponent ("e"%char :: sg :: l).

Lemma exponent_no_digit e : exponent e → no_digit e.
Proof. intros [|sg l _ _ _] c; [done|]. by intros [= <-]. Qed.

Lemma fraction_no_digit f e : fraction f → exponent e → no_digit (f ++ e).
Proof. intros [|l _ _] He; [by apply exponent_no_digit|]. intros c. by intros [= <-]. Qed.

Lemma lex_exponent_whole e : exponent e → lex_exponent e = Some (e, []).
Proof.
  intros [|sg l Hs Hl Hn]; [done|]. cbn [lex_exponent].
  change (Ascii.eqb "e" "e" || Ascii.eqb "e" "E") with true. cbv iota.
  assert (Ascii.eqb sg "+" || Ascii.eqb sg "-" = true) as -> by by destruct Hs as [-> | ->].
  pose proof (digits1_stop l [] Hl Hn) as E. rewrite app_nil_r in E. by rewrite E.
Qed.

Lemma lex_fraction_stop f e : fraction f → exponent e → lex_fraction (f ++ e) = Some (f, e).
Proof.
  intros [|l Hl Hn] He; cbn [app].
  - destruct He; [done|]. done.
  - cbn [lex_fraction]. change (Ascii.eqb "." ".") with true. cbv iota.
    rewrite digits1_stop by (done || by apply exponent_no_digit). done.
Qed.

Lemma digits_no_sign z l : 0 ≤ z → ∃ c k, (digits_of z ++ l)%list = c :: k ∧ Ascii.eqb c "-" = false.
Proof.
  intros Hz. destruct (digits_of_spec z Hz) as (c & k & -> & Hd & _). exists c, (k ++ l)%list.
  apply Forall_cons in Hd as [Hc _]. by destruct (digit_char_not_sign c Hc) as [-> _].
Qed.

Lemma literal_parts z f e (neg : bool) :
  0 ≤ z → fraction f → exponent e →
  number_literal (of_bytes ((if neg then ["-"%char] else []) ++ digits_of z ++ f ++ e)) = true.
Proof.
  intros Hz Hf He. unfold number_literal. rewrite bytes_of_bytes.
  assert (lex_integer (digits_of z ++ f ++ e) = Some (digits_of z, (f ++ e)%list)) as E1
    by (apply lex_integer_stop; [done|by apply fraction_no_digit]).
  unfold lex_number. destruct neg; cbn [app].
  - change (Ascii.eqb "-" "-") with true. cbv iota. rewrite E1. cbn [mbind option_bind].
    rewrite lex_fraction_stop by done. cbn [mbind option_bind]. by rewrite lex_exponent_whole.
  - destruct (digits_no_sign z (f ++ e) Hz) as (c & k & E & Hc). rewrite E, Hc. rewrite <- E, E1.
    cbn [mbind option_bind]. rewrite lex_fraction_stop by done. cbn [mbind option_bind].
    by rewrite lex_exponent_whole.
Qed.

(** *** The digits are those of a number that is not negative *)

Lemma nearest_nonneg n d s keep c : 0 < n → 0 < d → nearest n d s keep = Some c → 0 ≤ c.
Proof.
  intros Hn Hd. unfold nearest.
  set (num := n * 10 ^ Z.max 0 (- s)). set (den := d * 10 ^ Z.max 0 s).
  assert (0 ≤ num / den) by (apply Z.div_pos; [|unfold den]; unfold num; lia).
  destruct (keep _), (keep _); try (by intros [= <-]); try done;
    intros [= <-]; repeat case_match; lia.
Qed.

Lemma shortest_from_nonneg fuel : ∀ n d k c s,
  0 < n → 0 < d → shortest_from fuel n d k = (c, s) → 0 ≤ c.
Proof.
  induction fuel as [|fuel IH]; intros n d k c s Hn Hd; cbn [shortest_from];
    destruct (with_digits n d k) as [[c' s']|] eqn:E.
  1, 3: intros [= <- <-]; unfold with_digits in E;
    destruct (nearest _ _ _ _) as [c0|] eqn:En; [|done]; injection E as <- <-;
    exact (nearest_nonneg _ _ _ _ _ Hn Hd En).
  - by intros [= <- <-].
  - by apply IH.
Qed.

Lemma strip_nonneg fuel : ∀ c s c' s', 0 ≤ c → strip_zeros fuel c s = (c', s') → 0 ≤ c'.
Proof.
  induction fuel as [|fuel IH]; intros c s c' s' Hc; cbn; [by intros [= <- <-]|].
  destruct (_ =? 0); [|by intros [= <- <-]]. apply IH. apply Z.div_pos; lia.
Qed.

Lemma point_parts c p : 0 ≤ c → ∃ z f, 0 ≤ z ∧ fraction f ∧ point c p = (digits_of z ++ f)%list.
Proof.
  intros Hc. unfold point. eexists _, _. split; [|split; [|reflexivity]].
  - apply Z.div_pos; lia.
  - destruct p as [|p]; [constructor|]. constructor; [by apply pad_digits_all|].
    apply pad_digits_some. by right.
Qed.

Lemma digits_all z : 0 ≤ z → Forall digit_char (digits_of z) ∧ digits_of z ≠ [].
Proof. intros Hz. destruct (digits_of_spec z Hz) as (c & l & -> & Hd & _). done. Qed.

Lemma format_parts n d :
  0 < n → 0 < d →
  ∃ z f e, 0 ≤ z ∧ fraction f ∧ exponent e ∧ format_pos n d = (digits_of z ++ f ++ e)%list.
Proof.
  intros Hn Hd. unfold format_pos. destruct (shortest n d) as [c s] eqn:E.
  assert (0 ≤ c) as Hc.
  { unfold shortest in E. destruct (shortest_from 17 n d 1) as [c0 s0] eqn:E0.
    exact (strip_nonneg _ _ _ _ _ (shortest_from_nonneg _ _ _ _ _ _ Hn Hd E0) E). }
  destruct (_ || _).
  - unfold format_e. destruct (point_parts c (length (digits_of c) - 1) Hc) as (z & f & Hz & Hf & ->).
    eexists z, f, _. split; [done|]. split; [done|]. rewrite <- (assoc_L (++)). split; [|reflexivity].
    destruct (digits_all (Z.abs (s + Z.of_nat (length (digits_of c) - 1)))) as [H1 H2]; [lia|].
    constructor; [case_match; auto|done|done].
  - unfold format_f. destruct (0 <=? s) eqn:Es.
    + exists (c * 10 ^ s), [], []. apply Z.leb_le in Es. split; [lia|].
      split; [constructor|]. split; [constructor|]. by rewrite !app_nil_r.
    + destruct (point_parts c (Z.to_nat (- s)) Hc) as (z & f & Hz & Hf & ->).
      exists z, f, []. split; [done|]. split; [done|]. split; [constructor|]. by rewrite app_nil_r.
Qed.

(** Every float64 is written as a number of JSON. *)
Theorem FormatFloat_literal x : number_literal (FormatFloat x) = true.
Proof.
  unfold FormatFloat. destruct (Qnum x) as [|n|n]; [done|..];
    destruct (format_parts (Zpos n) (Zpos (Qden x))) as (z & f & e & Hz & Hf & He & ->); try done.
  - by apply (literal_parts z f e false).
  - by apply (literal_parts z f e true).
Qed.
