(* ===== verification/Handler.v ===== *)
(** * cmd/inspector: the handler of messages

    [receive] takes a message from the bus, answers what cannot be inspected and
    submits the rest to the pool; the pool calls [evaluate] for every task, which
    inspects it or answers that it is shed. What leaves the process is recorded in
    [outbox]: the replies published, the sink and the events added to it, the
    entries written to lists. A panic anywhere in an inspection is the [Err] of its
    result, and [evaluate] turns it into a reply.

    Parameters: the decoder of the headers blob, the shared libraries of geographic
    data and lists, the encoder of audit events, which [Events] has, the text of
    errors, and the libraries below the contracts. *)
From S2P Require Import Prelude GoString GoFloat Json AuditLog Body Protocol Profile Decide.
From S2P Require Findings Schema Validate Queue Snapshot Config.

Definition defaultDenyResponse := "json_invalid".

(** The values of the map [Engine]. *)
Inductive engine :=
| EString (s : string) | EBool (b : bool) | EInt (z : Z) | EFloat (x : float64)
| ENames (l : list string) | EActions (l : list ActionOutcome).

Definition details := Details engine.

(** A call of [AddMany]. *)
Record list_write := ListWrite {
  lw_set : string; lw_values : list string; lw_ttl : Z; lw_reason : string
}.

Record outbox := Outbox {
  sink : option Sink; published : list (string * Reply); writes : list list_write;
  events : list item
}.

Definition milliseconds (us : Z) : float64 := fdiv (of_int us) (of_int 1000).

Definition plain (req : Request) (verdict code : string) : Reply :=
  set_reason (Some {| Reason_Code := code; Reason_Class := "" |}) (NewReply req verdict).

Definition phaseEnabled (p : Profile) (phase : string) : bool :=
  if phase =s? PhaseResponse then Resp_Enabled (Profile_Response p)
  else if phase =s? PhaseFrame then Frame_Enabled (Profile_Frame p)
  else Req_Enabled (Profile_Request p).

Definition phasePolicy (p : Profile) (req : Request) : PhasePolicy :=
  if Phase req =s? PhaseResponse then ResponsePhase p
  else if Phase req =s? PhaseFrame then FramePhase p (Validate.Direction req)
  else RequestPhase p.

Definition denyResponseOf (p : Profile) (req : Request) : string :=
  let name :=
    if Phase req =s? PhaseResponse then Resp_DenyResponse (Profile_Response p)
    else if Phase req =s? PhaseFrame
    then Dir_DenyResponse (Profile.Direction (Profile_Frame p) (Validate.Direction req))
    else Req_DenyResponse (Profile_Request p) in
  if is_empty name then defaultDenyResponse else name.

Definition effective (d : decision) (scored : Z) : decision :=
  if Verdict d =s? VerdictScore then {|
    Verdict := Verdict d; Decision_Score := scored; Decision_Code := Decision_Code d;
    DenyResponse := DenyResponse d; WouldVerdict := WouldVerdict d; WouldScore := WouldScore d;
    WouldCode := WouldCode d |}
  else d.

Definition set_would_score (score : Z) (d : decision) : decision := {|
  Verdict := Verdict d; Decision_Score := Decision_Score d; Decision_Code := Decision_Code d;
  DenyResponse := DenyResponse d; WouldVerdict := WouldVerdict d; WouldScore := score;
  WouldCode := WouldCode d
|}.

Definition with_engine (e : gmap string engine) (det : details) : details := {|
  EngineMS := EngineMS det; Findings := Findings det; Engine := e |}.
Definition note (key : string) (v : engine) (det : details) : details :=
  with_engine (<[key := v]> (Engine det)) det.
Definition note_if (b : bool) (key : string) (v : engine) (det : details) : details :=
  if b then note key v det else det.

Section writing.
(** [netinfo.Networked], the resolver's [Write]. *)
Context (Networked : string → bool) (geo_Write : string → string → result (list string)).

Definition ban_write (ban : Ban) (values : list string) : list_write :=
  ListWrite (Dataset ban) values (wrap64 (wrap64 (Ban_TTL ban) * 1000000000)) (Ban_Reason ban).

(** The loop: the writes, and the first failure of the resolver. *)
Fixpoint writeLists (bans : list Ban) (failed : option error)
    : list list_write * option error :=
  match bans with
  | [] => ([], failed)
  | ban :: bans =>
      if Networked (Ban_Write ban) then
        match geo_Write (Ban_Write ban) (Addr ban) with
        | Err e => writeLists bans (match failed with None => Some e | Some _ => failed end)
        | Ok [] => writeLists bans failed
        | Ok got =>
            let '(ws, failed) := writeLists bans failed in (ban_write ban got :: ws, failed)
        end
      else
        let '(ws, failed) := writeLists bans failed in (ban_write ban [Addr ban] :: ws, failed)
  end.

(** [lists] tells whether the handler has a publisher. *)
Definition publish (lists : bool) (bans : list Ban) : list list_write * option error :=
  if is_nil bans || negb lists then ([], None) else writeLists bans None.
End writing.

Section handler.
Context `{Unicode} {M I K S : Type}.
Context (KeywordPath : K → list string) (LocalizedString : K → string).
Context (sha256 : string → string) (gcm_open : string → string → string → option string).
Context (marshal_value : value → result string).
Context (sch_validate : S → value → result (@Schema.validation K)) (error_text : error → string).
Context (unmarshal_headers : string → result (list Header)).
Context (Networked : string → bool) (geo_Write : string → string → result (list string)).
Context (marshal_event : Event engine → result string).

Abbreviation ContractSet := (Schema.ContractSet M I K S).
Abbreviation Run := (Validate.Run KeywordPath LocalizedString sha256 marshal_value sch_validate
  error_text (M := M) (I := I)).
Abbreviation LoadMany := (LoadMany sha256 gcm_open).
Abbreviation publish := (publish Networked geo_Write).

(** [current] is the snapshot in force when the call looks. *)
Record handler := Handler {
  cfg_name : string; cfg_versions : list Z; current : option (Snapshot.Snapshot ContractSet);
  loader : Loader; lists : bool
}.

Definition profile (h : handler) (req : Request) : option Profile :=
  Snapshot.Snapshot_Profile (current h) (Route_Profile (Request_Route req)).

Definition headers (loaded : Body) : list Header :=
  if negb (Available loaded) || is_empty (Data loaded) then []
  else match unmarshal_headers (Data loaded) with Ok pairs => pairs | Err _ => [] end.

(** *** An answer

    The reply, the details of the audit event, the writes to lists. *)
Record answer := Answer { an_reply : Reply; an_details : details; an_writes : list list_write }.

Definition just (r : Reply) (det : details) : answer := Answer r det [].

Definition locators (req : Request) : list (option Locator) :=
  let s := Request_Store req in
  ((if Phase req =s? PhaseFrame then None else Store_Headers s) :: Store_Body s ::
   (if Phase req =s? PhaseRequest then [Store_Args s] else [])).

(** An index out of range panics. *)
Definition nth_body (got : list Body) (i : nat) : result Body :=
  match got !! i with Some b => Ok b | None => Err Panic end.

(** The reply of a decision, before what fires is added. *)
Definition decision_reply (p : Profile) (req : Request) (d : decision) (scored : Z) : Reply :=
  let reply := NewReply req (Verdict d) in
  let reply :=
    if is_empty (Decision_Code d) then reply
    else set_reason (Some {| Reason_Code := Decision_Code d; Reason_Class := "" |}) reply in
  let reply :=
    if Verdict d =s? VerdictScore then
      match WithScore reply scored with
      | Ok reply => reply
      | Err _ => ErrorReply req CodeInternalError
      end
    else reply in
  if Verdict d =s? VerdictDeny
  then set_response (Some {| ResponseRef_Name := denyResponseOf p req |}) reply
  else reply.

Definition fired_by (t : Queue.Task) (p : Profile) (d : decision) : Fired :=
  let req := Queue.Task_Req t in
  let addr := Conn_ClientIP (Request_Conn req) in
  let fired := Fire (phasePolicy p req) d addr in
  if Phase req =s? PhaseRequest then
    let more := FireOverload (Outcomes (RequestPhase p)) (Queue.Fill t) false addr
                  Queue.ReasonQueueLimit in
    {| Actions := Actions fired ++ Actions more; Bans := Bans fired ++ Bans more;
       Names := Names fired ++ Names more |}
  else fired.

Definition decision_details (p : Profile) (req : Request) (ask : Ask) (d : decision) (scored : Z)
    (contract : @Schema.Contract M I K S) (body : Body) (out : Validate.Outcome) (fired : Fired) (us : Z)
    : details :=
  let frame := Phase req =s? PhaseFrame in
  let would := negb (is_empty (WouldVerdict d)) in
  let scaled := negb (Percent ask =? 0) && (Verdict d =s? VerdictScore) in
  note_if (negb (is_nil (Names fired))) "outcomes" (ENames (Names fired))
  (note_if (would && (WouldVerdict d =s? VerdictScore)) "would_score" (EInt (WouldScore d))
  (note_if would "would_code" (EString (WouldCode d))
  (note_if would "would_verdict" (EString (WouldVerdict d))
  (note_if (Mode p =s? ModeObserve) "passive" (EBool true)
  (note_if scaled "score_scaled" (EInt scored)
  (note_if scaled "score_scale_percent" (EInt (Percent ask))
  (note_if scaled "score_raw" (EInt (Decision_Score d))
  (note_if (negb (is_nil (Ask_Outcomes ask))) "actions" (EActions (Ask_Outcomes ask))
  (note_if (negb (is_empty (Validate.Skipped out))) "skipped" (EString (Validate.Skipped out))
  (note_if frame "opcode" (EString (Validate.Opcode req))
  (note_if frame "direction" (EString (Validate.Direction req))
  (note_if frame "seq" (EInt (Seq req))
  (note_if frame "conn" (EString (ConnID req))
  (note_if (negb (is_empty (Validate.out_Operation out))) "operation"
     (EString (Validate.out_Operation out))
   {| EngineMS := milliseconds us; Findings := Validate.out_Findings out;
      Engine := {[ "profile" := EString (Name p); "mode" := EString (Mode p);
                   "phase" := EString (Phase req);
                   "kind" := EString (Schema.Contract_kind contract);
                   "schema" := EString (Schema.Contract_source contract);
                   "outcome" := EString (Validate.out_Outcome out);
                   "errors" := EInt (Validate.out_Errors out);
                   "truncated" := EBool (Body_Truncated body);
                   "body_size" := EInt (slen (Data body)) ]} |})))))))))))))).

(** From the outcome of the run to the answer. *)
Definition decided (h : handler) (t : Queue.Task) (p : Profile) (ask : Ask)
    (contract : @Schema.Contract M I K S) (body : Body) (out : Validate.Outcome) (us : Z) : answer :=
  let req := Queue.Task_Req t in
  let d := From (phasePolicy p req) (Validate.out_Outcome out) in
  let scored := if Verdict d =s? VerdictScore then ScaleScore (Decision_Score d) (Percent ask)
                else Decision_Score d in
  let d := if WouldVerdict d =s? VerdictScore
           then set_would_score (ScaleScore (WouldScore d) (Percent ask)) d else d in
  let reply := decision_reply p req d scored in
  let fired := fired_by t p (effective d scored) in
  let reply := if is_nil (Actions fired) then reply else set_actions (Actions fired) reply in
  let det := decision_details p req ask d scored contract body out fired us in
  let '(ws, failed) := publish (lists h) (Bans fired) in
  match failed with
  | Some e => Answer (ErrorReply req CodeGeoUnavailable) (note "geo" (EString (error_text e)) det) ws
  | None => Answer reply det ws
  end.

(** Load, validate, decide. *)
Definition examine (h : handler) (t : Queue.Task) (p : Profile) (ask : Ask)
    (contract : @Schema.Contract M I K S) (us : Z) : result answer :=
  let req := Queue.Task_Req t in
  got ← LoadMany (loader h) (locators req);
  headers_body ← nth_body got 0;
  body ← nth_body got 1;
  args ← (if Phase req =s? PhaseRequest then nth_body got 2 else Ok no_body);
  out ← Run {|
    Validate.Req := req; Validate.In_Profile := p; Validate.In_Contract := contract;
    Validate.In_Body := body; Validate.In_Args := args;
    Validate.In_Headers := headers headers_body |};
  Ok (if negb (is_empty (Validate.out_Fault out)) then
        just (ErrorReply req CodeStoreUnavailable) {|
          EngineMS := milliseconds us; Findings := Validate.out_Findings out;
          Engine := {[ "profile" := EString (Name p);
                       "store" := EString (Validate.out_Fault out) ]} |}
      else decided h t p ask contract body out us).

(** [us] is the time since the start, when it is read. *)
Definition inspect (h : handler) (t : Queue.Task) (us : Z) : result answer :=
  let req := Queue.Task_Req t in
  match profile h req with
  | None =>
      Ok (just (ErrorReply req CodeUnknownProfile) {|
            EngineMS := of_int 0;
            Findings := [new_finding "json-unknown-profile" SeverityCritical TargetURI
                           (Route_Profile (Request_Route req)) ""];
            Engine := ∅ |})
  | Some p =>
      if Mode p =s? ModeOff then Ok (just (plain req VerdictAllow CodeProfileOff) no_details)
      else if negb (phaseEnabled p (Phase req)) then
        Ok (just (plain req VerdictAllow CodePhaseDisabled) no_details)
      else
        let ask := EvaluatePrior (Prior req) (Trigger_Prior (Profile_Trigger p)) in
        if Skip ask then
          Ok (just (plain req VerdictAllow CodeSkipped) {|
            EngineMS := of_int 0; Findings := [];
            Engine := {[ "profile" := EString (Name p); "skip" := EBool true;
                         "actions" := EActions (Ask_Outcomes ask) ]} |})
        else
          match Schema.Set_Contract (Snapshot.Compiled (current h)) (Name p) with
          | None => Ok (just (ErrorReply req CodeInternalError) no_details)
          | Some contract => examine h t p ask contract us
          end
  end.

(** *** Shedding *)

(** What fires when a task is shed, with the reply and details it is added to. *)
Definition overloadOnShed (h : handler) (t : Queue.Task) (shed : string) (reply : Reply)
    (det : details) : answer :=
  let req := Queue.Task_Req t in
  if negb (shed =s? Queue.ReasonQueueLimit) || negb (Phase req =s? PhaseRequest)
  then just reply det
  else
    match profile h req with
    | None => just reply det
    | Some p =>
        if Mode p =s? ModeOff then just reply det
        else
          let fired := FireOverload (Outcomes (RequestPhase p)) (Queue.Fill t) true
                         (Conn_ClientIP (Request_Conn req)) shed in
          let reply := if is_nil (Actions fired) then reply else set_actions (Actions fired) reply in
          let det := note_if (negb (is_nil (Names fired))) "outcomes" (ENames (Names fired)) det in
          let '(ws, failed) := publish (lists h) (Bans fired) in
          match failed with
          | Some e => Answer reply (note "geo" (EString (error_text e)) det) ws
          | None => Answer reply det ws
          end
    end.

(** [budget] is in nanoseconds, its [Microseconds] are truncated. *)
Definition shed_answer (h : handler) (t : Queue.Task) (budget : Z) (shed : string) : answer :=
  overloadOnShed h t shed (ShedReply (Queue.Task_Req t) shed) {|
    EngineMS := of_int 0; Findings := [];
    Engine := {[ "shed" := EString shed;
                 "budget_ms" := EFloat (milliseconds (Z.quot budget 1000)) ]} |}.

(** *** Sending *)

(** [ts] is the time in the format of events. *)
Definition send (ts : string) (subject : string) (reply : Reply) (req : option Request)
    (det : details) (o : outbox) : outbox :=
  if is_empty subject then o
  else
    let payload :=
      match Marshal reply with
      | Ok r => Ok r
      | Err _ => Marshal (FallbackReply (Reply_RID reply) (Reply_Inspector reply) CodeInternalError)
      end in
    match payload with
    | Err _ => o
    | Ok payload =>
        Outbox (Add marshal_event ts (sink o) req (Some reply) det).1
          (published o ++ [(subject, payload)]) (writes o)
          (events o ++ option_list (added_item marshal_event ts (sink o) req (Some reply) det))
    end.

(** A panic was recovered. *)
Definition recoverInto (h : handler) (ts : string) (subject rid : string) (o : outbox) : outbox :=
  if is_empty subject then o
  else send ts subject (FallbackReply rid (cfg_name h) CodeInternalError) None no_details o.

Definition add_writes (ws : list list_write) (o : outbox) : outbox :=
  Outbox (sink o) (published o) (writes o ++ ws) (events o).

Definition answer_task (ts : string) (t : Queue.Task) (a : answer) (o : outbox) : outbox :=
  send ts (Queue.Task_Reply t) (an_reply a) (Some (Queue.Task_Req t)) (an_details a)
    (add_writes (an_writes a) o).

(** The pool's handler. *)
Definition evaluate (h : handler) (t : Queue.Task) (budget : Z) (shed : string) (us : Z) (ts : string)
    (o : outbox) : outbox :=
  if negb (is_empty shed) then answer_task ts t (shed_answer h t budget shed) o
  else
    match inspect h t us with
    | Ok a => answer_task ts t a o
    | Err _ => recoverInto h ts (Queue.Task_Reply t) (RID (Queue.Task_Req t)) o
    end.

(** *** Receiving *)

(** [Some] is the task handed to [Submit]. *)
Definition receive (unmarshal : string → result Request) (h : handler) (ts : string)
    (data reply_to : string) (o : outbox) : outbox * option Queue.Task :=
  match Parse unmarshal data with
  | inr pe =>
      (send ts reply_to (FallbackReply (ParseError_RID pe) (cfg_name h) CodeMalformedRequest) None
         no_details o, None)
  | inl req =>
      if negb (Config.supports (cfg_versions h) (V req)) then
        (send ts reply_to (set_V Version (ErrorReply req CodeUnsupportedVersion)) (Some req)
           no_details o, None)
      else
        match Request_Release req with
        | Some _ => (o, None)
        | None =>
            if negb (Phase req =s? PhaseRequest) && negb (Phase req =s? PhaseResponse) &&
               negb (Phase req =s? PhaseFrame)
            then (send ts reply_to (ErrorReply req CodePhaseNotSupported) (Some req) no_details o, None)
            else (o, Some (Queue.MkTask req reply_to false 0 0))
        end
  end.
End handler.

(** ** Writes to lists *)

Section writes.
Context (Networked : string → bool) (geo_Write : string → string → result (list string)).

(** The values a ban writes: the address, or what the resolver makes of it. *)
Definition ban_values (ban : Ban) : result (list string) :=
  if Networked (Ban_Write ban) then geo_Write (Ban_Write ban) (Addr ban) else Ok [Addr ban].

(** Every ban writes its values, in order, unless they are none or the resolver
    fails; one failure stops no other write, and the first is the one reported. *)
Theorem writeLists_spec bans failed :
  writeLists Networked geo_Write bans failed =
    (omap (λ b, match ban_values b with Ok (v :: vs) => Some (ban_write b (v :: vs)) | _ => None end) bans,
     match failed with
     | Some e => Some e
     | None => head (omap (λ b, match ban_values b with Err e => Some e | Ok _ => None end) bans)
     end).
Proof.
  revert failed. induction bans as [|b bans IH]; intros failed; cbn; [by destruct failed|].
  unfold ban_values. destruct (Networked (Ban_Write b)).
  - destruct (geo_Write (Ban_Write b) (Addr b)) as [[|v vs]|e]; rewrite IH; destruct failed; done.
  - rewrite IH. by destruct failed.
Qed.
End writes.

(** ** What a message gets *)

Section sending.
Context {M I K S : Type}.
Context (marshal_event : Event engine → result string).
Abbreviation send := (send marshal_event).

Lemma Marshal_fallback rid insp code :
  Marshal (FallbackReply rid insp code) = Ok (FallbackReply rid insp code).
Proof. done. Qed.

(** A call of [send] publishes one reply, for the request it was called for. *)
Lemma send_published ts subject reply req det o :
  ∃ r, published (send ts subject reply req det o) =
         (published o ++ (if is_empty subject then [] else [(subject, r)]))%list ∧
       Reply_RID r = Reply_RID reply ∧
       (Marshal reply = Ok reply → r = reply).
Proof.
  unfold Handler.send. destruct (is_empty subject).
  { exists reply. by rewrite app_nil_r. }
  destruct (Marshal reply) as [r|e] eqn:E; cbn.
  - exists r. assert (r = reply) as ->; [|done]. unfold Marshal in E.
    destruct (Reply_Score reply); [destruct (_ || _)|]; congruence.
  - exists (FallbackReply (Reply_RID reply) (Reply_Inspector reply) CodeInternalError).
    split_and!; [done|done|congruence].
Qed.

Lemma send_writes ts subject reply req det o :
  writes (send ts subject reply req det o) = writes o.
Proof. unfold Handler.send. destruct (is_empty _); [done|]. by destruct (Marshal reply). Qed.
End sending.

(** A reply the module can act on: one of four verdicts, a score in range with
    exactly the verdict score, a response with exactly a denial, a code with an
    error. *)
Definition reply_ok (r : Reply) : Prop :=
  Reply_Verdict r = VerdictAllow ∧ Reply_Score r = None ∧ Reply_Response r = None ∨
  Reply_Verdict r = VerdictScore ∧ (∃ s, Reply_Score r = Some s ∧ 0 ≤ s ≤ 100) ∧
    Reply_Response r = None ∨
  Reply_Verdict r = VerdictDeny ∧ Reply_Score r = None ∧
    (∃ n, Reply_Response r = Some {| ResponseRef_Name := n |} ∧ n ≠ "") ∨
  Reply_Verdict r = VerdictError ∧ Reply_Score r = None ∧ Reply_Response r = None ∧
    (∃ c, Reply_Reason r = Some c ∧ Reason_Code c ≠ "").

Lemma reply_ok_marshal r : reply_ok r → Marshal r = Ok r.
Proof.
  unfold Marshal. intros [(_ & -> & _)|[(_ & (s & -> & Hs) & _)|[(_ & -> & _)|(_ & -> & _)]]]; try done.
  destruct (Z.ltb_spec s 0); [lia|]. destruct (Z.ltb_spec 100 s); [lia|]. done.
Qed.

Lemma reply_ok_actions r l : reply_ok r → reply_ok (set_actions l r).
Proof. done. Qed.

Lemma reply_ok_error req code : code ≠ "" → reply_ok (ErrorReply req code).
Proof. intros Hc. right. right. right. cbn. split_and!; eauto. Qed.

Lemma reply_ok_fallback rid inspector code : code ≠ "" → reply_ok (FallbackReply rid inspector code).
Proof. intros Hc. right. right. right. cbn. split_and!; eauto. Qed.

(** The reply carries the request's identity. *)
Definition replies_to (req : Request) (r : Reply) : Prop :=
  Reply_RID r = RID req ∧ Reply_V r = V req ∧ Reply_Inspector r = Inspector req.

Lemma denyResponseOf_nonempty p req : denyResponseOf p req ≠ "".
Proof.
  unfold denyResponseOf. destruct (is_empty _) eqn:E; [done|]. by apply is_empty_false.
Qed.

Lemma decision_reply_ok p req d scored :
  decision_ok d → (Verdict d = VerdictScore → 0 ≤ scored ≤ 100) →
  reply_ok (decision_reply p req d scored) ∧
  Reply_Verdict (decision_reply p req d scored) = Verdict d ∧
  replies_to req (decision_reply p req d scored).
Proof.
  intros Hd Hs. unfold decision_reply.
  set (base := if is_empty (Decision_Code d) then _ else _).
  assert (replies_to req base ∧ Reply_Verdict base = Verdict d ∧ Reply_Score base = None ∧
    Reply_Response base = None) as (Hb & Hv & Hn & Hr) by (unfold base; by destruct (is_empty _)).
  destruct Hd as [(E & _ & _)|[(E & Hz & _ & _)|(E & _ & _ & _)]]; rewrite E in *.
  - change (VerdictAllow =s? VerdictScore) with false. change (VerdictAllow =s? VerdictDeny) with false.
    split; [by left|]. done.
  - change (VerdictScore =s? VerdictScore) with true. change (VerdictScore =s? VerdictDeny) with false.
    cbv iota. unfold WithScore. specialize (Hs eq_refl).
    rewrite (proj2 (Z.ltb_ge scored 0)), (proj2 (Z.ltb_ge 100 scored)) by lia. cbn [orb].
    split; [|done]. right. left. cbn. split_and!; [done|eauto|done].
  - change (VerdictDeny =s? VerdictScore) with false. change (VerdictDeny =s? VerdictDeny) with true.
    cbv iota. split; [|done]. right. right. left. cbn. split_and!; [done|done|].
    eexists. split; [done|apply denyResponseOf_nonempty].
Qed.

(** *** What the store promises the handler *)

Class Served `{Unicode} {M I K S : Type}
    (s : option (Snapshot.Snapshot (Schema.ContractSet M I K S))) : Prop := {
  sv_valid n p : Snapshot.Snapshot_Profile s n = Some p → Validate p = Ok tt;
  sv_contract n p : Snapshot.Snapshot_Profile s n = Some p → Mode p ≠ ModeOff →
    ∃ c, Schema.Set_Contract (Snapshot.Compiled s) (Name p) = Some c ∧
      Schema.Contract_kind c = Schema_Kind (Profile_Schema p)
}.

Section served.
Context `{Unicode} {M I K S N D : Type}.
Context (yaml_decode : Profile → string → result Profile).
Context (openapi_model : string → result (option (@Schema.OpenAPI M I K))).
Context (yaml_unmarshal : string → result N) (json_marshal : N → result string).
Context (read_json : string → result D).
Context (compile : (string → result D) → string → D → result S).
Abbreviation Compile :=
  (Schema.Compile openapi_model yaml_unmarshal json_marshal read_json compile).

Lemma build_kind p c :
  Schema.build openapi_model yaml_unmarshal json_marshal read_json compile p = Ok c →
  Schema.Contract_kind c = Schema_Kind (Profile_Schema p).
Proof.
  unfold Schema.build. destruct (_ =s? KindOpenAPI).
  - unfold Schema.buildOpenAPI. destruct (Documents p !! _); [|done].
    intros (m & _ & Hm)%bind_ok. destruct m; [|done]. destruct (_ =? 0); [done|]. by injection Hm as <-.
  - destruct (_ =s? KindJSONSchema); [|done]. unfold Schema.buildJSONSchema.
    intros (b & _ & Hb)%bind_ok. destruct (_ && _); [done|]. by injection Hb as <-.
Qed.

Lemma sound_names s :
  Snapshot.snapshot_ok yaml_decode (Some Compile) s →
  Name <$> Snapshot.All (Some s) = Snapshot.Snapshot_names s.
Proof.
  intros [_ _ Hkeys _ Hload _ _]. cbn. unfold Snapshot.profiles_of.
  assert (∀ n, n ∈ Snapshot.Snapshot_names s → is_Some (Snapshot.byName s !! n)) as Hk
    by (intros n; apply Hkeys).
  clear Hkeys. induction (Snapshot.Snapshot_names s) as [|n l IH]; [done|]. cbn.
  destruct (Hk n) as [p Hp]; [by left|]. rewrite Hp. cbn.
  rewrite (Snapshot.pl_name _ _ _ (Hload _ _ Hp)). f_equal. apply IH. intros m Hm. apply Hk. by right.
Qed.

(** The contract of a profile in a sound snapshot is the one built of it. *)
Lemma sound_contract s n p :
  Snapshot.snapshot_ok yaml_decode (Some Compile) s → Snapshot.Snapshot_Profile (Some s) n = Some p →
  Mode p ≠ ModeOff →
  ∃ c, Schema.build openapi_model yaml_unmarshal json_marshal read_json compile p = Ok c ∧
    Schema.Set_Contract (Snapshot.Compiled (Some s)) (Name p) = Some c.
Proof.
  intros Hs Hp Hm. pose proof (sound_names s Hs) as Hn.
  destruct Hs as [Hnd _ Hkeys _ Hload _ (set & Hset & Hc)].
  rewrite <- Hn in Hnd. destruct (Schema.compiled_contracts _ _ _ _ _ _ _ Hnd Hset) as (Hcs & _).
  cbn [Snapshot.Compiled]. rewrite Hc. apply Hcs; [|done].
  apply list_elem_of_omap. eexists. split; [|exact Hp]. apply Hkeys. eauto.
Qed.

(** A sound snapshot keeps the promise: the branch of [inspect] for a profile
    without a contract is never taken. *)
Lemma sound_served s :
  Snapshot.snapshot_ok yaml_decode (Some Compile) s → Served (Some s).
Proof.
  intros Hs. split.
  - intros n p Hp. cbn in Hp. apply (Snapshot.pl_valid _ _ _ (Snapshot.sn_loaded _ _ _ Hs _ _ Hp)).
  - intros n p Hp Hm. destruct (sound_contract s n p Hs Hp Hm) as (c & Hb & Hc).
    exists c. split; [exact Hc|]. by apply build_kind in Hb.
Qed.
End served.

(** ** Inspections *)

Section inspections.
Context `{Unicode} {M I K S : Type}.
Context (KeywordPath : K → list string) (LocalizedString : K → string).
Context (sha256 : string → string) (gcm_open : string → string → string → option string).
Context (marshal_value : value → result string).
Context (sch_validate : S → value → result (@Schema.validation K)) (error_text : error → string).
Context (unmarshal_headers : string → result (list Header)).
Context (Networked : string → bool) (geo_Write : string → string → result (list string)).
Context (marshal_event : Event engine → result string).

Abbreviation handler := (@handler M I K S).
Abbreviation inspect := (inspect KeywordPath LocalizedString sha256 gcm_open marshal_value sch_validate
  error_text unmarshal_headers Networked geo_Write (M := M) (I := I)).
Abbreviation examine := (examine KeywordPath LocalizedString sha256 gcm_open marshal_value sch_validate
  error_text unmarshal_headers Networked geo_Write (M := M) (I := I)).
Abbreviation decided := (decided error_text Networked geo_Write (M := M) (I := I) (K := K) (S := S)).
Abbreviation evaluate := (evaluate KeywordPath LocalizedString sha256 gcm_open marshal_value
  sch_validate error_text unmarshal_headers Networked geo_Write marshal_event (M := M) (I := I)).
Abbreviation Run := (Validate.Run KeywordPath LocalizedString sha256 marshal_value sch_validate
  error_text (M := M) (I := I)).
Abbreviation receive := (receive marshal_event (M := M) (I := I) (K := K) (S := S)).

(** The exits of [inspect]. *)
Lemma inspect_cases h t us a :
  inspect h t us = Ok a →
  let req := Queue.Task_Req t in
  profile h req = None ∧ an_reply a = ErrorReply req CodeUnknownProfile ∧ an_writes a = [] ∨
  ∃ p, profile h req = Some p ∧
    ((∃ code, an_reply a = plain req VerdictAllow code ∧ an_writes a = [] ∧
        (Mode p = ModeOff ∨ phaseEnabled p (Phase req) = false ∨
         Skip (EvaluatePrior (Prior req) (Trigger_Prior (Profile_Trigger p))) = true)) ∨
     Mode p ≠ ModeOff ∧ phaseEnabled p (Phase req) = true ∧
     Skip (EvaluatePrior (Prior req) (Trigger_Prior (Profile_Trigger p))) = false ∧
     (Schema.Set_Contract (Snapshot.Compiled (current h)) (Name p) = None ∧
      an_reply a = ErrorReply req CodeInternalError ∨
      ∃ c, Schema.Set_Contract (Snapshot.Compiled (current h)) (Name p) = Some c ∧
        examine h t p (EvaluatePrior (Prior req) (Trigger_Prior (Profile_Trigger p))) c us = Ok a)).
Proof.
  unfold Handler.inspect. cbv zeta. destruct (profile h (Queue.Task_Req t)) as [p|]; intros Hi; [right|left].
  2:{ injection Hi as <-. done. }
  exists p. split; [done|]. revert Hi.
  destruct (String.eqb_spec (Mode p) ModeOff) as [E|E].
  { intros [= <-]. left. eexists. split_and!; [done|done|by left]. }
  destruct (phaseEnabled p (Phase (Queue.Task_Req t))) eqn:Ep; cbn [negb].
  2:{ intros [= <-]. left. eexists. split_and!; [done|done|auto]. }
  destruct (Skip _) eqn:Es.
  { intros [= <-]. left. eexists. split_and!; [done|done|auto]. }
  intros Hi. right. split_and!; [done|done|done|].
  destruct (Schema.Set_Contract _ _) as [c|]; [right; eauto|left]. by injection Hi as <-.
Qed.

(** The way to a decision, forwards. *)
Lemma inspect_examines h t us p c :
  let req := Queue.Task_Req t in
  profile h req = Some p → Mode p ≠ ModeOff → phaseEnabled p (Phase req) = true →
  Skip (EvaluatePrior (Prior req) (Trigger_Prior (Profile_Trigger p))) = false →
  Schema.Set_Contract (Snapshot.Compiled (current h)) (Name p) = Some c →
  inspect h t us = examine h t p (EvaluatePrior (Prior req) (Trigger_Prior (Profile_Trigger p))) c us.
Proof.
  cbv zeta. intros Hp Hm Hen Hs Hc. unfold Handler.inspect. rewrite Hp, (proj2 (seqb_neq _ _) Hm), Hen.
  cbn [negb]. by rewrite Hs, Hc.
Qed.

Lemma examine_decides h t p ask c us hs body args out :
  let req := Queue.Task_Req t in
  Phase req = PhaseRequest → LoadMany sha256 gcm_open (loader h) (locators req) = Ok [hs; body; args] →
  Run {| Validate.Req := req; Validate.In_Profile := p; Validate.In_Contract := c;
         Validate.In_Body := body; Validate.In_Args := args;
         Validate.In_Headers := headers unmarshal_headers hs |} = Ok out →
  Validate.out_Fault out = "" →
  examine h t p ask c us = Ok (decided h t p ask c body out us).
Proof.
  cbv zeta. intros Hph Hl Hr Hf. unfold Handler.examine. rewrite Hl. cbn. rewrite Hph.
  change (PhaseRequest =s? PhaseRequest) with true. cbn. rewrite Hr. cbn. by rewrite Hf.
Qed.

(** What [examine] did when it did not panic. *)
Lemma examine_cases h t p ask c us a :
  examine h t p ask c us = Ok a →
  let req := Queue.Task_Req t in
  ∃ hs body args out,
    LoadMany sha256 gcm_open (loader h) (locators req) = Ok (hs :: body :: args) ∧
    Run {| Validate.Req := req; Validate.In_Profile := p; Validate.In_Contract := c;
           Validate.In_Body := body;
           Validate.In_Args := if Phase req =s? PhaseRequest then List.hd no_body args else no_body;
           Validate.In_Headers := headers unmarshal_headers hs |} = Ok out ∧
    (Validate.out_Fault out ≠ "" ∧ an_reply a = ErrorReply req CodeStoreUnavailable ∧
       an_writes a = [] ∨
     Validate.out_Fault out = "" ∧ a = decided h t p ask c body out us).
Proof.
  cbv zeta. unfold Handler.examine. intros (got & Hgot & Hk)%bind_ok.
  apply bind_ok in Hk as (hs & Hhs & Hk). apply bind_ok in Hk as (body & Hb & Hk).
  apply bind_ok in Hk as (args & Ha & Hk). apply bind_ok in Hk as (out & Ho & Hk).
  destruct got as [|hs' [|body' got]]; [done|done|]. cbn in Hhs, Hb.
  injection Hhs as ->. injection Hb as ->.
  exists hs, body, got, out. split; [done|]. split.
  { etransitivity; [|exact Ho]. f_equal. f_equal.
    destruct (_ =s? PhaseRequest); [|by injection Ha].
    destruct got; cbn in *; [done|by injection Ha]. }
  injection Hk as <-. destruct (is_empty (Validate.out_Fault out)) eqn:E; cbn [negb].
  - apply is_empty_true in E. by right.
  - apply is_empty_false in E. by left.
Qed.
(** The reply of a decision, where nothing failed, and the error otherwise. *)
Lemma decided_cases h t p ask c body out us :
  let req := Queue.Task_Req t in
  let d := From (phasePolicy p req) (Validate.out_Outcome out) in
  let scored := if Verdict d =s? VerdictScore then ScaleScore (Decision_Score d) (Percent ask)
                else Decision_Score d in
  an_reply (decided h t p ask c body out us) = ErrorReply req CodeGeoUnavailable ∨
  ∃ d' acts, Verdict d' = Verdict d ∧ Decision_Code d' = Decision_Code d ∧
    (decision_ok d → decision_ok d') ∧
    (an_reply (decided h t p ask c body out us) = decision_reply p req d' scored ∨
     an_reply (decided h t p ask c body out us) = set_actions acts (decision_reply p req d' scored)).
Proof.
  cbv zeta. unfold Handler.decided.
  set (d := From _ _). set (scored := if Verdict d =s? VerdictScore then _ else _).
  set (d' := if WouldVerdict d =s? VerdictScore then _ else d).
  destruct (publish _ _ _ _) as [ws [e|]]; [by left|right].
  exists d', (Actions (fired_by t p (effective d' scored))).
  assert (Verdict d' = Verdict d ∧ Decision_Code d' = Decision_Code d ∧
    (decision_ok d → decision_ok d')) as (Hv & Hc & Hok).
  { unfold d'. destruct (String.eqb_spec (WouldVerdict d) VerdictScore) as [E|E]; [|done].
    split; [done|]. split; [done|]. unfold decision_ok. cbn. tauto. }
  split_and!; [done|done|done|]. cbn. destruct (is_nil _); [by left|by right].
Qed.

Lemma decision_reply_rid p req d scored : Reply_RID (decision_reply p req d scored) = RID req.
Proof.
  unfold decision_reply, WithScore. destruct (_ =s? VerdictDeny); cbn;
    destruct (_ =s? VerdictScore); cbn; try destruct (_ || _); cbn; try done;
    by destruct (is_empty _).
Qed.

Lemma decided_rid h t p ask c body out us :
  Reply_RID (an_reply (decided h t p ask c body out us)) = RID (Queue.Task_Req t).
Proof.
  destruct (decided_cases h t p ask c body out us) as [->|(d' & acts & _ & _ & _ & [-> | ->])];
    [done|apply decision_reply_rid|]. cbn. apply decision_reply_rid.
Qed.

Lemma inspect_rid h t us a :
  inspect h t us = Ok a → Reply_RID (an_reply a) = RID (Queue.Task_Req t).
Proof.
  intros [(_ & -> & _)|(p & _ & [(code & -> & _)|(_ & _ & _ & [[_ ->]|(c & _ & Hx)])])]%inspect_cases;
    try done.
  apply examine_cases in Hx as (hs & body & args & out & _ & _ & [(_ & -> & _)|[_ ->]]); [done|].
  apply decided_rid.
Qed.

Lemma shed_rid (h : handler) t budget shed :
  Reply_RID (an_reply (shed_answer error_text Networked geo_Write h t budget shed)) =
  RID (Queue.Task_Req t).
Proof.
  unfold shed_answer, overloadOnShed. destruct (_ || _); [done|].
  destruct (profile h _) as [p|]; [|done]. destruct (_ =s? ModeOff); [done|].
  destruct (publish _ _ _ _) as [ws [e|]]; cbn; by destruct (is_nil _).
Qed.

Lemma shed_reply_ok (h : handler) t budget shed :
  shed ≠ "" → reply_ok (an_reply (shed_answer error_text Networked geo_Write h t budget shed)).
Proof.
  intros Hs. assert (reply_ok (ShedReply (Queue.Task_Req t) shed)) as Hok.
  { right. right. right. cbn. split_and!; eauto. }
  unfold shed_answer, overloadOnShed. destruct (_ || _); [done|].
  destruct (profile h _) as [p|]; [|done]. destruct (_ =s? ModeOff); [done|].
  destruct (publish _ _ _ _) as [ws [e|]]; cbn; by destruct (is_nil _).
Qed.

Lemma evaluate_published h t budget shed us ts o :
  ∃ r, published (evaluate h t budget shed us ts o) =
    (published o ++ (if is_empty (Queue.Task_Reply t) then [] else [(Queue.Task_Reply t, r)]))%list ∧
    Reply_RID r = RID (Queue.Task_Req t).
Proof.
  assert (∀ a, Reply_RID (an_reply a) = RID (Queue.Task_Req t) →
    ∃ r, published (answer_task marshal_event ts t a o) =
      (published o ++ (if is_empty (Queue.Task_Reply t) then [] else [(Queue.Task_Reply t, r)]))%list ∧
      Reply_RID r = RID (Queue.Task_Req t)) as Hanswer.
  { intros a Ha. unfold answer_task.
    destruct (send_published marshal_event ts (Queue.Task_Reply t) (an_reply a)
      (Some (Queue.Task_Req t)) (an_details a) (add_writes (an_writes a) o)) as (r & Hp & Hr & _).
    exists r. by rewrite Hr. }
  unfold Handler.evaluate. destruct (negb (is_empty shed)); [apply Hanswer, shed_rid|].
  destruct (inspect h t us) as [a|e] eqn:E; [by eapply Hanswer, inspect_rid|].
  unfold recoverInto. destruct (is_empty (Queue.Task_Reply t)) eqn:Et.
  { exists (FallbackReply (RID (Queue.Task_Req t)) "" ""). by rewrite app_nil_r. }
  destruct (send_published marshal_event ts (Queue.Task_Reply t)
    (FallbackReply (RID (Queue.Task_Req t)) (cfg_name h) CodeInternalError) None no_details o)
    as (r & Hp & Hr & _).
  exists r. rewrite Et in Hp. by rewrite Hr.
Qed.

(** Whatever happens in an inspection, a panic included, a task with a reply
    subject gets exactly one reply there, for its request; a task without one gets
    none. *)
Theorem evaluate_replies h t budget shed us ts o :
  ∃ r, published (evaluate h t budget shed us ts o) =
    (published o ++ (if is_empty (Queue.Task_Reply t) then [] else [(Queue.Task_Reply t, r)]))%list ∧
    Reply_RID r = RID (Queue.Task_Req t).
Proof. exact (evaluate_published h t budget shed us ts o). Qed.

(** The request id an answer to a message carries. *)
Definition rid_of (unmarshal : string → result Request) (data : string) : string :=
  match Parse unmarshal data with inl req => RID req | inr pe => ParseError_RID pe end.

(** A message the inspector leaves without an answer: a release. *)
Definition released (unmarshal : string → result Request) (h : handler) (data : string) : Prop :=
  ∃ req rel, Parse unmarshal data = inl req ∧ Config.supports (cfg_versions h) (V req) = true ∧
    Request_Release req = Some rel.

Lemma receive_cases unmarshal h ts data reply_to o :
  match receive unmarshal h ts data reply_to o with
  | (o', Some t) => o' = o ∧ t = Queue.MkTask (Queue.Task_Req t) reply_to false 0 0 ∧
      Parse unmarshal data = inl (Queue.Task_Req t) ∧
      V (Queue.Task_Req t) ∈ cfg_versions h ∧ Request_Release (Queue.Task_Req t) = None
  | (o', None) =>
      o' = o ∧ released unmarshal h data ∨
      (∀ req, Parse unmarshal data = inl req → Config.supports (cfg_versions h) (V req) = false) ∧
      ∃ r, published o' = (published o ++ (if is_empty reply_to then [] else [(reply_to, r)]))%list ∧
        Reply_RID r = rid_of unmarshal data ∧ Reply_Verdict r = VerdictError ∧ reply_ok r
  end.
Proof.
  assert (∀ reply req, reply_ok reply → Reply_Verdict reply = VerdictError →
    ∃ r, published (send marshal_event ts reply_to reply req no_details o) =
      (published o ++ (if is_empty reply_to then [] else [(reply_to, r)]))%list ∧
      Reply_RID r = Reply_RID reply ∧ Reply_Verdict r = VerdictError ∧ reply_ok r) as Hsend.
  { intros reply req Hok Hv. destruct (send_published marshal_event ts reply_to reply req no_details o)
      as (r & Hp & _ & Hr). rewrite (Hr (reply_ok_marshal _ Hok)) in Hp. eauto. }
  unfold Handler.receive, released, rid_of. destruct (Parse unmarshal data) as [req|pe] eqn:Ep.
  2:{ right. split; [done|]. apply Hsend; [|done]. by apply reply_ok_fallback. }
  apply Parse_request in Ep as Hp. destruct Hp as [Hu Hwf].
  destruct (Config.supports (cfg_versions h) (V req)) eqn:Es; cbn [negb].
  2:{ right. split; [by intros ? [= <-]|].
      apply (Hsend (set_V Version (ErrorReply req CodeUnsupportedVersion))); [|done].
      by apply (reply_ok_error req). }
  destruct (Request_Release req) as [rel|] eqn:Er; [left; split; [done|]; by exists req, rel|].
  rewrite (proj2 (phase_check_false _) (wf_phase _ Hwf)). cbn.
  apply Config.supports_spec in Es. by split_and!.
Qed.

(** C28. A message is answered at once with an error, or ignored as a release, or
    handed to the pool: never two of these. What is handed over is a well-formed
    request of a version the inspector supports. *)
Theorem receive_spec unmarshal h ts data reply_to o :
  match receive unmarshal h ts data reply_to o with
  | (o', Some t) => o' = o ∧ Queue.Task_Reply t = reply_to ∧
      unmarshal data = Ok (Queue.Task_Req t) ∧ request_wf (Queue.Task_Req t) ∧
      V (Queue.Task_Req t) ∈ cfg_versions h ∧ Request_Release (Queue.Task_Req t) = None
  | (o', None) =>
      o' = o ∧ (∃ req rel, Parse unmarshal data = inl req ∧ Request_Release req = Some rel) ∨
      ∃ r, published o' = (published o ++ (if is_empty reply_to then [] else [(reply_to, r)]))%list ∧
        Reply_Verdict r = VerdictError ∧ reply_ok r
  end.
Proof.
  pose proof (receive_cases unmarshal h ts data reply_to o) as Hc.
  destruct (receive unmarshal h ts data reply_to o) as [o' [t|]].
  - destruct Hc as (-> & Ht & [Hu Hw]%Parse_request & Hv & Hr). split_and!; try done. by rewrite Ht.
  - destruct Hc as [[-> (req & rel & ? & _ & ?)]|(_ & r & ? & _ & ? & ?)]; [left|right]; eauto.
Qed.


(** *** What a served snapshot guarantees *)

Context (lib_errors : ∀ s v e, sch_validate s v = Ok (Schema.Invalid e) →
  Findings.well_formed e = true).

Lemma policy_decision p req outcome :
  Validate p = Ok tt → Mode p ≠ ModeOff → phaseEnabled p (Phase req) = true →
  decision_ok (From (phasePolicy p req) outcome).
Proof.
  intros Hv Hm. unfold phaseEnabled, phasePolicy.
  destruct (validated_decision p (Validate.Direction req) outcome Hv Hm) as (Hr & Hs & Hf).
  destruct (Phase req =s? PhaseResponse); [done|]. by destruct (Phase req =s? PhaseFrame).
Qed.

Lemma scored_range d entries rules :
  decision_ok d → Verdict d = VerdictScore →
  0 ≤ ScaleScore (Decision_Score d) (Percent (EvaluatePrior entries rules)) ≤ 100.
Proof.
  intros [(E & _)|[(_ & Hs & _)|(E & _)]] Hv; [by rewrite E in Hv| |by rewrite E in Hv].
  apply ScaleScore_near; [done|]. apply Percent_range.
Qed.

(** The errors an inspection may answer. *)
Definition inspection_errors : list string :=
  [CodeUnknownProfile; CodeStoreUnavailable; CodeGeoUnavailable].

Definition reply_code (r : Reply) : string :=
  match Reply_Reason r with Some reason => Reason_Code reason | None => "" end.

(** The verdict of an inspection that came to a decision. *)
Definition decided_as (h : handler) (t : Queue.Task) (us : Z) (p : Profile) (a : answer)
    (d : decision) : Prop :=
  ∃ ask c body out, d = From (phasePolicy p (Queue.Task_Req t)) (Validate.out_Outcome out) ∧
    a = decided h t p ask c body out us ∧ Reply_Verdict (an_reply a) = Verdict d.

Lemma decided_reply_ok h t p c body out us :
  let req := Queue.Task_Req t in
  let d := From (phasePolicy p req) (Validate.out_Outcome out) in
  let a := decided h t p (EvaluatePrior (Prior req) (Trigger_Prior (Profile_Trigger p))) c body out us in
  decision_ok d →
  reply_ok (an_reply a) ∧ replies_to req (an_reply a) ∧
  (an_reply a = ErrorReply req CodeGeoUnavailable ∨ Reply_Verdict (an_reply a) = Verdict d).
Proof.
  cbv zeta. intros Hd.
  destruct (decided_cases h t p (EvaluatePrior (Prior (Queue.Task_Req t))
    (Trigger_Prior (Profile_Trigger p))) c body out us) as [->|(d' & acts & Hv & _ & Hok & Hr)].
  { split; [by apply reply_ok_error|]. split; [done|by left]. }
  destruct (decision_reply_ok p (Queue.Task_Req t) d' (if Verdict (From (phasePolicy p (Queue.Task_Req t))
      (Validate.out_Outcome out)) =s? VerdictScore
    then ScaleScore (Decision_Score (From (phasePolicy p (Queue.Task_Req t)) (Validate.out_Outcome out)))
      (Percent (EvaluatePrior (Prior (Queue.Task_Req t)) (Trigger_Prior (Profile_Trigger p))))
    else Decision_Score (From (phasePolicy p (Queue.Task_Req t)) (Validate.out_Outcome out)))
    (Hok Hd)) as (H1 & H2 & H3).
  { rewrite Hv. intros E. rewrite E. by apply scored_range. }
  destruct Hr as [-> | ->].
  - split; [done|]. split; [done|right]. exact (eq_trans H2 Hv).
  - split; [by apply reply_ok_actions|]. split; [done|right]. exact (eq_trans H2 Hv).
Qed.

Lemma inspected_reply `{!Served (current h)} t us a :
  inspect h t us = Ok a →
  reply_ok (an_reply a) ∧ replies_to (Queue.Task_Req t) (an_reply a) ∧
  (Reply_Verdict (an_reply a) = VerdictError → reply_code (an_reply a) ∈ inspection_errors).
Proof.
  intros [(_ & -> & _)|(p & Hp & Hx)]%inspect_cases.
  { split; [by apply reply_ok_error|]. split; [done|]. intros _. by apply elem_of_eval. }
  destruct Hx as [(code & -> & _)|(Hm & Hen & _ & [[Hc _]|(c & _ & Hx)])].
  { split; [by left|]. by split. }
  { destruct (sv_contract _ _ Hp Hm) as (c & E & _). congruence. }
  apply examine_cases in Hx as (hs & body & args & out & _ & _ & [(_ & -> & _)|[_ ->]]).
  { split; [by apply reply_ok_error|]. split; [done|]. intros _. by apply elem_of_eval. }
  pose proof (policy_decision p (Queue.Task_Req t) (Validate.out_Outcome out)
    (sv_valid _ _ Hp) Hm Hen) as Hd.
  destruct (decided_reply_ok h t p c body out us Hd) as (H1 & H2 & H3).
  split; [done|]. split; [done|]. destruct H3 as [->|E]; [intros _; by apply elem_of_eval|].
  intros Herr. rewrite Herr in E. destruct Hd as [(Ev & _)|[(Ev & _)|(Ev & _)]]; by rewrite Ev in E.
Qed.

(** What [evaluate] publishes for a task, under a snapshot the store serves. *)
Lemma evaluate_reply_ok `{!Served (current h)} t budget shed us ts o :
  ∃ r, published (evaluate h t budget shed us ts o) =
    (published o ++ (if is_empty (Queue.Task_Reply t) then [] else [(Queue.Task_Reply t, r)]))%list ∧
    Reply_RID r = RID (Queue.Task_Req t) ∧ reply_ok r.
Proof.
  assert (∀ subject reply req det o, reply_ok reply → Reply_RID reply = RID (Queue.Task_Req t) →
    ∃ r, published (send marshal_event ts subject reply req det o) =
      (published o ++ (if is_empty subject then [] else [(subject, r)]))%list ∧
      Reply_RID r = RID (Queue.Task_Req t) ∧ reply_ok r) as Hsend.
  { intros subject reply req det o' Hok Hrid.
    destruct (send_published marshal_event ts subject reply req det o') as (r & Hp & _ & Hr).
    rewrite (Hr (reply_ok_marshal _ Hok)) in Hp. eauto. }
  unfold Handler.evaluate. destruct (is_empty shed) eqn:Es; cbn [negb].
  2:{ apply (Hsend _ _ _ _ (add_writes _ o)); [|apply shed_rid].
      apply shed_reply_ok. by apply is_empty_false. }
  destruct (inspect h t us) as [a|e] eqn:E.
  { destruct (inspected_reply t us a E) as (Hok & (Hrid & _) & _).
    by apply (Hsend _ _ _ _ (add_writes _ o)). }
  unfold recoverInto. destruct (is_empty (Queue.Task_Reply t)) eqn:Et.
  { exists (FallbackReply (RID (Queue.Task_Req t)) "" CodeInternalError). rewrite app_nil_r.
    split_and!; [done|done|apply reply_ok_fallback; done]. }
  destruct (Hsend (Queue.Task_Reply t) (FallbackReply (RID (Queue.Task_Req t)) (cfg_name h)
    CodeInternalError) None no_details o) as (r & Hp & Hr); [by apply reply_ok_fallback|done|].
  rewrite Et in Hp. eauto.
Qed.

(** C19. Under a snapshot the store serves, the reply of an inspection is one the
    module can act on, for its request: a score is in range, a denial names a
    response. An error has one of three reasons: the internal error of a missing
    contract or of a score out of range does not occur. *)
Theorem inspect_reply `{!Served (current h)} t us a :
  inspect h t us = Ok a →
  reply_ok (an_reply a) ∧ replies_to (Queue.Task_Req t) (an_reply a) ∧
  (Reply_Verdict (an_reply a) = VerdictError → reply_code (an_reply a) ∈ inspection_errors).
Proof. exact (inspected_reply t us a). Qed.
Lemma phasePolicy_mode p req : Phase_Mode (phasePolicy p req) = Mode p.
Proof.
  unfold phasePolicy. destruct (_ =s? PhaseResponse); [done|]. by destruct (_ =s? PhaseFrame).
Qed.

Lemma From_cases ph outcome :
  let d := From ph outcome in
  let rule := Rules ph !! (policy outcome).1 in
  (Verdict d = VerdictDeny → outcome ≠ OutcomeOK ∧ Phase_Mode ph ≠ ModeObserve ∧
     (∃ r, rule = Some r ∧ Rule_Action r = ActionDeny) ∧ Decision_Code d = (policy outcome).2) ∧
  (Phase_Mode ph = ModeObserve → Verdict d = VerdictAllow) ∧
  (Verdict d = VerdictAllow → outcome = OutcomeOK ∨ Phase_Mode ph = ModeObserve ∨
     ∀ r, rule = Some r → Rule_Action r ≠ ActionDeny ∧ Rule_Action r ≠ ActionScore).
Proof.
  cbv zeta. unfold From. destruct (String.eqb_spec outcome OutcomeOK) as [->|Ho].
  { split; [done|]. split; [done|auto]. }
  unfold enforced. destruct (policy outcome) as [key code]. cbn [fst snd].
  destruct (Rules ph !! key) as [r|] eqn:Er; cbn [default].
  2:{ cbv beta iota zeta delta [zero_rule id Rule_Action].
      change ("" =s? ActionDeny) with false. change ("" =s? ActionScore) with false. cbv iota.
      cbn [Verdict allowed]. change (VerdictAllow =s? VerdictAllow) with true.
      rewrite andb_false_r. split; [done|]. split; [done|]. intros _. right. right. done. }
  change (id r) with r.
  destruct (String.eqb_spec (Rule_Action r) ActionDeny) as [Ed|Nd].
  { cbn [Verdict]. change (VerdictDeny =s? VerdictAllow) with false. cbn [negb]. rewrite andb_true_r.
    destruct (String.eqb_spec (Phase_Mode ph) ModeObserve) as [Eo|No]; cbn.
    - split; [done|]. split; [done|auto].
    - split; [intros _; split_and!; eauto|]. by split. }
  destruct (String.eqb_spec (Rule_Action r) ActionScore) as [Es|Ns].
  { cbn [Verdict]. change (VerdictScore =s? VerdictAllow) with false. cbn [negb]. rewrite andb_true_r.
    destruct (String.eqb_spec (Phase_Mode ph) ModeObserve) as [Eo|No]; cbn; [|done].
    split; [done|]. split; [done|auto]. }
  cbn [Verdict allowed]. change (VerdictAllow =s? VerdictAllow) with true.
  rewrite andb_false_r. cbn. split; [done|]. split; [done|]. intros _. right. right.
  by intros ? [= <-].
Qed.

(** An inspection that answers other than allow or error has come to a decision. *)
Lemma inspect_decided h t us a p :
  Served (current h) → profile h (Queue.Task_Req t) = Some p → inspect h t us = Ok a →
  Reply_Verdict (an_reply a) = VerdictAllow ∧
    (Mode p = ModeOff ∨ phaseEnabled p (Phase (Queue.Task_Req t)) = false ∨
     Skip (EvaluatePrior (Prior (Queue.Task_Req t)) (Trigger_Prior (Profile_Trigger p))) = true) ∨
  Reply_Verdict (an_reply a) = VerdictError ∨
  ∃ hs c body args out, Schema.Set_Contract (Snapshot.Compiled (current h)) (Name p) = Some c ∧
    Schema.Contract_kind c = Schema_Kind (Profile_Schema p) ∧
    LoadMany sha256 gcm_open (loader h) (locators (Queue.Task_Req t)) = Ok (hs :: body :: args) ∧
    Run {| Validate.Req := Queue.Task_Req t; Validate.In_Profile := p; Validate.In_Contract := c;
           Validate.In_Body := body;
           Validate.In_Args := if Phase (Queue.Task_Req t) =s? PhaseRequest
                               then List.hd no_body args else no_body;
           Validate.In_Headers := headers unmarshal_headers hs |} = Ok out ∧
    Validate.out_Fault out = "" ∧
    Reply_Verdict (an_reply a) = Verdict (From (phasePolicy p (Queue.Task_Req t)) (Validate.out_Outcome out)).
Proof.
  intros Hs Hp [(E & _)|(q & Hq & Hx)]%inspect_cases; [congruence|].
  assert (q = p) as -> by congruence.
  destruct Hx as [(code & -> & _ & Hw)|(Hm & Hen & _ & [[Hc _]|(c & Hc & Hx)])].
  { left. by split. }
  { destruct (sv_contract _ _ Hp Hm) as (c & E & _). congruence. }
  apply examine_cases in Hx as (hs & body & args & out & Hload & Hrun & [(_ & -> & _)|[Hf ->]]).
  { right. by left. }
  pose proof (policy_decision p (Queue.Task_Req t) (Validate.out_Outcome out)
    (sv_valid _ _ Hp) Hm Hen) as Hd.
  destruct (decided_reply_ok h t p c body out us Hd) as (_ & _ & [->|E]); [right; by left|].
  right. right. destruct (sv_contract _ _ Hp Hm) as (c' & Hc' & Hk).
  exists hs, c, body, args, out. split; [done|]. split; [congruence|]. by split_and!.
Qed.

Lemma inspect_off h t us a p :
  profile h (Queue.Task_Req t) = Some p → Mode p = ModeOff → inspect h t us = Ok a →
  Reply_Verdict (an_reply a) = VerdictAllow.
Proof.
  unfold Handler.inspect. intros -> ->. by intros [= <-].
Qed.

(** C20. A denial has its reason. Only the enforce mode denies, and only when the run
    over the objects loaded for the request, with the contract of its profile, ends
    without a fault with an outcome that is not in order and whose rule in the
    phase's table is deny. In the observe mode an inspection allows, or reports an
    error. *)
Theorem denial_justified `{!Served (current h)} t us a p :
  let req := Queue.Task_Req t in
  profile h req = Some p → inspect h t us = Ok a →
  (Mode p = ModeObserve → Reply_Verdict (an_reply a) ∈ [VerdictAllow; VerdictError]) ∧
  (Reply_Verdict (an_reply a) = VerdictDeny → Mode p = ModeEnforce ∧
     ∃ hs body args c out r,
       LoadMany sha256 gcm_open (loader h) (locators req) = Ok (hs :: body :: args) ∧
       Schema.Set_Contract (Snapshot.Compiled (current h)) (Name p) = Some c ∧
       Run {| Validate.Req := req; Validate.In_Profile := p; Validate.In_Contract := c;
              Validate.In_Body := body;
              Validate.In_Args := if Phase req =s? PhaseRequest then List.hd no_body args else no_body;
              Validate.In_Headers := headers unmarshal_headers hs |} = Ok out ∧
       Validate.out_Fault out = "" ∧ Validate.out_Outcome out ≠ OutcomeOK ∧
       Rules (phasePolicy p req) !! (policy (Validate.out_Outcome out)).1 = Some r ∧
       Rule_Action r = ActionDeny).
Proof.
  cbv zeta. intros Hp Hi. pose proof (sv_valid _ _ Hp) as Hv.
  destruct (inspect_decided _ _ _ _ _ _ Hp Hi) as
    [[Ev _]|[Ev|(hs & c & body & args & out & Hc & _ & Hload & Hrun & Hf & Ev)]]; rewrite Ev.
  - split; [intros _; by apply elem_of_eval|done].
  - split; [intros _; by apply elem_of_eval|done].
  - destruct (From_cases (phasePolicy p (Queue.Task_Req t)) (Validate.out_Outcome out))
      as (Hd & Ho & _). rewrite phasePolicy_mode in Hd, Ho. split.
    + intros E. rewrite (Ho E). by apply elem_of_eval.
    + intros E. destruct (Hd E) as (Hout & Hm & (r & Hr & Hact) & _). split.
      * apply Validate_profile_ok in Hv as ([?|[?|Hoff]] & _); [done|done|].
        rewrite (inspect_off _ _ _ _ _ Hp Hoff Hi) in Ev. by rewrite <- Ev in E.
      * exists hs, body, args, c, out, r. done.
Qed.

(** Of two locators, when one is not in the batch, there is no batch. *)
Lemma lone_batch l h locs lb e :
  locs = [h; Some lb] → batch_member locs lb = false → batch_error l locs ≠ Some e.
Proof.
  unfold batch_error, batch_members. generalize (batch_member locs). intros f -> Hm.
  destruct (store l ≫= GetMany); [|done].
  destruct h as [lh|]; cbn; rewrite Hm; [by destruct (f lh)|done].
Qed.

(** The body is the second of the objects loaded, the headers the first. The headers
    of a response are not loaded otherwise than its body. *)
Lemma locators_body req l hs body args :
  (∀ s, store l = Some s → ConsistentStore s) →
  LoadMany sha256 gcm_open l (locators req) = Ok (hs :: body :: args) →
  (∃ e, body = store_failure e) ∨
  Load sha256 gcm_open l (Store_Body (Request_Store req)) = Ok body ∧
  (Phase req = PhaseResponse → Load sha256 gcm_open l (Store_Headers (Request_Store req)) = Ok hs).
Proof.
  intros Hc. rewrite (LoadMany_with _ _ _ _ Hc). intros Hload.
  assert (load_with sha256 gcm_open l (locators req) (batch_error l (locators req))
            (Store_Body (Request_Store req)) = Ok body ∧
    (Phase req = PhaseResponse → load_with sha256 gcm_open l (locators req)
       (batch_error l (locators req)) (Store_Headers (Request_Store req)) = Ok hs)) as [Hb Hh].
  { revert Hload. generalize (load_with sha256 gcm_open l (locators req) (batch_error l (locators req))).
    unfold locators. cbn. intros g (b0 & Hb0 & Hr)%bind_ok. apply bind_ok in Hr as (rest & Hrest & Hr).
    injection Hr as -> ->. split.
    2:{ intros E. by rewrite E in Hb0. }
    apply bind_ok in Hrest as (b1 & Hb1 & Hr).
    apply bind_ok in Hr as (rest' & _ & Hr). by injection Hr as <- _. }
  destruct (batch_error l (locators req)) as [e|] eqn:Ee; cycle 1.
  { right. split; [by destruct (Store_Body _)|]. intros E. specialize (Hh E). by destruct (Store_Headers _). }
  destruct (Store_Body (Request_Store req)) as [lb|] eqn:Eb; cbn in Hb.
  - destruct (batch_member (locators req) lb) eqn:Em; [left; exists e; congruence|].
    right. split; [done|]. intros E. exfalso. eapply lone_batch; [|exact Em|exact Ee].
    unfold locators. by rewrite Eb, E.
  - right. split; [done|]. intros E. exfalso.
    revert Ee. unfold batch_error, batch_members. generalize (batch_member (locators req)). intros f.
    unfold locators. rewrite Eb, E. change (PhaseResponse =s? PhaseFrame) with false.
    change (PhaseResponse =s? PhaseRequest) with false. cbn.
    destruct (store l ≫= GetMany); [|done]. destruct (Store_Headers _) as [lh|]; cbn; [|done].
    by destruct (f lh).
Qed.

(** The rules of the phase a request is in, and whether that phase looks at bodies, of
    a response with any headers. *)
Definition phase_rules (p : Profile) (req : Request) : list NamedRule :=
  if Phase req =s? PhaseResponse then ResponsePhase_Rules (Profile_Response p)
  else if Phase req =s? PhaseFrame
  then FrameRules_Rules (Dir_Policy (Profile.Direction (Profile_Frame p) (Validate.Direction req)))
  else RequestRules_Rules (Req_Policy (Profile_Request p)).

Definition checks_body (p : Profile) (req : Request) : Prop :=
  if Phase req =s? PhaseResponse then RespCheck_Body (Resp_Checks (Profile_Response p)) = true
  else if Phase req =s? PhaseFrame then
    FrameCheck_Body (Dir_Checks (Profile.Direction (Profile_Frame p) (Validate.Direction req))) = true ∧
    Validate.Opcode req ≠ OpcodeBinary
  else ReqCheck_Body (Req_Checks (Profile_Request p)) = true.

(** The table of a phase has a rule for every outcome of the phase, out of the list
    of the profile. *)
Lemma rules_of_phase p req :
  (∀ o, o ∈ Validate.phase_outcomes (Phase req) →
     ∃ r, Rules (phasePolicy p req) !! (policy o).1 = Some r ∧ ((policy o).1, r) ∈ phase_rules p req).
Proof.
  intros o Ho.
  assert (is_Some (Rules (phasePolicy p req) !! (policy o).1)) as [r Hr].
  { destruct (policy_covered p (Validate.Direction req)) as (H1 & H2 & H3).
    rewrite Forall_forall in H1, H2, H3. revert Ho. unfold Validate.phase_outcomes, phasePolicy.
    destruct (Phase req =s? PhaseResponse); [apply H2|].
    destruct (Phase req =s? PhaseFrame); [apply H3|apply H1]. }
  exists r. split; [done|]. revert Hr. unfold phasePolicy, phase_rules.
  destruct (Phase req =s? PhaseResponse); [apply rulesOf_in|].
  destruct (Phase req =s? PhaseFrame); apply rulesOf_in.
Qed.

Lemma phase_rules_ok p req :
  Validate p = Ok tt → Mode p ≠ ModeOff → phaseEnabled p (Phase req) = true →
  Forall rule_ok (phase_rules p req).
Proof.
  intros (_ & _ & _ & [?|(_ & _ & (H1 & H2 & H3) & _)])%Validate_profile_ok Hm; [done|].
  unfold phaseEnabled, phase_rules. destruct (Phase req =s? PhaseResponse).
  { intros He. by apply H2. }
  destruct (Phase req =s? PhaseFrame); intros He; [|by apply H1].
  unfold Profile.Direction. destruct (H3 He) as [Hc Hs]. destruct (_ =s? _); [apply Hs|apply Hc].
Qed.

(** A phase without a rule to allow lets pass only what is in order. *)
Lemma strict_allow p req inp out :
  Validate p = Ok tt → Mode p = ModeEnforce → phaseEnabled p (Phase req) = true →
  Validate.Req inp = req → Forall (λ r, Rule_Action r.2 ≠ ActionAllow) (phase_rules p req) →
  Run inp = Ok out → Verdict (From (phasePolicy p req) (Validate.out_Outcome out)) = VerdictAllow →
  Validate.out_Outcome out = OutcomeOK.
Proof.
  intros Hv Hm Hen <- Hrules Hrun Hallow.
  destruct (Validate.run_outcome_known _ _ _ _ _ _ lib_errors _ _ Hrun) as [?|Hin]; [done|].
  destruct (From_cases (phasePolicy p (Validate.Req inp)) (Validate.out_Outcome out)) as (_ & _ & Hc).
  destruct (Hc Hallow) as [?|[Ho|Hr]]; [done|by rewrite phasePolicy_mode, Hm in Ho|]. exfalso.
  destruct (rules_of_phase p _ _ Hin) as (r & Er & Hmem). destruct (Hr r Er) as [Nd Ns].
  rewrite Forall_forall in Hrules. pose proof (Hrules _ Hmem) as Na. cbn in Na.
  pose proof (phase_rules_ok p (Validate.Req inp) Hv) as Hall. rewrite Forall_forall in Hall.
  destruct (Hall ltac:(by rewrite Hm) Hen _ Hmem) as [[?|[?|?]] _]; done.
Qed.

Lemma validated_limits p :
  Validate p = Ok tt → Mode p ≠ ModeOff →
  0 < Profile.MaxBody (Profile_Limits p) ∧ 1 ≤ Profile.MaxDepth (Profile_Limits p).
Proof.
  intros (_ & _ & _ & [?|(_ & _ & _ & _ & _ & _ & Hl)])%Validate_profile_ok Hm; [done|].
  unfold limits_ok in Hl. lia.
Qed.

(** C2. What an allow is worth, in each of the three phases. Take a profile in the
    enforce mode under a JSON Schema contract, in whose phase of the request no
    rule allows an outcome that is not in order, and which looks at the body that
    came. When the inspection of a request with a placed, non-empty body answers
    allow, without a prior rule having skipped it, then the body came whole from
    the store with the digest its locator demands, is within the limits of size
    and depth, and decodes to a value accepted by the schema the profile's contract
    picks for the call. *)
Theorem allowed_body_validated `{!Served (current h)} t us a p loc :
  let req := Queue.Task_Req t in
  (∀ s, store (loader h) = Some s → ConsistentStore s) →
  profile h req = Some p → Mode p = ModeEnforce →
  Schema_Kind (Profile_Schema p) = KindJSONSchema →
  phaseEnabled p (Phase req) = true →
  checks_body p req →
  (Phase req = PhaseResponse → ∀ hs,
     Load sha256 gcm_open (loader h) (Store_Headers (Request_Store req)) = Ok hs →
     TypeAllowed (Profile_Response p)
       (Validate.headerValue (headers unmarshal_headers hs) "content-type") = true) →
  Forall (λ r, Rule_Action r.2 ≠ ActionAllow) (phase_rules p req) →
  Skip (EvaluatePrior (Prior req) (Trigger_Prior (Profile_Trigger p))) = false →
  Profile.MaxDepth (Profile_Limits p) ≤ max_nesting_depth →
  Store_Body (Request_Store req) = Some loc → Locator_Placed (Some loc) = true →
  inspect h t us = Ok a → Reply_Verdict (an_reply a) = VerdictAllow →
  ∃ body, Load sha256 gcm_open (loader h) (Some loc) = Ok body ∧
    (Data body ≠ "" →
     Available body = true ∧ Body_Truncated body = false ∧ Locator_Truncated loc = false ∧
     (want_digest loc ≠ "" → hex_digest sha256 (Data body) = want_digest loc) ∧
     slen (Data body) ≤ Profile.MaxBody (Profile_Limits p) ∧
     ∃ inp v sch name, Validate.Req inp = req ∧ Validate.In_Body inp = body ∧
       Schema.Set_Contract (Snapshot.Compiled (current h)) (Name p) = Some (Validate.In_Contract inp) ∧
       Decode (Data body) = Ok v ∧ depth v ≤ Profile.MaxDepth (Profile_Limits p) ∧
       Validate.picked inp v = (Some sch, name) ∧ sch_validate sch v = Ok Schema.Valid).
Proof.
  cbv zeta. intros Hcons Hp Hm Hk Hen Hchk Htype Hrules Hskip Hdepth Hloc Hplaced Hi Hallow.
  destruct (inspect_decided _ _ _ _ _ _ Hp Hi) as
    [[_ [Hoff'|[Hoff|Hsk]]]|[Ev|(hs & c & body & args & out & Hc & Hkc & Hload & Hrun & _ & Ev)]];
    [by rewrite Hm in Hoff'|congruence|congruence|by rewrite Hallow in Ev|].
  rewrite Hallow in Ev. symmetry in Ev. pose proof (sv_valid _ _ Hp) as Hv.
  assert (Validate.out_Outcome out = OutcomeOK) as Hok.
  { refine (strict_allow p (Queue.Task_Req t) _ out Hv Hm Hen _ Hrules Hrun Ev). reflexivity. }
  match type of Hrun with Run ?i = _ => set (inp := i) in * end.
  assert ((Phase (Queue.Task_Req t) = PhaseResponse → Data body ≠ "" → TypeAllowed (Profile_Response p)
      (Validate.headerValue (headers unmarshal_headers hs) "content-type") = true) →
    Validate.gated inp) as Hgated.
  { intros Ht. revert Hchk. unfold Validate.gated, checks_body. cbn.
    destruct (String.eqb_spec (Phase (Queue.Task_Req t)) PhaseResponse) as [E|]; [|done]. intros Hr.
    split; [done|]. by apply Ht. }
  destruct (locators_body _ _ _ _ _ Hcons Hload) as [[e He]|[Hbody Hhs]].
  { exfalso. refine (Validate.run_unavailable _ _ _ _ _ _ inp out _ _ Hrun Hok).
    - apply Hgated. intros _ Hd. exfalso. rewrite He in Hd. unfold store_failure in Hd.
      by destruct (errors_is e _).
    - cbn. rewrite He. unfold store_failure. by destruct (errors_is e _). }
  rewrite Hloc in Hbody. exists body. split; [done|]. intros Hne.
  destruct (validated_limits p Hv) as [Hmax Hdep]; [by rewrite Hm|].
  destruct (λ Hkind Hgate Hb Hd Hn, @Validate.run_validated _ M I K S KeywordPath LocalizedString sha256
      marshal_value sch_validate error_text lib_errors inp out Hkind Hgate Hb Hd Hn Hrun Hok)
    as (Ha & Ht & Hsize & v & sch & name & Hdec & Hdv & Hpick & Hval); cbn in *; try done; try lia.
  - congruence.
  - apply Hgated. intros E _. by apply Htype, Hhs.
  - destruct (loaded_intact _ _ _ _ _ Hbody Hplaced Ha) as (_ & _ & Hdig & Htr).
    split_and!; try done; [congruence|]. exists inp, v, sch, name. split_and!; [..|exact Hpick|done]; done.
Qed.

Lemma shed_cases (h : handler) t budget shed :
  let req := Queue.Task_Req t in
  let a := shed_answer error_text Networked geo_Write h t budget shed in
  replies_to req (an_reply a) ∧ Reply_Verdict (an_reply a) = VerdictError ∧
  Reply_Reason (an_reply a) = Some {| Reason_Code := shed; Reason_Class := ClassOverload |} ∧
  (∀ p, shed = Queue.ReasonQueueLimit → Phase req = PhaseRequest → profile h req = Some p →
     Mode p ≠ ModeOff →
     let fired := FireOverload (Outcomes (RequestPhase p)) (Queue.Fill t) true
                    (Conn_ClientIP (Request_Conn req)) shed in
     Reply_Actions (an_reply a) = Actions fired ∧
     an_writes a = (publish Networked geo_Write (lists h) (Bans fired)).1) ∧
  (shed ≠ Queue.ReasonQueueLimit ∨ Phase req ≠ PhaseRequest ∨ profile h req = None ∨
     (∃ p, profile h req = Some p ∧ Mode p = ModeOff) →
   Reply_Actions (an_reply a) = [] ∧ an_writes a = []).
Proof.
  cbv zeta. unfold shed_answer, overloadOnShed.
  destruct (String.eqb_spec shed Queue.ReasonQueueLimit) as [E|E]; cbn [negb orb].
  2:{ split_and!; try done; intros; congruence. }
  destruct (String.eqb_spec (Phase (Queue.Task_Req t)) PhaseRequest) as [Ep|Ep]; cbn [negb orb].
  2:{ split_and!; try done; intros; congruence. }
  destruct (profile h (Queue.Task_Req t)) as [p|] eqn:Epr.
  2:{ split_and!; try done; intros; congruence. }
  destruct (String.eqb_spec (Mode p) ModeOff) as [Em|Em].
  { split_and!; try done; intros; congruence. }
  assert (shed ≠ Queue.ReasonQueueLimit ∨ Phase (Queue.Task_Req t) ≠ PhaseRequest ∨ Some p = None ∨
    (∃ q, Some p = Some q ∧ Mode q = ModeOff) → False) as Hfires.
  { intros [?|[?|[?|(q & [= <-] & ?)]]]; done. }
  set (fired := FireOverload _ _ _ _ _). destruct (publish _ _ _ _) as [ws f] eqn:Ew.
  assert (∀ q, Some p = Some q → FireOverload (Outcomes (RequestPhase q)) (Queue.Fill t) true
    (Conn_ClientIP (Request_Conn (Queue.Task_Req t))) shed = fired) as Hq by by intros q [= <-].
  destruct f as [e|]; cbn [an_reply an_writes].
  all: split_and!; try (by destruct (is_nil _)); try (by intros ?%Hfires).
  all: intros q _ _ Hp _; rewrite (Hq q Hp), Ew; split; [|done].
  all: by destruct (Actions fired) eqn:Ea; cbn [is_nil]; rewrite ?Ea.
Qed.

(** C29. A shed task is answered with an error of class overload that names why. Its
    profile's overload outcomes fire on the queue limit, in the request phase of a
    profile that is not off, and on nothing else. *)
Theorem shed_spec (h : handler) t budget shed :
  let req := Queue.Task_Req t in
  let a := shed_answer error_text Networked geo_Write h t budget shed in
  replies_to req (an_reply a) ∧ Reply_Verdict (an_reply a) = VerdictError ∧
  Reply_Reason (an_reply a) = Some {| Reason_Code := shed; Reason_Class := ClassOverload |} ∧
  (∀ p, shed = Queue.ReasonQueueLimit → Phase req = PhaseRequest → profile h req = Some p →
     Mode p ≠ ModeOff →
     let fired := FireOverload (Outcomes (RequestPhase p)) (Queue.Fill t) true
                    (Conn_ClientIP (Request_Conn req)) shed in
     Reply_Actions (an_reply a) = Actions fired ∧
     an_writes a = (publish Networked geo_Write (lists h) (Bans fired)).1) ∧
  (shed ≠ Queue.ReasonQueueLimit ∨ Phase req ≠ PhaseRequest ∨ profile h req = None ∨
     (∃ p, profile h req = Some p ∧ Mode p = ModeOff) →
   Reply_Actions (an_reply a) = [] ∧ an_writes a = []).
Proof. exact (shed_cases h t budget shed). Qed.
(** A profile whose request phase is disabled: an inspection fires nothing, but a
    shed of the same request fires the phase's overload outcomes. *)
Lemma disabled_phase_fires h t us a p budget :
  profile h (Queue.Task_Req t) = Some p → Mode p ≠ ModeOff →
  Phase (Queue.Task_Req t) = PhaseRequest → Req_Enabled (Profile_Request p) = false →
  inspect h t us = Ok a →
  Reply_Actions (an_reply a) = [] ∧ an_writes a = [] ∧
  Reply_Actions (an_reply (shed_answer error_text Networked geo_Write h t budget
    Queue.ReasonQueueLimit)) =
  Actions (FireOverload (Outcomes (RequestPhase p)) (Queue.Fill t) true
    (Conn_ClientIP (Request_Conn (Queue.Task_Req t))) Queue.ReasonQueueLimit).
Proof.
  intros Hp Hm Hph Hen Hi.
  destruct (shed_cases h t budget Queue.ReasonQueueLimit) as (_ & _ & _ & Hf & _).
  destruct (Hf p eq_refl Hph Hp Hm) as [-> _].
  revert Hi. unfold Handler.inspect. rewrite Hp. rewrite (proj2 (seqb_neq _ _) Hm).
  assert (phaseEnabled p (Phase (Queue.Task_Req t)) = false) as -> by by rewrite Hph.
  by intros [= <-].
Qed.
End inspections.

(** ** Witnesses *)

(** A profile whose request phase denies whatever is not in order. *)
Definition strict_rules : RequestRules := {|
  Req_Invalid := rule_deny; Req_Unparsable := rule_deny; Req_Truncated := rule_deny;
  Req_UnknownOperation := rule_deny; Req_ContentType := rule_deny; Req_Unavailable := rule_deny
|}.

Definition strict_profile (mode : string) : Profile :=
  let p := with_schema (defaults "shop") mode in {|
  Name := Name p; Mode := Mode p; Description := Description p;
  Profile_Schema := Profile_Schema p; Profile_Trigger := Profile_Trigger p;
  Profile_Request := {|
    Req_Enabled := true; Req_Checks := Req_Checks (Profile_Request p); Req_Policy := strict_rules;
    Req_DenyResponse := "json_invalid"; Req_Outcomes := [] |};
  Profile_Response := Profile_Response p; Profile_Frame := Profile_Frame p; Bindings := Bindings p;
  Profile_Limits := Profile_Limits p; Profile_Audit := Profile_Audit p; Documents := Documents p
|}.

Definition sample_snapshot (mode : string)
    : Snapshot.Snapshot (Schema.ContractSet unit unit string unit) :=
  Snapshot.MkSnapshot 1 "" {["shop" := strict_profile mode]} ["shop"] Snapshot.no_limits
    (Some {| Schema.byProfile := {["shop" := Schema.sample_contract]}; Schema.names := ["shop"] |}).

Lemma sample_profile mode n p :
  Snapshot.Snapshot_Profile (Some (sample_snapshot mode)) n = Some p → p = strict_profile mode.
Proof. cbn. intros [_ <-]%lookup_singleton_Some. done. Qed.

#[export] Instance sample_served : @Served ascii_tables unit unit string unit
  (Some (sample_snapshot ModeEnforce)).
Proof.
  split; intros n p ->%sample_profile; [reflexivity|]. intros _.
  exists Schema.sample_contract. split; reflexivity.
Qed.

Definition sample_handler : @handler unit unit string unit :=
  Handler "json" [2] (Some (sample_snapshot ModeEnforce)) sample_loader false.

(** A request whose body is at a place of the store. *)
Definition sample_task_at (loc : Locator) : Queue.Task :=
  let r := sample_request PhaseRequest in
  Queue.MkTask {|
    V := V r; RID := RID r; Ray := Ray r; Phase := Phase r; Wave := Wave r; Inspector := Inspector r;
    DeadlineMS := DeadlineMS r; AuditSubject := AuditSubject r; Node := Node r;
    Request_Conn := Request_Conn r; Request_HTTP := Request_HTTP r; Vars := Vars r; Needs := Needs r;
    Request_Store := {| Store_Headers := None; Store_Args := None;
                        Store_Body := Some loc |};
    Request_Route := Request_Route r; Request_Score := Request_Score r; Prior := Prior r;
    Request_Response := Request_Response r; RequestStore := RequestStore r;
    Request_Resume := Request_Resume r; Request_Release := Request_Release r; ConnID := ConnID r;
    Seq := Seq r; Request_Stream := Request_Stream r |} "_INBOX.1" false 0 0.

Definition sample_task (key : string) : Queue.Task := sample_task_at (sample_locator key).

Definition sample_inspect_at (loc : Locator) : result answer :=
  @inspect ascii_tables unit unit string unit (λ k, [k]) id id sample_gcm (λ _, Ok "")
    Schema.sample_validate (λ _, "") (λ _, Ok []) (λ _, false) (λ _ _, Ok []) sample_handler
    (sample_task_at loc) 1500.
Definition sample_inspect (key : string) : result answer := sample_inspect_at (sample_locator key).

(** The body is only a prefix. *)
Definition cut_locator : Locator := {|
  Locator_Store := "bodies"; Locator_Driver := "redis"; Locator_Key := "body";
  Locator_Unavailable := ""; Locator_Size := 2; Locator_DeclaredSize := 9;
  Locator_SHA256 := ""; Locator_ProcessedSHA256 := ""; Locator_Transformed := false;
  Locator_Complete := false; Locator_Truncated := true; Locator_Encoding := "";
  Locator_ExpiresAt := 0; Locator_Hint := ""; Locator_Enc := None
|}.

Definition answer_of (r : result answer) : answer :=
  match r with Ok a => a | Err _ => just (FallbackReply "" "" "") no_details end.

Theorem inspect_reply_witness :
  ∃ a, sample_inspect "body" = Ok a ∧ reply_ok (an_reply a) ∧
    replies_to (Queue.Task_Req (sample_task "body")) (an_reply a).
Proof.
  exists (answer_of (sample_inspect "body")).
  assert (sample_inspect "body" = Ok (answer_of (sample_inspect "body"))) as E by (vm_compute; reflexivity).
  split; [exact E|].
  pose proof (@inspect_reply ascii_tables unit unit string unit (λ k, [k]) id id sample_gcm
    (λ _, Ok "") Schema.sample_validate (λ _, "") (λ _, Ok []) (λ _, false) (λ _ _, Ok [])
    sample_handler sample_served _ _ _ E) as (H1 & H2 & _).
  split; [exact H1|exact H2].
Defined.

Theorem denial_justified_witness :
  ∃ a, sample_inspect_at cut_locator = Ok a ∧ Reply_Verdict (an_reply a) = VerdictDeny ∧
    Mode (strict_profile ModeEnforce) = ModeEnforce ∧
    ∃ hs body args, LoadMany id sample_gcm sample_loader [None; Some cut_locator; None] =
      Ok (hs :: body :: args) ∧ Body_Truncated body = true.
Proof.
  exists (answer_of (sample_inspect_at cut_locator)).
  assert (sample_inspect_at cut_locator = Ok (answer_of (sample_inspect_at cut_locator))) as E
    by (vm_compute; reflexivity).
  assert (Reply_Verdict (an_reply (answer_of (sample_inspect_at cut_locator))) = VerdictDeny) as Hv
    by (vm_compute; reflexivity).
  split; [exact E|]. split; [exact Hv|].
  destruct (proj2 (@denial_justified ascii_tables unit unit string unit (λ k, [k]) id id sample_gcm
    (λ _, Ok "") Schema.sample_validate (λ _, "") (λ _, Ok []) (λ _, false) (λ _ _, Ok [])
    sample_handler sample_served (sample_task_at cut_locator) 1500 _ (strict_profile ModeEnforce)
    eq_refl E) Hv) as (Hm & hs & body & args & c & out & r & Hload & _).
  split; [exact Hm|]. exists hs, body, args. split; [exact Hload|].
  assert (LoadMany id sample_gcm sample_loader [None; Some cut_locator; None] =
    Ok [no_body; {| Data := "{}"; Body_Truncated := true; Body_Unavailable := ""; Fault := false;
                    SHA256 := "7b7d" |}; no_body]) as E' by (vm_compute; reflexivity).
  change (LoadMany id sample_gcm sample_loader [None; Some cut_locator; None] = Ok (hs :: body :: args))
    in Hload. rewrite E' in Hload. by injection Hload as _ <- _.
Defined.

Theorem allowed_body_validated_witness :
  ∃ a, sample_inspect "body" = Ok a ∧ Reply_Verdict (an_reply a) = VerdictAllow ∧
  ∃ body, Load id sample_gcm sample_loader (Some (sample_locator "body")) = Ok body ∧
    (Data body ≠ "" → hex_digest id (Data body) = want_digest (sample_locator "body")).
Proof.
  exists (answer_of (sample_inspect "body")).
  assert (sample_inspect "body" = Ok (answer_of (sample_inspect "body"))) as E by (vm_compute; reflexivity).
  assert (Reply_Verdict (an_reply (answer_of (sample_inspect "body"))) = VerdictAllow) as Hv
    by (vm_compute; reflexivity).
  split; [exact E|]. split; [exact Hv|].
  destruct (@allowed_body_validated ascii_tables unit unit string unit (λ k, [k]) id id sample_gcm
    (λ _, Ok "") Schema.sample_validate (λ _, "") (λ _, Ok []) (λ _, false) (λ _ _, Ok [])
    Schema.sample_errors sample_handler sample_served (sample_task "body") 1500
    (answer_of (sample_inspect "body")) (strict_profile ModeEnforce) (sample_locator "body"))
    as (body & Hl & Hb).
  - intros s [= <-]. apply (@redis_consistent _ _ sample_client).
  - reflexivity.
  - reflexivity.
  - reflexivity.
  - reflexivity.
  - reflexivity.
  - intros E'. by vm_compute in E'.
  - repeat constructor; discriminate.
  - reflexivity.
  - vm_compute. discriminate.
  - reflexivity.
  - reflexivity.
  - exact E.
  - exact Hv.
  - exists body. split; [exact Hl|]. intros Hne. apply (Hb Hne). vm_compute. discriminate.
Defined.
