(* ===== verification/Events.v ===== *)
(** * The documents of audit events

    [json.Marshal] of the [Event] of internal/audit/audit.go, with the values the
    handler puts into its map [Engine]: the members in the order of the struct's
    fields, those tagged [omitempty] left out, the map's keys sorted. The text is
    one the writer of [JsonWrite] makes, so a reader finds the event in it. *)
From S2P Require Import Prelude GoString GoFloat Json JsonWrite FloatText Protocol AuditLog Decide Handler.

Definition member := (string * value)%type.

Definition json_int (z : Z) : value := VNumber (Itoa z).
Definition json_float (x : float64) : value := VNumber (FormatFloat x).

(** Members tagged [omitempty]: a string, an integer, a pointer. *)
Definition nonempty_string (key s : string) : list member :=
  if is_empty s then [] else [(key, VString s)].
Definition nonzero_int (key : string) (z : Z) : list member :=
  if z =? 0 then [] else [(key, json_int z)].
Definition present {A} (key : string) (f : A → value) (o : option A) : list member :=
  match o with Some a => [(key, f a)] | None => [] end.

(** A slice that was only ever appended to: nil, and so null, when it is empty. *)
Definition json_slice {A} (f : A → value) (l : list A) : value :=
  match l with [] => VNull | _ => VArray (f <$> l) end.

Definition outcome_value (o : ActionOutcome) : value := VObject (
  [("from", VString (AO_From o)); ("do", VString (AO_Do o)); ("apply", VString (AO_Apply o))] ++
  nonempty_string "code" (AO_Code o) ++ nonzero_int "delta" (AO_Delta o) ++
  nonzero_int "value" (AO_Value o) ++ nonzero_int "took" (Took o) ++
  [("outcome", VString (AO_Outcome o))]).

Definition engine_value (e : engine) : value :=
  match e with
  | EString s => VString s
  | EBool b => VBool b
  | EInt z => json_int z
  | EFloat x => json_float x
  | ENames l => json_slice VString l
  | EActions l => json_slice outcome_value l
  end.

Definition finding_value (f : Finding) : value := VObject (
  [("code", VString (Finding_Code f)); ("severity", VString (Severity f));
   ("target", VString (Target f))] ++
  present "offset" json_int (Offset f) ++ present "length" json_int (Length f) ++
  nonempty_string "rule" (Finding_Rule f) ++ present "confidence" json_float (Confidence f) ++
  nonempty_string "evidence" (Evidence f)).

Definition frame_value (f : FrameRef) : value := VObject
  [("direction", VString (FrameRef_Direction f)); ("seq", json_int (FrameRef_Seq f))].

(** A map, by its sorted keys; left out when it is empty. *)
Definition engine_members (m : gmap string engine) : list member :=
  match by_key (prod_map id engine_value <$> map_to_list m) with
  | [] => []
  | ms => [("engine", VObject ms)]
  end.

Definition event_value (ev : Event engine) : value := VObject (
  [("v", json_int (Event_V ev)); ("kind", VString (Event_Kind ev)); ("ts", VString (TS ev));
   ("ray", VString (Event_Ray ev)); ("node", VString (Event_Node ev));
   ("phase", VString (Event_Phase ev)); ("inspector", VString (Event_Inspector ev));
   ("profile", VString (Event_Profile ev)); ("verdict", VString (Event_Verdict ev))] ++
  present "score" json_int (Event_Score ev) ++
  [("engine_ms", json_float (Event_EngineMS ev));
   ("findings", VArray (finding_value <$> Event_Findings ev))] ++
  engine_members (Event_Engine ev) ++ present "frame" frame_value (Event_Frame ev)).

Definition marshal_event (ev : Event engine) : result string := Ok (of_bytes (print (event_value ev))).

(** ** The writer can write it *)

(** A value whose numbers are numbers, of at most [n] levels. *)
Definition writes_at (n : Z) (v : value) : Prop := writable v = true ∧ depth v ≤ n.

Definition members_at (n : Z) (ms : list member) : Prop := Forall (λ m, writes_at n m.2) ms.

Lemma writes_object n ms :
  0 ≤ n → members_at n ms → writes_at (1 + n) (VObject ms).
Proof.
  intros Hn H. split.
  - cbn. apply forallb_forall. intros [k v] Hin%list_elem_of_In.
    unfold members_at in H. rewrite Forall_forall in H. by destruct (H _ Hin).
  - cbn. assert (foldr (λ '(_, v) m, Z.max (depth v) m) 0 ms ≤ n); [|lia].
    induction H as [|[k v] ms [_ Hv] _ IH]; cbn in *; lia.
Qed.

Lemma writes_array {A} n (f : A → value) l :
  0 ≤ n → (∀ a, writes_at n (f a)) → writes_at (1 + n) (VArray (f <$> l)).
Proof.
  intros Hn H. split.
  - cbn. apply forallb_forall. intros v Hin%list_elem_of_In.
    apply list_elem_of_fmap in Hin as (a & -> & _). by destruct (H a).
  - cbn. assert (foldr (λ v m, Z.max (depth v) m) 0 (f <$> l) ≤ n); [|lia].
    induction l as [|a l IH]; cbn in *; [done|]. destruct (H a). lia.
Qed.

Lemma writes_slice {A} n (f : A → value) l :
  0 ≤ n → (∀ a, writes_at n (f a)) → writes_at (1 + n) (json_slice f l).
Proof.
  intros Hn H. destruct l as [|a l]; [split; [done|cbn; lia]|]. by apply (writes_array n f (a :: l)).
Qed.

Lemma writes_more n m v : writes_at n v → n ≤ m → writes_at m v.
Proof. intros [H1 H2] H. split; [done|lia]. Qed.

Lemma writes_string n s : 0 ≤ n → writes_at n (VString s).
Proof. by split. Qed.
Lemma writes_bool n b : 0 ≤ n → writes_at n (VBool b).
Proof. by split. Qed.
Lemma writes_int n z : 0 ≤ n → writes_at n (json_int z).
Proof. split; [apply number_literal_Itoa|done]. Qed.
Lemma writes_float n x : 0 ≤ n → writes_at n (json_float x).
Proof. split; [apply FormatFloat_literal|done]. Qed.

Lemma members_cons n k v ms : writes_at n v → members_at n ms → members_at n ((k, v) :: ms).
Proof. by constructor. Qed.
Lemma members_nil n : members_at n [].
Proof. constructor. Qed.
Lemma members_app n l k : members_at n l → members_at n k → members_at n (l ++ k).
Proof. intros. by apply Forall_app. Qed.
Lemma members_string n key s : 0 ≤ n → members_at n (nonempty_string key s).
Proof.
  intros. unfold nonempty_string. destruct (is_empty s); [constructor|].
  by apply members_cons, members_nil; apply writes_string.
Qed.
Lemma members_int n key z : 0 ≤ n → members_at n (nonzero_int key z).
Proof.
  intros. unfold nonzero_int. destruct (z =? 0); [constructor|].
  by apply members_cons, members_nil; apply writes_int.
Qed.
Lemma members_present {A} n key (f : A → value) o :
  (∀ a, writes_at n (f a)) → members_at n (present key f o).
Proof. intros H. destruct o; [by apply members_cons, members_nil|constructor]. Qed.

#[export] Hint Resolve writes_string writes_bool writes_int writes_float members_cons members_nil
  members_app members_string members_int members_present : go.
#[export] Hint Extern 0 (0 ≤ _)%Z => lia : go.

Lemma by_key_in k v ms : (k, v) ∈ by_key ms → ∃ k', (k', v) ∈ ms.
Proof.
  unfold by_key. rewrite list_elem_of_omap. intros (k' & _ & Hk).
  destruct (obj_get ms k') as [w|] eqn:E; [|done]. injection Hk as -> ->.
  clear - E. induction ms as [|[k1 v1] ms IH]; [done|]. cbn in E.
  destruct (obj_get ms k) as [w|]; [injection E as ->|].
  - destruct (IH eq_refl) as [k' H]. exists k'. by right.
  - destruct (k1 =s? k); [|done]. injection E as ->. exists k1. by left.
Qed.

Lemma outcome_writes o : writes_at 1 (outcome_value o).
Proof. apply (writes_object 0); [done|]. unfold outcome_value. eauto 20 with go. Qed.

Lemma engine_writes e : writes_at 2 (engine_value e).
Proof.
  destruct e; cbn [engine_value]; auto with go.
  - apply (writes_slice 1); [done|]. auto with go.
  - apply (writes_slice 1); [done|]. apply outcome_writes.
Qed.

Lemma finding_writes f : writes_at 1 (finding_value f).
Proof. apply (writes_object 0); [done|]. eauto 20 with go. Qed.

Lemma frame_writes f : writes_at 1 (frame_value f).
Proof. apply (writes_object 0); [done|]. eauto 20 with go. Qed.

Lemma engine_members_writes m : members_at 3 (engine_members m).
Proof.
  unfold engine_members. destruct (by_key _) as [|kv ms] eqn:E; [constructor|].
  apply members_cons, members_nil. apply (writes_object 2); [done|]. rewrite <- E.
  apply Forall_forall. intros [k v] Hin. apply by_key_in in Hin as (k' & Hin).
  apply list_elem_of_fmap in Hin as ([k0 e] & [= _ ->] & _). apply engine_writes.
Qed.

(** Every event is written, and what was written reads back as its value. *)
Lemma event_writes ev : writes_at 4 (event_value ev).
Proof.
  apply (writes_object 3); [done|].
  assert (∀ f, writes_at 3 (frame_value f)) by (intros; eapply writes_more; [apply frame_writes|done]).
  assert (writes_at 3 (VArray (finding_value <$> Event_Findings ev))).
  { eapply writes_more; [apply (writes_array 1); [done|apply finding_writes]|done]. }
  pose proof (engine_members_writes (Event_Engine ev)). eauto 30 with go.
Qed.

Lemma event_wrote ev subj b : marshal_event ev = Ok b → wrote (event_value ev) (Item subj b).
Proof.
  intros [= <-]. destruct (event_writes ev) as [Hw Hd]. split; [done|]. split; [done|].
  unfold max_nesting_depth. lia.
Qed.
