(* ===== verification/Text.v ===== *)
(** * What the readers of the replies get

    Every reply the handler publishes can be sent as JSON: its integers have their
    width, because those of the request had it when it was read and those of the
    profiles have it. What a reader gets is the reply with its strings cleaned of
    bytes that are no UTF-8, which only the names in the profiles and in the
    configuration can have: the request id was cleaned when the request was read, and
    the verdicts and the codes are constants. *)
From S2P Require Import Prelude GoString Json JsonWrite Wire AuditLog Body Protocol Messages.
From S2P Require Import Profile Decide Handler.
From S2P Require Findings Schema Validate Queue Snapshot.

(** ** Strings *)

Lemma utf8_ascii s : Forall ascii_char (bytes s) → utf8 s = true.
Proof.
  intros Hs. apply seqb_eq. unfold clean_string, encode_runes, runes. rewrite runes_of_ascii by done.
  rewrite <- (of_bytes_bytes s) at 2. f_equal. induction Hs as [|c l Hc Hl IH]; [done|].
  cbn. unfold ascii_char in Hc. pose proof (code_nonneg c). rewrite encode_rune_ascii by lia.
  rewrite byte_code. cbn. f_equal. exact IH.
Qed.

Lemma hex_char_ascii c : hex_char c = true → ascii_char c.
Proof.
  unfold hex_char, ascii_char. rewrite !orb_true_iff. intros [[H|H]|H]; apply between_le in H; lia.
Qed.

Lemma span_hex_chars l h r : span_hex l = (h, r) → Forall ascii_char h.
Proof.
  revert h r. induction l as [|c l IH]; intros h r; cbn; [by intros [= <- <-]|].
  destruct (hex_char c) eqn:E; [|by intros [= <- <-]].
  destruct (span_hex l) as [h' r']. intros [= <- <-]. constructor; [by apply hex_char_ascii|eauto].
Qed.

Lemma match_rid_chars l hex : match_rid l = Some hex → Forall ascii_char hex.
Proof.
  unfold match_rid. repeat case_match; try done. intros [= <-]. by eapply span_hex_chars.
Qed.

(** The request id salvaged from a payload that is no JSON is hexadecimal. *)
Lemma sniffed_text payload : utf8 (sniffRID payload) = true.
Proof.
  unfold sniffRID. induction (bytes payload) as [|c l IH]; [done|].
  cbn [find_rid]. destruct (match_rid (c :: l)) as [hex|] eqn:E; [|done].
  apply utf8_ascii. rewrite bytes_of_bytes. by eapply match_rid_chars.
Qed.

(** ** Requests *)

(** What of a request its reply repeats. *)
Record request_text (req : Request) : Prop := {
  qt_v : int64 (V req); qt_rid : utf8 (RID req) = true
}.

Lemma sendable_request_text req : sendable request_t req = true → request_text req.
Proof.
  unfold request_t, request_fields. wire. rewrite !andb_true_iff, bool_decide_eq_true.
  intros (Hv & Hrid & _). by split.
Qed.

(** The request id of a refusal is the request's, or was salvaged. *)
Lemma rejected_text `{Unicode} payload pe :
  Parse UnmarshalRequest payload = inr pe → utf8 (ParseError_RID pe) = true.
Proof.
  unfold Parse. destruct (UnmarshalRequest payload) as [req|e] eqn:E.
  - apply request_sendable, sendable_request_text in E as [_ Hr]. unfold reject.
    repeat case_match; intros [= <-]; done.
  - intros [= <-]. apply sniffed_text.
Qed.

(** ** Replies *)

Record reply_text (r : Reply) : Prop := {
  rt_v : int64 (Reply_V r);
  rt_rid : utf8 (Reply_RID r) = true;
  rt_verdict : utf8 (Reply_Verdict r) = true;
  rt_score : match Reply_Score r with Some s => int64 s | None => True end;
  rt_reason : match Reply_Reason r with Some c => utf8 (Reason_Code c) = true | None => True end;
  rt_others : Reply_Redirect r = None ∧ Reply_Headers r = None ∧ Reply_Continue r = None;
  rt_actions : Forall (λ a, sized action_t a = true) (Reply_Actions r)
}.

Lemma reply_text_sized r : reply_text r → sized reply_t r = true.
Proof.
  intros [Hv _ _ Hs _ (Er & Eh & Ec) Ha].
  unfold reply_t, reply_fields. size. rewrite Er, Eh, Ec.
  rewrite bool_decide_eq_true_2 by done. cbn [andb]. rewrite !andb_true_r.
  repeat (apply andb_true_iff; split).
  - destruct (Reply_Score r); [by apply bool_decide_eq_true|done].
  - destruct (Reply_Reason r) as [c|]; [|done]. unfold reason_t, reason_fields. by size.
  - destruct (Reply_Response r) as [c|]; [|done]. unfold responseref_t, responseref_fields. by size.
  - apply forallb_forall. intros a Hin. rewrite Forall_forall in Ha. by apply Ha, list_elem_of_In.
Qed.

(** What the module goes by comes back as it was. *)
Record same_answer (r r' : Reply) : Prop := {
  sa_v : Reply_V r' = Reply_V r;
  sa_rid : Reply_RID r' = Reply_RID r;
  sa_verdict : Reply_Verdict r' = Reply_Verdict r;
  sa_score : Reply_Score r' = Reply_Score r;
  sa_code : Reason_Code <$> Reply_Reason r' = Reason_Code <$> Reply_Reason r
}.

Lemma cleaned_same r : reply_text r → same_answer r (cleaned reply_t r).
Proof.
  intros [_ Hr Hv _ Hre _ _].
  destruct r as [v rid insp verdict score reason response redirect headers cont actions].
  cbn [Reply_V Reply_RID Reply_Verdict Reply_Score Reply_Reason] in *.
  split; cbn.
  - done.
  - by apply seqb_eq.
  - by apply seqb_eq.
  - by destruct score.
  - destruct reason as [[code class]|]; [|done]. cbn in *. f_equal. by apply seqb_eq.
Qed.

Lemma new_reply_text req verdict :
  request_text req → utf8 verdict = true → reply_text (NewReply req verdict).
Proof. intros [] Hv. by split; cbn. Qed.

Lemma set_reason_text r code class :
  reply_text r → utf8 code = true →
  reply_text (set_reason (Some {| Reason_Code := code; Reason_Class := class |}) r).
Proof. intros [] ?. by split; cbn. Qed.

Lemma error_reply_text req code :
  request_text req → utf8 code = true → reply_text (ErrorReply req code).
Proof. intros Hq Hc. apply set_reason_text; [by apply new_reply_text|done]. Qed.

Lemma fallback_text rid inspector code :
  utf8 rid = true → utf8 code = true →
  reply_text (FallbackReply rid inspector code).
Proof. intros. by split; cbn. Qed.

Lemma set_actions_text acts r :
  Forall (λ a, sized action_t a = true) acts → reply_text r → reply_text (set_actions acts r).
Proof. intros ? []. by split; cbn. Qed.

(** ** Profiles *)

(** What of an outcome its ask repeats. *)
Record outcome_sized (o : Outcome) : Prop := {
  ot_delta : int64 (default 0 (Delta o));
  ot_value : int64 (default 0 (Outcome_Value o));
  ot_ttl : int64 (TTL o);
  ot_objects : forallb (sized (ptr_t objectspec_t))
                 [Outcome_Headers o; Outcome_Args o; Outcome_Body o] = true
}.

(** The integers of a profile that a reply can repeat have their width. *)
Record profile_sized (p : Profile) : Prop := {
  pt_request : Forall outcome_sized (Req_Outcomes (Profile_Request p));
  pt_response : Forall outcome_sized (Resp_Outcomes (Profile_Response p));
  pt_c2s : Forall outcome_sized (Dir_Outcomes (C2S (Profile_Frame p)));
  pt_s2c : Forall outcome_sized (Dir_Outcomes (S2C (Profile_Frame p)))
}.

Lemma defaults_sized name : profile_sized (defaults name).
Proof. split; constructor. Qed.

Section asks.
Context `{Unicode}.

Lemma ask_sized o code : outcome_sized o → sized action_t (ask o code) = true.
Proof.
  intros [Hd Hv Ht Ho]. cbn [forallb] in Ho. repeat (apply andb_true_iff in Ho as [? Ho]).
  unfold action_t, action_fields. rewrite sized_struct. repeat rewrite sized_field.
  rewrite sized_no_field, andb_true_r.
  cbn [ask Action_To Action_Do Action_Apply Action_Phase Action_Code Action_Delta Action_Value
    Action_Counter Action_Marker Action_Group Action_Set Action_TTL Action_When Action_Headers
    Action_Args Action_Body].
  repeat (apply andb_true_iff; split); try apply sized_string; try done; try (by apply bool_decide_eq_true).
  - rewrite sized_ptr. destruct (_ && _); [by apply bool_decide_eq_true|done].
  - rewrite sized_slice. apply forallb_forall. intros. apply sized_string.
Qed.

Definition acts_text (acts : list Action) : Prop := Forall (λ a, sized action_t a = true) acts.

Lemma fired_text outs (f : Outcome → bool) addr code : ∀ out,
  Forall outcome_sized outs → acts_text (Actions out) →
  acts_text (Actions (foldl (λ out o, fire_one (f o) addr code out o) out outs)).
Proof.
  induction outs as [|o outs IH]; intros out Ho Ha; [done|].
  apply Forall_cons in Ho as [Ho Hos]. cbn. apply IH; [done|].
  unfold fire_one. destruct (negb (f o)); [done|]. destruct (Asks o); [|by destruct (is_empty addr)].
  apply Forall_app. split; [done|]. apply Forall_singleton. by apply ask_sized.
Qed.

Definition policy_text (ph : PhasePolicy) : Prop := Forall outcome_sized (Outcomes ph).

Lemma Fire_text ph d addr : policy_text ph → acts_text (Actions (Fire ph d addr)).
Proof.
  intros Hp. unfold Fire. destruct (is_nil _); [constructor|].
  destruct (effective_of d) as [[verdict score] code].
  apply (fired_text _ (λ o, Matches o verdict score)); [done|constructor].
Qed.

Lemma FireOverload_text outs fill shed addr code :
  Forall outcome_sized outs → acts_text (Actions (FireOverload outs fill shed addr code)).
Proof. intros Ho. unfold FireOverload. apply fired_text; [done|constructor]. Qed.

(** *** Decisions *)

Lemma policy_code_text outcome : utf8 (policy outcome).2 = true.
Proof. unfold policy. repeat (case_match; [by vm_compute|]). by vm_compute. Qed.

(** The strings of a decision are constants, its denial's response apart. *)
Lemma From_text ph outcome :
  let d := From ph outcome in utf8 (Verdict d) = true ∧ utf8 (Decision_Code d) = true.
Proof.
  cbv zeta. unfold From. destruct (_ =s? OutcomeOK); [by vm_compute|].
  assert (utf8 (Verdict (enforced ph outcome)) = true ∧
    utf8 (Decision_Code (enforced ph outcome)) = true) as (Hv & Hc).
  { unfold enforced. pose proof (policy_code_text outcome) as Hc. destruct (policy outcome) as [key code].
    repeat case_match; by split_and!. }
  destruct (_ && _); [|done]. by split_and!.
Qed.
End asks.

(** ** The handler *)

Section handler.
Context `{Unicode} {M I K S : Type}.
Context (KeywordPath : K → list string) (LocalizedString : K → string).
Context (sha256 : string → string) (gcm_open : string → string → string → option string).
Context (marshal_value : value → result string).
Context (sch_validate : S → value → result (@Schema.validation K)) (error_text : error → string).
Context (unmarshal_headers : string → result (list Header)).
Context (Networked : string → bool) (geo_Write : string → string → result (list string)).
Context (marshal_event : Event engine → result string).

Abbreviation handler := (@handler M I K S).
Abbreviation inspect := (inspect KeywordPath LocalizedString sha256 gcm_open marshal_value sch_validate
  error_text unmarshal_headers Networked geo_Write (M := M) (I := I)).
Abbreviation decided := (decided error_text Networked geo_Write (M := M) (I := I) (K := K) (S := S)).
Abbreviation evaluate := (evaluate KeywordPath LocalizedString sha256 gcm_open marshal_value
  sch_validate error_text unmarshal_headers Networked geo_Write marshal_event (M := M) (I := I)).
Abbreviation receive := (receive marshal_event (M := M) (I := I) (K := K) (S := S)).
Abbreviation shed_answer := (shed_answer error_text Networked geo_Write (M := M) (I := I) (K := K) (S := S)).

(** A handler whose profiles have integers of their width. *)
Definition handler_sized (h : handler) : Prop := ∀ req p, profile h req = Some p → profile_sized p.

Lemma phase_policy_text p req : profile_sized p → policy_text (phasePolicy p req).
Proof.
  intros [Hr Hs Hc H2]. unfold phasePolicy, policy_text.
  destruct (_ =s? PhaseResponse); [done|]. destruct (_ =s? PhaseFrame); [|done].
  cbn. unfold Profile.Direction. by destruct (_ =s? DirectionS2C).
Qed.

Lemma decision_reply_text p req d scored :
  request_text req → utf8 (Verdict d) = true → utf8 (Decision_Code d) = true →
  reply_text (decision_reply p req d scored).
Proof.
  intros Hq Hv Hc. unfold decision_reply.
  set (base := if is_empty (Decision_Code d) then _ else _).
  assert (reply_text base) as Hb.
  { unfold base. destruct (is_empty _); [by apply new_reply_text|].
    by apply set_reason_text; [apply new_reply_text|]. }
  set (scored_reply := if Verdict d =s? VerdictScore then _ else _).
  assert (reply_text scored_reply) as Hs.
  { unfold scored_reply. destruct (_ =s? VerdictScore); [|done]. unfold WithScore.
    destruct (Z.ltb_spec scored 0), (Z.ltb_spec 100 scored); cbn [orb];
      try (apply error_reply_text; [done|by vm_compute]).
    destruct Hb. split; cbn; try done. unfold int64, int64_min, int64_max. lia. }
  destruct (_ =s? VerdictDeny); [|done]. destruct Hs. by split; cbn.
Qed.

Lemma fired_by_text t p d : profile_sized p → acts_text (Actions (fired_by t p d)).
Proof.
  intros Hp. unfold fired_by.
  assert (acts_text (Actions (Fire (phasePolicy p (Queue.Task_Req t)) d
    (Conn_ClientIP (Request_Conn (Queue.Task_Req t)))))) as Hf.
  { by apply Fire_text, phase_policy_text. }
  destruct (_ =s? PhaseRequest); [|done]. cbn. apply Forall_app. split; [done|].
  by apply FireOverload_text, pt_request.
Qed.

Lemma decided_text h t p ask c body out us :
  request_text (Queue.Task_Req t) → profile_sized p →
  reply_text (an_reply (decided h t p ask c body out us)).
Proof.
  intros Hq Hp. unfold Handler.decided.
  destruct (From_text (phasePolicy p (Queue.Task_Req t)) (Validate.out_Outcome out)) as (Hv & Hc).
  set (d := From _ _) in *. set (scored := if Verdict d =s? VerdictScore then _ else _).
  set (d' := if WouldVerdict d =s? VerdictScore then _ else d).
  assert (utf8 (Verdict d') = true ∧ utf8 (Decision_Code d') = true) as (Hv' & Hc').
  { unfold d'. destruct (WouldVerdict d =s? VerdictScore); by split_and!. }
  destruct (publish _ _ _ _) as [ws [e|]]; cbn [an_reply].
  { apply error_reply_text; [done|by vm_compute]. }
  pose proof (decision_reply_text p (Queue.Task_Req t) d' scored Hq Hv' Hc') as Hr.
  destruct (is_nil _); [done|]. apply set_actions_text; [by apply fired_by_text|done].
Qed.

Lemma plain_text req verdict code :
  request_text req → utf8 verdict = true → utf8 code = true → reply_text (plain req verdict code).
Proof. intros. apply set_reason_text; [by apply new_reply_text|done]. Qed.

Lemma inspected_text h t us a :
  handler_sized h → request_text (Queue.Task_Req t) → inspect h t us = Ok a → reply_text (an_reply a).
Proof.
  intros Hps Hq. unfold Handler.inspect.
  destruct (profile h _) as [p|] eqn:Ep.
  2:{ intros [= <-]. apply error_reply_text; [done|by vm_compute]. }
  pose proof (Hps _ _ Ep) as Hp.
  destruct (_ =s? ModeOff); [intros [= <-]; by apply plain_text|].
  destruct (negb _); [intros [= <-]; by apply plain_text|].
  destruct (Skip _); [intros [= <-]; by apply plain_text|].
  destruct (Schema.Set_Contract _ _) as [c|].
  2:{ intros [= <-]. apply error_reply_text; [done|by vm_compute]. }
  intros (hs & body & args & out & _ & _ & [(_ & -> & _)|[_ ->]])%examine_cases.
  - apply error_reply_text; [done|by vm_compute].
  - by apply decided_text.
Qed.

Lemma shed_text h t budget shed :
  handler_sized h → request_text (Queue.Task_Req t) → utf8 shed = true →
  reply_text (an_reply (shed_answer h t budget shed)).
Proof.
  intros Hps Hq Hs. unfold Handler.shed_answer, overloadOnShed.
  assert (reply_text (ShedReply (Queue.Task_Req t) shed)) as Hr.
  { apply set_reason_text; [by apply error_reply_text|done]. }
  destruct (_ || _); [done|]. destruct (profile h _) as [p|] eqn:Ep; [|done].
  pose proof (Hps _ _ Ep) as Hp. destruct (_ =s? ModeOff); [done|].
  destruct (publish _ _ _ _) as [ws [e|]]; cbn [an_reply];
    (destruct (is_nil _); [done|]; apply set_actions_text; [|done];
     by apply FireOverload_text, pt_request).
Qed.

Definition sent_text (o : outbox) : Prop := Forall (λ sr, reply_text sr.2) (published o).

(** What is sent in place of a reply that cannot be is as good. *)
Lemma send_text ts subject reply req det o :
  reply_text reply → sent_text o → sent_text (send marshal_event ts subject reply req det o).
Proof.
  intros Hr Ho. unfold send. destruct (is_empty subject); [done|].
  assert (∀ r, Protocol.Marshal reply = Ok r → r = reply) as Hm.
  { intros r. unfold Protocol.Marshal. destruct (Reply_Score reply); [destruct (_ || _)|]; congruence. }
  destruct (Protocol.Marshal reply) as [r|e]; cbn.
  - rewrite (Hm r eq_refl). apply Forall_app. split; [done|by apply Forall_singleton].
  - apply Forall_app. split; [done|]. apply Forall_singleton. destruct Hr.
    by apply fallback_text.
Qed.

Lemma evaluate_text h t budget shed us ts o :
  handler_sized h → request_text (Queue.Task_Req t) → utf8 shed = true → sent_text o →
  sent_text (evaluate h t budget shed us ts o).
Proof.
  intros Hh Hq Hs Ho. unfold Handler.evaluate, answer_task.
  destruct (negb (is_empty shed)); [apply send_text; [by apply shed_text|done]|].
  destruct (inspect h t us) as [a|e] eqn:E.
  - apply send_text; [by eapply inspected_text|done].
  - unfold recoverInto. destruct (is_empty _); [done|]. apply send_text; [|done].
    apply fallback_text; [apply Hq|by vm_compute].
Qed.

(** A message leaves only valid text behind, in the outbox and in the task. *)
Lemma receive_text h ts data reply_to o o' task :
  handler_sized h → sent_text o → receive UnmarshalRequest h ts data reply_to o = (o', task) →
  sent_text o' ∧ match task with Some t => request_text (Queue.Task_Req t) | None => True end.
Proof.
  intros Hh Ho. unfold Handler.receive. destruct (Parse UnmarshalRequest data) as [req|pe] eqn:Ep.
  - apply Parse_request in Ep as [Hu _]. apply request_sendable, sendable_request_text in Hu as Hq.
    destruct (negb _).
    { intros [= <- <-]. split; [|done]. apply send_text; [|done].
      pose proof (error_reply_text req CodeUnsupportedVersion Hq ltac:(by vm_compute)) as [].
      by split. }
    destruct (Request_Release req); [by intros [= <- <-]|].
    destruct (_ && _); intros [= <- <-]; [|by split].
    split; [|done]. apply send_text; [|done]. apply error_reply_text; [done|by vm_compute].
  - intros [= <- <-]. split; [|done]. apply send_text; [|done].
    apply fallback_text; [by eapply rejected_text|by vm_compute].
Qed.
End handler.
