(* ===== verification/Service.v ===== *)
(** * What the inspector promises to those who ask it

    The abstract server of the protocol: messages come in, each is due an answer
    or none, and answers go out, one for each that is due, under the request id
    of its message and such that the module can act on it. Nothing is said of the
    order, and nothing of what an answer says. [Main] proves that the running
    process refines it. *)
From S2P Require Import Prelude GoString Protocol Handler.
From S2P Require Config.

(** A message is its data and its reply subject; an answer that is due, the
    subject and the request id. *)
Section service.
Context (unmarshal : string → result Request) (versions : list Z).

(** Releases, and messages without a reply subject, are due no answer. *)
Definition due (m : string * string) : option (string * string) :=
  if is_empty m.2 then None
  else
    match Parse unmarshal m.1 with
    | inl req =>
        if Config.supports versions (V req) && is_some (Request_Release req) then None
        else Some (m.2, RID req)
    | inr pe => Some (m.2, ParseError_RID pe)
    end.

Record server := Server {
  sv_messages : list (string * string);
  sv_open : list (string * string);
  sv_sent : list (string * Reply)
}.

Inductive server_step : server → server → Prop :=
| sv_message ms open sent m :
    server_step (Server ms open sent) (Server (ms ++ [m]) (open ++ option_list (due m)) sent)
| sv_answer ms open1 subject rid open2 sent r :
    Reply_RID r = rid → reply_ok r →
    server_step (Server ms (open1 ++ (subject, rid) :: open2) sent)
      (Server ms (open1 ++ open2) (sent ++ [(subject, r)])).

Definition answered (sent : list (string * Reply)) : list (string * string) :=
  (λ sr, (sr.1, Reply_RID sr.2)) <$> sent.

(** The promise: nothing is answered that was not asked, nothing twice, and what is
    neither answered nor open was due no answer. *)
Record promise (a : server) : Prop := {
  pm_answers : answered (sv_sent a) ++ sv_open a ≡ₚ omap due (sv_messages a);
  pm_replies : Forall (λ sr, reply_ok sr.2) (sv_sent a)
}.

Lemma step_promise a a' : server_step a a' → promise a → promise a'.
Proof.
  intros [ms open sent m|ms o1 subject rid o2 sent r Hrid Hok] [Ha Hr]; split; cbn in *; try done.
  - rewrite app_assoc, Ha, omap_app. cbn. by destruct (due m).
  - rewrite <- Ha. unfold answered. rewrite fmap_app. cbn. rewrite Hrid, <- app_assoc. cbn.
    apply Permutation_app_head, Permutation_middle.
  - apply Forall_app. split; [done|by constructor].
Qed.

Lemma reachable_promise a : rtc server_step (Server [] [] []) a → promise a.
Proof.
  assert (promise (Server [] [] [])) as H0 by (split; [done|constructor]).
  intros Hr. revert H0. induction Hr; eauto using step_promise.
Qed.
End service.

(** Where a submission wants its answer, when it wants one, and for which request. *)
Definition wanted_by (i : Request * string) : option (string * string) :=
  if is_empty i.2 then None else Some (i.2, RID i.1).
