(* ===== verification/Main.v ===== *)
(** * cmd/inspector/main.go: start-up and the running process

    [run_start] is [run] up to the point where it serves: it builds the store, the
    loader, the pool and the handler from the configuration. From then on the
    process moves by the steps of [process_step]: the subscription delivers
    messages to [receive], the pool runs by its own steps and calls [evaluate], the
    watchers reload the store, all interleaved. What connects to other processes is a parameter that succeeds or fails. *)
From S2P Require Import Prelude GoString GoFloat FileTree Json JsonWrite AuditLog Body.
From S2P Require Import Protocol Wire Messages Profile Decide Handler Events Text Service.
From S2P Require Schema Validate Queue Snapshot Config Desired.

(** ** The libraries, the bus and the machine *)

Class Libraries (M I K S N D L : Type) := {
  KeywordPath : K → list string; LocalizedString : K → string;
  sha256 : string → string; gcm_open : string → string → string → option string;
  sch_validate : S → value → result (@Schema.validation K);
  error_text : error → string;
  Networked : string → bool; geo_Write : string → string → result (list string);
  openapi_model : string → result (option (@Schema.OpenAPI M I K));
  yaml_unmarshal : string → result N; json_marshal : N → result string;
  read_json : string → result D; compile : (string → result D) → string → D → result S;
  yaml_decode : Profile → string → result Profile;
  url_parse : string → result (string * string);
  Abs : string → result string;
  parse_level : string → result L; procs : Z;
  (** The client of a Redis URL: GET, MGET and PING. *)
  redis_client : string → result ((string → result string) *
    (list string → result (list redis_value)) * result unit);
  nats_connect : string → result unit; netinfo_New : string → Z → Z → result unit;
  QueueSubscribe : string → string → result unit; SetPendingLimits : Z → Z → result unit
}.

(** [json.Marshal] of a value of the document. *)
Definition marshal_value (v : value) : result string := Ok (Marshal_any v).

Section process.
Context `{Unicode} {M I K S N D L : Type} `{!Libraries M I K S N D L}.

Abbreviation Config := (Config.Config (L := L)).
Abbreviation ContractSet := (Schema.ContractSet M I K S).
Abbreviation Store := (Snapshot.Store ContractSet).
Abbreviation handler := (@handler M I K S).
Abbreviation receive := (receive marshal_event (M := M) (I := I) (K := K) (S := S)).
Abbreviation evaluate := (evaluate KeywordPath LocalizedString sha256 gcm_open marshal_value
  sch_validate error_text UnmarshalHeaders Networked geo_Write marshal_event (M := M) (I := I)).

(** [schema.NewCompiler]. *)
Definition compiler : option (list Profile → result ContractSet) :=
  Some (Schema.Compile openapi_model yaml_unmarshal json_marshal read_json compile).

Abbreviation LoadProfiles := (Snapshot.LoadProfiles yaml_decode sha256 compiler).
Abbreviation Bootstrap := (Desired.Bootstrap yaml_decode sha256 compiler).
Abbreviation store_step := (Snapshot.store_step yaml_decode sha256 compiler).

(** An absolute path, cleaned, as its components. *)
Definition path_of (s : string) : path := join [] s.

Definition NewRedisStore (url : string) : result (BlobStore * result unit) :=
  client ← redis_client url;
  let '(get, mget, ping) := client in Ok (RedisStore get mget, ping).

Definition bodyLoader (cfg : Config) : result Loader :=
  if is_empty (Config.Config_RedisURL cfg) then Ok {| store := None; keys := None |}
  else
    sp ← NewRedisStore (Config.Config_RedisURL cfg);
    let '(s, Ping) := sp in
    Ping;; Ok {| store := Some s; keys := None |}.

(** *** The process *)

(** [pr_messages] are the messages delivered so far: data and reply subject. *)
Record process := Process {
  pr_cfg : Config; pr_loader : Loader; pr_store : Snapshot.world (C := ContractSet);
  pr_pool : Queue.system; pr_out : outbox; pr_messages : list (string * string)
}.

(** The handler and what it finds in the store when it looks. *)
Definition handler_of (cfg : Config) (l : Loader) (s : Store) : handler :=
  Handler (Config.Config_Name cfg) (Config.Versions cfg) (Snapshot.cur s) l true.

(** [fs0], [fs0'] and [fs1] are the file system when the profiles are read, when
    their fingerprint is taken and when the applied generation is restored. *)
Definition run_start (m : ConfFile.machine) (fs0 fs0' fs1 : FS) (now : Z) : result process :=
  cfg ← Config.Load url_parse Abs parse_level procs m;
  store ← LoadProfiles fs0 fs0' (path_of (Config.ProfilesDir cfg));
  let '(store, _) := Bootstrap fs1
    (if is_empty (Config.DataDir cfg) then None else Some (path_of (Config.DataDir cfg))) store in
  loader ← bodyLoader cfg;
  nats_connect (Join (Config.Servers cfg) ",");;
  (if is_empty (Config.GeoAddr cfg) then Ok tt
   else wrapf "geo resolver: %w"
          (netinfo_New (Config.GeoAddr cfg) (Config.GeoTimeout cfg) (Config.GeoNegMax cfg)));;
  QueueSubscribe (Config.Subject cfg) (Config.Queue cfg);;
  SetPendingLimits (wrap64 (Config.QueueDepth cfg + Config.Workers cfg + 2)) (8 * 1024 * 1024);;
  Ok (Process cfg loader (Snapshot.World store [])
        (Queue.start (Z.to_nat (Config.Workers cfg))
           (Queue.New (Config.QueueDepth cfg) (Config.ReserveMS cfg) (Config.MinBudgetMS cfg)
              (Config.QueueFull cfg)) now)
        (Outbox (Some (NewSink true)) [] [] []) []).

(** [Submit] begins. *)
Definition arrive (t : Queue.Task) (s : Queue.system) : Queue.system :=
  let t := Queue.set_enqueued (Queue.now s) t in
  Queue.System (Queue.pool s) (Queue.now s) (Queue.workers s) (Queue.exited s) (Queue.stop s)
    (Queue.submitters s ++ [Queue.Sub t Queue.Checking]) (Queue.sleeping s) (Queue.busy s)
    (Queue.sweeping s)
    (Queue.handled s) (Queue.arrived s ++ [t]) (Queue.accepted s) (Queue.started s).

Inductive process_step : process → process → Prop :=
(** The watchers of the directory and of the desired state. *)
| on_store cfg l st pl o ms st' :
    store_step st st' → process_step (Process cfg l st pl o ms) (Process cfg l st' pl o ms)
(** A message is answered or ignored. *)
| on_message cfg l st pl o ms ts data reply_to o' :
    receive UnmarshalRequest (handler_of cfg l (Snapshot.store st)) ts data reply_to o = (o', None) →
    process_step (Process cfg l st pl o ms) (Process cfg l st pl o' (ms ++ [(data, reply_to)]))
(** A message becomes a task. *)
| on_task cfg l st pl o ms ts data reply_to o' t :
    receive UnmarshalRequest (handler_of cfg l (Snapshot.store st)) ts data reply_to o = (o', Some t) →
    process_step (Process cfg l st pl o ms)
      (Process cfg l st (arrive t pl) o' (ms ++ [(data, reply_to)]))
(** The pool moves without a call of the handler. *)
| on_pool cfg l st pl o ms pl' :
    Queue.pool_step pl pl' → Queue.handled pl' = Queue.handled pl →
    Queue.arrived pl' = Queue.arrived pl →
    process_step (Process cfg l st pl o ms) (Process cfg l st pl' o ms)
(** The pool calls the handler. *)
| on_call cfg l st pl o ms pl' c us ts :
    Queue.pool_step pl pl' → Queue.handled pl' = Queue.handled pl ++ [c] →
    process_step (Process cfg l st pl o ms)
      (Process cfg l st pl' (evaluate (handler_of cfg l (Snapshot.store st)) (Queue.call_task c)
         (Queue.call_budget c) (Queue.call_shed c) us ts o) ms).

(** ** The process refines the service *)

(** Where a task wants its answer. *)
Definition wanted (t : Queue.Task) : option (string * string) := wanted_by (Queue.identity t).

Lemma wanted_identities (l : list Queue.Task) :
  omap wanted l = omap wanted_by (Queue.identity <$> l).
Proof. induction l as [|t l IH]; [done|]. cbn. unfold wanted at 1. by rewrite IH. Qed.

Lemma wanted_perm (l k : list Queue.Task) :
  Queue.identity <$> l ≡ₚ Queue.identity <$> k → omap wanted l ≡ₚ omap wanted k.
Proof. rewrite !wanted_identities. by intros ->. Qed.

Abbreviation due cfg := (due UnmarshalRequest (Config.Versions cfg)).
Abbreviation server_step cfg := (server_step UnmarshalRequest (Config.Versions cfg)).

(** What the components guarantee each other, in every reachable process. *)
Record process_ok (p : process) : Prop := {
  po_store : Snapshot.sound_world yaml_decode compiler (pr_store p);
  po_pool : Queue.sound (pr_pool p);
  po_workers : (0 < Queue.workers (pr_pool p))%nat
}.

(** The answers still open are those of the tasks the handler has not been called
    for. *)
Record refines (p : process) (a : server) : Prop := {
  rf_messages : sv_messages a = pr_messages p;
  rf_open : sv_open a ≡ₚ omap wanted (Queue.pending (pr_pool p));
  rf_sent : sv_sent a = published (pr_out p)
}.

Lemma served_store w : Snapshot.sound_world yaml_decode compiler w → Served (Snapshot.cur (Snapshot.store w)).
Proof. intros [(snap & -> & Hok) _]. by eapply sound_served. Qed.

Lemma arrive_step t s : Queue.pool_step s (arrive t s).
Proof. destruct s. apply Queue.on_env, Queue.step_arrive. Qed.

(** The pool in the process moves by the steps of the pool. *)
Lemma process_pool (p p' : process) : process_step p p' → rtc Queue.pool_step (pr_pool p) (pr_pool p').
Proof. destruct 1; cbn; try apply rtc_refl; apply rtc_once; [apply arrive_step|done..]. Qed.

Lemma step_cfg (p p' : process) : process_step p p' → pr_cfg p' = pr_cfg p.
Proof. by destruct 1. Qed.

Lemma step_ok p p' : process_step p p' → process_ok p → process_ok p'.
Proof.
  intros Hs [Hst Hpl Hw].
  destruct Hs as [cfg l st pl o ms st' Hs|cfg l st pl o ms ts data reply_to o' Hm
    |cfg l st pl o ms ts data reply_to o' t Hm|cfg l st pl o ms pl' Hp Eh Ea
    |cfg l st pl o ms pl' c us ts Hp Eh]; cbn in *; split; cbn; try done.
  - by eapply Snapshot.step_sound.
  - eapply Queue.sound_step, Hpl. apply arrive_step.
  - by eapply Queue.sound_step.
  - by rewrite (Queue.step_workers _ _ Hp).
  - by eapply Queue.sound_step.
  - by rewrite (Queue.step_workers _ _ Hp).
Qed.

Lemma steps_ok p p' : rtc process_step p p' → process_ok p → process_ok p'.
Proof. induction 1; eauto using step_ok. Qed.

(** A message that becomes no task: it is due nothing, or is answered at once. *)
Lemma message_served cfg l st ts data reply_to o o' open ms :
  receive UnmarshalRequest (handler_of cfg l st) ts data reply_to o = (o', None) →
  rtc (server_step cfg) (Server ms open (published o))
    (Server (ms ++ [(data, reply_to)]) open (published o')).
Proof.
  intros Hm. pose proof (receive_cases (I := I) marshal_event UnmarshalRequest (handler_of cfg l st) ts
    data reply_to o) as Hc. rewrite Hm in Hc. cbn in Hc.
  assert (due cfg (data, reply_to) = None ∧ published o' = published o ∨
    ∃ r, due cfg (data, reply_to) = Some (reply_to, Reply_RID r) ∧ reply_ok r ∧
      published o' = (published o ++ [(reply_to, r)])%list) as [[Hd ->]|(r & Hd & Hr & ->)].
  { unfold Service.due, rid_of in *. cbn.
    destruct Hc as [[-> (req & rel & Hp & Hv & Hr)]|(Hn & r & Ho & Hrid & _ & Hok)].
    - left. cbn in Hv. rewrite Hp, Hv, Hr. by destruct (is_empty reply_to).
    - rewrite Ho. destruct (is_empty reply_to); [left; by rewrite app_nil_r|right].
      exists r. split; [|done]. destruct (Parse _ data) as [req|]; [|by rewrite Hrid].
      rewrite (Hn req eq_refl). by rewrite Hrid. }
  - eapply rtc_once. pose proof (sv_message UnmarshalRequest (Config.Versions cfg) ms open (published o)
      (data, reply_to)) as Hstep. by rewrite Hd, app_nil_r in Hstep.
  - eapply rtc_l; [apply (sv_message _ _ _ _ _ (data, reply_to))|]. rewrite Hd. cbn.
    eapply rtc_l; [by apply (sv_answer _ _ _ open reply_to _ [])|]. by rewrite app_nil_r.
Qed.

(** A message that becomes a task is due what the task wants. *)
Lemma task_due cfg l st ts data reply_to o o' t :
  receive UnmarshalRequest (handler_of cfg l st) ts data reply_to o = (o', Some t) →
  o' = o ∧ due cfg (data, reply_to) = wanted t.
Proof.
  intros Hm. pose proof (receive_cases (I := I) marshal_event UnmarshalRequest (handler_of cfg l st) ts
    data reply_to o) as Hc. rewrite Hm in Hc. destruct Hc as (-> & Ht & Hp & _ & Hr).
  split; [done|]. unfold Service.due, wanted, wanted_by. cbn. rewrite Hp, Hr, andb_false_r.
  by rewrite Ht.
Qed.

(** A call of the handler answers the open question of its task. *)
Lemma call_served cfg l st c us ts o open rest ms :
  Served (Snapshot.cur st) → open ≡ₚ (option_list (wanted (Queue.call_task c)) ++ rest)%list →
  ∃ open', open' ≡ₚ rest ∧
    rtc (server_step cfg) (Server ms open (published o))
      (Server ms open' (published (evaluate (handler_of cfg l st) (Queue.call_task c)
         (Queue.call_budget c) (Queue.call_shed c) us ts o))).
Proof.
  intros Hsv Ho.
  destruct (evaluate_reply_ok (h := handler_of cfg l st) KeywordPath LocalizedString sha256 gcm_open
    marshal_value sch_validate error_text UnmarshalHeaders Networked geo_Write marshal_event
    (Queue.call_task c) (Queue.call_budget c) (Queue.call_shed c) us ts o) as (r & -> & Hrid & Hok).
  unfold wanted, wanted_by in Ho. cbn in Ho.
  destruct (is_empty (Queue.Task_Reply (Queue.call_task c))); cbn in Ho.
  { exists open. rewrite app_nil_r. split; [done|apply rtc_refl]. }
  destruct (Permutation_vs_cons_inv Ho) as (o1 & o2 & ->). exists (o1 ++ o2)%list. split.
  - symmetry in Ho. by apply Permutation_cons_app_inv in Ho.
  - apply rtc_once. by apply sv_answer.
Qed.

Lemma step_refines p p' a :
  process_ok p → process_step p p' → refines p a →
  ∃ a', rtc (server_step (pr_cfg p)) a a' ∧ refines p' a' ∧ pr_cfg p' = pr_cfg p.
Proof.
  intros Hok Hs Hr. pose proof (step_ok _ _ Hs Hok) as [_ Hpl' _]. destruct Hok as [Hst Hpl _].
  destruct a as [ms0 open sent]. destruct Hr as [Em Eo Es]. revert Hpl Hpl' Em Eo Es.
  destruct Hs as [cfg l st pl o ms st' Hs|cfg l st pl o ms ts data reply_to o' Hm
    |cfg l st pl o ms ts data reply_to o' t Hm|cfg l st pl o ms pl' Hp Eh Ea
    |cfg l st pl o ms pl' c us ts Hp Eh]; cbn in *; intros Hpl Hpl' -> Eo ->.
  - eexists. split; [apply rtc_refl|by split].
  - eexists. split; [by eapply message_served|by split].
  - apply task_due in Hm as [-> Hd]. eexists. split; [apply rtc_once, sv_message|].
    split; [|done]. split; cbn; try done. rewrite Hd, Eo.
    pose proof (Queue.pending_moves _ _ [Queue.set_enqueued (Queue.now pl) t] [] Hpl Hpl' eq_refl
      (eq_sym (app_nil_r _))) as Hmv.
    rewrite app_nil_r in Hmv. apply wanted_perm in Hmv. rewrite <- Hmv, omap_app. cbn.
    change (wanted (Queue.set_enqueued _ t)) with (wanted t). by destruct (wanted t).
  - eexists. split; [apply rtc_refl|]. split; [|done]. split; cbn; try done. rewrite Eo.
    apply wanted_perm. pose proof (Queue.pending_moves _ _ [] [] Hpl Hpl') as Hmv.
    rewrite !app_nil_r in Hmv. by apply Hmv.
  - destruct (Queue.step_kinds _ _ Hp) as [[_ E]|[(t & _ & E)|(c' & Ea & _)]].
    1, 2: by apply (f_equal length) in E; rewrite Eh, length_app in E; cbn in E; lia.
    pose proof (Queue.pending_moves _ _ [] [c] Hpl Hpl') as Hmv. rewrite !app_nil_r in Hmv.
    specialize (Hmv Ea Eh). apply wanted_perm in Hmv. rewrite omap_app in Hmv.
    destruct (call_served cfg l (Snapshot.store st) c us ts o open
      (omap wanted (Queue.pending pl')) ms (served_store _ Hst)) as (open' & Ho & Hrun).
    { rewrite Eo, Hmv. cbn. destruct (wanted (Queue.call_task c)); cbn.
      - symmetry. apply Permutation_cons_append.
      - by rewrite app_nil_r. }
    eexists. split; [exact Hrun|by split].
Qed.

Lemma steps_refine p p' a :
  rtc process_step p p' → process_ok p → refines p a →
  ∃ a', rtc (server_step (pr_cfg p)) a a' ∧ refines p' a' ∧ pr_cfg p' = pr_cfg p.
Proof.
  intros Hs. revert a. induction Hs as [p|p p1 p' Hs _ IH]; intros a Hok Hr.
  { exists a. split; [apply rtc_refl|done]. }
  destruct (step_refines _ _ _ Hok Hs Hr) as (a1 & H1 & Hr1 & E1).
  destruct (IH a1 (step_ok _ _ Hs Hok) Hr1) as (a' & H2 & Hr' & E2). rewrite E1 in H2, E2.
  exists a'. split; [by etrans|done].
Qed.

Lemma started_ok m fs0 fs0' fs1 now p :
  run_start m fs0 fs0' fs1 now = Ok p → process_ok p ∧ refines p (Server [] [] []).
Proof.
  unfold run_start. intros (cfg & Hcfg & Hr)%bind_ok. apply bind_ok in Hr as (s & Hs & Hr).
  destruct (Bootstrap _ _ s) as [s' restored] eqn:Eb.
  apply bind_ok in Hr as (l & _ & Hr). apply seq_ok in Hr as [_ Hr]. apply seq_ok in Hr as [_ Hr].
  apply seq_ok in Hr as [_ Hr]. apply seq_ok in Hr as [_ Hr].
  injection Hr as <-. split; [|by split].
  apply Config.loaded_ok in Hcfg as Hok. pose proof (Config.co_workers _ Hok).
  split; cbn; [| |lia].
  - pose proof (Desired.Bootstrap_steps yaml_decode sha256 compiler fs1
      (if is_empty (Config.DataDir cfg) then None else Some (path_of (Config.DataDir cfg))) s []) as Hb.
    rewrite Eb in Hb. eapply Snapshot.steps_sound, Snapshot.loaded_sound, Hs. exact Hb.
  - apply Queue.sound_start.
Qed.

Lemma started_fresh m fs0 fs0' fs1 now p :
  run_start m fs0 fs0' fs1 now = Ok p →
  published (pr_out p) = [] ∧ Queue.arrived (pr_pool p) = [].
Proof.
  unfold run_start. intros (cfg & _ & Hr)%bind_ok. apply bind_ok in Hr as (s & _ & Hr).
  destruct (Bootstrap _ _ s) as [s' restored].
  apply bind_ok in Hr as (l & _ & Hr). do 4 (apply seq_ok in Hr as [_ Hr]). by injection Hr as <-.
Qed.

(** When the pool is idle, every message has got what it is due. *)
Lemma idle_answers p a :
  rtc (server_step (pr_cfg p)) (Server [] [] []) a → refines p a → Queue.idle (pr_pool p) →
  answered (published (pr_out p)) ≡ₚ omap (due (pr_cfg p)) (pr_messages p).
Proof.
  intros [Ha _]%reachable_promise [Em Eo Es] Hi. rewrite Es, Em in Ha. rewrite <- Ha.
  rewrite (Queue.idle_pending _ Hi) in Eo. cbn in Eo. apply Permutation_nil_r in Eo as ->.
  by rewrite app_nil_r.
Qed.

(** The pool may run on in the process while no message comes. *)
Lemma pool_runs_on p pl :
  rtc Queue.pool_step (pr_pool p) pl → Queue.arrived pl = Queue.arrived (pr_pool p) →
  ∃ p', rtc process_step p p' ∧ pr_pool p' = pl ∧ pr_messages p' = pr_messages p ∧
    pr_cfg p' = pr_cfg p.
Proof.
  intros Hr. remember (pr_pool p) as pl0 eqn:E. revert p E.
  induction Hr as [pl|pl0 pl1 pl Hs Hr IH]; intros p E Ha; [by exists p|].
  destruct p as [cfg l st pl' o ms]. cbn in E. subst pl'.
  assert (Queue.arrived pl1 = Queue.arrived pl0) as Ha1 by by eapply Queue.no_arrival.
  assert (∃ o', process_step (Process cfg l st pl0 o ms) (Process cfg l st pl1 o' ms)) as (o' & Hp).
  { destruct (Queue.step_kinds _ _ Hs) as [[_ Hh]|[(t & Ht & _)|(c & _ & Hc)]].
    - eexists. by apply on_pool.
    - apply (f_equal length) in Ht. rewrite Ha1, length_app in Ht. cbn in Ht. lia.
    - eexists. by apply (on_call _ _ _ _ _ _ _ c 0 ""). }
  destruct (IH (Process cfg l st pl1 o' ms) eq_refl) as (p' & Hp' & E1 & E2 & E3); [congruence|].
  exists p'. split; [by eapply rtc_l|done].
Qed.

(** C1. The running process refines the abstract server: whatever it does from a
    start-up that succeeds, whatever messages come, whatever the watchers load
    meanwhile and however the pool's goroutines interleave, is a run of the server
    with the same messages and the same replies, in which the answers still open
    are those of the tasks the handler has not been called for. *)
Theorem process_refines m fs0 fs0' fs1 now p0 p :
  run_start m fs0 fs0' fs1 now = Ok p0 → rtc process_step p0 p →
  ∃ a, rtc (server_step (pr_cfg p)) (Server [] [] []) a ∧
    sv_messages a = pr_messages p ∧ sv_sent a = published (pr_out p) ∧
    sv_open a ≡ₚ omap wanted (Queue.pending (pr_pool p)).
Proof.
  intros [Hok H0]%started_ok Hr. destruct (steps_refine _ _ _ Hr Hok H0) as (a & Ha & [] & E).
  rewrite <- E in Ha. by exists a.
Qed.

(** C3. In every reachable process a sound snapshot is in force, every reply sent is
    one the module can act on, and once the pool is idle the replies are, up to
    order, exactly those the messages are due: one for each message with a reply
    subject, under its request id, and none for a release. *)
Theorem messages_answered m fs0 fs0' fs1 now p0 p :
  run_start m fs0 fs0' fs1 now = Ok p0 → rtc process_step p0 p →
  Served (Snapshot.cur (Snapshot.store (pr_store p))) ∧
  Forall (λ sr, reply_ok sr.2) (published (pr_out p)) ∧
  (Queue.idle (pr_pool p) →
   answered (published (pr_out p)) ≡ₚ omap (due (pr_cfg p)) (pr_messages p)).
Proof.
  intros [Hok H0]%started_ok Hr. split; [apply served_store, (steps_ok _ _ Hr Hok)|].
  destruct (steps_refine _ _ _ Hr Hok H0) as (a & Ha & Hp & E). rewrite <- E in Ha.
  split; [|by eapply idle_answers]. rewrite <- (rf_sent _ _ Hp). apply (reachable_promise _ _ _ Ha).
Qed.

(** The process can always answer everything: from any reachable state, its
    pool closed or not, it can go on, without further messages, to one where every
    message delivered so far has its answer. *)
Theorem process_drains m fs0 fs0' fs1 now p0 p :
  run_start m fs0 fs0' fs1 now = Ok p0 → rtc process_step p0 p →
  ∃ p', rtc process_step p p' ∧ pr_messages p' = pr_messages p ∧
    answered (published (pr_out p')) ≡ₚ omap (due (pr_cfg p)) (pr_messages p).
Proof.
  intros [Hok H0]%started_ok Hr. pose proof (steps_ok _ _ Hr Hok) as Hp.
  destruct (Queue.sound_drains _ (po_pool _ Hp) (po_workers _ Hp))
    as (pl & (Hrun & _ & _ & Ha)%Queue.work_run & [Hidle _ _ _] & _).
  destruct (pool_runs_on p pl Hrun Ha) as (p' & Hp' & <- & Hm & Hcfg).
  exists p'. split; [done|]. split; [done|]. rewrite <- Hcfg, <- Hm.
  destruct (steps_refine _ _ _ (transitivity Hr Hp') Hok H0) as (a & Hs & Hf & E).
  rewrite <- E in Hs. by eapply idle_answers.
Qed.
(** The task of a call was submitted. *)
Lemma call_submitted pl pl' c :
  Queue.pool_step pl pl' → Queue.handled pl' = (Queue.handled pl ++ [c])%list → Queue.sound pl' →
  Queue.arrived pl' = Queue.arrived pl ∧
  ∃ t, t ∈ Queue.arrived pl ∧ Queue.identity (Queue.call_task c) = Queue.identity t.
Proof.
  intros Hp Eh Hs. assert (Queue.arrived pl' = Queue.arrived pl) as Ea.
  { destruct (Queue.step_kinds _ _ Hp) as [[Ea _]|[(t & _ & E)|(c' & Ea & _)]]; [done| |done].
    apply (f_equal length) in E. rewrite Eh, length_app in E. cbn in E. lia. }
  split; [done|]. pose proof (Queue.so_all _ Hs) as Hall. rewrite Ea in Hall.
  assert (Queue.identity (Queue.call_task c) ∈ Queue.identity <$> Queue.arrived pl) as Hin.
  { rewrite <- Hall, Queue.everywhere_pending, fmap_app, elem_of_app, Eh, fmap_app. right.
    apply list_elem_of_fmap_2, elem_of_app. right. by apply list_elem_of_singleton. }
  apply list_elem_of_fmap in Hin as (t & E & Hin). by exists t.
Qed.

(** *** What is read of the replies *)

Section text.
(** The integers that the YAML decoder stores in a profile are Go's [int]s. *)
Context (Hyaml : ∀ p raw q, yaml_decode p raw = Ok q → profile_sized p → profile_sized q).

Lemma parsed_sized name raw p : ParseProfile yaml_decode name raw = Ok p → profile_sized p.
Proof.
  intros (q & Hq%wrapf_ok & Hp)%bind_ok. injection Hp as <-.
  apply Hyaml in Hq as []; [by split|apply defaults_sized].
Qed.

Lemma sound_handler_sized w cfg l :
  Snapshot.sound_world yaml_decode compiler w → handler_sized (handler_of cfg l (Snapshot.store w)).
Proof.
  intros [(snap & Hc & Hs) _] req p Hp. unfold profile, handler_of in Hp.
  cbn in Hp. rewrite Hc in Hp. apply (Snapshot.sn_loaded _ _ _ Hs) in Hp.
  destruct (Snapshot.pl_parsed _ _ _ Hp) as (raw & q & Hq%parsed_sized & ->).
  destruct Hq. by split.
Qed.

Record process_text (p : process) : Prop := {
  px_sent : sent_text (pr_out p);
  px_tasks : Forall (λ t, request_text (Queue.Task_Req t)) (Queue.arrived (pr_pool p))
}.

(** The reason to shed a task is a constant. *)
Lemma call_text pl pl' c :
  Queue.pool_step pl pl' → Queue.handled pl' = (Queue.handled pl ++ [c])%list →
  Queue.sound pl' → Forall (λ t, request_text (Queue.Task_Req t)) (Queue.arrived pl) →
  request_text (Queue.Task_Req (Queue.call_task c)) ∧ utf8 (Queue.call_shed c) = true ∧
  Queue.arrived pl' = Queue.arrived pl.
Proof.
  intros Hp Eh Hs Ht. destruct (call_submitted _ _ _ Hp Eh Hs) as (Ea & t & Hin & [= -> _]).
  rewrite Forall_forall in Ht. split; [by apply Ht|]. split; [|done].
  assert (c ∈ Queue.handled pl') as Hc by (rewrite Eh, elem_of_app, list_elem_of_singleton; by right).
  pose proof (Queue.so_calls _ Hs) as Hcs. rewrite Forall_forall in Hcs.
  destruct (Hcs c Hc) as [[-> _]|[->|[-> _]]]; by vm_compute.
Qed.

Lemma step_text p p' :
  process_ok p → process_step p p' → process_text p → process_text p'.
Proof.
  intros Hok Hs [Ho Ht]. pose proof (step_ok _ _ Hs Hok) as [_ Hpl' _]. destruct Hok as [Hst Hpl _].
  revert Hpl Hpl' Ho Ht.
  destruct Hs as [cfg l st pl o ms st' Hs|cfg l st pl o ms ts data reply_to o' Hm
    |cfg l st pl o ms ts data reply_to o' t Hm|cfg l st pl o ms pl' Hp Eh Ea
    |cfg l st pl o ms pl' c us ts Hp Eh]; cbn in *; intros Hpl Hpl' Ho Ht.
  - by split.
  - apply receive_text in Hm as [Ho' _]; [by split|by apply sound_handler_sized|done].
  - apply receive_text in Hm as [Ho' Hq]; [|by apply sound_handler_sized|done]. split; [done|].
    cbn. apply Forall_app. split; [done|by apply Forall_singleton].
  - split; [done|]. cbn. by rewrite Ea.
  - destruct (call_text pl pl' c Hp Eh Hpl' Ht) as (Hq & Hshed & Ea). split; cbn; [|by rewrite Ea].
    apply evaluate_text; [by apply sound_handler_sized|done|done|done].
Qed.

Lemma steps_text p p' :
  rtc process_step p p' → process_ok p → process_text p → process_text p'.
Proof.
  induction 1 as [p|p p1 p' Hs _ IH]; intros Hok Ht; [done|].
  apply IH; [by eapply step_ok|by eapply step_text].
Qed.

(** C6. In every reachable process every reply that was sent has a document, and
    whoever reads the document has that reply, with U+FFFD for the bytes of its
    strings that are no UTF-8: the version, the request id, the verdict, the score and
    the reason's code just as they were sent, and the whole reply when its text is
    valid. Of the YAML decoder this needs that the integers it stores fit Go's. *)
Theorem replies_read_back m fs0 fs0' fs1 now p0 p :
  run_start m fs0 fs0' fs1 now = Ok p0 → rtc process_step p0 p →
  Forall (λ sr, ∃ payload back, MarshalReply sr.2 = Ok payload ∧ UnmarshalReply payload = Ok back ∧
      back = cleaned reply_t sr.2 ∧ same_answer sr.2 back ∧
      (sendable reply_t sr.2 = true → back = sr.2))
    (published (pr_out p)).
Proof.
  intros Hst Hr. destruct (started_ok _ _ _ _ _ _ Hst) as [Hok H0].
  assert (process_text p0) as Ht0.
  { destruct (started_fresh _ _ _ _ _ _ Hst) as [E1 E2]. split; [unfold sent_text|]; by rewrite ?E1, ?E2. }
  pose proof (px_sent _ (steps_text _ _ Hr Hok Ht0)) as Hsent.
  destruct (steps_refine _ _ _ Hr Hok H0) as (a & Ha & Hp & _).
  pose proof (pm_replies _ _ _ (reachable_promise _ _ _ Ha)) as Hrok. rewrite (rf_sent _ _ Hp) in Hrok.
  apply Forall_forall. intros sr Hin. unfold sent_text in Hsent. rewrite Forall_forall in Hsent, Hrok.
  exists (Wire.Marshal reply_t sr.2), (cleaned reply_t sr.2). unfold MarshalReply.
  rewrite (reply_ok_marshal _ (Hrok _ Hin)). split; [done|]. pose proof (Hsent _ Hin) as Ht.
  split; [|split; [done|split; [by apply cleaned_same|apply sendable_cleaned]]].
  apply read_back_cleaned; [apply (rt_others _ Ht)|by apply reply_text_sized].
Qed.
End text.
End process.

(** ** Witnesses *)

#[local] Existing Instance ascii_tables.

(** A machine without variables, whose profiles are at the paths of the sample
    tree. *)
#[export] Instance sample_libraries : Libraries unit unit string unit string string unit := {|
  KeywordPath := λ k, [k]; LocalizedString := id; sha256 := id; gcm_open := sample_gcm;
  sch_validate := Schema.sample_validate; error_text := λ _, "";
  Networked := λ _, false; geo_Write := λ _ _, Ok [];
  openapi_model := λ _, Err EOF; yaml_unmarshal := λ raw, Ok raw; json_marshal := λ raw, Ok raw;
  read_json := λ raw, Ok raw; compile := λ _ _ _, Ok tt; yaml_decode := Snapshot.sample_decode;
  url_parse := λ _, Err EOF; Abs := λ _, Ok "/p";
  parse_level := λ _, Ok tt; procs := 1; redis_client := λ _, Err EOF; nats_connect := λ _, Ok tt;
  netinfo_New := λ _ _ _, Ok tt; QueueSubscribe := λ _ _, Ok tt;
  SetPendingLimits := λ _ _, Ok tt
|}.

Definition sample_good : string := MarshalRequest (sample_request PhaseRequest).

Lemma sample_good_parsed : Parse UnmarshalRequest sample_good = inl (sample_request PhaseRequest).
Proof. vm_compute. reflexivity. Qed.

Definition sample_start : result process :=
  run_start Config.bare_machine (Snapshot.sample_fs "a" 1)
    (Snapshot.sample_fs "a" 1) (Snapshot.sample_fs "a" 1) 0.

(** One message that is no request and one that is, answered in this order. *)
Lemma sample_process :
  ∃ p0 p, sample_start = Ok p0 ∧ rtc process_step p0 p ∧ Queue.idle (pr_pool p) ∧
    Queue.closed (Queue.pool (pr_pool p)) = false ∧
    pr_messages p = [("bad", "inbox"); (sample_good, "inbox")] ∧ Config.Versions (pr_cfg p) = [2].
Proof.
  assert (∃ cfg l st, sample_start = Ok (Process cfg l st
    (Queue.start 1 (Queue.New 512 2 2 "drop") 0) (Outbox (Some (NewSink true)) [] [] []) []) ∧
    Config.Versions cfg = [2]) as (cfg & l & st & E & Hv).
  { do 3 eexists. split; vm_compute; reflexivity. }
  eexists _, _. split; [exact E|]. split.
  - eapply rtc_l.
    { eapply (on_message _ _ _ _ _ _ "" "bad" "inbox"). reflexivity. }
    eapply rtc_l.
    { eapply (on_task _ _ _ _ _ _ "" sample_good "inbox").
      unfold receive, handler_of. cbn [cfg_versions]. rewrite Hv, sample_good_parsed. reflexivity. }
    do 3 (eapply rtc_l; [apply on_pool;
      [apply Queue.on_work, (Queue.step_submit _ _ _ _ _ [] _ [] _ _ _ _ _ _ _ 0); [done|reflexivity]
      |reflexivity..]|]).
    eapply rtc_l.
    { eapply on_pool; [eapply Queue.on_work, Queue.step_pop; [|vm_compute; reflexivity]; cbn; lia
        |reflexivity..]. }
    eapply rtc_l.
    { eapply (on_call _ _ _ _ _ _ _ _ 0 "");
        [eapply Queue.on_work, (Queue.step_job _ _ _ _ _ _ _ [] _ []); vm_compute; reflexivity|reflexivity]. }
    apply rtc_refl.
  - cbn [pr_pool pr_messages pr_cfg]. split_and!; [..|reflexivity|exact Hv].
    all: vm_compute; by split_and?.
Qed.

Theorem messages_answered_witness :
  ∃ p0 p, sample_start = Ok p0 ∧ rtc process_step p0 p ∧
    answered (published (pr_out p)) ≡ₚ [("inbox", ""); ("inbox", "a1")].
Proof.
  destruct sample_process as (p0 & p & E & Hr & Hi & _ & Hm & Hv). exists p0, p.
  split; [exact E|]. split; [exact Hr|].
  destruct (messages_answered _ _ _ _ _ p0 p E Hr) as (_ & _ & Ha). rewrite (Ha Hi), Hm.
  rewrite Hv. reflexivity.
Defined.

Theorem process_refines_witness :
  ∃ p0 p a, sample_start = Ok p0 ∧ rtc process_step p0 p ∧
    rtc (Service.server_step UnmarshalRequest (Config.Versions (pr_cfg p))) (Server [] [] []) a ∧
    sv_messages a = [("bad", "inbox"); (sample_good, "inbox")].
Proof.
  destruct sample_process as (p0 & p & E & Hr & _ & _ & Hm & _).
  destruct (process_refines _ _ _ _ _ p0 p E Hr) as (a & Ha & Hms & _). exists p0, p, a.
  split; [exact E|]. split; [exact Hr|]. split; [exact Ha|]. by rewrite Hms.
Defined.

Theorem process_drains_witness :
  ∃ p0 p p', sample_start = Ok p0 ∧ rtc process_step p0 p ∧ rtc process_step p p' ∧
    answered (published (pr_out p')) ≡ₚ [("inbox", ""); ("inbox", "a1")].
Proof.
  destruct sample_process as (p0 & p & E & Hr & _ & _ & Hm & Hv).
  destruct (process_drains _ _ _ _ _ p0 p E Hr) as (p' & Hp & _ & Ha). exists p0, p, p'.
  split; [exact E|]. split; [exact Hr|]. split; [exact Hp|]. rewrite Ha, Hm.
  rewrite Hv. reflexivity.
Defined.

Lemma sample_decode_sized p raw q :
  Snapshot.sample_decode p raw = Ok q → profile_sized p → profile_sized q.
Proof.
  unfold Snapshot.sample_decode. destruct (raw =s? "bad"); [done|]. intros [= <-] []. by split.
Qed.

Theorem replies_read_back_witness :
  ∃ p0 p, sample_start = Ok p0 ∧ rtc process_step p0 p ∧
    Forall (λ sr, ∃ payload back, MarshalReply sr.2 = Ok payload ∧ UnmarshalReply payload = Ok back ∧
        back = cleaned reply_t sr.2 ∧ same_answer sr.2 back ∧
        (sendable reply_t sr.2 = true → back = sr.2))
      (published (pr_out p)).
Proof.
  destruct sample_process as (p0 & p & E & Hr & _). exists p0, p.
  split; [exact E|]. split; [exact Hr|].
  exact (replies_read_back sample_decode_sized _ _ _ _ _ p0 p E Hr).
Defined.
