(* ===== verification/Heartbeat.v ===== *)
(** * cmd/inspector/main.go: the heartbeat

    [beat] is what a heartbeat reports, when nothing comes between its readings.
    [live_step] is the goroutine of [startHeartbeat] beside the process and the
    watcher of the desired state: the readings of a beat are steps of their own, with
    anything in between. [pulse.Build] and [pulse.Publish] are a library's; a
    publishing may fail, which is logged. *)
From stdpp Require Import sorting.
From S2P Require Import Prelude GoString GoFloat FileTree Json JsonWrite AuditLog Body.
From S2P Require Import Protocol Wire Messages Profile Decide Handler Events Text Service.
From S2P Require Schema Validate Queue Snapshot Config Desired.
From S2P Require Import Main.

(** [pulse.Work], and what the code sets of [pulse.Message]. *)
Record Work := MkWork {
  Work_Workers : Z; Work_QueueDepth : Z; Work_Queued : Z;
  Work_Accepted : Z; Work_Shed : Z; Work_Expired : Z
}.
Record Beat := MkBeat {
  Beat_Work : Work; Beat_ConfigHash : string; Beat_Rev : Z; Beat_Apply : string;
  Beat_Profiles : list string
}.

(** ** One beat *)

Section beat.
Context {L C : Type}.

(** [pool.Queued] is read under the mutex, the counters each on its own. *)
Definition work_of (cfg : Config.Config (L := L)) (p : Queue.Pool) : Work :=
  MkWork (Config.Workers cfg) (Config.QueueDepth cfg) (Queue.Pool_Queued p)
    (Queue.Accepted p) (Queue.Shed p) (Queue.Expired p).

Definition beat (cfg : Config.Config (L := L)) (p : Queue.Pool) (applied : option Desired.Applied)
    (store : Snapshot.Store C) : Beat :=
  let '(hash, rev, apply, names) := Desired.Applied_Snapshot applied in
  if negb (is_empty apply) then MkBeat (work_of cfg p) hash rev apply names
  else MkBeat (work_of cfg p) "" 0 "" (Snapshot.Names (Snapshot.cur store)).

Context `{Unicode} (yaml_decode : Profile → string → result Profile) (sha256 : string → string).
Context (compiler : option (list Profile → result C)) (now : Z) (dataDir : path).
Context (parse_level : string → result Z).

Abbreviation watch_step :=
  (Desired.watch_step yaml_decode sha256 compiler now UnmarshalManifest parse_level dataDir).

(** As long as nothing has come from the desired state, the profiles reported are
    those in force. Once the first manifest fails to apply, none are reported, and
    the ones in force are still those of the store. *)
Lemma beat_forgets cfg p raw m w d s e :
  Desired.w_applied w = Desired.MkApplied "" 0 "" [] →
  Desired.Parse sha256 UnmarshalManifest parse_level raw = Ok m →
  Desired.Apply yaml_decode sha256 compiler now (Desired.w_store w) dataDir m (Desired.w_disk w) =
    (d, s, Err e) →
  let w' := watch_step (Some (Desired.Entry Desired.KVPut raw)) w in
  let report w := beat cfg p (Some (Desired.w_applied w)) (Desired.w_store w) in
  Beat_Profiles (report w) = Snapshot.Names (Snapshot.cur (Desired.w_store w)) ∧
  Beat_Profiles (report w') = [] ∧ Desired.w_store w' = s.
Proof.
  intros Ha Hp He. cbv zeta. unfold Desired.watch_step, beat. cbn [Desired.operation Desired.entry_value].
  by rewrite Hp, Ha, He.
Qed.
End beat.

(** ** Counters read while they move *)

(** Readings, one after the other, of a counter of 64 bits that has counted from 0 and
    now stands at [n]. *)
Definition upto (reads : list Z) (n : Z) : Prop :=
  ∃ ns, reads = wrap64 <$> ns ∧ StronglySorted Z.le (0 :: ns ++ [n]).

Lemma upto_nil n : 0 ≤ n → upto [] n.
Proof. intros Hn. exists []. split; [done|]. by repeat constructor. Qed.

(** The end of a rising list may be put off, or repeated, or cut off. *)
Lemma rising_iff ns (n : Z) :
  StronglySorted Z.le (ns ++ [n]) ↔ StronglySorted Z.le ns ∧ Forall (λ x, x ≤ n) ns.
Proof.
  rewrite Forall_forall. split.
  - intros (Hx & Hs & _)%StronglySorted_app. split; [done|]. intros x Hin.
    apply Hx; [done|by apply list_elem_of_singleton].
  - intros [Hs Hx]. apply StronglySorted_app_2; [|done|by repeat constructor].
    intros x y Hin ->%list_elem_of_singleton. by apply Hx.
Qed.

Lemma upto_more reads n m : n ≤ m → upto reads n → upto reads m.
Proof.
  intros Hle (ns & -> & [Hs Hn]%(rising_iff (0 :: ns))). exists ns. split; [done|].
  apply (rising_iff (0 :: ns)). split; [done|]. eapply Forall_impl; [exact Hn|]. cbn. lia.
Qed.

Lemma upto_read reads n : upto reads n → upto (reads ++ [wrap64 n]) n.
Proof.
  intros (ns & -> & Hs). exists (ns ++ [n])%list. split; [by rewrite fmap_app|].
  apply (rising_iff (0 :: ns ++ [n])%list). split; [done|].
  apply (rising_iff (0 :: ns)) in Hs as [_ Hn]. apply (Forall_app_2 _ (0 :: ns)); [done|by repeat constructor].
Qed.

Lemma upto_drop reads new n : upto (reads ++ new) n → upto reads n.
Proof.
  intros (ns & E & Hs). symmetry in E. apply fmap_app_inv in E as (l & k & -> & -> & ->).
  exists l. split; [done|]. apply (rising_iff (0 :: l ++ k)) in Hs as [Hs Hn].
  apply (StronglySorted_app _ (0 :: l)) in Hs as (_ & Hs & _).
  apply (Forall_app _ (0 :: l)) in Hn as [Hn _]. by apply (rising_iff (0 :: l)).
Qed.

(** ** The goroutine *)

(** Where a beat is: it has read some of [pool.Queued], [Accepted], [Shed] and
    [Expired], in this order and each for itself; it is about to read what the
    desired state has applied, then the names in the store; it is about to publish. *)
Inductive progress :=
  Resting | Counting (read : list Z) | Applying (w : Work) | Naming (w : Work) |
  Publishing (b : Beat) | Ended.

(** [startHeartbeat] beats once, starts the ticker and returns [stopBeat], which
    stops it and closes the channel [done]. *)
Inductive ticker := Starting | Ticking | Stopped | Done.

Definition counter (i : nat) (p : Queue.Pool) : Z :=
  match i with
  | 0%nat => Queue.Pool_Queued p
  | 1%nat => Queue.Accepted p
  | 2%nat => Queue.Shed p
  | _ => Queue.Expired p
  end.

Section goroutine.
Context `{Unicode} {M I K S N D L : Type} `{!Libraries M I K S N D L}.
Context (level_of : string → result Z).

Abbreviation process := (process (M := M) (I := I) (K := K) (S := S) (L := L)).
Abbreviation Config := (Config.Config (L := L)).
Abbreviation Snapshots := (Snapshot.Store (Schema.ContractSet M I K S)).

(** The manifests tried, each with whether [Apply] succeeded. *)
Definition tries : Type := list (Desired.Manifest * bool).

(** The watcher of the desired state: what it has applied, and its tries so far. *)
Record watching := Watching { wt_applied : Desired.Applied; wt_tried : tries }.

(** What an entry has it try. *)
Definition tried (now : Z) (dataDir : path) (e : option Desired.entry) (w : Desired.watcher) : tries :=
  match e with
  | Some (Desired.Entry Desired.KVPut raw) =>
      match Desired.Parse sha256 UnmarshalManifest level_of raw with
      | Ok m =>
          let a := Desired.w_applied w in
          if (Desired.status a =s? Desired.ApplyOK) && (Desired.hash a =s? Desired.ConfigHash m) &&
             (Desired.rev a =? Desired.Rev m)
          then []
          else [(m, is_ok (Desired.Apply yaml_decode sha256 compiler now (Desired.w_store w) dataDir m
                             (Desired.w_disk w)).2)]
      | Err _ => []
      end
  | _ => []
  end.

(** The process, the watcher of the desired state (nil, when it did not start), and
    the heartbeat with the messages it has published. *)
Record live := Live {
  lv_process : process; lv_watching : option watching;
  lv_at : progress; lv_ticker : ticker; lv_sent : list Beat
}.

Definition with_store (s : Snapshots) (p : process) : process :=
  Process (pr_cfg p) (pr_loader p) (Snapshot.World s (Snapshot.fetched (pr_store p))) (pr_pool p)
    (pr_out p) (pr_messages p).

Inductive live_step : live → live → Prop :=
| lv_run p p' a at_ tk sent : process_step p p' → live_step (Live p a at_ tk sent) (Live p' a at_ tk sent)
(** The watcher of the desired state takes an entry. *)
| lv_entry p a ts at_ tk sent now d lvl e :
    let dataDir := path_of (Config.DataDir (pr_cfg p)) in
    let w := Desired.Watcher a (Snapshot.store (pr_store p)) d lvl in
    let w' := Desired.watch_step yaml_decode sha256 compiler now UnmarshalManifest level_of dataDir e w in
    live_step (Live p (Some (Watching a ts)) at_ tk sent)
      (Live (with_store (Desired.w_store w') p)
         (Some (Watching (Desired.w_applied w') (ts ++ tried now dataDir e w))) at_ tk sent)
(** [beat]. *)
| lv_count p a read tk sent :
    (length read < 4)%nat →
    live_step (Live p a (Counting read) tk sent)
      (Live p a (Counting (read ++ [counter (length read) (Queue.pool (pr_pool p))])) tk sent)
| lv_work p a queued accepted shed expired tk sent :
    live_step (Live p a (Counting [queued; accepted; shed; expired]) tk sent)
      (Live p a (Applying (MkWork (Config.Workers (pr_cfg p)) (Config.QueueDepth (pr_cfg p))
         queued accepted shed expired)) tk sent)
| lv_apply p a w tk sent hash rev apply names :
    Desired.Applied_Snapshot (wt_applied <$> a) = (hash, rev, apply, names) →
    live_step (Live p a (Applying w) tk sent)
      (Live p a (if negb (is_empty apply) then Publishing (MkBeat w hash rev apply names)
                 else Naming w) tk sent)
| lv_names p a w tk sent :
    live_step (Live p a (Naming w) tk sent)
      (Live p a (Publishing (MkBeat w "" 0 ""
         (Snapshot.Names (Snapshot.cur (Snapshot.store (pr_store p)))))) tk sent)
| lv_publish p a b tk sent :
    live_step (Live p a (Publishing b) tk sent) (Live p a Resting tk (sent ++ [b]))
| lv_fail p a b tk sent :
    live_step (Live p a (Publishing b) tk sent) (Live p a Resting tk sent)
(** The ticker and its end. *)
| lv_start p a sent : live_step (Live p a Resting Starting sent) (Live p a Resting Ticking sent)
| lv_tick p a sent : live_step (Live p a Resting Ticking sent) (Live p a (Counting []) Ticking sent)
| lv_stop p a at_ sent : live_step (Live p a at_ Ticking sent) (Live p a at_ Stopped sent)
| lv_done p a at_ sent : live_step (Live p a at_ Stopped sent) (Live p a at_ Done sent)
| lv_end p a sent : live_step (Live p a Resting Done sent) (Live p a Ended Done sent).

(** [desired.Watch] starts from an empty [Applied], or fails. *)
Definition alive (p : process) (watched : bool) : live :=
  Live p (if watched then Some (Watching (Desired.MkApplied "" 0 "" []) []) else None)
    (Counting []) Starting [].

(** ** What a heartbeat reports *)

(** What tries leave reported: the last success, and how the last one went. *)
Definition last_applied (ts : tries) : option Desired.Manifest := last (omap (λ t, if t.2 : bool then Some t.1 else None) ts).
Definition outcome_of (ts : tries) : string :=
  match last ts with
  | None => ""
  | Some (_, true) => Desired.ApplyOK
  | Some (_, false) => Desired.ApplyFailed
  end.
Definition after (ts : tries) : Desired.Applied :=
  match last_applied ts with
  | Some m => Desired.MkApplied (Desired.ConfigHash m) (Desired.Rev m) (outcome_of ts)
                (Desired.Manifest_Names (Desired.Profiles m))
  | None => Desired.MkApplied "" 0 (outcome_of ts) []
  end.

(** A heartbeat, of a process whose watcher has made the tries [ts] by now. *)
Record report_ok (cfg : Config) (ts : tries) (b : Beat) : Prop := {
  rp_workers : Work_Workers (Beat_Work b) = Config.Workers cfg;
  rp_depth : Work_QueueDepth (Beat_Work b) = Config.QueueDepth cfg;
  rp_queued : 0 ≤ Work_Queued (Beat_Work b) ≤ Config.QueueDepth cfg;
  rp_none : Beat_Apply b = "" → Beat_ConfigHash b = "" ∧ Beat_Rev b = 0 ∧
    ∃ snap, Snapshot.snapshot_ok yaml_decode compiler snap ∧
      Beat_Profiles b = Snapshot.Snapshot_names snap;
  rp_some : Beat_Apply b ≠ "" → ∃ ts', ts' `prefix_of` ts ∧
    after ts' = Desired.MkApplied (Beat_ConfigHash b) (Beat_Rev b) (Beat_Apply b) (Beat_Profiles b)
}.

(** What a counter has counted since the start. *)
Definition total (i : nat) (s : Queue.system) : Z :=
  match i with
  | 1%nat => len (Queue.accepted s)
  | 2%nat => Queue.count_shed_as Queue.ReasonQueueLimit (Queue.handled s)
  | _ => Queue.count_shed_as Queue.ReasonDeadlineExceeded (Queue.handled s)
  end.

Definition work_field (i : nat) (w : Work) : Z :=
  match i with
  | 0%nat => Work_Queued w
  | 1%nat => Work_Accepted w
  | 2%nat => Work_Shed w
  | _ => Work_Expired w
  end.

Lemma counter_total i s : (1 ≤ i)%nat → Queue.sound s → counter i (Queue.pool s) = wrap64 (total i s).
Proof.
  intros Hi Hs. destruct i as [|[|[|i]]]; [lia|..]; cbn;
    [apply (Queue.so_accepted _ Hs)|apply (Queue.so_shed _ Hs)|apply (Queue.so_expired _ Hs)].
Qed.

Lemma total_step i s s' : Queue.pool_step s s' → total i s ≤ total i s'.
Proof.
  intros Hs. destruct (Queue.step_call_change _ _ Hs) as (new & Eh & _).
  assert (∀ reason, Queue.count_shed_as reason (Queue.handled s) ≤
    Queue.count_shed_as reason (Queue.handled s')) as Hc.
  { intros reason. rewrite Eh, Queue.count_shed_app. unfold Queue.count_shed_as, len. lia. }
  destruct i as [|[|[|i]]]; cbn; auto.
  destruct (Queue.step_accepted _ _ Hs) as [[_ ->]|(_ & t & ->)]; [done|]. unfold len.
  rewrite length_app. lia.
Qed.

Lemma total_run i s s' : rtc Queue.pool_step s s' → total i s ≤ total i s'.
Proof. induction 1 as [|s1 s2 s3 Hs _ IH]; [done|]. etrans; [by apply total_step|done]. Qed.

(** ** The invariant *)

Definition so_far (i : nat) (at_ : progress) : option Z :=
  match at_ with
  | Counting read => read !! i
  | Applying w | Naming w => Some (work_field i w)
  | Publishing b => Some (work_field i (Beat_Work b))
  | Resting | Ended => None
  end.

(** The values of a counter that went into heartbeats, with that of this one. *)
Definition reads (i : nat) (s : live) : list Z :=
  ((λ b, work_field i (Beat_Work b)) <$> lv_sent s) ++ option_list (so_far i (lv_at s)).

Record work_ok (cfg : Config) (w : Work) : Prop := {
  wk_workers : Work_Workers w = Config.Workers cfg;
  wk_depth : Work_QueueDepth w = Config.QueueDepth cfg;
  wk_queued : 0 ≤ Work_Queued w ≤ Config.QueueDepth cfg
}.

Definition at_ok (cfg : Config) (ts : tries) (at_ : progress) : Prop :=
  match at_ with
  | Counting read => ∀ queued, head read = Some queued → 0 ≤ queued ≤ Config.QueueDepth cfg
  | Applying w | Naming w => work_ok cfg w
  | Publishing b => report_ok cfg ts b
  | Resting | Ended => True
  end.

Definition lv_tried (s : live) : tries := from_option wt_tried [] (lv_watching s).

Record live_ok (cfg : Config) (s : live) : Prop := {
  lo_process : process_ok (lv_process s);
  lo_cfg : pr_cfg (lv_process s) = cfg;
  lo_depth : Queue.q_depth (Queue.pool (pr_pool (lv_process s))) = Config.QueueDepth cfg;
  lo_applied : ∀ w, lv_watching s = Some w → wt_applied w = after (wt_tried w);
  lo_at : at_ok cfg (lv_tried s) (lv_at s);
  lo_sent : Forall (report_ok cfg (lv_tried s)) (lv_sent s);
  lo_reads : ∀ i, (1 ≤ i ≤ 3)%nat → upto (reads i s) (total i (pr_pool (lv_process s)))
}.

Lemma applied_step dataDir e w ts now :
  Desired.w_applied w = after ts →
  Desired.w_applied (Desired.watch_step yaml_decode sha256 compiler now UnmarshalManifest
    level_of dataDir e w) = after (ts ++ tried now dataDir e w).
Proof.
  intros Ha. unfold Desired.watch_step, tried.
  destruct e as [[[] raw]|]; cbn [Desired.operation Desired.entry_value]; rewrite ?app_nil_r; try done.
  destruct (Desired.Parse _ _ _ raw) as [m|] eqn:Em; [|by rewrite app_nil_r].
  destruct (_ && (Desired.rev _ =? _)); [by rewrite app_nil_r|].
  unfold after, last_applied, outcome_of. rewrite last_snoc, omap_app.
  destruct (Desired.Apply _ _ _ _ _ _ _ _) as [[d s] [u|err]]; cbn [is_ok snd Desired.w_applied omap list_omap].
  - by rewrite last_snoc.
  - rewrite app_nil_r, Ha. unfold after, last_applied. by destruct (last (omap _ ts)).
Qed.

Lemma report_later cfg ts ts' b : ts `prefix_of` ts' → report_ok cfg ts b → report_ok cfg ts' b.
Proof.
  intros Hp []. split; try done. intros Hne. destruct (rp_some0 Hne) as (k & Hk & E).
  exists k. split; [by etrans|done].
Qed.

Lemma at_later cfg ts ts' at_ : ts `prefix_of` ts' → at_ok cfg ts at_ → at_ok cfg ts' at_.
Proof. intros Hp. destruct at_; cbn; try done. by apply report_later. Qed.

Lemma entry_world p a now d lvl e dataDir :
  rtc (Snapshot.store_step yaml_decode sha256 compiler) (pr_store p)
    (pr_store (with_store (Desired.w_store (Desired.watch_step yaml_decode sha256 compiler now UnmarshalManifest
      level_of dataDir e (Desired.Watcher a (Snapshot.store (pr_store p)) d lvl))) p)).
Proof.
  destruct p as [cfg l [st f] pl o ms]. cbn.
  exact (Desired.watch_step_steps yaml_decode sha256 compiler now dataDir UnmarshalManifest level_of e
    (Desired.Watcher a st d lvl) f).
Qed.

(** A heartbeat built from work that is in order and what was applied. *)
Lemma apply_report cfg w a hash rev apply names :
  work_ok cfg w → (∀ x, a = Some x → wt_applied x = after (wt_tried x)) →
  Desired.Applied_Snapshot (wt_applied <$> a) = (hash, rev, apply, names) → apply ≠ "" →
  report_ok cfg (from_option wt_tried [] a) (MkBeat w hash rev apply names).
Proof.
  intros [] Ha E Hne. unfold Desired.Applied_Snapshot in E. destruct a as [[a ts]|]; cbn in *; [|by simplify_eq].
  injection E as <- <- <- <-. specialize (Ha _ eq_refl). cbn in Ha.
  split; cbn; try done. intros _. exists ts. split; [done|]. by rewrite <- Ha; destruct a.
Qed.

(** A step of the heartbeat leaves the process alone. *)
Lemma at_step cfg p a at_ tk sent at' tk' sent' :
  live_ok cfg (Live p a at_ tk sent) → at_ok cfg (from_option wt_tried [] a) at' →
  Forall (report_ok cfg (from_option wt_tried [] a)) sent' →
  (∀ i, (1 ≤ i ≤ 3)%nat → upto (reads i (Live p a at_ tk sent)) (total i (pr_pool p)) →
     upto (reads i (Live p a at' tk' sent')) (total i (pr_pool p))) →
  live_ok cfg (Live p a at' tk' sent').
Proof. intros [] Ha Hs Hr. split; try done. intros i Hi. by apply Hr, lo_reads0. Qed.

Lemma live_step_ok cfg s s' : live_step s s' → live_ok cfg s → live_ok cfg s'.
Proof.
  intros Hs Hl. destruct Hs as [p p' a at_ tk sent Hp|p a ts at_ tk sent now d lvl e dataDir w w'|p a l tk sent Hlen
    |p a q ac sh ex tk sent|p a w tk sent hash rev apply names E|p a w tk sent|p a b tk sent|p a b tk sent
    |p a sent|p a sent|p a at_ sent|p a at_ sent|p a sent].
  - pose proof (process_pool _ _ Hp) as Hr. destruct Hl as [Hok Hc Hd Ha Hat Hst Hrd]. cbn in *.
    split; cbn; try done.
    + by eapply step_ok.
    + by rewrite (step_cfg _ _ Hp).
    + rewrite <- Hd. by apply Queue.settings_depth, Queue.run_settings.
    + intros i Hi. eapply upto_more; [by apply total_run|]. by apply Hrd.
  - pose proof (entry_world p a now d lvl e (path_of (Config.DataDir (pr_cfg p)))) as Hw.
    destruct Hl as [[Hst0 Hp0 Hw0] Hc Hd Ha Hat Hst Hrd]. unfold lv_tried in *. cbn in *.
    assert (ts `prefix_of` (ts ++ tried now dataDir e w)%list) as Hpre by by eexists.
    split; cbn; try done.
    + split; cbn; [|done..]. by eapply Snapshot.steps_sound.
    + intros b [= <-]. apply applied_step. by apply (Ha (Watching a ts)).
    + by eapply at_later.
    + eapply Forall_impl; [exact Hst|]. intros b. by apply report_later.
  - pose proof (po_pool _ (lo_process _ _ Hl)) as Hso. pose proof (lo_depth _ _ Hl) as Hd.
    pose proof (lo_at _ _ Hl) as Hat. cbn in Hso, Hd, Hat.
    eapply at_step; [exact Hl| |apply (lo_sent _ _ Hl)|].
    + cbn. intros q Hq. destruct l as [|x l]; cbn in Hq; [|by apply Hat]. injection Hq as <-.
      cbn. unfold Queue.Pool_Queued. pose proof (Queue.so_bound _ Hso). unfold len in *. lia.
    + intros i Hi Hu. unfold reads in *. cbn [lv_sent lv_at so_far] in *.
      destruct (decide (i = length l)) as [->|Hne].
      * rewrite (lookup_ge_None_2 l) in Hu by lia. rewrite list_lookup_middle by done.
        cbn [option_list option_rect] in *. rewrite app_nil_r in Hu.
        rewrite counter_total by (done || lia). by apply upto_read.
      * assert ((l ++ [counter (length l) (Queue.pool (pr_pool p))])%list !! i = l !! i) as ->; [|done].
        destruct (decide (i < length l)%nat); [by rewrite lookup_app_l|].
        rewrite !lookup_ge_None_2; [done|lia|rewrite length_app; cbn; lia].
  - eapply at_step; [exact Hl| |apply (lo_sent _ _ Hl)|].
    + pose proof (lo_at _ _ Hl) as Hat. rewrite <- (lo_cfg _ _ Hl). cbn in Hat |- *.
      rewrite <- (lo_cfg _ _ Hl) in Hat. split; cbn; try done. by apply Hat.
    + intros i Hi. unfold reads. cbn. by destruct i as [|[|[|[|i]]]]; try lia.
  - pose proof (lo_at _ _ Hl) as Hw. cbn in Hw.
    eapply at_step; [exact Hl| |apply (lo_sent _ _ Hl)|].
    + destruct (is_empty apply) eqn:En; [done|]. cbn.
      eapply apply_report; [done|apply (lo_applied _ _ Hl)|exact E|by apply is_empty_false].
    + intros i Hi. unfold reads. cbn. by destruct (is_empty apply).
  - eapply at_step; [exact Hl| |apply (lo_sent _ _ Hl)|by intros].
    pose proof (lo_at _ _ Hl) as []. cbn in *.
    destruct (Snapshot.sw_cur _ _ _ (po_store _ (lo_process _ _ Hl))) as (snap & Es & Hsn). cbn in Es.
    split; cbn; try done. intros _. split_and!; [done..|]. exists snap. by rewrite Es.
  - pose proof (lo_at _ _ Hl) as Hb. eapply at_step; [exact Hl|done| |].
    + apply Forall_app. split; [apply (lo_sent _ _ Hl)|by apply Forall_singleton].
    + intros i Hi. unfold reads. cbn. by rewrite fmap_app, app_nil_r.
  - eapply at_step; [exact Hl|done|apply (lo_sent _ _ Hl)|]. intros i Hi. unfold reads. cbn.
    rewrite app_nil_r. apply upto_drop.
  - by eapply at_step; [exact Hl|done|apply (lo_sent _ _ Hl)|].
  - by eapply at_step; [exact Hl|done|apply (lo_sent _ _ Hl)|].
  - by eapply at_step; [exact Hl|apply (lo_at _ _ Hl)|apply (lo_sent _ _ Hl)|].
  - by eapply at_step; [exact Hl|apply (lo_at _ _ Hl)|apply (lo_sent _ _ Hl)|].
  - by eapply at_step; [exact Hl|done|apply (lo_sent _ _ Hl)|].
Qed.

Lemma alive_ok m fs0 fs0' fs1 now p watched :
  run_start m fs0 fs0' fs1 now = Ok p → live_ok (pr_cfg p) (alive p watched).
Proof.
  intros Hst. destruct (started_ok _ _ _ _ _ _ Hst) as [Hok _].
  assert (Queue.q_depth (Queue.pool (pr_pool p)) = Config.QueueDepth (pr_cfg p)) as Hd.
  { revert Hst. unfold run_start. intros (cfg & Hc & H1)%bind_ok. apply bind_ok in H1 as (s & _ & H1).
    destruct (Desired.Bootstrap _ _ _ _ _ s) as [s' restored].
    apply bind_ok in H1 as (l & _ & H1). do 4 (apply seq_ok in H1 as [_ H1]). injection H1 as <-. cbn.
    apply Config.loaded_ok in Hc. pose proof (Config.co_depth _ Hc).
    by destruct (Z.ltb_spec (Config.QueueDepth cfg) 1); [lia|]. }
  split; cbn; try done.
  - destruct watched; [|done]. by intros a [= <-].
  - intros i _. apply upto_nil. unfold total, Queue.count_shed_as, len. destruct i as [|[|[|]]]; lia.
Qed.

(** C15. The heartbeats of a process that was started tell the truth, however their
    readings interleave with the pool, the watchers and the ticker: the settings
    are those of the configuration and the queue is within its depth; the state
    reported as applied is empty, with the names of a sound snapshot, or it is the
    state after some of the manifests tried: the hash, revision and names of the last
    one that was applied, if any, and whether the last one tried was applied or
    failed; and each counter, read on its own, is from one heartbeat to the next a
    later value of what it has counted since the start, modulo [2 ^ 64]. *)
Theorem heartbeats_true m fs0 fs0' fs1 now p watched s :
  run_start m fs0 fs0' fs1 now = Ok p → rtc live_step (alive p watched) s →
  Forall (report_ok (pr_cfg p) (lv_tried s)) (lv_sent s) ∧
  ∀ i, (1 ≤ i ≤ 3)%nat →
    upto ((λ b, work_field i (Beat_Work b)) <$> lv_sent s) (total i (pr_pool (lv_process s))).
Proof.
  intros Hst Hr. assert (live_ok (pr_cfg p) s) as Hl.
  { apply alive_ok with (watched := watched) in Hst. revert Hst.
    generalize (pr_cfg p). intros cfg. induction Hr; eauto using live_step_ok. }
  split; [apply (lo_sent _ _ Hl)|]. intros i Hi. eapply upto_drop. by apply (lo_reads _ _ Hl).
Qed.

(** With nothing in between, the readings make [beat]. *)
Lemma beat_alone (p : process) a tk sent :
  rtc live_step (Live p a (Counting []) tk sent)
    (Live p a Resting tk
       (sent ++ [beat (pr_cfg p) (Queue.pool (pr_pool p)) (wt_applied <$> a)
                   (Snapshot.store (pr_store p))])).
Proof.
  do 4 (eapply rtc_l; [apply lv_count; cbn; lia|]; cbn [length app]).
  eapply rtc_l; [apply lv_work|]. unfold beat.
  destruct (Desired.Applied_Snapshot (wt_applied <$> a)) as [[[hash rev] apply] names] eqn:E.
  eapply rtc_l; [by apply lv_apply|]. destruct (negb (is_empty apply)).
  - by apply rtc_once, lv_publish.
  - eapply rtc_l; [apply lv_names|]. by apply rtc_once, lv_publish.
Qed.

(** *** The end *)

Definition quiet (tk : ticker) : Prop := tk = Stopped ∨ tk = Done.
Definition under_way (at_ : progress) : nat := match at_ with Resting | Ended => 0 | _ => 1 end.

Lemma quiet_step s s' :
  live_step s s' → quiet (lv_ticker s) →
  quiet (lv_ticker s') ∧
    (length (lv_sent s') + under_way (lv_at s') ≤ length (lv_sent s) + under_way (lv_at s))%nat.
Proof.
  unfold quiet. destruct 1; cbn; intros [|]; try done; rewrite ?length_app; cbn; auto; try (split; [auto|lia]).
  all: destruct (negb (is_empty apply)); cbn; auto.
Qed.

Lemma beat_finishes (p : process) a tk sent at_ :
  (match at_ with Counting read => (length read ≤ 4)%nat | _ => True end) → at_ ≠ Ended →
  ∃ sent', rtc live_step (Live p a at_ tk sent) (Live p a Resting tk sent').
Proof.
  assert (∀ b, rtc live_step (Live p a (Publishing b) tk sent) (Live p a Resting tk (sent ++ [b]))) as Hp.
  { intros b. apply rtc_once, lv_publish. }
  assert (∀ w, ∃ sent', rtc live_step (Live p a (Naming w) tk sent) (Live p a Resting tk sent')) as Hn.
  { intros w. eexists. eapply rtc_l; [apply lv_names|]. apply Hp. }
  assert (∀ w, ∃ sent', rtc live_step (Live p a (Applying w) tk sent) (Live p a Resting tk sent')) as Ha.
  { intros w. destruct (Desired.Applied_Snapshot (wt_applied <$> a)) as [[[hash rev] apply] names] eqn:E.
    pose proof (lv_apply p a w tk sent _ _ _ _ E) as H1. destruct (negb (is_empty apply)).
    - eexists. eapply rtc_l; [exact H1|]. apply Hp.
    - destruct (Hn w) as (sent' & H2). exists sent'. by eapply rtc_l. }
  intros Hl Hne. destruct at_ as [|read|w|w|b|]; [by exists sent| |by apply Ha|by apply Hn|eauto|done].
  remember (4 - length read)%nat as n eqn:En. clear Hne. revert read Hl En. induction n as [|n IH]; intros read Hl En.
  - assert (length read = 4)%nat as E by lia. destruct read as [|q [|ac [|sh [|ex [|]]]]]; try done.
    destruct (Ha (MkWork (Config.Workers (pr_cfg p)) (Config.QueueDepth (pr_cfg p)) q ac sh ex))
      as (sent' & Hr). exists sent'. eapply rtc_l; [apply lv_work|done].
  - destruct (IH (read ++ [counter (length read) (Queue.pool (pr_pool p))])%list) as (sent' & Hr);
      rewrite ?length_app; cbn; [lia|lia|].
    exists sent'. eapply rtc_l; [apply lv_count; lia|done].
Qed.

Definition counting (s : live) : Prop :=
  (match lv_at s with Counting read => (length read ≤ 4)%nat | _ => True end) ∧
  (lv_at s = Ended → lv_ticker s = Done).

Lemma counting_step s s' : live_step s s' → counting s → counting s'.
Proof.
  unfold counting. destruct 1; cbn; intros [H1 H2]; split; try done; try lia; rewrite ?length_app; cbn;
    try lia; try (intros E; specialize (H2 E); congruence).
  all: destruct (negb (is_empty apply)); cbn; try done; by intros.
Qed.

(** Once [stopBeat] is called the goroutine ends, wherever it is, and publishes at
    most the heartbeat it was at. *)
Theorem heartbeat_stops p watched s :
  rtc live_step (alive p watched) s → quiet (lv_ticker s) →
  (∀ s', rtc live_step s s' → (length (lv_sent s') ≤ length (lv_sent s) + 1)%nat) ∧
  ∃ s', rtc live_step s s' ∧ lv_at s' = Ended.
Proof.
  intros Hr Hq. split.
  - intros s' Hr'. assert (quiet (lv_ticker s') ∧ (length (lv_sent s') + under_way (lv_at s') ≤
      length (lv_sent s) + under_way (lv_at s))%nat) as [_ Hle].
    { clear Hr. induction Hr' as [|s1 s2 s3 Hs _ IH]; [auto|].
      destruct (quiet_step _ _ Hs Hq) as [Hq2 H2]. destruct (IH Hq2) as [H3 H4]. split; [done|lia]. }
    assert (under_way (lv_at s) ≤ 1)%nat by (by destruct (lv_at s); cbn; lia). lia.
  - assert (counting s) as [Hc He].
    { assert (counting (alive p watched)) as H0 by (split; [cbn; lia|done]).
      revert H0. clear Hq. induction Hr; eauto using counting_step. }
    destruct s as [p' a at_ tk sent]. cbn in *.
    assert (∃ sent', rtc live_step (Live p' a at_ tk sent) (Live p' a Resting tk sent') ∨ at_ = Ended)
      as (sent' & [Hr2| ->]).
    { assert (at_ = Ended ∨ at_ ≠ Ended) as [->|Hne] by (destruct at_; by (left + right));
        [exists []; by right|].
      destruct (beat_finishes p' a tk sent at_ Hc Hne) as (sent' & H2). exists sent'. by left. }
    2: { by exists (Live p' a Ended tk sent). }
    exists (Live p' a Ended Done sent'). split; [etrans; [exact Hr2|]|done].
    destruct Hq as [-> | ->]; [eapply rtc_l; [apply lv_done|]|]; by apply rtc_once, lv_end.
Qed.
End goroutine.

(** ** Witnesses *)

#[local] Existing Instance ascii_tables.

Definition sample_entry : Desired.entry := Desired.Entry Desired.KVPut (quoted (String.concat ""
  ["{'v':1,'rev':3,'profiles':{'default':{'files':[";
   "{'name':'profile.yaml','text':'new'}]}}}"])).

(** A process that has started publishes its first heartbeat, and one more after a
    manifest that was applied and one that is no JSON. *)
Theorem heartbeats_true_witness :
  ∃ p s, sample_start = Ok p ∧ rtc (live_step (λ _, Ok 0)) (alive p true) s ∧
    (λ b, (Beat_Rev b, Beat_Apply b, Beat_Profiles b)) <$> lv_sent s =
      [(0, "", ["default"]); (3, "ok", ["default"])] ∧
    Forall (report_ok (pr_cfg p) (lv_tried s)) (lv_sent s).
Proof.
  assert (∃ cfg l st pool out ms, sample_start = Ok (Process cfg l st pool out ms)) as
    (cfg & l & st & pool & out & ms & E) by (do 6 eexists; vm_compute; reflexivity).
  set (p := Process cfg l st pool out ms) in *.
  pose proof (beat_alone (λ _, Ok 0) p (Some (Watching (Desired.MkApplied "" 0 "" []) [])) Starting []) as H1.
  pose proof (lv_entry (λ _, Ok 0) p (Desired.MkApplied "" 0 "" []) [] Resting Ticking
    ([] ++ [beat (pr_cfg p) (Queue.pool (pr_pool p)) (Some (Desired.MkApplied "" 0 "" []))
             (Snapshot.store (pr_store p))]) 5 (Desired.Disk ∅ []) 0 (Some sample_entry)) as H2.
  cbv zeta in H2.
  match type of H2 with live_step _ _ (Live ?p' ?a _ _ ?sent) =>
    pose proof (beat_alone (λ _, Ok 0) p' a Ticking sent) as H3 end.
  match type of H3 with rtc _ _ ?s =>
    assert (rtc (live_step (λ _, Ok 0)) (alive p true) s) as Hr end.
  { etrans; [exact H1|]. eapply rtc_l; [apply lv_start|]. eapply rtc_l; [exact H2|].
    eapply rtc_l; [apply lv_tick|]. exact H3. }
  eexists p, _. split; [exact E|]. split; [exact Hr|].
  destruct (heartbeats_true (λ _, Ok 0) _ _ _ _ _ p true _ E Hr) as [Hx _]. split; [|exact Hx].
  clear -E. assert (Ok p = sample_start) as E' by done. clear E.
  change p with (match Ok p with Ok q => q | Err _ => p end). rewrite E'. vm_compute. reflexivity.
Defined.
