(* ===== verification/Shutdown.v ===== *)
(** * cmd/inspector/main.go: from serving to the exit

    [Main] has the process that serves and [Sink] the goroutine of the audit sink.
    Here they run together, with the goroutine of [main]: it waits for a signal,
    cancels the watchers, drains the subscription, closes the pool and waits for
    its goroutines, closes the sink, and returns. What the sink was given, the
    sink's goroutine takes; the subscription may go on delivering messages until
    the process is gone, since [Drain] does not wait. *)
From S2P Require Import Prelude GoString GoFloat FileTree Json JsonWrite AuditLog Body.
From S2P Require Import Protocol Wire Messages Profile Decide Handler Events Text Service.
From S2P Require Schema Validate Queue Snapshot Config Desired Sink.
From S2P Require Import Main.

(** ** The record of what was sent *)

(** A call of [send] that publishes: [st_payload] is [st_reply], or the fallback
    for a reply that does not marshal. *)
Record sent := Sent {
  st_ts : string; st_subject : string; st_reply : Reply; st_payload : Reply;
  st_req : option Request; st_det : details
}.

Definition answer_of (x : sent) : string * Reply := (st_subject x, st_payload x).

(** Its event, in a process whose sink has a connection. *)
Definition event_of (x : sent) : option item :=
  added_item marshal_event (st_ts x) (Some (NewSink true)) (st_req x) (Some (st_reply x)) (st_det x).

(** What a subscriber of the audit subject [subj] is to read for it: the document
    of its event, if the request names that subject. *)
Definition event_for (subj : string) (x : sent) : option value :=
  r ← st_req x; s ← AuditSubject r;
  if negb (is_empty s) && (s =s? subj)
  then Some (clean (event_value (Build (st_ts x) (st_req x) (Some (st_reply x)) (st_det x))))
  else None.

Definition feed (s : Sink) (its : list item) : Sink := foldl (λ s it, add_item it s) s its.

Definition connected (o : outbox) : Prop := ∃ s, sink o = Some s ∧ nc s = true.

(** From one outbox to another by the sends of a log. *)
Record logged (o o' : outbox) (log : list sent) : Prop := {
  lg_published : published o' = published o ++ (answer_of <$> log);
  lg_events : events o' = events o ++ omap event_of log;
  lg_sink : sink o' = (λ s, feed s (omap event_of log)) <$> sink o
}.

Lemma logged_same o o' :
  published o' = published o → events o' = events o → sink o' = sink o → logged o o' [].
Proof. intros E1 E2 E3. split; cbn; rewrite ?app_nil_r; try done. rewrite E3. by destruct (sink o). Qed.

Lemma feed_nc its : ∀ s, nc (feed s its) = nc s.
Proof.
  induction its as [|it its IH]; intros s; [done|]. cbn. rewrite IH. unfold add_item.
  by case_bool_decide.
Qed.

Lemma added_connected ts s req reply det :
  nc s = true →
  added_item marshal_event ts (Some s) req reply det =
  added_item marshal_event ts (Some (NewSink true)) req reply det.
Proof. unfold added_item. by intros ->. Qed.

Lemma send_logged ts subject reply req det o :
  connected o → ∃ log, logged o (send marshal_event ts subject reply req det o) log ∧
    Forall (λ x, st_subject x = subject ∧ st_req x = req) log.
Proof.
  intros (s & Hs & Hc). unfold send. destruct (is_empty subject).
  { exists []. split; [by apply logged_same|constructor]. }
  assert (∀ payload, logged o (Outbox (Add marshal_event ts (sink o) req (Some reply) det).1
      (published o ++ [(subject, payload)]) (writes o)
      (events o ++ option_list (added_item marshal_event ts (sink o) req (Some reply) det)))
      [Sent ts subject reply payload req det]) as Hl.
  { intros payload.
    assert (event_of (Sent ts subject reply payload req det) =
      added_item marshal_event ts (sink o) req (Some reply) det) as Ee.
    { unfold event_of. cbn [st_ts st_req st_reply st_det]. by rewrite Hs, (added_connected ts s). }
    split; cbn [published events sink omap list_omap]; [done|..]; rewrite Ee.
    - by destruct (added_item marshal_event ts (sink o) req (Some reply) det).
    - rewrite Add_added, Hs. by destruct (added_item marshal_event ts (Some s) req (Some reply) det). }
  destruct (Protocol.Marshal reply) as [r|e]; [|rewrite Marshal_fallback];
    (eexists; split; [apply Hl|by apply Forall_singleton]).
Qed.

Lemma logged_writes o o' ws log : logged (add_writes ws o) o' log → logged o o' log.
Proof. by intros [E1 E2 E3]. Qed.

Lemma connected_logged o o' log : connected o → logged o o' log → connected o'.
Proof.
  intros (s & Hs & Hc) [_ _ E]. rewrite Hs in E. exists (feed s (omap event_of log)).
  split; [done|]. by rewrite feed_nc.
Qed.

Lemma logged_app o1 o2 o3 l k : logged o1 o2 l → logged o2 o3 k → logged o1 o3 (l ++ k).
Proof.
  intros [P1 E1 S1] [P2 E2 S2]. split.
  - by rewrite P2, P1, fmap_app, app_assoc.
  - by rewrite E2, E1, omap_app, app_assoc.
  - rewrite S2, S1, omap_app. destruct (sink o1); [|done]. cbn. unfold feed. by rewrite foldl_app.
Qed.
(** ** What subscribers read of the log *)

Lemma event_of_written log : Forall written (omap event_of log).
Proof.
  apply Forall_forall. intros it (x & _ & Hx)%list_elem_of_omap. unfold event_of, added_item in Hx.
  destruct (st_req x) as [r|]; [|done]. cbn [nc NewSink] in Hx. destruct (AuditSubject r) as [s|]; [|done].
  destruct (marshal_event _) as [b|] eqn:E; [|done]. destruct (is_empty s); [done|].
  injection Hx as <-. eexists. by apply event_wrote.
Qed.

Lemma event_of_document subj log :
  document <$> of_subject subj (omap event_of log) = Some <$> omap (event_for subj) log.
Proof.
  assert (∀ x, document <$> of_subject subj (option_list (event_of x)) =
    Some <$> option_list (event_for subj x)) as Hx.
  { intros [ts s1 rep s2 req det]. unfold event_of, event_for, added_item. cbn [st_req st_ts st_reply st_det].
    destruct req as [r|]; [|done]. generalize (event_writes (Build ts (Some r) (Some rep) det)).
    unfold marshal_event. generalize (event_value (Build ts (Some r) (Some rep) det)). intros v [Hw Hd].
    cbn [nc NewSink mbind option_bind]. destruct (AuditSubject r) as [s|]; [|done].
    cbn [mbind option_bind]. destruct (is_empty s); [done|]. cbn [negb andb]. unfold of_subject.
    simpl option_list. rewrite filter_cons, filter_nil. cbn [subject].
    destruct (String.eqb_spec s subj) as [->|Hne]; [|by rewrite decide_False].
    rewrite decide_True by done.
    change ([document (Item subj (of_bytes (print v)))] = [Some (clean v)]). f_equal.
    apply parse_print; [done|]. unfold max_nesting_depth. lia. }
  induction log as [|x log IH]; [done|].
  rewrite !(omap_cons_list _ x), of_subject_app, !fmap_app, IH. f_equal. apply Hx.
Qed.

(** Subscribers of a subject read the documents of its events, in the order of the
    replies, none of them twice. *)
Lemma read_log subj log (batches : list (list item)) :
  sublist (mjoin batches) (omap event_of log) →
  sublist (read_on subj (batches ≫= AuditLog.publish)) (omap (event_for subj) log).
Proof.
  intros Hs. assert (Forall written (mjoin batches)) as Hw.
  { rewrite Forall_forall. intros it Hit. pose proof (event_of_written log) as Hl.
    rewrite Forall_forall in Hl. apply Hl. by eapply elem_of_sublist. }
  assert (sublist (Some <$> read_on subj (batches ≫= AuditLog.publish)) (Some <$> omap (event_for subj) log)) as H.
  { rewrite calls_read by by apply batches_written.
    pose proof (delivered_join subj batches) as Hj. unfold delivered in Hj. rewrite Hj, <- event_of_document.
    apply fmap_sublist. by apply of_subject_sublist. }
  by apply sublist_Some.
Qed.

(** ** The process with its sink's goroutine *)

Section life.
Context `{Unicode} {M I K S N D L : Type} `{!Libraries M I K S N D L}.

Abbreviation process := (process (M := M) (I := I) (K := K) (S := S) (L := L)).
Abbreviation handler := (@handler M I K S).
Abbreviation receive := (receive marshal_event (M := M) (I := I) (K := K) (S := S)).
Abbreviation evaluate := (evaluate KeywordPath LocalizedString sha256 gcm_open marshal_value
  sch_validate error_text UnmarshalHeaders Networked geo_Write marshal_event (M := M) (I := I)).

(** A reply to a message goes to its subject with the message's request, from which
    the event is built: but with none if the message is no request, or if its
    inspection panicked. [w] is a store that the handler may have found. *)
Definition panics (cfg : Config.Config (L := L)) (l : Loader) (req : Request) (reply_to : string) : Prop :=
  ∃ w t us e, Snapshot.sound_world yaml_decode compiler w ∧ Queue.identity t = (req, reply_to) ∧
    inspect KeywordPath LocalizedString sha256 gcm_open marshal_value sch_validate error_text
      UnmarshalHeaders Networked geo_Write (handler_of cfg l (Snapshot.store w)) t us = Err e.

Definition accounts (cfg : Config.Config (L := L)) (l : Loader) (m : string * string) (x : sent) : Prop :=
  st_subject x = m.2 ∧
  match Parse UnmarshalRequest m.1 with
  | inl req => st_req x = Some req ∨ st_req x = None ∧ panics cfg l req m.2
  | inr _ => st_req x = None
  end.

Definition accounted (p : process) (log : list sent) : Prop :=
  Forall (λ x, ∃ m, m ∈ pr_messages p ∧ accounts (pr_cfg p) (pr_loader p) m x) log.

(** The tasks come from messages. *)
Definition tasks_from (p : process) : Prop :=
  Forall (λ t, ∃ data, (data, Queue.Task_Reply t) ∈ pr_messages p ∧
    Parse UnmarshalRequest data = inl (Queue.Task_Req t)) (Queue.arrived (pr_pool p)).

Lemma evaluate_logged cfg l w t budget shed us ts o data :
  connected o → Snapshot.sound_world yaml_decode compiler w →
  Parse UnmarshalRequest data = inl (Queue.Task_Req t) →
  ∃ log, logged o (evaluate (handler_of cfg l (Snapshot.store w)) t budget shed us ts o) log ∧
    Forall (accounts cfg l (data, Queue.Task_Reply t)) log.
Proof.
  intros Hc Hw Hp. assert (∀ a, ∃ log, logged o (answer_task marshal_event ts t a o) log ∧
    Forall (accounts cfg l (data, Queue.Task_Reply t)) log) as Ha.
  { intros a. unfold answer_task.
    destruct (send_logged ts (Queue.Task_Reply t) (an_reply a) (Some (Queue.Task_Req t))
      (an_details a) (add_writes (an_writes a) o)) as (log & Hl & Hf); [exact Hc|].
    exists log. split; [by eapply logged_writes|]. eapply Forall_impl; [exact Hf|].
    intros x [Hs Hr]. split; [done|]. cbn. rewrite Hp. by left. }
  unfold Handler.evaluate. destruct (negb _); [apply Ha|].
  destruct (inspect _ _ _ _ _ _ _ _ _ _ _ _ _) as [a|e] eqn:Ei; [apply Ha|].
  unfold recoverInto. destruct (is_empty _).
  { exists []. split; [by apply logged_same|constructor]. }
  destruct (send_logged ts (Queue.Task_Reply t)
    (FallbackReply (RID (Queue.Task_Req t)) (cfg_name (handler_of cfg l (Snapshot.store w))) CodeInternalError)
    None no_details o) as (log & Hl & Hf); [exact Hc|].
  exists log. split; [exact Hl|]. eapply Forall_impl; [exact Hf|]. intros x [Hs Hr].
  split; [done|]. cbn. rewrite Hp. right. split; [done|]. by exists w, t, us, e.
Qed.

Lemma receive_logged cfg l w ts data reply_to o o' t :
  connected o → receive UnmarshalRequest (handler_of cfg l w) ts data reply_to o = (o', t) →
  ∃ log, logged o o' log ∧ Forall (accounts cfg l (data, reply_to)) log.
Proof.
  intros Hc. unfold Handler.receive. destruct (Parse UnmarshalRequest data) as [req|pe] eqn:Ep.
  - assert (∀ reply det, ∃ log, logged o (send marshal_event ts reply_to reply (Some req) det o) log ∧
      Forall (accounts cfg l (data, reply_to)) log) as Hs.
    { intros reply det. destruct (send_logged ts reply_to reply (Some req) det o Hc) as (log & Hl & Hf).
      exists log. split; [done|]. eapply Forall_impl; [exact Hf|]. intros x [Hs Hr].
      split; [done|]. cbn. rewrite Ep. by left. }
    destruct (negb _); [intros [= <- _]; apply Hs|].
    destruct (Request_Release req). { intros [= <- _]. exists []. split; [by apply logged_same|constructor]. }
    destruct (_ && _); intros [= <- _]; [apply Hs|]. exists []. split; [by apply logged_same|constructor].
  - intros [= <- _]. destruct (send_logged ts reply_to (FallbackReply (ParseError_RID pe)
      (cfg_name (handler_of cfg l w)) CodeMalformedRequest) None no_details o Hc) as (log & Hl & Hf).
    exists log. split; [done|]. eapply Forall_impl; [exact Hf|]. intros x [Hs Hr].
    split; [done|]. cbn. by rewrite Ep.
Qed.

(** What a step of the process adds to what it sent. *)
Lemma step_logged (p p' : process) :
  process_step p p' → process_ok p → tasks_from p → connected (pr_out p) →
  ∃ log, logged (pr_out p) (pr_out p') log ∧ accounted p' log.
Proof.
  intros Hs Hok Ht Hc. assert (∀ m (log : list sent), m ∈ pr_messages p' →
    Forall (accounts (pr_cfg p') (pr_loader p') m) log → accounted p' log) as Hacc.
  { intros m log Hm Hf. eapply Forall_impl; [exact Hf|]. intros x Hx. by exists m. }
  destruct Hs as [cfg l st pl o ms st' Hs|cfg l st pl o ms ts data reply_to o' Hm
    |cfg l st pl o ms ts data reply_to o' t Hm|cfg l st pl o ms pl' Hp Eh Ea
    |cfg l st pl o ms pl' c us ts Hp Eh]; cbn in *.
  - exists []. split; [by apply logged_same|constructor].
  - destruct (receive_logged _ _ _ _ _ _ _ _ _ Hc Hm) as (log & Hl & Hf). exists log.
    split; [done|]. eapply Hacc; [|exact Hf]. rewrite elem_of_app, list_elem_of_singleton. by right.
  - destruct (receive_logged _ _ _ _ _ _ _ _ _ Hc Hm) as (log & Hl & Hf). exists log.
    split; [done|]. eapply Hacc; [|exact Hf]. rewrite elem_of_app, list_elem_of_singleton. by right.
  - exists []. split; [by apply logged_same|constructor].
  - destruct Hok as [Hst Hpl _]. pose proof (Queue.sound_step _ _ Hp Hpl) as Hpl'.
    destruct (call_submitted _ _ _ Hp Eh Hpl') as (_ & t & Hin & Ht').
    unfold tasks_from in Ht. rewrite Forall_forall in Ht. destruct (Ht _ Hin) as (data & Hm & Hpa).
    cbn in Hm. injection Ht' as E1 E2. rewrite <- E1 in Hpa. rewrite <- E2 in Hm.
    destruct (evaluate_logged cfg l st _ (Queue.call_budget c) (Queue.call_shed c) us ts o data Hc Hst Hpa)
      as (log & Hl & Hf). exists log. split; [done|]. by eapply Hacc.
Qed.

Lemma step_tasks (p p' : process) :
  process_step p p' → process_ok p → tasks_from p → tasks_from p'.
Proof.
  intros Hs Hok Ht. unfold tasks_from in *.
  destruct Hs as [cfg l st pl o ms st' Hs|cfg l st pl o ms ts data reply_to o' Hm
    |cfg l st pl o ms ts data reply_to o' t Hm|cfg l st pl o ms pl' Hp Eh Ea
    |cfg l st pl o ms pl' c us ts Hp Eh]; cbn in *.
  - done.
  - eapply Forall_impl; [exact Ht|]. intros t (d & Hd & Hp). exists d. split; [|done].
    rewrite elem_of_app. by left.
  - apply task_due in Hm as Hd. pose proof (receive_cases (I := I) marshal_event UnmarshalRequest
      (handler_of cfg l (Snapshot.store st)) ts data reply_to o) as Hc. rewrite Hm in Hc.
    destruct Hc as (_ & Er & Hp & _). apply Forall_app. split.
    + eapply Forall_impl; [exact Ht|]. intros t' (d & Hd' & Hp'). exists d. split; [|done].
      rewrite elem_of_app. by left.
    + apply Forall_singleton. exists data. cbn. rewrite Er, elem_of_app, list_elem_of_singleton. auto.
  - by rewrite Ea.
  - destruct Hok as [_ Hpl _]. destruct (call_submitted _ _ _ Hp Eh (Queue.sound_step _ _ Hp Hpl)) as [-> _].
    done.
Qed.

(** What is accounted for stays so. *)
Lemma accounted_step (p p' : process) log : process_step p p' → accounted p log → accounted p' log.
Proof.
  intros Hs Ha. eapply Forall_impl; [exact Ha|]. intros x (m & Hm & Hx). exists m.
  destruct Hs; cbn in *; (split; [|done]); try done; rewrite elem_of_app; by left.
Qed.

(** *** Main's goroutine *)

(** Where [run] is: before the signal; the contexts are cancelled; [Drain] has
    returned; in [pool.Close], before and after the flag is set; in
    [auditSink.Close]; [run] has returned. *)
Inductive stage := Serving | Cancelled | Drained | Closing | Joining | Flushing | Exited.

#[export] Instance stage_eq_dec : EqDecision stage.
Proof. solve_decision. Defined.

Record life := Life { lf_stage : stage; lf_process : process; lf_sink : Sink.process }.

Definition with_pool (pl : Queue.system) (p : process) : process :=
  Process (pr_cfg p) (pr_loader p) (pr_store p) pl (pr_out p) (pr_messages p).
Definition with_sink (s : Sink) (p : process) : process :=
  let o := pr_out p in
  Process (pr_cfg p) (pr_loader p) (pr_store p) (pr_pool p)
    (Outbox (Some s) (published o) (writes o) (events o)) (pr_messages p).

(** The sink's goroutine finds what the handlers added. *)
Fixpoint absorb (its : list item) (q : Sink.process) : Sink.process :=
  match its with
  | [] => q
  | it :: its =>
      absorb its (Sink.Process (add_item it (Sink.sk q)) (Sink.loop q) (Sink.stop q) (Sink.once q)
        (Sink.closers q) (Sink.everything q ++ [it]) (Sink.sent q))
  end.

(** Main's call of [auditSink.Close] is the only one. *)
Definition calling (q : Sink.process) : Sink.process :=
  Sink.Process (Sink.sk q) (Sink.loop q) (Sink.stop q) (Sink.once q)
    (<[0%nat := Sink.Entered]> (Sink.closers q)) (Sink.everything q) (Sink.sent q).

Inductive life_step : life → life → Prop :=
(** The subscription, the pool's goroutines, the watchers. *)
| life_run st p p' q its :
    st ≠ Exited → process_step p p' →
    Queue.stop (pr_pool p') = Queue.stop (pr_pool p) →
    Queue.closed (Queue.pool (pr_pool p')) = Queue.closed (Queue.pool (pr_pool p)) →
    events (pr_out p') = (events (pr_out p) ++ its)%list →
    life_step (Life st p q) (Life st p' (absorb its q))
(** The sink's goroutine, and Main in [Close]. *)
| life_flush st p q q' :
    st ≠ Exited → Sink.step q q' → Sink.everything q' = Sink.everything q →
    dom (Sink.closers q') = dom (Sink.closers q) →
    life_step (Life st p q) (Life st (with_sink (Sink.sk q') p) q')
(** [waitForSignal] returns and [stop] cancels; [sub.Drain]. *)
| life_signal p q : life_step (Life Serving p q) (Life Cancelled p q)
| life_drain p q : life_step (Life Cancelled p q) (Life Drained p q)
(** [pool.Close]. *)
| life_channel p q :
    life_step (Life Drained p q) (Life Closing (with_pool (Queue.close_channel (pr_pool p)) p) q)
| life_flag p q :
    life_step (Life Closing p q) (Life Joining (with_pool (Queue.close_flag (pr_pool p)) p) q)
(** It returns, and [auditSink.Close] is called; that returns. *)
| life_joined p q :
    Queue.joined (pr_pool p) → life_step (Life Joining p q) (Life Flushing p (calling q))
| life_exit p q :
    Sink.closers q !! 0%nat = Some Sink.Returned →
    life_step (Life Flushing p q) (Life Exited p q).

(** [run] goes on from [run_start]. *)
Definition serving (p : process) : life := Life Serving p (Sink.started true).

Abbreviation due cfg := (due UnmarshalRequest (Config.Versions cfg)).
Abbreviation server_step cfg := (server_step UnmarshalRequest (Config.Versions cfg)).

(** What the parts have in each stage. *)
Definition stage_ok (s : life) : Prop :=
  let pl := pr_pool (lf_process s) in
  let cs := Sink.closers (lf_sink s) in
  match lf_stage s with
  | Serving | Cancelled | Drained => Queue.stop pl = false ∧ cs = ∅
  | Closing => Queue.stop pl = true ∧ cs = ∅
  | Joining => Queue.closed (Queue.pool pl) = true ∧ cs = ∅
  | Flushing => Queue.joined pl ∧ dom cs = {[0%nat]}
  | Exited => Queue.joined pl ∧ dom cs = {[0%nat]} ∧ cs !! 0%nat = Some Sink.Returned
  end.

Record life_ok (cfg : Config.Config (L := L)) (s : life) : Prop := {
  lo_process : process_ok (lf_process s);
  lo_cfg : pr_cfg (lf_process s) = cfg;
  lo_refines : ∃ a, rtc (server_step cfg) (Server [] [] []) a ∧ refines (lf_process s) a;
  lo_log : ∃ log, published (pr_out (lf_process s)) = answer_of <$> log ∧
             events (pr_out (lf_process s)) = omap event_of log ∧ accounted (lf_process s) log;
  lo_sink : sink (pr_out (lf_process s)) = Some (Sink.sk (lf_sink s));
  lo_nc : nc (Sink.sk (lf_sink s)) = true;
  lo_events : Sink.everything (lf_sink s) = events (pr_out (lf_process s));
  lo_run : rtc Sink.step (Sink.started true) (lf_sink s);
  lo_stage : stage_ok s;
  lo_tasks : tasks_from (lf_process s)
}.

Lemma started_serving m fs0 fs0' fs1 now p :
  run_start m fs0 fs0' fs1 now = Ok p → life_ok (pr_cfg p) (serving p).
Proof.
  intros Hst. destruct (started_ok _ _ _ _ _ _ Hst) as [Hok Hr].
  revert Hst. unfold run_start. intros (cfg & _ & H1)%bind_ok. apply bind_ok in H1 as (s & _ & H1).
  destruct (Desired.Bootstrap _ _ _ _ _ s) as [s' restored].
  apply bind_ok in H1 as (l & _ & H1). do 4 (apply seq_ok in H1 as [_ H1]). injection H1 as <-.
  split; try done.
  - by eexists.
  - exists []. split; [done|]. split; [done|constructor].
  - constructor.
Qed.

Lemma joined_run pl pl' :
  rtc Queue.pool_step pl pl' → Queue.sound pl → Queue.joined pl → Queue.joined pl'.
Proof.
  induction 1 as [|pl1 pl2 pl3 Hp _ IH]; [done|]. intros Hs Hj.
  apply IH; [by eapply Queue.sound_step|by eapply Queue.joined_stays].
Qed.

Lemma absorb_run its : ∀ q, rtc Sink.step q (absorb its q).
Proof.
  induction its as [|it its IH]; intros [sk l b o cs ev out]; [done|].
  eapply rtc_l; [apply Sink.step_add|]. apply IH.
Qed.

Lemma absorb_fields its : ∀ q,
  Sink.sk (absorb its q) = feed (Sink.sk q) its ∧ Sink.closers (absorb its q) = Sink.closers q ∧
  Sink.everything (absorb its q) = (Sink.everything q ++ its)%list.
Proof.
  induction its as [|it its IH]; intros q; [cbn; by rewrite app_nil_r|].
  cbn [absorb]. edestruct IH as (-> & -> & ->). cbn. by rewrite <- app_assoc.
Qed.

(** The steps of Main that close the pool are steps of the process. *)
Lemma close_steps (p : process) :
  (Queue.stop (pr_pool p) = false →
     process_step p (with_pool (Queue.close_channel (pr_pool p)) p)) ∧
  (Queue.stop (pr_pool p) = true → process_step p (with_pool (Queue.close_flag (pr_pool p)) p)).
Proof.
  destruct p as [cfg l st pl o ms]. split; intros Hs.
  - by apply on_pool; [apply Queue.close_channel_step|..].
  - by apply on_pool; [apply Queue.close_flag_step|..].
Qed.

(** A step of the process keeps what the serving process promises. *)
Lemma ok_process cfg st p p' q its :
  life_ok cfg (Life st p q) → process_step p p' →
  process_ok p' ∧ pr_cfg p' = cfg ∧ tasks_from p' ∧
  (∃ a, rtc (server_step cfg) (Server [] [] []) a ∧ refines p' a) ∧
  (events (pr_out p') = (events (pr_out p) ++ its)%list →
   (∃ log, published (pr_out p') = answer_of <$> log ∧ events (pr_out p') = omap event_of log ∧
      accounted p' log) ∧
   sink (pr_out p') = Some (feed (Sink.sk q) its)).
Proof.
  intros [Hok Hcfg (a & Ha & Hf) (log & Hp & He & Hacc) Hsk Hnc Hev Hrun Hst Htk] Hs. cbn in *.
  split; [by eapply step_ok|]. split; [by rewrite (step_cfg _ _ Hs)|].
  split; [by eapply step_tasks|].
  split. { destruct (step_refines _ _ _ Hok Hs Hf) as (a' & Ha' & Hf' & _). rewrite Hcfg in Ha'.
    exists a'. split; [by etrans|done]. }
  intros Hits.
  destruct (step_logged _ _ Hs) as (new & [Lp Le Ls] & Hnew); [done|done|by eexists|].
  rewrite Le in Hits. apply app_inv_head in Hits as <-. split.
  - exists (log ++ new)%list. split; [by rewrite Lp, Hp, fmap_app|]. split; [by rewrite Le, He, omap_app|].
    apply Forall_app. split; [by eapply accounted_step|done].
  - by rewrite Ls, Hsk.
Qed.

(** A stage's facts survive what the others do. *)
Lemma stage_run st (p p' : process) q its :
  process_ok p → process_step p p' → st ≠ Exited →
  Queue.stop (pr_pool p') = Queue.stop (pr_pool p) →
  Queue.closed (Queue.pool (pr_pool p')) = Queue.closed (Queue.pool (pr_pool p)) →
  stage_ok (Life st p q) → stage_ok (Life st p' (absorb its q)).
Proof.
  intros Hok Hs Hne E1 E2. destruct (absorb_fields its q) as (_ & Ec & _).
  pose proof (joined_run _ _ (process_pool _ _ Hs) (po_pool _ Hok)) as Hj.
  unfold stage_ok. cbn. rewrite Ec, E1, E2. destruct st; try done; intros [H1 H2]; auto.
Qed.

Lemma stage_sink st (p : process) q q' :
  st ≠ Exited → dom (Sink.closers q') = dom (Sink.closers q) →
  stage_ok (Life st p q) → stage_ok (Life st (with_sink (Sink.sk q') p) q').
Proof.
  intros Hne Hd. assert (Sink.closers q = ∅ → Sink.closers q' = ∅) as He.
  { intros E. rewrite E, dom_empty_L in Hd. by apply dom_empty_inv_L in Hd. }
  unfold stage_ok. cbn. rewrite Hd. destruct st; try done; naive_solver.
Qed.

Lemma with_sink_refines s (p : process) a : refines p a → refines (with_sink s p) a.
Proof. by intros []. Qed.

Lemma with_sink_ok s (p : process) : process_ok p → process_ok (with_sink s p).
Proof. by intros []. Qed.

(** The handler adds to the sink and the sink's goroutine takes from it, and
    neither changes what the connection is. *)
Lemma sink_step_nc q q' : Sink.step q q' → nc (Sink.sk q') = nc (Sink.sk q).
Proof.
  intros Hs. destruct Hs as [s l b o cs ev out it| | | |s s' batch fin b o cs ev out Ht| | | | | |];
    cbn; try done.
  - unfold add_item. by case_bool_decide.
  - unfold take_batch in Ht. case_bool_decide; [done|]. by injection Ht as _ <-.
Qed.

Lemma life_step_ok cfg s s' : life_ok cfg s → life_step s s' → life_ok cfg s'.
Proof.
  intros Hl Hs. destruct Hs as [st p p' q its Hne Hs E1 E2 E3|st p q q' Hne Hs Ee Ed|p q|p q|p q|p q|p q Hj|p q Hc].
  - destruct (ok_process _ _ _ _ _ its Hl Hs) as (H1 & H2 & H0 & H3 & H4).
    destruct (H4 E3) as (H5 & H6). destruct Hl as [Hok _ _ _ Hsk Hnc Hev Hrun Hst _]. cbn in *.
    destruct (absorb_fields its q) as (F1 & F2 & F3).
    split; cbn; try done.
    + by rewrite F1.
    + by rewrite F1, feed_nc.
    + by rewrite F3, Hev, E3.
    + etrans; [exact Hrun|apply absorb_run].
    + by eapply (stage_run _ p).
  - destruct Hl as [Hok Hcfg (a & Ha & Hf) Hlog Hsk Hnc Hev Hrun Hst Htk]. cbn in *.
    split; cbn; try done.
    + by apply with_sink_ok.
    + exists a. split; [done|]. by apply with_sink_refines.
    + by rewrite (sink_step_nc _ _ Hs).
    + by rewrite Ee.
    + by eapply rtc_r.
    + by eapply (stage_sink _ _ q).
  - destruct Hl as [Hok Hcfg Hf Hlog Hsk Hnc Hev Hrun Hst Htk]. by split.
  - destruct Hl as [Hok Hcfg Hf Hlog Hsk Hnc Hev Hrun Hst Htk]. by split.
  - pose proof (lo_stage _ _ Hl) as [Hst Hcs].
    destruct (ok_process _ _ _ _ _ [] Hl (proj1 (close_steps p) Hst)) as (H1 & H2 & H0 & H3 & H4).
    destruct Hl. by split.
  - pose proof (lo_stage _ _ Hl) as [Hst Hcs].
    destruct (ok_process _ _ _ _ _ [] Hl (proj2 (close_steps p) Hst)) as (H1 & H2 & H0 & H3 & H4).
    destruct Hl. by split.
  - destruct Hl as [Hok Hcfg Hf Hlog Hsk Hnc Hev Hrun [Hst Hcs] Htk]. cbn in *. split; try done; cbn.
    + eapply rtc_r; [exact Hrun|]. destruct q as [s l b o cs ev out]. apply Sink.step_close.
      cbn in Hcs. by rewrite Hcs.
    + split; [done|]. cbn. by rewrite dom_insert_L, Hcs, dom_empty_L, union_empty_r_L.
  - destruct Hl as [Hok Hcfg Hf Hlog Hsk Hnc Hev Hrun [Hst Hcs] Htk]. by split.
Qed.

Lemma life_run_ok cfg s s' : rtc life_step s s' → life_ok cfg s → life_ok cfg s'.
Proof. induction 1; eauto using life_step_ok. Qed.

(** What the sink's goroutine does in the process is a run of its own. *)
Lemma life_sink_run cfg s s' :
  rtc life_step s s' → life_ok cfg s → rtc Sink.step (lf_sink s) (lf_sink s').
Proof.
  induction 1 as [|s1 s2 s3 Hs _ IH]; intros Hl; [done|].
  etrans; [|apply IH; by eapply life_step_ok].
  destruct Hs; cbn; try done.
  - apply absorb_run.
  - by apply rtc_once.
  - destruct Hl as [_ _ _ _ _ _ _ _ [_ Hcs] _]. cbn in Hcs. apply rtc_once.
    destruct q as [sk l b o cs ev out]. apply Sink.step_close. cbn in Hcs. by rewrite Hcs.
Qed.

(** *** What the exit leaves behind *)

(** [auditSink.Close] has not been called. *)
Definition sink_open (st : stage) : bool :=
  match st with Flushing | Exited => false | _ => true end.

Lemma open_closers s : stage_ok s → sink_open (lf_stage s) = true → Sink.closers (lf_sink s) = ∅.
Proof. unfold stage_ok. destruct (lf_stage s); cbn; try done; tauto. Qed.

(** When the pool has been closed, the only questions open are those of messages
    that are still being submitted. *)
Lemma joined_answers cfg s :
  life_ok cfg s → Queue.joined (pr_pool (lf_process s)) →
  answered (published (pr_out (lf_process s))) ++ omap wanted (Queue.submitting (pr_pool (lf_process s)))
    ≡ₚ omap (due cfg) (pr_messages (lf_process s)).
Proof.
  intros Hl Hj. destruct (lo_refines _ _ Hl) as (a & Ha & [Em Eo Es]).
  apply reachable_promise in Ha as [Hp _]. rewrite Em, Es, Eo in Hp.
  destruct (Queue.joined_pending _ (po_pool _ (lo_process _ _ Hl)) (po_workers _ (lo_process _ _ Hl)) Hj)
    as [Hpend _].
  by rewrite Hpend in Hp.
Qed.

(** C4. The exit. When [run] has returned, every message that was delivered has been
    answered, but for those whose [Submit] was still running. Every reply sent went to
    the subject of a message and was sent with that message's request, unless the
    message was no request or its inspection panicked; and every reply sent with a
    request that names an audit subject has its event with the sink, in the order of
    the replies. Of these events, those added before [auditSink.Close] was called are
    on the bus, less the ones the sink counts as dropped; and what the messages of an
    audit subject carry are documents of the events of that subject, in the order of
    the replies and each at most once. *)
Theorem exit_complete m fs0 fs0' fs1 now p0 s1 s2 :
  run_start m fs0 fs0' fs1 now = Ok p0 →
  rtc life_step (serving p0) s1 → sink_open (lf_stage s1) = true →
  rtc life_step s1 s2 → lf_stage s2 = Exited →
  let p := lf_process s2 in
  let q := lf_sink s2 in
  answered (published (pr_out p)) ++ omap wanted (Queue.submitting (pr_pool p))
    ≡ₚ omap (due (pr_cfg p0)) (pr_messages p) ∧
  ∃ log, published (pr_out p) = answer_of <$> log ∧ accounted p log ∧
    Sink.everything q = omap event_of log ∧
    pending (Sink.sk q) `suffix_of` drop (length (Sink.everything (lf_sink s1))) (Sink.everything q) ∧
    sublist (mjoin (Sink.sent q) ++ pending (Sink.sk q)) (Sink.everything q) ∧
    dropped (Sink.sk q) = (len (Sink.everything q) -
      len (mjoin (Sink.sent q) ++ pending (Sink.sk q))%list) mod 2 ^ 64 ∧
    ∀ subj, sublist (read_on subj (Sink.sent q ≫= AuditLog.publish)) (omap (event_for subj) log).
Proof.
  intros Hst Hr1 Hopen Hr2 Hex. cbv zeta.
  pose proof (life_run_ok _ _ _ Hr1 (started_serving _ _ _ _ _ _ Hst)) as Hl1.
  pose proof (life_run_ok _ _ _ Hr2 Hl1) as Hl2.
  pose proof (lo_stage _ _ Hl2) as Hs2. unfold stage_ok in Hs2. rewrite Hex in Hs2.
  destruct Hs2 as (Hj & _ & Hc). split; [by apply joined_answers|].
  destruct (lo_log _ _ Hl2) as (log & Hp & He & Hacc). exists log. split; [done|]. split; [done|].
  rewrite (lo_events _ _ Hl2). split; [done|].
  pose proof (Sink.reachable_closing _ _ (lo_run _ _ Hl1)) as Hcl.
  assert (Sink.stop (lf_sink s1) = false) as Hstop.
  { pose proof (open_closers _ (lo_stage _ _ Hl1) Hopen) as Hcs.
    destruct (Sink.stop (lf_sink s1)) eqn:E; [|done].
    apply (Sink.co_stop _ Hcl) in E. by apply (Sink.co_called _ Hcl) in E. }
  destruct (Sink.returned_published true _ (lf_sink s2) 0 (lo_run _ _ Hl1) Hstop) as (_ & H1 & H2 & H3).
  - by eapply life_sink_run.
  - done.
  - rewrite (lo_events _ _ Hl2) in H1, H2, H3. split; [done|]. split; [done|]. split; [done|].
    intros subj. apply read_log. rewrite <- He. etrans; [|exact H2]. by apply sublist_inserts_r.
Qed.

(** *** The exit is reached *)

(** A step of a goroutine of the process that is not waiting for anything: of the
    pool's, of the sink's loop, of a call of its [Close], or of Main. Time, tickers,
    timers, messages, the watchers and signals other than the one for Main are left
    out. *)
Inductive go_step : life → life → Prop :=
| go_pool st p p' q its :
    st ≠ Exited → Queue.work_step (pr_pool p) (pr_pool p') → process_step p p' →
    pr_messages p' = pr_messages p → events (pr_out p') = (events (pr_out p) ++ its)%list →
    go_step (Life st p q) (Life st p' (absorb its q))
| go_sink st p q q' :
    st ≠ Exited → Sink.work_step q q' → go_step (Life st p q) (Life st (with_sink (Sink.sk q') p) q')
| go_main s s' : life_step s s' → lf_stage s' ≠ lf_stage s → go_step s s'.

Lemma go_life s s' : go_step s s' → life_step s s'.
Proof.
  destruct 1 as [st p p' q its Hne Hw Hp _ He|st p q q' Hne Hw|s s' Hs _]; [| |done].
  - destruct (Queue.work_kept _ _ Hw) as (E1 & E2 & _). by apply life_run.
  - destruct (Sink.work_inner _ _ Hw) as [H1 H2 H3]. by apply life_flush.
Qed.

Lemma go_run s s' : rtc go_step s s' → rtc life_step s s'.
Proof. induction 1; [done|]. eapply rtc_l; [by apply go_life|done]. Qed.

Definition stages_left (st : stage) : nat :=
  match st with
  | Serving => 6 | Cancelled => 5 | Drained => 4 | Closing => 3 | Joining => 2 | Flushing => 1
  | Exited => 0
  end.

Lemma stage_advances s s' :
  life_step s s' → lf_stage s' ≠ lf_stage s → (stages_left (lf_stage s') < stages_left (lf_stage s))%nat.
Proof. destruct 1; cbn; (done || lia). Qed.

Lemma stage_closers s : stage_ok s → dom (Sink.closers (lf_sink s)) ⊆ {[0%nat]}.
Proof.
  assert (∀ q, Sink.closers q = ∅ → dom (Sink.closers q) ⊆ ({[0%nat]} : gset nat)) as H0
    by (intros q ->; set_solver).
  unfold stage_ok. destruct (lf_stage s); intros [? Hx]; auto; [by rewrite Hx|by destruct Hx as [-> _]].
Qed.

Lemma go_ok cfg s s' : life_ok cfg s → go_step s s' → life_ok cfg s'.
Proof. intros Hl Hs. eapply life_step_ok; [exact Hl|by apply go_life]. Qed.

(** However they take their turns, they come to an end: the stages go one way, in
    each the pool comes to rest, and then the sink. *)
Lemma go_ends cfg s : life_ok cfg s → sn go_step s.
Proof.
  remember (stages_left (lf_stage s)) as n eqn:En. revert s En.
  induction (lt_wf n) as [n _ IHn]. intros s En Hl.
  pose proof (Queue.work_ends _ (po_pool _ (lo_process _ _ Hl))) as Hsn.
  remember (pr_pool (lf_process s)) as pl eqn:Epl. revert s En Hl Epl.
  induction Hsn as [pl _ IHpl]. intros s En Hl Epl.
  remember (Sink.weight (lf_sink s)) as k eqn:Ek. revert s En Hl Epl Ek.
  induction (lt_wf k) as [k _ IHk]. intros s En Hl Epl Ek. constructor. intros s' Hs.
  pose proof (go_ok _ _ _ Hl Hs) as Hl'. pose proof (stage_closers _ (lo_stage _ _ Hl)) as Hc.
  destruct Hs as [st p p' q its Hne Hw Hp _ He|st p q q' Hne Hw|s s' Hs Hst].
  - subst pl. by eapply IHpl.
  - eapply IHk; [|done..]. rewrite Ek. by apply Sink.work_lighter.
  - eapply IHn; [|done|done]. rewrite En. by apply stage_advances.
Qed.

Lemma lo_connected cfg s : life_ok cfg s → connected (pr_out (lf_process s)).
Proof. intros Hl. eexists. split; [apply (lo_sink _ _ Hl)|apply (lo_nc _ _ Hl)]. Qed.

(** The pool's goroutines go on in the process. *)
Lemma pool_goes cfg st (p : process) q pl :
  st ≠ Exited → life_ok cfg (Life st p q) → Queue.work_step (pr_pool p) pl →
  ∃ p' its, go_step (Life st p q) (Life st p' (absorb its q)) ∧ pr_pool p' = pl.
Proof.
  intros Hne Hl Hw. pose proof (Queue.work_kept _ _ Hw) as (_ & _ & Ea).
  pose proof (lo_connected _ _ Hl) as Hc. pose proof (lo_process _ _ Hl) as Hok.
  pose proof (lo_tasks _ _ Hl) as Htk. clear Hl.
  destruct p as [cf l sto pl0 o ms]. cbn in *.
  assert (∃ o', process_step (Process cf l sto pl0 o ms) (Process cf l sto pl o' ms)) as (o' & Hp).
  { destruct (Queue.step_kinds _ _ (Queue.on_work _ _ Hw)) as [[_ Hh]|[(t & Ht & _)|(c & _ & Hh)]].
    - eexists. apply on_pool; [by apply Queue.on_work|done..].
    - apply (f_equal length) in Ht. rewrite Ea, length_app in Ht. cbn in Ht. lia.
    - eexists. apply (on_call _ _ _ _ _ _ _ c 0 ""); [by apply Queue.on_work|done]. }
  destruct (step_logged _ _ Hp Hok Htk Hc) as (log & Hlog & _). cbn in Hlog.
  exists (Process cf l sto pl o' ms), (omap event_of log). split; [|done].
  apply go_pool; [done|exact Hw|exact Hp|done|apply Hlog].
Qed.

(** Before the exit somebody can go on. *)
Lemma go_progress cfg s : life_ok cfg s → lf_stage s ≠ Exited → red go_step s.
Proof.
  intros Hl Hne. pose proof (lo_stage _ _ Hl) as Hst. pose proof (lo_process _ _ Hl) as Hok.
  pose proof (Sink.reachable_closing _ _ (lo_run _ _ Hl)) as Hcl.
  destruct s as [st p q]. unfold stage_ok in Hst. cbn in *. destruct st; try done.
  - eexists. by apply go_main; [apply life_signal|].
  - eexists. by apply go_main; [apply life_drain|].
  - eexists. by apply go_main; [apply life_channel|].
  - eexists. by apply go_main; [apply life_flag|].
  - destruct Hst as [Hcd _].
    destruct (Queue.work_progress _ (po_pool _ Hok) (po_workers _ Hok)) as [Hr|[pl Hw]].
    + eexists. apply go_main; [apply life_joined|done].
      by apply (Queue.rest_joined _ (po_pool _ Hok)).
    + destruct (pool_goes cfg Joining p q pl) as (p' & its & Hs & _); [done..|]. by eexists.
  - destruct Hst as [_ Hd]. assert (is_Some (Sink.closers q !! 0%nat)) as [x Hx].
    { apply elem_of_dom. rewrite Hd. set_solver. }
    destruct (Sink.caller_goes _ _ Hcl Hd Hx) as [->|[q' Hw]].
    + eexists. by apply go_main; [apply life_exit|].
    + eexists. by apply go_sink.
Qed.

Lemma go_run_ok cfg s s' : rtc go_step s s' → life_ok cfg s → life_ok cfg s'.
Proof. intros Hr. by apply life_run_ok, go_run. Qed.

(** After it nobody does. *)
Lemma exited_stays s : lf_stage s = Exited → nf go_step s.
Proof.
  intros He [s' Hs]. destruct Hs as [st p p' q its Hne Hw Hp Hm Hev|st p q q' Hne Hw|s s' Hs Hst]; cbn in *.
  - done.
  - done.
  - by destruct Hs; cbn in *.
Qed.

(** From a stage to the exit. *)
Lemma go_exits cfg s : life_ok cfg s → ∃ s', rtc go_step s s' ∧ lf_stage s' = Exited.
Proof.
  intros Hl. pose proof (go_ends _ _ Hl) as Hsn. induction Hsn as [s _ IH].
  destruct (decide (lf_stage s = Exited)) as [?|Hne]; [by exists s|].
  destruct (go_progress _ _ Hl Hne) as [s1 Hs].
  destruct (IH s1 Hs (go_ok _ _ _ Hl Hs)) as (s' & Hr & He). exists s'. split; [by eapply rtc_l|done].
Qed.

(** The pool may come to rest before anything else. *)
Lemma pool_goes_on cfg st (p : process) q pl :
  st ≠ Exited → life_ok cfg (Life st p q) → rtc Queue.work_step (pr_pool p) pl →
  ∃ p' its, rtc go_step (Life st p q) (Life st p' (absorb its q)) ∧ pr_pool p' = pl.
Proof.
  intros Hne Hl Hr. remember (pr_pool p) as pl0 eqn:E. revert p q E Hl.
  induction Hr as [pl|pl0 pl1 pl Hs Hr IH]; intros p q E Hl.
  { exists p, []. by split. }
  subst pl0. destruct (pool_goes cfg st p q pl1 Hne Hl Hs) as (p1 & its & H1 & E1).
  destruct (IH p1 (absorb its q)) as (p' & its' & Hrun & Hpl); [done|by eapply go_ok|].
  exists p', (its ++ its')%list. split; [|done].
  assert (∀ k l q, absorb (l ++ k) q = absorb k (absorb l q)) as ->.
  { intros k l1. induction l1 as [|it l1 IHl]; intros q1; [done|]. apply IHl. }
  by eapply rtc_l.
Qed.

Lemma go_messages s s' : rtc go_step s s' → pr_messages (lf_process s') = pr_messages (lf_process s).
Proof.
  induction 1 as [|s1 s2 s3 Hs _ IH]; [done|]. rewrite IH.
  destruct Hs as [st p p' q its Hne Hw Hp Hm He|st p q q' Hne Hw|s s' Hs Hst]; [done|done|].
  by destruct Hs.
Qed.

(** When nobody is in [Submit], nobody gets there without a message. *)
Lemma go_submitters s s' :
  rtc go_step s s' → Queue.submitters (pr_pool (lf_process s)) = [] →
  Queue.submitters (pr_pool (lf_process s')) = [].
Proof.
  induction 1 as [|s1 s2 s3 Hs _ IH]; [done|]. intros E. apply IH.
  destruct Hs as [st p p' q its Hne Hw Hp Hm He|st p q q' Hne Hw|s s' Hs Hst]; cbn in *.
  - destruct Hw; cbn in *; try done. by apply app_eq_nil in E as [_ ?].
  - done.
  - by destruct Hs.
Qed.

(** C5. The exit is reached. From every state before it the goroutines, once the
    signal is there and with no more messages, take finitely many steps in whatever
    order; where none of them can go on, [run] has returned, and every message
    delivered has got what it is due but for those whose [Submit] is still running.
    And from every state there is such an end where every message has. *)
Theorem exit_reached m fs0 fs0' fs1 now p0 s :
  run_start m fs0 fs0' fs1 now = Ok p0 → rtc life_step (serving p0) s → lf_stage s ≠ Exited →
  sn go_step s ∧
  (∀ s', rtc go_step s s' → nf go_step s' →
     lf_stage s' = Exited ∧ pr_messages (lf_process s') = pr_messages (lf_process s) ∧
     answered (published (pr_out (lf_process s'))) ++
       omap wanted (Queue.submitting (pr_pool (lf_process s'))) ≡ₚ
       omap (due (pr_cfg p0)) (pr_messages (lf_process s))) ∧
  ∃ s', rtc go_step s s' ∧ nf go_step s' ∧
    answered (published (pr_out (lf_process s'))) ≡ₚ
      omap (due (pr_cfg p0)) (pr_messages (lf_process s)).
Proof.
  intros Hst Hr Hne. pose proof (life_run_ok _ _ _ Hr (started_serving _ _ _ _ _ _ Hst)) as Hl.
  assert (∀ s', rtc go_step s s' → lf_stage s' = Exited →
     answered (published (pr_out (lf_process s'))) ++
       omap wanted (Queue.submitting (pr_pool (lf_process s'))) ≡ₚ
       omap (due (pr_cfg p0)) (pr_messages (lf_process s))) as Hans.
  { intros s' Hr' He. pose proof (go_run_ok _ _ _ Hr' Hl) as Hl'. rewrite <- (go_messages _ _ Hr').
    apply joined_answers; [done|]. pose proof (lo_stage _ _ Hl') as Hso. unfold stage_ok in Hso.
    rewrite He in Hso. apply Hso. }
  split; [by eapply go_ends|]. split.
  { intros s' Hr' Hnf. pose proof (go_run_ok _ _ _ Hr' Hl) as Hl'.
    destruct (decide (lf_stage s' = Exited)) as [He|He];
      [|by destruct Hnf; eapply go_progress].
    split; [done|]. split; [by apply go_messages|by apply Hans]. }
  destruct s as [st p q]. cbn in Hne. pose proof (lo_process _ _ Hl) as Hok.
  destruct (Queue.sound_drains _ (po_pool _ Hok) (po_workers _ Hok)) as (pl & Hw & [Hi _ _ _] & _).
  destruct (pool_goes_on _ st p q pl Hne Hl Hw) as (p1 & its & Hr1 & <-).
  destruct (go_exits _ _ (go_run_ok _ _ _ Hr1 Hl)) as (s' & Hr2 & He). exists s'.
  assert (rtc go_step (Life st p q) s') as Hr' by by etrans. split; [done|].
  split; [by apply exited_stays|]. rewrite <- (Hans s' Hr' He).
  assert (Queue.submitting (pr_pool (lf_process s')) = []) as ->; [|by rewrite app_nil_r].
  unfold Queue.submitting. rewrite (go_submitters _ _ Hr2); [done|]. apply Hi.
Qed.
End life.

(** ** Witnesses *)

#[local] Existing Instance ascii_tables.

(** A message that is no request is answered while the process serves. *)
Lemma sample_life :
  ∃ p0 s, sample_start = Ok p0 ∧ rtc life_step (serving p0) s ∧ lf_stage s = Serving ∧
    life_ok (pr_cfg p0) s ∧ pr_messages (lf_process s) = [("bad", "inbox")].
Proof.
  assert (∃ cfg l st, sample_start = Ok (Process cfg l st
    (Queue.start 1 (Queue.New 512 2 2 "drop") 0) (Outbox (Some (NewSink true)) [] [] []) []))
    as (cfg & l & st & E) by (do 3 eexists; vm_compute; reflexivity).
  assert (∃ s, rtc life_step (serving (Process cfg l st (Queue.start 1 (Queue.New 512 2 2 "drop") 0)
      (Outbox (Some (NewSink true)) [] [] []) [])) s ∧ lf_stage s = Serving ∧
    pr_messages (lf_process s) = [("bad", "inbox")]) as (s & Hr & Hs & Hm).
  { eexists. split.
    - apply rtc_once. unfold serving. eapply (life_run _ _ _ _ []); [done|..].
      + eapply (on_message _ _ _ _ _ _ "" "bad" "inbox"). reflexivity.
      + reflexivity.
      + reflexivity.
      + reflexivity.
    - split; reflexivity. }
  exists (Process cfg l st (Queue.start 1 (Queue.New 512 2 2 "drop") 0)
    (Outbox (Some (NewSink true)) [] [] []) []), s.
  split; [exact E|]. split; [exact Hr|]. split; [exact Hs|]. split; [|exact Hm].
  eapply life_run_ok; [exact Hr|]. eapply started_serving. exact E.
Qed.

Theorem exit_complete_witness :
  ∃ p0 s1 s2, sample_start = Ok p0 ∧ rtc life_step (serving p0) s1 ∧ rtc life_step s1 s2 ∧
    lf_stage s2 = Exited ∧
    answered (published (pr_out (lf_process s2))) ++
      omap wanted (Queue.submitting (pr_pool (lf_process s2))) ≡ₚ [("inbox", "")].
Proof.
  destruct sample_life as (p0 & s1 & E & Hr1 & Hs1 & Hl & Hm).
  destruct (go_exits _ _ Hl) as (s2 & Hr2 & He).
  exists p0, s1, s2. split; [exact E|]. split; [exact Hr1|]. split; [by apply go_run|].
  split; [exact He|].
  pose proof (exit_complete _ _ _ _ _ p0 s1 s2 E Hr1) as Hx.
  rewrite Hs1 in Hx. specialize (Hx eq_refl (go_run _ _ Hr2) He). destruct Hx as [Hx _].
  rewrite Hx, (go_messages _ _ Hr2), Hm. reflexivity.
Defined.

Theorem exit_reached_witness :
  ∃ p0 s s', sample_start = Ok p0 ∧ rtc go_step s s' ∧ lf_stage s' = Exited ∧
    answered (published (pr_out (lf_process s'))) ≡ₚ [("inbox", "")].
Proof.
  destruct sample_life as (p0 & s & E & Hr & Hs & _ & Hm).
  destruct (exit_reached _ _ _ _ _ p0 s E Hr) as (_ & Hall & s' & Hr' & Hnf & Ha); [by rewrite Hs|].
  exists p0, s, s'. split; [exact E|]. split; [exact Hr'|].
  destruct (Hall s' Hr' Hnf) as (Hx & _ & _). split; [exact Hx|].
  rewrite Ha, Hm. reflexivity.
Defined.
