(* ===== verification/Flags.v ===== *)
(** * Packages flag and strconv: the arguments of a command

    [flag.Parse] over the arguments, for formals that set a field of a record:
    [-name value], [-name=value], with one dash or two; a bool flag takes no further
    argument; [--] and the first argument that is no flag end the flags. The values
    are read by [strconv.ParseInt] with base 0, by [strconv.ParseBool] and by
    [time.ParseDuration]. *)
From S2P Require Import Prelude GoString JsonWrite.
From S2P Require GoTime.

(** ** strconv *)

(** [c | 0x20], which makes a letter lower case. *)
Definition lower (c : ascii) : Z := Z.lor (code c) 32.

(** The value of a digit of a base of up to 36. *)
Definition digit36 (c : ascii) : option Z :=
  if is_digit_ascii (code c) then Some (code c - 48)
  else if (97 <=? lower c) && (lower c <=? 122) then Some (lower c - 97 + 10)
  else None.

(** What [underscoreOK] last saw. *)
Inductive saw := Begin | Digit | Underscore | Other.

Fixpoint underscores_ok (hex : bool) (l : list ascii) (last : saw) : bool :=
  match l with
  | [] => match last with Underscore => false | _ => true end
  | c :: l =>
      if is_digit_ascii (code c) || hex && (97 <=? lower c) && (lower c <=? 102)
      then underscores_ok hex l Digit
      else if Ascii.eqb c "_" then
        match last with Digit => underscores_ok hex l Underscore | _ => false end
      else
        match last with Underscore => false | _ => underscores_ok hex l Other end
  end.

Definition unsigned (l : list ascii) : list ascii :=
  match l with
  | c :: rest => if Ascii.eqb c "-" || Ascii.eqb c "+" then rest else l
  | [] => []
  end.

(** [lower(c)] is one of b, o and x. *)
Definition base_of (c : ascii) : option Z :=
  if lower c =? 98 then Some 2 else if lower c =? 111 then Some 8
  else if lower c =? 120 then Some 16 else None.

Definition underscoreOK (l : list ascii) : bool :=
  match unsigned l with
  | z :: c :: rest =>
      match base_of c with
      | Some base =>
          if Ascii.eqb z "0" then underscores_ok (base =? 16) rest Digit
          else underscores_ok false (z :: c :: rest) Begin
      | None => underscores_ok false (z :: c :: rest) Begin
      end
  | l => underscores_ok false l Begin
  end.

(** The base a prefix stands for, and the digits after it. *)
Definition prefixed (l : list ascii) : Z * list ascii :=
  match l with
  | z :: rest =>
      if Ascii.eqb z "0" then
        match rest with
        | c :: (_ :: _) as digits => default (8, rest) ((λ b, (b, tail digits)) <$> base_of c)
        | _ => (8, rest)
        end
      else (10, l)
  | [] => (10, [])
  end.

(** The digits' value in 64 bits; [seen] tells whether there were underscores. *)
Fixpoint digits_in (base : Z) (l : list ascii) (n : Z) (seen : bool) : option (Z * bool) :=
  match l with
  | [] => Some (n, seen)
  | c :: l =>
      if Ascii.eqb c "_" then digits_in base l n true
      else
        d ← digit36 c;
        if base <=? d then None
        else if 2 ^ 64 <=? n * base + d then None
        else digits_in base l (n * base + d) seen
  end.

(** [strconv.ParseUint(s, 0, 64)] and [strconv.ParseInt(s, 0, 64)]. *)
Definition parse_uint (l : list ascii) : option Z :=
  match l with
  | [] => None
  | _ =>
      let '(base, digits) := prefixed l in
      ns ← digits_in base digits 0 false;
      let '(n, seen) := ns in
      if seen && negb (underscoreOK l) then None else Some n
  end.

Definition parse_int (s : string) : option Z :=
  let '(neg, l) := GoTime.sign (bytes s) in
  n ← parse_uint l;
  if negb neg && (2 ^ 63 <=? n) || neg && (2 ^ 63 <? n) then None
  else Some (if neg : bool then - n else n).

Definition ParseBool (s : string) : option bool :=
  if has_string ["1"; "t"; "T"; "TRUE"; "true"; "True"] s then Some true
  else if has_string ["0"; "f"; "F"; "FALSE"; "false"; "False"] s then Some false
  else None.

Example int_plain : parse_int "-120" = Some (-120). Proof. reflexivity. Qed.
Example int_octal : parse_int "017" = Some 15. Proof. reflexivity. Qed.
Example int_hex : parse_int "0x_ff" = Some 255. Proof. reflexivity. Qed.
Example int_zero : parse_int "0" = Some 0. Proof. reflexivity. Qed.
Example int_bare_prefix : parse_int "0x" = None. Proof. reflexivity. Qed.
Example int_underscores : parse_int "1__0" = None. Proof. reflexivity. Qed.
Example int_decimal_underscore : parse_int "1_000" = Some 1000. Proof. reflexivity. Qed.
Example int_ninth : parse_int "09" = None. Proof. reflexivity. Qed.

(** ** flag *)

Section flags.
Context {F : Type}.

Record formal := Formal { fl_name : string; fl_bool : bool; fl_set : string → F → result F }.

(** What parsing ends with: the settings and what is left, the request for help, or
    an error. *)
Inductive parsed := Parsed (f : F) (rest : list string) | Help | Misused (e : error).

Fixpoint formal_of (formals : list formal) (name : string) : option formal :=
  match formals with
  | [] => None
  | x :: formals => if fl_name x =s? name then Some x else formal_of formals name
  end.

(** An argument: a flag with the value after its equals sign, if it has one; the
    terminator; no flag; or one that cannot be read. *)
Inductive argument := Flag (name : string) (value : option string) | Terminator | Word | Malformed.

(** The name ends at an equals sign that is not its first byte. *)
Definition split_value (l : list ascii) : string * option string :=
  match l with
  | c :: rest =>
      match index_byte "=" rest with
      | Some i => (of_bytes (c :: take i rest), Some (of_bytes (drop (i + 1) rest)))
      | None => (of_bytes l, None)
      end
  | [] => ("", None)
  end.

Definition read_argument (s : string) : argument :=
  match bytes s with
  | c :: (c1 :: rest) as l =>
      if negb (Ascii.eqb c "-") then Word
      else
        let double := Ascii.eqb c1 "-" in
        if double && is_nil rest then Terminator
        else
          let name := if double then rest else l in
          match name with
          | [] => Malformed
          | x :: _ =>
              if Ascii.eqb x "-" || Ascii.eqb x "=" then Malformed
              else let '(n, v) := split_value name in Flag n v
          end
  | _ => Word
  end.

Definition misused (e : error) : parsed := Misused (Wrapf "invalid value %q for flag -%s: %w" e).

Fixpoint parse_flags (formals : list formal) (args : list string) (f : F) : parsed :=
  match args with
  | [] => Parsed f []
  | s :: args' =>
      match read_argument s with
      | Word => Parsed f args
      | Terminator => Parsed f args'
      | Malformed => Misused (Errorf "bad flag syntax: %s")
      | Flag name value =>
          match formal_of formals name with
          | None =>
              if (name =s? "help") || (name =s? "h") then Help
              else Misused (Errorf "flag provided but not defined: -%s")
          | Some x =>
              if fl_bool x then
                match fl_set x (default "true" value) f with
                | Ok f => parse_flags formals args' f
                | Err e => misused e
                end
              else
                match value, args' with
                | Some v, _ =>
                    match fl_set x v f with
                    | Ok f => parse_flags formals args' f
                    | Err e => misused e
                    end
                | None, [] => Misused (Errorf "flag needs an argument: -%s")
                | None, v :: args' =>
                    match fl_set x v f with
                    | Ok f => parse_flags formals args' f
                    | Err e => misused e
                    end
                end
          end
      end
  end.
End flags.
Arguments formal : clear implicits.
Arguments parsed : clear implicits.

(** The values of the kinds of flags. *)
Definition set_string {F} (set : string → F → F) (v : string) (f : F) : result F := Ok (set v f).
Definition set_int {F} (set : Z → F → F) (v : string) (f : F) : result F :=
  match parse_int v with Some z => Ok (set z f) | None => Err (Errorf "parse error") end.
Definition set_bool {F} (set : bool → F → F) (v : string) (f : F) : result F :=
  match ParseBool v with Some b => Ok (set b f) | None => Err (Errorf "parse error") end.
Definition set_duration {F} (set : Z → F → F) (v : string) (f : F) : result F :=
  match GoTime.ParseDuration v with Ok z => Ok (set z f) | Err _ => Err (Errorf "parse error") end.

(** ** An integer reads back *)

Lemma digit_value_36 c d : digit_value c = Some d → digit36 c = Some d ∧ 0 ≤ d < 10 ∧ Ascii.eqb c "_" = false.
Proof.
  unfold digit_value, digit36. destruct (is_digit_ascii (code c)) eqn:E; [|done]. intros [= <-].
  split; [done|]. unfold is_digit_ascii, in_range in E. apply andb_true_iff in E as [E1 E2]. split; [lia|].
  destruct (Ascii.eqb_spec c "_") as [->|]; [done|done].
Qed.

Lemma digits_in_decimal l : ∀ n v seen,
  digits_value l n = Some v → 0 ≤ n → v < 2 ^ 64 → digits_in 10 l n seen = Some (v, seen) ∧ n ≤ v.
Proof.
  induction l as [|c l IH]; intros n v seen Hd Hn Hv; cbn in Hd; [injection Hd as ->; split; [done|lia]|].
  destruct (digit_value c) as [d|] eqn:Ec; [|done]. cbn in Hd.
  destruct (digit_value_36 c d Ec) as (E & Hr & Hu).
  destruct (IH (10 * n + d) v seen Hd ltac:(lia) Hv) as [Hi Hle]. split; [|lia].
  cbn [digits_in]. rewrite Hu, E. cbn [mbind option_bind].
  rewrite (proj2 (Z.leb_gt _ _)) by lia. rewrite (proj2 (Z.leb_gt (2 ^ 64) _)) by lia.
  by replace (n * 10 + d) with (10 * n + d) by lia.
Qed.

Lemma parse_uint_digits n : 0 ≤ n < 2 ^ 64 → parse_uint (digits_of n) = Some n.
Proof.
  intros Hn. destruct (decide (n = 0)) as [->|Hn0]; [done|].
  destruct (digits_of_spec n) as (c & l & E & Hd & Hv); [lia|].
  destruct (itoa_digits_head (S (Z.to_nat (Z.log2 n))) n []) as (c' & l' & E' & H0).
  { rewrite Nat2Z.inj_succ, Z2Nat.id by apply Z.log2_nonneg. pose proof (Z.log2_spec n). lia. }
  fold (digits_of n) in E'. rewrite E in *. injection E' as <- <-.
  unfold parse_uint, prefixed. rewrite H0.
  by destruct (digits_in_decimal (c :: l) 0 n false Hv) as [-> _]; [lia..|].
Qed.

Lemma parse_int_Itoa z : int64 z → parse_int (Itoa z) = Some z.
Proof.
  unfold int64, int64_min, int64_max. intros Hz. unfold parse_int, Itoa. rewrite bytes_of_bytes.
  destruct (Z.ltb_spec z 0).
  - assert (∀ l, GoTime.sign ("-"%char :: l) = (true, l)) as -> by done.
    rewrite parse_uint_digits by lia. cbn [mbind option_bind negb andb orb].
    rewrite (proj2 (Z.ltb_ge _ _)) by lia. f_equal. lia.
  - destruct (digits_of_spec z) as (c & l & E & Hd & _); [done|].
    destruct (digit_char_not_sign c) as [E1 E2]; [by apply Forall_cons in Hd as [? _]|].
    assert (GoTime.sign (digits_of z) = (false, digits_of z)) as ->.
    { rewrite E. cbn. by rewrite E1, E2. }
    rewrite parse_uint_digits by lia. cbn [mbind option_bind negb andb orb].
    by rewrite (proj2 (Z.leb_gt _ _)) by lia.
Qed.

(** ** An assignment is taken *)

Definition assign (name v : string) : string := "-" +:+ name +:+ "=" +:+ v.

(** A name that stands for itself on the command line. *)
Definition flag_name (name : string) : bool :=
  match bytes name with
  | c :: l => negb (Ascii.eqb c "-") && negb (Ascii.eqb c "=") && negb (is_some (index_byte "=" l))
  | [] => false
  end.

Lemma index_byte_app c l rest : index_byte c l = None → index_byte c (l ++ c :: rest) = Some (length l).
Proof.
  induction l as [|a l IH]; cbn; [by rewrite Ascii.eqb_refl|]. destruct (Ascii.eqb a c); [done|].
  destruct (index_byte c l); [done|]. intros _. by rewrite IH.
Qed.

Lemma read_assignment name v : flag_name name = true → read_argument (assign name v) = Flag name (Some v).
Proof.
  unfold flag_name, assign, read_argument. intros Hn.
  rewrite !bytes_app. change (bytes "-") with ["-"%char]. change (bytes "=") with ["="%char].
  rewrite <- (of_bytes_bytes name) at 2. destruct (bytes name) as [|c l]; [done|].
  apply andb_true_iff in Hn as [[Hc He]%andb_true_iff Hi].
  apply negb_true_iff in Hc, He, Hi. cbn [app]. rewrite Ascii.eqb_refl. cbn [negb]. cbv zeta. rewrite !Hc, He.
  cbn [andb orb]. unfold split_value.
  rewrite index_byte_app by by destruct (index_byte "=" l).
  rewrite take_app_length, drop_app_add, skipn_cons, drop_0. by rewrite of_bytes_bytes.
Qed.

Lemma parse_assignment {F} (formals : list (formal F)) name v x f f' args :
  flag_name name = true → formal_of formals name = Some x → fl_set x v f = Ok f' →
  parse_flags formals (assign name v :: args) f = parse_flags formals args f'.
Proof.
  intros Hn Hx Hs. cbn [parse_flags]. rewrite (read_assignment _ _ Hn), Hx. change (default "true" (Some v)) with v.
  destruct (fl_bool x); by rewrite Hs.
Qed.
