(* ===== verification/Probe.v ===== *)
(** * cmd/probe: the health check

    The probe sends one request to the inspector and compares the verdict. The bus is
    a parameter. [main] is the command, from its arguments and the environment to the
    exit status; what it prints is left out. [probe_profile] is the profile of the
    image the request is for, and [probe_healthy] the reason a verdict of the probe
    shows that the inspector works. *)
From S2P Require Import Prelude GoString Flags Json Wire AuditLog Body Protocol Messages.
From S2P Require Import Profile Decide Handler Events.
From S2P Require GoTime Findings Schema Validate Queue Snapshot.

(** [fmt.Sprintf("%016x", z)] of a positive number. *)
Fixpoint hex_digits (n : nat) (z : Z) (acc : list ascii) : list ascii :=
  match n with
  | O => acc
  | S n => hex_digits n (z / 16) (lower_hex (z mod 16) :: acc)
  end.
Definition hex16 (z : Z) : string := of_bytes (hex_digits 16 z []).

(** [now] and [timeout] are in nanoseconds. *)
Definition request (name profile uri method phase : string) (status timeout now : Z) : Request :=
  let '(path, args, _) := Cut uri "?" in {|
  V := Version; RID := hex16 now; Ray := ""; Phase := phase; Wave := 0; Inspector := name;
  DeadlineMS := Z.quot timeout 1000000; AuditSubject := None; Node := "probe";
  Request_Conn := {| Conn_ClientIP := "127.0.0.1"; Conn_ClientPort := 12345;
                     Conn_ServerIP := "127.0.0.1"; Conn_ServerPort := 8080; Conn_TLS := None |};
  Request_HTTP := {| HTTP_Method := method; HTTP_Scheme := "http"; HTTP_Host := "probe.local";
                     HTTP_URI := path; HTTP_ArgsSize := slen args; HTTP_Version := "HTTP/1.1" |};
  Vars := ∅; Needs := []; Request_Store := no_store;
  Request_Route := {| Route_ServerName := "probe.local"; Route_Location := "/";
                      Route_Profile := profile |};
  Request_Score := {| ScoreState_Total := 0; ScoreState_DenyAt := 100 |}; Prior := [];
  Request_Response :=
    if phase =s? PhaseResponse
    then Some {| Response_Status := status; Response_Headers := []; Response_UpstreamMS := 0 |}
    else None;
  RequestStore := no_store; Request_Resume := None; Request_Release := None;
  ConnID := ""; Seq := 0; Request_Stream := None
|}.

Section run.
Context `{Unicode}.
(** The bus, connected: the answer to a request on a subject. *)
Context (connect : result (string → string → result string)).

Definition run (subject name profile uri method phase expect : string) (status timeout now : Z)
    : result unit :=
  ask ← connect;
  let payload := MarshalRequest (request name profile uri method phase status timeout now) in
  data ← wrapf "no verdict from %s: %w" (ask subject payload);
  reply ← wrapf "malformed reply: %w" (UnmarshalReply data);
  fail_if (negb (is_empty expect) && negb (Reply_Verdict reply =s? expect))
    "verdict is %q, expected %q".
End run.

(** ** The command *)

Record options := Options {
  o_servers : string; o_subject : string; o_inspector : string; o_profile : string; o_uri : string;
  o_method : string; o_phase : string; o_status : Z; o_expect : string; o_timeout : Z; o_quiet : bool
}.

Definition env (lookup : string → option string) (name def : string) : string :=
  match lookup name with Some v => if is_empty v then def else v | None => def end.

(** [time.Second] is the default of [-timeout]. *)
Definition default_options (lookup : string → option string) : options :=
  Options (env lookup "NATS_URL" "nats://127.0.0.1:4222") (env lookup "WAF_JSON_SUBJECT" "waf.req.json")
    (env lookup "WAF_JSON_NAME" "json") "_probe" "/healthcheck" "GET" PhaseRequest 200 VerdictDeny
    GoTime.Second false.

Definition formals : list (formal options) := [
  Formal "servers" false (set_string (λ v '(Options _ su na pr ur me ph st ex ti qu),
    Options v su na pr ur me ph st ex ti qu));
  Formal "subject" false (set_string (λ v '(Options se _ na pr ur me ph st ex ti qu),
    Options se v na pr ur me ph st ex ti qu));
  Formal "inspector" false (set_string (λ v '(Options se su _ pr ur me ph st ex ti qu),
    Options se su v pr ur me ph st ex ti qu));
  Formal "profile" false (set_string (λ v '(Options se su na _ ur me ph st ex ti qu),
    Options se su na v ur me ph st ex ti qu));
  Formal "uri" false (set_string (λ v '(Options se su na pr _ me ph st ex ti qu),
    Options se su na pr v me ph st ex ti qu));
  Formal "method" false (set_string (λ v '(Options se su na pr ur _ ph st ex ti qu),
    Options se su na pr ur v ph st ex ti qu));
  Formal "phase" false (set_string (λ v '(Options se su na pr ur me _ st ex ti qu),
    Options se su na pr ur me v st ex ti qu));
  Formal "status" false (set_int (λ v '(Options se su na pr ur me ph _ ex ti qu),
    Options se su na pr ur me ph v ex ti qu));
  Formal "expect" false (set_string (λ v '(Options se su na pr ur me ph st _ ti qu),
    Options se su na pr ur me ph st v ti qu));
  Formal "timeout" false (set_duration (λ v '(Options se su na pr ur me ph st ex _ qu),
    Options se su na pr ur me ph st ex v qu));
  Formal "quiet" true (set_bool (λ v '(Options se su na pr ur me ph st ex ti _),
    Options se su na pr ur me ph st ex ti v))
].

Section command.
Context `{Unicode}.

(** The exit status: [flag.ExitOnError] leaves with 2, or with 0 when help is asked
    for; a probe that fails leaves with 1. *)
Definition main (lookup : string → option string) (args : list string)
    (Connect : string → Z → result (string → string → result string)) (now : Z) : Z :=
  match parse_flags formals args (default_options lookup) with
  | Help => 0
  | Misused _ => 2
  | Parsed o _ =>
      match run (Connect (o_servers o) (o_timeout o)) (o_subject o) (o_inspector o) (o_profile o)
              (o_uri o) (o_method o) (o_phase o) (o_expect o) (o_status o) (o_timeout o) now with
      | Ok _ => 0
      | Err _ => 1
      end
  end.

Example main_help lookup Connect now : main lookup ["-help"] Connect now = 0.
Proof. reflexivity. Qed.
Example main_unknown lookup Connect now : main lookup ["--quiet"; "-verbose"] Connect now = 2.
Proof. reflexivity. Qed.
Example main_bad_status lookup Connect now : main lookup ["-status"; "many"] Connect now = 2.
Proof. reflexivity. Qed.

(** Arguments that give every setting. *)
Definition render (o : options) : list string := [
  assign "servers" (o_servers o); assign "subject" (o_subject o); assign "inspector" (o_inspector o);
  assign "profile" (o_profile o); assign "uri" (o_uri o); assign "method" (o_method o);
  assign "phase" (o_phase o); assign "status" (Itoa (o_status o)); assign "expect" (o_expect o);
  assign "timeout" (Itoa (o_timeout o) +:+ "ns");
  assign "quiet" (if o_quiet o then "true" else "false") ].

(** Every setting can be given on the command line, whatever its text and whatever
    the environment says. *)
Lemma parse_rendered o f0 :
  int64 (o_status o) → int64 (o_timeout o) → parse_flags formals (render o) f0 = Parsed o [].
Proof.
  intros Hs Ht. destruct o as [se su na pr ur me ph st ex ti qu]. destruct f0. cbn in Hs, Ht. unfold render.
  cbn [o_servers o_subject o_inspector o_profile o_uri o_method o_phase o_status o_expect o_timeout o_quiet].
  do 7 (erewrite parse_assignment; [|reflexivity..]).
  erewrite parse_assignment; [|reflexivity..|cbn; unfold set_int; by rewrite parse_int_Itoa].
  erewrite parse_assignment; [|reflexivity..].
  erewrite parse_assignment;
    [|reflexivity..|cbn; unfold set_duration; by rewrite (GoTime.ParseDuration_whole ti "ns" 1), Z.mul_1_r
      by (done || by rewrite Z.mul_1_r)].
  erewrite parse_assignment; [|reflexivity..|]; [reflexivity|by destruct qu].
Qed.

(** The exit status is that of the run the arguments describe. *)
Theorem main_spec lookup o Connect now :
  int64 (o_status o) → int64 (o_timeout o) →
  main lookup (render o) Connect now =
    if is_ok (run (Connect (o_servers o) (o_timeout o)) (o_subject o) (o_inspector o) (o_profile o)
                (o_uri o) (o_method o) (o_phase o) (o_expect o) (o_status o) (o_timeout o) now)
    then 0 else 1.
Proof. intros Hs Ht. unfold main. rewrite parse_rendered by done. by destruct (run _ _ _ _ _ _ _ _ _ _ _). Qed.
End command.

(** ** What the probe sends *)

Lemma hex_digits_length n : ∀ z acc, length (hex_digits n z acc) = (n + length acc)%nat.
Proof. induction n as [|n IH]; intros z acc; cbn; [done|]. rewrite IH. cbn. lia. Qed.

Lemma hex16_nonempty z : hex16 z ≠ "".
Proof.
  unfold hex16. intros E. apply (f_equal bytes) in E. rewrite bytes_of_bytes in E.
  pose proof (hex_digits_length 16 z []) as Hl. by rewrite E in Hl.
Qed.

Lemma request_fields name profile uri method phase status timeout now :
  let r := request name profile uri method phase status timeout now in
  let path := (Cut uri "?").1.1 in
  RID r = hex16 now ∧ V r = Version ∧ Inspector r = name ∧ Phase r = phase ∧
  HTTP_Method (Request_HTTP r) = method ∧ HTTP_URI (Request_HTTP r) = path ∧
  Request_Release r = None ∧ Request_Store r = no_store ∧ RequestStore r = no_store.
Proof. unfold request. destruct (Cut uri "?") as [[path args] found]. cbn. by split_and!. Qed.

(** The inspector takes the probe's request for well formed exactly when the flags
    name an inspector, a phase the protocol has, a method and a path before the
    query. *)
Theorem request_accepted name profile uri method phase status timeout now :
  request_wf (request name profile uri method phase status timeout now) ↔
  name ≠ "" ∧ (phase = PhaseRequest ∨ phase = PhaseResponse ∨ phase = PhaseFrame) ∧
  method ≠ "" ∧ (Cut uri "?").1.1 ≠ "".
Proof.
  destruct (request_fields name profile uri method phase status timeout now)
    as (E1 & E2 & E3 & E4 & E5 & E6 & E7 & E8 & E9).
  split.
  - intros [_ _ Hi Hp _ Hh _]. rewrite E3 in Hi. rewrite E4 in Hp. rewrite E5, E6 in Hh.
    destruct (Hh E7). by split_and!.
  - intros (Hn & Hp & Hm & Hu). split; rewrite ?E1, ?E2, ?E3, ?E4, ?E5, ?E6, ?E7, ?E8, ?E9; try done;
      try (by apply hex16_nonempty).
    all: intros _; repeat constructor.
Qed.

(** ** The profile it asks for *)

(** profiles/_probe/profile.yaml, read over [p]. *)
Definition probe_document (p : Profile) : Profile := {|
  Name := Name p; Mode := ModeEnforce;
  Description := "Probe: any path outside /_probe/valid must get deny";
  Profile_Schema := {| Schema_Kind := KindJSONSchema; Schema_Source := "";
                       Schema_BasePath := Schema_BasePath (Profile_Schema p) |};
  Profile_Trigger := Profile_Trigger p;
  Profile_Request :=
    let r := Req_Policy (Profile_Request p) in {|
    Req_Enabled := true; Req_Checks := Req_Checks (Profile_Request p);
    Req_Policy := {|
      Req_Invalid := Req_Invalid r; Req_Unparsable := Req_Unparsable r;
      Req_Truncated := Req_Truncated r;
      Req_UnknownOperation :=
        {| Rule_Action := ActionDeny; Rule_Score := Rule_Score (Req_UnknownOperation r) |};
      Req_ContentType := Req_ContentType r; Req_Unavailable := Req_Unavailable r |};
    Req_DenyResponse := "json_invalid"; Req_Outcomes := Req_Outcomes (Profile_Request p) |};
  Profile_Response :=
    let r := Profile_Response p in {|
    Resp_Enabled := false; Resp_Checks := Resp_Checks r; Resp_Policy := Resp_Policy r;
    Resp_OnlyTypes := Resp_OnlyTypes r; Resp_DenyResponse := Resp_DenyResponse r;
    Resp_Outcomes := Resp_Outcomes r |};
  Profile_Frame := Profile_Frame p;
  Bindings := [{| Binding_Methods := []; Binding_Path := "/_probe/valid";
                  Binding_Match := MatchPrefix; Binding_Schema := "probe" |}];
  Profile_Limits := Profile_Limits p; Profile_Audit := Profile_Audit p; Documents := Documents p
|}.

Definition probe_profile : Profile := probe_document (defaults ProbeName).

(** It is what the parser makes of the document, and it is valid. *)
Lemma probe_profile_parsed raw :
  ParseProfile (λ p _, Ok (probe_document p)) ProbeName raw = Ok probe_profile ∧
  Validate (H := ascii_tables) probe_profile = Ok tt.
Proof. split; reflexivity. Qed.

#[local] Arguments HasPrefix : simpl never.

(** What the probe is answered. *)
Definition denial (req : Request) : Reply :=
  set_response (Some {| ResponseRef_Name := "json_invalid" |})
    (set_reason (Some {| Reason_Code := CodeUnknownOperation; Reason_Class := "" |})
       (NewReply req VerdictDeny)).

Lemma denial_sendable req : sendable request_t req = true → sendable reply_t (denial req) = true.
Proof.
  unfold sendable. intros Hs. cbn in Hs.
  do 6 (apply andb_true_iff in Hs as [?%andb_true_iff Hs]). cbn -[JsonWrite.utf8 int64]. intuition.
  repeat match goal with E : _ = true |- _ => rewrite E; clear E end. by vm_compute.
Qed.

Section health.
Context `{Unicode} {M I K S N D : Type}.
Context (KeywordPath : K → list string) (LocalizedString : K → string).
Context (sha256 : string → string) (gcm_open : string → string → string → option string).
Context (marshal_value : value → result string).
Context (sch_validate : S → value → result (@Schema.validation K)) (error_text : error → string).
Context (unmarshal_headers : string → result (list Header)).
Context (Networked : string → bool) (geo_Write : string → string → result (list string)).
Context (yaml_decode : Profile → string → result Profile).
Context (openapi_model : string → result (option (@Schema.OpenAPI M I K))).
Context (yaml_unmarshal : string → result N) (json_marshal : N → result string).
Context (read_json : string → result D).
Context (compile : (string → result D) → string → D → result S).

Abbreviation handler := (@handler M I K S).
Abbreviation inspect := (inspect KeywordPath LocalizedString sha256 gcm_open marshal_value sch_validate
  error_text unmarshal_headers Networked geo_Write (M := M) (I := I)).
Abbreviation build := (Schema.build openapi_model yaml_unmarshal json_marshal read_json compile).
Abbreviation Compile := (Schema.Compile openapi_model yaml_unmarshal json_marshal read_json compile).
Abbreviation LoadMany := (LoadMany sha256 gcm_open).

(** Nothing is asked of the store for a request without locators. *)
Lemma LoadMany_nothing l : LoadMany l [None; None; None] = Ok [no_body; no_body; no_body].
Proof.
  unfold Body.LoadMany. destruct (store l) as [s|]; [|done]. cbn. by destruct (GetMany s).
Qed.

(** The contract of the probe's profile: one binding, and no schema for the rest. *)
Lemma probe_contract docs c :
  build (Snapshot.with_documents docs probe_profile) = Ok c →
  Schema.Contract_kind c = KindJSONSchema ∧ Schema.main c = None ∧
  Schema.bindings c = Bindings probe_profile.
Proof. intros (b & _ & Hb)%bind_ok. by injection Hb as <-. Qed.

Lemma probe_unbound (c : @Schema.Contract M I K S) method path :
  Schema.main c = None → Schema.bindings c = Bindings probe_profile →
  HasPrefix path "/_probe/valid" = false → Schema.pick c method path = (None, "").
Proof.
  intros Hm Hb Hp. unfold Schema.pick. rewrite Hm, Hb. unfold probe_profile, probe_document.
  cbn [Bindings Schema.pick_binding]. unfold Binding_Matches, matchesMethod.
  cbn [Binding_Methods Binding_Match Binding_Path is_nil negb].
  change (MatchPrefix =s? MatchExact) with false. change (MatchPrefix =s? MatchPrefix) with true.
  by rewrite Hp.
Qed.

Abbreviation Run := (Validate.Run KeywordPath LocalizedString sha256 marshal_value sch_validate
  error_text (M := M) (I := I)).

(** The run over the probe's request: no schema is bound to its path. *)
Lemma probe_run docs (c : @Schema.Contract M I K S) req hs :
  Schema.Contract_kind c = KindJSONSchema → Schema.main c = None →
  Schema.bindings c = Bindings probe_profile → Phase req = PhaseRequest →
  HasPrefix (Validate.pathOf (HTTP_URI (Request_HTTP req))) "/_probe/valid" = false →
  ∃ out, Run {| Validate.Req := req; Validate.In_Profile := Snapshot.with_documents docs probe_profile;
      Validate.In_Contract := c; Validate.In_Body := no_body; Validate.In_Args := no_body;
      Validate.In_Headers := hs |} = Ok out ∧
    Validate.out_Outcome out = OutcomeUnknownOperation ∧ Validate.out_Fault out = "".
Proof.
  intros Hk Hm Hb Hph Hp. unfold Validate.Run. cbn [Validate.Req]. rewrite Hph.
  change (PhaseRequest =s? PhaseResponse) with false. change (PhaseRequest =s? PhaseFrame) with false.
  cbv iota. unfold Validate.requestPhase, Validate.body_gate, Schema.Request. cbn -[Schema.pick].
  rewrite Hk. change (KindJSONSchema =s? KindJSONSchema) with true.
  unfold Schema.requestBySchema, Schema.bySchema. cbn -[Schema.pick].
  rewrite (probe_unbound c _ _ Hm Hb Hp). cbn. eexists. split; [reflexivity|]. cbn.
  by rewrite andb_false_r.
Qed.

Lemma probe_request name uri method status timeout now :
  let r := request name ProbeName uri method PhaseRequest status timeout now in
  HasPrefix uri "/_probe/valid" = false →
  Phase r = PhaseRequest ∧ Request_Store r = no_store ∧ Prior r = [] ∧
  Conn_ClientIP (Request_Conn r) = "127.0.0.1" ∧
  HasPrefix (Validate.pathOf (HTTP_URI (Request_HTTP r))) "/_probe/valid" = false.
Proof.
  cbv zeta. intros Hu. destruct (request_fields name ProbeName uri method PhaseRequest status timeout now)
    as (_ & _ & _ & -> & _ & -> & _ & -> & _).
  unfold request. destruct (Cut uri "?") as [[path args] found] eqn:E. cbn. split_and!; try done.
  apply not_true_iff_false. intros Hp. apply not_true_iff_false in Hu. apply Hu.
  assert (HasPrefix path "/_probe/valid" = true) as Hq.
  { revert Hp. unfold Validate.pathOf. destruct (IndexByte path "?"); [apply HasPrefix_take|done]. }
  revert E. unfold Cut. destruct (IndexByte uri "?"); intros [= <- <- <-]; [by eapply HasPrefix_take|done].
Qed.

(** The answer to an operation the contract does not describe, whatever the task:
    the profile has no outcomes, so nothing fires and no list is written. *)
Lemma probe_decided (h : handler) docs ask (c : @Schema.Contract M I K S) out us t :
  Phase (Queue.Task_Req t) = PhaseRequest →
  Validate.out_Outcome out = OutcomeUnknownOperation →
  an_reply (decided error_text Networked geo_Write h t (Snapshot.with_documents docs probe_profile)
    ask c no_body out us) = denial (Queue.Task_Req t).
Proof.
  intros Hph Hout. unfold decided, fired_by, decision_reply, denyResponseOf, phasePolicy, denial.
  by rewrite Hph, Hout.
Qed.

Abbreviation evaluate := (evaluate KeywordPath LocalizedString sha256 gcm_open marshal_value sch_validate
  error_text unmarshal_headers Networked geo_Write marshal_event (M := M) (I := I)).
Abbreviation receive := (receive marshal_event (M := M) (I := I) (K := K) (S := S)).

(** A request sent as its document is the task of the message. *)
Lemma received (h : handler) req ts reply_to o :
  request_wf req → Request_Release req = None → sendable request_t req = true →
  V req ∈ cfg_versions h →
  receive UnmarshalRequest h ts (MarshalRequest req) reply_to o =
    (o, Some (Queue.MkTask req reply_to false 0 0)).
Proof.
  intros Hwf Hrel Hsend Hv. unfold Handler.receive.
  rewrite (proj2 (Parse_request UnmarshalRequest (MarshalRequest req) req)).
  - rewrite (proj2 (Config.supports_spec _ _) Hv), Hrel. cbn [negb].
    by rewrite (proj2 (phase_check_false _) (wf_phase _ Hwf)).
  - split; [|done]. by apply read_back_request.
Qed.

(** Over a sound snapshot that has the image's probe profile, the inspection of the
    probe's request is the denial. *)
Lemma probe_inspected (h : handler) snap docs name uri method status timeout now us t :
  Snapshot.snapshot_ok yaml_decode (Some Compile) snap → current h = Some snap →
  Snapshot.byName snap !! ProbeName = Some (Snapshot.with_documents docs probe_profile) →
  HasPrefix uri "/_probe/valid" = false →
  Queue.Task_Req t = request name ProbeName uri method PhaseRequest status timeout now →
  ∃ a, inspect h t us = Ok a ∧ an_reply a = denial (Queue.Task_Req t).
Proof.
  intros Hs Hh Hp Hu Ht.
  assert (profile h (Queue.Task_Req t) = Some (Snapshot.with_documents docs probe_profile)) as Hpr.
  { unfold profile. rewrite Hh, Ht. unfold request. by destruct (Cut uri "?") as [[path args] found]. }
  destruct (sound_contract yaml_decode openapi_model yaml_unmarshal json_marshal read_json compile snap ProbeName _
    Hs Hp) as (c & Hb & Hc); [done|].
  apply probe_contract in Hb as (Hk & Hm & Hbs).
  assert (Phase (Queue.Task_Req t) = PhaseRequest ∧ Request_Store (Queue.Task_Req t) = no_store ∧
    Prior (Queue.Task_Req t) = [] ∧ Conn_ClientIP (Request_Conn (Queue.Task_Req t)) = "127.0.0.1" ∧
    HasPrefix (Validate.pathOf (HTTP_URI (Request_HTTP (Queue.Task_Req t)))) "/_probe/valid" = false)
    as (Hph & Hst & Hpri & Hip & Hpath).
  { rewrite Ht. apply probe_request, Hu. }
  destruct (probe_run docs c (Queue.Task_Req t) (headers unmarshal_headers no_body) Hk Hm Hbs Hph Hpath)
    as (out & Hrun & Hout & Hfault).
  exists (decided error_text Networked geo_Write h t (Snapshot.with_documents docs probe_profile)
    (EvaluatePrior [] (Trigger_Prior (Profile_Trigger probe_profile))) c no_body out us).
  split; [|by apply probe_decided].
  etrans; [apply (inspect_examines _ _ _ _ _ _ _ _ _ _ h t us _ c Hpr)|].
  - done.
  - by rewrite Hph.
  - by rewrite Hpri.
  - by rewrite Hh.
  - rewrite Hpri. eapply examine_decides; [done| |exact Hrun|done].
    unfold locators. rewrite Hph, Hst. apply LoadMany_nothing.
Qed.

(** C11. What the health check relies on, from bytes to bytes. Over any sound snapshot
    that has the image's probe profile, with any loader, a store or none: when the
    flags name an inspector, a method and a path that does not begin with
    /_probe/valid, in valid text, the document the probe sends is received as the
    request it stands for, whatever the pool then does to the task the handler
    answers it with one reply, and the document of that reply makes the probe that
    expects a denial succeed. *)
Theorem probe_healthy (h : handler) snap docs name uri method status timeout now ts reply_to o :
  let req := request name ProbeName uri method PhaseRequest status timeout now in
  Snapshot.snapshot_ok yaml_decode (Some Compile) snap → current h = Some snap →
  Snapshot.byName snap !! ProbeName = Some (Snapshot.with_documents docs probe_profile) →
  HasPrefix uri "/_probe/valid" = false → name ≠ "" → method ≠ "" → (Cut uri "?").1.1 ≠ "" →
  sendable request_t req = true → Version ∈ cfg_versions h → reply_to ≠ "" →
  receive UnmarshalRequest h ts (MarshalRequest req) reply_to o =
    (o, Some (Queue.MkTask req reply_to false 0 0)) ∧
  ∀ t budget us ts' o', Queue.identity t = (req, reply_to) → ∃ r,
    published (evaluate h t budget "" us ts' o') = (published o' ++ [(reply_to, r)])%list ∧
    Reply_RID r = RID req ∧ Reply_Verdict r = VerdictDeny ∧
    ∀ subject, run (Ok (λ _ _, MarshalReply r)) subject name ProbeName uri method PhaseRequest
      VerdictDeny status timeout now = Ok tt.
Proof.
  cbv zeta. intros Hs Hh Hp Hu Hn Hm Hpath Hsend Hv Hto.
  set (req := request _ _ _ _ _ _ _ _) in *. apply is_empty_false in Hto. split.
  - destruct (request_fields name ProbeName uri method PhaseRequest status timeout now)
      as (_ & Ev & _ & _ & _ & _ & Er & _). apply received; try done.
    + apply request_accepted. by split_and!; auto.
    + change (V req = Version) in Ev. by rewrite Ev.
  - intros t budget us ts' o' Ht. injection Ht as Ht Hr.
    destruct (probe_inspected h snap docs name uri method status timeout now us t Hs Hh Hp Hu Ht)
      as (a & Hi & Ha).
    unfold Handler.evaluate, answer_task. cbn [is_empty negb]. rewrite Hi, Ha, Ht, Hr.
    destruct (send_published marshal_event ts' reply_to (denial req) (Some req) (an_details a)
      (add_writes (an_writes a) o')) as (r & Hpub & _ & Hok).
    rewrite Hto, (Hok eq_refl) in Hpub. exists (denial req). split_and!; [done..|]. intros subject.
    unfold run. cbn [mbind result_bind]. change (MarshalReply (denial req)) with
      (Ok (Wire.Marshal reply_t (denial req))). cbn [mbind result_bind wrapf].
    by rewrite read_back_reply by by apply denial_sendable.
Qed.
End health.

(** ** Witnesses *)

#[local] Existing Instance ascii_tables.

(** The image's directory: the default profile, which is off, and the probe's. *)
Definition sample_image : FileTree.FS :=
  {[ ["p"] := FileTree.Dir true; ["p"; "default"] := FileTree.Dir true;
     ["p"; "default"; Snapshot.profileFile] := FileTree.File "off" 1 true;
     ["p"; "_probe"] := FileTree.Dir true;
     ["p"; "_probe"; Snapshot.profileFile] := FileTree.File "probe" 1 true;
     ["p"; "_probe"; "schema-probe"] := FileTree.File "{}" 1 true ]}.

Definition sample_image_decode (p : Profile) (raw : string) : result Profile :=
  if raw =s? "probe" then Ok (probe_document p) else Snapshot.sample_decode p raw.

Definition sample_compiler : option (list Profile → result (Schema.ContractSet unit unit string unit)) :=
  Some (@Schema.Compile unit unit string unit string (λ _, Err EOF) (λ raw, Ok raw)
    (λ raw, Ok raw) string (λ raw, Ok raw) (λ _ _ _, Ok tt)).

Definition sample_image_store : Snapshot.Store (Schema.ContractSet unit unit string unit) :=
  match Snapshot.LoadProfiles sample_image_decode id sample_compiler sample_image sample_image ["p"] with
  | Ok s => s
  | Err _ => Snapshot.MkStore [] [] None 0
  end.

(** Without a store for bodies, and with a query in the path asked for. *)
Definition sample_probe_handler : @handler unit unit string unit :=
  Handler "json" [2] (Snapshot.cur sample_image_store) {| store := None; keys := None |} true.

Definition sample_probe : Request :=
  request "json" ProbeName "/healthcheck?deep=1" "GET" PhaseRequest 200 1000000000 1.

(** A bus with this inspector at its other end. *)
Definition sample_bus (_ payload : string) : result string :=
  match receive marshal_event UnmarshalRequest sample_probe_handler "" payload "_INBOX.1"
          (Outbox None [] [] []) with
  | (o, Some t) =>
      match published (evaluate (λ k, [k]) id id sample_gcm (λ _, Ok "") Schema.sample_validate
          (λ _, "") (λ _, Ok []) (λ _, false) (λ _ _, Ok []) marshal_event sample_probe_handler t
          0 "" 0 "" o) with
      | [(_, r)] => MarshalReply r
      | _ => Err EOF
      end
  | (_, None) => Err EOF
  end.

Lemma run_answered (bus : string → string → result string) answer subject name profile uri method
    phase expect status timeout now :
  bus subject (MarshalRequest (request name profile uri method phase status timeout now)) = answer →
  run (Ok (λ _ _, answer)) subject name profile uri method phase expect status timeout now =
    run (Ok bus) subject name profile uri method phase expect status timeout now.
Proof. by intros <-. Qed.

Lemma sample_bus_answers r payload t :
  receive marshal_event UnmarshalRequest sample_probe_handler "" payload "_INBOX.1"
    (Outbox None [] [] []) = (Outbox None [] [] [], Some t) →
  published (evaluate (λ k, [k]) id id sample_gcm (λ _, Ok "") Schema.sample_validate
    (λ _, "") (λ _, Ok []) (λ _, false) (λ _ _, Ok []) marshal_event sample_probe_handler t
    0 "" 0 "" (Outbox None [] [] [])) = [("_INBOX.1", r)] →
  sample_bus "waf.req.json" payload = MarshalReply r.
Proof. intros Hrec Hpub. unfold sample_bus. by rewrite Hrec, Hpub. Qed.

Theorem probe_healthy_witness :
  run (Ok sample_bus) "waf.req.json" "json" ProbeName "/healthcheck?deep=1" "GET" PhaseRequest
    VerdictDeny 200 1000000000 1 = Ok tt.
Proof.
  assert (Snapshot.LoadProfiles sample_image_decode id sample_compiler sample_image sample_image ["p"] =
    Ok sample_image_store) as E by (vm_compute; reflexivity).
  destruct (Snapshot.sw_cur _ _ _ (Snapshot.loaded_sound _ _ _ _ _ _ _ E)) as (snap & Hc & Hs).
  assert ((λ s, Snapshot.byName s !! ProbeName) <$> Snapshot.cur sample_image_store =
    Some (Some (Snapshot.with_documents {["probe" := "{}"]} probe_profile))) as Hp
    by (vm_compute; reflexivity).
  cbn [Snapshot.store] in Hc. rewrite Hc in Hp. injection Hp as Hp.
  destruct (probe_healthy (λ k, [k]) id id sample_gcm (λ _, Ok "") Schema.sample_validate (λ _, "")
    (λ _, Ok []) (λ _, false) (λ _ _, Ok []) sample_image_decode _ _ _ _ _ sample_probe_handler snap
    {["probe" := "{}"]} "json" "/healthcheck?deep=1" "GET" 200 1000000000 1 "" "_INBOX.1"
    (Outbox None [] [] []) Hs Hc Hp eq_refl) as [Hrec Hans];
    [done|done|done|by vm_compute|by left|done|].
  destruct (Hans (Queue.MkTask sample_probe "_INBOX.1" false 0 0) 0 0 "" (Outbox None [] [] []) eq_refl)
    as (r & Hpub & _ & _ & Hrun).
  rewrite <- (run_answered sample_bus (MarshalReply r)); [exact (Hrun _)|].
  exact (sample_bus_answers r _ _ Hrec Hpub).
Defined.
